(* ===== verification/_CoqProject ===== *)
-Q . S2P
Prelude.v
CStrings.v
Storage.v
ThreadSafe.v
SimpleLRU.v
LruStorage.v
LruWellFormed.v
Commands.v
Parser.v
MtCommands.v
LruCommands.v
LruConcurrent.v
Connection.v
Wire.v
Network.v
LruServer.v
Servers.v
Clients.v
LruClients.v
Concur.v
Handover.v
PosixSem.v
PipeExample.v
DatagramRing.v
SharedMutex.v
CountDownLatch.v
Locks.v
FileLocks.v
CondVar.v
IpcSort.v
SemEvents.v
MsgQueue.v
SemTxn.v
Logging.v
HwSort.v
JumpExample.v
Shell.v
ShellMain.v
ShellUnused.v
EventLoops.v
EventServers.v
NumberClients.v
Coroutine.v
ContextSwap.v
Lifecycle.v
Application.v
MtWorkers.v
MtEpoll.v
Echo.v
EpollExample.v
Cthread.v
