(* ===== verification/Prelude.v ===== *)
(** * Verification of bd_tarantul (src/sysprog)

    The repository holds Afina, a caching server that speaks the text protocol of
    memcached (src/sysprog/afina), and the assignments and examples of a course on
    systems programming (src/sysprog/1, 2, lecture_examples, afina/materials).  This
    library models their own logic as executable definitions and proves what makes it
    correct, or what it does instead.  This file is its root and the prelude that the others
    share: the monad [prog] (state, exceptions, undefined behaviour, fuel), machine integers
    ([wrap]), byte strings, decimal numbers, sequences of steps ([star]).

    ** How the parts of the server interact

    A server ([Network], [Servers], [Lifecycle], [MtWorkers]) accepts connections; each
    runs the loop of [Connection]: bytes go through [Parser], a complete line becomes a
    command ([Commands]), its data block is read, the command runs over the interface
    of [Storage] and its reply is handed back.  [SimpleLRU] is the storage behind
    that interface, alone or under the mutex of [ThreadSafe].  [Application] is main.cpp: it
    configures the logging ([Logging]) and the server, starts both, waits for a signal and
    stops them.  The clients are proved against type classes: the commands and
    the connections against [Storage.Storage] and its laws, the guard of [SharedMutex] against a
    class of mutexes; [LruStorage] is the instance for the cache, and [LruServer] and
    [LruClients] close the chain: the events that epoll reports to the server, over the cache,
    are answered to every client as by a map.

    ** Files and code

    Under src/sysprog/afina:
    - Storage, SimpleLRU, LruStorage: include/afina/Storage.h, src/storage/SimpleLRU.h and
      .cpp.  A pointer-level model (owning and raw pointers into an explicit memory), the
      cache as a list of associations ([SimpleLRU.Abs]), the refinement between them, the
      contract of the interface, the policy, the destructor, and exactly when Delete is defined.
      LruWellFormed: an executable check of the pointer structure, kept by every operation.
    - ThreadSafe: src/storage/ThreadSafeSimpleLRU.h; linearizability and progress.
    - Commands, LruCommands: src/execute, include/afina/execute; what every command
      stores and replies, the round trip of a reply, commands over the cache.
      MtCommands, LruConcurrent: the commands of concurrent connections, interleaved at their
      calls, over any storage and over the cache while everything fits.
    - Parser: src/protocol; the automaton with its integers; chunks, safety, round trips.
    - Connection, Wire, Network: the loops of src/network/*/Connection.cpp and of the
      blocking servers, against a machine that takes a byte at a time; sessions are
      executed in order however the network cuts them.
    - Servers: the event loops of st_nonblocking/ServerImpl.cpp and mt_nonblocking
      (Worker.cpp, ServerImpl.cpp): ownership of the connections.  Clients: a batch of events
      is what happens to every connection by itself.
    - LruServer, LruClients: the composition.
    - MtEpoll: the threads of mt_nonblocking (acceptors, workers, Stop and Join) over epoll
      with EPOLLONESHOT.
    - Lifecycle: Start, Stop and Join of the four servers and the set-up of the threads that
      run OnRun, with every error path, when no client connects.
    - MtWorkers: the threads of mt_blocking/ServerImpl.cpp: the acceptor, the workers with
      their reads, sends and tests of [running], Stop and Join; the table of the sockets,
      and that Join returns because Stop shuts the sockets down and every send ends.
    - Logging: src/logging, include/afina/logging/Config.h, Application::Configure of
      src/main.cpp.  Application: the rest of src/main.cpp, with its signal handler.
    - Coroutine: include/afina/coroutine/Engine.h, src/coroutine/Engine.cpp; refinement of
      a pool of coroutines without pointers, and termination.
    - SharedMutex, CountDownLatch: materials/09-advanced-synchronization/code.
    - Echo, EpollExample: materials/05-non-blocking-network/code/echo.c, epoll-example.c.
      Handover: materials/07-synchronization-primitives/code/cv.cpp.  PipeExample:
      materials/08-pipes/examples/simple_pipe.c.
    - Cthread: lecture_examples/6_threads/10_cthreads_1.c, 10_cthreads_2.c, 11_cthread_bad_detach.c and
      12_cthread_detach.c: threads from clone, joined or detached.
    Elsewhere:
    - CStrings: strings in buffers and the directives of scanf, as the C programs use them.
    - HwSort, JumpExample, ContextSwap: 1/hw_sort.cpp, example_jmp.c, example_swap.c.  Shell, ShellMain,
      ShellUnused: 2/parser.cpp, 2/main.cpp.
    - Concur, Locks, CondVar: lecture_examples/6_threads (counters, spin lock, futex lock,
      condition variables; a racy read that the compiler may do only once is a switch of
      CondVar), over a small interleaving semantics: threads with their own
      steps, or systems whose steps are labelled with what the kernel answers.
    - IpcSort, MsgQueue, SemTxn, SemEvents, PosixSem, DatagramRing: lecture_examples/7_ipc
      (sorting in processes, 7_msgsend_*.c, 8_sem.c, 9_sem_event_*.c, 12_sem_posix.c,
      14_sock_dgram.c).  EventLoops, EventServers: lecture_examples/9_aio (select, poll,
      kqueue, epoll), 10_users/9_daemon.c, the threads of 8_net/3_server.c.
    - NumberClients: the clients of those servers (7_ipc/15_sock_client.c, 8_net/3_client.c,
      9_aio/4_client.c, 10_users/9_client.c), each with its thread of 7_ipc/15_sock_server.c.
    - FileLocks: lecture_examples/9_aio/3_fcntl_lock.c, and 2_flock.c in the module Flock.

    ** Groups of theorems

    Refinement and equivalence: [cache_clients_served], [event_loop_refines],
    [clients_served], [lru_refinement], [lru_policy], [requests_executed],
    [server_serves_map], [commands_by_calls], [engine_refines], [parse_chunks],
    [select_turn_serves], [parallel_sort_correct],
    [mem_sort_correct], [echo_session].  Contracts of the
    operations: [lru_contract], [commands_execute], [nonblocking_serves],
    [st_blocking_serves], [service_starts], [main_outcome], [shell_turn], [shell_session],
    [lock_commands], [transaction_at_once], [lock_answers], [join_reclaims], [jump_transcript].  Bounds: [get_cmd_reads].
    Invariants and safety, most of them under interleaving: [lru_well_formed],
    [thread_safe_linearizable], [concurrent_commands], [connections_exclusive],
    [shared_mutex_exclusion], [mt_workers_table], [futex_counts], [condvar_signals],
    [st_handle_safe], [echo_batch_safe], [events_in_order], [received_by_type],
    [transactions_undone], [detach_safe], [locks_exclusive], [flock_exclusive], [set_refuses_present_key],
    [ring_laps], [at_most_five], [echo_main_safe].  Liveness and termination: [join_returns], [threads_end],
    [signal_ends_wait], [edge_triggered_complete], [numbers_answered], [handover_delivers],
    [pipe_prints], [shared_mutex_progress],
    [select_longest], [reopen_all_once], [hw_sort_sorts], [parse_line_ends].  Round trips:
    [insert_roundtrip], [get_reply_roundtrip], [message_roundtrip], [parse_line_commands],
    [shared_mem_transfer].  Where the code does not do what it is meant to, the theorems
    state what it does (for example [lru_delete], [servers_lifecycle], [mt_double_free],
    [mt_blocking_errors], [printer_crashes], [parse_command_undefined]), or examples show
    it ([appends_lost], [stop_use_after_free], [end_of_input], [late_answers]).

    ** Conventions, bounds and fuel

    Undefined behaviour is an outcome ([Undef]), never a silent default; a violated
    assertion and an uncaught exception are [Throw].  Answers of the kernel are arguments: lists
    of results, or nondeterminism of a step relation.  Where a program is about one call of
    the kernel, the documented behaviour of the call is a definition of its file that stands
    for no code of the repository ([semop] with SEM_UNDO in SemTxn and SemEvents, the record
    locks of FileLocks).  Loops that are not structural take fuel; every theorem about them
    fixes enough of it: the number of nodes for the loops of the cache, the
    length of the buffer for the loop of a connection, the length of the input for the
    parsers, the measure of [engine_refines], the number of sinks for [reopen_all], and in [hw_sort_sorts] the
    existence of an amount from which on nothing changes.  Machine integers wrap where the
    source's do ([wrap]), and signed overflow is undefined.  Concurrent programs are
    sequentially consistent interleavings of atomic steps; spurious wake-ups are steps of
    their own.

    ** Not modelled, and why

    - src/fc (FlatCombiner): a sketch that does not compile (members are called by names that are not
      declared, statements lack their ends, one function is left in the middle).
    - src/allocator: the member functions are empty.  3/userfs.c and 4/thread_pool.c: every function
      is a stub.  include/afina/Executor.h: only Execute has a body, nothing runs the tasks.
    - The parsing of the options in main.cpp is that of a library; getnameinfo, log lines,
      messages on the standard output, std::thread failing to start: without logic of their own.
    - third-party, tests, build files.
    - 7_ipc/11_shm.c takes the remainder of a pointer and does not compile.
    - The other materials and lecture examples: demonstrations of one system call each (fork, pipes,
      sockets, files, users), whose behaviour is the kernel's. *)

From Stdlib Require Export Ascii ZArith Lia.
From stdpp Require Export base gmap strings list fin_maps pretty.

Set Default Goal Selector "!".

(** ** Undefined behaviour, exceptions, results *)

(** The ways a C++ execution can leave the defined part of the language. *)
Inductive ub : Type :=
| NullDeref        (* dereference of a null pointer *)
| UseAfterFree     (* access to memory that has been released *)
| DoubleFree       (* release of memory that has been released *)
| OutOfBounds      (* access outside of an array, string or vector *)
| Uninitialised    (* read of a variable that was never written *)
| SignedOverflow.  (* signed arithmetic outside of the range of its type *)

#[export] Instance ub_eq_dec : EqDecision ub.
Proof. solve_decision. Defined.

(** Outcome of a computation over a state [S]: a value, a thrown exception
    (with the state reached, since C++ does not roll anything back), undefined
    behaviour, or the model's own bound on a loop exhausted. *)
Inductive res (S A : Type) : Type :=
| Ret (a : A) (s : S)
| Throw (e : string) (s : S)
| Undef (u : ub)
| NoFuel.
Arguments Ret {S A} _ _.
Arguments Throw {S A} _ _.
Arguments Undef {S A} _.
Arguments NoFuel {S A}.

(** A stateful computation that may throw or be undefined. *)
Definition prog (S A : Type) : Type := S → res S A.

#[export] Instance prog_ret S : MRet (prog S) := λ A a s, Ret a s.

#[export] Instance prog_bind S : MBind (prog S) := λ A B k m s,
  match m s with
  | Ret a s' => k a s'
  | Throw e s' => Throw e s'
  | Undef u => Undef u
  | NoFuel => NoFuel
  end.

#[export] Instance prog_fmap S : FMap (prog S) := λ A B f m, m ≫= λ a, mret (f a).

Definition get {S} : prog S S := λ s, Ret s s.
Definition gets {S A} (f : S → A) : prog S A := λ s, Ret (f s) s.
Definition modify {S} (f : S → S) : prog S unit := λ s, Ret tt (f s).
Definition throw {S A} (e : string) : prog S A := λ s, Throw e s.
Definition undef {S A} (u : ub) : prog S A := λ _, Undef u.
Definition out_of_fuel {S A} : prog S A := λ _, NoFuel.

(** The value of an option, or undefined behaviour when there is none. *)
Definition the {S A} (u : ub) (o : option A) : prog S A :=
  match o with Some a => mret a | None => undef u end.

(** Run a computation on a component of a larger state. *)
Definition zoom {S T A} (prj : T → S) (inj : S → T → T) (m : prog S A) : prog T A := λ t,
  match m (prj t) with
  | Ret a s => Ret a (inj s t)
  | Throw e s => Throw e (inj s t)
  | Undef u => Undef u
  | NoFuel => NoFuel
  end.

(** [try { m } catch (std::runtime_error &e) { h }]. *)
Definition try_catch {S A} (m : prog S A) (h : string → prog S A) : prog S A := λ s,
  match m s with
  | Throw e s' => h e s'
  | r => r
  end.

(** Does a computation return? *)
Definition returns {S A} (r : res S A) : bool :=
  match r with Ret _ _ => true | _ => false end.

(** The outcome without the text of the exception. *)
Definition erase_message {S A} (r : res S A) : res S A :=
  match r with Throw _ s => Throw "" s | r => r end.

(** Computations whose outcomes differ in the texts of exceptions only. *)
Definition same {S A} (m m' : prog S A) : Prop :=
  ∀ s, erase_message (m s) = erase_message (m' s).

(** ** Machine integers *)

(** Value of a [w]-bit unsigned variable after storing [z] in it. *)
Definition wrap (w z : Z) : Z := z `mod` 2 ^ w.

(** [size_t] and [uint64_t] *)
Abbreviation wrap64 := (wrap 64).
(** [uint32_t] *)
Abbreviation wrap32 := (wrap 32).

Definition u32_range (z : Z) : Prop := (0 ≤ z < 2 ^ 32)%Z.
Definition u64_range (z : Z) : Prop := (0 ≤ z < 2 ^ 64)%Z.
Definition i32_range (z : Z) : Prop := (- 2 ^ 31 ≤ z < 2 ^ 31)%Z.

(** ** Byte strings *)

(** [std::string] and character buffers. *)
Abbreviation bytes := (list ascii).

(** The bytes of a string literal. *)
Definition lit (s : string) : bytes := String.list_ascii_of_string s.

Definition CR : ascii := "013"%char.
Definition LF : ascii := "010"%char.
Definition SP : ascii := " "%char.
Definition CRLF : bytes := [CR; LF].

(** [s.size()] *)
Definition bsize (s : bytes) : Z := Z.of_nat (length s).

(** Decimal output of an unsigned number ([ostream << n]). *)
Definition dec (n : Z) : bytes := lit (pretty (Z.to_N n)).

Definition is_digit (c : ascii) : bool :=
  (48 <=? N_of_ascii c)%N && (N_of_ascii c <=? 57)%N.
(** [c - '0'] *)
Definition digit (c : ascii) : Z := Z.of_N (N_of_ascii c) - 48.

(** The number that a sequence of digits denotes, continuing from [a]. *)
Definition digits_from (a : Z) (s : bytes) : Z := foldl (λ a c, 10 * a + digit c)%Z a s.

(** ** Sequences of steps *)

Inductive star {A} (R : A → A → Prop) : A → A → Prop :=
| star_refl a : star R a a
| star_step a b c : R a b → star R b c → star R a c.

(** ** The monad's equations *)

Section prog_facts.
Context {S : Type}.
Implicit Types s : S.

Lemma bind_ret {A B} (m : prog S A) (k : A → prog S B) s a s' :
  m s = Ret a s' → (m ≫= k) s = k a s'.
Proof. intros H. unfold mbind, prog_bind. by rewrite H. Qed.

Lemma bind_undef {A B} (m : prog S A) (k : A → prog S B) s u :
  m s = Undef u → (m ≫= k) s = Undef u.
Proof. intros H. unfold mbind, prog_bind. by rewrite H. Qed.

Lemma bind_throw {A B} (m : prog S A) (k : A → prog S B) s e s' :
  m s = Throw e s' → (m ≫= k) s = Throw e s'.
Proof. intros H. unfold mbind, prog_bind. by rewrite H. Qed.

Lemma bind_inv {A B} (m : prog S A) (k : A → prog S B) s b s'' :
  (m ≫= k) s = Ret b s'' → ∃ a s', m s = Ret a s' ∧ k a s' = Ret b s''.
Proof.
  unfold mbind, prog_bind. destruct (m s) as [a s'| | |]; try discriminate. eauto.
Qed.

Lemma prog_assoc {A B C} (m : prog S A) (f : A → prog S B) (g : B → prog S C) s :
  ((m ≫= f) ≫= g) s = (m ≫= λ x, f x ≫= g) s.
Proof. unfold mbind, prog_bind. by destruct (m s). Qed.

Lemma bind_cong {A B} (m m' : prog S A) (k : A → prog S B) s :
  m s = m' s → (m ≫= k) s = (m' ≫= k) s.
Proof. intros H. unfold mbind, prog_bind. by rewrite H. Qed.

Lemma bind_ext {A B} (m : prog S A) (k k' : A → prog S B) s :
  (∀ a s', m s = Ret a s' → k a s' = k' a s') → (m ≫= k) s = (m ≫= k') s.
Proof. intros H. unfold mbind, prog_bind. destruct (m s); auto. Qed.

Lemma returns_spec {A} (r : res S A) : returns r = true → ∃ a s, r = Ret a s.
Proof. destruct r; simpl; intros; simplify_eq; eauto. Qed.

Lemma erase_ret {A} (r : res S A) a s : erase_message r = Ret a s → r = Ret a s.
Proof. by destruct r. Qed.

Lemma erase_throw {A} (r : res S A) e s :
  erase_message r = erase_message (Throw e s) → ∃ e', r = Throw e' s.
Proof. destruct r; simpl; intros; simplify_eq. eauto. Qed.

Lemma bind_ret_same {A B} (m m' : prog S A) (k k' : A → prog S B) s :
  erase_message (m s) = erase_message (m' s) →
  (∀ a s', m' s = Ret a s' → erase_message (k a s') = erase_message (k' a s')) →
  erase_message ((m ≫= k) s) = erase_message ((m' ≫= k') s).
Proof.
  intros Hm Hk. unfold mbind, prog_bind.
  destruct (m s), (m' s); simpl in *; simplify_eq; auto.
Qed.

End prog_facts.

#[export] Instance same_equivalence {S A} : Equivalence (@same S A).
Proof.
  split.
  - by intros m s.
  - by intros m m' H s.
  - intros m1 m2 m3 H1 H2 s. by rewrite H1.
Qed.

#[export] Instance bind_same {S A B} :
  Proper (pointwise_relation A same ==> same ==> same) (@mbind (prog S) (prog_bind S) A B).
Proof. intros k k' Hk m m' Hm s. apply bind_ret_same; [apply Hm|]. intros a s' _. apply Hk. Qed.

(** ** Arithmetic of machine integers *)

Lemma wrap_range w z : (0 ≤ w)%Z → (0 ≤ wrap w z < 2 ^ w)%Z.
Proof. intros. apply Z.mod_pos_bound. lia. Qed.

Lemma wrap_small w z : (0 ≤ z < 2 ^ w)%Z → wrap w z = z.
Proof. intros. by apply Z.mod_small. Qed.

Lemma wrap_add_l w x y : wrap w (wrap w x + y) = wrap w (x + y).
Proof. unfold wrap. by rewrite Zplus_mod_idemp_l. Qed.

Lemma wrap_add_r w x y : wrap w (x + wrap w y) = wrap w (x + y).
Proof. unfold wrap. by rewrite Zplus_mod_idemp_r. Qed.

Lemma wrap_sub_l w x y : wrap w (wrap w x - y) = wrap w (x - y).
Proof. unfold wrap. by rewrite Zminus_mod_idemp_l. Qed.

Lemma wrap_sub_r w x y : wrap w (x - wrap w y) = wrap w (x - y).
Proof. unfold wrap. by rewrite Zminus_mod_idemp_r. Qed.

(** ** Sizes of byte strings *)

Lemma bsize_nonneg s : (0 ≤ bsize s)%Z.
Proof. unfold bsize. lia. Qed.

Lemma bsize_app s t : bsize (s ++ t) = (bsize s + bsize t)%Z.
Proof. unfold bsize. rewrite length_app. lia. Qed.

Lemma bsize_nil : bsize [] = 0%Z.
Proof. done. Qed.

Lemma bsize_cons c s : bsize (c :: s) = (1 + bsize s)%Z.
Proof. unfold bsize. simpl. lia. Qed.

(** ** Decimal numbers *)

Lemma digits_from_app a s t : digits_from a (s ++ t) = digits_from (digits_from a s) t.
Proof. apply foldl_app. Qed.

Lemma pretty_N_char_digit x :
  (x < 10)%N → is_digit (pretty_N_char x) = true ∧ digit (pretty_N_char x) = Z.of_N x.
Proof.
  intros Hx.
  assert (x ∈ (N.of_nat <$> seq 0 10)) as Hin.
  { apply list_elem_of_fmap. exists (N.to_nat x). rewrite elem_of_seq. lia. }
  clear Hx. revert x Hin. apply Forall_forall. by repeat constructor.
Qed.

(** Digits in front of digits. *)
Lemma pretty_N_go_spec x s :
  ∃ t, lit (pretty_N_go x s) = t ++ lit s ∧ Forall is_digit t ∧
       digits_from 0 t = Z.of_N x ∧ (0 < x → t ≠ [])%N.
Proof.
  revert s. induction (N.lt_wf_0 x) as [x _ IH]; intros s.
  destruct (decide (0 < x)%N) as [Hx|Hx].
  - rewrite pretty_N_go_step by done.
    destruct (IH (x `div` 10)%N) with (s := String (pretty_N_char (x `mod` 10)) s)
      as (t & -> & Ht & Hv & _); [by apply N.div_lt|].
    destruct (pretty_N_char_digit (x `mod` 10)) as [Hd Hdv]; [by apply N.mod_lt|].
    exists (t ++ [pretty_N_char (x `mod` 10)]). split_and!.
    + by rewrite <-app_assoc.
    + apply Forall_app. split; [done|]. constructor; [by rewrite Hd|done].
    + rewrite digits_from_app, Hv. unfold digits_from. simpl. rewrite Hdv.
      pose proof (N.div_mod x 10). lia.
    + intros _. by destruct t.
  - assert (x = 0%N) as -> by lia. rewrite pretty_N_go_0. exists []. done.
Qed.

(** Decimal output: digits only, and at least one, that denote the number. *)
Lemma dec_spec z :
  (0 ≤ z)%Z → Forall is_digit (dec z) ∧ digits_from 0 (dec z) = z ∧ dec z ≠ [].
Proof.
  intros Hz. unfold dec, pretty, pretty_N. case_decide as E.
  - assert (z = 0%Z) as -> by lia. split_and!; [repeat constructor|done|done].
  - destruct (pretty_N_go_spec (Z.to_N z) "") as (t & -> & Ht & Hv & Hne).
    rewrite app_nil_r, Hv. split_and!; [done|lia|apply Hne; lia].
Qed.

(** ** Step sequences *)

Section star_facts.
Context {A : Type} (R : A → A → Prop).

Lemma star_one a b : R a b → star R a b.
Proof. intros. econstructor; [done|constructor]. Qed.

Lemma star_trans a b c : star R a b → star R b c → star R a c.
Proof. induction 1; [done|]. intros. econstructor; eauto. Qed.

(** Rule induction for invariants: what a step preserves, a run preserves. *)
Lemma star_invariant (I : A → Prop) a b :
  (∀ x y, I x → R x y → I y) → I a → star R a b → I b.
Proof. intros Hstep Ha H. induction H; eauto. Qed.

End star_facts.

(** ** Automation *)

Create HintDb afina.
Create Rewrite HintDb afina.
#[export] Hint Resolve bsize_nonneg : afina.
#[export] Hint Rewrite bsize_app bsize_nil bsize_cons : afina.

(** Run the leading computations of a [prog] goal whose results the context
    (or computation) gives. *)
Ltac prog_step :=
  match goal with
  | H : ?m ?s = Ret ?a ?s' |- context [(?m ≫= ?k) ?s] => rewrite (bind_ret m k s a s' H)
  | H : ?m ?s = Undef ?u |- context [(?m ≫= ?k) ?s] => rewrite (bind_undef m k s u H)
  end.

(** Invert a successful bind in a hypothesis. *)
Ltac bind_inv H :=
  let a := fresh "a" in let s := fresh "s" in let E := fresh "E" in
  apply bind_inv in H as (a & s & E & H).

(** Decide the boolean comparisons of integers that guard the goal. *)
Ltac cases_leb :=
  repeat match goal with
  | |- context [(?x <=? ?y)%Z] => destruct (Z.leb_spec x y)
  | |- context [(?x <? ?y)%Z] => destruct (Z.ltb_spec x y)
  end.
