(* ===== verification/CStrings.v ===== *)
(** * Strings and numbers as the C library reads them

    The string in a buffer, as strlen, strcmp and printf see it, and the directives of
    scanf that the programs of src/sysprog use. *)

From S2P Require Import Prelude.

Definition NUL : ascii := "000"%char.

(** The string in a buffer: the bytes in front of the first zero. *)
Fixpoint c_string (s : bytes) : bytes :=
  match s with
  | [] => []
  | c :: s => if decide (c = NUL) then [] else c :: c_string s
  end.

(** [isspace], and the white space that a space in a format skips. *)
Definition is_space (c : ascii) : bool :=
  let n := nat_of_ascii c in (n =? 32) || (9 <=? n) && (n <=? 13).
Fixpoint skip_space (l : bytes) : bytes :=
  match l with [] => [] | c :: r => if is_space c then skip_space r else l end.

(** The longest prefix whose characters satisfy a test, and what follows. *)
Fixpoint span (P : ascii → bool) (l : bytes) : bytes * bytes :=
  match l with
  | [] => ([], [])
  | c :: r => if P c then let '(d, r) := span P r in (c :: d, r) else ([], l)
  end.

(** [%d]: white space, a sign, and at least one digit. *)
Definition scan_int (l : bytes) : option (Z * bytes) :=
  let l := skip_space l in
  let '(sign, l) :=
    match l with
    | c :: r => if decide (c = "-"%char) then ((-1)%Z, r)
                else if decide (c = "+"%char) then (1%Z, r) else (1%Z, l)
    | [] => (1%Z, [])
    end in
  let '(d, l) := span is_digit l in
  match d with [] => None | _ => Some ((sign * digits_from 0 d)%Z, l) end.

(** [%c] *)
Definition scan_char (l : bytes) : option (ascii * bytes) :=
  match l with [] => None | c :: r => Some (c, r) end.

(** [%s]: white space, and at least one other character. *)
Definition scan_word (l : bytes) : option (bytes * bytes) :=
  let '(w, r) := span (λ c, negb (is_space c)) (skip_space l) in
  match w with [] => None | _ => Some (w, r) end.

(** The numbers that calls of [scanf] take from an input one after the other, and what they
    leave. *)
Inductive scans (b : bytes) : list Z → bytes → Prop :=
| scans_none : scans b [] b
| scans_one ns b' n b'' : scans b ns b' → scan_int b' = Some (n, b'') → scans b (ns ++ [n]) b''.

(** ** Facts *)

Lemma c_string_length b : length (c_string b) ≤ length b.
Proof. induction b as [|c b IH]; cbn; [done|]. case_decide; cbn; lia. Qed.

Lemma c_string_plain w : NUL ∉ w → c_string w = w.
Proof.
  induction w as [|c w IH]; cbn; [done|]. intros [Hc Hw]%not_elem_of_cons. rewrite decide_False by done.
  by rewrite IH.
Qed.

Lemma span_app P l : (span P l).1 ++ (span P l).2 = l.
Proof. induction l as [|c l IH]; [done|]. cbn. destruct (P c); [|done]. destruct (span P l). cbn in *. by rewrite IH. Qed.

Lemma skip_space_length l : length (skip_space l) ≤ length l.
Proof. induction l as [|c l IH]; cbn; [done|]. destruct (is_space c); cbn; lia. Qed.

(** A word takes something of the input away. *)
Lemma scan_word_length l w r : scan_word l = Some (w, r) → length r < length l.
Proof.
  unfold scan_word. pose proof (skip_space_length l) as Hl.
  pose proof (f_equal length (span_app (λ c, negb (is_space c)) (skip_space l))) as Hs.
  destruct (span _ _) as [[|c v] r']; [done|]. cbn in Hs. rewrite length_app in Hs.
  intros [= <- <-]. lia.
Qed.

(** A number as it is typed: a sign where it is negative, and its digits. *)
Definition number (z : Z) : bytes := if (z <? 0)%Z then "-"%char :: dec (- z) else dec z.

Lemma number_chars z : Forall (λ c, c = "-"%char ∨ is_digit c) (number z).
Proof.
  assert (∀ x, (0 ≤ x)%Z → Forall (λ c, c = "-"%char ∨ is_digit c) (dec x)) as H.
  { intros x Hx. destruct (dec_spec x Hx) as [Hd _]. eapply Forall_impl; [exact Hd|]. auto. }
  unfold number. destruct (Z.ltb_spec z 0); [constructor; [by left|]|]; apply H; lia.
Qed.

(** What does not occur in a number. *)
Lemma number_free z c : c ≠ "-"%char → is_digit c = false → c ∉ number z.
Proof.
  intros Hc Hd Hin. pose proof (number_chars z) as H. rewrite Forall_forall in H.
  destruct (H c Hin) as [|Hx]; [done|]. by rewrite Hd in Hx.
Qed.

Lemma span_digits d r : Forall is_digit d → hd " "%char r = " "%char ∨ is_digit (hd " "%char r) = false →
  span is_digit (d ++ r) = (d, r).
Proof.
  intros Hd Hr. assert (span is_digit r = ([], r)) as Er.
  { destruct r as [|c r]; [done|]. cbn in *. destruct Hr as [->|Hr]; [done|by rewrite Hr]. }
  induction Hd as [|c d Hc _ IH]; [done|]. cbn. destruct (is_digit c); [|done]. by rewrite IH.
Qed.

Lemma digit_no_space c : is_digit c → is_space c = false ∧ c ≠ "-"%char ∧ c ≠ "+"%char.
Proof.
  destruct (decide (is_space c = false ∧ c ≠ "-"%char ∧ c ≠ "+"%char)) as [H|H]; [by intros _|].
  intros Hd. exfalso. apply H. by destruct c as [[] [] [] [] [] [] [] []].
Qed.

(** [%d] reads a number that was typed, after spaces and up to what is no digit. *)
Lemma scan_int_number z r :
  hd " "%char r = " "%char ∨ is_digit (hd " "%char r) = false →
  scan_int (number z ++ r) = Some (z, r) ∧ scan_int (SP :: number z ++ r) = Some (z, r).
Proof.
  intros Hr. assert (scan_int (number z ++ r) = Some (z, r)) as E; [|split; [exact E|]].
  - unfold scan_int, number. destruct (Z.ltb_spec z 0).
    + destruct (dec_spec (- z)) as (Hd & Hv & Hne); [lia|]. cbn [app skip_space].
      change (is_space "-"%char) with false. cbn [negb]. rewrite decide_True by done.
      rewrite (span_digits _ _ Hd Hr). destruct (dec (- z)) eqn:Ed; [done|]. rewrite <-Ed, Hv in *.
      f_equal. f_equal. lia.
    + destruct (dec_spec z) as (Hd & Hv & Hne); [lia|]. destruct (dec z) as [|c d] eqn:Ed; [done|].
      pose proof Hd as [Hc _]%Forall_cons. destruct (digit_no_space c Hc) as (Hs & Hm & Hp).
      cbn [app skip_space]. rewrite Hs, !decide_False by done.
      change (c :: d ++ r) with ((c :: d) ++ r). rewrite (span_digits _ _ Hd Hr), Hv.
      f_equal. f_equal. lia.
  - unfold scan_int in *. cbn [skip_space]. done.
Qed.
