(* ===== verification/Storage.v ===== *)
(** * The storage interface: [Afina::Storage]

    The operations of src/sysprog/afina/include/afina/Storage.h as a type class,
    the contract its comments state as a relation between the associations
    before and after an operation, and the class of the implementations that
    keep this contract.  The clients of a storage (the commands, the
    connections) are verified against these classes only. *)

From S2P Require Import Prelude.

(** ** Operations *)

(** [class Storage]: the pure virtual functions, on a state [S].  [Get] returns
    the value it copies into its output parameter, or nothing for [false]. *)
Class Storage (S : Type) : Type := {
  Put : bytes → bytes → prog S bool;
  PutIfAbsent : bytes → bytes → prog S bool;
  Set_ : bytes → bytes → prog S bool;
  Delete : bytes → prog S bool;
  Get : bytes → prog S (option bytes);
}.

(** A call of the interface and what it returns. *)
Inductive op : Type :=
| OpPut (k v : bytes)
| OpPutIfAbsent (k v : bytes)
| OpSet (k v : bytes)
| OpDelete (k : bytes)
| OpGet (k : bytes).

Inductive resp : Type :=
| RBool (b : bool)
| RValue (o : option bytes).

#[export] Instance op_eq_dec : EqDecision op.
Proof. solve_decision. Defined.
#[export] Instance resp_eq_dec : EqDecision resp.
Proof. solve_decision. Defined.

Section ops.
Context {S : Type} `{Storage S}.

Definition exec (o : op) : prog S resp :=
  match o with
  | OpPut k v => RBool <$> Put k v
  | OpPutIfAbsent k v => RBool <$> PutIfAbsent k v
  | OpSet k v => RBool <$> Set_ k v
  | OpDelete k => RBool <$> Delete k
  | OpGet k => RValue <$> Get k
  end.

(** A sequence of calls, with what each returns. *)
Fixpoint exec_all (os : list op) : prog S (list resp) :=
  match os with
  | [] => mret []
  | o :: os => r ← exec o; rs ← exec_all os; mret (r :: rs)
  end.

End ops.

(** ** The contract of the interface's comments *)

(** [m'] is what a storage may hold after [k ↦ v] was stored in [m]: the new
    association, and old ones of other keys; a bounded storage may have
    dropped some of these. *)
Definition stored (k v : bytes) (m m' : gmap bytes bytes) : Prop :=
  m' !! k = Some v ∧ m' ⊆ <[k := v]> m.

(** The relation between the associations before a call, its result, and the
    associations after it.  [big k v] says that the storage has no room for the
    association at all: this is the one error [Put] may return [false] for, and
    also the one case in which a [Set] of a key that is present is refused,
    which the comment of [Set] does not provide for. *)
Definition contract (big : bytes → bytes → bool) (m : gmap bytes bytes) (o : op) (r : resp)
    (m' : gmap bytes bytes) : Prop :=
  match o, r with
  | OpPut k v, RBool true => big k v = false ∧ stored k v m m'
  | OpPut k v, RBool false => big k v = true ∧ m' = m
  | OpPutIfAbsent k v, RBool true => big k v = false ∧ m !! k = None ∧ stored k v m m'
  | OpPutIfAbsent k v, RBool false => (big k v = true ∨ is_Some (m !! k)) ∧ m' = m
  | OpSet k v, RBool true => big k v = false ∧ is_Some (m !! k) ∧ stored k v m m'
  | OpSet k v, RBool false => (big k v = true ∨ m !! k = None) ∧ m' = m
  | OpDelete k, RBool true => is_Some (m !! k) ∧ m' = delete k m
  | OpDelete k, RBool false => m !! k = None ∧ m' = m
  | OpGet k, RValue o => o = m !! k ∧ m' = m
  | _, _ => False
  end.

(** The implementations of the interface that keep the contract whenever a call
    returns, and that throw nothing.  What is too big for a storage does not
    change while it is used. *)
Class StorageLaws (S : Type) `{Storage S} : Type := {
  wf : S → Prop;
  view : S → gmap bytes bytes;
  refuses : S → bytes → bytes → bool;
  exec_contract s o r s' :
    wf s → exec o s = Ret r s' →
    wf s' ∧ refuses s' = refuses s ∧ contract (refuses s) (view s) o r (view s');
  exec_no_throw s o e s' : wf s → exec o s ≠ Throw e s';
}.

(** ** The unbounded storage *)

(** The reference implementation of the interface: a map without a bound. *)
#[export] Instance map_storage : Storage (gmap bytes bytes) := {
  Put k v := λ m, Ret true (<[k := v]> m);
  PutIfAbsent k v := λ m,
    match m !! k with None => Ret true (<[k := v]> m) | Some _ => Ret false m end;
  Set_ k v := λ m,
    match m !! k with None => Ret false m | Some _ => Ret true (<[k := v]> m) end;
  Delete k := λ m,
    match m !! k with None => Ret false m | Some _ => Ret true (delete k m) end;
  Get k := λ m, Ret (m !! k) m;
}.

(** ** Facts *)

Lemma fmap_prog {S A B} (f : A → B) (m : prog S A) s :
  (f <$> m) s = match m s with
                | Ret a s' => Ret (f a) s' | Throw e s' => Throw e s'
                | Undef u => Undef u | NoFuel => NoFuel
                end.
Proof. done. Qed.

Lemma fmap_inv {S A B} (f : A → B) (m : prog S A) s b s' :
  (f <$> m) s = Ret b s' → ∃ a, m s = Ret a s' ∧ b = f a.
Proof. rewrite fmap_prog. destruct (m s); intros; simplify_eq; eauto. Qed.

Lemma stored_insert k v m : stored k v m (<[k := v]> m).
Proof. split; [apply lookup_insert_eq|done]. Qed.

#[export] Hint Resolve stored_insert : afina.

(** What [stored] says of each key. *)
Lemma stored_lookup k v m m' :
  stored k v m m' ↔
  m' !! k = Some v ∧ ∀ k', k' ≠ k → m' !! k' = None ∨ m' !! k' = m !! k'.
Proof.
  unfold stored. rewrite map_subseteq_spec. split; intros [Hk H]; (split; [done|]).
  - intros k' Hne. destruct (m' !! k') as [v'|] eqn:E; [|by left]. right.
    apply H in E. by rewrite lookup_insert_ne in E.
  - intros k' v' E. destruct (decide (k' = k)) as [->|Hne].
    + rewrite lookup_insert_eq. congruence.
    + rewrite lookup_insert_ne by done. destruct (H k' Hne); congruence.
Qed.

(** The reference implementation satisfies the laws of the interface. *)
#[export, refine] Instance map_storage_laws : StorageLaws (gmap bytes bytes) := {
  wf _ := True;
  view m := m;
  refuses _ _ _ := false;
}.
Proof.
  - intros m o r m' _. destruct o; cbn; rewrite ?fmap_prog; cbn;
      repeat case_match; intros; simplify_eq; split_and!; eauto with afina.
  - intros m o e m' _. destruct o; cbn; rewrite ?fmap_prog; cbn; by repeat case_match.
Defined.
