(* ===== verification/ThreadSafe.v ===== *)
(** * The thread-safe cache: [Backend::ThreadSafeSimplLRU]

    Model of src/sysprog/afina/src/storage/ThreadSafeSimpleLRU.h: threads that call
    the interface of a storage, each call under a [lock_guard] of one mutex.  A
    call is not atomic: it reads the state, works on what it has read, and writes
    the result; other threads take steps in between. *)

From S2P Require Import Prelude Storage.

(** ** Threads *)

Abbreviation tid := nat.

(** Where a thread is in a call of the interface. *)
Inductive phase (S : Type) : Type :=
| Idle                       (* outside of the storage *)
| Waiting (o : op)           (* constructing the lock_guard *)
| Holding (o : op)           (* in SimpleLRU's function, nothing read yet *)
| Working (o : op) (st : S)  (* with the state it has read *)
| Leaving (r : resp).        (* the result is written, the lock_guard not destroyed *)
Arguments Idle {S}.
Arguments Waiting {S} _.
Arguments Holding {S} _.
Arguments Working {S} _ _.
Arguments Leaving {S} _.

(** The shared state: [_mutex] with its owner, the state of the storage, the threads;
    and the calls in the order of their writes. *)
Record config (S : Type) : Type := mk_config {
  _mutex : option tid;
  shared : S;
  threads : tid → phase S;
  log : list (tid * op * resp);
}.
Arguments mk_config {S} _ _ _ _.
Arguments _mutex {S} _.
Arguments shared {S} _.
Arguments threads {S} _.
Arguments log {S} _.

Definition set_thread {S} (t : tid) (p : phase S) (f : tid → phase S) : tid → phase S :=
  λ t', if decide (t' = t) then p else f t'.

(** All threads outside of the storage. *)
Definition start {S} (st : S) : config S := mk_config None st (λ _, Idle) [].

Section threads.
Context {S : Type} `{Storage S}.
(** Whether calls are guarded: [true] for [ThreadSafeSimplLRU], [false] for its base
    class used by several threads. *)
Variable guarded : bool.

Definition lock (t : tid) (m : option tid) : option tid := if guarded then Some t else m.
Definition unlock (m : option tid) : option tid := if guarded then None else m.

(** One step of one thread. *)
Inductive step : config S → config S → Prop :=
| step_call m st f l t o :
    f t = Idle →
    step (mk_config m st f l) (mk_config m st (set_thread t (Waiting o) f) l)
| step_lock m st f l t o :
    f t = Waiting o → (guarded = true → m = None) →
    step (mk_config m st f l) (mk_config (lock t m) st (set_thread t (Holding o) f) l)
| step_read m st f l t o :
    f t = Holding o →
    step (mk_config m st f l) (mk_config m st (set_thread t (Working o st) f) l)
| step_write m st f l t o st0 r st1 :
    f t = Working o st0 → exec o st0 = Ret r st1 →
    step (mk_config m st f l)
      (mk_config m st1 (set_thread t (Leaving r) f) (l ++ [(t, o, r)]))
| step_unlock m st f l t r :
    f t = Leaving r →
    step (mk_config m st f l) (mk_config (unlock m) st (set_thread t Idle f) l).

(** The calls of a configuration, and what they returned. *)
Definition log_ops (c : config S) : list op := (λ x, x.1.2) <$> log c.
Definition log_resps (c : config S) : list resp := (λ x, x.2) <$> log c.

(** Is a thread between locking and unlocking? *)
Definition inside (p : phase S) : bool :=
  match p with Holding _ | Working _ _ | Leaving _ => true | _ => false end.

(** Mutual exclusion, and that a working thread has read the current state. *)
Record locked (st0 : S) (c : config S) : Prop := mk_locked {
  locked_mutex : ∀ t, inside (threads c t) = true ↔ _mutex c = Some t;
  locked_current : ∀ t o st, threads c t = Working o st → st = shared c;
  locked_leaving : ∀ t r, threads c t = Leaving r → ∃ o, last (log c) = Some (t, o, r);
  locked_log : exec_all (log_ops c) st0 = Ret (log_resps c) (shared c);
}.

End threads.

(** ** Facts *)

Section facts.
Context {S : Type} `{Storage S}.
Implicit Types (c : config S).

Lemma set_thread_eq t (p : phase S) f : set_thread t p f t = p.
Proof. unfold set_thread. by rewrite decide_True. Qed.

Lemma set_thread_ne t t' (p : phase S) f : t' ≠ t → set_thread t p f t' = f t'.
Proof. intros. unfold set_thread. by rewrite decide_False. Qed.

Lemma exec_all_snoc os o st rs st1 r st2 :
  exec_all os st = Ret rs st1 → exec o st1 = Ret r st2 →
  exec_all (os ++ [o]) st = Ret (rs ++ [r]) st2.
Proof.
  revert st rs. induction os as [|o' os IH]; intros st rs; cbn [exec_all app].
  - intros [= <- <-] E. by rewrite (bind_ret _ _ _ _ _ E).
  - intros E E2. bind_inv E. bind_inv E. injection E as <- <-.
    rewrite (bind_ret _ _ _ _ _ E0). by rewrite (bind_ret _ _ _ _ _ (IH _ _ E1 E2)).
Qed.

Lemma start_locked st : locked st (start st).
Proof. by split. Qed.

(** A thread changes its phase without entering or leaving the storage. *)
Lemma inside_same (f : tid → phase S) t p m :
  (∀ t', inside (f t') = true ↔ m = Some t') → inside p = inside (f t) →
  ∀ t', inside (set_thread t p f t') = true ↔ m = Some t'.
Proof.
  intros Hm Hp t'. destruct (decide (t' = t)) as [->|Hne].
  - by rewrite set_thread_eq, Hp.
  - by rewrite set_thread_ne.
Qed.

(** What a step of [t] leaves of the other threads' phases. *)
Ltac other t :=
  intros t' *; destruct (decide (t' = t)) as [->|?];
  [rewrite set_thread_eq; (done || congruence) | rewrite set_thread_ne by done; eauto].

Lemma step_locked st0 c c' : locked st0 c → step true c c' → locked st0 c'.
Proof.
  intros [Hm Hc Hv Hl] Hs. inversion Hs as
    [m st f l t o Ht|m st f l t o Ht Hn|m st f l t o Ht|m st f l t o st1 r st2 Ht E|m st f l t r Ht];
    subst; cbn in *.
  - split; cbn; [|other t|other t|done].
    apply inside_same; [done|]. by rewrite Ht.
  - specialize (Hn eq_refl). subst m. split; cbn; [intros t'|other t|other t|done].
    destruct (decide (t' = t)) as [->|Hne]; [by rewrite set_thread_eq|].
    rewrite set_thread_ne by done. rewrite Hm. naive_solver.
  - split; cbn; [|other t|other t|done].
    apply inside_same; [done|]. by rewrite Ht.
  - assert (st1 = st) as -> by by eapply Hc.
    assert (m = Some t) as -> by (apply Hm; by rewrite Ht).
    assert (∀ t', inside (f t') = true → t' = t) as Hone.
    { intros t' Hi. apply Hm in Hi. congruence. }
    split; cbn; [|intros t' o' st'|intros t' r'|].
    + apply inside_same; [done|]. by rewrite Ht.
    + destruct (decide (t' = t)) as [->|Hne]; [by rewrite set_thread_eq|].
      rewrite set_thread_ne by done. intros Hw. destruct Hne. apply Hone. by rewrite Hw.
    + destruct (decide (t' = t)) as [->|Hne].
      * rewrite set_thread_eq. intros [= <-]. exists o. by rewrite last_snoc.
      * rewrite set_thread_ne by done. intros Hw. destruct Hne. apply Hone. by rewrite Hw.
    + unfold log_ops, log_resps in *. cbn in *. rewrite !fmap_app. by eapply exec_all_snoc.
  - assert (m = Some t) as -> by (apply Hm; by rewrite Ht).
    split; cbn; [intros t'|other t|other t|done].
    destruct (decide (t' = t)) as [->|Hne]; [by rewrite set_thread_eq|].
    rewrite set_thread_ne by done. rewrite Hm. naive_solver.
Qed.

Lemma star_locked st0 c : star (step true) (start st0) c → locked st0 c.
Proof.
  intros Hs. eapply (star_invariant (step true) (locked st0)); [|apply start_locked|done].
  intros x y. apply step_locked.
Qed.

End facts.

(** ** Properties *)

(** C15: the guarded storage is linearizable: in every configuration that any
    interleaving of threads leads to, the calls in the order of their writes are a
    sequential execution with the same results and the same state; at most one
    thread is inside the storage, and a thread about to unlock returns the result
    of the last call of that execution. *)
Theorem thread_safe_linearizable {S} `{Storage S} (st0 : S) (c : config S) :
  star (step true) (start st0) c →
  exec_all (log_ops c) st0 = Ret (log_resps c) (shared c) ∧
  (∀ t t', inside (threads c t) = true → inside (threads c t') = true → t = t') ∧
  (∀ t r, threads c t = Leaving r → ∃ o, last (log c) = Some (t, o, r)).
Proof.
  intros Hs. destruct (star_locked st0 c Hs) as [Hm _ Hv Hl]. split_and!; [done| |done].
  intros t t' Ht%Hm Ht'%Hm. congruence.
Qed.

(** The guarded storage does not deadlock: as long as a thread is in a call, some
    thread can take a step, unless the storage itself does not return from the
    call it is in. *)
Theorem thread_safe_progress {S} `{Storage S} (st0 : S) (c : config S) t :
  star (step true) (start st0) c → threads c t ≠ Idle →
  (∃ c', step true c c') ∨
  ∃ t' o, threads c t' = Working o (shared c) ∧ ∀ r st, exec o (shared c) ≠ Ret r st.
Proof.
  intros Hs Ht. destruct (star_locked st0 c Hs) as [Hm Hc _ _].
  destruct c as [m st f l]. cbn in *.
  assert (∀ t', inside (f t') = true → (∃ c', step true (mk_config m st f l) c') ∨
    ∃ t' o, f t' = Working o st ∧ ∀ r st', exec o st ≠ Ret r st') as Hin.
  { intros t' Hi. destruct (f t') as [|o|o|o st'|r] eqn:Hf; try done.
    - left. eexists. by eapply step_read.
    - rewrite (Hc _ _ _ Hf) in Hf. destruct (exec o st) as [r st1|e st1|u|] eqn:E.
      + left. eexists. by eapply step_write.
      + right. exists t', o. split; [done|]. rewrite E. congruence.
      + right. exists t', o. split; [done|]. rewrite E. congruence.
      + right. exists t', o. split; [done|]. rewrite E. congruence.
    - left. eexists. by eapply step_unlock. }
  destruct (f t) as [|o|o|o st'|r] eqn:Hf; [done| |by apply (Hin t); rewrite Hf..].
  destruct m as [t'|]; [apply (Hin t'), Hm; done|].
  left. eexists. by eapply step_lock.
Qed.

(** Without the mutex, two threads can both create the same association. *)
Theorem unguarded_lost_update :
  let o v := OpPutIfAbsent (lit "k") v in
  ∃ c, star (step false) (start (∅ : gmap bytes bytes)) c ∧
       log c = [(0, o (lit "a"), RBool true); (1, o (lit "b"), RBool true)].
Proof.
  eexists. split.
  - eapply star_step; [by apply (step_call false _ _ _ _ 0 (OpPutIfAbsent (lit "k") (lit "a")))|].
    eapply star_step; [by apply (step_call false _ _ _ _ 1 (OpPutIfAbsent (lit "k") (lit "b")))|].
    eapply star_step; [by eapply (step_lock false _ _ _ _ 0)|].
    eapply star_step; [by eapply (step_lock false _ _ _ _ 1)|].
    eapply star_step; [by eapply (step_read false _ _ _ _ 0)|].
    eapply star_step; [by eapply (step_read false _ _ _ _ 1)|].
    eapply star_step; [by eapply (step_write false _ _ _ _ 0)|].
    apply star_one. by eapply (step_write false _ _ _ _ 1).
  - reflexivity.
Qed.

(** *** Witnesses *)

(** One thread stores an association and is about to unlock. *)
Lemma one_call :
  ∃ c, star (step true) (start (∅ : gmap bytes bytes)) c ∧
       threads c 0 = Leaving (RBool true) ∧ log c = [(0, OpPut (lit "k") [], RBool true)].
Proof.
  eexists. split_and!.
  - eapply star_step; [by apply (step_call true _ _ _ _ 0 (OpPut (lit "k") []))|].
    eapply star_step; [by eapply (step_lock true _ _ _ _ 0)|].
    eapply star_step; [by eapply (step_read true _ _ _ _ 0)|].
    apply star_one. by eapply (step_write true _ _ _ _ 0).
  - reflexivity.
  - reflexivity.
Qed.

Lemma thread_safe_linearizable_witness :
  ∃ c, log c = [(0, OpPut (lit "k") [], RBool true)] ∧
    exec_all (log_ops c) (∅ : gmap bytes bytes) = Ret (log_resps c) (shared c) ∧
    (∀ t t', inside (threads c t) = true → inside (threads c t') = true → t = t') ∧
    (∀ t r, threads c t = Leaving r → ∃ o, last (log c) = Some (t, o, r)).
Proof.
  destruct one_call as (c & Hs & _ & Hl). exists c. split; [done|].
  exact (thread_safe_linearizable ∅ c Hs).
Defined.

Lemma thread_safe_progress_witness :
  ∃ c, log c = [(0, OpPut (lit "k") [], RBool true)] ∧
    ((∃ c', step true c c') ∨
     ∃ t' o, threads c t' = Working o (shared c) ∧
       ∀ r (st : gmap bytes bytes), exec o (shared c) ≠ Ret r st).
Proof.
  destruct one_call as (c & Hs & Ht & Hl). exists c. split; [done|].
  apply (thread_safe_progress ∅ c 0 Hs). by rewrite Ht.
Defined.
