(* ===== verification/SimpleLRU.v ===== *)
(** * The storage backend: [Backend::SimpleLRU]

    Pointer-level model of src/sysprog/afina/src/storage/SimpleLRU.{h,cpp}.
    The list nodes live in an explicit memory; [unique_ptr] links own their
    target and release it when they are destroyed; raw pointers ([prev],
    [_lru_tail], the references of the index) may dangle, and using them then
    is undefined behaviour.  [Module Abs] is the cache as a plain list of
    associations, and the refinement theorems relate the two. *)

From S2P Require Import Prelude.

(** ** Data *)

(** Address of a node; [std::make_unique] never returns an address in use. *)
Abbreviation loc := positive.

(** [struct lru_node] *)
Record lru_node : Type := mk_node {
  key : bytes;
  value : bytes;
  next : option loc;   (* unique_ptr<lru_node> *)
  prev : option loc;   (* lru_node * *)
}.

(** [class SimpleLRU], with the memory its nodes live in. *)
Record SimpleLRU : Type := mk_lru {
  max_size : Z;
  current_size : Z;
  lru_head : option loc;          (* unique_ptr<lru_node> _lru_head *)
  lru_tail : option loc;          (* lru_node *_lru_tail *)
  lru_index : gmap bytes loc;     (* unordered_map<string, reference_wrapper<lru_node>> *)
  mem : gmap loc lru_node;
  brk : loc;                      (* first address not handed out yet *)
}.

(** [SimpleLRU(size_t max_size)] *)
Definition SimpleLRU_new (max : Z) : SimpleLRU :=
  mk_lru max 0 None None ∅ ∅ 1.

(** *** Assignments to fields *)

Definition set_current_size (z : Z) (s : SimpleLRU) : SimpleLRU :=
  mk_lru (max_size s) z (lru_head s) (lru_tail s) (lru_index s) (mem s) (brk s).
Definition set_head (p : option loc) (s : SimpleLRU) : SimpleLRU :=
  mk_lru (max_size s) (current_size s) p (lru_tail s) (lru_index s) (mem s) (brk s).
Definition set_tail (p : option loc) (s : SimpleLRU) : SimpleLRU :=
  mk_lru (max_size s) (current_size s) (lru_head s) p (lru_index s) (mem s) (brk s).
Definition set_index (m : gmap bytes loc) (s : SimpleLRU) : SimpleLRU :=
  mk_lru (max_size s) (current_size s) (lru_head s) (lru_tail s) m (mem s) (brk s).
Definition set_mem (m : gmap loc lru_node) (s : SimpleLRU) : SimpleLRU :=
  mk_lru (max_size s) (current_size s) (lru_head s) (lru_tail s) (lru_index s) m (brk s).

Definition with_next (p : option loc) (n : lru_node) : lru_node :=
  mk_node (key n) (value n) p (prev n).
Definition with_prev (p : option loc) (n : lru_node) : lru_node :=
  mk_node (key n) (value n) (next n) p.
Definition with_value (v : bytes) (n : lru_node) : lru_node :=
  mk_node (key n) v (next n) (prev n).

(** *** Memory access *)

(** [*p] for a pointer that may be null. *)
Definition deref (p : option loc) : prog SimpleLRU loc := the NullDeref p.

(** Read the node at [l]. *)
Definition load (l : loc) : prog SimpleLRU lru_node := λ s,
  match mem s !! l with Some n => Ret n s | None => Undef UseAfterFree end.

(** Update the node at [l] in place. *)
Definition store (l : loc) (f : lru_node → lru_node) : prog SimpleLRU unit := λ s,
  match mem s !! l with
  | Some n => Ret tt (set_mem (<[l := f n]> (mem s)) s)
  | None => Undef UseAfterFree
  end.

(** [std::make_unique<lru_node>(k, v)] *)
Definition new_node (k v : bytes) : prog SimpleLRU loc := λ s,
  Ret (brk s)
    (mk_lru (max_size s) (current_size s) (lru_head s) (lru_tail s) (lru_index s)
       (<[brk s := mk_node k v None None]> (mem s)) (Pos.succ (brk s))).

(** Destruction of a [unique_ptr] with value [p]: releases the node and then,
    as the node's own [next] is destroyed, the nodes it owns. [fuel] bounds the
    length of the chain; a chain that revisits a node is a double free. *)
Fixpoint destroy (fuel : nat) (p : option loc) : prog SimpleLRU unit := λ s,
  match p with
  | None => Ret tt s
  | Some l =>
    match fuel with
    | O => NoFuel
    | S fuel =>
      match mem s !! l with
      | None => Undef DoubleFree
      | Some n => destroy fuel (next n) (set_mem (delete l (mem s)) s)
      end
    end
  end.

(** End of scope of a local [unique_ptr]; every node in memory is enough fuel. *)
Definition drop (p : option loc) : prog SimpleLRU unit := λ s,
  destroy (S (base.size (mem s))) p s.

(** ** Private operations *)

(** [void SimpleLRU::_remove_node(lru_node &node_to_delete)] *)
Definition remove_node (node_to_delete : loc) : prog SimpleLRU unit :=
  nd ← load node_to_delete;
  modify (λ s, set_index (delete (key nd) (lru_index s)) s);;
  t ← gets lru_tail ≫= deref; tn ← load t;
  modify (λ s, set_current_size
    (wrap64 (current_size s - wrap64 (bsize (key tn) + bsize (value tn)))) s);;
  head ← gets lru_head; tail ← gets lru_tail;
  if decide (Some node_to_delete = head) then
    (* tmp.swap(_lru_head) *)
    let tmp := node_to_delete in
    modify (set_head None);;
    (* _lru_head.swap(tmp->next) *)
    tn' ← load tmp; h ← gets lru_head;
    store tmp (with_next h);; modify (set_head (next tn'));;
    (* _lru_head->prev = nullptr *)
    h' ← gets lru_head ≫= deref; store h' (with_prev None);;
    drop (Some tmp)
  else if decide (Some node_to_delete = tail) then
    (* tmp.swap(_lru_tail->prev->next) *)
    tl ← gets lru_tail ≫= deref; tln ← load tl;
    p ← deref (prev tln); pn ← load p;
    let tmp := next pn in
    store p (with_next None);;
    (* _lru_tail = tmp->prev *)
    tl' ← deref tmp; tn' ← load tl';
    modify (set_tail (prev tn'));;
    (* _lru_tail->next.reset(nullptr) *)
    tl'' ← gets lru_tail ≫= deref; tn'' ← load tl'';
    store tl'' (with_next None);; drop (next tn'');;
    drop tmp
  else
    (* tmp.swap(node_to_delete.prev->next) *)
    n ← load node_to_delete; p ← deref (prev n); pn ← load p;
    let tmp := next pn in
    store p (with_next None);;
    (* tmp->prev->next.swap(tmp->next) *)
    t' ← deref tmp; tn' ← load t'; p' ← deref (prev tn'); pn' ← load p';
    store p' (with_next (next tn'));; store t' (with_next (next pn'));;
    (* tmp->next->prev = tmp->prev *)
    tn'' ← load t'; nx ← deref (next tn''); store nx (with_prev (prev tn''));;
    drop tmp.

(** First half of [_move_to_fresh_data]: unlink a node that is not the tail;
    the node owns itself for a while. *)
Definition unlink_node (recently_used : loc) : prog SimpleLRU unit :=
  head ← gets lru_head;
  if decide (Some recently_used = head) then
    (* _lru_head.swap(recently_used.next) *)
    n ← load recently_used; h ← gets lru_head;
    store recently_used (with_next h);; modify (set_head (next n));;
    (* _lru_head->prev = nullptr *)
    h' ← gets lru_head ≫= deref; store h' (with_prev None)
  else
    (* recently_used.next->prev = recently_used.prev *)
    n ← load recently_used; nx ← deref (next n); store nx (with_prev (prev n));;
    (* recently_used.prev->next.swap(recently_used.next) *)
    n' ← load recently_used; p ← deref (prev n'); pn ← load p;
    store p (with_next (next n'));; store recently_used (with_next (next pn)).

(** Second half: link the node after the tail. *)
Definition relink_tail (recently_used : loc) : prog SimpleLRU unit :=
  (* _lru_tail->next.swap(recently_used.next) *)
  t ← gets lru_tail ≫= deref; tn ← load t; rn ← load recently_used;
  store t (with_next (next rn));; store recently_used (with_next (next tn));;
  (* recently_used.prev = _lru_tail; _lru_tail = &recently_used *)
  tail' ← gets lru_tail; store recently_used (with_prev tail');;
  modify (set_tail (Some recently_used)).

(** [void SimpleLRU::_move_to_fresh_data(lru_node &recently_used)] *)
Definition move_to_fresh_data (recently_used : loc) : prog SimpleLRU unit :=
  tail ← gets lru_tail;
  if decide (Some recently_used = tail) then mret tt
  else unlink_node recently_used;; relink_tail recently_used.

(** [while (over(_current_size)) { _remove_node( *_lru_head ); }] *)
Fixpoint evict_loop (fuel : nat) (over : SimpleLRU → bool) : prog SimpleLRU unit := λ s,
  if over s then
    match fuel with
    | O => NoFuel
    | S fuel =>
      (h ← gets lru_head ≫= deref; remove_node h;; evict_loop fuel over) s
    end
  else Ret tt s.

(** The loops of the class: each turn releases one node of the memory. *)
Definition evict_while (over : SimpleLRU → bool) : prog SimpleLRU unit := λ s,
  evict_loop (S (base.size (mem s))) over s.

(** [_insert_new_value] after its eviction loop: link a new node at the tail. *)
Definition push_node (k v : bytes) : prog SimpleLRU unit :=
  node ← new_node k v;
  tail ← gets lru_tail;
  new_node_ptr ←
    match tail with
    | Some t =>
      (* new_node->prev = _lru_tail *)
      store node (with_prev (Some t));;
      (* _lru_tail->next.swap(new_node) *)
      tn ← load t; store t (with_next (Some node));;
      (* _lru_tail = _lru_tail->next.get() *)
      tn' ← load t; modify (set_tail (next tn'));;
      mret (next tn)
    | None =>
      (* _lru_tail = new_node.get(); _lru_head.swap(new_node) *)
      modify (set_tail (Some node));;
      head ← gets lru_head; modify (set_head (Some node));;
      mret head
    end;
  (* _lru_index.insert(make_pair(key, *_lru_tail)): keeps a present entry *)
  t ← gets lru_tail ≫= deref;
  modify (λ s, match lru_index s !! k with
               | Some _ => s
               | None => set_index (<[k := t]> (lru_index s)) s
               end);;
  modify (λ s, set_current_size (wrap64 (current_size s + wrap64 (bsize k + bsize v))) s);;
  drop new_node_ptr.

(** [void SimpleLRU::_insert_new_value(key, value)] *)
Definition insert_new_value (k v : bytes) : prog SimpleLRU unit :=
  evict_while (λ s,
    wrap64 (wrap64 (max_size s - bsize k) - bsize v) <? current_size s)%Z;;
  push_node k v.

(** [void SimpleLRU::_update_value(lru_node &update_node, new_value)] *)
Definition update_value (update_node : loc) (new_value : bytes) : prog SimpleLRU unit :=
  n ← load update_node;
  let delta_size := wrap64 (bsize new_value - bsize (value n)) in
  evict_while (λ s, max_size s <? wrap64 (current_size s + delta_size))%Z;;
  store update_node (with_value new_value);;
  move_to_fresh_data update_node;;
  modify (λ s, set_current_size (wrap64 (current_size s + delta_size)) s).

(** ** Public operations *)

(** [key.size() + value.size() > _max_size] *)
Definition too_big (k v : bytes) (s : SimpleLRU) : bool :=
  (max_size s <? wrap64 (bsize k + bsize v))%Z.

(** [bool SimpleLRU::Put(key, value)] *)
Definition Put (k v : bytes) : prog SimpleLRU bool :=
  big ← gets (too_big k v);
  if big : bool then mret false
  else
    it ← gets (λ s, lru_index s !! k);
    match it with
    | None => insert_new_value k v;; mret true
    | Some node => update_value node v;; mret true
    end.

(** [bool SimpleLRU::PutIfAbsent(key, value)] *)
Definition PutIfAbsent (k v : bytes) : prog SimpleLRU bool :=
  big ← gets (too_big k v);
  if big : bool then mret false
  else
    it ← gets (λ s, lru_index s !! k);
    match it with
    | None => insert_new_value k v;; mret true
    | Some _ => mret false
    end.

(** [bool SimpleLRU::Set(key, value)] *)
Definition Set_ (k v : bytes) : prog SimpleLRU bool :=
  big ← gets (too_big k v);
  if big : bool then mret false
  else
    it ← gets (λ s, lru_index s !! k);
    match it with
    | Some node => update_value node v;; mret true
    | None => mret false
    end.

(** [bool SimpleLRU::Delete(key)] *)
Definition Delete (k : bytes) : prog SimpleLRU bool :=
  it ← gets (λ s, lru_index s !! k);
  match it with
  | None => mret false
  | Some node => remove_node node;; mret true
  end.

(** [bool SimpleLRU::Get(key, value &)]: the result and the value copied out. *)
Definition Get (k : bytes) : prog SimpleLRU (option bytes) :=
  it ← gets (λ s, lru_index s !! k);
  match it with
  | None => mret None
  | Some node =>
    n ← load node;
    move_to_fresh_data node;;
    mret (Some (value n))
  end.

(** [SimpleLRU::~SimpleLRU()] *)
Fixpoint destructor_loop (fuel : nat) : prog SimpleLRU unit := λ s,
  (h ← gets lru_head ≫= deref; n ← load h;
   match next n with
   | None => mret tt
   | Some _ =>
     match fuel with
     | O => out_of_fuel
     | S fuel =>
       (* node_to_delete.swap(_lru_head); _lru_head.swap(node_to_delete->next) *)
       modify (set_head None);;
       store h (with_next None);; modify (set_head (next n));;
       drop (Some h);;
       destructor_loop fuel
     end
   end) s.

Definition SimpleLRU_destroy : prog SimpleLRU unit :=
  head ← gets lru_head;
  match head with
  | None => mret tt
  | Some _ =>
    modify (set_index ∅);;
    (λ s, destructor_loop (base.size (mem s)) s);;
    (* _lru_head.reset() *)
    h ← gets lru_head; modify (set_head None);; drop h
  end.

(** ** The abstract cache *)

(** The cache as the list of its associations, least recently used first.
    Undefined behaviour of the pointer program is undefined behaviour here, of
    the same kind, so that the refinement below is an exact account of it. *)
Module Abs.

Record cache : Type := mk_cache {
  amax : Z;
  acur : Z;
  items : list (bytes * bytes);
}.

Definition esize (e : bytes * bytes) : Z := bsize e.1 + bsize e.2.

(** Value associated with a key. *)
Fixpoint find (k : bytes) (l : list (bytes * bytes)) : option bytes :=
  match l with
  | [] => None
  | e :: l => if decide (e.1 = k) then Some e.2 else find k l
  end.

(** The associations without the one of a key. *)
Fixpoint erase (k : bytes) (l : list (bytes * bytes)) : list (bytes * bytes) :=
  match l with
  | [] => []
  | e :: l => if decide (e.1 = k) then l else e :: erase k l
  end.

(** Size account after a removal: the code subtracts the size of the most
    recently used association, whichever one it removes. *)
Definition debit (l : list (bytes * bytes)) (cur : Z) : Z :=
  match last l with
  | Some e => wrap64 (cur - wrap64 (esize e))
  | None => cur
  end.

(** Removal works at the two ends of a list of at least two associations. *)
Definition remove (k : bytes) : prog cache unit := λ c,
  match items c with
  | e :: _ :: _ =>
    if decide (Some k = fst <$> head (items c) ∨ Some k = fst <$> last (items c)) then
      Ret tt (mk_cache (amax c) (debit (items c) (acur c)) (erase k (items c)))
    else Undef NullDeref
  | _ => Undef NullDeref
  end.

(** Eviction of the least recently used associations while [over] holds of the
    size account; [None] when it would have to empty the list. *)
Fixpoint evict (over : Z → bool) (l : list (bytes * bytes)) (cur : Z) :
    option (list (bytes * bytes) * Z) :=
  if over cur then
    match l with
    | _ :: (_ :: _) as r => evict over r (debit l cur)
    | _ => None
    end
  else Some (l, cur).

Definition insert (k v : bytes) : prog cache unit := λ c,
  match evict (λ cur, wrap64 (wrap64 (amax c - bsize k) - bsize v) <? cur)%Z
          (items c) (acur c) with
  | None => Undef NullDeref
  | Some (l, cur) =>
    Ret tt (mk_cache (amax c) (wrap64 (cur + wrap64 (bsize k + bsize v))) (l ++ [(k, v)]))
  end.

Definition update (k old v : bytes) : prog cache unit := λ c,
  let delta := wrap64 (bsize v - bsize old) in
  match evict (λ cur, amax c <? wrap64 (cur + delta))%Z (items c) (acur c) with
  | None => Undef NullDeref
  | Some (l, cur) =>
    match find k l with
    | None => Undef UseAfterFree   (* evicted the association being updated *)
    | Some _ =>
      Ret tt (mk_cache (amax c) (wrap64 (cur + delta)) (erase k l ++ [(k, v)]))
    end
  end.

Definition too_big (k v : bytes) (c : cache) : bool :=
  (amax c <? wrap64 (bsize k + bsize v))%Z.

Definition Put (k v : bytes) : prog cache bool := λ c,
  if too_big k v c then Ret false c
  else match find k (items c) with
       | None => (insert k v;; mret true) c
       | Some old => (update k old v;; mret true) c
       end.

Definition PutIfAbsent (k v : bytes) : prog cache bool := λ c,
  if too_big k v c then Ret false c
  else match find k (items c) with
       | None => (insert k v;; mret true) c
       | Some _ => Ret false c
       end.

Definition Set_ (k v : bytes) : prog cache bool := λ c,
  if too_big k v c then Ret false c
  else match find k (items c) with
       | Some old => (update k old v;; mret true) c
       | None => Ret false c
       end.

Definition Delete (k : bytes) : prog cache bool := λ c,
  match find k (items c) with
  | None => Ret false c
  | Some _ => (remove k;; mret true) c
  end.

Definition Get (k : bytes) : prog cache (option bytes) := λ c,
  match find k (items c) with
  | None => Ret None c
  | Some v => Ret (Some v) (mk_cache (amax c) (acur c) (erase k (items c) ++ [(k, v)]))
  end.

End Abs.

(** ** The representation relation *)

(** A list of addresses with the associations stored there. *)
Abbreviation chain := (list (loc * (bytes * bytes))).

Definition first_loc (L : chain) (nn : option loc) : option loc :=
  match L with [] => nn | x :: _ => Some x.1 end.
Definition last_loc (pp : option loc) (L : chain) : option loc :=
  match last L with None => pp | Some x => Some x.1 end.

(** [dlseg m pp L nn]: the nodes of [L] are in [m], doubly linked in that
    order, between the neighbours [pp] and [nn]. *)
Fixpoint dlseg (m : gmap loc lru_node) (pp : option loc) (L : chain) (nn : option loc) : Prop :=
  match L with
  | [] => True
  | x :: L =>
    m !! x.1 = Some (mk_node x.2.1 x.2.2 (first_loc L nn) pp) ∧ dlseg m (Some x.1) L nn
  end.

(** The shape of a well-formed cache whose nodes are [L]. *)
Record shape (s : SimpleLRU) (L : chain) : Prop := mk_shape {
  shape_head : lru_head s = first_loc L None;
  shape_tail : lru_tail s = last_loc None L;
  shape_seg : dlseg (mem s) None L None;
  shape_locs : NoDup L.*1;
  shape_keys : NoDup L.*2.*1;
  shape_dom : dom (mem s) = list_to_set L.*1;
  shape_index : ∀ k l, lru_index s !! k = Some l ↔ ∃ v, (l, (k, v)) ∈ L;
  shape_brk : Forall (λ x, (x.1 < brk s)%positive) L;
}.

(** The pointer structure [s] represents the abstract cache [c]. *)
Definition rep (s : SimpleLRU) (c : Abs.cache) : Prop :=
  ∃ L, shape s L ∧ Abs.items c = L.*2 ∧
       max_size s = Abs.amax c ∧ current_size s = Abs.acur c.

(** Same outcome, with related states. *)
Definition refines {A} (rc : res SimpleLRU A) (ra : res Abs.cache A) : Prop :=
  match rc, ra with
  | Ret a s, Ret a' c => a = a' ∧ rep s c
  | Undef u, Undef u' => u = u'
  | _, _ => False
  end.

(** ** Facts about the abstract cache *)

Section abs_facts.
Import Abs.
Implicit Types (k : bytes) (l : list (bytes * bytes)).

Lemma find_Some k l v : find k l = Some v → (k, v) ∈ l.
Proof.
  induction l as [|[k' v'] l IH]; simpl; [done|].
  case_decide as E; intros H; simplify_eq/=; set_solver.
Qed.

Lemma find_None k l : find k l = None ↔ k ∉ l.*1.
Proof.
  induction l as [|[k' v'] l IH]; simpl; [set_solver|].
  case_decide; set_solver.
Qed.

Lemma find_elem k v l : NoDup l.*1 → (k, v) ∈ l → find k l = Some v.
Proof.
  induction l as [|[k' v'] l IH]; simpl; [set_solver|].
  intros [Hk Hl]%NoDup_cons [Heq|Hin]%elem_of_cons; simplify_eq/=.
  - by rewrite decide_True.
  - case_decide as E; [|auto]. subst. destruct Hk.
    apply list_elem_of_fmap. by exists (k, v).
Qed.

Lemma erase_middle k v l1 l2 : k ∉ l1.*1 → erase k (l1 ++ (k, v) :: l2) = l1 ++ l2.
Proof.
  induction l1 as [|[k' v'] l1 IH]; simpl; intros Hk.
  - by rewrite decide_True.
  - rewrite decide_False by set_solver. f_equal. apply IH. set_solver.
Qed.

Lemma erase_None k l : k ∉ l.*1 → erase k l = l.
Proof.
  induction l as [|[k' v'] l IH]; simpl; intros Hk; [done|].
  rewrite decide_False by set_solver. f_equal. apply IH. set_solver.
Qed.

Lemma find_app k l1 l2 :
  find k (l1 ++ l2) = match find k l1 with Some v => Some v | None => find k l2 end.
Proof. induction l1 as [|e l1 IH]; simpl; [done|]. by case_decide. Qed.

Lemma find_erase_ne k k' l : k ≠ k' → find k (erase k' l) = find k l.
Proof.
  intros Hne. induction l as [|e l IH]; simpl; [done|].
  case_decide as E; [by rewrite decide_False by congruence|].
  simpl. by rewrite IH.
Qed.

Lemma find_erase_eq k l : NoDup l.*1 → find k (erase k l) = None.
Proof.
  induction l as [|e l IH]; simpl; [done|].
  intros [He Hl]%NoDup_cons. case_decide as E.
  - subst. by apply find_None.
  - simpl. rewrite decide_False by done. auto.
Qed.

(** The list around an association that is present. *)
Lemma find_split k v l :
  find k l = Some v → ∃ l1 l2, l = l1 ++ (k, v) :: l2 ∧ k ∉ l1.*1.
Proof.
  induction l as [|[k' v'] l IH]; simpl; [done|].
  case_decide as E; intros H; simplify_eq/=.
  - exists [], l. split; [done|set_solver].
  - destruct (IH H) as (l1 & l2 & -> & Hk).
    exists ((k', v') :: l1), l2. split; [done|]. set_solver.
Qed.

End abs_facts.

(** ** Facts about list segments *)

Section seg_facts.
Implicit Types (m : gmap loc lru_node) (L A B : chain).

Lemma last_loc_cons pp x L : last_loc pp (x :: L) = last_loc (Some x.1) L.
Proof. unfold last_loc. rewrite last_cons. by destruct (last L). Qed.

Lemma last_loc_snoc pp L x : last_loc pp (L ++ [x]) = Some x.1.
Proof. unfold last_loc. by rewrite last_snoc. Qed.

Lemma first_loc_app A B nn : first_loc (A ++ B) nn = first_loc A (first_loc B nn).
Proof. by destruct A. Qed.

Lemma last_loc_app pp A B : last_loc pp (A ++ B) = last_loc (last_loc pp A) B.
Proof.
  revert pp. induction A as [|x A IH]; intros pp; simpl; [done|].
  by rewrite !last_loc_cons.
Qed.

Lemma dlseg_app m pp A B nn :
  dlseg m pp (A ++ B) nn ↔ dlseg m pp A (first_loc B nn) ∧ dlseg m (last_loc pp A) B nn.
Proof.
  revert pp. induction A as [|x A IH]; intros pp; simpl; [tauto|].
  rewrite IH, first_loc_app, last_loc_cons. tauto.
Qed.

(** A segment depends on its own nodes only. *)
Lemma dlseg_frame m m' pp L nn :
  (∀ l, l ∈ L.*1 → m' !! l = m !! l) → dlseg m pp L nn → dlseg m' pp L nn.
Proof.
  revert pp. induction L as [|x L IH]; intros pp Heq; simpl; [done|].
  intros [Hx HL]. split.
  - rewrite Heq by set_solver. done.
  - apply IH; [|done]. set_solver.
Qed.

Lemma dlseg_insert_frame m l n pp L nn :
  l ∉ L.*1 → dlseg m pp L nn → dlseg (<[l := n]> m) pp L nn.
Proof.
  intros Hl. apply dlseg_frame. intros l' Hl'. apply lookup_insert_ne. set_solver.
Qed.

Lemma dlseg_delete_frame m l pp L nn :
  l ∉ L.*1 → dlseg m pp L nn → dlseg (delete l m) pp L nn.
Proof.
  intros Hl. apply dlseg_frame. intros l' Hl'. apply lookup_delete_ne. set_solver.
Qed.

(** Assignment of the [prev] link of the first node. *)
Lemma dlseg_set_prev m pp pp' x L nn n :
  NoDup (x :: L).*1 → m !! x.1 = Some n →
  dlseg m pp (x :: L) nn → dlseg (<[x.1 := with_prev pp' n]> m) pp' (x :: L) nn.
Proof.
  intros [Hx HL]%NoDup_cons Hn [Hx' Hseg]. split.
  - rewrite lookup_insert_eq. simplify_eq. done.
  - by apply dlseg_insert_frame.
Qed.

(** Assignment of the [next] link of the last node. *)
Lemma dlseg_set_next m pp L x nn nn' n :
  NoDup (L ++ [x]).*1 → m !! x.1 = Some n →
  dlseg m pp (L ++ [x]) nn → dlseg (<[x.1 := with_next nn' n]> m) pp (L ++ [x]) nn'.
Proof.
  rewrite fmap_app, NoDup_app. intros (HL & Hx & _) Hn.
  rewrite !dlseg_app. intros [H1 [H2 _]]. split.
  - apply dlseg_insert_frame; [set_solver|done].
  - split; [|done]. rewrite lookup_insert_eq. simplify_eq. done.
Qed.

Lemma dlseg_first m pp x L nn :
  dlseg m pp (x :: L) nn → m !! x.1 = Some (mk_node x.2.1 x.2.2 (first_loc L nn) pp).
Proof. by intros [? _]. Qed.

Lemma dlseg_last m pp L x nn :
  dlseg m pp (L ++ [x]) nn →
  m !! x.1 = Some (mk_node x.2.1 x.2.2 nn (last_loc pp L)).
Proof. rewrite dlseg_app. by intros [_ [? _]]. Qed.

End seg_facts.

(** ** Symbolic execution of the pointer operations *)

Section run_facts.
Implicit Types (s : SimpleLRU).

Lemma bind_gets {A B} (f : SimpleLRU → A) (k : A → prog SimpleLRU B) s :
  (gets f ≫= k) s = k (f s) s.
Proof. done. Qed.

Lemma bind_modify {B} f (k : unit → prog SimpleLRU B) s :
  (modify f ≫= k) s = k tt (f s).
Proof. done. Qed.

Lemma bind_mret {A B} (a : A) (k : A → prog SimpleLRU B) s : (mret a ≫= k) s = k a s.
Proof. done. Qed.

Lemma bind_deref {B} l (k : loc → prog SimpleLRU B) s : (deref (Some l) ≫= k) s = k l s.
Proof. done. Qed.

Lemma bind_deref_null {B} (k : loc → prog SimpleLRU B) s :
  (deref None ≫= k) s = Undef NullDeref.
Proof. done. Qed.

Lemma bind_load {B} l n (k : lru_node → prog SimpleLRU B) s :
  mem s !! l = Some n → (load l ≫= k) s = k n s.
Proof. intros H. unfold mbind, prog_bind, load. by rewrite H. Qed.

Lemma bind_load_freed {B} l (k : lru_node → prog SimpleLRU B) s :
  mem s !! l = None → (load l ≫= k) s = Undef UseAfterFree.
Proof. intros H. unfold mbind, prog_bind, load. by rewrite H. Qed.

Lemma bind_store_freed {B} l f (k : unit → prog SimpleLRU B) s :
  mem s !! l = None → (store l f ≫= k) s = Undef UseAfterFree.
Proof. intros H. unfold mbind, prog_bind, store. by rewrite H. Qed.

Lemma bind_store {B} l f n (k : unit → prog SimpleLRU B) s :
  mem s !! l = Some n →
  (store l f ≫= k) s = k tt (set_mem (<[l := f n]> (mem s)) s).
Proof. intros H. unfold mbind, prog_bind, store. by rewrite H. Qed.

Lemma store_run l f n s :
  mem s !! l = Some n → store l f s = Ret tt (set_mem (<[l := f n]> (mem s)) s).
Proof. intros H. unfold store. by rewrite H. Qed.

Lemma destroy_None fuel s : destroy fuel None s = Ret tt s.
Proof. by destruct fuel. Qed.

Lemma drop_None s : drop None s = Ret tt s.
Proof. done. Qed.

Lemma drop_last l n s :
  mem s !! l = Some n → next n = None →
  drop (Some l) s = Ret tt (set_mem (delete l (mem s)) s).
Proof.
  intros Hl Hn. unfold drop. simpl. rewrite Hl, Hn. apply destroy_None.
Qed.

Lemma bind_drop_None {B} (k : unit → prog SimpleLRU B) s : (drop None ≫= k) s = k tt s.
Proof. done. Qed.

Lemma bind_drop_last {B} l n (k : unit → prog SimpleLRU B) s :
  mem s !! l = Some n → next n = None →
  (drop (Some l) ≫= k) s = k tt (set_mem (delete l (mem s)) s).
Proof. intros Hl Hn. apply bind_ret. by apply drop_last with n. Qed.

Lemma bind_new_node {B} k v (K : loc → prog SimpleLRU B) s :
  (new_node k v ≫= K) s = K (brk s)
    (mk_lru (max_size s) (current_size s) (lru_head s) (lru_tail s) (lru_index s)
       (<[brk s := mk_node k v None None]> (mem s)) (Pos.succ (brk s))).
Proof. done. Qed.

End run_facts.

Ltac norm :=
  cbn [max_size current_size lru_head lru_tail lru_index mem brk set_current_size
       set_head set_tail set_index set_mem with_next with_prev with_value key value
       next prev] in *.

(** Lookup in a memory after stores at other addresses. *)
Ltac look :=
  norm; repeat first [rewrite lookup_insert_eq | rewrite lookup_insert_ne by congruence
                     | rewrite lookup_delete_ne by congruence];
  first [eassumption | reflexivity].

(** One command of the program at the head of the goal. *)
Ltac run1 :=
  first
  [ rewrite bind_new_node | rewrite bind_gets | rewrite bind_modify | rewrite bind_mret
  | rewrite bind_deref | rewrite bind_deref_null
  | rewrite decide_True by congruence | rewrite decide_False by congruence
  | erewrite bind_load by look | erewrite bind_store by look
  | erewrite store_run by look
  | erewrite drop_last by look | rewrite drop_None
  | erewrite bind_drop_last by look | rewrite bind_drop_None
  | rewrite prog_assoc ]; norm.
Ltac run := repeat (progress run1).

(** ** Removal of a node *)

Section remove_facts.
Implicit Types (s : SimpleLRU) (L : chain).

Lemma chain_snoc L x : ∃ L' t, x :: L = L' ++ [t].
Proof. destruct (exists_last (l := x :: L)) as (L' & t & H); [done|eauto]. Qed.

Lemma debit_snoc l e cur :
  Abs.debit (l ++ [e]) cur = wrap64 (cur - wrap64 (Abs.esize e)).
Proof. unfold Abs.debit. by rewrite last_snoc. Qed.

(** What remains of the shape when one node is taken out of the list. *)
Lemma shape_without s s' A x B :
  shape s (A ++ x :: B) →
  lru_head s' = first_loc (A ++ B) None → lru_tail s' = last_loc None (A ++ B) →
  dlseg (mem s') None (A ++ B) None →
  dom (mem s') = dom (mem s) ∖ {[x.1]} →
  lru_index s' = delete x.2.1 (lru_index s) → brk s' = brk s →
  shape s' (A ++ B).
Proof.
  intros [_ _ _ Hlocs Hkeys Hdom Hidx Hbrk] Hh Ht Hseg Hdom' Hidx' Hbrk'.
  assert (A ++ x :: B ≡ₚ x :: A ++ B) as HP by (symmetry; apply Permutation_middle).
  rewrite HP in Hlocs, Hkeys, Hbrk. csimpl in *.
  apply NoDup_cons in Hlocs as [Hx Hlocs], Hkeys as [Hkx Hkeys].
  split; [done..| | |].
  - rewrite Hdom', Hdom. apply set_eq. intros l.
    rewrite elem_of_difference, !elem_of_list_to_set, HP. csimpl. set_solver.
  - intros k l. rewrite Hidx', lookup_delete_Some, Hidx. setoid_rewrite HP.
    setoid_rewrite elem_of_cons. split.
    + intros (Hne & v & [Heq|Hin]); [|eauto]. subst x. done.
    + intros (v & Hin). split; [|eauto]. intros <-. apply Hkx.
      apply list_elem_of_fmap. exists (x.2.1, v). split; [done|].
      apply list_elem_of_fmap. by exists (l, (x.2.1, v)).
  - rewrite Hbrk'. by inversion Hbrk.
Qed.

(** Removing the node at the head of a list of at least two nodes. *)
Lemma remove_head_run s x y L :
  shape s (x :: y :: L) →
  ∃ s', remove_node x.1 s = Ret tt s' ∧ shape s' (y :: L) ∧
        max_size s' = max_size s ∧
        current_size s' = Abs.debit (x :: y :: L).*2 (current_size s).
Proof.
  intros Hs. pose proof Hs as [Hh Ht Hseg Hlocs _ Hdom _ _].
  destruct (chain_snoc L y) as (L' & t & HL).
  assert (mem s !! t.1 = Some (mk_node t.2.1 t.2.2 None (last_loc (Some x.1) L'))) as Hlt.
  { apply dlseg_last with (pp := Some x.1). rewrite <-HL. apply Hseg. }
  rewrite HL, last_loc_cons, last_loc_snoc in Ht.
  destruct s as [mx cur hd tl idx m bk]. norm. csimpl in *. subst hd tl.
  destruct Hseg as (Hx & Hy & Hseg).
  apply NoDup_cons in Hlocs as [Hx' [Hy' _]%NoDup_cons].
  assert (x.1 ≠ y.1) as Hxy by set_solver.
  eexists. split.
  { unfold remove_node. run. reflexivity. }
  split; [|split; [done|]].
  - apply (shape_without _ _ [] x _ Hs); simpl; norm.
    + done.
    + by rewrite HL, last_loc_snoc.
    + rewrite lookup_delete_ne, lookup_insert_eq by congruence. split; [done|].
      apply dlseg_delete_frame, dlseg_insert_frame, dlseg_insert_frame; [set_solver..|done].
    + rewrite dom_delete_L, !dom_insert_lookup_L by (rewrite ?lookup_insert_ne; eauto). done.
    + done.
    + done.
  - norm. change (x.2 :: y.2 :: L.*2) with ((x :: y :: L).*2).
    rewrite HL, app_comm_cons, fmap_app. symmetry. apply (debit_snoc _ t.2).
Qed.

(** Removing the node at the tail of a list of at least two nodes. *)
Lemma remove_tail_run s L y x :
  shape s (L ++ [y; x]) →
  ∃ s', remove_node x.1 s = Ret tt s' ∧ shape s' (L ++ [y]) ∧
        max_size s' = max_size s ∧
        current_size s' = Abs.debit (L ++ [y; x]).*2 (current_size s).
Proof.
  intros Hs. pose proof Hs as [Hh Ht Hseg Hlocs _ Hdom _ _].
  replace (L ++ [y; x]) with ((L ++ [y]) ++ [x]) in * by by rewrite <-app_assoc.
  pose proof (dlseg_last _ _ _ _ _ Hseg) as Hx.
  rewrite last_loc_snoc in Hx. rewrite last_loc_snoc in Ht.
  apply dlseg_app in Hseg as [Hseg _]. simpl in Hseg.
  pose proof (dlseg_last _ _ _ _ _ Hseg) as Hy.
  rewrite fmap_app in Hlocs. apply NoDup_app in Hlocs as (Hlocs & Hdis & _).
  assert (x.1 ∉ (L ++ [y]).*1) as Hx'.
  { intros Hin. apply (Hdis _ Hin). csimpl. set_solver. }
  assert (x.1 ≠ y.1) as Hxy by (rewrite fmap_app in Hx'; set_solver).
  assert (Some x.1 ≠ first_loc ((L ++ [y]) ++ [x]) None) as Hhd.
  { destruct L as [|z L]; csimpl in *; set_solver. }
  rewrite <-Hh in Hhd.
  destruct s as [mx cur hd tl idx m bk]. norm. subst tl.
  eexists. split.
  { unfold remove_node. run. reflexivity. }
  split; [|split; [done|]].
  - rewrite <-(app_nil_r (L ++ [y])).
    apply (shape_without _ _ _ x _ Hs); rewrite ?app_nil_r; norm.
    + rewrite Hh. rewrite !first_loc_app. by destruct L.
    + by rewrite last_loc_snoc.
    + apply dlseg_delete_frame; [done|]. rewrite insert_insert_eq.
      exact (dlseg_set_next _ _ _ _ _ None _ Hlocs Hy Hseg).
    + rewrite dom_delete_L, !dom_insert_lookup_L; [done|eauto|].
      rewrite lookup_insert_eq. eauto.
    + done.
    + done.
  - norm. rewrite fmap_app. symmetry. apply (debit_snoc _ x.2).
Qed.

(** Removing the only node, or a node strictly inside of the list, follows a
    null pointer. *)
Lemma remove_single_run s x :
  shape s [x] → remove_node x.1 s = Undef NullDeref.
Proof.
  intros [Hh Ht [Hx _] _ _ _ _ _].
  destruct s as [mx cur hd tl idx m bk]. norm. csimpl in *.
  unfold last_loc in Ht. simpl in Ht. subst hd tl.
  unfold remove_node. run. done.
Qed.

Lemma remove_middle_run s A x B :
  A ≠ [] → B ≠ [] → shape s (A ++ x :: B) → remove_node x.1 s = Undef NullDeref.
Proof.
  intros HA HB [Hh Ht Hseg Hlocs _ _ _ _].
  destruct (exists_last HA) as (A' & a & ->).
  destruct (exists_last HB) as (B' & b & ->).
  apply dlseg_app in Hseg as [HsA [Hx HsB]].
  pose proof (dlseg_last _ _ _ _ _ HsA) as Ha.
  pose proof (dlseg_last _ _ _ _ _ HsB) as Hb.
  rewrite last_loc_snoc in Hx.
  rewrite app_comm_cons, app_assoc, last_loc_snoc in Ht.
  rewrite fmap_app, fmap_cons in Hlocs.
  apply NoDup_app in Hlocs as (_ & Hdis & Hlocs).
  apply NoDup_cons in Hlocs as [Hx' Hlocs].
  assert (x.1 ≠ b.1) by (rewrite fmap_app in Hx'; set_solver).
  assert (x.1 ∉ (A' ++ [a]).*1) as HxA.
  { intros Hin. apply (Hdis _ Hin). set_solver. }
  assert (x.1 ≠ a.1) by (rewrite fmap_app in HxA; set_solver).
  assert (Some x.1 ≠ lru_head s).
  { rewrite Hh. destruct A'; csimpl in *; set_solver. }
  destruct s as [mx cur hd tl idx m bk]. norm. subst tl.
  cbn [first_loc] in Ha. unfold remove_node. run. done.
Qed.

End remove_facts.

(** ** Moving a node to the fresh end *)

Section move_facts.
Implicit Types (s : SimpleLRU) (L : chain).

(** The shape after relinking the same nodes in another order. *)
Lemma shape_perm s s' L L' :
  shape s L → L' ≡ₚ L →
  lru_head s' = first_loc L' None → lru_tail s' = last_loc None L' →
  dlseg (mem s') None L' None → dom (mem s') = dom (mem s) →
  lru_index s' = lru_index s → brk s' = brk s → shape s' L'.
Proof.
  intros [_ _ _ Hlocs Hkeys Hdom Hidx Hbrk] HP Hh Ht Hseg Hdom' Hidx' Hbrk'.
  split; [done..| | | | |].
  - by rewrite HP.
  - by rewrite HP.
  - rewrite Hdom', Hdom. apply set_eq. intros l. rewrite !elem_of_list_to_set. by rewrite HP.
  - intros k l. rewrite Hidx', Hidx. by setoid_rewrite HP.
  - by rewrite Hbrk', HP.
Qed.

(** Same state up to the links of the nodes. *)
Definition same_frame s s' : Prop :=
  max_size s' = max_size s ∧ current_size s' = current_size s ∧
  lru_index s' = lru_index s ∧ brk s' = brk s ∧ dom (mem s') = dom (mem s).

Lemma unlink_run s A x B t :
  shape s (A ++ x :: B ++ [t]) →
  ∃ s' n, unlink_node x.1 s = Ret tt s' ∧ same_frame s s' ∧
    lru_head s' = first_loc (A ++ B ++ [t]) None ∧ lru_tail s' = Some t.1 ∧
    dlseg (mem s') None (A ++ B ++ [t]) None ∧
    mem s' !! x.1 = Some n ∧ key n = x.2.1 ∧ value n = x.2.2 ∧ next n = Some x.1.
Proof.
  intros [Hh Ht Hseg Hlocs _ _ _ _].
  destruct (B ++ [t]) as [|b B'] eqn:HB; [by destruct B|].
  replace (last_loc None (A ++ x :: b :: B')) with (Some t.1) in Ht; last first.
  { by rewrite <-HB, app_comm_cons, app_assoc, last_loc_snoc. }
  rewrite fmap_app, !fmap_cons in Hlocs.
  apply NoDup_app in Hlocs as (HlA & Hdis & [Hx' Hlocs]%NoDup_cons).
  assert (x.1 ≠ b.1) by set_solver.
  pose proof Hlocs as [Hb' _]%NoDup_cons.
  apply dlseg_app in Hseg as [HsA [Hx HsB]].
  destruct A as [|a' A' _] using rev_ind.
  - destruct HsB as [Hb HsB].
    destruct s as [mx cur hd tl idx m bk]. norm. simpl in *. subst hd tl.
    eexists _, _. split; [unfold unlink_node; run; reflexivity|]. norm.
    split; [|split; [done|split; [done|split; [|split; [look|done]]]]].
    + unfold same_frame. norm. split_and!; try done. rewrite !dom_insert_lookup_L; [done|eauto|].
      rewrite lookup_insert_ne by done. eauto.
    + split; [by rewrite lookup_insert_eq|].
      apply dlseg_insert_frame, dlseg_insert_frame; [set_solver..|done].
  - pose proof (dlseg_last _ _ _ _ _ HsA) as Ha. cbn [first_loc] in *.
    rewrite last_loc_snoc in Hx.
    assert (x.1 ∉ (A' ++ [a']).*1) as HxA by (intros Hin; apply (Hdis _ Hin); set_solver).
    assert (a'.1 ∈ (A' ++ [a']).*1) as Hain by (rewrite fmap_app; set_solver).
    assert (x.1 ≠ a'.1) by set_solver.
    pose proof (Hdis _ Hain) as Ha'. assert (a'.1 ≠ b.1) by set_solver.
    assert (b.1 ∉ (A' ++ [a']).*1) as HbA by (intros Hin; apply (Hdis _ Hin); set_solver).
    pose proof (dlseg_first _ _ _ _ _ HsB) as Hb.
    assert (Some x.1 ≠ lru_head s) as Hhd.
    { rewrite Hh. destruct A'; csimpl in *; set_solver. }
    destruct s as [mx cur hd tl idx m bk]. norm. subst tl.
    eexists _, _. split; [unfold unlink_node; run; reflexivity|]. norm.
    split; [|split; [|split; [done|split; [|split; [look|done]]]]].
    + unfold same_frame. norm. split_and!; try done. rewrite !dom_insert_lookup_L; eauto.
      all: rewrite ?lookup_insert_ne by congruence; eauto.
    + rewrite Hh. by rewrite !first_loc_app.
    + replace ((A' ++ [a']) ++ b :: B') with ((A' ++ [a']) ++ (b :: B')) by done.
      apply dlseg_app. rewrite last_loc_snoc. cbn [first_loc]. split.
      * apply dlseg_insert_frame; [done|].
        refine (dlseg_set_next _ _ _ _ _ (Some b.1) _ HlA _ _); [look|].
        by apply dlseg_insert_frame.
      * apply dlseg_insert_frame; [set_solver|].
        apply dlseg_insert_frame; [set_solver|].
        exact (dlseg_set_prev _ _ (Some a'.1) _ _ _ _ Hlocs Hb HsB).
Qed.

Lemma relink_run s x n C t :
  dlseg (mem s) None (C ++ [t]) None → NoDup (x.1 :: (C ++ [t]).*1) →
  lru_head s = first_loc (C ++ [t]) None → lru_tail s = Some t.1 →
  mem s !! x.1 = Some n → key n = x.2.1 → value n = x.2.2 → next n = Some x.1 →
  ∃ s', relink_tail x.1 s = Ret tt s' ∧ same_frame s s' ∧
    lru_head s' = first_loc ((C ++ [t]) ++ [x]) None ∧
    lru_tail s' = last_loc None ((C ++ [t]) ++ [x]) ∧
    dlseg (mem s') None ((C ++ [t]) ++ [x]) None.
Proof.
  intros Hseg [Hx Hlocs]%NoDup_cons Hh Ht Hn Hk Hv Hnx.
  pose proof (dlseg_last _ _ _ _ _ Hseg) as Htn.
  assert (x.1 ≠ t.1) as Hxt by (rewrite fmap_app in Hx; set_solver).
  destruct s as [mx cur hd tl idx m bk], n as [kn vn nn pn]. norm. subst.
  eexists. split; [unfold relink_tail; run; reflexivity|].
  unfold same_frame. norm. split; [|split; [|split]].
  - split_and!; try done. rewrite !dom_insert_lookup_L; eauto.
    all: rewrite ?lookup_insert_eq, ?lookup_insert_ne by congruence; eauto.
  - by rewrite (first_loc_app _ [x]), !first_loc_app.
  - by rewrite last_loc_snoc.
  - apply dlseg_app. rewrite last_loc_snoc. split; [|split; [look|done]].
    do 2 (apply dlseg_insert_frame; [done|]).
    exact (dlseg_set_next _ _ _ _ _ (Some x.1) _ Hlocs Htn Hseg).
Qed.

(** Moving any node of the list to its fresh end. *)
Lemma move_fresh_run s A x B :
  shape s (A ++ x :: B) →
  ∃ s', move_to_fresh_data x.1 s = Ret tt s' ∧ shape s' (A ++ B ++ [x]) ∧
        max_size s' = max_size s ∧ current_size s' = current_size s.
Proof.
  intros Hs. unfold move_to_fresh_data.
  destruct B as [|t B _] using rev_ind.
  - exists s. split; [|done].
    rewrite bind_gets, (shape_tail _ _ Hs), last_loc_snoc. by run.
  - destruct (unlink_run s A x B t Hs) as (s1 & n & Hrun1 & Hf1 & Hh1 & Ht1 & Hseg1 & Hn1 & Hk & Hv & Hnx).
    pose proof (shape_locs _ _ Hs) as Hlocs.
    assert (A ++ x :: B ++ [t] ≡ₚ x :: (A ++ B) ++ [t]) as HP.
    { rewrite <-app_assoc. symmetry. apply Permutation_middle. }
    rewrite HP in Hlocs. rewrite app_assoc in Hh1, Hseg1.
    destruct (relink_run s1 x n (A ++ B) t) as (s2 & Hrun2 & Hf2 & Hh2 & Ht2 & Hseg2); try done.
    exists s2.
    replace (A ++ (B ++ [t]) ++ [x]) with (((A ++ B) ++ [t]) ++ [x]) by by rewrite <-!app_assoc.
    destruct Hf1 as (? & ? & ? & ? & ?), Hf2 as (? & ? & ? & ? & ?).
    split; [|split; [|split; congruence]].
    + rewrite bind_gets, decide_False; [by rewrite (bind_ret _ _ _ _ _ Hrun1)|].
      rewrite (shape_tail _ _ Hs), app_comm_cons, app_assoc, last_loc_snoc.
      csimpl in Hlocs. rewrite fmap_app in Hlocs.
      apply NoDup_cons in Hlocs as [Hx _]. set_solver.
    + apply (shape_perm s s2 _ _ Hs); try congruence.
      rewrite HP. by rewrite Permutation_app_comm.
Qed.

End move_facts.

(** ** Eviction and insertion *)

Section evict_facts.
Implicit Types (s : SimpleLRU) (L : chain).

Lemma mem_size s L : shape s L → base.size (mem s) = length L.
Proof.
  intros Hs. rewrite <-(size_dom (D := gset loc)), (shape_dom _ _ Hs).
  rewrite size_list_to_set by apply Hs. apply length_fmap.
Qed.

Lemma freed_lookup s L l : shape s L → l ∉ L.*1 → mem s !! l = None.
Proof.
  intros Hs Hl. apply not_elem_of_dom. rewrite (shape_dom _ _ Hs).
  by rewrite elem_of_list_to_set.
Qed.

Lemma index_None s L k : shape s L → lru_index s !! k = None ↔ Abs.find k L.*2 = None.
Proof.
  intros Hs. rewrite find_None, eq_None_not_Some. split; intros H.
  - intros Hin. apply H. apply list_elem_of_fmap in Hin as ([k' v] & -> & Hin).
    apply list_elem_of_fmap in Hin as ([l e] & Heq & Hin). simpl in *. subst e.
    exists l. apply (shape_index _ _ Hs). eauto.
  - intros [l Hl]. apply (shape_index _ _ Hs) in Hl as [v Hin]. apply H.
    apply list_elem_of_fmap. exists (k, v). split; [done|].
    apply list_elem_of_fmap. by exists (l, (k, v)).
Qed.

(** The node the index gives for a key, and its place in the list. *)
Lemma index_Some s L k l :
  shape s L → lru_index s !! k = Some l →
  ∃ A v B, L = A ++ (l, (k, v)) :: B ∧ Abs.find k L.*2 = Some v ∧ k ∉ A.*2.*1.
Proof.
  intros Hs Hl. apply (shape_index _ _ Hs) in Hl as [v Hin].
  apply list_elem_of_split in Hin as (A & B & ->).
  exists A, v, B. pose proof (shape_keys _ _ Hs) as Hk.
  assert (k ∉ A.*2.*1) as HkA.
  { rewrite !fmap_app in Hk. apply NoDup_app in Hk as (_ & Hdis & _).
    intros HA. apply (Hdis _ HA). csimpl. set_solver. }
  split; [done|]. split; [|done].
  apply find_elem; [done|]. rewrite fmap_app. csimpl. set_solver.
Qed.

Lemma evict_cons2 over e1 e2 l cur :
  Abs.evict over (e1 :: e2 :: l) cur =
  if over cur then Abs.evict over (e2 :: l) (Abs.debit (e1 :: e2 :: l) cur)
  else Some (e1 :: e2 :: l, cur).
Proof. done. Qed.

Lemma evict_loop_run fuel over overA s L :
  shape s L → length L < fuel →
  (∀ s', max_size s' = max_size s → over s' = overA (current_size s')) →
  match Abs.evict overA L.*2 (current_size s) with
  | None => evict_loop fuel over s = Undef NullDeref
  | Some (l', cur') =>
    ∃ s' L', evict_loop fuel over s = Ret tt s' ∧ shape s' L' ∧ L'.*2 = l' ∧
      L' `suffix_of` L ∧ max_size s' = max_size s ∧ current_size s' = cur'
  end.
Proof.
  revert fuel s. induction L as [|x L IH]; intros [|fuel] s Hs Hlen Hover; simpl in Hlen; try lia.
  - csimpl. rewrite Hover by done. destruct (overA (current_size s)).
    + rewrite prog_assoc, bind_gets, (shape_head _ _ Hs). done.
    + exists s, []. done.
  - destruct L as [|y L].
    + csimpl. rewrite Hover by done. destruct (overA (current_size s)).
      * rewrite prog_assoc, bind_gets, (shape_head _ _ Hs). cbn [first_loc].
        rewrite bind_deref. by rewrite (bind_undef _ _ _ _ (remove_single_run _ _ Hs)).
      * by exists s, [x].
    + rewrite !fmap_cons, evict_cons2. cbn [evict_loop]. rewrite Hover by done.
      destruct (overA (current_size s)); [|by exists s, (x :: y :: L)].
      rewrite prog_assoc, bind_gets, (shape_head _ _ Hs). cbn [first_loc].
      rewrite bind_deref.
      destruct (remove_head_run s x y L Hs) as (s1 & Hrun & Hs1 & Hmax & Hcur).
      rewrite (bind_ret _ _ _ _ _ Hrun).
      specialize (IH fuel s1 Hs1 ltac:(simpl in *; lia)
                    ltac:(intros s'; rewrite Hmax; apply Hover)).
      rewrite Hcur, !fmap_cons in IH.
      destruct (Abs.evict _ _ _) as [[l' cur']|]; [|done].
      destruct IH as (s2 & L2 & ? & ? & ? & ? & ? & ?).
      exists s2, L2. split_and!; try done; [by apply suffix_cons_r|congruence].
Qed.

End evict_facts.

Section insert_facts.
Implicit Types (s : SimpleLRU) (L : chain).

Lemma fresh_loc s L : shape s L → brk s ∉ L.*1.
Proof.
  intros Hs (x & Heq & Hin)%list_elem_of_fmap.
  pose proof (shape_brk _ _ Hs) as Hb. rewrite Forall_forall in Hb.
  specialize (Hb x Hin). lia.
Qed.

Lemma evict_run over overA s L :
  shape s L → (∀ s', max_size s' = max_size s → over s' = overA (current_size s')) →
  match Abs.evict overA L.*2 (current_size s) with
  | None => evict_while over s = Undef NullDeref
  | Some (l', cur') =>
    ∃ s' L', evict_while over s = Ret tt s' ∧ shape s' L' ∧ L'.*2 = l' ∧
      L' `suffix_of` L ∧ max_size s' = max_size s ∧ current_size s' = cur'
  end.
Proof.
  intros Hs Hover. unfold evict_while. rewrite (mem_size _ _ Hs).
  apply evict_loop_run; [done|lia|done].
Qed.

(** Pure part of the shape after a new node at the tail. *)
Lemma shape_snoc s s' L k v :
  shape s L → k ∉ L.*2.*1 →
  lru_head s' = first_loc (L ++ [(brk s, (k, v))]) None → lru_tail s' = Some (brk s) →
  dlseg (mem s') None (L ++ [(brk s, (k, v))]) None →
  dom (mem s') = {[brk s]} ∪ dom (mem s) →
  lru_index s' = <[k := brk s]> (lru_index s) → brk s' = Pos.succ (brk s) →
  shape s' (L ++ [(brk s, (k, v))]).
Proof.
  intros Hs Hk Hh Ht Hseg Hdom Hidx Hbrk.
  pose proof (fresh_loc _ _ Hs) as Hfresh.
  pose proof Hs as [_ _ _ Hlocs Hkeys Hdom0 Hidx0 Hbrk0].
  split; [done| |done| | | | |].
  - by rewrite last_loc_snoc.
  - rewrite fmap_app. apply NoDup_app. split_and!; [done| |apply NoDup_singleton].
    set_solver.
  - rewrite !fmap_app. apply NoDup_app. split_and!; [done| |apply NoDup_singleton].
    set_solver.
  - rewrite Hdom, Hdom0, fmap_app, list_to_set_app_L. set_solver.
  - intros k' l. rewrite Hidx, lookup_insert. setoid_rewrite elem_of_app.
    setoid_rewrite list_elem_of_singleton. case_decide as E.
    + subst k'. split; [intros [= <-]; eauto|]. intros (v' & [Hin|Heq]); [|congruence].
      destruct Hk. apply list_elem_of_fmap. exists (k, v'). split; [done|].
      apply list_elem_of_fmap. by exists (l, (k, v')).
    + rewrite Hidx0. split; intros (v' & H); exists v'; [by left|].
      destruct H as [H|H]; [done|congruence].
  - rewrite Hbrk. apply Forall_app. split; [|constructor; [simpl; lia|done]].
    eapply Forall_impl; [apply Hbrk0|]. simpl. lia.
Qed.

Lemma push_run s L k v :
  shape s L → k ∉ L.*2.*1 →
  ∃ s', push_node k v s = Ret tt s' ∧ shape s' (L ++ [(brk s, (k, v))]) ∧
    max_size s' = max_size s ∧
    current_size s' = wrap64 (current_size s + wrap64 (bsize k + bsize v)).
Proof.
  intros Hs Hk. pose proof (fresh_loc _ _ Hs) as Hfresh.
  pose proof (freed_lookup _ _ _ Hs Hfresh) as Hnone.
  assert (lru_index s !! k = None) as Hidx by (by apply (index_None s L), find_None).
  pose proof Hs as [Hh Ht Hseg Hlocs _ _ _ _].
  destruct L as [|t L _] using rev_ind.
  - destruct s as [mx cur hd tl idx m bk]. norm. simpl in Hh, Ht.
    unfold last_loc in Ht. simpl in Ht. subst hd tl.
    eexists. split; [|split; [eapply (shape_snoc _ _ [] k v Hs)|]].
    + unfold push_node. run. rewrite Hidx. run. reflexivity.
    + done.
    + done.
    + done.
    + norm. split; [look|done].
    + norm. by rewrite dom_insert_L.
    + done.
    + done.
    + done.
  - rewrite last_loc_snoc in Ht. pose proof (dlseg_last _ _ _ _ _ Hseg) as Htn.
    assert (t.1 ≠ brk s) as Hne by (rewrite fmap_app in Hfresh; set_solver).
    destruct s as [mx cur hd tl idx m bk]. norm. subst hd tl.
    eexists. split; [|split; [eapply (shape_snoc _ _ _ k v Hs)|]].
    + unfold push_node. run. rewrite Hidx. run. reflexivity.
    + done.
    + norm. by rewrite (first_loc_app (L ++ [t]) [_]), !(first_loc_app L).
    + done.
    + norm. apply dlseg_app. rewrite last_loc_snoc. split; [|split; [cbn [fst snd]; look|done]].
      refine (dlseg_set_next _ _ _ _ _ (Some bk) _ Hlocs _ _); [look|].
      do 2 (apply dlseg_insert_frame; [done|]). done.
    + norm. rewrite insert_insert_eq.
      rewrite dom_insert_lookup_L; [by rewrite dom_insert_L|].
      rewrite lookup_insert_ne by done. eauto.
    + done.
    + done.
    + done.
Qed.

(** [_insert_new_value] of an absent key refines the abstract insertion. *)
Lemma insert_refines s c k v :
  rep s c → Abs.find k (Abs.items c) = None →
  refines (insert_new_value k v s) (Abs.insert k v c).
Proof.
  intros (L & Hs & Hitems & Hmax & Hcur) Hk. unfold insert_new_value, Abs.insert.
  pose proof (evict_run
    (λ s, wrap64 (wrap64 (max_size s - bsize k) - bsize v) <? current_size s)%Z
    (λ cur, wrap64 (wrap64 (max_size s - bsize k) - bsize v) <? cur)%Z s L Hs
    ltac:(intros s' E; cbn beta; by rewrite E)) as Hev.
  rewrite <-Hmax, <-Hcur, Hitems. rewrite Hitems in Hk. apply find_None in Hk.
  destruct (Abs.evict _ _ _) as [[l' cur']|].
  - destruct Hev as (s1 & L1 & Hrun & Hs1 & <- & [L0 ->] & Hmax1 & Hcur1).
    rewrite !fmap_app in Hk. rewrite (bind_ret _ _ _ _ _ Hrun).
    destruct (push_run s1 L1 k v Hs1) as (s2 & -> & Hs2 & Hmax2 & Hcur2); [set_solver|].
    split; [done|]. eexists. split; [done|]. cbn. rewrite fmap_app.
    split; [done|]. split; congruence.
  - by rewrite (bind_undef _ _ _ _ Hev).
Qed.

(** Assignment of the value of a node. *)
Lemma store_value_run s A l k v v' B :
  shape s (A ++ (l, (k, v)) :: B) →
  ∃ s', store l (with_value v') s = Ret tt s' ∧ shape s' (A ++ (l, (k, v')) :: B) ∧
    max_size s' = max_size s ∧ current_size s' = current_size s.
Proof.
  intros [Hh Ht Hseg Hlocs Hkeys Hdom Hidx Hbrk].
  rewrite fmap_app in Hlocs. pose proof Hlocs as (HlA & Hdis & [HlB _]%NoDup_cons)%NoDup_app.
  assert (l ∉ A.*1) as HA by (intros H; apply (Hdis _ H); csimpl; set_solver).
  apply dlseg_app in Hseg as [HsA [Hl HsB]]. simpl in *.
  destruct s as [mx cur hd tl idx m bk]. norm.
  eexists. split; [run; reflexivity|]. split; [|done].
  assert (∀ v0, (A ++ (l, (k, v0)) :: B).*1 = A.*1 ++ l :: B.*1) as E1.
  { intros. by rewrite fmap_app. }
  assert (∀ v0, (A ++ (l, (k, v0)) :: B).*2.*1 = A.*2.*1 ++ k :: B.*2.*1) as E2.
  { intros. by rewrite !fmap_app. }
  split; norm; rewrite ?E1, ?E2 in *; try done.
  - rewrite Hh. by rewrite !first_loc_app.
  - rewrite Ht, !last_loc_app. by rewrite !last_loc_cons.
  - apply dlseg_app. split.
    + apply dlseg_insert_frame; [done|]. exact HsA.
    + split; [by rewrite lookup_insert_eq|]. by apply dlseg_insert_frame.
  - rewrite dom_insert_lookup_L by eauto. done.
  - intros k' l'. rewrite Hidx. setoid_rewrite elem_of_app. setoid_rewrite elem_of_cons.
    split; intros (v0 & [H|[H|H]]); simplify_eq; eauto.
  - rewrite Forall_app, Forall_cons in *. done.
Qed.

End insert_facts.

(** ** Refinement of the public operations *)

Section refinement.
Implicit Types (s : SimpleLRU) (c : Abs.cache).

Lemma NoDup_fst_unique {A B} (l : list (A * B)) a b b' :
  NoDup l.*1 → (a, b) ∈ l → (a, b') ∈ l → b = b'.
Proof.
  induction l as [|[a0 b0] l IH]; [set_solver|]. csimpl.
  intros [Ha Hl]%NoDup_cons [H1|H1]%elem_of_cons [H2|H2]%elem_of_cons; simplify_eq; auto.
  - destruct Ha. apply list_elem_of_fmap. by exists (a0, b').
  - destruct Ha. apply list_elem_of_fmap. by exists (a0, b).
Qed.

Lemma shape_set_current_size s L z : shape s L → shape (set_current_size z s) L.
Proof. by intros []. Qed.

(** Move to the fresh end, on representations. *)
Lemma move_rep s c k l :
  rep s c → lru_index s !! k = Some l → ∃ v, Abs.find k (Abs.items c) = Some v ∧
  ∃ n, mem s !! l = Some n ∧ value n = v ∧
  ∃ s', move_to_fresh_data l s = Ret tt s' ∧
  rep s' (Abs.mk_cache (Abs.amax c) (Abs.acur c)
            (Abs.erase k (Abs.items c) ++ [(k, v)])).
Proof.
  intros (L & Hs & -> & Hmax & Hcur) Hl.
  destruct (index_Some _ _ _ _ Hs Hl) as (A & v & B & -> & Hfind & HkA).
  exists v. split; [done|].
  pose proof (shape_seg _ _ Hs) as Hseg. apply dlseg_app in Hseg as [_ [Hn _]].
  eexists. split; [exact Hn|]. split; [done|].
  destruct (move_fresh_run s A (l, (k, v)) B Hs) as (s' & Hrun & Hs' & Hmax' & Hcur').
  exists s'. split; [done|]. exists (A ++ B ++ [(l, (k, v))]). cbn.
  rewrite !fmap_app. csimpl. rewrite erase_middle by done.
  split; [done|]. rewrite <-app_assoc. split; [done|]. split; congruence.
Qed.

Lemma update_refines s c k l old v :
  rep s c → lru_index s !! k = Some l → Abs.find k (Abs.items c) = Some old →
  refines (update_value l v s) (Abs.update k old v c).
Proof.
  intros (L & Hs & Hitems & Hmax & Hcur) Hl Hold.
  destruct (index_Some _ _ _ _ Hs Hl) as (A & v0 & B & HL & Hfind & HkA).
  rewrite <-Hitems, Hold in Hfind. simplify_eq Hfind. intros <-.
  pose proof (shape_seg _ _ Hs) as Hseg. rewrite HL in Hseg.
  apply dlseg_app in Hseg as [_ [Hn _]]. simpl in Hn.
  unfold update_value, Abs.update. rewrite (bind_load _ _ _ _ Hn). cbn [value].
  set (delta := wrap64 (bsize v - bsize old)).
  pose proof (evict_run (λ s, max_size s <? wrap64 (current_size s + delta))%Z
    (λ cur, max_size s <? wrap64 (cur + delta))%Z s L Hs
    ltac:(intros s' E; cbn beta; by rewrite E)) as Hev.
  rewrite <-Hmax, <-Hcur, Hitems.
  destruct (Abs.evict _ _ _) as [[l' cur']|]; [|by rewrite (bind_undef _ _ _ _ Hev)].
  destruct Hev as (s1 & L1 & Hrun & Hs1 & <- & [L0 HL1] & Hmax1 & Hcur1).
  rewrite (bind_ret _ _ _ _ _ Hrun).
  assert (Hin : (l, (k, old)) ∈ L) by (rewrite HL; set_solver).
  destruct (lru_index s1 !! k) as [l1|] eqn:Hl1.
  - destruct (index_Some _ _ _ _ Hs1 Hl1) as (A1 & v1 & B1 & HL1' & Hfind1 & HkA1).
    rewrite Hfind1.
    assert (lru_index s !! k = Some l1) as Heq.
    { apply (shape_index _ _ Hs). exists v1. rewrite HL1, HL1'. set_solver. }
    rewrite Hl in Heq. simplify_eq Heq. intros <-. rewrite HL1' in Hs1.
    destruct (store_value_run _ _ _ _ _ v _ Hs1) as (s2 & Hrun2 & Hs2 & Hmax2 & Hcur2).
    destruct (move_fresh_run _ _ _ _ Hs2) as (s3 & Hrun3 & Hs3 & Hmax3 & Hcur3).
    rewrite (bind_ret _ _ _ _ _ Hrun2), (bind_ret _ _ _ _ _ Hrun3).
    split; [done|]. eexists. split; [apply shape_set_current_size, Hs3|]. cbn.
    rewrite HL1', !fmap_app. csimpl. rewrite erase_middle, <-app_assoc by done.
    split; [done|]. split; congruence.
  - pose proof (proj1 (index_None _ _ _ Hs1) Hl1) as ->.
    apply (index_None _ _ _ Hs1), find_None in Hl1.
    rewrite bind_store_freed; [done|]. apply (freed_lookup _ _ _ Hs1).
    intros ([l2 [k2 v2]] & Heq & Hin2)%list_elem_of_fmap. simpl in Heq. subst l2.
    assert ((k2, v2) = (k, old)) as [= -> ->].
    { apply (NoDup_fst_unique L l); [apply Hs| |done]. rewrite HL1. set_solver. }
    apply Hl1. apply list_elem_of_fmap. exists (k, old). split; [done|].
    apply list_elem_of_fmap. by exists (l, (k, old)).
Qed.

(** The abstract removal, by the position of the key in the list. *)
Lemma abs_remove_cases c l1 k v l2 :
  Abs.items c = l1 ++ (k, v) :: l2 → NoDup (Abs.items c).*1 →
  Abs.remove k c =
    if decide (l1 = [] ↔ l2 = []) then Undef NullDeref
    else Ret tt (Abs.mk_cache (Abs.amax c) (Abs.debit (Abs.items c) (Abs.acur c)) (l1 ++ l2)).
Proof.
  intros Heq Hnd. unfold Abs.remove. rewrite Heq in *.
  rewrite fmap_app, fmap_cons in Hnd.
  apply NoDup_app in Hnd as (_ & Hdis & [Hk2 _]%NoDup_cons). simpl in Hdis, Hk2.
  assert (k ∉ l1.*1) as Hk1 by (intros H; apply (Hdis _ H); set_solver).
  assert (Abs.erase k (l1 ++ (k, v) :: l2) = l1 ++ l2) as -> by by apply erase_middle.
  destruct l1 as [|e1 l1]; [destruct l2 as [|e2 l2]|destruct l2 as [|e2 l2 _] using rev_ind].
  - by rewrite (decide_True (P := _ ↔ _)) by done.
  - rewrite (decide_False (P := _ ↔ _)) by naive_solver. simpl.
    by rewrite decide_True by (by left).
  - rewrite (decide_False (P := _ ↔ _)) by naive_solver.
    rewrite last_snoc. simpl. rewrite decide_True by (by right). by destruct l1.
  - rewrite (decide_True (P := _ ↔ _)) by (by destruct l2).
    rewrite app_comm_cons, app_assoc, last_snoc. simpl.
    rewrite decide_False; [by destruct l1|].
    rewrite fmap_app in Hk2. csimpl in *. set_solver.
Qed.

Lemma remove_refines s c k l :
  rep s c → lru_index s !! k = Some l → refines (remove_node l s) (Abs.remove k c).
Proof.
  intros (L & Hs & Hitems & Hmax & Hcur) Hl.
  destruct (index_Some _ _ _ _ Hs Hl) as (A & v & B & -> & Hfind & HkA).
  rewrite fmap_app in Hitems. csimpl in *.
  rewrite (abs_remove_cases _ _ _ _ _ Hitems); [|rewrite Hitems; pose proof (shape_keys _ _ Hs) as HK; by rewrite fmap_app in HK].
  destruct A as [|a A _] using rev_ind; [destruct B as [|b B]|destruct B as [|b B]].
  - rewrite (decide_True (P := _ ↔ _)) by done. by rewrite (remove_single_run _ _ Hs : remove_node l s = _).
  - rewrite (decide_False (P := _ ↔ _)) by naive_solver.
    destruct (remove_head_run _ _ _ _ Hs) as (s' & Hrun & Hs' & Hmax' & Hcur').
    simpl in Hrun. rewrite Hrun. split; [done|]. exists (b :: B).
    rewrite Hitems. split_and!; [done..|by cbn; congruence|]. simpl. by rewrite Hcur', Hcur.
  - rewrite (decide_False (P := _ ↔ _)) by (destruct A; naive_solver).
    rewrite <-app_assoc in Hs. cbn [app] in Hs.
    destruct (remove_tail_run _ _ _ _ Hs) as (s' & Hrun & Hs' & Hmax' & Hcur').
    simpl in Hrun. rewrite Hrun. split; [done|]. exists (A ++ [a]).
    rewrite Hitems. simpl. rewrite !app_nil_r, Hcur', Hcur.
    split_and!; [done..|by cbn; congruence|]. rewrite !fmap_app, <-app_assoc. done.
  - rewrite (decide_True (P := _ ↔ _)) by (by destruct A).
    by rewrite (remove_middle_run s (A ++ [a]) _ (b :: B) ltac:(by destruct A) ltac:(done) Hs
                  : remove_node l s = _).
Qed.

(** Sequencing with a pure result keeps refinement. *)
Lemma refines_ret {A B} (m : prog SimpleLRU A) (ma : prog Abs.cache A) (b : B) s c :
  refines (m s) (ma c) → refines ((m;; mret b) s) ((ma;; mret b) c).
Proof.
  unfold mbind, prog_bind. destruct (m s), (ma c); simpl; try done. by intros [_ ?].
Qed.

Lemma rep_index s c k : rep s c → lru_index s !! k = None ↔ Abs.find k (Abs.items c) = None.
Proof. intros (L & Hs & -> & _). by apply index_None. Qed.

Lemma rep_too_big s c k v : rep s c → too_big k v s = Abs.too_big k v c.
Proof. intros (L & _ & _ & Hmax & _). unfold too_big, Abs.too_big. by rewrite Hmax. Qed.

(** The case analysis of the public operations: is the key indexed? *)
Lemma rep_lookup s c k :
  rep s c →
  lru_index s !! k = None ∧ Abs.find k (Abs.items c) = None ∨
  ∃ l v, lru_index s !! k = Some l ∧ Abs.find k (Abs.items c) = Some v.
Proof.
  intros Hr. destruct (lru_index s !! k) as [l|] eqn:E.
  - right. destruct (move_rep _ _ _ _ Hr E) as (v & ? & _). eauto.
  - left. split; [done|]. by apply (rep_index s).
Qed.

Lemma Put_refines s c k v : rep s c → refines (Put k v s) (Abs.Put k v c).
Proof.
  intros Hr. unfold Put, Abs.Put. rewrite bind_gets, (rep_too_big _ _ _ _ Hr).
  destruct (Abs.too_big k v c); [done|]. rewrite bind_gets.
  destruct (rep_lookup s c k Hr) as [[-> E]|(l & old & El & E)]; [|rewrite El]; rewrite E.
  - by apply refines_ret, insert_refines.
  - by apply refines_ret, update_refines.
Qed.

Lemma PutIfAbsent_refines s c k v :
  rep s c → refines (PutIfAbsent k v s) (Abs.PutIfAbsent k v c).
Proof.
  intros Hr. unfold PutIfAbsent, Abs.PutIfAbsent. rewrite bind_gets, (rep_too_big _ _ _ _ Hr).
  destruct (Abs.too_big k v c); [done|]. rewrite bind_gets.
  destruct (rep_lookup s c k Hr) as [[-> E]|(l & old & El & E)]; [|rewrite El]; rewrite E.
  - by apply refines_ret, insert_refines.
  - done.
Qed.

Lemma Set_refines s c k v : rep s c → refines (Set_ k v s) (Abs.Set_ k v c).
Proof.
  intros Hr. unfold Set_, Abs.Set_. rewrite bind_gets, (rep_too_big _ _ _ _ Hr).
  destruct (Abs.too_big k v c); [done|]. rewrite bind_gets.
  destruct (rep_lookup s c k Hr) as [[-> E]|(l & old & El & E)]; [|rewrite El]; rewrite E.
  - done.
  - by apply refines_ret, update_refines.
Qed.

Lemma Delete_refines s c k : rep s c → refines (Delete k s) (Abs.Delete k c).
Proof.
  intros Hr. unfold Delete, Abs.Delete. rewrite bind_gets.
  destruct (rep_lookup s c k Hr) as [[-> E]|(l & old & El & E)]; [|rewrite El]; rewrite E.
  - done.
  - by apply refines_ret, remove_refines.
Qed.

Lemma Get_refines s c k : rep s c → refines (Get k s) (Abs.Get k c).
Proof.
  intros Hr. unfold Get, Abs.Get. rewrite bind_gets.
  destruct (rep_lookup s c k Hr) as [[-> E]|(l & old & El & E)]; [by rewrite E|rewrite El].
  destruct (move_rep _ _ _ _ Hr El) as (v & -> & n & Hn & <- & s' & Hrun & Hr').
  rewrite (bind_load _ _ _ _ Hn), (bind_ret _ _ _ _ _ Hrun). done.
Qed.

Lemma new_rep max : rep (SimpleLRU_new max) (Abs.mk_cache max 0 []).
Proof.
  exists []. split; [|done]. split; try done; try by constructor.
  intros k l. cbn. rewrite lookup_empty. split; [done|]. intros (v & H). set_solver.
Qed.

End refinement.

(** ** Destruction *)

Section destructor_facts.
Implicit Types (s : SimpleLRU) (L : chain).

(** The loop of the destructor leaves the last node. *)
Lemma destructor_loop_run fuel s p x L :
  lru_head s = Some x.1 → dlseg (mem s) p (x :: L) None →
  NoDup (x :: L).*1 → dom (mem s) = list_to_set (x :: L).*1 → length L ≤ fuel →
  ∃ s' l n, destructor_loop fuel s = Ret tt s' ∧ lru_head s' = Some l ∧
    lru_index s' = lru_index s ∧ mem s' = {[l := n]} ∧ next n = None.
Proof.
  revert s p x fuel. induction L as [|y L IH]; intros s p x fuel Hh [Hx Hseg] Hnd Hdom Hlen.
  - eexists s, x.1, _. split; [|split; [done|split; [done|split]]].
    + destruct fuel; cbn [destructor_loop];
        rewrite prog_assoc, bind_gets, Hh, bind_deref, (bind_load _ _ _ _ Hx); done.
    + apply map_eq. intros l. rewrite lookup_singleton. case_decide as E; [by subst|].
      apply not_elem_of_dom. rewrite Hdom. csimpl. set_solver.
    + done.
  - destruct fuel as [|fuel]; [simpl in Hlen; lia|].
    csimpl in *. apply NoDup_cons in Hnd as [Hxl Hnd].
    destruct s as [mx cur hd tl idx m bk]. norm. subst hd.
    destruct (IH (mk_lru mx cur (Some y.1) tl idx
                (delete x.1 (<[x.1 := mk_node x.2.1 x.2.2 None p]> m)) bk)
              (Some x.1) y fuel) as (s' & l & n & Hrun & ? & ? & ? & ?).
    + done.
    + norm. rewrite delete_insert_eq. exact (dlseg_delete_frame _ _ _ (y :: L) _ Hxl Hseg).
    + done.
    + norm. rewrite delete_insert_eq, dom_delete_L, Hdom. csimpl. set_solver.
    + lia.
    + exists s', l, n. split; [|done]. rewrite <-Hrun.
      cbn [destructor_loop]. norm. run. reflexivity.
Qed.

Lemma destroy_run s c :
  rep s c → ∃ s', SimpleLRU_destroy s = Ret tt s' ∧ mem s' = ∅ ∧ lru_index s' = ∅.
Proof.
  intros (L & Hs & _). unfold SimpleLRU_destroy.
  rewrite bind_gets, (shape_head _ _ Hs). destruct L as [|x L].
  - exists s. split; [done|]. split.
    + apply dom_empty_inv_L. by rewrite (shape_dom _ _ Hs).
    + apply map_eq. intros k. rewrite lookup_empty. by apply (index_None _ _ _ Hs).
  - cbn [first_loc]. rewrite bind_modify.
    destruct (destructor_loop_run (base.size (mem s)) (set_index ∅ s) None x L)
      as (s' & l & n & Hrun & Hh & Hi & Hm & Hn).
    + exact (shape_head _ _ Hs).
    + apply Hs.
    + apply Hs.
    + apply Hs.
    + rewrite (mem_size _ _ Hs). simpl. lia.
    + erewrite bind_ret by exact Hrun.
      rewrite bind_gets, bind_modify, Hh.
      rewrite (drop_last l n) by (cbn; rewrite ?Hm, ?lookup_singleton_eq; done).
      eexists. split; [done|]. cbn. rewrite Hm, Hi. split; [|done].
      apply delete_singleton_eq.
Qed.

End destructor_facts.
