(* ===== verification/LruStorage.v ===== *)
(** * [SimpleLRU] as a storage

    The cache of SimpleLRU.v as an implementation of the interface of Storage.v,
    and what its operations achieve: the interface's contract, the least
    recently used policy, equivalence with an unbounded map while everything
    fits, and the exact conditions under which [Delete] is defined. *)

From S2P Require Import Prelude SimpleLRU Storage.

(** ** Instances *)

(** The virtual functions that the class overrides. *)
#[export] Instance lru_storage : Storage SimpleLRU := {
  Put := SimpleLRU.Put;
  PutIfAbsent := SimpleLRU.PutIfAbsent;
  Set_ := SimpleLRU.Set_;
  Delete := SimpleLRU.Delete;
  Get := SimpleLRU.Get;
}.

#[export] Instance abs_storage : Storage Abs.cache := {
  Put := Abs.Put;
  PutIfAbsent := Abs.PutIfAbsent;
  Set_ := Abs.Set_;
  Delete := Abs.Delete;
  Get := Abs.Get;
}.

(** ** Observations of the pointer structure *)

(** The associations that the index reaches. *)
Definition lru_view (s : SimpleLRU) : gmap bytes bytes :=
  omap (λ l, value <$> mem s !! l) (lru_index s).

(** The associations met from [p] along the [next] links. *)
Fixpoint walk (fuel : nat) (m : gmap loc lru_node) (p : option loc) : list (bytes * bytes) :=
  match fuel, p with
  | S fuel, Some l =>
    match m !! l with
    | Some n => (key n, value n) :: walk fuel m (next n)
    | None => []
    end
  | _, _ => []
  end.

(** The list of the cache, least recently used first. *)
Definition contents (s : SimpleLRU) : list (bytes * bytes) :=
  walk (base.size (mem s)) (mem s) (lru_head s).

(** Bytes of keys and values in a list of associations. *)
Definition total (l : list (bytes * bytes)) : Z := foldr (λ e z, Abs.esize e + z)%Z 0%Z l.

(** ** The least recently used policy *)

(** Make an association the most recently used one. *)
Definition touch (k v : bytes) (l : list (bytes * bytes)) : list (bytes * bytes) :=
  Abs.erase k l ++ [(k, v)].

(** Keep the [n] most recently used associations. *)
Definition keep (n : nat) (l : list (bytes * bytes)) : list (bytes * bytes) :=
  skipn (length l - n) l.

(** An association can be deleted only if it is the oldest or the newest one, and
    not the only one. *)
Definition deletable (k : bytes) (l : list (bytes * bytes)) : Prop :=
  2 ≤ length l ∧ (Some k = fst <$> head l ∨ Some k = fst <$> last l).

(** A call on a cache of at most [n] associations: what it returns, and the
    associations behind it; nothing for a deletion that dereferences null. *)
Definition policy (n : nat) (o : op) (l : list (bytes * bytes)) :
    option (resp * list (bytes * bytes)) :=
  match o with
  | OpPut k v => Some (RBool true, keep n (touch k v l))
  | OpPutIfAbsent k v =>
    match Abs.find k l with
    | Some _ => Some (RBool false, l)
    | None => Some (RBool true, keep n (touch k v l))
    end
  | OpSet k v =>
    match Abs.find k l with
    | Some _ => Some (RBool true, touch k v l)
    | None => Some (RBool false, l)
    end
  | OpDelete k =>
    match Abs.find k l with
    | Some _ => if decide (deletable k l) then Some (RBool true, Abs.erase k l) else None
    | None => Some (RBool false, l)
    end
  | OpGet k =>
    match Abs.find k l with
    | Some v => Some (RValue (Some v), touch k v l)
    | None => Some (RValue None, l)
    end
  end.

Fixpoint policy_all (n : nat) (os : list op) (l : list (bytes * bytes)) :
    option (list resp * list (bytes * bytes)) :=
  match os with
  | [] => Some ([], l)
  | o :: os =>
    '(r, l') ← policy n o l;
    '(rs, l'') ← policy_all n os l'; Some (r :: rs, l'')
  end.

(** Calls that store only associations of [e] bytes. *)
Definition uniform (e : Z) (o : op) : Prop :=
  match o with
  | OpPut k v | OpPutIfAbsent k v | OpSet k v => Abs.esize (k, v) = e
  | OpDelete _ | OpGet _ => True
  end.

(** Bytes a call can add to the cache; [None] for a deletion. *)
Definition op_bytes (o : op) : option Z :=
  match o with
  | OpPut k v | OpPutIfAbsent k v | OpSet k v => Some (Abs.esize (k, v))
  | OpDelete _ => None
  | OpGet _ => Some 0%Z
  end.

Fixpoint ops_bytes (os : list op) : option Z :=
  match os with
  | [] => Some 0%Z
  | o :: os => z ← op_bytes o; z' ← ops_bytes os; Some (z + z')%Z
  end.

(** The abstract cache whose account is exact. *)
Definition exact (max : Z) (l : list (bytes * bytes)) : Abs.cache := Abs.mk_cache max (total l) l.

(** The states that calls of the interface lead to from a new cache. *)
Definition reachable (max : Z) (s : SimpleLRU) : Prop :=
  ∃ os rs, exec_all os (SimpleLRU_new max) = Ret rs s.

(** How many associations of [e] bytes fit, and the lists of at most that many. *)
Definition slots (e max : Z) : nat := Z.to_nat (max / e).
Definition sized (e max : Z) (l : list (bytes * bytes)) : Prop :=
  Forall (λ x, Abs.esize x = e) l ∧ length l ≤ slots e max.

(** ** Refinement of the calls *)

Section lru_facts.
Implicit Types (s : SimpleLRU) (c : Abs.cache) (l : list (bytes * bytes)).

Lemma refines_fmap {A B} (f : A → B) (m : prog SimpleLRU A) (ma : prog Abs.cache A) s c :
  refines (m s) (ma c) → refines ((f <$> m) s) ((f <$> ma) c).
Proof.
  rewrite !fmap_prog. destruct (m s), (ma c); simpl; try done. by intros [-> ?].
Qed.

Lemma exec_refines s c o : rep s c → refines (exec o s) (exec o c).
Proof.
  intros Hr. destruct o; apply refines_fmap.
  - by apply Put_refines.
  - by apply PutIfAbsent_refines.
  - by apply Set_refines.
  - by apply Delete_refines.
  - by apply Get_refines.
Qed.

Lemma exec_all_refines os s c : rep s c → refines (exec_all os s) (exec_all os c).
Proof.
  revert s c. induction os as [|o os IH]; intros s c Hr; simpl; [done|].
  pose proof (exec_refines s c o Hr) as H. unfold mbind, prog_bind.
  destruct (exec o s) as [r s1| | |], (exec o c) as [r' c1| | |]; simpl in H; try done.
  destruct H as [<- Hr1]. specialize (IH s1 c1 Hr1).
  destruct (exec_all os s1), (exec_all os c1); simpl in *; try done. by destruct IH as [<- ?].
Qed.

(** A call that returns is matched by the abstract cache. *)
Lemma exec_rep s c o r s' :
  rep s c → exec o s = Ret r s' → ∃ c', exec o c = Ret r c' ∧ rep s' c'.
Proof.
  intros Hr E. pose proof (exec_refines s c o Hr) as H. rewrite E in H.
  destruct (exec o c) as [r' c'| | |]; simpl in H; try done. destruct H as [<- H]. eauto.
Qed.

Lemma exec_all_rep s c os rs s' :
  rep s c → exec_all os s = Ret rs s' → ∃ c', exec_all os c = Ret rs c' ∧ rep s' c'.
Proof.
  intros Hr E. pose proof (exec_all_refines os s c Hr) as H. rewrite E in H.
  destruct (exec_all os c) as [r' c'| | |]; simpl in H; try done. destruct H as [<- H]. eauto.
Qed.

(** Conversely, what the abstract cache returns the program returns. *)
Lemma exec_all_abs s c os rs c' :
  rep s c → exec_all os c = Ret rs c' → ∃ s', exec_all os s = Ret rs s' ∧ rep s' c'.
Proof.
  intros Hr E. pose proof (exec_all_refines os s c Hr) as H. rewrite E in H.
  destruct (exec_all os s) as [r' s'| | |]; simpl in H; try done. destruct H as [<- H]. eauto.
Qed.

(** *** Observations *)

Lemma rep_max s c : rep s c → max_size s = Abs.amax c.
Proof. by intros (L & _ & _ & ? & _). Qed.

Lemma rep_refuses s c : rep s c → (λ k v, too_big k v s) = (λ k v, Abs.too_big k v c).
Proof. intros Hr. unfold too_big, Abs.too_big. by rewrite (rep_max _ _ Hr). Qed.

Lemma rep_nodup s c : rep s c → NoDup (Abs.items c).*1.
Proof. intros (L & Hs & -> & _). apply Hs. Qed.

Lemma find_map k l : list_to_map (M := gmap bytes bytes) l !! k = Abs.find k l.
Proof.
  induction l as [|[k' v] l IH]; simpl; [done|].
  case_decide as E; simpl in E; subst.
  - apply lookup_insert_eq.
  - by rewrite lookup_insert_ne.
Qed.

Lemma rep_view s c : rep s c → lru_view s = list_to_map (Abs.items c).
Proof.
  intros Hr. apply map_eq. intros k. unfold lru_view. rewrite lookup_omap, find_map.
  destruct (lru_index s !! k) as [l|] eqn:E; simpl.
  - destruct (move_rep _ _ _ _ Hr E) as (v & -> & n & -> & <- & _). done.
  - symmetry. by apply (rep_index s).
Qed.

Lemma walk_dlseg fuel m p L :
  dlseg m p L None → length L ≤ fuel → walk fuel m (first_loc L None) = L.*2.
Proof.
  revert p fuel. induction L as [|[l [k v]] L IH]; intros p fuel; simpl; [by destruct fuel|].
  intros [Hl HL] Hf. destruct fuel as [|fuel]; [lia|]. simpl. rewrite Hl. simpl.
  f_equal. eapply IH; [done|lia].
Qed.

Lemma rep_contents s c : rep s c → contents s = Abs.items c.
Proof.
  intros (L & Hs & -> & _). unfold contents. rewrite (shape_head _ _ Hs).
  apply walk_dlseg with None; [apply Hs|]. by rewrite (mem_size _ _ Hs).
Qed.

End lru_facts.

(** ** The contract on the abstract cache *)

Section abs_contract.
Implicit Types (c : Abs.cache) (l : list (bytes * bytes)).

Abbreviation amap := (list_to_map (M := gmap bytes bytes)).

(** Eviction keeps a suffix. *)
Lemma evict_suffix over l cur l' cur' :
  Abs.evict over l cur = Some (l', cur') → ∃ l0, l = l0 ++ l'.
Proof.
  revert cur. induction l as [|e [|e' r] IH]; intros cur; [by simpl; case_match; intros; simplify_eq; exists []..|].
  rewrite evict_cons2. case_match; [|intros; simplify_eq; by exists []].
  intros H'. destruct (IH _ H') as [l0 Hl]. exists (e :: l0). by rewrite Hl.
Qed.

Lemma suffix_keys l0 l k : k ∉ (l0 ++ l).*1 → k ∉ l.*1.
Proof. rewrite fmap_app. set_solver. Qed.

Lemma suffix_nodup l0 l : NoDup (l0 ++ l).*1 → NoDup l.*1.
Proof. rewrite fmap_app. by intros (_ & _ & ?)%NoDup_app. Qed.

Lemma find_snoc_eq k v l : k ∉ l.*1 → Abs.find k (l ++ [(k, v)]) = Some v.
Proof. intros Hk. rewrite find_app. apply find_None in Hk. rewrite Hk. simpl. by rewrite decide_True. Qed.

Lemma find_snoc_ne k k' v l : k' ≠ k → Abs.find k' (l ++ [(k, v)]) = Abs.find k' l.
Proof.
  intros Hne. rewrite find_app. simpl. rewrite decide_False by done. by destruct (Abs.find k' l).
Qed.

Lemma erase_keys k l : NoDup l.*1 → k ∉ (Abs.erase k l).*1.
Proof. intros H. by apply find_None, find_erase_eq. Qed.

Lemma find_suffix k l0 l v :
  NoDup (l0 ++ l).*1 → Abs.find k l = Some v → Abs.find k (l0 ++ l) = Some v.
Proof.
  intros Hnd Hf. apply find_Some in Hf. apply find_elem; [done|]. set_solver.
Qed.

(** A new association at the end of what eviction left. *)
Lemma stored_suffix k v l0 l l1 :
  NoDup (l0 ++ l).*1 → k ∉ l1.*1 → (∀ k', k' ≠ k → Abs.find k' l1 = Abs.find k' l) →
  stored k v (amap (l0 ++ l)) (amap (l1 ++ [(k, v)])).
Proof.
  intros Hnd Hk1 Hl1. apply stored_lookup. setoid_rewrite find_map.
  split; [by apply find_snoc_eq|]. intros k' Hne.
  rewrite find_snoc_ne, Hl1 by done.
  destruct (Abs.find k' l) as [v'|] eqn:E; [right|by left].
  symmetry. by apply find_suffix.
Qed.

Lemma insert_stored k v c c' :
  NoDup (Abs.items c).*1 → Abs.find k (Abs.items c) = None →
  Abs.insert k v c = Ret tt c' → stored k v (amap (Abs.items c)) (amap (Abs.items c')).
Proof.
  intros Hnd Hk. unfold Abs.insert.
  destruct (Abs.evict _ _ _) as [[l cur]|] eqn:E; [|done]. intros; simplify_eq. cbn.
  apply evict_suffix in E as [l0 E]. rewrite E in *. apply find_None in Hk.
  apply stored_suffix; [done| |done]. by apply suffix_keys in Hk.
Qed.

Lemma update_stored k old v c c' :
  NoDup (Abs.items c).*1 →
  Abs.update k old v c = Ret tt c' → stored k v (amap (Abs.items c)) (amap (Abs.items c')).
Proof.
  intros Hnd. unfold Abs.update.
  destruct (Abs.evict _ _ _) as [[l cur]|] eqn:E; [|done].
  destruct (Abs.find k l) as [v0|] eqn:E'; [|done]. intros; simplify_eq. cbn.
  apply evict_suffix in E as [l0 E]. rewrite E in *. pose proof (suffix_nodup _ _ Hnd).
  apply stored_suffix; [done|by apply erase_keys|].
  intros k' Hne. by apply find_erase_ne.
Qed.

Lemma remove_inv k c c' :
  Abs.remove k c = Ret tt c' → Abs.items c' = Abs.erase k (Abs.items c).
Proof.
  unfold Abs.remove. destruct (Abs.items c) as [|e [|e' l]] eqn:E; [done..|].
  case_decide; [|done]. by intros [= <-].
Qed.

Lemma erase_deleted k l :
  NoDup l.*1 → amap (Abs.erase k l) = delete k (amap l).
Proof.
  intros Hnd. apply map_eq. intros k'. rewrite find_map.
  destruct (decide (k = k')) as [<-|Hne].
  - rewrite lookup_delete_eq. by apply find_erase_eq.
  - rewrite lookup_delete_ne, find_map by done. apply find_erase_ne. congruence.
Qed.

Lemma remove_deleted k c c' :
  NoDup (Abs.items c).*1 →
  Abs.remove k c = Ret tt c' → amap (Abs.items c') = delete k (amap (Abs.items c)).
Proof. intros Hnd ->%remove_inv. by apply erase_deleted. Qed.

Lemma get_same k v l :
  NoDup l.*1 → Abs.find k l = Some v → amap (touch k v l) = amap l.
Proof.
  intros Hnd Hk. apply map_eq. intros k'. rewrite !find_map. unfold touch.
  destruct (decide (k = k')) as [<-|Hne].
  - rewrite find_snoc_eq by by apply erase_keys. done.
  - rewrite find_snoc_ne by done. apply find_erase_ne. congruence.
Qed.

(** Sequencing with a pure result. *)
Lemma then_mret_inv {A B} (m : prog A unit) (b r : B) a a' :
  (m;; mret b) a = Ret r a' → m a = Ret tt a' ∧ r = b.
Proof. intros H. bind_inv H. destruct a0. by injection H as -> ->. Qed.

Lemma insert_amax k v c r c' : Abs.insert k v c = Ret r c' → Abs.amax c' = Abs.amax c.
Proof. unfold Abs.insert. repeat case_match; intros; by simplify_eq. Qed.

Lemma update_amax k old v c r c' : Abs.update k old v c = Ret r c' → Abs.amax c' = Abs.amax c.
Proof. unfold Abs.update. repeat case_match; intros; by simplify_eq. Qed.

Lemma remove_amax k c r c' : Abs.remove k c = Ret r c' → Abs.amax c' = Abs.amax c.
Proof. unfold Abs.remove. repeat case_match; intros; by simplify_eq. Qed.

(** No call changes the bound. *)
Lemma exec_amax o c r c' : exec o c = Ret r c' → Abs.amax c' = Abs.amax c.
Proof.
  destruct o as [k v|k v|k v|k|k]; cbn [exec]; rewrite fmap_prog; cbn [Put PutIfAbsent Set_ Delete Get abs_storage];
    unfold Abs.Put, Abs.PutIfAbsent, Abs.Set_, Abs.Delete, Abs.Get;
    try (destruct (Abs.too_big k v c); [intros; by simplify_eq|]);
    destruct (Abs.find k (Abs.items c)) as [old|];
    try match goal with
    | |- context [match ?m ?c with Ret _ _ => _ | _ => _ end] =>
      destruct (m c) as [b c1| | |] eqn:E1; [|done..]; try apply then_mret_inv in E1 as [E1 ->]
    end; intros; simplify_eq; eauto using insert_amax, update_amax, remove_amax.
Qed.

Lemma abs_exec_contract c o r c' :
  NoDup (Abs.items c).*1 → exec o c = Ret r c' →
  Abs.amax c' = Abs.amax c ∧
  contract (λ k v, Abs.too_big k v c) (amap (Abs.items c)) o r (amap (Abs.items c')).
Proof.
  intros Hnd E'. split; [by eapply exec_amax|]. revert E'. destruct o as [k v|k v|k v|k|k]; cbn [exec]; rewrite fmap_prog; cbn [Put PutIfAbsent Set_ Delete Get abs_storage];
    unfold Abs.Put, Abs.PutIfAbsent, Abs.Set_, Abs.Delete, Abs.Get;
    try (destruct (Abs.too_big k v c) eqn:Eb; [intros; simplify_eq; cbn [contract]; by rewrite ?Eb; auto|]);
    destruct (Abs.find k (Abs.items c)) as [old|] eqn:E;
    try match goal with
    | |- context [match ?m ?c with Ret _ _ => _ | _ => _ end] =>
      destruct (m c) as [b c1| | |] eqn:E1; [|done..]; try apply then_mret_inv in E1 as [E1 ->]
    end; intros; simplify_eq; cbn [contract]; rewrite ?find_map, ?E, ?Eb;
    split_and!; eauto using insert_stored, update_stored, remove_deleted.
  by apply get_same.
Qed.

Lemma abs_no_throw c o e c' : exec o c ≠ Throw e c'.
Proof.
  assert (∀ (m : prog Abs.cache unit), (∀ c', m c ≠ Throw e c') →
          ∀ c', (m;; mret true) c ≠ Throw e c') as Hseq.
  { intros m Hm c''. unfold mbind, prog_bind. destruct (m c) eqn:E; try done. congruence. }
  assert (∀ k v c', Abs.insert k v c ≠ Throw e c') as Hi.
  { intros. unfold Abs.insert. by repeat case_match. }
  assert (∀ k v v' c', Abs.update k v v' c ≠ Throw e c') as Hu.
  { intros. unfold Abs.update. by repeat case_match. }
  assert (∀ k c', Abs.remove k c ≠ Throw e c') as Hr.
  { intros. unfold Abs.remove. by repeat case_match. }
  destruct o as [k v|k v|k v|k|k]; cbn [exec]; rewrite fmap_prog; cbn [Put PutIfAbsent Set_ Delete Get abs_storage];
    unfold Abs.Put, Abs.PutIfAbsent, Abs.Set_, Abs.Delete, Abs.Get;
    try (destruct (Abs.too_big k v c); [done|]);
    destruct (Abs.find k (Abs.items c)); try done;
    match goal with
    | |- context [match ?p with Ret _ _ => _ | _ => _ end] => destruct p eqn:E; try done
    end; intros [= -> ->]; (eapply Hseq; [|exact E]); auto.
Qed.

End abs_contract.

(** ** The laws of the interface *)

#[export, refine] Instance lru_storage_laws : StorageLaws SimpleLRU := {
  wf s := ∃ c, rep s c;
  view := lru_view;
  refuses := λ s k v, SimpleLRU.too_big k v s;
}.
Proof.
  - intros s o r s' [c Hr] E. destruct (exec_rep _ _ _ _ _ Hr E) as (c' & E' & Hr').
    split; [by exists c'|]. rewrite (rep_view _ _ Hr), (rep_view _ _ Hr').
    destruct (abs_exec_contract _ _ _ _ (rep_nodup _ _ Hr) E') as [Hmax Hc]. split.
    + unfold SimpleLRU.too_big. by rewrite (rep_max _ _ Hr), (rep_max _ _ Hr'), Hmax.
    + by rewrite (rep_refuses _ _ Hr).
  - intros s o e s' [c Hr] E. pose proof (exec_refines s c o Hr) as H. by rewrite E in H.
Defined.

(** ** Size account and eviction without deletions *)

Section policy_facts.
Implicit Types (c : Abs.cache) (l : list (bytes * bytes)).

Lemma esize_nonneg e : (0 ≤ Abs.esize e)%Z.
Proof. unfold Abs.esize. pose proof (bsize_nonneg e.1). pose proof (bsize_nonneg e.2). lia. Qed.

Lemma total_nonneg l : (0 ≤ total l)%Z.
Proof. induction l as [|e l IH]; simpl; [lia|]. pose proof (esize_nonneg e). lia. Qed.

Lemma total_app l1 l2 : total (l1 ++ l2) = (total l1 + total l2)%Z.
Proof. induction l1 as [|e l1 IH]; simpl; lia. Qed.

Lemma total_erase k v l : Abs.find k l = Some v → total (Abs.erase k l) = (total l - Abs.esize (k, v))%Z.
Proof.
  intros (l1 & l2 & -> & Hk)%find_split. rewrite erase_middle, !total_app by done. simpl. lia.
Qed.

Lemma total_erase_le k l : (total (Abs.erase k l) ≤ total l)%Z.
Proof.
  destruct (Abs.find k l) as [v|] eqn:E.
  - rewrite (total_erase _ _ _ E). pose proof (esize_nonneg (k, v)). lia.
  - apply find_None in E. rewrite erase_None by done. lia.
Qed.

Lemma find_total k v l : Abs.find k l = Some v → (Abs.esize (k, v) ≤ total l)%Z.
Proof.
  intros H. pose proof (total_erase _ _ _ H). pose proof (total_nonneg (Abs.erase k l)). lia.
Qed.

Lemma total_touch k v l :
  total (touch k v l) = (total (Abs.erase k l) + Abs.esize (k, v))%Z.
Proof. unfold touch. rewrite total_app. simpl. lia. Qed.

(** No eviction when nothing is over. *)
Lemma evict_none over l cur : over cur = false → Abs.evict over l cur = Some (l, cur).
Proof. intros H. destruct l; simpl; by rewrite H. Qed.

(** A call that fits needs no eviction. *)
Lemma insert_fits max k v l :
  (total l + Abs.esize (k, v) ≤ max < 2 ^ 64)%Z → Abs.find k l = None →
  Abs.insert k v (exact max l) = Ret tt (exact max (touch k v l)).
Proof.
  intros Hfit Hk. unfold Abs.insert, exact. cbn. unfold Abs.esize in Hfit; cbn in Hfit.
  pose proof (total_nonneg l). pose proof (bsize_nonneg k). pose proof (bsize_nonneg v).
  rewrite evict_none.
  - apply find_None in Hk. rewrite !wrap_small by (rewrite ?wrap_small; lia).
    unfold touch. rewrite erase_None, total_app by done. simpl. unfold Abs.esize. cbn.
    do 2 f_equal. lia.
  - rewrite !wrap_small by (rewrite ?wrap_small; lia). apply Z.ltb_ge. lia.
Qed.

Lemma update_fits max k old v l :
  (total l + Abs.esize (k, v) - Abs.esize (k, old) ≤ max < 2 ^ 64)%Z →
  Abs.find k l = Some old →
  Abs.update k old v (exact max l) = Ret tt (exact max (touch k v l)).
Proof.
  intros Hfit Hk. pose proof (find_total _ _ _ Hk) as Hle.
  pose proof (total_touch k v l) as Ht. rewrite (total_erase _ _ _ Hk) in Ht.
  unfold Abs.update, exact. cbn. unfold Abs.esize in *; cbn in *.
  pose proof (bsize_nonneg k). pose proof (bsize_nonneg v). pose proof (bsize_nonneg old).
  rewrite evict_none by (rewrite wrap_add_r, wrap_small by lia; apply Z.ltb_ge; lia).
  rewrite Hk, wrap_add_r, wrap_small by lia. unfold touch in *. do 2 f_equal. lia.
Qed.

(** Equality of the keys of a list and of the list with an association moved. *)
Lemma touch_nodup k v l : NoDup l.*1 → NoDup (touch k v l).*1.
Proof.
  intros Hnd. unfold touch. rewrite fmap_app. apply NoDup_app. split; [|split].
  - destruct (Abs.find k l) as [v'|] eqn:E.
    + apply find_split in E as (l1 & l2 & -> & Hk). rewrite erase_middle by done.
      rewrite fmap_app, fmap_cons in Hnd. rewrite fmap_app.
      apply NoDup_app in Hnd as (H1 & H2 & [_ H3]%NoDup_cons).
      apply NoDup_app. split_and!; [done| |done]. intros x Hx ?. apply (H2 x Hx). set_solver.
    + apply find_None in E. by rewrite erase_None.
  - intros x Hx. pose proof (erase_keys k l Hnd). set_solver.
  - apply NoDup_singleton.
Qed.

End policy_facts.

(** ** The policy on associations of one size *)

Section uniform_facts.
Context (e max : Z) (Hpos : (0 < e)%Z) (Htwo : (2 * e ≤ max < 2 ^ 64)%Z).
Implicit Types (l : list (bytes * bytes)).

Abbreviation n := (slots e max).

Abbreviation sized := (sized e max).

Lemma uniform_total l : Forall (λ x, Abs.esize x = e) l → total l = (e * Z.of_nat (length l))%Z.
Proof. induction 1; simpl; lia. Qed.

Lemma n_bounds : (e * Z.of_nat n ≤ max < e * Z.of_nat n + e)%Z ∧ 2 ≤ n.
Proof.
  unfold slots. rewrite Z2Nat.id by (apply Z.div_pos; lia).
  pose proof (Z.div_mod max e). pose proof (Z.mod_pos_bound max e).
  assert (2 ≤ max / e)%Z by (apply Z.div_le_lower_bound; lia). lia.
Qed.

Lemma sized_total l : sized l → (total l ≤ max)%Z.
Proof.
  intros [Hl Hn]. rewrite uniform_total by done. pose proof n_bounds as [H _]. nia.
Qed.

Lemma erase_Forall (P : bytes * bytes → Prop) k l : Forall P l → Forall P (Abs.erase k l).
Proof. induction 1; simpl; [done|]. case_decide; [done|]. by constructor. Qed.

Lemma erase_length k v l : Abs.find k l = Some v → length l = S (length (Abs.erase k l)).
Proof.
  intros (l1 & l2 & -> & Hk)%find_split. rewrite erase_middle, !length_app by done. simpl. lia.
Qed.

Lemma touch_sized k v old l :
  Abs.esize (k, v) = e → Abs.find k l = Some old → sized l → sized (touch k v l).
Proof.
  intros Hkv Hk [Hl Hn]. pose proof (erase_length _ _ _ Hk).
  split; unfold touch; [|rewrite length_app; simpl; lia].
  apply Forall_app. split; [by apply erase_Forall|]. by constructor.
Qed.

Lemma keep_all m l : length l ≤ m → keep m l = l.
Proof. intros. unfold keep. by replace (length l - m) with 0 by lia. Qed.

(** Storing a new association in a full cache evicts exactly the oldest one. *)
Lemma insert_full k v l :
  Abs.esize (k, v) = e → Abs.find k l = None → Forall (λ x, Abs.esize x = e) l →
  length l = n →
  Abs.insert k v (exact max l) = Ret tt (exact max (keep n (touch k v l))).
Proof.
  intros Hkv Hk Hl Hn. pose proof n_bounds as [Hb Htw].
  unfold touch. apply find_None in Hk as Hk'. rewrite erase_None by done.
  unfold keep. rewrite length_app, Hn. simpl. replace (n + 1 - n) with 1 by lia.
  destruct l as [|x [|y r]]; [simpl in Hn; lia..|].
  pose proof (uniform_total _ Hl) as Ht. pose proof (bsize_nonneg k). pose proof (bsize_nonneg v).
  unfold Abs.esize in Hkv; cbn in Hkv.
  assert (Abs.debit (x :: y :: r) (total (x :: y :: r)) = total (y :: r)) as Hd.
  { pose proof (proj1 (Forall_cons _ _ _) Hl) as [Hx _].
    destruct (last_is_Some (x :: y :: r)) as [_ [z Hz]]; [done|]. unfold Abs.debit. rewrite Hz.
    pose proof (proj1 (Forall_forall _ _) Hl z) as Hze. rewrite Hze by (by apply last_Some_elem_of).
    rewrite (wrap_small 64 e) by lia. rewrite wrap_small by (rewrite Ht, Hn; lia). simpl. lia. }
  unfold Abs.insert, exact. cbn [Abs.items Abs.acur Abs.amax].
  rewrite evict_cons2, Hd.
  rewrite (wrap_small 64 (max - bsize k)), (wrap_small 64 (max - bsize k - bsize v)) by lia.
  assert (total (y :: r) = e * Z.of_nat n - e)%Z as Hyr.
  { apply Forall_cons in Hl as [_ Hr]. rewrite (uniform_total _ Hr). rewrite <-Hn. simpl length. lia. }
  rewrite (proj2 (Z.ltb_lt _ _)) by (rewrite Ht, Hn; lia).
  rewrite evict_none by (apply Z.ltb_ge; lia).
  rewrite !wrap_small by (rewrite ?wrap_small; lia). change (skipn 1 ((x :: y :: r) ++ [(k, v)])) with ((y :: r) ++ [(k, v)]).
  do 2 f_equal. rewrite total_app. cbn [total foldr]. unfold Abs.esize. cbn [fst snd]. lia.
Qed.

Lemma keep_sized k v l :
  Abs.esize (k, v) = e → Abs.find k l = None → sized l → sized (keep n (touch k v l)).
Proof.
  intros Hkv Hk [Hl Hn]. split.
  - unfold keep. apply Forall_drop. unfold touch. apply Forall_app.
    split; [by apply erase_Forall|]. by constructor.
  - unfold keep. rewrite length_skipn. lia.
Qed.

Lemma insert_policy k v l :
  Abs.esize (k, v) = e → Abs.find k l = None → sized l →
  Abs.insert k v (exact max l) = Ret tt (exact max (keep n (touch k v l))).
Proof.
  intros Hkv Hk [Hl Hn]. destruct (decide (length l = n)) as [Heq|Hne]; [by apply insert_full|].
  rewrite keep_all.
  - apply insert_fits; [|done]. rewrite Hkv, uniform_total by done.
    pose proof n_bounds as [H _]. nia.
  - unfold touch. apply find_None in Hk. rewrite erase_None, length_app by done. simpl. lia.
Qed.

Lemma update_policy k v old l :
  Abs.esize (k, v) = e → Abs.find k l = Some old → sized l →
  Abs.update k old v (exact max l) = Ret tt (exact max (touch k v l)).
Proof.
  intros Hkv Hk Hl. apply update_fits; [|done].
  pose proof (sized_total l Hl). destruct Hl as [Hl _].
  assert (Abs.esize (k, old) = e).
  { apply find_Some in Hk. by apply (proj1 (Forall_forall _ _) Hl). }
  lia.
Qed.

Lemma not_too_big k v l : Abs.esize (k, v) = e → Abs.too_big k v (exact max l) = false.
Proof.
  intros Hkv. unfold Abs.too_big, exact. cbn. unfold Abs.esize in Hkv; cbn in Hkv.
  pose proof (bsize_nonneg k). pose proof (bsize_nonneg v).
  rewrite wrap_small by lia. apply Z.ltb_ge. lia.
Qed.

(** Deleting at an end takes the bytes of the association off the account. *)
Lemma remove_policy k v l :
  NoDup l.*1 → Abs.find k l = Some v → sized l →
  Abs.remove k (exact max l) =
    (if decide (deletable k l) then Ret tt (exact max (Abs.erase k l)) else Undef NullDeref) ∧
  sized (Abs.erase k l).
Proof.
  intros Hnd Hk Hl. pose proof (sized_total l Hl) as Htot. destruct Hl as [Hl Hn].
  pose proof (erase_length _ _ _ Hk) as Hlen. split; [|by split; [apply erase_Forall|lia]].
  assert (Abs.debit l (total l) = total (Abs.erase k l)) as Hd.
  { rewrite (total_erase _ _ _ Hk). apply find_Some in Hk.
    rewrite (proj1 (Forall_forall _ _) Hl _ Hk). destruct l as [|x l]; [by apply elem_of_nil in Hk|].
    destruct (last_is_Some (x :: l)) as [_ [z Hz]]; [done|]. unfold Abs.debit. rewrite Hz.
    rewrite (proj1 (Forall_forall _ _) Hl z) by (by apply last_Some_elem_of).
    pose proof (uniform_total _ Hl) as Ht. simpl length in Ht.
    rewrite (wrap_small 64 e) by lia. rewrite wrap_small by lia. done. }
  unfold Abs.remove, exact, deletable. cbn [Abs.items Abs.acur Abs.amax]. rewrite Hd.
  destruct l as [|x [|y l]]; [done| |].
  - rewrite decide_False by (simpl; lia). done.
  - assert (2 ≤ length (x :: y :: l)) by (simpl; lia). repeat case_decide; done || tauto.
Qed.

(** The keys of the list stay distinct. *)
Lemma drop_nodup (i : nat) l : NoDup l.*1 → NoDup (skipn i l).*1.
Proof. intros H. rewrite <-(firstn_skipn i l) in H. by apply suffix_nodup in H. Qed.

Lemma erase_nodup k l : NoDup l.*1 → NoDup (Abs.erase k l).*1.
Proof. intros H. apply (touch_nodup k []) in H. unfold touch in H. rewrite fmap_app in H. by destruct (proj1 (NoDup_app _ _) H). Qed.

Lemma policy_nodup o l r l' : policy n o l = Some (r, l') → NoDup l.*1 → NoDup l'.*1.
Proof.
  intros E Hnd. assert (∀ k v, NoDup (keep n (touch k v l)).*1).
  { intros. by apply drop_nodup, touch_nodup. }
  destruct o as [k v|k v|k v|k|k]; cbn [policy] in E; repeat case_match; simplify_eq;
    auto using touch_nodup, erase_nodup.
Qed.

(** One call follows the policy. *)
Lemma exec_policy o l :
  uniform e o → sized l → NoDup l.*1 →
  match policy n o l with
  | Some (r, l') => exec o (exact max l) = Ret r (exact max l') ∧ sized l'
  | None => exec o (exact max l) = Undef NullDeref
  end.
Proof.
  intros Ho Hl Hnd.
  assert (∀ k v old, Abs.esize (k, v) = e → Abs.find k l = Some old →
            keep n (touch k v l) = touch k v l) as Hkeep.
  { intros k v old Hkv Hk. apply keep_all. by apply (touch_sized k v old). }
  destruct o as [k v|k v|k v|k|k]; cbn [uniform] in Ho; cbn [exec policy];
    rewrite fmap_prog; cbn [Put PutIfAbsent Set_ Delete Get abs_storage];
    unfold Abs.Put, Abs.PutIfAbsent, Abs.Set_, Abs.Delete, Abs.Get;
    try rewrite (not_too_big _ _ l Ho); try done; cbn [Abs.items exact];
    destruct (Abs.find k l) as [old|] eqn:E; cbn [fst snd]; try done;
    try (erewrite bind_ret by (by (apply insert_policy || eapply update_policy)));
    rewrite ?(Hkeep k v old Ho E) by done; eauto using touch_sized, keep_sized.
  - unfold mbind, prog_bind. destruct (remove_policy k old l Hnd E Hl) as [-> Hs].
    by case_decide.
  - apply find_Some in E as Hin. pose proof (proj1 (Forall_forall _ _) (proj1 Hl) _ Hin) as He.
    split; [|by apply (touch_sized k old old)].
    f_equal. unfold exact. f_equal. rewrite total_touch, (total_erase _ _ _ E). cbn. lia.
Qed.

Lemma exec_all_policy os l :
  Forall (uniform e) os → sized l → NoDup l.*1 →
  match policy_all n os l with
  | Some (rs, l') => exec_all os (exact max l) = Ret rs (exact max l') ∧ sized l'
  | None => exec_all os (exact max l) = Undef NullDeref
  end.
Proof.
  intros Hos. revert l. induction Hos as [|o os Ho Hos IH]; intros l Hl Hnd; [done|].
  pose proof (exec_policy o l Ho Hl Hnd) as E. cbn [exec_all policy_all].
  destruct (policy n o l) as [[r l']|] eqn:Ep; cbn [mbind option_bind].
  - destruct E as [E Hl']. specialize (IH l' Hl' (policy_nodup _ _ _ _ Ep Hnd)).
    rewrite (bind_ret _ _ _ _ _ E). destruct (policy_all n os l') as [[rs l'']|]; cbn [mbind option_bind].
    + destruct IH as [E' Hl'']. by rewrite (bind_ret _ _ _ _ _ E').
    + unfold mbind, prog_bind. by rewrite IH.
  - unfold mbind, prog_bind. by rewrite E.
Qed.

End uniform_facts.

(** ** While everything fits *)

Section fits_facts.
Context (max : Z).
Implicit Types (l : list (bytes * bytes)).

Abbreviation amap := (list_to_map (M := gmap bytes bytes)).

Lemma touch_map k v l : NoDup l.*1 → amap (touch k v l) = <[k := v]> (amap l).
Proof.
  intros Hnd. apply map_eq. intros k'. rewrite find_map. unfold touch.
  destruct (decide (k' = k)) as [->|Hne].
  - rewrite lookup_insert_eq. by apply find_snoc_eq, erase_keys.
  - rewrite lookup_insert_ne, find_snoc_ne, find_map by done. by apply find_erase_ne.
Qed.

Lemma fits_not_too_big k v l :
  (Abs.esize (k, v) ≤ max < 2 ^ 64)%Z → Abs.too_big k v (exact max l) = false.
Proof.
  unfold Abs.too_big, exact, Abs.esize. cbn. intros.
  pose proof (bsize_nonneg k). pose proof (bsize_nonneg v).
  rewrite wrap_small by lia. apply Z.ltb_ge. lia.
Qed.

(** A cache of more entries than it has drops nothing. *)
Lemma keep_touch k v l : keep (S (length l)) (touch k v l) = touch k v l.
Proof.
  unfold keep, touch. rewrite length_app. simpl.
  assert (length (Abs.erase k l) ≤ length l) as Hle.
  { destruct (Abs.find k l) as [old|] eqn:E.
    - rewrite (erase_length _ _ _ E). lia.
    - apply find_None in E. by rewrite erase_None. }
  by replace (length (Abs.erase k l) + 1 - S (length l)) with 0 by lia.
Qed.

(** What a call does to the list when it drops nothing. *)
Abbreviation after o l := (default (RBool false, []) (policy (S (length l)) o l)).

Lemma abs_after o z l :
  op_bytes o = Some z → (total l + z ≤ max < 2 ^ 64)%Z →
  exec o (exact max l) = Ret (after o l).1 (exact max (after o l).2).
Proof.
  intros Hz Hfit. pose proof (total_nonneg l) as Htot. pose proof esize_nonneg as Hsz.
  destruct o as [k v|k v|k v|k|k]; cbn [op_bytes] in Hz; simplify_eq;
    cbn [exec policy from_option]; rewrite fmap_prog, ?keep_touch;
    cbn [Put PutIfAbsent Set_ Delete Get abs_storage];
    unfold Abs.Put, Abs.PutIfAbsent, Abs.Set_, Abs.Get;
    try rewrite (fits_not_too_big k v l) by lia; cbn [Abs.items exact];
    destruct (Abs.find k l) as [old|] eqn:E; try done;
    try pose proof (Hsz (k, old));
    try (erewrite bind_ret by (by (apply insert_fits || (eapply update_fits; [lia|]))); done).
  unfold exact. cbn. do 2 f_equal. rewrite total_touch, (total_erase _ _ _ E). lia.
Qed.

Lemma map_after o z l :
  op_bytes o = Some z → NoDup l.*1 →
  exec o (amap l) = Ret (after o l).1 (amap (after o l).2).
Proof.
  intros Hz Hnd. destruct o as [k v|k v|k v|k|k]; cbn [op_bytes] in Hz; simplify_eq;
    cbn [exec policy]; rewrite fmap_prog, ?keep_touch; cbn; rewrite ?find_map;
    try destruct (Abs.find k l) as [old|] eqn:E; cbn; rewrite ?touch_map by done; try done.
  by rewrite insert_id by by rewrite find_map.
Qed.

Lemma after_nodup o z l : op_bytes o = Some z → NoDup l.*1 → NoDup (after o l).2.*1.
Proof.
  intros Hz Hnd. destruct o as [k v|k v|k v|k|k]; cbn [op_bytes] in Hz; simplify_eq;
    cbn [policy from_option]; rewrite ?keep_touch; repeat case_match; try done; by apply touch_nodup.
Qed.

Lemma after_total o z l : op_bytes o = Some z → (total (after o l).2 ≤ total l + z)%Z.
Proof.
  pose proof esize_nonneg as Hsz. intros Hz.
  destruct o as [k v|k v|k v|k|k]; cbn [op_bytes] in Hz; simplify_eq;
    cbn [policy from_option]; rewrite ?keep_touch;
    try pose proof (total_erase_le k l); try pose proof (Hsz (k, v));
    try destruct (Abs.find k l) as [old|] eqn:E; cbn [snd from_option id]; rewrite ?total_touch;
    try pose proof (Hsz (k, old)); try rewrite (total_erase _ _ _ E); lia.
Qed.

Lemma ops_bytes_nonneg os z : ops_bytes os = Some z → (0 ≤ z)%Z.
Proof.
  pose proof esize_nonneg as Hsz. revert z. induction os as [|o os IH]; intros z; simpl.
  - intros. by simplify_eq.
  - intros (z1 & Hz1 & (z2 & Hz2 & Hz)%bind_Some)%bind_Some. apply IH in Hz2. simplify_eq.
    destruct o as [k v|k v|k v|k|k]; cbn [op_bytes] in Hz1; simplify_eq;
      try pose proof (Hsz (k, v)); lia.
Qed.

(** A sequence of calls on the cache is the same sequence on the map. *)
Lemma exec_all_fits os z l :
  ops_bytes os = Some z → (total l + z ≤ max < 2 ^ 64)%Z → NoDup l.*1 →
  ∃ rs l', exec_all os (exact max l) = Ret rs (exact max l') ∧
           exec_all os (amap l) = Ret rs (amap l') ∧ (total l' ≤ total l + z)%Z.
Proof.
  revert z l. induction os as [|o os IH]; intros z l; simpl.
  - intros. simplify_eq. eexists _, l. split_and!; [done..|lia].
  - intros (z1 & Hz1 & (z2 & Hz2 & Hz)%bind_Some)%bind_Some Hfit Hnd. simplify_eq.
    pose proof (ops_bytes_nonneg _ _ Hz2). pose proof (after_total o z1 l Hz1).
    destruct (IH z2 (after o l).2) as (rs & l' & E1 & E2 & Hl'); [done|lia|by eapply after_nodup|].
    exists ((after o l).1 :: rs), l'.
    rewrite (bind_ret _ _ _ _ _ (abs_after o z1 l Hz1 ltac:(lia))), (bind_ret _ _ _ _ _ E1).
    rewrite (bind_ret _ _ _ _ _ (map_after o z1 l Hz1 Hnd)), (bind_ret _ _ _ _ _ E2).
    split_and!; [done..|lia].
Qed.

End fits_facts.

(** The initial cache, as an exact one. *)
Lemma new_exact max : rep (SimpleLRU_new max) (exact max []).
Proof. apply new_rep. Qed.

(** ** Properties of the cache *)

Lemma exec_all_amax os c rs c' : exec_all os c = Ret rs c' → Abs.amax c' = Abs.amax c.
Proof.
  revert c rs. induction os as [|o os IH]; intros c rs E; cbn [exec_all] in E; [by injection E as _ <-|].
  bind_inv E. bind_inv E. injection E as _ <-. rewrite (IH _ _ E1). by eapply exec_amax.
Qed.

Lemma reachable_rep max s : reachable max s → (∃ c, rep s c) ∧ max_size s = max.
Proof.
  intros (os & rs & E). destruct (exec_all_rep _ _ _ _ _ (new_exact max) E) as (c & E' & Hr).
  split; [by exists c|]. rewrite (rep_max _ _ Hr). by rewrite (exec_all_amax _ _ _ _ E').
Qed.

(** A retrieval on a representation. *)
Lemma get_rep s c k :
  rep s c →
  ∃ s' c', SimpleLRU.Get k s = Ret (lru_view s !! k) s' ∧ rep s' c' ∧ lru_view s' = lru_view s ∧
           contents s' = match lru_view s !! k with
                         | Some v => touch k v (contents s)
                         | None => contents s
                         end.
Proof.
  intros Hr. pose proof (Get_refines s c k Hr) as H.
  rewrite (rep_view _ _ Hr), find_map, (rep_contents _ _ Hr). unfold Abs.Get in H.
  destruct (Abs.find k (Abs.items c)) as [v|] eqn:E;
    (destruct (SimpleLRU.Get k s) as [r s'| | |]; [|done..]); destruct H as [-> Hr'];
    eexists s', _; rewrite (rep_view _ _ Hr'), (rep_contents _ _ Hr'); [|done].
  split; [done|]. split; [done|]. split; [|done]. apply get_same; [|done]. by apply (rep_nodup s).
Qed.

(** C3: every sequence of calls on a new cache has the outcome the abstract cache
    gives it: the same results or the same undefined behaviour, and when it
    returns, a well-formed pointer structure for the abstract cache. *)
Theorem lru_refinement max os :
  refines (exec_all os (SimpleLRU_new max)) (exec_all os (exact max [])).
Proof. apply exec_all_refines, new_exact. Qed.

(** C5: in every state the calls can reach, each further call that returns keeps
    the contract of the comments of Storage.h, evictions of other keys apart: it
    stores, deletes and returns what they say, and refuses an association exactly
    when its key and value together exceed the bound of the cache, where it
    changes nothing.  This refusal is an error the comments of Put and PutIfAbsent
    allow; the comment of Set allows it for an absent key only, so a refused Set
    of a present key contradicts it.  No call throws. *)
Theorem lru_contract max s o :
  reachable max s →
  (∀ r s', exec o s = Ret r s' →
     contract (λ k v, max <? wrap64 (bsize k + bsize v))%Z (lru_view s) o r (lru_view s')) ∧
  (∀ e s', exec o s ≠ Throw e s').
Proof.
  intros Hs. destruct (reachable_rep _ _ Hs) as [Hwf Hmax]. split.
  - intros r s' E. destruct (@exec_contract _ _ lru_storage_laws s o r s' Hwf E) as (_ & _ & Hc).
    cbn in Hc. unfold too_big in Hc. by rewrite Hmax in Hc.
  - intros e s'. by apply (@exec_no_throw _ _ lru_storage_laws s o e s' Hwf).
Qed.

(** The refusal that the comment of [Set] does not provide for: the key is present,
    the call returns [false], and the old value stays. *)
Theorem set_refuses_present_key :
  exec_all [OpPut (lit "k") (lit "v"); OpSet (lit "k") (lit "too long"); OpGet (lit "k")]
    (SimpleLRU_new 4) =
  match exec_all [OpPut (lit "k") (lit "v"); OpGet (lit "k")] (SimpleLRU_new 4) with
  | Ret _ s => Ret [RBool true; RBool false; RValue (Some (lit "v"))] s
  | r => r
  end.
Proof. vm_compute. reflexivity. Qed.

(** C6: for every sequence of calls, deletions included, that stores keys and
    values of one total size, at least two of which fit, the program is the least
    recently used cache: it returns what the policy says, holds the associations
    the policy keeps in the order of their last use, and its size account is the
    number of bytes it holds; except that the first deletion of a present key that
    is alone in the cache, or neither its oldest nor its newest, dereferences a
    null pointer. *)
Theorem lru_policy e max os :
  (0 < e)%Z → (2 * e ≤ max < 2 ^ 64)%Z → Forall (uniform e) os →
  match policy_all (slots e max) os [] with
  | Some (rs, l) =>
    ∃ s', exec_all os (SimpleLRU_new max) = Ret rs s' ∧ contents s' = l ∧
          current_size s' = total l ∧ (total l ≤ max)%Z
  | None => exec_all os (SimpleLRU_new max) = Undef NullDeref
  end.
Proof.
  intros Hpos Htwo Hos.
  pose proof (exec_all_policy e max Hpos Htwo os [] Hos) as E.
  destruct (policy_all (slots e max) os []) as [[rs l]|]; cycle 1.
  { pose proof (exec_all_refines os _ _ (new_exact max)) as H.
    rewrite E in H by (by (split; [|simpl; lia]) || apply NoDup_nil_2).
    by destruct (exec_all os (SimpleLRU_new max)); simplify_eq/=. }
  destruct E as [E Hsz]; [by split; [|simpl; lia]|apply NoDup_nil_2|].
  destruct (exec_all_abs _ _ _ _ _ (new_exact max) E) as (s' & E' & Hr).
  exists s'. rewrite (rep_contents _ _ Hr). pose proof (sized_total e max Hpos Htwo _ Hsz).
  destruct Hr as (L & _ & _ & _ & Hcur). done.
Qed.

(** As long as the bytes stored fit in the cache and nothing is deleted, the
    program returns what an unbounded map returns and holds what it holds. *)
Theorem lru_fits_map max os z :
  ops_bytes os = Some z → (z ≤ max < 2 ^ 64)%Z →
  ∃ rs s', exec_all os (SimpleLRU_new max) = Ret rs s' ∧
           exec_all os (∅ : gmap bytes bytes) = Ret rs (lru_view s').
Proof.
  intros Hz Hfit.
  destruct (exec_all_fits max os z [] Hz) as (rs & l' & E1 & E2 & _); [done|constructor|].
  destruct (exec_all_abs _ _ _ _ _ (new_exact max) E1) as (s' & E' & Hr).
  exists rs, s'. by rewrite (rep_view _ _ Hr).
Qed.

(** In every state the calls can reach, [Get] is defined: it returns the value
    of the key, leaves the associations as they are, and makes the one it found
    the most recently used. *)
Theorem lru_get max s k :
  reachable max s →
  ∃ s', SimpleLRU.Get k s = Ret (lru_view s !! k) s' ∧ lru_view s' = lru_view s ∧
        contents s' = match lru_view s !! k with
                      | Some v => touch k v (contents s)
                      | None => contents s
                      end.
Proof.
  intros [[c Hr] _]%reachable_rep. destruct (get_rep s c k Hr) as (s' & c' & E & _ & Hv & Hc).
  by exists s'.
Qed.

(** In every state the calls can reach, [Delete] returns [false] and changes
    nothing for a key that is absent; removes exactly the association of a key
    that is at one end of the list and not alone in it, and then debits the size
    of the most recently used association; and otherwise dereferences a null
    pointer. *)
Theorem lru_delete max s k :
  reachable max s →
  match Abs.find k (contents s) with
  | None => SimpleLRU.Delete k s = Ret false s
  | Some v =>
    ∃ l1 l2, contents s = l1 ++ (k, v) :: l2 ∧
      if decide (l1 = [] ↔ l2 = []) then SimpleLRU.Delete k s = Undef NullDeref
      else ∃ s', SimpleLRU.Delete k s = Ret true s' ∧ contents s' = l1 ++ l2 ∧
                 current_size s' = Abs.debit (contents s) (current_size s)
  end.
Proof.
  intros [[c Hr] _]%reachable_rep. rewrite (rep_contents _ _ Hr).
  pose proof (Delete_refines s c k Hr) as H. unfold Abs.Delete in H.
  pose proof (rep_nodup _ _ Hr) as Hnd.
  destruct (Abs.find k (Abs.items c)) as [v|] eqn:E.
  - apply find_split in E as (l1 & l2 & Hl & _). exists l1, l2. split; [done|].
    unfold mbind, prog_bind in H. rewrite (abs_remove_cases c l1 k v l2 Hl Hnd) in H.
    case_decide; destruct (SimpleLRU.Delete k s) as [b s'| |u|]; simpl in H; try done.
    { by rewrite H. }
    destruct H as [-> Hr']. exists s'. rewrite (rep_contents _ _ Hr'). split_and!; [done..|].
    destruct Hr as (? & _ & _ & _ & ->), Hr' as (? & _ & _ & _ & ->). done.
  - unfold SimpleLRU.Delete. rewrite bind_gets, (proj2 (rep_index s c k Hr) E). done.
Qed.

(** C21: the destructor is defined in every state the calls can reach and releases
    every node, however long the list is. *)
Theorem lru_destructor max s :
  reachable max s → ∃ s', SimpleLRU_destroy s = Ret tt s' ∧ mem s' = ∅ ∧ lru_index s' = ∅.
Proof. intros [[c Hr] _]%reachable_rep. by apply (destroy_run s c). Qed.

(** ** Examples *)

(** Three associations of one byte each in a cache of three bytes. *)
Definition abc : list op :=
  [OpPut (lit "a") []; OpPut (lit "b") []; OpPut (lit "c") []].

Definition abc_state : SimpleLRU :=
  match exec_all abc (SimpleLRU_new 3) with Ret _ s => s | _ => SimpleLRU_new 3 end.

Lemma abc_reachable : reachable 3 abc_state.
Proof. exists abc, [RBool true; RBool true; RBool true]. vm_compute. reflexivity. Qed.

(** The result of [exec_all] on a new cache. *)
Abbreviation run_on max os := (exec_all os (SimpleLRU_new max)).

Lemma lru_contract_witness :
  ∃ r s', exec (OpGet (lit "b")) abc_state = Ret r s' ∧
          contract (λ k v, 3 <? wrap64 (bsize k + bsize v))%Z (lru_view abc_state) (OpGet (lit "b")) r (lru_view s').
Proof.
  eexists _, _. split; [vm_compute; reflexivity|].
  apply (lru_contract 3 abc_state (OpGet (lit "b")) abc_reachable). vm_compute. reflexivity.
Defined.

Lemma lru_policy_witness :
  (∃ s', run_on 2 abc = Ret [RBool true; RBool true; RBool true] s' ∧
         contents s' = [(lit "b", []); (lit "c", [])] ∧
         current_size s' = 2%Z ∧ (2 ≤ 2)%Z) ∧
  (∃ s', run_on 3 (abc ++ [OpDelete (lit "a")]) =
           Ret [RBool true; RBool true; RBool true; RBool true] s' ∧
         contents s' = [(lit "b", []); (lit "c", [])] ∧
         current_size s' = 2%Z ∧ (2 ≤ 3)%Z) ∧
  run_on 3 (abc ++ [OpDelete (lit "b")]) = Undef NullDeref.
Proof.
  split; [|split].
  - apply (lru_policy 1 2 abc); [lia|lia|repeat constructor].
  - apply (lru_policy 1 3 (abc ++ [OpDelete (lit "a")])); [lia|lia|repeat constructor].
  - apply (lru_policy 1 3 (abc ++ [OpDelete (lit "b")])); [lia|lia|repeat constructor].
Defined.

Lemma lru_fits_map_witness :
  ∃ rs s', run_on 3 abc = Ret rs s' ∧ exec_all abc (∅ : gmap bytes bytes) = Ret rs (lru_view s').
Proof. apply (lru_fits_map 3 abc 3); [reflexivity|lia]. Defined.

Lemma lru_get_witness :
  ∃ s', SimpleLRU.Get (lit "a") abc_state = Ret (lru_view abc_state !! lit "a") s' ∧
        lru_view s' = lru_view abc_state ∧
        contents s' = match lru_view abc_state !! lit "a" with
                      | Some v => touch (lit "a") v (contents abc_state)
                      | None => contents abc_state
                      end.
Proof. apply (lru_get 3). apply abc_reachable. Defined.

Lemma lru_delete_witness :
  ∃ l1 l2, contents abc_state = l1 ++ (lit "b", []) :: l2 ∧
    if decide (l1 = [] ↔ l2 = []) then SimpleLRU.Delete (lit "b") abc_state = Undef NullDeref
    else ∃ s', SimpleLRU.Delete (lit "b") abc_state = Ret true s' ∧ contents s' = l1 ++ l2 ∧
               current_size s' = Abs.debit (contents abc_state) (current_size abc_state).
Proof. exact (lru_delete 3 abc_state (lit "b") abc_reachable). Defined.

Lemma lru_destructor_witness :
  ∃ s', SimpleLRU_destroy abc_state = Ret tt s' ∧ mem s' = ∅ ∧ lru_index s' = ∅.
Proof. apply (lru_destructor 3). apply abc_reachable. Defined.

(** An update that makes room by evicting the association it updates writes
    to the node after its release. *)
Theorem update_evicts_its_node :
  run_on 4 [OpPut (lit "a") (lit "1"); OpPut (lit "b") (lit "2"); OpPut (lit "a") (lit "333")] =
  Undef UseAfterFree.
Proof. vm_compute. reflexivity. Qed.

(** The account drifts when [Delete] removes an association that is not the
    most recently used one: the cache can then hold more bytes than its bound, or
    dereference a null pointer to make room that it has; and a cache that holds
    one association only cannot evict it. *)
Theorem delete_drifts_account :
  (∃ rs s, run_on 10 [OpPut (lit "a") []; OpPut (lit "b") (lit "xxxxxx"); OpDelete (lit "a");
                      OpPut (lit "c") (lit "xxxxxxxx")] = Ret rs s ∧ total (contents s) = 16%Z) ∧
  run_on 10 [OpPut (lit "a") (lit "xxxxxx"); OpPut (lit "b") []; OpDelete (lit "a");
             OpPut (lit "c") (lit "xxxx")] = Undef NullDeref ∧
  run_on 4 [OpPut (lit "a") (lit "xx"); OpPut (lit "b") (lit "yy")] = Undef NullDeref.
Proof.
  split; [|split; vm_compute; reflexivity].
  eexists _, _. split; [vm_compute; reflexivity|]. vm_compute. reflexivity.
Qed.
