(* ===== verification/LruWellFormed.v ===== *)
(** * The well-formed states of the cache

    An executable check of the pointer structure of SimpleLRU
    (src/sysprog/afina/src/storage/SimpleLRU.h: the list, the map, the owners), and that the
    operations of SimpleLRU.cpp keep it. *)

From S2P Require Import Prelude Storage SimpleLRU LruStorage.

(** The nodes from [p] on, with their keys, when every [prev] points back to where the
    walk came from, and the last of them. *)
Fixpoint linked (fuel : nat) (m : gmap loc lru_node) (pp p : option loc) :
    option (list (bytes * loc) * option loc) :=
  match p with
  | None => Some ([], pp)
  | Some l =>
      match fuel with
      | 0 => None
      | S fuel =>
          n ← m !! l;
          if decide (prev n = pp) then
            '(nodes, t) ← linked fuel m (Some l) (next n);
            Some ((key n, l) :: nodes, t)
          else None
      end
  end.

(** The list from [_lru_head] ends at [_lru_tail]; it meets every node in memory once, and
    no key twice; the index maps exactly its keys, each to its node; no address will be
    handed out again. *)
Definition well_formed (s : SimpleLRU) : bool :=
  match linked (base.size (mem s)) (mem s) None (lru_head s) with
  | None => false
  | Some (nodes, t) =>
      bool_decide (t = lru_tail s) && bool_decide (NoDup nodes.*2) && bool_decide (NoDup nodes.*1) &&
      bool_decide (length nodes = base.size (mem s)) &&
      bool_decide (lru_index s = list_to_map nodes) &&
      bool_decide (Forall (λ x, x < brk s)%positive nodes.*2)
  end.

(** ** Facts *)

(** The keys and addresses of a chain. *)
Definition nodes_of (L : chain) : list (bytes * loc) := (λ x, (x.2.1, x.1)) <$> L.

Lemma linked_dlseg fuel m pp L :
  dlseg m pp L None → length L ≤ fuel →
  linked fuel m pp (first_loc L None) = Some (nodes_of L, last_loc pp L).
Proof.
  revert fuel pp. induction L as [|[l [k v]] L IH]; intros fuel pp; simpl; [by destruct fuel|].
  intros [Hl HL] Hf. destruct fuel as [|fuel]; [lia|]. simpl. rewrite Hl. simpl.
  rewrite decide_True by done. rewrite (IH fuel (Some l)) by (done || lia). simpl.
  by rewrite last_loc_cons.
Qed.

Lemma dlseg_linked fuel m pp p nodes t :
  linked fuel m pp p = Some (nodes, t) →
  ∃ L, dlseg m pp L None ∧ nodes = nodes_of L ∧ t = last_loc pp L ∧ p = first_loc L None.
Proof.
  revert pp p nodes. induction fuel as [|fuel IH]; intros pp [l|] nodes; simpl; intros H; try done.
  1, 3: simplify_eq; by exists [].
  destruct (m !! l) as [n|] eqn:El; [|done]. simpl in H. case_decide as Hp; [|done].
  destruct (linked fuel m (Some l) (next n)) as [[nodes' t']|] eqn:E; [|done]. simpl in H. simplify_eq.
  destruct (IH _ _ _ E) as (L & HL & -> & -> & Hn). exists ((l, (key n, value n)) :: L).
  simpl. rewrite last_loc_cons, El, <-Hn. by destruct n.
Qed.

Lemma nodes_of_locs L : (nodes_of L).*2 = L.*1.
Proof. unfold nodes_of. rewrite <-list_fmap_compose. by apply list_fmap_ext. Qed.
Lemma nodes_of_keys L : (nodes_of L).*1 = L.*2.*1.
Proof. unfold nodes_of. rewrite <-!list_fmap_compose. by apply list_fmap_ext. Qed.

(** The index of a chain. *)
Lemma index_nodes (L : chain) (idx : gmap bytes loc) :
  NoDup L.*2.*1 →
  idx = list_to_map (nodes_of L) ↔ ∀ k l, idx !! k = Some l ↔ ∃ v, (l, (k, v)) ∈ L.
Proof.
  intros Hk. assert (∀ k l, list_to_map (M := gmap bytes loc) (nodes_of L) !! k = Some l ↔
    ∃ v, (l, (k, v)) ∈ L) as Hlook.
  { intros k l. rewrite <-elem_of_list_to_map by (by rewrite nodes_of_keys).
    unfold nodes_of. rewrite list_elem_of_fmap. split.
    - intros ([l' [k' v]] & [= -> ->] & Hin). by exists v.
    - intros [v Hin]. by exists (l, (k, v)). }
  split; [intros ->; apply Hlook|]. intros H. apply map_eq. intros k. apply option_eq. intros l.
  by rewrite H, Hlook.
Qed.

Lemma dlseg_mem m pp L l : dlseg m pp L None → l ∈ L.*1 → is_Some (m !! l).
Proof.
  revert pp. induction L as [|x L IH]; intros pp; simpl; [by intros _ ?%not_elem_of_nil|].
  intros [Hx HL] [->|Hl]%elem_of_cons; [by rewrite Hx|by eapply IH].
Qed.

(** The check decides whether the state represents an abstract cache. *)
Lemma well_formed_rep s : well_formed s = true ↔ ∃ c, rep s c.
Proof.
  unfold well_formed. split.
  - destruct (linked _ _ _ _) as [[nodes t]|] eqn:E; [|done].
    destruct (dlseg_linked _ _ _ _ _ _ E) as (L & HL & -> & -> & Hh).
    rewrite !andb_true_iff, !bool_decide_eq_true, nodes_of_locs, nodes_of_keys.
    intros [[[[[Ht Hl] Hk] Hlen] Hi] Hb].
    exists (Abs.mk_cache (max_size s) (current_size s) L.*2), L. split; [|done].
    split; try done.
    + symmetry. apply set_subseteq_size_eq.
      * intros l Hin%elem_of_list_to_set. apply elem_of_dom. by eapply dlseg_mem.
      * rewrite size_list_to_set, size_dom, <-Hlen by done. unfold nodes_of.
        by rewrite !length_fmap.
    + by apply index_nodes.
    + by apply Forall_fmap in Hb.
  - intros (c & L & Hs & _). rewrite (shape_head _ _ Hs).
    rewrite (linked_dlseg _ _ _ _ (shape_seg _ _ Hs)) by (by rewrite (mem_size _ _ Hs)).
    rewrite !andb_true_iff, !bool_decide_eq_true, nodes_of_locs, nodes_of_keys.
    rewrite (shape_tail _ _ Hs), (mem_size _ _ Hs). unfold nodes_of at 1. rewrite length_fmap.
    split_and!; try apply Hs; try done.
    + apply index_nodes; apply Hs.
    + apply Forall_fmap, Hs.
Qed.

(** The undefined behaviour of the abstract cache. *)
Lemma abs_undef (o : op) (c : Abs.cache) u : exec o c = Undef u → u = NullDeref ∨ u = UseAfterFree.
Proof.
  destruct o as [k v|k v|k v|k|k]; cbn [exec]; rewrite fmap_prog;
    cbn [Storage.Put Storage.PutIfAbsent Storage.Set_ Storage.Delete Storage.Get abs_storage];
    unfold Abs.Put, Abs.PutIfAbsent, Abs.Set_, Abs.Delete, Abs.Get, Abs.insert, Abs.update,
      Abs.remove, mbind, prog_bind;
    intros; repeat (case_match; simplify_eq/=); auto.
Qed.

(** ** Well-formedness is an invariant *)

(** C7: a new cache is well-formed, and every operation on a well-formed cache that
    returns leaves a well-formed one: the doubly linked list, its two ends, the index and
    the memory agree, nothing is leaked and nothing is freed twice; what can go wrong
    instead is a null pointer or a node that was evicted, and no loop runs for ever. *)
Theorem lru_well_formed max :
  well_formed (SimpleLRU_new max) = true ∧
  ∀ s (o : op), well_formed s = true →
    match exec o s with
    | Ret _ s' => well_formed s' = true
    | Undef u => u = NullDeref ∨ u = UseAfterFree
    | _ => False
    end.
Proof.
  split; [apply well_formed_rep; eexists; apply new_rep|].
  intros s o [c Hr]%well_formed_rep. pose proof (exec_refines s c o Hr) as H.
  destruct (exec o s) as [r s'| |u|], (exec o c) as [r' c'| |u'|] eqn:E; simpl in H; try done.
  - apply well_formed_rep. exists c'. by destruct H.
  - subst. by eapply abs_undef.
Qed.

(** A cache whose tail was not updated, and one whose index maps a key to another node. *)
Example broken_tail : well_formed (set_tail (Some 1%positive) abc_state) = false.
Proof. vm_compute. done. Qed.
Example broken_index :
  well_formed (set_index (<[lit "a" := 2%positive]> (lru_index abc_state)) abc_state) = false.
Proof. vm_compute. done. Qed.

Lemma lru_well_formed_witness :
  well_formed abc_state = true ∧
  match exec (OpGet (lit "b")) abc_state with
  | Ret _ s' => well_formed s' = true
  | Undef u => u = NullDeref ∨ u = UseAfterFree
  | _ => False
  end.
Proof.
  split; [vm_compute; reflexivity|].
  apply (proj2 (lru_well_formed 3) abc_state (OpGet (lit "b"))). vm_compute. reflexivity.
Defined.
