(* ===== verification/Commands.v ===== *)
(** * The commands: [Afina::Execute]

    Model of src/sysprog/afina/include/afina/execute and src/sysprog/afina/src/execute:
    the command classes as one inductive type, and their [Execute] methods over
    any storage.  The line each method logs to the standard output is left out. *)

From S2P Require Import Prelude Storage.

(** ** Data *)

(** [class InsertCommand]: the fields the storing commands share. *)
Record InsertCommand : Type := mk_insert {
  _key : bytes;
  _flags : Z;    (* uint32_t *)
  _expire : Z;   (* int32_t *)
}.

(** [class Command] and its subclasses that have an [Execute]. *)
Inductive Command : Type :=
| Set_cmd (i : InsertCommand)
| Add (i : InsertCommand)
| Append (i : InsertCommand)
| Replace (i : InsertCommand)
| Get_cmd (_keys : list bytes)
| Stats.

#[export] Instance insert_eq_dec : EqDecision InsertCommand.
Proof. solve_decision. Defined.
#[export] Instance command_eq_dec : EqDecision Command.
Proof. solve_decision. Defined.

Definition STORED : bytes := lit "STORED".
Definition NOT_STORED : bytes := lit "NOT_STORED".

(** One item of the reply to [Get], with the line breaks. *)
Definition value_item (key value : bytes) : bytes :=
  lit "VALUE " ++ key ++ lit " 0 " ++ dec (bsize value) ++ CRLF ++ value ++ CRLF.

(** ** Execution *)

Section execute.
Context {S : Type} `{Storage S}.

(** [Set::Execute] *)
Definition Set_Execute (i : InsertCommand) (args : bytes) : prog S bytes :=
  _ ← Put (_key i) args;
  mret STORED.

(** [Add::Execute] *)
Definition Add_Execute (i : InsertCommand) (args : bytes) : prog S bytes :=
  r ← PutIfAbsent (_key i) args;
  mret (if r : bool then STORED else NOT_STORED).

(** [Append::Execute] *)
Definition Append_Execute (i : InsertCommand) (args : bytes) : prog S bytes :=
  value ← Get (_key i);
  match value with
  | None => mret NOT_STORED
  | Some value =>
    _ ← Put (_key i) (value ++ args);
    mret STORED
  end.

(** [Replace::Execute] *)
Definition Replace_Execute (i : InsertCommand) (args : bytes) : prog S bytes :=
  value ← Get (_key i);
  match value with
  | Some _ =>
    _ ← Set_ (_key i) args;
    mret STORED
  | None => mret NOT_STORED
  end.

(** The loop of [Get::Execute]: the items of the keys that are present. *)
Fixpoint Get_items (keys : list bytes) (outStream : bytes) : prog S bytes :=
  match keys with
  | [] => mret outStream
  | key :: keys =>
    value ← Get key;
    match value with
    | None => Get_items keys outStream
    | Some value => Get_items keys (outStream ++ value_item key value)
    end
  end.

(** [Get::Execute] *)
Definition Get_Execute (keys : list bytes) (args : bytes) : prog S bytes :=
  outStream ← Get_items keys [];
  mret (outStream ++ lit "END").

(** [Stats::Execute] *)
Definition Stats_Execute (args : bytes) : prog S bytes := mret (lit "END").

(** [Command::Execute], dispatched on the dynamic type. *)
Definition Execute (c : Command) (args : bytes) : prog S bytes :=
  match c with
  | Set_cmd i => Set_Execute i args
  | Add i => Add_Execute i args
  | Append i => Append_Execute i args
  | Replace i => Replace_Execute i args
  | Get_cmd keys => Get_Execute keys args
  | Stats => Stats_Execute args
  end.

End execute.

(** ** Sessions *)

(** Commands with their data, executed in order; the replies. *)
Fixpoint session {S} `{Storage S} (cs : list (Command * bytes)) : prog S (list bytes) :=
  match cs with
  | [] => mret []
  | (c, args) :: cs => out ← Execute c args; outs ← session cs; mret (out :: outs)
  end.

(** ** What the commands promise *)

(** The reply to [Get] on the associations [m]. *)
Definition get_reply (m : gmap Prelude.bytes Prelude.bytes) (keys : list bytes) : bytes :=
  mjoin (omap (λ k, value_item k <$> m !! k) keys) ++ lit "END".

(** [v] is stored under [k] unless it is too big for the storage. *)
Definition stored_if_fits (big : bytes → bytes → bool) (k v : bytes) (m m' : gmap bytes bytes) : Prop :=
  if big k v then m' = m else stored k v m m'.

(** The reply [out] and the associations [m'] after command [c] with data [args]
    on the associations [m], in a storage for which [big] associations are too big. *)
Definition executed (big : bytes → bytes → bool) (m : gmap bytes bytes) (c : Command) (args out : bytes)
    (m' : gmap bytes bytes) : Prop :=
  match c with
  | Set_cmd i => out = STORED ∧ stored_if_fits big (_key i) args m m'
  | Add i =>
    if big (_key i) args then out = NOT_STORED ∧ m' = m
    else match m !! _key i with
         | None => out = STORED ∧ stored (_key i) args m m'
         | Some _ => out = NOT_STORED ∧ m' = m
         end
  | Append i =>
    match m !! _key i with
    | None => out = NOT_STORED ∧ m' = m
    | Some v => out = STORED ∧ stored_if_fits big (_key i) (v ++ args) m m'
    end
  | Replace i =>
    match m !! _key i with
    | None => out = NOT_STORED ∧ m' = m
    | Some _ => out = STORED ∧ stored_if_fits big (_key i) args m m'
    end
  | Get_cmd keys => out = get_reply m keys ∧ m' = m
  | Stats => out = lit "END" ∧ m' = m
  end.

(** *** A client's reading of the reply to [Get] *)

(** The rest of [s] behind the prefix [x]. *)
Definition strip (x s : bytes) : option bytes :=
  if decide (take (length x) s = x) then Some (drop (length x) s) else None.

(** The parts of [s] before and behind the first [d]. *)
Fixpoint split_at (d : ascii) (s : bytes) : option (bytes * bytes) :=
  match s with
  | [] => None
  | c :: s =>
    if decide (c = d) then Some ([], s)
    else '(x, y) ← split_at d s; Some (c :: x, y)
  end.

(** The items of a reply: lines of a key and a size, each followed by as many bytes
    of data as it announces; at most [fuel] of them. *)
Fixpoint read_reply (fuel : nat) (s : bytes) : option (list (bytes * bytes)) :=
  if decide (s = lit "END") then Some []
  else
    match fuel with
    | O => None
    | S fuel =>
      s ← strip (lit "VALUE ") s;
      '(k, s) ← split_at SP s;
      s ← strip (lit "0 ") s;
      '(n, s) ← split_at CR s;
      s ← strip [LF] s;
      let n := Z.to_nat (digits_from 0 n) in
      s' ← strip CRLF (drop n s);
      l ← read_reply fuel s';
      Some ((k, take n s) :: l)
    end.

(** ** Facts *)

Lemma mjoin_cons (x : bytes) (xs : list bytes) : mjoin (x :: xs) = x ++ mjoin xs.
Proof. done. Qed.

Section facts.
Context {S : Type} `{StorageLaws S}.
Implicit Types (s : S).

(** The laws of the storage, call by call. *)
Lemma Put_spec k v s b s' :
  wf s → Put k v s = Ret b s' →
  wf s' ∧ b = negb (refuses s k v) ∧ stored_if_fits (refuses s) k v (view s) (view s').
Proof.
  intros Hwf E. destruct (exec_contract s (OpPut k v) (RBool b) s' Hwf) as (Hwf' & _ & Hc).
  { cbn. by rewrite fmap_prog, E. }
  unfold stored_if_fits. by destruct b; destruct Hc as [-> Hc].
Qed.

Lemma Set_spec k v s b s' :
  wf s → is_Some (view s !! k) → Set_ k v s = Ret b s' →
  wf s' ∧ b = negb (refuses s k v) ∧ stored_if_fits (refuses s) k v (view s) (view s').
Proof.
  intros Hwf [u Hk] E. destruct (exec_contract s (OpSet k v) (RBool b) s' Hwf) as (Hwf' & _ & Hc).
  { cbn. by rewrite fmap_prog, E. }
  unfold stored_if_fits. destruct b; [by destruct Hc as (-> & _ & Hc)|].
  destruct Hc as [[->|Hn] Hc]; [done|congruence].
Qed.

Lemma PutIfAbsent_spec k v s (b : bool) s' :
  wf s → PutIfAbsent k v s = Ret b s' →
  wf s' ∧ b = negb (refuses s k v) && bool_decide (view s !! k = None) ∧
  if b then stored k v (view s) (view s') else view s' = view s.
Proof.
  intros Hwf E. destruct (exec_contract s (OpPutIfAbsent k v) (RBool b) s' Hwf) as (Hwf' & _ & Hc).
  { cbn. by rewrite fmap_prog, E. }
  destruct b.
  - destruct Hc as (-> & -> & Hc). done.
  - destruct Hc as [[->|[u ->]] Hc]; [done|]. by rewrite andb_false_r.
Qed.

Lemma Get_spec k s o s' :
  wf s → Get k s = Ret o s' →
  wf s' ∧ o = view s !! k ∧ view s' = view s ∧ refuses s' = refuses s.
Proof.
  intros Hwf E. destruct (exec_contract s (OpGet k) (RValue o) s' Hwf) as (Hwf' & Hb & Hc).
  { cbn. by rewrite fmap_prog, E. }
  by destruct Hc.
Qed.

Lemma Get_items_spec keys out s r s' :
  wf s → Get_items keys out s = Ret r s' →
  wf s' ∧ view s' = view s ∧
  r = out ++ mjoin (omap (λ k, value_item k <$> view s !! k) keys).
Proof.
  revert out s. induction keys as [|k keys IH]; intros out s Hwf; cbn [Get_items].
  - intros E. injection E as <- <-. by rewrite app_nil_r.
  - intros E. bind_inv E. destruct (Get_spec _ _ _ _ Hwf E0) as (Hwf1 & -> & Hv & Hb).
    cbn [omap list_omap]. destruct (view s !! k) as [v|] eqn:Hk; cbn [fmap option_fmap option_map];
      destruct (IH _ _ Hwf1 E) as (Hwf' & Hv' & ->); rewrite Hv', Hv; [|done].
    by rewrite <-app_assoc.
Qed.

(** Every command keeps a storage well-formed and does what it promises. *)
Lemma Execute_spec c args s out s' :
  wf s → Execute c args s = Ret out s' →
  wf s' ∧ executed (refuses s) (view s) c args out (view s').
Proof.
  intros Hwf E. destruct c as [i|i|i|i|keys|]; cbn [Execute executed] in *.
  - bind_inv E. injection E as <- <-. by destruct (Put_spec _ _ _ _ _ Hwf E0) as (? & _ & ?).
  - bind_inv E. destruct (PutIfAbsent_spec _ _ _ _ _ Hwf E0) as (Hwf' & -> & Hc).
    injection E as <- <-. split; [done|].
    destruct (refuses s (_key i) args); cbn in *; [done|].
    by destruct (view s !! _key i).
  - bind_inv E. destruct (Get_spec _ _ _ _ Hwf E0) as (Hwf1 & -> & Hv & Hb).
    destruct (view s !! _key i) as [v|]; [|by injection E as <- <-].
    bind_inv E. injection E as <- <-. rewrite <-Hv, <-Hb.
    by destruct (Put_spec _ _ _ _ _ Hwf1 E1) as (? & _ & ?).
  - bind_inv E. destruct (Get_spec _ _ _ _ Hwf E0) as (Hwf1 & -> & Hv & Hb).
    destruct (view s !! _key i) as [v|] eqn:Hk; [|by injection E as <- <-].
    bind_inv E. injection E as <- <-. rewrite <-Hv, <-Hb.
    destruct (Set_spec _ _ _ _ _ Hwf1 (ltac:(rewrite Hv; by exists v)) E1) as (? & _ & ?). done.
  - bind_inv E. injection E as <- <-.
    by destruct (Get_items_spec _ _ _ _ _ Hwf E0) as (Hwf' & Hv & ->).
  - by injection E as <- <-.
Qed.

End facts.

(** ** Reading a reply *)

Lemma strip_app x s : strip x (x ++ s) = Some s.
Proof. unfold strip. by rewrite take_app_length, decide_True, drop_app_length by done. Qed.

Lemma split_at_app d x s : d ∉ x → split_at d (x ++ d :: s) = Some (x, s).
Proof.
  induction x as [|c x IH]; intros Hd; simpl.
  - by rewrite decide_True.
  - rewrite decide_False by set_solver. rewrite IH by set_solver. done.
Qed.

Lemma dec_no_CR z : (0 ≤ z)%Z → CR ∉ dec z.
Proof.
  intros Hz Hin. destruct (dec_spec z Hz) as (Hd & _ & _).
  by apply (proj1 (Forall_forall _ _) Hd) in Hin.
Qed.

Lemma read_item fuel k v s :
  SP ∉ k →
  read_reply (S fuel) (value_item k v ++ s) = (λ l, (k, v) :: l) <$> read_reply fuel s.
Proof.
  intros Hk. unfold value_item. rewrite <-!app_assoc. cbn [read_reply].
  rewrite decide_False by done. rewrite strip_app. cbn [mbind option_bind].
  change (lit " 0 " ++ ?x) with (SP :: lit "0 " ++ x).
  rewrite split_at_app by done. cbn [mbind option_bind].
  rewrite strip_app. cbn [mbind option_bind]. unfold CRLF. cbn [app].
  rewrite split_at_app by by apply dec_no_CR, bsize_nonneg. cbn [mbind option_bind].
  change (LF :: ?x) with ([LF] ++ x). rewrite strip_app. cbn [mbind option_bind].
  destruct (dec_spec (bsize v) (bsize_nonneg v)) as (_ & -> & _).
  unfold bsize. rewrite Nat2Z.id, take_app_length, drop_app_length by done.
  change (CR :: [LF] ++ []) with [CR; LF]. change (CR :: LF :: s) with ([CR; LF] ++ s).
  rewrite strip_app. cbn [mbind option_bind].
  by destruct (read_reply fuel s).
Qed.

Lemma read_get_reply m keys :
  Forall (λ k, SP ∉ k) keys →
  read_reply (S (length keys)) (get_reply m keys) = Some (omap (λ k, pair k <$> m !! k) keys).
Proof.
  intros Hk. unfold get_reply. generalize (le_n (length keys)).
  generalize (length keys) at 2 3 as fuel.
  induction Hk as [|k keys Hk Hks IH]; intros fuel Hf; [done|].
  cbn [omap list_omap]. destruct (m !! k) as [v|]; cbn [fmap option_fmap option_map].
  - destruct fuel as [|fuel]; [simpl in Hf; lia|]. rewrite mjoin_cons, <-app_assoc, read_item by done.
    rewrite IH by (simpl in Hf; lia). done.
  - apply IH. simpl in Hf. lia.
Qed.

(** ** Properties of the commands *)

(** C9: on every storage that keeps the contract of the interface, a command that
    returns leaves the storage well-formed, writes the reply its description
    promises, and stores exactly what it should: Set, Append and Replace the
    association whenever it is not too big for the storage (evictions of other
    keys apart), and nothing otherwise, but they reply STORED then too; Add only
    when the key is absent, and its reply tells. *)
Theorem commands_execute {S} `{StorageLaws S} (c : Command) (args : bytes) (s : S) out s' :
  wf s → Execute c args s = Ret out s' →
  wf s' ∧ executed (refuses s) (view s) c args out (view s').
Proof. intros. by apply Execute_spec. Qed.

(** C22: on every storage that keeps the contract, a client recovers from what
    [Get::Execute] writes exactly the associations of the keys it asked for that
    the storage holds, in order, whatever bytes the values hold, as long as the
    keys hold no space (the parser splits the line at the spaces); and the
    associations of the storage do not change. *)
Theorem get_reply_roundtrip {S} `{StorageLaws S} (keys : list bytes) (args : bytes) (s : S) out s' :
  Forall (λ k, SP ∉ k) keys → wf s → Execute (Get_cmd keys) args s = Ret out s' →
  read_reply (Datatypes.S (length keys)) out = Some (omap (λ k, pair k <$> view s !! k) keys) ∧
  wf s' ∧ view s' = view s.
Proof.
  intros Hk Hwf E. destruct (Execute_spec _ _ _ _ _ Hwf E) as (Hwf' & -> & Hv).
  by split; [apply read_get_reply|].
Qed.

Lemma commands_execute_witness :
  let m : gmap bytes bytes := {[ lit "k" := lit "v" ]} in
  True ∧ executed (λ _ _, false) m (Append (mk_insert (lit "k") 0 0)) (lit "w") STORED
           (<[lit "k" := lit "vw"]> m).
Proof.
  exact (commands_execute (Append (mk_insert (lit "k") 0 0)) (lit "w")
           ({[ lit "k" := lit "v" ]} : gmap bytes bytes) _ _ I eq_refl).
Defined.

Lemma get_reply_roundtrip_witness :
  let m : gmap bytes bytes := {[ lit "a" := lit "1" ++ CRLF ]} in
  ∃ out, Execute (Get_cmd [lit "b"; lit "a"]) [] m = Ret out m ∧
         read_reply 3 out = Some [(lit "a", lit "1" ++ CRLF)].
Proof.
  intros m. eexists. split; [vm_compute; reflexivity|].
  etrans; [eapply (get_reply_roundtrip [lit "b"; lit "a"] [] m)|].
  - repeat constructor; set_solver.
  - exact I.
  - vm_compute. reflexivity.
  - vm_compute. reflexivity.
Defined.
