(* ===== verification/Parser.v ===== *)
(** * The protocol parser: [Afina::Protocol::Parser]

    Model of src/sysprog/afina/src/protocol/Parser.{h,cpp}: the automaton that
    consumes the bytes of a memcached command line, and the construction of the
    command it has read. *)

From S2P Require Import Prelude Storage Commands.

(** ** Data *)

(** [enum State] *)
Inductive State : Type :=
| sCR | sLF | sName | spKey | spFlags | spExprTimeStart | spExprTime | spBytes | sgKey.

#[export] Instance State_eq_dec : EqDecision State.
Proof. solve_decision. Defined.

(** [class Parser]. The constructor leaves [negative] unwritten. *)
Record Parser : Type := mk_parser {
  state : State;
  name : bytes;
  keys : list bytes;
  flags : Z;                (* uint32_t *)
  exprtime : Z;             (* int32_t *)
  bytes_ : Z;               (* uint32_t bytes *)
  negative : option bool;
  curKey : bytes;
  parse_complete : bool;
}.

(** *** Assignments to fields *)

Definition set_state (st : State) (p : Parser) : Parser :=
  mk_parser st (name p) (keys p) (flags p) (exprtime p) (bytes_ p) (negative p) (curKey p)
    (parse_complete p).
Definition push_name (c : ascii) (p : Parser) : Parser :=
  mk_parser (state p) (name p ++ [c]) (keys p) (flags p) (exprtime p) (bytes_ p) (negative p)
    (curKey p) (parse_complete p).
Definition push_key (p : Parser) : Parser :=
  mk_parser (state p) (name p) (keys p ++ [curKey p]) (flags p) (exprtime p) (bytes_ p)
    (negative p) (curKey p) (parse_complete p).
Definition set_flags (z : Z) (p : Parser) : Parser :=
  mk_parser (state p) (name p) (keys p) z (exprtime p) (bytes_ p) (negative p) (curKey p)
    (parse_complete p).
Definition set_exprtime (z : Z) (p : Parser) : Parser :=
  mk_parser (state p) (name p) (keys p) (flags p) z (bytes_ p) (negative p) (curKey p)
    (parse_complete p).
Definition set_bytes (z : Z) (p : Parser) : Parser :=
  mk_parser (state p) (name p) (keys p) (flags p) (exprtime p) z (negative p) (curKey p)
    (parse_complete p).
Definition set_negative (b : bool) (p : Parser) : Parser :=
  mk_parser (state p) (name p) (keys p) (flags p) (exprtime p) (bytes_ p) (Some b) (curKey p)
    (parse_complete p).
Definition set_curKey (k : bytes) (p : Parser) : Parser :=
  mk_parser (state p) (name p) (keys p) (flags p) (exprtime p) (bytes_ p) (negative p) k
    (parse_complete p).
Definition set_complete (p : Parser) : Parser :=
  mk_parser (state p) (name p) (keys p) (flags p) (exprtime p) (bytes_ p) (negative p)
    (curKey p) true.

(** [void Parser::Reset()] *)
Definition Reset (p : Parser) : Parser :=
  mk_parser sName [] [] 0 0 0 (negative p) [] false.

(** [Parser()], on uninitialised storage for [negative]. *)
Definition Parser_new : Parser := mk_parser sName [] [] 0 0 0 None [] false.

(** ** Parsing *)

(** [int32_t] addition. *)
Definition add_i32 (x y : Z) : prog Parser Z :=
  if (- 2 ^ 31 <=? x + y)%Z && (x + y <? 2 ^ 31)%Z then mret (x + y)%Z
  else undef SignedOverflow.

(** [c >= '0' && c <= '9'] is [is_digit c]; [c == '\r'] and the like: *)
Definition is_char (c d : ascii) : bool := bool_decide (c = d).

(** [(int)c], for a signed [char] *)
Definition int_of_char (c : ascii) : Z :=
  let z := Z.of_N (N_of_ascii c) in if (z <? 128)%Z then z else (z - 256)%Z.

(** Output of a signed number. *)
Definition dec_int (z : Z) : bytes := if (z <? 0)%Z then lit "-" ++ dec (- z) else dec z.

Definition lf_error (c : ascii) (pos : Z) : string :=
  String.string_of_list_ascii
    (lit "Invalid char " ++ dec_int (int_of_char c) ++ lit " at position " ++ dec pos ++
     lit ", \n expected").

(** [case State::sName] *)
Definition parse_name (c : ascii) : prog Parser unit :=
  p ← get;
  if is_char c SP || is_char c CR then
    if decide (name p ∈ [lit "set"; lit "add"; lit "append"; lit "prepend"]) then
      modify (set_state spKey)
    else if decide (name p ∈ [lit "get"; lit "gets"]) then
      modify (set_state sgKey)
    else if decide (name p = lit "stats") then
      modify (set_state sLF)
    else throw (String.string_of_list_ascii (lit "Unknown command name: " ++ name p))
  else modify (push_name c).

(** [case State::spKey] *)
Definition parse_spKey (c : ascii) : prog Parser unit :=
  if is_char c SP then modify (set_state spFlags);; modify push_key
  else p ← get; modify (set_curKey (curKey p ++ [c])).

(** [case State::sgKey] *)
Definition parse_sgKey (c : ascii) : prog Parser unit :=
  if is_char c CR then
    modify push_key;;
    p ← get;
    if decide (length (keys p) = 0) then throw "Client provides no key to retrive"
    else modify (set_curKey []);; modify (set_state sLF)
  else if is_char c SP then
    modify (set_state sgKey);; modify push_key;; modify (set_curKey [])
  else p ← get; modify (set_curKey (curKey p ++ [c])).

(** [case State::spFlags] *)
Definition parse_flags (c : ascii) : prog Parser unit :=
  if is_char c SP then modify (set_negative false);; modify (set_state spExprTimeStart)
  else if is_digit c then
    p ← get;
    let f := wrap32 (wrap32 (flags p * 10) + digit c) in
    if (f <? flags p)%Z then throw "Flags field overflow"
    else modify (set_flags f)
  else mret tt.

(** [case State::spExprTimeStart] *)
Definition parse_exprtime_start (c : ascii) : prog Parser unit :=
  if is_char c "-"%char then modify (set_negative true);; modify (set_state spExprTime)
  else if is_digit c then modify (set_exprtime (digit c));; modify (set_state spExprTime)
  else mret tt.

(** [case State::spExprTime] *)
Definition parse_exprtime (c : ascii) : prog Parser unit :=
  if is_char c SP then modify (set_state spBytes)
  else if is_digit c then
    p ← get;
    neg ← the Uninitialised (negative p);
    if neg : bool then
      et ← add_i32 (exprtime p) (- digit c);
      if (exprtime p <? et)%Z then throw "Expire time field overflow"
      else modify (set_exprtime et)
    else
      et ← add_i32 (exprtime p) (digit c);
      if (et <? exprtime p)%Z then throw "Expire time field overflow"
      else modify (set_exprtime et)
  else mret tt.

(** [case State::spBytes] *)
Definition parse_bytes (c : ascii) : prog Parser unit :=
  if is_char c CR then modify (set_state sLF)
  else if is_digit c then
    p ← get;
    let b := wrap32 (wrap32 (bytes_ p * 10) + digit c) in
    if (b <? bytes_ p)%Z then throw "Bytes field overflow"
    else modify (set_bytes b)
  else mret tt.

(** [case State::sLF] *)
Definition parse_LF (c : ascii) (pos : Z) : prog Parser unit :=
  if is_char c LF then modify set_complete else throw (lf_error c pos).

(** The body of the loop of [Parse]: the byte [c] at position [pos]. *)
Definition parse_char (c : ascii) (pos : Z) : prog Parser unit := λ p,
  match state p with
  | sName => parse_name c p
  | spKey => parse_spKey c p
  | sgKey => parse_sgKey c p
  | spFlags => parse_flags c p
  | spExprTimeStart => parse_exprtime_start c p
  | spExprTime => parse_exprtime c p
  | spBytes => parse_bytes c p
  | sLF => parse_LF c pos p
  | sCR => throw "Unknown state" p
  end.

(** [for (pos = 0; pos < size && !parse_complete; pos++)]: the final [pos]. *)
Fixpoint parse_loop (input : bytes) (pos : Z) : prog Parser Z := λ p,
  match input with
  | [] => Ret pos p
  | c :: input =>
    if parse_complete p then Ret pos p
    else (parse_char c pos;; parse_loop input (pos + 1)%Z) p
  end.

(** [bool Parser::Parse(const char *input, const size_t size, size_t &parsed)]:
    the result and the number of bytes consumed. *)
Definition Parse (input : bytes) : prog Parser (bool * Z) :=
  parsed ← parse_loop input 0;
  complete ← gets parse_complete;
  mret (complete, parsed).

(** [keys[0]] *)
Definition keys_0 : prog Parser bytes := gets keys ≫= λ ks, the OutOfBounds (head ks).

(** [std::unique_ptr<Execute::Command> Parser::Build(size_t &body_size) const]:
    the command and the size of its body, or null. *)
Definition Build : prog Parser (option (Command * Z)) :=
  p ← get;
  if decide (state p ≠ sLF) then mret None
  else
    if decide (name p = lit "set") then
      k ← keys_0; mret (Some (Set_cmd (mk_insert k (flags p) (exprtime p)), bytes_ p))
    else if decide (name p = lit "add") then
      k ← keys_0; mret (Some (Add (mk_insert k (flags p) (exprtime p)), bytes_ p))
    else if decide (name p = lit "append") then
      k ← keys_0; mret (Some (Append (mk_insert k (flags p) (exprtime p)), bytes_ p))
    else if decide (name p = lit "get") then
      mret (Some (Get_cmd (keys p), bytes_ p))
    else if decide (name p = lit "stats") then
      mret (Some (Stats, bytes_ p))
    else throw "Unsupported command".

(** ** Requests *)

(** A request line as a client writes it: a command and the size of its data. *)
Definition print_insert (name : bytes) (i : InsertCommand) (size : Z) : bytes :=
  name ++ [SP] ++ _key i ++ [SP] ++ dec (_flags i) ++ [SP] ++ dec_int (_expire i) ++ [SP] ++
  dec size ++ CRLF.

Definition print_get (key : bytes) (keys : list bytes) : bytes :=
  lit "get " ++ key ++ mjoin ((λ k, [SP] ++ k) <$> keys) ++ CRLF.

(** The sum of a sequence of digits. *)
Definition digit_sum (s : bytes) : Z := foldr (λ c z, digit c + z)%Z 0%Z s.

(** What the parser makes of an expiration time: the sum of its digits. *)
Definition exprtime_read (z : Z) : Z :=
  if (z <? 0)%Z then (- digit_sum (dec (- z)))%Z else digit_sum (dec z).

(** The same command with the expiration time that was read. *)
Definition insert_read (i : InsertCommand) : InsertCommand :=
  mk_insert (_key i) (_flags i) (exprtime_read (_expire i)).

(** ** Well-formed parsers *)

Definition insert_names : list bytes := [lit "set"; lit "add"; lit "append"; lit "prepend"].
Definition get_names : list bytes := [lit "get"; lit "gets"].

(** What the state says of the fields read so far. *)
Definition fields_ok (p : Parser) : Prop :=
  match state p with
  | sName => keys p = []
  | spKey => name p ∈ insert_names ∧ keys p = []
  | spFlags | spBytes => name p ∈ insert_names ∧ length (keys p) = 1
  | spExprTimeStart | spExprTime =>
    name p ∈ insert_names ∧ length (keys p) = 1 ∧ is_Some (negative p)
  | sgKey => name p ∈ get_names
  | sLF => name p ∈ insert_names ∧ length (keys p) = 1 ∨
           name p ∈ get_names ∧ keys p ≠ [] ∨ name p = lit "stats"
  | sCR => False
  end.

(** The parser after [n] bytes of a line. *)
Record parser_ok (n : Z) (p : Parser) : Prop := mk_parser_ok {
  ok_fields : fields_ok p;
  ok_complete : parse_complete p = true → state p = sLF;
  ok_flags : u32_range (flags p);
  ok_bytes : u32_range (bytes_ p);
  ok_exprtime : (Z.abs (exprtime p) ≤ 9 * n)%Z;
}.

(** ** Facts *)

Section parser_facts.
Implicit Types (p : Parser) (x y : bytes).

Lemma is_char_true c d : is_char c d = true ↔ c = d.
Proof. unfold is_char. apply bool_decide_eq_true. Qed.

Lemma is_char_refl c : is_char c c = true.
Proof. by apply is_char_true. Qed.

Lemma is_char_ne c d : c ≠ d → is_char c d = false.
Proof. intros. by apply bool_decide_eq_false. Qed.

Lemma digit_not c d : is_digit c = true → is_digit d = false → is_char c d = false.
Proof. intros Hc Hd. apply is_char_ne. intros ->. congruence. Qed.

Lemma digit_range c : is_digit c = true → (0 ≤ digit c ≤ 9)%Z.
Proof. unfold is_digit, digit. intros [H1%N.leb_le H2%N.leb_le]%andb_true_iff. lia. Qed.

(** *** The loop *)

Lemma parse_loop_complete x pos p : parse_complete p = true → parse_loop x pos p = Ret pos p.
Proof. destruct x; simpl; [done|]. by intros ->. Qed.

Lemma parse_loop_cons c x pos p :
  parse_complete p = false →
  parse_loop (c :: x) pos p = (parse_char c pos;; parse_loop x (pos + 1)%Z) p.
Proof. intros H. simpl. by rewrite H. Qed.

Lemma parse_loop_app x y pos p :
  parse_loop (x ++ y) pos p = (pos' ← parse_loop x pos; parse_loop y pos') p.
Proof.
  revert pos p. induction x as [|c x IH]; intros pos p; [done|].
  destruct (parse_complete p) eqn:E.
  - unfold mbind, prog_bind. by rewrite !parse_loop_complete by done.
  - cbn [app]. rewrite parse_loop_cons by done. unfold mbind, prog_bind.
    rewrite (parse_loop_cons _ x) by done. unfold mbind, prog_bind.
    destruct (parse_char c pos p) as [[] p'| | |]; done.
Qed.

(** The position only shows in the text of an exception. *)
Lemma parse_char_pos c pos pos' p :
  erase_message (parse_char c pos p) = erase_message (parse_char c pos' p).
Proof. unfold parse_char. destruct (state p); try done. unfold parse_LF. by destruct is_char. Qed.

Lemma parse_char_ret c pos pos' p u p' :
  parse_char c pos p = Ret u p' → parse_char c pos' p = Ret u p'.
Proof.
  intros H. pose proof (parse_char_pos c pos pos' p) as He. rewrite H in He.
  destruct (parse_char c pos' p); simpl in He; congruence.
Qed.

Lemma parse_loop_pos x pos d p :
  erase_message (parse_loop x (pos + d)%Z p) =
  erase_message ((n ← parse_loop x pos; mret (n + d)%Z) p).
Proof.
  revert pos p. induction x as [|c x IH]; intros pos p; [done|].
  unfold mbind, prog_bind. simpl. destruct (parse_complete p); [done|].
  unfold mbind, prog_bind.
  pose proof (parse_char_pos c (pos + d)%Z pos p) as He.
  destruct (parse_char c (pos + d)%Z p) as [u1 p1|e1 p1|u1|],
    (parse_char c pos p) as [u2 p2|e2 p2|u2|]; simpl in He; try congruence.
  - injection He as -> ->. replace (pos + d + 1)%Z with (pos + 1 + d)%Z by lia. apply IH.
  - simpl. congruence.
Qed.

(** *** Safety *)

Lemma add_i32_ok a b p :
  (- 2 ^ 31 ≤ a + b < 2 ^ 31)%Z → add_i32 a b p = Ret (a + b)%Z p.
Proof. intros. unfold add_i32. by rewrite (proj2 (Z.leb_le _ _)), (proj2 (Z.ltb_lt _ _)) by lia. Qed.

Lemma wrap32_range z : u32_range (wrap32 z).
Proof. apply wrap_range. lia. Qed.

Lemma Reset_ok p : parser_ok 0 (Reset p).
Proof. by split. Qed.

Lemma new_ok : parser_ok 0 Parser_new.
Proof. by split. Qed.

(** What a computation may do from a parser after [n] bytes. *)
Definition safe_step (n : Z) (r : res Parser unit) : Prop :=
  match r with
  | Ret _ p | Throw _ p => parser_ok n p
  | Undef _ | NoFuel => False
  end.

(** Well-formedness of a parser whose fields are known. *)
Ltac step_ok :=
  cbn; split; unfold fields_ok; cbn in *; destruct_and?; split_and?;
  try done; try lia; eauto using wrap32_range.

(** One byte keeps the parser well-formed, whether it is accepted or refused. *)
Lemma parse_char_safe n c pos p :
  (0 ≤ n)%Z → (9 * (n + 1) < 2 ^ 31)%Z → parser_ok n p → parse_complete p = false →
  safe_step (n + 1) (parse_char c pos p).
Proof.
  intros Hn Hb [Hf Hc Hfl Hby He] Hpc.
  assert (Z.abs (exprtime p) ≤ 9 * (n + 1))%Z as He' by lia.
  destruct p as [st nm ks fl et bs ng ck pc]. unfold parse_char. cbn in *. subst pc.
  destruct st; unfold fields_ok in Hf; cbn in Hf; try done; clear Hc.
  - unfold parse_LF. destruct is_char; step_ok.
  - unfold parse_name. destruct (_ || _).
    + unfold mbind, prog_bind, get. cbn [name]. case_decide as E1; [step_ok|].
      case_decide as E2; [step_ok|]. case_decide as E3; step_ok.
    + step_ok.
  - unfold parse_spKey. destruct Hf as [Hnm ->]. destruct is_char; step_ok.
  - unfold parse_flags. destruct is_char; [step_ok|]. destruct is_digit; [|step_ok].
    unfold mbind, prog_bind, get. cbn. case_match; step_ok.
  - unfold parse_exprtime_start. destruct is_char; [step_ok|].
    destruct (is_digit c) eqn:E; [|step_ok]. apply digit_range in E. step_ok.
  - unfold parse_exprtime. destruct Hf as (Hnm & Hk & [ng' ->]). destruct is_char; [step_ok|].
    destruct (is_digit c) eqn:E; [|step_ok]. apply digit_range in E.
    unfold mbind, prog_bind, get. cbn.
    destruct ng'; rewrite add_i32_ok by lia; case_match; step_ok.
  - unfold parse_bytes. destruct is_char; [step_ok|]. destruct is_digit; [|step_ok].
    unfold mbind, prog_bind, get. cbn. case_match; step_ok.
  - unfold parse_sgKey. destruct is_char.
    + unfold mbind, prog_bind, get. cbn [modify push_key keys curKey].
      case_decide as E; step_ok. right; left. split; [done|]. by destruct ks.
    + destruct is_char; step_ok.
Qed.

End parser_facts.

Section parse_facts.
Implicit Types (p : Parser) (x y : bytes).

Lemma parser_ok_mono n m p : (n ≤ m)%Z → parser_ok n p → parser_ok m p.
Proof. intros Hnm []. split; auto; lia. Qed.

(** The loop consumes a prefix of its input, all of it when no line is complete. *)
Lemma parse_loop_safe n x pos p :
  (0 ≤ n)%Z → (9 * (n + bsize x) < 2 ^ 31)%Z → parser_ok n p →
  match parse_loop x pos p with
  | Ret m p' => parser_ok (n + bsize x) p' ∧ (pos ≤ m ≤ pos + bsize x)%Z ∧
                (parse_complete p' = false → m = pos + bsize x)%Z
  | Throw _ p' => parser_ok (n + bsize x) p'
  | Undef _ | NoFuel => False
  end.
Proof.
  revert n pos p. induction x as [|c x IH]; intros n pos p Hn Hb Hok.
  - simpl. rewrite bsize_nil, !Z.add_0_r. split_and!; [done|lia..].
  - pose proof (bsize_nonneg x). rewrite bsize_cons in *.
    destruct (parse_complete p) eqn:Hpc.
    + rewrite parse_loop_complete by done. split_and!; [|lia..|congruence].
      eapply parser_ok_mono; [|done]. lia.
    + rewrite parse_loop_cons by done.
      pose proof (parse_char_safe n c pos p Hn ltac:(lia) Hok Hpc) as Hs.
      unfold mbind, prog_bind. destruct (parse_char c pos p) as [[] p1|e p1| |]; try done.
      * specialize (IH (n + 1)%Z (pos + 1)%Z p1 ltac:(lia) ltac:(lia) Hs).
        replace (n + (1 + bsize x))%Z with (n + 1 + bsize x)%Z by lia.
        destruct (parse_loop x (pos + 1) p1); try done.
        destruct IH as (? & ? & Hall). split_and!; [done|lia..|intros ->%Hall; lia].
      * simpl in Hs. eapply parser_ok_mono; [|done]. lia.
Qed.

(** Only a line feed completes a line. *)
Lemma parse_char_completes c pos p u p' :
  parse_char c pos p = Ret u p' → parse_complete p = false → parse_complete p' = true → c = LF.
Proof.
  intros E Hpc Hpc'. destruct p as [st nm ks fl et bs ng ck pc]. unfold parse_char in E.
  cbn in *. destruct st; cbn in E; try done;
    unfold parse_name, parse_spKey, parse_sgKey, parse_flags, parse_exprtime_start,
      parse_exprtime, parse_bytes, parse_LF, add_i32, the,
      mbind, prog_bind, mret, prog_ret, get, modify, throw, undef in E;
    repeat case_match; cbn in *; simplify_eq/=; try congruence.
  by apply is_char_true.
Qed.

(** When [Parse] completes a line, it stops behind the line feed that ends it. *)
Lemma parse_loop_stops x pos p m p' :
  parse_complete p = false → parse_loop x pos p = Ret m p' → parse_complete p' = true →
  ∃ y z, x = y ++ [LF] ++ z ∧ (m = pos + bsize y + 1)%Z ∧
         parse_loop (y ++ [LF]) pos p = Ret m p'.
Proof.
  revert pos p. induction x as [|c x IH]; intros pos p Hpc.
  - simpl. intros. simplify_eq. congruence.
  - rewrite parse_loop_cons by done. intros E Hpc'. bind_inv E.
    destruct (parse_complete s) eqn:Hs.
    + rewrite parse_loop_complete in E by done. injection E as <- <-.
      exists [], x. assert (c = LF) as ->.
      { by eapply parse_char_completes. }
      split; [done|]. rewrite bsize_nil. split; [lia|].
      cbn [app]. rewrite parse_loop_cons by done. rewrite (bind_ret _ _ _ _ _ E0).
      by rewrite parse_loop_complete.
    + destruct (IH _ _ Hs E Hpc') as (y & z & -> & -> & E').
      exists (c :: y), z. rewrite bsize_cons. split; [done|]. split; [lia|].
      cbn [app]. rewrite parse_loop_cons by done. by rewrite (bind_ret _ _ _ _ _ E0).
Qed.

(** [Build] on a well-formed parser. *)
Lemma Build_ok n p :
  parser_ok n p →
  match Build p with
  | Ret None p' => p' = p ∧ state p ≠ sLF
  | Ret (Some (c, size)) p' => p' = p ∧ state p = sLF ∧ size = bytes_ p
  | Throw e p' => p' = p ∧ e = "Unsupported command" ∧ name p ∈ [lit "prepend"; lit "gets"]
  | Undef _ | NoFuel => False
  end.
Proof.
  intros [Hf _ _ _ _]. unfold Build. unfold mbind, prog_bind, get.
  destruct (decide (state p ≠ sLF)) as [Hst|Hst]; [done|]. apply dec_stable in Hst.
  unfold fields_ok in Hf. rewrite Hst in Hf.
  unfold keys_0, gets, mbind, prog_bind.
  destruct (decide (name p = lit "set")) as [Hs|Hs];
    [|destruct (decide (name p = lit "add")) as [Ha|Ha];
      [|destruct (decide (name p = lit "append")) as [Hp|Hp];
        [|destruct (decide (name p = lit "get")) as [Hg|Hg]; [done|
           destruct (decide (name p = lit "stats")) as [Ht|Ht]; [done|]]]]].
  4: { cbn. split_and!; [done..|]. destruct Hf as [[Hf _]|[[Hf _]|Hf]]; [..|done];
       unfold insert_names, get_names in Hf; set_solver. }
  all: destruct (keys p) as [|k ks]; [|done]; exfalso;
    destruct Hf as [[_ Hf]|[[_ Hf]|Hf]]; [done|done|]; cbn in *; congruence.
Qed.

End parse_facts.

(** ** Reading what a client writes *)

Section roundtrip_facts.
Implicit Types (x y : bytes).

(** A byte that is accepted. *)
Lemma parse_step c x pos p p' :
  parse_complete p = false → parse_char c pos p = Ret tt p' →
  parse_loop (c :: x) pos p = parse_loop x (pos + 1)%Z p'.
Proof. intros Hpc E. rewrite parse_loop_cons by done. by rewrite (bind_ret _ _ _ _ _ E). Qed.

(** A field: the parser [f s] has read the bytes [s] of it. *)
Lemma read_field (f : bytes → Parser) s y pos :
  (∀ s1 c s2, s = s1 ++ c :: s2 →
     parse_complete (f s1) = false ∧ ∀ pos, parse_char c pos (f s1) = Ret tt (f (s1 ++ [c]))) →
  parse_loop (s ++ y) pos (f []) = parse_loop y (pos + bsize s)%Z (f s).
Proof.
  revert f pos. induction s as [|c s IH]; intros f pos Hf.
  - by rewrite bsize_nil, Z.add_0_r.
  - destruct (Hf [] c s) as [Hpc Hc]; [done|]. cbn [app].
    rewrite (parse_step _ _ _ _ _ Hpc (Hc _)). rewrite (IH (λ s, f (c :: s))).
    + rewrite bsize_cons. f_equal. lia.
    + intros s1 c' s2 ->. by apply (Hf (c :: s1) c' s2).
Qed.

Lemma is_char_Forall (P : ascii → Prop) d s1 c s2 :
  Forall (λ c, c ≠ d ∧ P c) (s1 ++ c :: s2) → is_char c d = false ∧ P c.
Proof. rewrite Forall_app, Forall_cons. intros (_ & [? ?] & _). by rewrite is_char_ne. Qed.

Lemma read_name s y pos ks fl et bs ng ck :
  Forall (λ c, c ≠ SP ∧ c ≠ CR) s →
  parse_loop (s ++ y) pos (mk_parser sName [] ks fl et bs ng ck false) =
  parse_loop y (pos + bsize s)%Z (mk_parser sName s ks fl et bs ng ck false).
Proof.
  intros Hs. apply (read_field (λ s, mk_parser sName s ks fl et bs ng ck false)).
  intros s1 c s2 ->. split; [done|]. intros pos'.
  apply is_char_Forall in Hs as [Hsp Hcr]. unfold parse_char, parse_name. cbn.
  by rewrite Hsp, (is_char_ne _ _ Hcr).
Qed.

Lemma read_spKey s y pos nm ks fl et bs ng :
  Forall (λ c, c ≠ SP) s →
  parse_loop (s ++ y) pos (mk_parser spKey nm ks fl et bs ng [] false) =
  parse_loop y (pos + bsize s)%Z (mk_parser spKey nm ks fl et bs ng s false).
Proof.
  intros Hs. apply (read_field (λ s, mk_parser spKey nm ks fl et bs ng s false)).
  intros s1 c s2 ->. split; [done|]. intros pos'.
  apply Forall_app in Hs as [_ [Hc _]%Forall_cons].
  unfold parse_char, parse_spKey. cbn. by rewrite is_char_ne.
Qed.

Lemma read_sgKey s y pos nm ks fl et bs ng :
  Forall (λ c, c ≠ SP ∧ c ≠ CR) s →
  parse_loop (s ++ y) pos (mk_parser sgKey nm ks fl et bs ng [] false) =
  parse_loop y (pos + bsize s)%Z (mk_parser sgKey nm ks fl et bs ng s false).
Proof.
  intros Hs. apply (read_field (λ s, mk_parser sgKey nm ks fl et bs ng s false)).
  intros s1 c s2 ->. split; [done|]. intros pos'.
  apply is_char_Forall in Hs as [Hsp Hcr]. unfold parse_char, parse_sgKey. cbn.
  by rewrite Hsp, (is_char_ne _ _ Hcr).
Qed.

(** *** Numbers *)

Lemma digits_from_mono a s : (0 ≤ a)%Z → Forall is_digit s → (a ≤ digits_from a s)%Z.
Proof.
  intros Ha Hs. revert a Ha. induction Hs as [|c s Hc Hs IH]; intros a Ha; [done|].
  change (digits_from a (c :: s)) with (digits_from (10 * a + digit c)%Z s).
  apply Is_true_true, digit_range in Hc. specialize (IH (10 * a + digit c)%Z). lia.
Qed.

(** One more digit of an unsigned field, when the whole number fits in 32 bits. *)
Lemma digit_fits a s1 c s2 :
  (0 ≤ a)%Z → Forall is_digit (s1 ++ c :: s2) → (digits_from a (s1 ++ c :: s2) < 2 ^ 32)%Z →
  is_digit c = true ∧
  wrap32 (wrap32 (digits_from a s1 * 10) + digit c) = digits_from a (s1 ++ [c]) ∧
  (digits_from a (s1 ++ [c]) <? digits_from a s1)%Z = false.
Proof.
  intros Ha Hs Hfit. rewrite cons_middle in Hs, Hfit.
  apply Forall_app in Hs as [Hs1 [[Hc _]%Forall_cons Hs2]%Forall_app].
  apply Is_true_true in Hc. pose proof (digit_range _ Hc).
  pose proof (digits_from_mono a s1 Ha Hs1). rewrite !digits_from_app in *.
  cbn in *. pose proof (digits_from_mono (10 * digits_from a s1 + digit c) s2 ltac:(lia) Hs2).
  unfold digits_from in *.
  split; [done|]. split; [rewrite wrap_add_l, wrap_small; lia|]. apply Z.ltb_ge. lia.
Qed.

Lemma read_flags s y pos nm ks et bs ng ck fl :
  (0 ≤ fl)%Z → Forall is_digit s → (digits_from fl s < 2 ^ 32)%Z →
  parse_loop (s ++ y) pos (mk_parser spFlags nm ks fl et bs ng ck false) =
  parse_loop y (pos + bsize s)%Z (mk_parser spFlags nm ks (digits_from fl s) et bs ng ck false).
Proof.
  intros Hfl Hs Hfit.
  apply (read_field (λ s, mk_parser spFlags nm ks (digits_from fl s) et bs ng ck false)).
  intros s1 c s2 ->. split; [done|]. intros pos'.
  destruct (digit_fits fl s1 c s2 Hfl Hs Hfit) as (Hd & Hw & Hlt).
  unfold parse_char, parse_flags. cbn [state].
  rewrite (digit_not _ _ Hd), Hd by done. unfold mbind, prog_bind, get. cbn [flags].
  by rewrite Hw, Hlt.
Qed.

Lemma read_bytes s y pos nm ks et fl ng ck bs :
  (0 ≤ bs)%Z → Forall is_digit s → (digits_from bs s < 2 ^ 32)%Z →
  parse_loop (s ++ y) pos (mk_parser spBytes nm ks fl et bs ng ck false) =
  parse_loop y (pos + bsize s)%Z (mk_parser spBytes nm ks fl et (digits_from bs s) ng ck false).
Proof.
  intros Hfl Hs Hfit.
  apply (read_field (λ s, mk_parser spBytes nm ks fl et (digits_from bs s) ng ck false)).
  intros s1 c s2 ->. split; [done|]. intros pos'.
  destruct (digit_fits bs s1 c s2 Hfl Hs Hfit) as (Hd & Hw & Hlt).
  unfold parse_char, parse_bytes. cbn [state].
  rewrite (digit_not _ _ Hd), Hd by done. unfold mbind, prog_bind, get. cbn [bytes_].
  by rewrite Hw, Hlt.
Qed.

Lemma digit_sum_app s t : digit_sum (s ++ t) = (digit_sum s + digit_sum t)%Z.
Proof. induction s as [|c s IH]; simpl; lia. Qed.

Lemma digit_sum_bounds s : Forall is_digit s → (0 ≤ digit_sum s ≤ 9 * bsize s)%Z.
Proof.
  induction 1 as [|c s Hc Hs IH]; [done|]. rewrite bsize_cons. simpl.
  apply Is_true_true, digit_range in Hc. lia.
Qed.

(** The digits of an expiration time, each added to or taken from the field. *)
Lemma read_exprtime (neg : bool) s y pos nm ks et fl bs ck :
  let sgn := if neg then (-1)%Z else 1%Z in
  Forall is_digit s → (Z.abs et + digit_sum s < 2 ^ 31)%Z →
  parse_loop (s ++ y) pos (mk_parser spExprTime nm ks fl et bs (Some neg) ck false) =
  parse_loop y (pos + bsize s)%Z
    (mk_parser spExprTime nm ks fl (et + sgn * digit_sum s)%Z bs (Some neg) ck false).
Proof.
  intros sgn Hs Hfit.
  replace et with (et + sgn * digit_sum [])%Z at 1 by (simpl; lia).
  apply (read_field (λ s,
    mk_parser spExprTime nm ks fl (et + sgn * digit_sum s)%Z bs (Some neg) ck false)).
  intros s1 c s2 ->. split; [done|]. intros pos'.
  rewrite cons_middle in Hs, Hfit. rewrite !digit_sum_app in *.
  apply Forall_app in Hs as [Hs1 [[Hc _]%Forall_cons Hs2]%Forall_app].
  apply Is_true_true in Hc. pose proof (digit_range _ Hc).
  pose proof (digit_sum_bounds _ Hs1). pose proof (digit_sum_bounds _ Hs2). simpl in Hfit.
  unfold parse_char, parse_exprtime. cbn [state].
  rewrite (digit_not _ _ Hc), Hc by done. unfold mbind, prog_bind, get.
  cbn [negative the mret prog_ret exprtime].
  destruct neg; subst sgn; rewrite add_i32_ok by lia; rewrite (proj2 (Z.ltb_ge _ _)) by lia;
    unfold modify, set_exprtime; cbn; do 2 f_equal; lia.
Qed.


(** *** Lines *)

Ltac fields :=
  unfold set_state, push_name, push_key, set_flags, set_exprtime, set_bytes, set_negative,
    set_curKey, set_complete;
  cbn [state name keys flags exprtime bytes_ negative curKey parse_complete].
(** Read the next byte. *)
Ltac read1 := erewrite parse_step by done; fields.

Lemma digit_sum_le a s : (0 ≤ a)%Z → Forall is_digit s → (a + digit_sum s ≤ digits_from a s)%Z.
Proof.
  intros Ha Hs. revert a Ha. induction Hs as [|c s Hc Hs IH]; intros a Ha; [simpl; lia|].
  change (digits_from a (c :: s)) with (digits_from (10 * a + digit c)%Z s).
  apply Is_true_true, digit_range in Hc. specialize (IH (10 * a + digit c)%Z). simpl. lia.
Qed.

Lemma digit_sum_dec z : (0 ≤ z)%Z → (digit_sum (dec z) ≤ z)%Z.
Proof.
  intros Hz. destruct (dec_spec z Hz) as (Hd & Hv & _).
  pose proof (digit_sum_le 0 (dec z) ltac:(lia) Hd). lia.
Qed.

(** The expiration time of a line, up to the space behind it. *)
Lemma read_exprtime_field z y pos nm ks fl bs ck :
  (Z.abs z < 2 ^ 31)%Z →
  ∃ ng, parse_loop (dec_int z ++ [SP] ++ y) pos
          (mk_parser spExprTimeStart nm ks fl 0 bs (Some false) ck false) =
        parse_loop y (pos + bsize (dec_int z) + 1)%Z
          (mk_parser spBytes nm ks fl (exprtime_read z) bs ng ck false).
Proof.
  intros Hz. unfold dec_int, exprtime_read. destruct (Z.ltb_spec z 0) as [Hneg|Hpos].
  - exists (Some true). destruct (dec_spec (- z)) as (Hd & _ & _); [lia|].
    pose proof (digit_sum_dec (- z) ltac:(lia)).
    change (lit "-" ++ dec (- z)) with ("-"%char :: dec (- z)). rewrite <-app_comm_cons.
    read1. rewrite (read_exprtime true) by (try done; simpl; lia).
    cbn [app]. read1. rewrite bsize_cons. repeat (f_equal; try lia).
  - exists (Some false). destruct (dec_spec z) as (Hd & _ & Hne); [lia|].
    pose proof (digit_sum_dec z ltac:(lia)) as Hsum. destruct (dec z) as [|c s]; [done|].
    apply Forall_cons in Hd as [Hc Hd]. apply Is_true_true in Hc. simpl in Hsum.
    pose proof (digit_range _ Hc). pose proof (digit_sum_bounds _ Hd).
    rewrite <-app_comm_cons.
    erewrite parse_step; [|done|].
    2: { unfold parse_char, parse_exprtime_start. cbn [state].
         by rewrite (digit_not _ _ Hc), Hc by done. }
    fields. rewrite (read_exprtime false) by (try done; lia).
    cbn [app]. read1. rewrite bsize_cons. f_equal; [lia|f_equal].
    change (digit_sum (c :: s)) with (digit c + digit_sum s)%Z. lia.
Qed.

(** The parser after the line of a storing command. *)
Lemma parse_insert nm i size y p :
  nm ∈ insert_names → Forall (λ c, c ≠ SP) (_key i) → u32_range (_flags i) →
  (Z.abs (_expire i) < 2 ^ 31)%Z → u32_range size →
  ∃ ng, parse_loop (print_insert nm i size ++ y) 0 (Reset p) =
        Ret (bsize (print_insert nm i size))
            (mk_parser sLF nm [_key i] (_flags i) (exprtime_read (_expire i)) size ng (_key i) true).
Proof.
  intros Hnm Hk [Hf0 Hf] He [Hs0 Hs]. unfold print_insert. rewrite <-!app_assoc.
  destruct (dec_spec (_flags i) Hf0) as (Hfd & Hfv & _).
  destruct (dec_spec size Hs0) as (Hsd & Hsv & _).
  unfold Reset. rewrite read_name.
  2: { unfold insert_names in Hnm.
       repeat (apply elem_of_cons in Hnm as [->|Hnm]; [by repeat constructor|]). set_solver. }
  cbn [app]. erewrite parse_step; [|done|].
  2: { unfold parse_char, parse_name. cbn [state]. rewrite is_char_refl. cbn [orb].
       unfold mbind, prog_bind, get. cbn [name]. by rewrite decide_True. }
  fields. rewrite read_spKey by done. cbn [app]. read1.
  rewrite read_flags by (try done; lia). cbn [app]. read1.
  destruct (read_exprtime_field (_expire i) (dec size ++ CRLF ++ y)
    (0 + bsize nm + 1 + bsize (_key i) + 1 + bsize (dec (_flags i)) + 1)%Z
    nm [_key i] (digits_from 0 (dec (_flags i))) 0 (_key i) He) as [ng E].
  exists ng. cbn [app] in E. rewrite E, read_bytes by (try done; lia).
  unfold CRLF. cbn [app]. read1. read1.
  rewrite parse_loop_complete by done. rewrite Hfv, Hsv. f_equal.
  repeat (rewrite ?bsize_app, ?bsize_cons). rewrite bsize_nil. lia.
Qed.

(** The keys of a retrieval, each behind a space. *)
Lemma parse_keys keys key y pos nm ks fl et bs ng :
  Forall (λ k, Forall (λ c, c ≠ SP ∧ c ≠ CR) k) (key :: keys) →
  parse_loop (key ++ mjoin ((λ k, [SP] ++ k) <$> keys) ++ CRLF ++ y) pos
    (mk_parser sgKey nm ks fl et bs ng [] false) =
  Ret (pos + bsize key + bsize (mjoin ((λ k, [SP] ++ k) <$> keys)) + 2)%Z
    (mk_parser sLF nm (ks ++ key :: keys) fl et bs ng [] true).
Proof.
  revert key pos ks. induction keys as [|k keys IH]; intros key pos ks [Hk Hks]%Forall_cons.
  - rewrite read_sgKey by done. cbn [fmap list_fmap mjoin list_join app CRLF].
    erewrite parse_step; [|done|].
    2: { unfold parse_char, parse_sgKey. cbn [state]. rewrite is_char_refl.
         unfold mbind, prog_bind, get. cbn [modify push_key keys curKey].
         rewrite decide_False by (rewrite length_app; simpl; lia). reflexivity. }
    read1. rewrite parse_loop_complete by done.
    rewrite bsize_nil. cbn. f_equal. lia.
  - rewrite read_sgKey, fmap_cons, mjoin_cons by done. rewrite <-!app_assoc.
    cbn [app]. read1.
    rewrite IH by done. rewrite <-app_assoc. cbn [app]. f_equal.
    rewrite bsize_cons, bsize_app. lia.
Qed.

Lemma parse_get key keys y p :
  Forall (λ k, Forall (λ c, c ≠ SP ∧ c ≠ CR) k) (key :: keys) →
  parse_loop (print_get key keys ++ y) 0 (Reset p) =
  Ret (bsize (print_get key keys))
    (mk_parser sLF (lit "get") (key :: keys) 0 0 0 (negative p) [] true).
Proof.
  intros Hks. unfold print_get, Reset. change (lit "get ") with (lit "get" ++ [SP]).
  rewrite <-!app_assoc. rewrite read_name by by repeat constructor.
  cbn [app]. read1. rewrite parse_keys by done.
  repeat (rewrite ?bsize_app, ?bsize_cons).
  cbn [app]. f_equal. unfold lit, CRLF. cbn. unfold bsize. simpl. lia.
Qed.

End roundtrip_facts.

(** Parsing in two chunks. *)
Lemma Parse_app (x y : bytes) (p : Parser) :
  erase_message (Parse (x ++ y) p) =
  erase_message ((r ← Parse x;
                  if r.1 : bool then mret r
                  else r' ← Parse y; mret (r'.1, r.2 + r'.2)%Z) p).
Proof.
  unfold Parse. unfold mbind at 1, prog_bind at 1. rewrite parse_loop_app.
  unfold mbind, prog_bind, mret, prog_ret, gets.
  destruct (parse_loop x 0 p) as [m p1| | |]; try done. cbn [fst snd].
  destruct (parse_complete p1) eqn:E; [by rewrite parse_loop_complete, E by done|].
  pose proof (parse_loop_pos y 0 m p1) as H. rewrite Z.add_0_l in H.
  unfold mbind, prog_bind, mret, prog_ret in H.
  destruct (parse_loop y m p1), (parse_loop y 0 p1); cbn in *; try congruence.
  injection H as -> ->. by rewrite Z.add_comm.
Qed.

(** ** Properties of the parser *)

(** Splitting the input between calls of [Parse] does not matter: parsing two
    chunks one after the other, the second one only when the first does not
    complete a line, gives the result, the number of bytes consumed and the
    parser that parsing their concatenation gives (up to the position quoted in
    the text of an exception). *)
Theorem parse_chunks (x y : bytes) (p : Parser) :
  erase_message (Parse (x ++ y) p) =
  erase_message ((r ← Parse x;
                  if r.1 : bool then mret r
                  else r' ← Parse y; mret (r'.1, r.2 + r'.2)%Z) p).
Proof.
  apply Parse_app.
Qed.

(** C23: on a parser after fewer than 2^31 / 9 bytes of a line, [Parse] has no
    undefined behaviour: neither the expiration time overflows nor [negative] is
    read before it is written; it consumes at most its input, all of it unless a
    line is complete, stops behind the line feed that completes the line, and
    leaves the parser well-formed, also when it throws. *)
Theorem parse_safe n x p :
  (0 ≤ n)%Z → (9 * (n + bsize x) < 2 ^ 31)%Z → parser_ok n p → parse_complete p = false →
  match Parse x p with
  | Ret (complete, parsed) p' =>
    parser_ok (n + bsize x) p' ∧ complete = parse_complete p' ∧
    if complete then ∃ y z, x = y ++ [LF] ++ z ∧ parsed = (bsize y + 1)%Z
    else parsed = bsize x
  | Throw _ p' => parser_ok (n + bsize x) p'
  | Undef _ | NoFuel => False
  end.
Proof.
  intros Hn Hb Hok Hpc. pose proof (parse_loop_safe n x 0 p Hn Hb Hok) as H.
  unfold Parse, mbind, prog_bind, gets, mret, prog_ret.
  destruct (parse_loop x 0 p) as [m p'| | |] eqn:E; try done.
  destruct H as (Hok' & Hm & Hall). split_and!; [done..|].
  destruct (parse_complete p') eqn:Hpc'; [|by rewrite (Hall eq_refl)].
  destruct (parse_loop_stops x 0 p m p' Hpc E Hpc') as (y & z & -> & -> & _).
  exists y, z. split; [done|lia].
Qed.

(** On the parser of a complete line, [Build] never reads beyond the keys: it
    returns a command, or throws for the two names that [Parse] accepts and
    [Build] does not know, prepend and gets. *)
Theorem build_complete n p :
  parser_ok n p → parse_complete p = true →
  (∃ c, Build p = Ret (Some (c, bytes_ p)) p) ∨
  (Build p = Throw "Unsupported command" p ∧ name p ∈ [lit "prepend"; lit "gets"]).
Proof.
  intros Hok Hpc. pose proof (Build_ok n p Hok) as H.
  pose proof (ok_complete n p Hok Hpc) as Hst.
  destruct (Build p) as [[[c size]|] p'|e p'| |]; try done.
  - destruct H as (-> & _ & ->). left. eauto.
  - by destruct H as [_ H].
  - destruct H as (-> & -> & H). by right.
Qed.

(** C16: a line that a client prints for set, add or append, with any key without a
    space and any field of its width, is parsed to its last byte, whatever
    follows, and [Build] gives back the command with the flags and the size of
    the data block; but the expiration time comes back as the sum of its digits. *)
Theorem insert_roundtrip nm (cmd : InsertCommand → Command) i size rest p :
  (nm, cmd) ∈ [(lit "set", Set_cmd); (lit "add", Add); (lit "append", Append)] →
  Forall (λ c, c ≠ SP) (_key i) → u32_range (_flags i) →
  (Z.abs (_expire i) < 2 ^ 31)%Z → u32_range size →
  ∃ p', Parse (print_insert nm i size ++ rest) (Reset p) =
          Ret (true, bsize (print_insert nm i size)) p' ∧
        Build p' = Ret (Some (cmd (insert_read i), size)) p'.
Proof.
  intros Hin Hk Hf He Hs.
  destruct (parse_insert nm i size rest p) as [ng E]; try done.
  { unfold insert_names. set_solver. }
  eexists. split; [unfold Parse; by rewrite (bind_ret _ _ _ _ _ E)|].
  repeat (apply elem_of_cons in Hin as [[= -> ->]|Hin]; [reflexivity|]). set_solver.
Qed.

(** A retrieval line of one key or more is parsed to its last byte and [Build]
    gives back the keys in their order. *)
Theorem get_roundtrip key keys rest p :
  Forall (λ k, Forall (λ c, c ≠ SP ∧ c ≠ CR) k) (key :: keys) →
  ∃ p', Parse (print_get key keys ++ rest) (Reset p) =
          Ret (true, bsize (print_get key keys)) p' ∧
        Build p' = Ret (Some (Get_cmd (key :: keys), 0%Z)) p'.
Proof.
  intros Hk. eexists. split.
  - unfold Parse. by rewrite (bind_ret _ _ _ _ _ (parse_get key keys rest p Hk)).
  - reflexivity.
Qed.

(** The overflow checks of the unsigned fields miss numbers: fields of more
    than 32 bits are accepted as other numbers, and an expiration time of several
    digits is not the number that was sent. *)
Theorem parser_misreads :
  (∃ p, Parse (lit "set k 15000000000 100 6" ++ CRLF) Parser_new = Ret (true, 25%Z) p ∧
        Build p = Ret (Some (Set_cmd (mk_insert (lit "k") 2115098112 1), 6%Z)) p) ∧
  (∃ p, Parse (lit "add k 0 -12 15000000000" ++ CRLF) Parser_new = Ret (true, 25%Z) p ∧
        Build p = Ret (Some (Add (mk_insert (lit "k") 0 (-3)), 2115098112%Z)) p).
Proof. split; (eexists; split; [vm_compute; reflexivity|vm_compute; reflexivity]). Qed.

(** *** Witnesses *)

Lemma parse_safe_witness :
  match Parse (lit "get a" ++ CRLF) Parser_new with
  | Ret (complete, parsed) p' =>
    parser_ok 7 p' ∧ complete = parse_complete p' ∧
    if complete then ∃ y z, lit "get a" ++ CRLF = y ++ [LF] ++ z ∧ parsed = (bsize y + 1)%Z
    else parsed = 7%Z
  | Throw _ p' => parser_ok 7 p'
  | Undef _ | NoFuel => False
  end.
Proof. apply (parse_safe 0 (lit "get a" ++ CRLF) Parser_new); [lia|done|apply new_ok|done]. Defined.

Lemma build_complete_witness :
  let p := mk_parser sLF (lit "get") [lit "a"] 0 0 0 None [] true in
  (∃ c, Build p = Ret (Some (c, 0%Z)) p) ∨
  (Build p = Throw "Unsupported command" p ∧ lit "get" ∈ [lit "prepend"; lit "gets"]).
Proof.
  apply (build_complete 7 (mk_parser sLF (lit "get") [lit "a"] 0 0 0 None [] true)); [|done].
  split; cbn; try done. right. left. split; [by left|done].
Defined.

Lemma insert_roundtrip_witness :
  ∃ p', Parse (lit "set foo 5 -42 3" ++ CRLF ++ lit "bar") Parser_new = Ret (true, 17%Z) p' ∧
        Build p' = Ret (Some (Set_cmd (mk_insert (lit "foo") 5 (-6)), 3%Z)) p'.
Proof.
  apply (insert_roundtrip (lit "set") Set_cmd (mk_insert (lit "foo") 5 (-42)) 3 (lit "bar")
           Parser_new).
  - by left.
  - by repeat constructor.
  - by split.
  - done.
  - by split.
Defined.

Lemma get_roundtrip_witness :
  ∃ p', Parse (lit "get a b" ++ CRLF) Parser_new = Ret (true, 9%Z) p' ∧
        Build p' = Ret (Some (Get_cmd [lit "a"; lit "b"], 0%Z)) p'.
Proof.
  apply (get_roundtrip (lit "a") [lit "b"] [] Parser_new). by repeat constructor.
Defined.
