(* ===== verification/MtCommands.v ===== *)
(** * Commands of concurrent connections

    The multithreaded servers of src/sysprog/afina execute commands of several
    connections at once over ThreadSafeSimplLRU: every call of the storage is atomic
    ([ThreadSafe.thread_safe_linearizable]), a command is not.  Here the commands of
    [Commands] are taken apart at their calls of the storage and interleaved. *)

From S2P Require Import Prelude Storage Commands.

(** ** A command as a sequence of calls *)

(** A storage that replays answers: at the call that has none left the command stops. *)
Record Replay : Type := mk_replay { answers : list resp; asked : option op }.

Definition ask {A} (o : op) (f : resp → option A) : prog Replay A := λ s,
  match answers s with
  | [] => Throw "waiting" (mk_replay [] (Some o))
  | r :: rs => match f r with Some a => Ret a (mk_replay rs None) | None => Undef Uninitialised end
  end.
Definition to_bool (r : resp) : option bool := match r with RBool b => Some b | _ => None end.
Definition to_value (r : resp) : option (option bytes) := match r with RValue o => Some o | _ => None end.

#[export] Instance replay_storage : Storage Replay := {
  Put k v := ask (OpPut k v) to_bool;
  PutIfAbsent k v := ask (OpPutIfAbsent k v) to_bool;
  Set_ k v := ask (OpSet k v) to_bool;
  Delete k := ask (OpDelete k) to_bool;
  Get k := ask (OpGet k) to_value;
}.

(** Where a command is after some answers: before a call, or done with its reply. *)
Inductive progress : Type := Calls (o : op) | Replies (out : bytes) | Stuck.

Definition proceed (c : Command * bytes) (rs : list resp) : progress :=
  match Execute c.1 c.2 (mk_replay rs None) with
  | Ret out _ => Replies out
  | Throw _ s => match asked s with Some o => Calls o | None => Stuck end
  | _ => Stuck
  end.

(** ** Interleaving *)

Section pool.
Context {S : Type} `{Storage S}.

(** The commands that are being executed, each with the answers to its calls so far, and the storage. *)
Record pool : Type := mk_pool { running : list ((Command * bytes) * list resp); shared : S }.

Definition start (cs : list (Command * bytes)) (st : S) : pool := mk_pool ((λ c, (c, [])) <$> cs) st.

(** The next call of command [i]. *)
Definition pool_step (i : nat) (p : pool) : option pool :=
  '(c, rs) ← running p !! i;
  match proceed c rs with
  | Calls o =>
      match exec o (shared p) with
      | Ret r st => Some (mk_pool (<[i := (c, rs ++ [r])]> (running p)) st)
      | _ => None
      end
  | _ => None
  end.

Fixpoint pool_run (schedule : list nat) (p : pool) : option pool :=
  match schedule with [] => Some p | i :: is_ => pool_step i p ≫= pool_run is_ end.

(** The reply of command [i], when it is done. *)
Definition reply_of (p : pool) (i : nat) : option bytes :=
  x ← running p !! i;
  match proceed x.1 x.2 with Replies out => Some out | _ => None end.

End pool.
Arguments pool : clear implicits.

(** A command alone makes the calls that [Execute] makes. *)
Fixpoint alone {S} `{Storage S} (fuel : nat) (c : Command * bytes) (rs : list resp) : prog S bytes :=
  match fuel with
  | 0 => out_of_fuel
  | Datatypes.S fuel =>
      match proceed c rs with
      | Calls o => r ← exec o; alone fuel c (rs ++ [r])
      | Replies out => mret out
      | Stuck => undef Uninitialised
      end
  end.

(** The calls a command makes at most. *)
Definition calls (c : Command) : nat :=
  match c with
  | Set_cmd _ | Add _ => 1
  | Append _ | Replace _ => 2
  | Get_cmd keys => length keys
  | Stats => 0
  end.

(** The commands whose effect is one call of the storage, or which read before a call
    that cannot go wrong. *)
Definition one_point (c : Command) : bool :=
  match c with
  | Append _ => false
  | Get_cmd keys => bool_decide (length keys ≤ 1)
  | _ => true
  end.

(** The commands in the order of their last calls, after those that make none. *)
Definition order (cs : list (Command * bytes)) (schedule : list nat) : list nat :=
  filter (λ i, (λ c, calls c.1) <$> cs !! i = Some 0) (seq 0 (length cs)) ++ remove_dups schedule.

(** ** Facts: where a command is *)

Lemma proceed_set i args rs :
  proceed (Set_cmd i, args) rs =
  match rs with [] => Calls (OpPut (_key i) args) | RBool _ :: _ => Replies STORED | _ => Stuck end.
Proof. by destruct rs as [|[] ?]. Qed.

Lemma proceed_add i args rs :
  proceed (Add i, args) rs =
  match rs with
  | [] => Calls (OpPutIfAbsent (_key i) args)
  | RBool b :: _ => Replies (if b then STORED else NOT_STORED)
  | _ => Stuck
  end.
Proof. by destruct rs as [|[] ?]. Qed.

Lemma proceed_append i args rs :
  proceed (Append i, args) rs =
  match rs with
  | [] => Calls (OpGet (_key i))
  | RValue None :: _ => Replies NOT_STORED
  | [RValue (Some v)] => Calls (OpPut (_key i) (v ++ args))
  | RValue (Some _) :: RBool _ :: _ => Replies STORED
  | _ => Stuck
  end.
Proof. by destruct rs as [|[|[v|]] [|[] ?]]. Qed.

Lemma proceed_replace i args rs :
  proceed (Replace i, args) rs =
  match rs with
  | [] => Calls (OpGet (_key i))
  | RValue None :: _ => Replies NOT_STORED
  | [RValue (Some v)] => Calls (OpSet (_key i) args)
  | RValue (Some _) :: RBool _ :: _ => Replies STORED
  | _ => Stuck
  end.
Proof. by destruct rs as [|[|[v|]] [|[] ?]]. Qed.

Lemma proceed_stats args rs : proceed (Stats, args) rs = Replies (lit "END").
Proof. done. Qed.

(** The items a Get writes when its keys get these answers. *)
Fixpoint answered (keys : list bytes) (os : list (option bytes)) : bytes :=
  match keys, os with
  | k :: keys, Some v :: os => value_item k v ++ answered keys os
  | _ :: keys, None :: os => answered keys os
  | _, _ => []
  end.

(** The loop of Get with the answers for its first keys. *)
Lemma replay_items keys out os :
  length os ≤ length keys →
  Get_items keys out (mk_replay (RValue <$> os) None) =
  match keys !! length os with
  | Some k => Throw "waiting" (mk_replay [] (Some (OpGet k)))
  | None => Ret (out ++ answered keys os) (mk_replay [] None)
  end.
Proof.
  revert out os. induction keys as [|k keys IH]; intros out [|o os] Hl; simpl in *; try lia.
  - by rewrite app_nil_r.
  - done.
  - destruct o as [v|]; unfold mbind, prog_bind; cbn; rewrite IH by lia; [|done].
    destruct (keys !! length os); [done|]. by rewrite <-app_assoc.
Qed.

Lemma proceed_get keys args os :
  length os ≤ length keys →
  proceed (Get_cmd keys, args) (RValue <$> os) =
  match keys !! length os with
  | Some k => Calls (OpGet k)
  | None => Replies (answered keys os ++ lit "END")
  end.
Proof.
  intros Hl. unfold proceed. cbn [fst snd Execute]. unfold Get_Execute, mbind, prog_bind.
  rewrite replay_items by done. by destruct (keys !! length os).
Qed.

Lemma answered_snoc keys os o k :
  keys !! length os = Some k →
  answered keys (os ++ [o]) = answered keys os ++ from_option (value_item k) [] o.
Proof.
  revert os. induction keys as [|k' keys IH]; intros [|o' os] Hk; simplify_eq/=.
  - destruct o; simpl; destruct keys; simpl; by rewrite ?app_nil_r.
  - destruct o'; rewrite (IH os Hk); [by rewrite app_assoc|done].
Qed.

Section alone.
Context {S : Type} `{Storage S}.
Implicit Types (s : S).

(** A Get that has the answers for its first keys goes on with the others. *)
Lemma alone_get args ks pre os fuel s :
  length ks < fuel → length pre = length os →
  alone fuel (Get_cmd (pre ++ ks), args) (RValue <$> os) s =
  (out ← Get_items ks (answered (pre ++ ks) os); mret (out ++ lit "END")) s.
Proof.
  revert pre os fuel s.
  induction ks as [|k ks IH]; intros pre os [|fuel] s Hf Hl;
    try (exfalso; simpl in Hf; lia);
    cbn [alone]; rewrite proceed_get by (rewrite length_app; simpl; lia).
  - by rewrite app_nil_r, lookup_ge_None_2 by lia.
  - assert ((pre ++ k :: ks) !! length os = Some k) as Hk
      by (rewrite <-Hl; by apply list_lookup_middle).
    rewrite Hk. cbn [Get_items]. unfold mbind, prog_bind. cbn [exec]. rewrite ?fmap_prog.
    destruct (Get k s) as [o s'| | |]; try done. cbn -[alone].
    change ([RValue o]) with (RValue <$> [o]). rewrite <-fmap_app.
    pose proof (IH (pre ++ [k]) (os ++ [o]) fuel s' ltac:(simpl in Hf; lia)
      ltac:(rewrite !length_app; simpl; lia)) as IH'.
    rewrite <-app_assoc in IH'. cbn [app] in IH'. rewrite IH'.
    rewrite (answered_snoc _ _ _ _ Hk). destruct o; cbn [from_option]; [done|].
    by rewrite app_nil_r.
Qed.

(** The next call of a command alone, at the equation [E] of where the command is. *)
Ltac alone_call E :=
  cbn [alone app]; rewrite E; cbn [exec Execute];
  unfold Set_Execute, Add_Execute, Append_Execute, Replace_Execute, mbind, prog_bind;
  rewrite fmap_prog.

(** A command that makes its calls one by one does what [Execute] does. *)
Lemma alone_Execute c args fuel s :
  calls c < fuel → alone fuel (c, args) [] s = Execute c args s.
Proof.
  intros Hf. destruct c as [i|i|i|i|keys|]; cbn [calls] in Hf.
  5: etrans; [exact (alone_get args keys [] [] fuel s Hf eq_refl)|by destruct keys].
  5: by destruct fuel; [lia|].
  all: do 2 (destruct fuel as [|fuel]; [lia|]).
  - alone_call proceed_set. by destruct (Put (_key i) args s).
  - alone_call proceed_add. by destruct (PutIfAbsent (_key i) args s).
  - destruct fuel as [|fuel]; [lia|]. alone_call proceed_append.
    destruct (Get (_key i) s) as [[v|] s'| | |]; try done. alone_call proceed_append.
    by destruct (Put (_key i) (v ++ args) s').
  - destruct fuel as [|fuel]; [lia|]. alone_call proceed_replace.
    destruct (Get (_key i) s) as [[v|] s'| | |]; try done. alone_call proceed_replace.
    by destruct (Set_ (_key i) args s').
Qed.
End alone.

(** ** Facts: linearization *)

Lemma session_snoc {S} `{Storage S} cs c s outs s1 out s2 :
  session cs s = Ret outs s1 → Execute c.1 c.2 s1 = Ret out s2 →
  session (cs ++ [c]) s = Ret (outs ++ [out]) s2.
Proof.
  destruct c as [c a]. revert s outs.
  induction cs as [|[c0 a0] cs IH]; intros s outs Hs He; cbn [app session] in *.
  - injection Hs as <- <-. unfold mbind, prog_bind. cbn in He. by rewrite He.
  - bind_inv Hs. bind_inv Hs. injection Hs as <- <-.
    rewrite (bind_ret _ _ _ _ _ E), (bind_ret _ _ _ _ _ (IH _ _ E0 He)). done.
Qed.

Lemma remove_dups_snoc (l : list nat) x :
  remove_dups (l ++ [x]) = filter (λ y, y ≠ x) (remove_dups l) ++ [x].
Proof.
  induction l as [|y l IH]; [done|]. cbn [app remove_dups].
  destruct (decide_rel elem_of y l) as [Hy|Hy], (decide_rel elem_of y (l ++ [x])) as [Hy'|Hy'];
    try set_solver.
  - assert (y = x) as -> by set_solver. rewrite IH, filter_cons_False by tauto. done.
  - rewrite IH, filter_cons_True by set_solver. done.
Qed.

Lemma NoDup_snoc_filter (l : list nat) x : NoDup l → NoDup (filter (λ y, y ≠ x) l ++ [x]).
Proof.
  intros Hl. apply NoDup_app. split; [by apply NoDup_filter|]. split; [|apply NoDup_singleton].
  intros y [Hy _]%list_elem_of_filter ->%list_elem_of_singleton. done.
Qed.

Lemma filter_all {A} (P : A → Prop) `{!∀ x, Decision (P x)} (l : list A) :
  Forall P l → filter P l = l.
Proof.
  induction 1 as [|x l Hx _ IH]; [done|]. by rewrite filter_cons_True, IH.
Qed.

Lemma omap_ext_in {A B} (f g : A → option B) (l : list A) :
  (∀ x, x ∈ l → f x = g x) → omap f l = omap g l.
Proof.
  induction l as [|x l IH]; intros Hl; [done|]. cbn. rewrite (Hl x) by constructor.
  rewrite IH; [done|]. intros y Hy. apply Hl. by constructor.
Qed.

(** The reply of a command with its answers so far. *)
Definition reply (x : (Command * bytes) * list resp) : option bytes :=
  match proceed x.1 x.2 with Replies out => Some out | _ => None end.

(** Where a command with one point of effect is while it is not done. *)
Definition before_point (m : gmap bytes bytes) (x : (Command * bytes) * list resp) : Prop :=
  x.2 = [] ∨ ∃ i v, x.1.1 = Replace i ∧ x.2 = [RValue (Some v)] ∧ is_Some (m !! _key i).

(** The calls of the map. *)
Lemma exec_map (o : op) (m : gmap bytes bytes) :
  exec o m =
  match o with
  | OpPut k v => Ret (RBool true) (<[k := v]> m)
  | OpPutIfAbsent k v =>
      match m !! k with None => Ret (RBool true) (<[k := v]> m) | Some _ => Ret (RBool false) m end
  | OpSet k v =>
      match m !! k with None => Ret (RBool false) m | Some _ => Ret (RBool true) (<[k := v]> m) end
  | OpDelete k =>
      match m !! k with None => Ret (RBool false) m | Some _ => Ret (RBool true) (delete k m) end
  | OpGet k => Ret (RValue (m !! k)) m
  end.
Proof.
  by destruct o; cbn [exec]; rewrite fmap_prog; cbn; try destruct (m !! k).
Qed.

(** A call of such a command is its point of effect, or leaves the map as it is. *)
Lemma point c args m rs o r m' :
  one_point c = true → before_point m ((c, args), rs) →
  proceed (c, args) rs = Calls o → exec o m = Ret r m' →
  (∃ out, reply ((c, args), rs ++ [r]) = Some out ∧ Execute c args m = Ret out m') ∨
  (reply ((c, args), rs ++ [r]) = None ∧ m' = m ∧ before_point m' ((c, args), rs ++ [r])).
Proof.
  destruct c as [i|i|i|i|keys|]; try discriminate; intros Hp Hb Hc He;
    rewrite exec_map in He; unfold reply; cbn [fst snd].
  - destruct Hb as [Hrs|(?&?&?&_)]; [|discriminate]. cbn in Hrs. subst rs.
    injection Hc as <-. injection He as <- <-. left. by eexists.
  - destruct Hb as [Hrs|(?&?&?&_)]; [|discriminate]. cbn in Hrs. subst rs.
    injection Hc as <-. left. cbn [Execute]. unfold Add_Execute, mbind, prog_bind. cbn.
    destruct (m !! _key i) eqn:E; injection He as <- <-; by eexists.
  - cbn [Execute]. unfold Replace_Execute, mbind, prog_bind. cbn [Get Set_ map_storage].
    destruct Hb as [Hrs|(i'&v&Hi&Hrs&[w Hm])]; cbn in Hrs; subst rs.
    + injection Hc as <-. injection He as <- <-. rewrite !proceed_replace. cbn [app].
      destruct (m !! _key i) as [v|] eqn:E; [right|left; by eexists].
      repeat split. right. exists i, v. by rewrite E.
    + injection Hi as <-. injection Hc as <-. rewrite Hm in He. injection He as <- <-.
      left. rewrite Hm. eexists. split; [done|]. unfold mbind, prog_bind. by rewrite Hm.
  - destruct Hb as [Hrs|(?&?&?&_)]; [|discriminate]. cbn in Hrs. subst rs.
    destruct keys as [|k [|k' keys]]; try discriminate. left.
    injection Hc as <-. injection He as <- <-. change [RValue ?o] with (RValue <$> [o]).
    rewrite app_nil_l, proceed_get by done. eexists. split; [done|].
    cbn [Execute]. unfold Get_Execute, mbind, prog_bind. cbn. unfold mbind, prog_bind. cbn.
    destruct (m !! k); by rewrite ?app_nil_r.
Qed.

(** The calls of such a command remove nothing. *)
Lemma point_grows c args m rs o r m' k :
  one_point c = true → before_point m ((c, args), rs) →
  proceed (c, args) rs = Calls o → exec o m = Ret r m' → is_Some (m !! k) → is_Some (m' !! k).
Proof.
  intros Hp Hb Hc He Hk. rewrite exec_map in He.
  assert (∀ k, o ≠ OpDelete k) as Hd.
  { destruct Hb as [Hrs|(i&v&Hi&Hrs&_)]; cbn in *; subst.
    - destruct c as [i|i|i|i|[|k' keys]|]; first [discriminate Hc|by injection Hc as <-].
    - by injection Hc as <-. }
  destruct o; repeat case_match; simplify_eq; rewrite ?lookup_insert_is_Some'; eauto.
  by destruct (Hd k0).
Qed.

(** A command without calls replies at once, whatever the storage. *)
Lemma no_calls c args rs :
  calls c = 0 → ∃ out, proceed (c, args) rs = Replies out ∧ ∀ m : gmap bytes bytes,
    Execute c args m = Ret out m.
Proof.
  destruct c as [i|i|i|i|[|k keys]|]; try discriminate; intros _; by eexists.
Qed.

Lemma replies_at_once c args :
  is_Some (reply ((c, args), [])) → calls c = 0.
Proof. destruct c as [i|i|i|i|[|k keys]|]; intros [out H]; try done; discriminate H. Qed.

Section invariant.
Context (cs : list (Command * bytes)) (m0 : gmap bytes bytes).

Definition replied (p : pool (gmap bytes bytes)) : list nat → list nat :=
  filter (λ i, is_Some (reply_of p i)).

Record linearized (schedule : list nat) (p : pool (gmap bytes bytes)) : Prop := {
  lin_commands : (running p).*1 = cs;
  lin_points : Forall (λ x, is_Some (reply x) ∨ before_point (shared p) x) (running p);
  lin_nodup : NoDup (order cs schedule);
  lin_bound : Forall (λ i, i < length cs) (order cs schedule);
  lin_order i : is_Some (reply_of p i) → i ∈ order cs schedule;
  lin_session :
    session (omap (cs !!.) (replied p (order cs schedule))) m0 =
    Ret (omap (reply_of p) (replied p (order cs schedule))) (shared p);
}.


Lemma reply_of_start i :
  reply_of (start cs m0) i = cs !! i ≫= λ c, reply (c, []).
Proof. unfold reply_of. cbn. rewrite list_lookup_fmap. by destruct (cs !! i). Qed.

Lemma session_idle l :
  (∀ i, i ∈ l → (λ c, calls c.1) <$> cs !! i = Some 0) →
  session (omap (cs !!.) l) m0 = Ret (omap (reply_of (start cs m0)) l) m0.
Proof.
  induction l as [|i l IH]; intros Hl; [done|]. cbn [omap list_omap].
  rewrite reply_of_start. pose proof (Hl i ltac:(constructor)) as Hi.
  destruct (cs !! i) as [[c args]|] eqn:Ei; [|done]. cbn in Hi. injection Hi as Hi.
  destruct (no_calls c args [] Hi) as (out & Hr & He).
  cbn [mbind option_bind]. unfold reply. cbn [fst snd]. rewrite Hr. cbn [session].
  assert (∀ j, j ∈ l → (λ c, calls c.1) <$> cs !! j = Some 0) as Hl' by set_solver.
  by rewrite (bind_ret _ _ _ _ _ (He m0)), (bind_ret _ _ _ _ _ (IH Hl')).
Qed.

Lemma linearized_start : linearized [] (start cs m0).
Proof.
  assert (∀ i, is_Some (reply_of (start cs m0) i) → i ∈ order cs []) as Ho.
  { intros i. rewrite reply_of_start. unfold order. rewrite app_nil_r.
    destruct (cs !! i) as [[c args]|] eqn:Ei; [|by intros []]. intros H%replies_at_once.
    apply list_elem_of_filter. rewrite Ei, <-H. split; [done|].
    apply elem_of_seq. apply lookup_lt_Some in Ei. lia. }
  split.
  - cbn. rewrite <-list_fmap_compose. apply list_fmap_id.
  - apply Forall_fmap, Forall_true. by right; left.
  - unfold order. rewrite app_nil_r. apply NoDup_filter, NoDup_seq.
  - apply Forall_forall. intros i Hi. unfold order in Hi. rewrite app_nil_r in Hi.
    apply list_elem_of_filter in Hi as [_ Hi]. apply elem_of_seq in Hi. lia.
  - done.
  - cbn [shared start]. unfold replied. apply session_idle. intros i [_ Hi]%list_elem_of_filter.
    unfold order in Hi. rewrite app_nil_r in Hi. by apply list_elem_of_filter in Hi as [? _].
Qed.

(** The order of calls after one more call of a command that is not idle. *)
Lemma order_snoc schedule i :
  (λ c, calls c.1) <$> cs !! i ≠ Some 0 →
  order cs (schedule ++ [i]) = filter (λ j, j ≠ i) (order cs schedule) ++ [i].
Proof.
  intros Hi. unfold order. rewrite remove_dups_snoc, filter_app, app_assoc. f_equal. f_equal.
  rewrite list_filter_filter. apply list_filter_iff. intros j. split; [|tauto].
  intros Hj. split; [|done]. by intros ->.
Qed.

(** What a call of command [i] changes in the pool. *)
Lemma linearized_points schedule i p c args rs o r m' :
  Forall (λ c, one_point c.1 = true) cs → linearized schedule p →
  running p !! i = Some ((c, args), rs) → proceed (c, args) rs = Calls o →
  exec o (shared p) = Ret r m' →
  one_point c = true ∧ before_point (shared p) ((c, args), rs) ∧ cs !! i = Some (c, args) ∧
  (∀ k, is_Some (shared p !! k) → is_Some (m' !! k)).
Proof.
  intros Hcs [Hc Hp _ _ _ _] Ei Epr Ee.
  assert (cs !! i = Some (c, args)) as Eci by (rewrite <-Hc, list_lookup_fmap, Ei; done).
  pose proof (Forall_lookup_1 _ _ _ _ Hcs Eci) as H1. cbn in H1.
  destruct (Forall_lookup_1 _ _ _ _ Hp Ei) as [[x Hr]|Hb].
  { unfold reply in Hr. cbn in Hr. by rewrite Epr in Hr. }
  repeat split; auto. intros k. by eapply point_grows.
Qed.

Lemma linearized_step schedule i p p' :
  Forall (λ c, one_point c.1 = true) cs →
  linearized schedule p → pool_step i p = Some p' → linearized (schedule ++ [i]) p'.
Proof.
  intros Hcs Hlin Hstep. unfold pool_step in Hstep.
  destruct (running p !! i) as [[[c args] rs]|] eqn:Ei; [|done]. cbn in Hstep.
  destruct (proceed (c, args) rs) as [o| |] eqn:Epr; try done.
  destruct (exec o (shared p)) as [r m'| | |] eqn:Ee; try done. injection Hstep as <-.
  destruct (linearized_points _ _ _ _ _ _ _ _ _ Hcs Hlin Ei Epr Ee) as (H1 & Hb & Eci & Hgrow).
  destruct Hlin as [Hc Hp Hn Hlt Ho Hs].
  pose proof (lookup_lt_Some _ _ _ Ei) as Hi.
  assert (reply_of p i = None) as Hi0 by (unfold reply_of; rewrite Ei; cbn; by rewrite Epr).
  set (p' := mk_pool (<[i:=((c, args), rs ++ [r])]> (running p)) m').
  assert (reply_of p' i = reply ((c, args), rs ++ [r])) as Hii
    by (unfold reply_of; cbn; by rewrite list_lookup_insert_eq by done).
  assert (∀ j, j ≠ i → reply_of p' j = reply_of p j) as Hij
    by (intros j Hj; unfold reply_of; cbn; by rewrite list_lookup_insert_ne by done).
  assert (order cs (schedule ++ [i]) = filter (λ j, j ≠ i) (order cs schedule) ++ [i]) as Hord.
  { apply order_snoc. rewrite Eci. cbn. intros [= H0].
    destruct (no_calls c args rs H0) as (out & Hout & _). by rewrite Hout in Epr. }
  assert (replied p' (filter (λ j, j ≠ i) (order cs schedule)) = replied p (order cs schedule))
    as Hlog.
  { unfold replied. rewrite list_filter_filter. apply list_filter_iff. intros j.
    destruct (decide (j = i)) as [->|Hj]; [rewrite Hi0|rewrite Hij by done]; naive_solver. }
  split.
  - cbn. rewrite list_fmap_insert, Hc. by apply list_insert_id.
  - cbn. apply Forall_insert.
    + eapply Forall_impl; [exact Hp|]. intros x [Hx|[Hx|(i'&v&Hx1&Hx2&Hx3)]]; [by left|by right; left|].
      right; right. exists i', v. eauto.
    + destruct (point _ _ _ _ _ _ _ H1 Hb Epr Ee) as [(out&Hout&_)|(_&->&Hb')]; [|by right].
      left. by rewrite Hout.
  - rewrite Hord. by apply NoDup_snoc_filter.
  - rewrite Hord. apply Forall_app. rewrite !Forall_forall in *.
    split; [intros j [_ Hj]%list_elem_of_filter; by apply Hlt|]. rewrite <-Forall_forall.
    apply Forall_singleton. by apply lookup_lt_Some in Eci.
  - intros j Hj. rewrite Hord. apply elem_of_app. destruct (decide (j = i)) as [->|Hne].
    + right. by constructor.
    + left. apply list_elem_of_filter. split; [done|]. apply Ho. by rewrite <-Hij.
  - assert (replied p' (order cs (schedule ++ [i])) =
            replied p (order cs schedule) ++ filter (λ j, is_Some (reply_of p' j)) [i]) as ->.
    { rewrite Hord. unfold replied at 1. rewrite filter_app. f_equal. exact Hlog. }
    assert (omap (reply_of p) (replied p (order cs schedule)) =
            omap (reply_of p') (replied p (order cs schedule))) as Heq.
    { apply omap_ext_in. intros j [Hj _]%list_elem_of_filter. symmetry. apply Hij.
      intros ->. rewrite Hi0 in Hj. by destruct Hj. }
    rewrite Heq in Hs. rewrite !omap_app.
    destruct (point _ _ _ _ _ _ _ H1 Hb Epr Ee) as [(out&Hout&Hex)|(Hno&Hm&_)].
    + rewrite filter_cons_True by (by rewrite Hii, Hout). cbn. rewrite Eci, Hii, Hout.
      by eapply session_snoc.
    + rewrite filter_cons_False by (rewrite Hii, Hno; by intros []). cbn.
      rewrite !app_nil_r. cbn in Hm. by rewrite Hm.
Qed.

Lemma linearized_run schedule' schedule p p' :
  Forall (λ c, one_point c.1 = true) cs →
  linearized schedule p → pool_run schedule' p = Some p' → linearized (schedule ++ schedule') p'.
Proof.
  intros Hcs. revert schedule p.
  induction schedule' as [|i is_ IH]; intros schedule p Hlin Hrun; cbn in Hrun.
  - injection Hrun as <-. by rewrite app_nil_r.
  - destruct (pool_step i p) as [p1|] eqn:E; [|done].
    change (i :: is_) with ([i] ++ is_). rewrite app_assoc.
    eapply IH; [|exact Hrun]. by eapply linearized_step.
Qed.
End invariant.

(** A command that is not done has a next call, and the map answers it. *)
Lemma linearized_goes_on cs m0 schedule p i :
  linearized cs m0 schedule p → i < length cs → reply_of p i = None → is_Some (pool_step i p).
Proof.
  intros [Hc Hp _ _ _ _] Hi Hno. rewrite <-Hc, length_fmap in Hi.
  apply lookup_lt_is_Some in Hi as [[[c args] rs] Ei].
  unfold reply_of in Hno. unfold pool_step. rewrite Ei in *. cbn in *.
  assert (∃ o, proceed (c, args) rs = Calls o) as [o Ho].
  { destruct (Forall_lookup_1 _ _ _ _ Hp Ei) as [[out Hr]|[Hrs|(j&v&Hj&Hrs&_)]].
    - unfold reply in Hr. cbn in Hr. congruence.
    - cbn in Hrs. subst. destruct c as [j|j|j|j|[|k keys]|]; first [discriminate Hno|eexists; reflexivity].
    - cbn in Hj, Hrs. subst. eexists. reflexivity. }
  rewrite Ho, exec_map. destruct o; cbn; try destruct (shared p !! k); eexists; reflexivity.
Qed.

(** ** Properties *)

(** A command of a connection that makes its calls of the storage one by one, each
    with the answers to the ones before, does on every storage what its Execute does:
    the taking apart below changes nothing but what comes between the calls. *)
Theorem commands_by_calls {S} `{Storage S} (c : Command) args fuel (s : S) :
  calls c < fuel → alone fuel (c, args) [] s = Execute c args s.
Proof. apply alone_Execute. Qed.

(** The pool behind a schedule. *)
Lemma pool_linearized (cs : list (Command * bytes)) (m0 : gmap bytes bytes) schedule p :
  Forall (λ c, one_point c.1 = true) cs → pool_run schedule (start cs m0) = Some p →
  linearized cs m0 schedule p.
Proof. intros Hcs Hrun. exact (linearized_run cs m0 schedule [] _ _ Hcs (linearized_start cs m0) Hrun). Qed.

(** A command that is not done is at a call. *)
Lemma running_call (cs : list (Command * bytes)) (m0 : gmap bytes bytes) schedule p i :
  Forall (λ c, one_point c.1 = true) cs → pool_run schedule (start cs m0) = Some p →
  i < length cs → reply_of p i = None →
  ∃ c args rs o, running p !! i = Some ((c, args), rs) ∧ one_point c = true ∧ proceed (c, args) rs = Calls o.
Proof.
  intros Hcs Hrun Hi Hno. pose proof (pool_linearized _ _ _ _ Hcs Hrun) as Hlin.
  destruct (linearized_goes_on _ _ _ _ _ Hlin Hi Hno) as [p' E]. unfold pool_step in E.
  destruct (running p !! i) as [[[c args] rs]|] eqn:Ei; [|done]. cbn in E.
  destruct (proceed (c, args) rs) as [o| |] eqn:Ec; try done. exists c, args, rs, o. split_and!; [done| |done].
  apply (Forall_lookup_1 _ _ i (c, args) Hcs). by rewrite <-(lin_commands _ _ _ _ Hlin), list_lookup_fmap, Ei.
Qed.

(** Commands of concurrent connections over an unbounded map whose calls are atomic are
    linearizable when none of them is an Append or a Get of several keys: when all are
    done every reply and the final associations are the ones of executing them one after
    another, each at its last call. *)
Lemma interleaved_map (cs : list (Command * bytes)) (m0 : gmap bytes bytes) schedule p :
  Forall (λ c, one_point c.1 = true) cs →
  pool_run schedule (start cs m0) = Some p →
  (∀ i, i < length cs → is_Some (reply_of p i)) →
  order cs schedule ≡ₚ seq 0 (length cs) ∧
  session (omap (cs !!.) (order cs schedule)) m0 =
  Ret (omap (reply_of p) (order cs schedule)) (shared p).
Proof.
  intros Hcs Hrun Hdone. destruct (pool_linearized _ _ _ _ Hcs Hrun) as [Hc Hp Hn Hlt Ho Hs].
  rewrite Forall_forall in Hlt.
  split.
  - apply NoDup_Permutation; [done|apply NoDup_seq|]. intros i. rewrite elem_of_seq.
    split; [intros ?%Hlt; lia|]. intros [_ Hi]. by apply Ho, Hdone.
  - assert (replied p (order cs schedule) = order cs schedule) as Hall.
    { apply filter_all, Forall_forall. eauto. }
    by rewrite Hall in Hs.
Qed.

Section examples.
Let k := lit "k".
Let ins : InsertCommand := mk_insert k 0 0.
Let run (cs : list (Command * bytes)) (m : gmap bytes bytes) (schedule : list nat) :=
  (λ p, (map_to_list (shared p), (reply_of p) <$> seq 0 (length cs))) <$>
  pool_run schedule (start cs m).

(** Append reads and stores in two calls: of two that interleave, both reply STORED and
    one is lost, which no order of the two allows. *)
Example appends_lost :
  let cs := [(Append ins, lit "1"); (Append ins, lit "2")] in
  run cs {[ k := lit "0" ]} [0; 1; 0; 1] =
    Some ([(k, lit "02")], [Some STORED; Some STORED]) ∧
  run cs {[ k := lit "0" ]} [0; 0; 1; 1] =
    Some ([(k, lit "012")], [Some STORED; Some STORED]) ∧
  run cs {[ k := lit "0" ]} [1; 1; 0; 0] =
    Some ([(k, lit "021")], [Some STORED; Some STORED]).
Proof. vm_compute. done. Qed.

(** A Get of several keys reads them in calls of their own: it can reply with
    values the map never held together. *)
Example get_torn :
  let a := lit "a" in let b := lit "b" in
  let cs := [(Get_cmd [a; b], []); (Set_cmd (mk_insert a 0 0), lit "1");
             (Set_cmd (mk_insert b 0 0), lit "1")] in
  run cs {[ a := lit "0"; b := lit "0" ]} [0; 1; 2; 0] =
    Some ([(b, lit "1"); (a, lit "1")],
          [Some (value_item a (lit "0") ++ value_item b (lit "1") ++ lit "END");
           Some STORED; Some STORED]).
Proof. vm_compute. done. Qed.
End examples.

Lemma commands_by_calls_witness :
  let m : gmap bytes bytes := {[ lit "a" := lit "1" ]} in
  2 < 3 ∧ alone 3 (Get_cmd [lit "b"; lit "a"], []) [] m = Ret (get_reply m [lit "a"]) m.
Proof.
  split; [lia|]. etrans; [apply (commands_by_calls (Get_cmd [lit "b"; lit "a"]) [] 3); cbn; lia|].
  vm_compute. reflexivity.
Defined.
