(* ===== verification/LruCommands.v ===== *)
(** * Commands on the cache

    The commands of Commands.v executed on the cache of SimpleLRU.v: retrievals
    are always defined, a session whose data fits is answered as by an unbounded
    map, and the replies when the data does not fit. *)

From S2P Require Import Prelude SimpleLRU Storage LruStorage Commands.

(** ** Sizes *)

(** Bytes that a command can add to the associations. *)
Definition command_bytes (c : Command) (args : bytes) : Z :=
  match c with
  | Set_cmd i | Add i | Append i | Replace i => bsize (_key i) + bsize args
  | Get_cmd _ | Stats => 0
  end.

Definition session_bytes (cs : list (Command * bytes)) : Z :=
  foldr (λ c z, command_bytes c.1 c.2 + z)%Z 0%Z cs.

(** ** Facts *)

Lemma command_bytes_nonneg c args : (0 ≤ command_bytes c args)%Z.
Proof. destruct c as [i|i|i|i|keys|]; cbn; try lia; pose proof (bsize_nonneg (_key i)); pose proof (bsize_nonneg args); lia. Qed.

Section session_facts.
Context (max : Z) (Hmax : (max < 2 ^ 64)%Z).
Implicit Types (l : list (bytes * bytes)).

Abbreviation amap := (list_to_map (M := gmap bytes bytes)).

(** The same outcome on the abstract cache and on the map, within [z] more bytes. *)
Definition agree {A} (m : prog Abs.cache A) (m' : prog (gmap bytes bytes) A)
    (l : list (bytes * bytes)) (z : Z) : Prop :=
  ∃ a l', m (exact max l) = Ret a (exact max l') ∧ m' (amap l) = Ret a (amap l') ∧
          NoDup l'.*1 ∧ (total l' ≤ total l + z)%Z.

Lemma agree_bind {A B} (m : prog Abs.cache A) m' (k : A → prog Abs.cache B) k' l z z' :
  agree m m' l z →
  (∀ a l', m' (amap l) = Ret a (amap l') → NoDup l'.*1 → (total l' ≤ total l + z)%Z →
           agree (k a) (k' a) l' z') →
  agree (m ≫= k) (m' ≫= k') l (z + z').
Proof.
  intros (a & l' & E & E' & Hnd & Ht) Hk.
  destruct (Hk a l' E' Hnd Ht) as (b & l'' & Eb & Eb' & Hnd' & Ht').
  exists b, l''. rewrite (bind_ret _ _ _ _ _ E), (bind_ret _ _ _ _ _ E').
  split_and!; [done..|lia].
Qed.

Lemma agree_mret {A} (a : A) l : NoDup l.*1 → agree (mret a) (mret a) l 0.
Proof. intros Hnd. exists a, l. split_and!; [done..|lia]. Qed.

Lemma agree_mono {A} (m : prog Abs.cache A) m' l z z' :
  (z ≤ z')%Z → agree m m' l z → agree m m' l z'.
Proof. intros Hz (a & l' & ? & ? & ? & ?). exists a, l'. split_and!; [done..|lia]. Qed.

(** Calls of the storage that fit. *)
Lemma agree_exec o z l :
  op_bytes o = Some z → (total l + z ≤ max)%Z → NoDup l.*1 → agree (exec o) (exec o) l z.
Proof.
  intros Hz Hfit Hnd. eexists _, _. split_and!.
  - apply (abs_after max o z l Hz). lia.
  - by apply (map_after o z l Hz).
  - by apply (after_nodup o z).
  - by apply after_total.
Qed.

(** The same, for the functions of the interface. *)
Lemma agree_fmap {A} (f : A → resp) (m : prog Abs.cache A) (m' : prog (gmap bytes bytes) A) l z :
  (∀ a a', f a = f a' → a = a') → agree (f <$> m) (f <$> m') l z → agree m m' l z.
Proof.
  intros Hf (a & l' & E & E' & H).
  apply fmap_inv in E as (b & E & ->), E' as (b' & E' & Hb).
  apply Hf in Hb as <-. by exists b, l'.
Qed.

Lemma agree_put k v l z :
  z = Abs.esize (k, v) → (total l + z ≤ max)%Z → NoDup l.*1 → agree (Put k v) (Put k v) l z.
Proof.
  intros -> Hfit Hnd. apply (agree_fmap RBool); [by intros ?? [=]|].
  by apply (agree_exec (OpPut k v)).
Qed.

Lemma agree_put_if_absent k v l z :
  z = Abs.esize (k, v) → (total l + z ≤ max)%Z → NoDup l.*1 →
  agree (PutIfAbsent k v) (PutIfAbsent k v) l z.
Proof.
  intros -> Hfit Hnd. apply (agree_fmap RBool); [by intros ?? [=]|].
  by apply (agree_exec (OpPutIfAbsent k v)).
Qed.

Lemma agree_set k v l z :
  z = Abs.esize (k, v) → (total l + z ≤ max)%Z → NoDup l.*1 → agree (Set_ k v) (Set_ k v) l z.
Proof.
  intros -> Hfit Hnd. apply (agree_fmap RBool); [by intros ?? [=]|].
  by apply (agree_exec (OpSet k v)).
Qed.

Lemma agree_get k l : (total l ≤ max)%Z → NoDup l.*1 → agree (Get k) (Get k) l 0.
Proof.
  intros Hfit Hnd. apply (agree_fmap RValue); [by intros ?? [=]|].
  apply (agree_exec (OpGet k)); [done|lia|done].
Qed.

(** Storing a longer value for a key that is present. *)
Lemma agree_put_present k old v l :
  Abs.find k l = Some old → (total l + bsize v ≤ max)%Z → NoDup l.*1 →
  agree (Put k (old ++ v)) (Put k (old ++ v)) l (bsize v).
Proof.
  intros Hk Hfit Hnd. pose proof (find_total _ _ _ Hk) as Ht.
  assert (Abs.esize (k, old ++ v) = Abs.esize (k, old) + bsize v)%Z as Hsz.
  { unfold Abs.esize. cbn. rewrite bsize_app. lia. }
  pose proof (bsize_nonneg v). pose proof (esize_nonneg (k, old)).
  exists true, (touch k (old ++ v) l). split_and!.
  - cbn [Put abs_storage]. unfold Abs.Put. rewrite fits_not_too_big by lia.
    cbn [Abs.items exact]. rewrite Hk. erewrite bind_ret; [done|]. apply update_fits; [lia|done].
  - cbn [Put map_storage]. by rewrite touch_map.
  - by apply touch_nodup.
  - rewrite total_touch, (total_erase _ _ _ Hk). lia.
Qed.

Lemma map_get (k : bytes) (m m' : gmap bytes bytes) (o : option bytes) :
  Get k m = Ret o m' → o = m !! k ∧ m' = m.
Proof. by intros [= -> ->]. Qed.

(** What a retrieval leaves on the map tells what is on the list. *)
Lemma agree_get_bind {B} k (K : option bytes → prog Abs.cache B) K' l z :
  (total l ≤ max)%Z → NoDup l.*1 →
  (∀ l', Abs.find k l' = Abs.find k l → NoDup l'.*1 → (total l' ≤ total l)%Z →
         agree (K (Abs.find k l)) (K' (Abs.find k l)) l' z) →
  agree (Get k ≫= K) (Get k ≫= K') l z.
Proof.
  intros Hfit Hnd HK. replace z with (0 + z)%Z by lia.
  eapply agree_bind; [by apply agree_get|]. intros o l' E Hnd' Ht.
  apply map_get in E as [-> Hl']. rewrite find_map. apply HK; [|done|lia].
  by rewrite <-!find_map, Hl'.
Qed.

Lemma agree_items keys out l :
  (total l ≤ max)%Z → NoDup l.*1 → agree (Get_items keys out) (Get_items keys out) l 0.
Proof.
  revert out l. induction keys as [|k keys IH]; intros out l Hfit Hnd; [by apply agree_mret|].
  cbn [Get_items]. apply agree_get_bind; [done..|]. intros l' Hk Hnd' Ht.
  destruct (Abs.find k l); apply IH; lia || done.
Qed.

Lemma agree_execute c args l :
  (total l + command_bytes c args ≤ max)%Z → NoDup l.*1 →
  agree (Execute c args) (Execute c args) l (command_bytes c args).
Proof.
  intros Hfit Hnd.
  assert (∀ i, 0 ≤ bsize (_key i) + bsize args)%Z as Hi.
  { intros i. pose proof (bsize_nonneg (_key i)). pose proof (bsize_nonneg args). lia. }
  destruct c as [i|i|i|i|keys|]; cbn [command_bytes] in *; cbn [Execute];
    try specialize (Hi i).
  - rewrite <-(Z.add_0_r (_ + _)). eapply agree_bind; [by apply agree_put|].
    intros. by apply agree_mret.
  - rewrite <-(Z.add_0_r (_ + _)). eapply agree_bind; [by apply agree_put_if_absent|].
    intros. by apply agree_mret.
  - unfold Append_Execute. apply agree_get_bind; [lia|done|]. intros l' Hk Hnd' Ht.
    destruct (Abs.find (_key i) l) as [old|];
      [|eapply agree_mono; [exact Hi|by apply agree_mret]].
    pose proof (bsize_nonneg (_key i)).
    apply (agree_mono _ _ _ (bsize args + 0)%Z); [lia|].
    eapply agree_bind; [apply agree_put_present; [done|lia|done]|].
    intros. by apply agree_mret.
  - unfold Replace_Execute. apply agree_get_bind; [lia|done|]. intros l' Hk Hnd' Ht.
    destruct (Abs.find (_key i) l) as [old|];
      [|eapply agree_mono; [exact Hi|by apply agree_mret]].
    rewrite <-(Z.add_0_r (_ + _)). eapply agree_bind; [apply agree_set; [done|unfold Abs.esize; cbn; lia|done]|].
    intros. by apply agree_mret.
  - unfold Get_Execute. rewrite <-(Z.add_0_r 0). eapply agree_bind; [apply agree_items; [lia|done]|].
    intros. by apply agree_mret.
  - by apply agree_mret.
Qed.

Lemma agree_session cs l :
  (total l + session_bytes cs ≤ max)%Z → NoDup l.*1 →
  agree (session cs) (session cs) l (session_bytes cs).
Proof.
  revert l. induction cs as [|[c args] cs IH]; intros l Hfit Hnd; [by apply agree_mret|].
  cbn [session session_bytes foldr fst snd] in *. fold (session_bytes cs) in *.
  assert (0 ≤ session_bytes cs)%Z as Hcs.
  { clear. induction cs as [|[c args] cs IH]; simpl; [lia|].
    pose proof (bsize_nonneg args).
    destruct c as [i|i|i|i| |]; simpl; try pose proof (bsize_nonneg (_key i)); lia. }
  eapply agree_bind; [apply agree_execute; [lia|done]|]. intros out l' _ Hnd' Ht.
  rewrite <-(Z.add_0_r (session_bytes cs)). eapply agree_bind; [apply IH; [lia|done]|].
  intros. by apply agree_mret.
Qed.

End session_facts.

(** ** From the abstract cache to the program *)

Section transfer.
Implicit Types (s : SimpleLRU) (c : Abs.cache).

(** [m] refines [ma], from every representation. *)
Definition sim {A} (m : prog SimpleLRU A) (ma : prog Abs.cache A) : Prop :=
  ∀ s c, rep s c → refines (m s) (ma c).

Lemma sim_bind {A B} (m : prog SimpleLRU A) ma (k : A → prog SimpleLRU B) ka :
  sim m ma → (∀ a, sim (k a) (ka a)) → sim (m ≫= k) (ma ≫= ka).
Proof.
  intros Hm Hk s c Hr. specialize (Hm s c Hr). unfold mbind, prog_bind.
  destruct (m s), (ma c); simpl in Hm; try done. destruct Hm as [<- Hm]. by apply Hk.
Qed.

Lemma sim_mret {A} (a : A) : sim (mret a) (mret a).
Proof. by intros s c Hr. Qed.

Lemma sim_items keys out : sim (Get_items keys out) (Get_items keys out).
Proof.
  revert out. induction keys as [|k keys IH]; intros out; [apply sim_mret|].
  apply sim_bind; [intros ???; by apply Get_refines|]. intros [v|]; apply IH.
Qed.

(** Every command refines the same command on the abstract cache. *)
Lemma sim_execute cmd args : sim (Execute cmd args) (Execute cmd args).
Proof.
  assert (∀ k v, sim (Put k v) (Put k v)) as Hp by (intros ?????; by apply Put_refines).
  assert (∀ k, sim (Get k) (Get k)) as Hg by (intros ????; by apply Get_refines).
  destruct cmd as [i|i|i|i|keys|]; cbn [Execute].
  - apply sim_bind; [apply Hp|intros _; apply sim_mret].
  - apply sim_bind; [intros ???; by apply PutIfAbsent_refines|intros b; apply sim_mret].
  - apply sim_bind; [apply Hg|]. intros [v|]; [|apply sim_mret].
    apply sim_bind; [apply Hp|intros _; apply sim_mret].
  - apply sim_bind; [apply Hg|]. intros [v|]; [|apply sim_mret].
    apply sim_bind; [intros ???; by apply Set_refines|intros _; apply sim_mret].
  - apply sim_bind; [apply sim_items|intros b; apply sim_mret].
  - apply sim_mret.
Qed.

Lemma sim_session cs : sim (session cs) (session cs).
Proof.
  induction cs as [|[c args] cs IH]; [apply sim_mret|].
  apply sim_bind; [apply sim_execute|]. intros out.
  apply sim_bind; [apply IH|]. intros outs. apply sim_mret.
Qed.

Lemma session_abs cs s c outs c' :
  rep s c → session cs c = Ret outs c' → ∃ s', session cs s = Ret outs s' ∧ rep s' c'.
Proof.
  intros Hr E. pose proof (sim_session cs s c Hr) as H. rewrite E in H.
  destruct (session cs s) as [r' s'| | |]; simpl in H; try done. destruct H as [<- H]. eauto.
Qed.

Lemma items_total keys out s c :
  rep s c →
  ∃ s' c', Get_items keys out s =
             Ret (out ++ mjoin (omap (λ k, value_item k <$> lru_view s !! k) keys)) s' ∧
           rep s' c' ∧ lru_view s' = lru_view s.
Proof.
  revert out s c. induction keys as [|k keys IH]; intros out s c Hr.
  - exists s, c. by rewrite app_nil_r.
  - cbn [Get_items]. destruct (get_rep s c k Hr) as (s1 & c1 & E1 & Hr1 & Hv1 & _).
    rewrite (bind_ret _ _ _ _ _ E1). cbn [omap list_omap].
    destruct (lru_view s !! k) as [v|];
      cbn [fmap option_fmap option_map].
    + destruct (IH (out ++ value_item k v) s1 c1 Hr1) as (s' & c' & E & Hr' & Hv').
      exists s', c'. rewrite E, Hv1, <-app_assoc. split_and!; [done..|congruence].
    + destruct (IH out s1 c1 Hr1) as (s' & c' & E & Hr' & Hv').
      exists s', c'. rewrite E, Hv1. split_and!; [done..|congruence].
Qed.

End transfer.

(** ** Properties *)

(** As long as all the keys and data of a session fit in the cache, every
    command of the session is defined on it, and the replies are those of an
    unbounded map. *)
Theorem session_fits max cs :
  (session_bytes cs ≤ max < 2 ^ 64)%Z →
  ∃ outs s' m', session cs (SimpleLRU_new max) = Ret outs s' ∧
                session cs (∅ : gmap bytes bytes) = Ret outs m'.
Proof.
  intros [Hfit Hmax].
  destruct (agree_session max Hmax cs []) as (outs & l' & E & E' & _); [done|constructor|].
  destruct (session_abs cs _ _ _ _ (new_exact max) E) as (s' & E'' & _). eauto.
Qed.

(** In every state the calls can reach, a retrieval is defined, replies with the
    associations of the cache and leaves them as they are. *)
Theorem retrieval_total max s keys args :
  reachable max s →
  ∃ s', Execute (Get_cmd keys) args s = Ret (get_reply (lru_view s) keys) s' ∧
        lru_view s' = lru_view s.
Proof.
  intros [[c Hr] _]%reachable_rep. destruct (items_total keys [] s c Hr) as (s' & c' & E & Hr' & Hv).
  exists s'. split; [|done]. cbn [Execute]. unfold Get_Execute. by rewrite (bind_ret _ _ _ _ _ E).
Qed.

(** A refused association is reported as stored: on a cache too small for it,
    set replies STORED and changes nothing, whereas add replies NOT_STORED. *)
Theorem refused_but_stored (i : InsertCommand) (args : bytes) (s : SimpleLRU) :
  (max_size s < bsize (_key i) + bsize args < 2 ^ 64)%Z →
  Execute (Set_cmd i) args s = Ret STORED s ∧ Execute (Add i) args s = Ret NOT_STORED s.
Proof.
  intros Hbig. cbn [Execute]. unfold Set_Execute, Add_Execute, mbind, prog_bind.
  cbn [Put PutIfAbsent lru_storage]. unfold SimpleLRU.Put, SimpleLRU.PutIfAbsent.
  rewrite !bind_gets. unfold too_big. pose proof (bsize_nonneg (_key i)).
  pose proof (bsize_nonneg args). rewrite wrap_small by lia.
  by rewrite (proj2 (Z.ltb_lt _ _)) by lia.
Qed.

Lemma session_fits_witness :
  let cs := [(Set_cmd (mk_insert (lit "k") 0 0), lit "v");
             (Append (mk_insert (lit "k") 0 0), lit "w"); (Get_cmd [lit "k"], [])] in
  ∃ outs s' m', session cs (SimpleLRU_new 4) = Ret outs s' ∧
                session cs (∅ : gmap bytes bytes) = Ret outs m'.
Proof.
  apply (session_fits 4 [(Set_cmd (mk_insert (lit "k") 0 0), lit "v");
             (Append (mk_insert (lit "k") 0 0), lit "w"); (Get_cmd [lit "k"], [])]).
  by vm_compute.
Defined.

Lemma retrieval_total_witness :
  ∃ s', Execute (Get_cmd [lit "b"; lit "z"]) [] abc_state =
          Ret (get_reply (lru_view abc_state) [lit "b"; lit "z"]) s' ∧
        lru_view s' = lru_view abc_state.
Proof. apply (retrieval_total 3). apply abc_reachable. Defined.

Lemma refused_but_stored_witness :
  Execute (Set_cmd (mk_insert (lit "k") 0 0)) (lit "v") (SimpleLRU_new 1) =
    Ret STORED (SimpleLRU_new 1) ∧
  Execute (Add (mk_insert (lit "k") 0 0)) (lit "v") (SimpleLRU_new 1) =
    Ret NOT_STORED (SimpleLRU_new 1).
Proof. apply (refused_but_stored (mk_insert (lit "k") 0 0)). by vm_compute. Defined.
