(* ===== verification/LruConcurrent.v ===== *)
(** * Concurrent commands on the cache

    The commands of several connections, taken apart at their calls in MtCommands.v, on the
    cache that the program shares between them: each call of ThreadSafeSimplLRU is atomic
    ([ThreadSafe.thread_safe_linearizable]) and is the call of SimpleLRU.v. *)

From S2P Require Import Prelude SimpleLRU Storage LruStorage Commands MtCommands LruCommands.

(** ** What the commands that run can still store *)

(** Bytes that the calls to come of a command with these answers can add. *)
Definition pending (x : (Command * bytes) * list resp) : Z :=
  if decide (length x.2 < calls x.1.1) then command_bytes x.1.1 x.1.2 else 0.

Definition pending_all (l : list ((Command * bytes) * list resp)) : Z :=
  foldr (λ x z, pending x + z)%Z 0%Z l.

(** ** The pool on the cache and on a map *)

Section simulation.
Context (max : Z) (Hmax : (max < 2 ^ 64)%Z).

Abbreviation amap := (list_to_map (M := gmap bytes bytes)).

(** The same commands with the same answers; the cache holds what the map holds, and has
    room for what is still to be stored. *)
Definition follows (p : pool SimpleLRU) (q : pool (gmap bytes bytes)) : Prop :=
  running p = running q ∧ ∃ l, rep (shared p) (exact max l) ∧ NoDup l.*1 ∧
    shared q = amap l ∧ (total l + pending_all (running p) ≤ max)%Z.

Lemma pending_nonneg x : (0 ≤ pending x)%Z.
Proof. unfold pending. case_decide; [apply command_bytes_nonneg|done]. Qed.

Lemma pending_all_nonneg l : (0 ≤ pending_all l)%Z.
Proof.
  unfold pending_all. induction l as [|x l IH]; cbn [foldr]; [lia|]. pose proof (pending_nonneg x). lia.
Qed.

Lemma pending_le l i x : l !! i = Some x → (pending x ≤ pending_all l)%Z.
Proof.
  unfold pending_all. revert i. induction l as [|y l IH]; intros [|i] E; cbn [foldr]; try done.
  - injection E as ->. pose proof (pending_all_nonneg l) as H. unfold pending_all in H. lia.
  - pose proof (pending_nonneg y). specialize (IH i E). lia.
Qed.

Lemma pending_insert l i x y :
  l !! i = Some x → (pending_all (<[i := y]> l) = pending_all l - pending x + pending y)%Z.
Proof.
  unfold pending_all. revert i. induction l as [|z l IH]; intros [|i] E; try done.
  - injection E as ->. change (<[0 := y]> (x :: l)) with (y :: l). cbn [foldr]. lia.
  - change (<[S i := y]> (z :: l)) with (z :: <[i := y]> l). cbn [foldr]. rewrite (IH _ E). lia.
Qed.

(** The call that a command is at, by the kind of the command. *)
Lemma next_call c args rs o :
  one_point c = true → proceed (c, args) rs = Calls o →
  length rs < calls c ∧
  match o with
  | OpPut k v | OpPutIfAbsent k v | OpSet k v =>
      S (length rs) = calls c ∧ Abs.esize (k, v) = command_bytes c args
  | OpGet _ => True
  | OpDelete _ => False
  end.
Proof.
  destruct c as [i|i|i|i|keys|]; try done; intros Hp.
  - rewrite proceed_set. destruct rs as [|[] ?]; intros; simplify_eq/=. split; [lia|done].
  - rewrite proceed_add. destruct rs as [|[] ?]; intros; simplify_eq/=. split; [lia|done].
  - rewrite proceed_replace. destruct rs as [|[|[v|]] [|[] ?]]; intros; simplify_eq/=; (split; [lia|done]).
  - destruct keys as [|k [|? ?]]; [done| |done]. destruct rs as [|r rs].
    + intros [= <-]. split; [cbn; lia|done].
    + unfold proceed. cbn. unfold Get_Execute, Get_items, mbind, prog_bind. cbn. unfold mbind, prog_bind, ask. cbn.
      destruct r as [b|[v|]]; cbn; intros; done.
Qed.

(** A call of the commands that fits adds no more than was pending. *)
Lemma call_bytes c args rs o r :
  one_point c = true → proceed (c, args) rs = Calls o →
  ∃ z, op_bytes o = Some z ∧ (0 ≤ z)%Z ∧ (z + pending ((c, args), rs ++ [r]) ≤ pending ((c, args), rs))%Z.
Proof.
  intros Hp Hc. destruct (next_call c args rs o Hp Hc) as [Hl Ho]. unfold pending. cbn [fst snd].
  rewrite (decide_True _ _ Hl), length_app. cbn [length]. pose proof (command_bytes_nonneg c args).
  destruct o as [k v|k v|k v|k|k]; try done; cbn [op_bytes].
  1-3: destruct Ho as [Hs Hb]; exists (command_bytes c args); rewrite Hb, decide_False by lia; split_and!; [done|lia..].
  exists 0%Z. by case_decide; split_and!; try lia.
Qed.

Lemma exec_both o z l : op_bytes o = Some z → (total l + z ≤ max)%Z → NoDup l.*1 →
  ∀ s, rep s (exact max l) → ∃ r l' s', exec o s = Ret r s' ∧ rep s' (exact max l') ∧
    exec o (amap l) = Ret r (amap l') ∧ NoDup l'.*1 ∧ (total l' ≤ total l + z)%Z.
Proof.
  intros Hz Hfit Hnd s Hr. destruct (agree_exec max Hmax o z l Hz Hfit Hnd) as (r & l' & E & E' & Hnd' & Ht).
  pose proof (exec_refines s _ o Hr) as H. rewrite E in H.
  destruct (exec o s) as [r' s'| | |]; try done. destruct H as [-> Hr']. by exists r, l', s'.
Qed.

(** One call: it is defined on the cache, and both go on together. *)
Lemma follows_step i p q c args rs o :
  follows p q → running p !! i = Some ((c, args), rs) → one_point c = true →
  proceed (c, args) rs = Calls o →
  ∃ p' q', pool_step i p = Some p' ∧ pool_step i q = Some q' ∧ follows p' q'.
Proof.
  intros (Hrun & l & Hr & Hnd & Hsh & Hfit) Ei Hp Hc.
  assert (∀ r, (pending_all (<[i := ((c, args), rs ++ [r])]> (running p)) =
    pending_all (running p) - pending ((c, args), rs) + pending ((c, args), rs ++ [r]))%Z) as Hup.
  { intros r. by apply pending_insert. }
  destruct (call_bytes c args rs o (RBool true) Hp Hc) as (z & Hz & Hz0 & Hle0).
  pose proof (pending_nonneg ((c, args), rs ++ [RBool true])).
  assert (pending ((c, args), rs) ≤ pending_all (running p))%Z as Hin.
  { by eapply pending_le. }
  destruct (exec_both o z l Hz ltac:(lia) Hnd (shared p) Hr) as (r & l' & s' & E & Hr' & E' & Hnd' & Ht).
  exists (mk_pool (<[i := ((c, args), rs ++ [r])]> (running p)) s'),
         (mk_pool (<[i := ((c, args), rs ++ [r])]> (running q)) (amap l')).
  unfold pool_step. rewrite <-Hrun, Ei. cbn. rewrite Hc, E, Hsh, E'. split_and!; [done..|].
  split; [done|]. exists l'. split_and!; [done..|]. cbn [running]. rewrite Hup.
  destruct (call_bytes c args rs o r Hp Hc) as (z' & Hz' & _ & Hle). simplify_eq. lia.
Qed.

Lemma pool_step_commands {S} `{Storage S} i (p p' : pool S) :
  pool_step i p = Some p' → (running p').*1 = (running p).*1.
Proof.
  unfold pool_step. destruct (running p !! i) as [[c rs]|] eqn:Ei; [|done]. cbn.
  repeat case_match; try done. intros [= <-]. cbn. rewrite list_fmap_insert. cbn.
  apply list_insert_id. by rewrite list_lookup_fmap, Ei.
Qed.

Lemma follows_run schedule p q p' :
  Forall (λ c, one_point c.1 = true) (running p).*1 → follows p q → pool_run schedule p = Some p' →
  ∃ q', pool_run schedule q = Some q' ∧ follows p' q'.
Proof.
  revert p q. induction schedule as [|i schedule IH]; intros p q Hcs Hf E; cbn in E; [simplify_eq; by exists q|].
  apply bind_Some in E as (p1 & E1 & E). pose proof (pool_step_commands _ _ _ E1) as Hc1.
  unfold pool_step in E1. destruct (running p !! i) as [[[c args] rs]|] eqn:Ei; [|done]. cbn in E1.
  destruct (proceed (c, args) rs) as [o| |] eqn:Ec; try done.
  assert (one_point c = true) as Hp.
  { apply (Forall_lookup_1 _ _ i (c, args) Hcs). by rewrite list_lookup_fmap, Ei. }
  destruct (follows_step i p q c args rs o Hf Ei Hp Ec) as (p2 & q2 & E2 & Eq2 & Hf2).
  unfold pool_step in E2. rewrite Ei in E2. cbn in E2. rewrite Ec in E2.
  assert (p2 = p1) as -> by congruence. cbn. rewrite Eq2. cbn. apply (IH p1 q2); [by rewrite Hc1|done..].
Qed.

Lemma follows_reply p q i : follows p q → reply_of p i = reply_of q i.
Proof. intros [Hrun _]. unfold reply_of. by rewrite Hrun. Qed.

Lemma pending_start cs : (pending_all ((λ c, (c, [])) <$> cs) ≤ session_bytes cs)%Z.
Proof.
  unfold pending_all, session_bytes. induction cs as [|[c args] cs IH]; [done|].
  rewrite fmap_cons. cbn [foldr]. unfold pending at 1. cbn [fst snd].
  pose proof (command_bytes_nonneg c args). case_decide; lia.
Qed.

Lemma follows_start cs : (session_bytes cs ≤ max)%Z → follows (start cs (SimpleLRU_new max)) (start cs ∅).
Proof.
  intros Hfit. split; [done|]. exists []. split_and!; [apply new_exact|constructor|done|].
  cbn [running start]. pose proof (pending_start cs). cbn [total foldr]. lia.
Qed.

Lemma follows_view p q : follows p q → lru_view (shared p) = shared q.
Proof. intros (_ & l & Hr & _ & -> & _). by rewrite (rep_view _ _ Hr). Qed.

End simulation.

(** ** Properties *)

(** C14: commands of concurrent connections on the cache of the program, each call of
    which is atomic, are linearizable when none of them is an Append or a Get of several
    keys and their keys and data fit in the cache together, so that nothing is refused or
    evicted: however the calls interleave, a command that is not done has a next call and
    the cache answers it; and when all are done every reply and the associations in the cache
    are the ones of executing the commands one after another on an unbounded map, each at
    its last call; Replace too, that reads before it stores, since no command of the
    protocol deletes. *)
Theorem concurrent_commands max (cs : list (Command * bytes)) schedule p :
  Forall (λ c, one_point c.1 = true) cs → (session_bytes cs ≤ max < 2 ^ 64)%Z →
  pool_run schedule (start cs (SimpleLRU_new max)) = Some p →
  (∀ i, i < length cs → reply_of p i = None → is_Some (pool_step i p)) ∧
  ((∀ i, i < length cs → is_Some (reply_of p i)) →
   order cs schedule ≡ₚ seq 0 (length cs) ∧
   session (omap (cs !!.) (order cs schedule)) (∅ : gmap bytes bytes) =
   Ret (omap (reply_of p) (order cs schedule)) (lru_view (shared p))).
Proof.
  intros Hcs [Hfit Hmax] Hrun. pose proof (follows_start max cs Hfit) as Hf.
  assert (Forall (λ c, one_point c.1 = true) (running (start cs (SimpleLRU_new max))).*1) as Hcs0.
  { cbn [running start]. rewrite <-list_fmap_compose. unfold compose. cbn [fst]. by rewrite list_fmap_id. }
  destruct (follows_run max Hmax schedule _ _ _ Hcs0 Hf Hrun) as (q & Hq & Hfq). split.
  - intros i Hi Hno. rewrite (follows_reply max _ _ _ Hfq) in Hno.
    destruct (running_call cs ∅ schedule q i Hcs Hq Hi Hno) as (c & args & rs & o & Ei & Hp & Hc).
    destruct Hfq as [Hr Hl]. rewrite <-Hr in Ei.
    destruct (follows_step max Hmax i p q c args rs o (conj Hr Hl) Ei Hp Hc) as (p' & _ & E & _). by rewrite E.
  - intros Hdone. rewrite (follows_view max _ _ Hfq).
    destruct (interleaved_map cs ∅ schedule q Hcs Hq) as [Ho Hs].
    { intros i Hi. rewrite <-(follows_reply max _ _ _ Hfq). by apply Hdone. }
    split; [done|]. rewrite Hs. f_equal. apply omap_ext_in. intros i _. symmetry. by apply (follows_reply max).
Qed.

(** A Replace, a Set and an Add of one key behind a Set, with the Set between the calls of the
    Replace. *)
Lemma concurrent_commands_witness :
  let i := mk_insert (lit "k") 0 0 in
  let cs := [(Set_cmd i, lit "0"); (Replace i, lit "r"); (Set_cmd i, lit "s"); (Add i, lit "a")] in
  session (omap (cs !!.) [0; 2; 3; 1]) (∅ : gmap bytes bytes) =
  Ret [STORED; STORED; NOT_STORED; STORED] {[ lit "k" := lit "r" ]}.
Proof.
  intros i cs.
  destruct (pool_run [0; 1; 2; 3; 1] (start cs (SimpleLRU_new 8))) as [p|] eqn:E; [|vm_compute in E; discriminate].
  destruct (concurrent_commands 8 cs [0; 1; 2; 3; 1] p) as [_ H].
  - by repeat constructor.
  - by vm_compute.
  - exact E.
  - etrans; [apply H|].
    + injection E as <-. intros [|[|[|[|i']]]] Hi; [by eexists..|cbn in Hi; lia].
    + injection E as <-. vm_compute. reflexivity.
Defined.

(** Where the data does not fit, a Replace whose key is evicted between its calls replies
    STORED and stores nothing, which it does in no order of the commands one after another. *)
Example replace_of_evicted :
  let cs := [(Set_cmd (mk_insert (lit "a") 0 0), lit "1"); (Set_cmd (mk_insert (lit "b") 0 0), lit "1");
             (Replace (mk_insert (lit "a") 0 0), lit "2"); (Set_cmd (mk_insert (lit "c") 0 0), lit "1");
             (Set_cmd (mk_insert (lit "d") 0 0), lit "1")] in
  match pool_run [0; 1; 2; 3; 4; 2] (start cs (SimpleLRU_new 4)) with
  | Some p => reply_of p 2 = Some STORED ∧ contents (shared p) = [(lit "c", lit "1"); (lit "d", lit "1")]
  | None => False
  end.
Proof. vm_compute. done. Qed.
