(* ===== verification/Connection.v ===== *)
(** * A connection: the loop that turns bytes into commands

    The four servers of src/sysprog/afina/src/network share, by copies, one loop:
    it parses a command line, waits for the data block, executes the command and
    hands the reply on.  It is modelled once, over the hooks in which the copies
    differ: what is done with a reply, and whether the server still runs.  The
    specification is a machine that takes one byte at a time. *)

From S2P Require Import Prelude Storage Commands Parser.

(** ** State *)

(** The locals of [OnRun] and [_connection_processing], the members of
    [Connection]: parser, command being read, bytes of data it still misses (never
    initialised before the first command) and data read; with the storage, and the
    rest of the world of a particular server. *)
Record World (S R : Type) : Type := mk_world {
  parser : Parser;
  arg_remains : option Z;
  argument_for_command : bytes;
  command_to_execute : option Command;
  pStorage : S;
  io : R;
}.
Arguments mk_world {S R} _ _ _ _ _ _.
Arguments parser {S R} _.
Arguments arg_remains {S R} _.
Arguments argument_for_command {S R} _.
Arguments command_to_execute {S R} _.
Arguments pStorage {S R} _.
Arguments io {S R} _.

Section world.
Context {S R : Type}.
Implicit Types (w : World S R).

Definition set_parser (p : Parser) w : World S R :=
  mk_world p (arg_remains w) (argument_for_command w) (command_to_execute w) (pStorage w) (io w).
Definition set_remains (z : Z) w : World S R :=
  mk_world (parser w) (Some z) (argument_for_command w) (command_to_execute w) (pStorage w) (io w).
Definition set_argument (a : bytes) w : World S R :=
  mk_world (parser w) (arg_remains w) a (command_to_execute w) (pStorage w) (io w).
Definition set_command (c : option Command) w : World S R :=
  mk_world (parser w) (arg_remains w) (argument_for_command w) c (pStorage w) (io w).
Definition set_storage (s : S) w : World S R :=
  mk_world (parser w) (arg_remains w) (argument_for_command w) (command_to_execute w) s (io w).
Definition set_io (r : R) w : World S R :=
  mk_world (parser w) (arg_remains w) (argument_for_command w) (command_to_execute w)
    (pStorage w) r.

(** [command_to_execute.reset(); argument_for_command.resize(0); parser.Reset();] *)
Definition next_command w : World S R :=
  mk_world (Reset (parser w)) (arg_remains w) [] None (pStorage w) (io w).

End world.

(** A connection that has read nothing yet. *)
Definition new_world {S R} (s : S) (r : R) : World S R :=
  mk_world Parser_new None [] None s r.

(** ** The loop *)

Section loop.
Context {S R : Type} `{Storage S}.
(** What a server does with the reply to a command, and the condition that
    mt_blocking adds to its loops. *)
Variable respond : bytes → prog R unit.
Variable running : prog R bool.

(** [command_to_execute = parser.Build(arg_remains); if (arg_remains > 0) arg_remains += 2;] *)
Definition build_command : prog (World S R) unit :=
  r ← zoom parser set_parser Build;
  match r with
  | Some (c, size) => modify (set_remains size);; modify (set_command (Some c))
  | None => modify (set_command None)
  end;;
  arg ← gets arg_remains ≫= the Uninitialised;
  if (0 <? arg)%Z then modify (set_remains (wrap64 (arg + 2))) else mret tt.

(** [if (parser.Parse(client_buffer, readed_bytes, parsed)) { ... }]: [parsed]. *)
Definition parse_command (buffer : bytes) : prog (World S R) Z :=
  '(complete, parsed) ← zoom parser set_parser (Parse buffer);
  (if complete : bool then build_command else mret tt);;
  mret parsed.

(** [if (!command_to_execute) { ... }]: the unread rest of the buffer, or nothing
    for [break]. *)
Definition parse_step (buffer : bytes) : prog (World S R) (option bytes) :=
  c ← gets command_to_execute;
  match c with
  | Some _ => mret (Some buffer)
  | None =>
    parsed ← parse_command buffer;
    if (parsed =? 0)%Z then mret None
    else mret (Some (drop (Z.to_nat parsed) buffer))
  end.

(** [if (command_to_execute && arg_remains > 0) { ... }]: the rest of the buffer. *)
Definition fill_step (buffer : bytes) : prog (World S R) bytes :=
  c ← gets command_to_execute;
  match c with
  | None => mret buffer
  | Some _ =>
    arg ← gets arg_remains ≫= the Uninitialised;
    if (0 <? arg)%Z then
      let to_read := Z.min arg (bsize buffer) in
      a ← gets argument_for_command;
      modify (set_argument (a ++ take (Z.to_nat to_read) buffer));;
      modify (set_remains (arg - to_read));;
      mret (drop (Z.to_nat to_read) buffer)
    else mret buffer
  end.

(** [if (command_to_execute && arg_remains == 0) { ... }] *)
Definition run_step : prog (World S R) unit :=
  c ← gets command_to_execute;
  match c with
  | None => mret tt
  | Some c =>
    arg ← gets arg_remains ≫= the Uninitialised;
    if (arg =? 0)%Z then
      a ← gets argument_for_command;
      result ← zoom pStorage set_storage (Execute c a);
      zoom io set_io (respond result);;
      modify next_command
    else mret tt
  end.

(** [while (readed_bytes > 0) { ... }]; every turn but a broken off one reads a byte
    at least, so that the length of the buffer is enough fuel. *)
Fixpoint drain (fuel : nat) (buffer : bytes) : prog (World S R) unit :=
  r ← zoom io set_io running;
  if negb r then mret tt
  else
    match buffer, fuel with
    | [], _ => mret tt
    | _, O => out_of_fuel
    | _, Datatypes.S fuel =>
      rest ← parse_step buffer;
      match rest with
      | None => mret tt
      | Some buffer =>
        buffer ← fill_step buffer;
        run_step;;
        drain fuel buffer
      end
    end.

Definition process (buffer : bytes) : prog (World S R) unit := drain (length buffer) buffer.

(** Successive blocks of bytes read from the socket. *)
Fixpoint process_all (blocks : list bytes) : prog (World S R) unit :=
  match blocks with
  | [] => mret tt
  | b :: blocks => process b;; process_all blocks
  end.

(** ** The machine that takes a byte at a time *)

Definition byte_step (c : ascii) : prog (World S R) unit :=
  cmd ← gets command_to_execute;
  match cmd with
  | None =>
    _ ← parse_command [c];
    run_step
  | Some _ =>
    arg ← gets arg_remains ≫= the Uninitialised;
    a ← gets argument_for_command;
    modify (set_argument (a ++ [c]));;
    modify (set_remains (arg - 1));;
    run_step
  end.

Fixpoint byte_steps (input : bytes) : prog (World S R) unit :=
  match input with
  | [] => mret tt
  | c :: input => byte_step c;; byte_steps input
  end.

End loop.

(** Between blocks: no finished line waits for its command, no finished command
    waits to be run. *)
Definition between {S R} (w : World S R) : Prop :=
  u32_range (bytes_ (parser w)) ∧
  match command_to_execute w with
  | None => parse_complete (parser w) = false
  | Some _ => ∃ n, arg_remains w = Some n ∧ (0 < n)%Z
  end.

(** The same with a finished command possible. *)
Definition ready {S R} (w : World S R) : Prop :=
  u32_range (bytes_ (parser w)) ∧
  match command_to_execute w with
  | None => parse_complete (parser w) = false
  | Some _ => ∃ n, arg_remains w = Some n ∧ (0 ≤ n)%Z
  end.

(** ** The loop is the machine *)

Section parse_more.
Implicit Types (p : Parser).

(** The size of the data block stays in its 32 bits. *)
Lemma parse_char_bytes c pos p u p' :
  parse_char c pos p = Ret u p' → u32_range (bytes_ p) → u32_range (bytes_ p').
Proof.
  intros E Hb. destruct p as [st nm ks fl et bs ng ck pc]. unfold parse_char in E. cbn in *.
  destruct st; cbn in E; try done;
    unfold parse_name, parse_spKey, parse_sgKey, parse_flags, parse_exprtime_start,
      parse_exprtime, parse_bytes, parse_LF, add_i32, the,
      mbind, prog_bind, mret, prog_ret, get, modify, throw, undef in E;
    repeat case_match; cbn in *; simplify_eq/=; try done; apply wrap32_range.
Qed.

Lemma parse_loop_bytes x pos p m p' :
  parse_loop x pos p = Ret m p' → u32_range (bytes_ p) → u32_range (bytes_ p').
Proof.
  revert pos p. induction x as [|c x IH]; intros pos p; simpl; [by intros [= <- <-]|].
  destruct (parse_complete p); [by intros [= <- <-]|].
  intros E Hb. bind_inv E. eapply IH; [exact E|]. by eapply parse_char_bytes.
Qed.

(** A line is completed in the state behind the carriage return. *)
Lemma parse_char_state c pos p u p' :
  parse_char c pos p = Ret u p' → parse_complete p = false → parse_complete p' = true →
  state p' = sLF.
Proof.
  intros E Hpc Hpc'. destruct p as [st nm ks fl et bs ng ck pc]. unfold parse_char in E.
  cbn in *. destruct st; cbn in E; try done;
    unfold parse_name, parse_spKey, parse_sgKey, parse_flags, parse_exprtime_start,
      parse_exprtime, parse_bytes, parse_LF, add_i32, the,
      mbind, prog_bind, mret, prog_ret, get, modify, throw, undef in E;
    repeat case_match; cbn in *; simplify_eq/=; try congruence; done.
Qed.

Lemma parse_loop_state x pos p m p' :
  parse_loop x pos p = Ret m p' → parse_complete p = false → parse_complete p' = true →
  state p' = sLF.
Proof.
  revert pos p. induction x as [|c x IH]; intros pos p; simpl; [intros [= <- <-]; congruence|].
  intros E Hpc Hpc'. rewrite Hpc in E. bind_inv E. destruct (parse_complete s) eqn:Hs.
  - rewrite parse_loop_complete in E by done. injection E as <- <-. by eapply parse_char_state.
  - by eapply IH.
Qed.

(** [Build] behind a complete line returns a command and the size it has read. *)
Lemma Build_sLF p r p' :
  state p = sLF → Build p = Ret r p' → p' = p ∧ ∃ c, r = Some (c, bytes_ p).
Proof.
  intros Hst. unfold Build, mbind, prog_bind, get. rewrite decide_False by (by intros []).
  unfold keys_0, gets, the, mbind, prog_bind, mret, prog_ret, undef, throw.
  repeat case_match; intros; simplify_eq; eauto.
Qed.

(** How [Parse] relates the number of bytes consumed to its result. *)
Lemma parse_loop_count x pos p m p' :
  parse_loop x pos p = Ret m p' →
  (pos ≤ m ≤ pos + bsize x)%Z ∧ (parse_complete p' = false → m = (pos + bsize x)%Z) ∧
  (parse_complete p = false → x ≠ [] → pos < m)%Z.
Proof.
  revert pos p. induction x as [|c x IH]; intros pos p; cbn [parse_loop].
  - intros [= <- <-]. rewrite bsize_nil. split_and!; [lia..|done].
  - pose proof (bsize_nonneg x). rewrite bsize_cons. destruct (parse_complete p) eqn:Hpc.
    + intros [= <- <-]. split_and!; [lia..|congruence|done].
    + intros E. bind_inv E. destruct (IH _ _ E) as (? & Hall & _).
      split_and!; [lia..|intros ->%Hall; lia|lia].
Qed.

End parse_more.

Section loop_facts.
Context {S R : Type} `{Storage S}.
Variable respond : bytes → prog R unit.
Variable running : prog R bool.
Hypothesis Hrunning : ∀ r, running r = Ret true r.
Implicit Types (w : World S R) (b : bytes).

Abbreviation run_step := (run_step (S := S) respond).
Abbreviation drain := (drain (S := S) respond running).
Abbreviation byte_step := (byte_step (S := S) respond).
Abbreviation byte_steps := (byte_steps (S := S) respond).

Lemma zoom_ret {T U A} (prj : T → U) (inj : U → T → T) (m : prog U A) t a t' :
  zoom prj inj m t = Ret a t' → ∃ u, m (prj t) = Ret a u ∧ t' = inj u t.
Proof. unfold zoom. destruct (m (prj t)); intros; simplify_eq; eauto. Qed.

Lemma zoom_same {T U A} (prj : T → U) (inj : U → T → T) (m m' : prog U A) t :
  erase_message (m (prj t)) = erase_message (m' (prj t)) →
  erase_message (zoom prj inj m t) = erase_message (zoom prj inj m' t).
Proof. unfold zoom. by destruct (m (prj t)), (m' (prj t)); simpl; intros; simplify_eq. Qed.

(** *** What each part of a turn leaves *)

Lemma build_command_ready w u w' :
  command_to_execute w = None → u32_range (bytes_ (parser w)) → state (parser w) = sLF →
  build_command w = Ret u w' →
  ready w' ∧ is_Some (command_to_execute w') ∧ argument_for_command w' = argument_for_command w.
Proof.
  intros Hc Hb Hst E. unfold build_command in E. bind_inv E.
  apply zoom_ret in E0 as (p & E0 & ->).
  destruct (Build_sLF _ _ _ Hst E0) as [-> [c ->]].
  unfold mbind, prog_bind, gets, the, modify, mret, prog_ret in E.
  cbn in E. pose proof Hb as [Hb0 Hb1].
  destruct (Z.ltb_spec 0 (bytes_ (parser w))); injection E as <- <-; cbn;
    (split; [split; [done|]; cbn; eexists; split; [done|]|eauto]).
  - rewrite wrap_small by lia. lia.
  - lia.
Qed.

(** Parsing on a connection between blocks. *)
Lemma parse_command_ready b w n w' :
  between w → command_to_execute w = None → parse_command b w = Ret n w' →
  ready w' ∧ argument_for_command w' = argument_for_command w ∧
  (0 ≤ n ≤ bsize b)%Z ∧ (b ≠ [] → 0 < n)%Z ∧ (command_to_execute w' = None → n = bsize b).
Proof.
  intros [Hb Hw] Hc E. rewrite Hc in Hw. unfold parse_command in E. bind_inv E.
  destruct a as [complete parsed]. apply zoom_ret in E0 as (p & E0 & ->).
  unfold Parse in E0. bind_inv E0. injection E0 as <- <- <-.
  destruct (parse_loop_count _ _ _ _ _ E1) as (Hn & Hall & Hpos).
  pose proof (parse_loop_bytes _ _ _ _ _ E1 Hb) as Hb'.
  bind_inv E. injection E as <- <-. destruct (parse_complete s) eqn:Hpc.
  - destruct (build_command_ready (set_parser s w) _ _ Hc Hb' (parse_loop_state _ _ _ _ _ E1 Hw Hpc) E0)
      as (Hr & [cmd Hcmd] & Harg).
    refine (conj Hr (conj Harg _)). split_and!; [lia|lia|auto|congruence].
  - injection E0 as <- <-. cbn. split; [|split; [done|split_and!; [lia|lia|auto|]]].
    + split; [done|]. cbn. by rewrite Hc.
    + intros _. rewrite Hall; [lia|done].
Qed.

Lemma run_step_between w u w' : ready w → run_step w = Ret u w' → between w'.
Proof.
  intros [Hb Hw] E. unfold run_step in E. unfold mbind at 1, prog_bind at 1 in E.
  unfold gets at 1 in E. cbv beta iota in E.
  destruct (command_to_execute w) as [c|] eqn:Hc.
  - destruct Hw as (n & Hn & Hpos). unfold mbind at 1, prog_bind at 1 in E.
    unfold mbind at 1, prog_bind at 1, gets at 1 in E. rewrite Hn in E. cbn [the mret prog_ret] in E.
    destruct (Z.eqb_spec n 0) as [->|Hne].
    + bind_inv E. bind_inv E. bind_inv E. injection E as <- <-.
      apply zoom_ret in E2 as (r & _ & ->). apply zoom_ret in E1 as (s1' & _ & ->).
      injection E0 as <- <-. split; [|done]. split; done.
    + injection E as <- <-. split; [done|]. rewrite Hc. exists n. split; [done|]. lia.
  - injection E as <- <-. split; [done|]. by rewrite Hc.
Qed.

(** Filling never fails, and reads a byte if one is missing and there is one. *)
Lemma fill_step_ready b w :
  ready w →
  ∃ b' w', fill_step b w = Ret b' w' ∧ ready w' ∧ length b' ≤ length b ∧
           (between w → is_Some (command_to_execute w) → b ≠ [] → length b' < length b).
Proof.
  intros [Hb Hw]. unfold fill_step, mbind, prog_bind, gets.
  destruct (command_to_execute w) as [c|] eqn:Hc.
  - destruct Hw as (n & Hn & Hpos). rewrite Hn. cbn [the mret prog_ret].
    destruct (Z.ltb_spec 0 n) as [Hlt|Hge].
    + eexists _, _. split; [done|]. rewrite length_drop.
      split; [split; [done|]; cbn; rewrite Hc; eexists; split; [done|lia]|].
      split; [lia|]. intros _ _ Hne. destruct b as [|x b]; [done|].
      unfold bsize. simpl. lia.
    + eexists _, _. split; [done|]. split; [split; [done|]; rewrite Hc; eauto|].
      split; [done|]. intros [_ Hbt]. rewrite Hc in Hbt. destruct Hbt as (n' & Hn' & ?).
      rewrite Hn in Hn'. simplify_eq. lia.
  - exists b, w. split; [done|]. split; [by split; [|rewrite Hc]|].
    split; [done|]. intros _ []. done.
Qed.

Lemma between_ready w : between w → ready w.
Proof.
  intros [Hb Hw]. split; [done|]. destruct (command_to_execute w); [|done].
  destruct Hw as (n & Hn & ?). exists n. split; [done|lia].
Qed.

(** What follows the parsing in a turn. *)
Abbreviation tail f b := (b' ← fill_step b; run_step;; drain f b').

Lemma drain_nil f w : drain f [] w = Ret tt w.
Proof.
  destruct f; cbn [Connection.drain]; unfold mbind, prog_bind, zoom; rewrite Hrunning;
    by destruct w.
Qed.

Lemma drain_Some f b w :
  is_Some (command_to_execute w) → b ≠ [] → drain (Datatypes.S f) b w = tail f b w.
Proof.
  intros [c Hc] Hb. destruct b as [|x b]; [done|]. cbn [Connection.drain].
  unfold mbind at 1, prog_bind at 1, zoom at 1. rewrite Hrunning. cbn [negb].
  replace (set_io (io w) w) with w by by destruct w.
  unfold mbind at 1, prog_bind at 1, parse_step. rewrite (bind_ret _ _ w (Some c) w); [done|].
  unfold gets. by rewrite Hc.
Qed.

Lemma drain_None f b w :
  between w → command_to_execute w = None → b ≠ [] →
  drain (Datatypes.S f) b w = (n ← parse_command b; tail f (drop (Z.to_nat n) b)) w.
Proof.
  intros Hw Hc Hb. destruct b as [|x b]; [done|]. cbn [Connection.drain].
  unfold mbind at 1, prog_bind at 1, zoom at 1. rewrite Hrunning. cbn [negb].
  replace (set_io (io w) w) with w by by destruct w.
  unfold mbind at 1, prog_bind at 1, parse_step. rewrite (bind_ret _ _ w None w).
  2: { unfold gets. by rewrite Hc. }
  unfold mbind at 1, prog_bind at 1.
  unfold mbind at 3, prog_bind at 3.
  destruct (parse_command (x :: b) w) as [n w'| | |] eqn:E; try done.
  destruct (parse_command_ready _ _ _ _ Hw Hc E) as (_ & _ & _ & Hpos & _).
  rewrite (proj2 (Z.eqb_neq n 0)) by (specialize (Hpos Hb); lia). done.
Qed.

Lemma tail_ext f f' b w :
  ready w →
  (∀ b' w1 w', fill_step b w = Ret b' w1 → between w' → drain f b' w' = drain f' b' w') →
  tail f b w = tail f' b w.
Proof.
  intros Hw Hd. destruct (fill_step_ready b w Hw) as (b' & w' & E & Hw' & _).
  rewrite !(bind_ret _ _ _ _ _ E). unfold mbind, prog_bind.
  destruct (run_step w') as [[] w''| | |] eqn:E'; try done.
  eapply Hd; [done|]. by eapply run_step_between.
Qed.

(** More fuel than bytes changes nothing. *)
Lemma drain_fuel f f' b w :
  between w → length b ≤ f → length b ≤ f' → drain f b w = drain f' b w.
Proof.
  revert f' b w. induction f as [|f IH]; intros f' b w Hw Hf Hf'.
  { destruct b; [|simpl in Hf; lia]. by rewrite !drain_nil. }
  destruct (decide (b = [])) as [->|Hb]; [by rewrite !drain_nil|].
  destruct f' as [|f']; [destruct b; simpl in *; [done|lia]|].
  destruct (command_to_execute w) as [c|] eqn:Hc.
  - rewrite !drain_Some by eauto. apply tail_ext; [by apply between_ready|].
    intros b' w1 w' E Hw'.
    destruct (fill_step_ready b w (between_ready w Hw)) as (b2 & w2 & E2 & _ & _ & Hlt).
    rewrite E in E2. simplify_eq. specialize (Hlt Hw ltac:(eauto) Hb). apply IH; [done|lia..].
  - rewrite !drain_None by done. unfold mbind at 1, prog_bind at 1.
    unfold mbind at 3, prog_bind at 3.
    destruct (parse_command b w) as [n w1| | |] eqn:E; try done.
    destruct (parse_command_ready _ _ _ _ Hw Hc E) as (Hw1 & _ & Hn & Hpos & _).
    apply tail_ext; [done|]. intros b' w2 w' E2 Hw'.
    destruct (fill_step_ready (drop (Z.to_nat n) b) w1 Hw1) as (b3 & w3 & E3 & _ & Hle & _).
    rewrite E2 in E3. simplify_eq. rewrite length_drop in Hle. specialize (Hpos Hb).
    destruct b; [done|]. simpl in *. apply IH; [done|lia..].
Qed.

(** *** One byte of the loop *)

Lemma fill_cons c b w n :
  is_Some (command_to_execute w) → arg_remains w = Some n → (0 < n)%Z →
  fill_step (c :: b) w =
  fill_step b (set_remains (n - 1) (set_argument (argument_for_command w ++ [c]) w)).
Proof.
  intros [cmd Hc] Hn Hpos. unfold fill_step, mbind, prog_bind, gets, modify.
  cbn [command_to_execute set_remains set_argument arg_remains argument_for_command].
  rewrite Hc, Hn. cbn [the mret prog_ret]. rewrite (proj2 (Z.ltb_lt 0 n)) by done.
  rewrite bsize_cons. pose proof (bsize_nonneg b).
  assert (Z.to_nat (Z.min n (1 + bsize b)) = Datatypes.S (Z.to_nat (Z.min (n - 1) (bsize b)))) as -> by lia.
  cbn [take drop]. rewrite (cons_middle c), app_assoc.
  destruct (Z.ltb_spec 0 (n - 1)) as [Hlt|Hge].
  - unfold set_argument, set_remains. cbn. replace (n - n `min` (1 + bsize b))%Z with (n - 1 - (n - 1) `min` bsize b)%Z by lia. by rewrite (proj2 (Z.ltb_lt _ _) Hlt).
  - assert (n = 1)%Z as -> by lia. replace (1 `min` (1 + bsize b))%Z with 1%Z by lia.
    replace ((1 - 1) `min` bsize b)%Z with 0%Z by lia. change (Z.to_nat 0) with 0. cbn [take drop]. by rewrite app_nil_r.
Qed.

Lemma tail_run f b w :
  ready w → is_Some (command_to_execute w) → length b ≤ f →
  tail f b w = (run_step;; drain f b) w.
Proof.
  intros Hw Hc Hf. pose proof Hw as [Hb Hw']. destruct Hc as [c Hc]. rewrite Hc in Hw'.
  destruct Hw' as (n & Hn & Hpos). destruct (decide (n = 0)%Z) as [->|Hne].
  - rewrite (bind_ret (fill_step b) _ w b w); [done|].
    unfold fill_step, mbind, prog_bind, gets. by rewrite Hc, Hn.
  - assert (between w) as Hbt.
    { split; [done|]. rewrite Hc. exists n. split; [done|lia]. }
    assert (run_step w = Ret tt w) as Hrun.
    { unfold Connection.run_step, mbind, prog_bind, gets. rewrite Hc, Hn. cbn [the mret prog_ret].
      by rewrite (proj2 (Z.eqb_neq n 0)). }
    rewrite (bind_ret _ _ _ _ _ Hrun).
    destruct (decide (b = [])) as [->|Hbne].
    + rewrite drain_nil. rewrite (bind_ret (fill_step []) _ w [] w).
      * by rewrite (bind_ret _ _ _ _ _ Hrun), drain_nil.
      * unfold fill_step, mbind, prog_bind, gets, modify. rewrite Hc, Hn. cbn [the mret prog_ret].
        rewrite (proj2 (Z.ltb_lt 0 n)), bsize_nil, Z.min_r by lia. cbn.
        rewrite app_nil_r, Z.sub_0_r. destruct w; simpl in *; by subst.
    + destruct f as [|f]; [destruct b; simpl in *; [done|lia]|].
      rewrite (drain_fuel (Datatypes.S f) (Datatypes.S (Datatypes.S f)) b w) by (done || lia).
      rewrite drain_Some by eauto. done.
Qed.

Lemma parse_command_cons c b w :
  between w → command_to_execute w = None →
  erase_message (parse_command (c :: b) w) =
  erase_message ((_ ← parse_command [c];
                  cmd ← gets command_to_execute;
                  match cmd with
                  | Some _ => mret 1%Z
                  | None => n ← parse_command b; mret (1 + n)%Z
                  end) w).
Proof.
  intros [Hb Hw] Hc. rewrite Hc in Hw. unfold parse_command.
  pose proof (Parse_app [c] b (parser w)) as Happ. cbn [app] in Happ.
  unfold mbind, prog_bind, zoom, mret, prog_ret, gets in *.
  destruct (Parse [c] (parser w)) as [[compl n1] p1|e p1|u|] eqn:E1; cbn [fst snd] in *.
  2,3,4: destruct (Parse (c :: b) (parser w)) as [[]| | |]; simpl in Happ; by simplify_eq.
  assert (n1 = 1%Z) as ->.
  { unfold Parse in E1. bind_inv E1. injection E1 as <- <- <-.
    destruct (parse_loop_count _ _ _ _ _ E) as (Hn & _ & Hpos). specialize (Hpos Hw ltac:(done)).
    change (bsize [c]) with 1%Z in Hn. lia. }
  assert (compl = parse_complete p1 ∧ (compl = true → state p1 = sLF) ∧ u32_range (bytes_ p1))
    as (Hcp & Hst & Hb1).
  { unfold Parse in E1. bind_inv E1. injection E1 as <- _ <-. split; [done|]. split.
    - by eapply parse_loop_state.
    - by eapply parse_loop_bytes. }
  destruct compl.
  - destruct (Parse (c :: b) (parser w)) as [[compl' n'] p'| | |]; simpl in Happ; try done.
    injection Happ as -> -> ->.
    destruct (build_command (set_parser p1 w)) as [u w1| | |] eqn:E2; try done.
    destruct (build_command_ready (set_parser p1 w) u w1 Hc Hb1 (Hst eq_refl) E2) as (_ & [cmd ->] & _).
    done.
  - cbn [command_to_execute set_parser]. rewrite Hc. cbn [parser set_parser].
    destruct (Parse b p1) as [[compl2 n2] p2|e2 p2|u2|];
      destruct (Parse (c :: b) (parser w)) as [[compl' n'] p'| | |]; simpl in Happ; simplify_eq;
      try done.
    change (set_parser p2 (set_parser p1 w)) with (set_parser p2 w).
    destruct compl2; [|done].
    by destruct (build_command (set_parser p2 w)) as [[]| | |].
Qed.

Lemma run_step_waiting w : command_to_execute w = None → run_step w = Ret tt w.
Proof. intros Hc. unfold Connection.run_step, mbind, prog_bind, gets. by rewrite Hc. Qed.

Lemma parse_command_nil w :
  between w → command_to_execute w = None → parse_command [] w = Ret 0%Z w.
Proof.
  intros [_ Hw] Hc. rewrite Hc in Hw. unfold parse_command, Parse, mbind, prog_bind, zoom, gets.
  cbn. rewrite Hw. cbn. by destruct w.
Qed.

(** Behind the first byte of a line that is not complete. *)
Lemma parse_on f c b w :
  between w → command_to_execute w = None → length b ≤ f →
  (n ← parse_command b; tail f (drop (Z.to_nat (1 + n)) (c :: b))) w = drain f b w.
Proof.
  intros Hw Hc Hf. destruct (decide (b = [])) as [->|Hb].
  - rewrite (bind_ret _ _ _ _ _ (parse_command_nil w Hw Hc)). cbn [Z.add Z.to_nat].
    change (drop (Z.to_nat 1) [c]) with (@nil ascii). rewrite drain_nil.
    rewrite (bind_ret (fill_step []) _ w [] w).
    + by rewrite (bind_ret _ _ _ _ _ (run_step_waiting w Hc)), drain_nil.
    + unfold fill_step, mbind, prog_bind, gets. by rewrite Hc.
  - destruct f as [|f]; [destruct b; simpl in *; [done|lia]|].
    rewrite drain_None by done. unfold mbind at 1, prog_bind at 1.
    unfold mbind at 3, prog_bind at 3.
    destruct (parse_command b w) as [n w1| | |] eqn:E; try done.
    destruct (parse_command_ready _ _ _ _ Hw Hc E) as (Hw1 & _ & Hn & Hpos & _).
    specialize (Hpos Hb). rewrite Z2Nat.inj_add by lia. change (Z.to_nat 1 + ?x) with (Datatypes.S x).
    cbn [drop]. apply tail_ext; [done|]. intros b' w2 w' E2 Hw'.
    destruct (fill_step_ready (drop (Z.to_nat n) b) w1 Hw1) as (b3 & w3 & E3 & _ & Hle & _).
    rewrite E2 in E3. simplify_eq. rewrite length_drop in Hle.
    destruct b; [done|]. cbn [length] in *. apply drain_fuel; [done|lia..].
Qed.

Lemma byte_step_Some c w n :
  is_Some (command_to_execute w) → arg_remains w = Some n →
  byte_step c w = run_step (set_remains (n - 1) (set_argument (argument_for_command w ++ [c]) w)).
Proof.
  intros [cmd Hc] Hn. unfold Connection.byte_step, mbind, prog_bind, gets, modify.
  by rewrite Hc, Hn.
Qed.

Lemma byte_step_None c w :
  command_to_execute w = None → byte_step c w = (_ ← parse_command [c]; run_step) w.
Proof.
  intros Hc. unfold Connection.byte_step. unfold mbind at 1, prog_bind at 1, gets at 1.
  cbv beta iota. by rewrite Hc.
Qed.

Lemma byte_step_between c w u w' : between w → byte_step c w = Ret u w' → between w'.
Proof.
  intros Hw E. destruct (command_to_execute w) as [cmd|] eqn:Hc.
  - pose proof Hw as [Hb Hn]. rewrite Hc in Hn. destruct Hn as (n & Hn & Hpos).
    rewrite (byte_step_Some c w n) in E by eauto.
    eapply run_step_between; [|exact E]. split; [done|]. cbn. rewrite Hc.
    eexists. split; [done|lia].
  - rewrite byte_step_None in E by done. bind_inv E.
    destruct (parse_command_ready _ _ _ _ Hw Hc E0) as (Hr & _). by eapply run_step_between.
Qed.

(** The loop takes the first byte as the machine does. *)
Lemma drain_cons f c b w :
  between w → length b ≤ f →
  erase_message (drain (Datatypes.S f) (c :: b) w) =
  erase_message ((byte_step c;; drain f b) w).
Proof.
  intros Hw Hf. destruct (command_to_execute w) as [cmd|] eqn:Hc.
  - pose proof Hw as [Hb Hn]. rewrite Hc in Hn. destruct Hn as (n & Hn & Hpos).
    rewrite drain_Some by eauto. f_equal. unfold mbind at 1 3, prog_bind at 1 3.
    rewrite (fill_cons c b w n), (byte_step_Some c w n) by eauto.
    set (w1 := set_remains (n - 1) (set_argument (argument_for_command w ++ [c]) w)).
    trans (tail f b w1); [done|]. rewrite tail_run; [done| |cbn; by rewrite Hc|done].
    split; [done|]. cbn. rewrite Hc. eexists. split; [done|lia].
  - rewrite drain_None by done.
    etrans; [apply bind_ret_same; [by apply parse_command_cons|reflexivity]|].
    rewrite (bind_cong _ _ _ _ (byte_step_None c w Hc)), !prog_assoc.
    destruct (parse_command [c] w) as [n1 w1| | |] eqn:E;
      [|by rewrite !(bind_throw _ _ _ _ _ E)|by rewrite !(bind_undef _ _ _ _ E)|by unfold mbind, prog_bind; rewrite E].
    rewrite !(bind_ret _ _ _ _ _ E).
    destruct (parse_command_ready _ _ _ _ Hw Hc E) as (Hw1 & _).
    f_equal. rewrite prog_assoc. unfold mbind at 1, prog_bind at 1, gets at 1.
    cbv beta iota. destruct (command_to_execute w1) as [cmd|] eqn:Hc1.
    + trans (tail f b w1); [done|]. by rewrite tail_run by eauto.
    + rewrite (bind_ret _ _ _ _ _ (run_step_waiting w1 Hc1)). rewrite <-(parse_on f c b w1); [|split|done|done].
      * by rewrite prog_assoc.
      * apply Hw1.
      * destruct Hw1 as [_ Hw1]. by rewrite Hc1 in *.
Qed.

(** Hence the whole loop is the machine, whatever the fuel. *)
Lemma drain_bytes f b w :
  between w → length b ≤ f →
  erase_message (drain f b w) = erase_message (byte_steps b w).
Proof.
  revert f w. induction b as [|c b IH]; intros f w Hw Hf; [by rewrite drain_nil|].
  destruct f as [|f]; [simpl in Hf; lia|]. cbn [length] in Hf.
  rewrite drain_cons by (done || lia). apply bind_ret_same; [done|].
  intros u w' E. apply IH; [|lia]. by eapply byte_step_between.
Qed.

Lemma byte_steps_app x y w :
  byte_steps (x ++ y) w = (byte_steps x;; byte_steps y) w.
Proof.
  revert w. induction x as [|c x IH]; intros w; [done|]. cbn [app Connection.byte_steps].
  unfold mbind, prog_bind in *. by destruct (byte_step c w) as [[] w'| | |].
Qed.

Lemma byte_steps_between b w u w' : between w → byte_steps b w = Ret u w' → between w'.
Proof.
  revert w. induction b as [|c b IH]; intros w Hw; cbn [Connection.byte_steps].
  - by intros [= _ <-].
  - intros E. bind_inv E. eapply IH; [|exact E]. by eapply byte_step_between.
Qed.

Lemma process_all_bytes blocks w :
  between w →
  erase_message (process_all respond running blocks w) =
  erase_message (byte_steps (mjoin blocks) w).
Proof.
  revert w. induction blocks as [|b blocks IH]; intros w Hw; [done|].
  cbn [process_all]. rewrite mjoin_cons, byte_steps_app.
  apply bind_ret_same; [by apply drain_bytes|].
  intros u w' E. apply IH. by eapply byte_steps_between.
Qed.

End loop_facts.
