(* ===== verification/Wire.v ===== *)
(** * Requests on the wire

    What the loop of Connection.v makes of the bytes a client sends: a sequence of
    well-formed requests, cut into blocks in any way, is executed as the
    corresponding sequence of commands. *)

From S2P Require Import Prelude Storage Commands Parser Connection.

(** ** Sessions on the wire *)

(** What a client asks for. *)
Inductive request : Type :=
| RSet (i : InsertCommand) (data : bytes)
| RAdd (i : InsertCommand) (data : bytes)
| RAppend (i : InsertCommand) (data : bytes)
| RGet (key : bytes) (keys : list bytes)
| RStats.

Definition wire_insert (nm : string) (i : InsertCommand) (data : bytes) : bytes :=
  print_insert (lit nm) i (bsize data) ++ data ++ CRLF.

(** The bytes it sends. *)
Definition wire (r : request) : bytes :=
  match r with
  | RSet i data => wire_insert "set" i data
  | RAdd i data => wire_insert "add" i data
  | RAppend i data => wire_insert "append" i data
  | RGet key keys => print_get key keys
  | RStats => lit "stats" ++ CRLF
  end.

(** The command and the data the server makes of them: the data with the line break
    that ends it. *)
Definition executed_as (r : request) : Command * bytes :=
  match r with
  | RSet i data => (Set_cmd (insert_read i), data ++ CRLF)
  | RAdd i data => (Add (insert_read i), data ++ CRLF)
  | RAppend i data => (Append (insert_read i), data ++ CRLF)
  | RGet key keys => (Get_cmd (key :: keys), [])
  | RStats => (Stats, [])
  end.

Definition insert_ok (i : InsertCommand) (data : bytes) : Prop :=
  Forall (λ c, c ≠ SP) (_key i) ∧ u32_range (_flags i) ∧ (Z.abs (_expire i) < 2 ^ 31)%Z ∧
  (0 < bsize data < 2 ^ 32)%Z.

(** The requests of the protocol, values that are not empty. *)
Definition request_ok (r : request) : Prop :=
  match r with
  | RSet i data | RAdd i data | RAppend i data => insert_ok i data
  | RGet key keys => Forall (λ k, Forall (λ c, c ≠ SP ∧ c ≠ CR) k) (key :: keys)
  | RStats => True
  end.

(** A connection that waits for the first byte of a request. *)
Definition fresh {S R} (w : World S R) : Prop :=
  (∃ p, parser w = Reset p) ∧ argument_for_command w = [] ∧ command_to_execute w = None.

(** Hand on replies, one after the other. *)
Fixpoint respond_all {R} (respond : bytes → prog R unit) (outs : list bytes) : prog R unit :=
  match outs with
  | [] => mret tt
  | out :: outs => respond out;; respond_all respond outs
  end.

(** Replies collected with their line breaks, as in the non-blocking servers. *)
Definition collect (out : bytes) : prog bytes unit := modify (λ r, r ++ out ++ CRLF).

Definition empty_map : gmap bytes bytes := ∅.

(** The same connection over another storage and another world. *)
Definition at_ {S R} (s : S) (r : R) (w : World S R) : World S R := set_storage s (set_io r w).

(** ** Facts *)

Section wire_facts.
Context {S R : Type} `{Storage S}.
Variable respond : bytes → prog R unit.
Implicit Types (w : World S R).

Abbreviation run_step := (run_step (S := S) respond).
Abbreviation byte_steps := (byte_steps (S := S) respond).
Abbreviation drain1 := (drain (S := S) respond (λ r, Ret true r)).

Lemma fresh_between w : fresh w → between w.
Proof.
  intros ([p Hp] & _ & Hc). split; [by rewrite Hp|]. by rewrite Hc, Hp.
Qed.

Lemma new_fresh (s : S) (r : R) : fresh (new_world s r).
Proof. split; [by exists Parser_new|done]. Qed.

(** A run of the loop on one block is a run of the machine. *)
Lemma bytes_of_drain b w u w' :
  between w → drain1 (length b) b w = Ret u w' → byte_steps b w = Ret u w'.
Proof.
  intros Hw E. pose proof (drain_bytes respond (λ r, Ret true r) (λ _, eq_refl) _ b w Hw (le_n _)) as Hd.
  rewrite E in Hd. destruct (byte_steps b w); simpl in Hd; congruence.
Qed.

Lemma run_step_more w n :
  is_Some (command_to_execute w) → arg_remains w = Some n → n ≠ 0%Z → run_step w = Ret tt w.
Proof.
  intros [c Hc] Hn Hz. unfold Connection.run_step, mbind, prog_bind, gets. rewrite Hc, Hn. cbn [the mret prog_ret].
  by rewrite (proj2 (Z.eqb_neq _ _)) by done.
Qed.

(** Running a command whose data is there. *)
Lemma run_step_run w c out s' r' :
  command_to_execute w = Some c → arg_remains w = Some 0%Z →
  Execute c (argument_for_command w) (pStorage w) = Ret out s' →
  respond out (io w) = Ret tt r' →
  ∃ w', run_step w = Ret tt w' ∧ fresh w' ∧ pStorage w' = s' ∧ io w' = r'.
Proof.
  intros Hc Hn E Er. unfold Connection.run_step, mbind, prog_bind, gets, zoom, modify.
  rewrite Hc, Hn. cbn [the mret prog_ret Z.eqb]. rewrite E. cbn [io set_storage]. rewrite Er.
  eexists. split; [done|]. split; [split; [by eexists|done]|done].
Qed.

(** A line that [Parse] reads to its end and [Build] turns into a command. *)
Lemma parse_command_line line w p' c size :
  line ≠ [] → fresh w → Parse line (parser w) = Ret (true, bsize line) p' →
  Build p' = Ret (Some (c, size)) p' → (0 ≤ size < 2 ^ 32)%Z →
  parse_command line w =
  Ret (bsize line)
    (mk_world p' (Some (if (0 <? size)%Z then size + 2 else size)%Z) [] (Some c) (pStorage w) (io w)).
Proof.
  intros Hne (_ & Harg & _) E EB Hsize. unfold parse_command, build_command, mbind, prog_bind, zoom.
  rewrite E. cbn [parser set_parser]. rewrite EB. unfold modify, gets.
  cbn [arg_remains set_remains set_command the mret prog_ret].
  destruct (Z.ltb_spec 0 size); [rewrite wrap_small by lia|]; unfold mret, prog_ret;
    destruct w; simpl in *; by subst.
Qed.

(** The turn of the loop that reads a line. *)
Lemma line_turn line w p' c size u w' :
  line ≠ [] → fresh w → Parse line (parser w) = Ret (true, bsize line) p' →
  Build p' = Ret (Some (c, size)) p' → (0 ≤ size < 2 ^ 32)%Z → u32_range (bytes_ p') →
  run_step (mk_world p' (Some (if (0 <? size)%Z then size + 2 else size)%Z) [] (Some c)
              (pStorage w) (io w)) = Ret u w' →
  byte_steps line w = Ret u w'.
Proof.
  intros Hne Hf E EB Hsize Hp Er. apply bytes_of_drain; [by apply fresh_between|].
  destruct line as [|x line]; [done|]. cbn [length].
  rewrite drain_None; [|done|by apply fresh_between|by destruct Hf as (_ & _ & ?)|done].
  rewrite (bind_ret _ _ _ _ _ (parse_command_line _ w p' c size Hne Hf E EB Hsize)).
  unfold bsize. rewrite Nat2Z.id, drop_all.
  rewrite tail_run; [|done| |by eexists|simpl; lia].
  - rewrite (bind_ret _ _ _ _ _ Er), drain_nil; [|done]. by destruct u.
  - split; [done|]. eexists. split; [done|]. destruct (0 <? size)%Z; lia.
Qed.

(** The turn of the loop that reads the data block. *)
Lemma body_turn body w c u w' :
  body ≠ [] → between w → command_to_execute w = Some c → arg_remains w = Some (bsize body) →
  run_step (set_remains 0 (set_argument (argument_for_command w ++ body) w)) = Ret u w' →
  byte_steps body w = Ret u w'.
Proof.
  intros Hne Hw Hc Hn Er. apply bytes_of_drain; [done|].
  destruct body as [|x body]; [done|]. cbn [length].
  rewrite drain_Some; [|done|by eexists|done].
  assert (fill_step (x :: body) w =
          Ret [] (set_remains 0 (set_argument (argument_for_command w ++ x :: body) w))) as Ef.
  { unfold fill_step, mbind, prog_bind, gets, modify. rewrite Hc, Hn. cbn [the mret prog_ret].
    rewrite (proj2 (Z.ltb_lt 0 _)) by (rewrite bsize_cons; pose proof (bsize_nonneg body); lia).
    rewrite Z.min_id, Z.sub_diag. unfold bsize. by rewrite Nat2Z.id, drop_all, take_ge. }
  rewrite (bind_ret _ _ _ _ _ Ef), (bind_ret _ _ _ _ _ Er), drain_nil; [|done]. by destruct u.
Qed.

Lemma crlf_not_nil (x : bytes) : x ++ CRLF ≠ [].
Proof. by destruct x. Qed.

(** The line of a storing request. *)
Lemma insert_line nm (cmd : InsertCommand → Command) i data w :
  (lit nm, cmd) ∈ [(lit "set", Set_cmd); (lit "add", Add); (lit "append", Append)] →
  insert_ok i data → fresh w →
  ∃ p', Parse (print_insert (lit nm) i (bsize data)) (parser w) =
          Ret (true, bsize (print_insert (lit nm) i (bsize data))) p' ∧ u32_range (bytes_ p') ∧
    ∀ s r, byte_steps (print_insert (lit nm) i (bsize data)) (at_ s r w) =
      Ret tt (mk_world p' (Some (bsize data + 2)%Z) [] (Some (cmd (insert_read i))) s r).
Proof.
  intros Hin (Hk & Hfl & He & Hd) Hf. pose proof Hf as ([p Hp] & Harg & Hc).
  destruct (parse_insert (lit nm) i (bsize data) [] p) as [ng Ep]; try done.
  { unfold insert_names. set_solver. }
  { split; lia. }
  rewrite app_nil_r in Ep.
  set (p' := mk_parser sLF (lit nm) [_key i] (_flags i) (exprtime_read (_expire i)) (bsize data) ng
               (_key i) true) in *.
  assert (Parse (print_insert (lit nm) i (bsize data)) (parser w) =
          Ret (true, bsize (print_insert (lit nm) i (bsize data))) p') as EP.
  { rewrite Hp. unfold Parse. by rewrite (bind_ret _ _ _ _ _ Ep). }
  exists p'. split; [done|]. split; [split; cbn; lia|]. intros s r.
  eapply (line_turn _ (at_ s r w) p' (cmd (insert_read i)) (bsize data)).
  - unfold print_insert. by destruct (lit nm).
  - done.
  - exact EP.
  - subst p'. repeat (apply elem_of_cons in Hin as [[= -> ->]|Hin]; [reflexivity|]). by apply not_elem_of_nil in Hin.
  - lia.
  - split; cbn; lia.
  - rewrite (proj2 (Z.ltb_lt 0 _)) by lia. apply (run_step_more _ (bsize data + 2)%Z); [by eexists|done|lia].
Qed.

(** A storing request, from the first byte of its line to the last of its data. *)
Lemma wire_insert_run nm (cmd : InsertCommand → Command) i data w out s' r' :
  (lit nm, cmd) ∈ [(lit "set", Set_cmd); (lit "add", Add); (lit "append", Append)] →
  insert_ok i data → fresh w →
  Execute (cmd (insert_read i)) (data ++ CRLF) (pStorage w) = Ret out s' →
  respond out (io w) = Ret tt r' →
  ∃ w', byte_steps (wire_insert nm i data) w = Ret tt w' ∧ fresh w' ∧ pStorage w' = s' ∧ io w' = r'.
Proof.
  intros Hin Hok Hf E Er. destruct (insert_line nm cmd i data w Hin Hok Hf) as (p' & _ & Hb & E1).
  specialize (E1 (pStorage w) (io w)). replace (at_ (pStorage w) (io w) w) with w in E1 by by destruct w.
  set (w1 := mk_world p' (Some (bsize data + 2)%Z) [] (Some (cmd (insert_read i))) (pStorage w) (io w)) in *.
  unfold wire_insert. rewrite byte_steps_app, (bind_ret _ _ _ _ _ E1).
  destruct (run_step_run (set_remains 0 (set_argument (argument_for_command w1 ++ data ++ CRLF) w1))
              (cmd (insert_read i)) out s' r') as (w' & Ew & Hw'); try done.
  exists w'. split; [|done]. eapply (body_turn _ w1); try done.
  - apply crlf_not_nil.
  - split; [done|]. eexists. split; [done|]. destruct Hok as (_ & _ & _ & Hd). lia.
  - by rewrite bsize_app.
Qed.

(** A request without data. *)
Lemma wire_line_run line w c p' out s' r' :
  line ≠ [] → fresh w → Parse line (parser w) = Ret (true, bsize line) p' →
  Build p' = Ret (Some (c, 0%Z)) p' → bytes_ p' = 0%Z →
  Execute c [] (pStorage w) = Ret out s' → respond out (io w) = Ret tt r' →
  ∃ w', byte_steps line w = Ret tt w' ∧ fresh w' ∧ pStorage w' = s' ∧ io w' = r'.
Proof.
  intros Hne Hf Ep EB Hp E Er.
  destruct (run_step_run (mk_world p' (Some 0%Z) [] (Some c) (pStorage w) (io w)) c out s' r')
    as (w' & Ew & Hw'); try done.
  exists w'. split; [|done]. eapply line_turn; try done. by rewrite Hp.
Qed.

(** Every request is executed on the data it carries. *)
Lemma wire_run r w out s' r' :
  request_ok r → fresh w →
  Execute (executed_as r).1 (executed_as r).2 (pStorage w) = Ret out s' →
  respond out (io w) = Ret tt r' →
  ∃ w', byte_steps (wire r) w = Ret tt w' ∧ fresh w' ∧ pStorage w' = s' ∧ io w' = r'.
Proof.
  intros Hr Hf E Er. destruct r as [i data|i data|i data|key keys|]; cbn [executed_as fst snd] in E.
  - eapply (wire_insert_run "set" Set_cmd); try done. set_solver.
  - eapply (wire_insert_run "add" Add); try done. set_solver.
  - eapply (wire_insert_run "append" Append); try done. set_solver.
  - pose proof Hf as ([p Hp] & _). pose proof (parse_get key keys [] p Hr) as Ep.
    rewrite app_nil_r in Ep.
    eapply (wire_line_run _ w (Get_cmd (key :: keys))
              (mk_parser sLF (lit "get") (key :: keys) 0 0 0 (negative p) [] true)); try done.
    rewrite Hp. unfold Parse. by rewrite (bind_ret _ _ _ _ _ Ep).
  - pose proof Hf as ([p Hp] & _).
    eapply (wire_line_run _ w Stats (mk_parser sLF (lit "stats") [] 0 0 0 (negative p) [] true));
      try done. rewrite Hp. reflexivity.
Qed.

Lemma Parse_prefix p q x n x' :
  q ≠ [] → Parse (p ++ q) x = Ret (true, bsize (p ++ q)) x' → n = bsize p →
  ∃ x1, Parse p x = Ret (false, n) x1 ∧ parse_complete x1 = false.
Proof.
  intros Hq E ->. pose proof (Parse_app p q x) as Ha. rewrite E in Ha. cbn [erase_message] in Ha.
  symmetry in Ha. apply erase_ret in Ha. bind_inv Ha. destruct a as [c m]. cbn [fst snd] in Ha.
  pose proof E0 as E1. unfold Parse in E1. bind_inv E1. unfold mbind, prog_bind, gets, mret, prog_ret in E1. injection E1 as <- <- <-.
  destruct (parse_loop_count _ _ _ _ _ E2) as (Hm & Hall & _).
  assert (0 < bsize q)%Z by (destruct q; [done|]; rewrite bsize_cons; pose proof (bsize_nonneg q); lia).
  destruct (parse_complete s0) eqn:Hc.
  - injection Ha as Hn _. rewrite bsize_app in Hn. lia.
  - exists s0. rewrite E0. split; [|done]. repeat f_equal. by rewrite Hall.
Qed.

(** A part of a line changes the parser only. *)
Lemma line_quiet p q w x' :
  fresh w → q ≠ [] → Parse (p ++ q) (parser w) = Ret (true, bsize (p ++ q)) x' →
  ∃ x, ∀ s i, byte_steps p (at_ s i w) = Ret tt (set_parser x (at_ s i w)).
Proof.
  intros Hf Hq E. destruct (Parse_prefix p q (parser w) _ x' Hq E eq_refl) as (x1 & E1 & Hx1).
  destruct p as [|c p]; [exists (parser w); intros s i; by destruct w|]. exists x1. intros s i.
  assert (fresh (at_ s i w)) as Hf' by done. destruct Hf' as (Hp & Ha & Hc). pose proof (fresh_between _ Hf) as Hb.
  apply bytes_of_drain; [done|]. cbn [length]. rewrite drain_None by done.
  assert (parse_command (c :: p) (at_ s i w) = Ret (bsize (c :: p)) (set_parser x1 (at_ s i w))) as Ep.
  { unfold parse_command, mbind, prog_bind, zoom. cbn [parser at_ set_storage set_io]. by rewrite E1. }
  rewrite (bind_ret _ _ _ _ _ Ep). unfold bsize. rewrite Nat2Z.id, drop_all.
  rewrite (bind_ret (fill_step []) _ _ [] (set_parser x1 (at_ s i w))).
  - by rewrite (bind_ret _ _ _ _ _ (run_step_waiting respond (set_parser x1 (at_ s i w)) Hc)), drain_nil.
  - unfold fill_step, mbind, prog_bind, gets. cbn [command_to_execute set_parser]. by rewrite Hc.
Qed.

(** A part of the data block is kept. *)
Lemma data_quiet p c n w :
  command_to_execute w = Some c → arg_remains w = Some n → (bsize p < n)%Z →
  byte_steps p w = Ret tt (set_remains (n - bsize p) (set_argument (argument_for_command w ++ p) w)).
Proof.
  revert n w. induction p as [|x p IH]; intros n w Hc Hn Hp.
  - cbn. rewrite app_nil_r, Z.sub_0_r. destruct w; cbn in *; by subst.
  - rewrite bsize_cons in *. cbn [Connection.byte_steps]. pose proof (bsize_nonneg p).
    set (w1 := set_remains (n - 1) (set_argument (argument_for_command w ++ [x]) w)).
    assert (byte_step respond x w = Ret tt w1) as E1.
    { rewrite (byte_step_Some respond x w n) by eauto. apply (run_step_more w1 (n - 1)%Z); [by eexists|done|lia]. }
    rewrite (bind_ret _ _ _ _ _ E1), (IH (n - 1)%Z w1); [|done|done|lia].
    unfold w1, set_remains, set_argument. cbn. rewrite <-app_assoc. do 2 f_equal. f_equal. lia.
Qed.

(** A part of a storing request. *)
Lemma insert_quiet nm (cmd : InsertCommand → Command) i data p q w :
  (lit nm, cmd) ∈ [(lit "set", Set_cmd); (lit "add", Add); (lit "append", Append)] →
  insert_ok i data → fresh w → p ++ q = wire_insert nm i data → q ≠ [] →
  ∃ w', ∀ s r, byte_steps p (at_ s r w) = Ret tt (at_ s r w').
Proof.
  intros Hin Hok Hf Heq Hq. destruct (insert_line nm cmd i data w Hin Hok Hf) as (p' & EP & Hb & El).
  unfold wire_insert in Heq. apply app_eq_inv in Heq as [(k & -> & Hk)|(k & Hk & ->)].
  - eexists (set_remains (bsize data + 2 - bsize k) (set_argument k
      (mk_world p' (Some (bsize data + 2)%Z) [] (Some (cmd (insert_read i))) (pStorage w) (io w)))).
    intros s r. rewrite byte_steps_app, (bind_ret _ _ _ _ _ (El s r)). erewrite data_quiet; [done|done|done|].
    apply (f_equal bsize) in Hk. rewrite !bsize_app in Hk. change (bsize CRLF) with 2%Z in Hk.
    destruct q as [|c q]; [done|]. rewrite bsize_cons in Hk. pose proof (bsize_nonneg q). lia.
  - destruct (decide (k = [])) as [->|Hne].
    + rewrite app_nil_r in Hk. rewrite <-Hk. eexists. intros s r. rewrite (El s r).
      instantiate (1 := mk_world p' (Some (bsize data + 2)%Z) [] (Some (cmd (insert_read i))) (pStorage w) (io w)). done.
    + rewrite Hk in EP. destruct (line_quiet p k w p' Hf Hne EP) as [x Hx].
      exists (set_parser x w). intros s r. by rewrite Hx.
Qed.

(** A part of a request waits: neither the storage nor the world is touched, and what is
    kept does not depend on them. *)
Lemma request_quiet rq p q w :
  request_ok rq → fresh w → p ++ q = wire rq → q ≠ [] →
  ∃ w', ∀ s r, byte_steps p (at_ s r w) = Ret tt (at_ s r w').
Proof.
  intros Hr Hf Heq Hq. destruct rq as [i data|i data|i data|key keys|].
  - apply (insert_quiet "set" Set_cmd i data p q); [set_solver|done..].
  - apply (insert_quiet "add" Add i data p q); [set_solver|done..].
  - apply (insert_quiet "append" Append i data p q); [set_solver|done..].
  - pose proof Hf as ([x Hx] & _). pose proof (parse_get key keys [] x Hr) as Ep. rewrite app_nil_r in Ep.
    edestruct (line_quiet p q w) as [x' Hx']; [done|done| |exists (set_parser x' w); intros s r; by rewrite Hx'].
    rewrite Heq. cbn [wire]. rewrite Hx. unfold Parse. by rewrite (bind_ret _ _ _ _ _ Ep).
  - pose proof Hf as ([x Hx] & _).
    edestruct (line_quiet p q w) as [x' Hx']; [done|done| |exists (set_parser x' w); intros s r; by rewrite Hx'].
    rewrite Heq. cbn [wire]. rewrite Hx. reflexivity.
Qed.

(** A session: the storage and the replies are those of its commands. *)
Lemma wire_session rs w outs s' r' :
  Forall request_ok rs → fresh w → session (executed_as <$> rs) (pStorage w) = Ret outs s' →
  respond_all respond outs (io w) = Ret tt r' →
  ∃ w', byte_steps (mjoin (wire <$> rs)) w = Ret tt w' ∧ fresh w' ∧ pStorage w' = s' ∧ io w' = r'.
Proof.
  intros Hrs. revert w outs. induction Hrs as [|r rs Hr Hrs IH]; intros w outs Hf E Er.
  - injection E as <- <-. injection Er as <-. by exists w.
  - rewrite fmap_cons in E. destruct (executed_as r) as [c args] eqn:Hx. cbn [session] in E.
    bind_inv E. bind_inv E. injection E as <- <-. cbn [respond_all] in Er. bind_inv Er.
    destruct a1. destruct (wire_run r w a s s1 Hr Hf) as (w1 & E1' & Hf1 & <- & <-); [by rewrite Hx|done|].
    destruct (IH w1 a0 Hf1 E1 Er) as (w' & E2' & Hw').
    exists w'. split; [|done]. rewrite fmap_cons, mjoin_cons, byte_steps_app.
    by rewrite (bind_ret _ _ _ _ _ E1').
Qed.

End wire_facts.

(** ** Properties *)

(** How the network cuts a stream into blocks does not matter: on a connection
    between two blocks, block sequences with the same bytes have the same outcome
    (storage, replies, state of the connection), up to the text of an exception. *)
Theorem blocks_irrelevant {S R} `{Storage S} (respond : bytes → prog R unit)
    (blocks blocks' : list bytes) (w : World S R) :
  between w → mjoin blocks = mjoin blocks' →
  erase_message (process_all respond (λ r, Ret true r) blocks w) =
  erase_message (process_all respond (λ r, Ret true r) blocks' w).
Proof. intros Hw Heq. rewrite !process_all_bytes by done. by rewrite Heq. Qed.

(** C4: requests sent in any blocks are executed one after the other, each on the
    data it carries with the line break behind it; the storage, the replies handed
    on and their order are those of the session of the commands, and the
    connection is then ready for the next request. *)
Theorem requests_executed {S R} `{Storage S} (respond : bytes → prog R unit)
    (rs : list request) (blocks : list bytes) (w : World S R) outs s' r' :
  Forall request_ok rs → fresh w → mjoin blocks = mjoin (wire <$> rs) →
  session (executed_as <$> rs) (pStorage w) = Ret outs s' →
  respond_all respond outs (io w) = Ret tt r' →
  ∃ w', process_all respond (λ r, Ret true r) blocks w = Ret tt w' ∧
        fresh w' ∧ pStorage w' = s' ∧ io w' = r'.
Proof.
  intros Hrs Hf Hb E Er. destruct (wire_session respond rs w outs s' r' Hrs Hf E Er) as (w' & Ew & Hw').
  exists w'. split; [|done].
  pose proof (process_all_bytes respond (λ r, Ret true r) (λ _, eq_refl) blocks w
                (fresh_between w Hf)) as Hp.
  rewrite Hb, Ew in Hp. by apply erase_ret in Hp.
Qed.

(** An empty value breaks the connection: the command is executed when its line
    is complete, and the line break that ends the empty data block is then read
    as the name of the next command, which throws. *)
Theorem empty_value_throws {S R} `{Storage S} (respond : bytes → prog R unit)
    (i : InsertCommand) (w : World S R) out s' r' :
  Forall (λ c, c ≠ SP) (_key i) → u32_range (_flags i) → (Z.abs (_expire i) < 2 ^ 31)%Z →
  fresh w → Execute (Set_cmd (insert_read i)) [] (pStorage w) = Ret out s' →
  respond out (io w) = Ret tt r' →
  ∃ e w', process_all respond (λ r, Ret true r) [wire_insert "set" i []] w = Throw e w' ∧
          pStorage w' = s' ∧ io w' = r'.
Proof.
  intros Hk Hfl He Hf E Er. pose proof Hf as ([p Hp] & Harg & Hc).
  destruct (parse_insert (lit "set") i 0 [] p) as [ng Ep]; try done.
  { by left. }
  rewrite app_nil_r in Ep.
  destruct (wire_line_run respond (print_insert (lit "set") i 0) w (Set_cmd (insert_read i))
              (mk_parser sLF (lit "set") [_key i] (_flags i) (exprtime_read (_expire i)) 0 ng
                 (_key i) true) out s' r') as (w1 & E1 & Hf1 & <- & <-); try done.
  { rewrite Hp. unfold Parse. by rewrite (bind_ret _ _ _ _ _ Ep). }
  pose proof Hf1 as ([p1 Hp1] & Harg1 & Hc1).
  assert (∃ w', byte_steps respond CRLF w1 = Throw "Unknown command name: " w' ∧
                pStorage w' = pStorage w1 ∧ io w' = io w1) as (w' & E2 & Hw').
  { exists (set_parser (Reset p1) w1). split; [|done]. unfold CRLF. cbn [byte_steps].
    apply bind_throw. rewrite byte_step_None by done. apply bind_throw.
    unfold parse_command. apply bind_throw. unfold zoom. by rewrite Hp1. }
  pose proof (process_all_bytes respond (λ r, Ret true r) (λ _, eq_refl) [wire_insert "set" i []] w
                (fresh_between w Hf)) as Hpr.
  cbn [mjoin list_join] in Hpr. rewrite app_nil_r in Hpr. unfold wire_insert in Hpr.
  rewrite app_nil_l, byte_steps_app, (bind_ret _ _ _ _ _ E1), E2 in Hpr.
  apply erase_throw in Hpr as [e Hpr]. by exists e, w'.
Qed.

(** *** Witnesses *)

Lemma blocks_irrelevant_witness :
  erase_message (process_all collect (λ r, Ret true r) [lit "ge"; lit "t a" ++ CRLF]
                   (new_world empty_map [])) =
  erase_message (process_all collect (λ r, Ret true r) [lit "get a" ++ CRLF]
                   (new_world empty_map [])).
Proof.
  apply (blocks_irrelevant collect [lit "ge"; lit "t a" ++ CRLF] [lit "get a" ++ CRLF]).
  - by apply fresh_between, new_fresh.
  - reflexivity.
Defined.

Lemma requests_executed_witness :
  let rs := [RSet (mk_insert (lit "k") 0 0) (lit "v"); RGet (lit "k") []] in
  ∃ w', process_all collect (λ r, Ret true r)
          [lit "set k 0 0 1" ++ CRLF ++ lit "v"; CRLF ++ lit "get k"; CRLF]
          (new_world empty_map []) = Ret tt w' ∧
        fresh w' ∧ pStorage w' = <[lit "k" := lit "v" ++ CRLF]> empty_map ∧
        io w' = lit "STORED" ++ CRLF ++ lit "VALUE k 0 3" ++ CRLF ++ lit "v" ++ CRLF ++ CRLF ++
                lit "END" ++ CRLF.
Proof.
  eapply (requests_executed collect
            [RSet (mk_insert (lit "k") 0 0) (lit "v"); RGet (lit "k") []]).
  - repeat constructor; try done; by vm_compute.
  - apply new_fresh.
  - reflexivity.
  - vm_compute. reflexivity.
  - vm_compute. reflexivity.
Defined.

Lemma empty_value_throws_witness :
  ∃ e w', process_all collect (λ r, Ret true r) [lit "set k 0 0 0" ++ CRLF ++ CRLF]
            (new_world empty_map []) = Throw e w' ∧
          pStorage w' = <[lit "k" := []]> empty_map ∧ io w' = lit "STORED" ++ CRLF.
Proof.
  eapply (empty_value_throws collect (mk_insert (lit "k") 0 0) (new_world empty_map [])).
  - by repeat constructor.
  - by vm_compute.
  - by vm_compute.
  - apply new_fresh.
  - vm_compute. reflexivity.
  - vm_compute. reflexivity.
Defined.
