(* ===== verification/Network.v ===== *)
(** * The connections of the four servers

    The loop of Connection.v in its four places: [Connection] of the two
    non-blocking servers, whose replies wait in [_results] for the socket to be
    writable, and the connection loops of the two blocking servers, which send
    each reply at once.  The answers of the kernel to [read] and [send] are
    arguments. *)

From S2P Require Import Prelude Storage Commands Parser Connection Wire.

(** ** Answers of the kernel *)

(** What [read] does: bytes, end of file, or an error, [EAGAIN] or another one. *)
Inductive read_answer : Type :=
| Bytes (b : bytes)
| Eof
| Again
| ReadError (errno : string).

(** What [send] returns: a number of bytes, or -1. *)
Abbreviation send_answer := Z (only parsing).

(** ** The non-blocking servers *)

Module Nonblocking.

(** The events a connection asks for. *)
Record events : Type := mk_events { EPOLLIN : bool; EPOLLOUT : bool; EPOLLRDHUP : bool; EPOLLERR : bool }.

(** The members of [Connection] that the loop does not touch, and the bytes that
    the socket has taken. *)
Record Io : Type := mk_io {
  _results : bytes;
  _event : events;
  _connection_alive : bool;
  sent : bytes;
}.

Definition set_results (r : bytes) (i : Io) : Io :=
  mk_io r (_event i) (_connection_alive i) (sent i).
Definition set_event (e : events) (i : Io) : Io :=
  mk_io (_results i) e (_connection_alive i) (sent i).
Definition set_alive (a : bool) (i : Io) : Io :=
  mk_io (_results i) (_event i) a (sent i).
Definition set_sent (b : bytes) (i : Io) : Io :=
  mk_io (_results i) (_event i) (_connection_alive i) b.

Section nonblocking.
Context {S : Type} `{Storage S}.
(** mt_nonblocking asks for [EPOLLERR] as well. *)
Variable err : bool.
Abbreviation connection := (World S Io).

Definition reading : events := mk_events true false true err.
Definition writing : events := mk_events true true true err.

(** [Connection::Start] *)
Definition Start : prog connection unit :=
  zoom io set_io (modify (set_alive true);; modify (set_event reading)).

(** [Connection::OnClose] *)
Definition OnClose : prog connection unit := zoom io set_io (modify (set_alive false)).

(** [Connection::OnError] *)
Definition OnError : prog connection unit := OnClose.

(** [_results += result + "\r\n"; _event.events = EPOLLOUT | ...;] *)
Definition respond (result : bytes) : prog Io unit :=
  r ← gets _results;
  modify (set_results (r ++ result ++ CRLF));;
  modify (set_event writing).

(** The loop over [read] in [DoRead]; it ends with the first answer without bytes. *)
Fixpoint read_loop (answers : list read_answer) : prog connection unit :=
  match answers with
  | [] => out_of_fuel
  | Bytes b :: answers => process respond (λ r, Ret true r) b;; read_loop answers
  | Eof :: _ | Again :: _ => mret tt
  | ReadError e :: _ => throw e
  end.

(** [Connection::DoRead] *)
Definition DoRead (answers : list read_answer) : prog connection unit :=
  try_catch (read_loop answers) (λ _, zoom io set_io (modify (set_alive false))).

(** [Connection::DoWrite]: [send_b] is unsigned, so that only 0 counts as a failure.
    The kernel takes the bytes it reports. *)
Definition DoWrite (answer : send_answer) : prog connection unit :=
  try_catch
    (zoom io set_io
       (r ← gets _results;
        s ← gets sent;
        modify (set_sent (s ++ take (Z.to_nat answer) r));;
        let send_b := wrap64 answer in
        if (send_b <=? 0)%Z then throw "Failed to send response"
        else if (bsize r <=? send_b)%Z then
          modify (set_results []);; modify (set_event reading)
        else
          modify (set_results (drop (Z.to_nat send_b) r));; modify (set_event writing)))
    (λ _, zoom io set_io (modify (set_alive false))).

End nonblocking.

End Nonblocking.

(** ** The blocking servers *)

Module Blocking.

(** The answers of the kernel to the calls of [send] to come, the bytes it has taken,
    and the values of [running] to come. *)
Record Io : Type := mk_io { sends : list send_answer; sent : bytes; runs : list bool }.

(** [if (send(client_socket, data, size, 0) <= 0) throw ...]: what the kernel does not
    take of the reply is not sent again. *)
Definition send_reply (data : bytes) : prog Io unit :=
  i ← get;
  match sends i with
  | [] => out_of_fuel
  | n :: sends =>
    modify (λ i, mk_io sends (sent i ++ take (Z.to_nat n) data) (runs i));;
    if (n <=? 0)%Z then throw "Failed to send response" else mret tt
  end.

(** [running.load()] *)
Definition load_running : prog Io bool :=
  i ← get;
  match runs i with
  | [] => out_of_fuel
  | r :: runs => modify (λ i, mk_io (sends i) (sent i) runs);; mret r
  end.

Section blocking.
Context {S : Type} `{Storage S}.
Abbreviation connection := (World S Io).

(** The connection loop of [STblocking::ServerImpl::OnRun]. *)
Fixpoint st_read_loop (answers : list read_answer) : prog connection unit :=
  match answers with
  | [] => out_of_fuel
  | Bytes b :: answers =>
    process (λ result, send_reply (result ++ CRLF)) (λ r, Ret true r) b;; st_read_loop answers
  | Eof :: _ => mret tt
  | Again :: _ => throw "Resource temporarily unavailable"
  | ReadError e :: _ => throw e
  end.

(** The body of [OnRun] for one accepted connection: the exception is logged, the
    socket closed, and the state prepared for the next connection. *)
Definition st_connection (answers : list read_answer) : prog connection unit :=
  try_catch (st_read_loop answers) (λ _, mret tt);;
  modify next_command.

(** [OnRun]: the connections accepted one after the other, over the same locals; each
    with the answers of the kernel to its reads and its sends. *)
Fixpoint st_OnRun (conns : list (list read_answer * list send_answer)) :
    prog connection (list bytes) :=
  match conns with
  | [] => mret []
  | (answers, sends) :: conns =>
    modify (set_io (mk_io sends [] []));;
    st_connection answers;;
    b ← gets (sent ∘ io);
    bs ← st_OnRun conns;
    mret (b :: bs)
  end.

(** [MTblocking::ServerImpl::_connection_processing] up to the closing of the socket:
    [running] is read before every [read] and every turn, and replies go out
    without a line break. *)
Fixpoint mt_read_loop (answers : list read_answer) : prog connection unit :=
  r ← zoom io set_io load_running;
  if negb r then throw "stopped"
  else
    match answers with
    | [] => out_of_fuel
    | Bytes b :: answers => process send_reply load_running b;; mt_read_loop answers
    | Eof :: _ => mret tt
    | Again :: _ => throw "Resource temporarily unavailable"
    | ReadError e :: _ => throw e
    end.

Definition mt_connection (answers : list read_answer) : prog connection unit :=
  try_catch (mt_read_loop answers) (λ _, mret tt).

End blocking.

End Blocking.

(** ** Observations *)

(** Replies, each with its line break. *)
Definition reply_stream (outs : list bytes) : bytes := mjoin ((λ out, out ++ CRLF) <$> outs).

(** A connection asks for the socket to be writable exactly while replies wait. *)
Definition interest_ok {S} (w : World S Nonblocking.Io) : Prop :=
  Nonblocking.EPOLLOUT (Nonblocking._event (io w)) = bool_decide (Nonblocking._results (io w) ≠ []).

(** All the bytes handed to the socket, taken or waiting. *)
Definition stream {S} (w : World S Nonblocking.Io) : bytes :=
  Nonblocking.sent (io w) ++ Nonblocking._results (io w).

(** ** Facts *)

Section network_facts.
Import Nonblocking.
Context {S : Type} `{Storage S}.
Variable err : bool.
Implicit Types (w : World S Io) (i : Io).

Abbreviation respond := (Nonblocking.respond err).

Lemma respond_run out i :
  respond out i =
  Ret tt (mk_io (_results i ++ out ++ CRLF) (writing err) (_connection_alive i) (sent i)).
Proof. done. Qed.

Lemma respond_all_run outs i :
  ∃ i', respond_all respond outs i = Ret tt i' ∧
        _results i' = _results i ++ reply_stream outs ∧ sent i' = sent i ∧
        _connection_alive i' = _connection_alive i ∧
        _event i' = match outs with [] => _event i | _ => writing err end.
Proof.
  revert i. induction outs as [|out outs IH]; intros i.
  - exists i. unfold reply_stream. by rewrite app_nil_r.
  - destruct (IH (mk_io (_results i ++ out ++ CRLF) (writing err) (_connection_alive i) (sent i)))
      as (i' & E & Hr & Hs & Ha & He).
    exists i'. split; [done|]. split; [|split; [done|split; [done|]]].
    + rewrite Hr. unfold reply_stream. rewrite fmap_cons, mjoin_cons. cbn [_results].
      by rewrite <-!app_assoc.
    + rewrite He. by destruct outs.
Qed.

(** Reading blocks until the kernel has no more. *)
Lemma read_loop_blocks blocks answers w :
  read_loop err (((λ b, Bytes b) <$> blocks) ++ answers) w =
  (process_all respond (λ r, Ret true r) blocks;; read_loop err answers) w.
Proof.
  revert w. induction blocks as [|b blocks IH]; intros w; [done|].
  cbn [process_all]. rewrite prog_assoc. apply bind_ext. intros u w' _. apply IH.
Qed.

(** *** The interest in writing follows the waiting replies *)

(** What a computation preserves, also when it throws. *)
Definition preserves {A} (P : World S Io → Prop) (m : prog (World S Io) A) : Prop :=
  ∀ w, P w → match m w with Ret _ w' | Throw _ w' => P w' | _ => True end.

Lemma preserves_bind {A B} P (m : prog (World S Io) A) (k : A → prog (World S Io) B) :
  preserves P m → (∀ a, preserves P (k a)) → preserves P (m ≫= k).
Proof.
  intros Hm Hk w Hw. specialize (Hm w Hw). unfold mbind, prog_bind.
  destruct (m w) as [a w'| | |]; try done. by apply Hk.
Qed.

Lemma preserves_mret {A} P (a : A) : preserves P (mret a).
Proof. by intros w Hw. Qed.

Lemma preserves_gets {A} P (f : World S Io → A) : preserves P (gets f).
Proof. by intros w Hw. Qed.

Lemma preserves_the {A} P u (o : option A) : preserves P (the u o).
Proof. by destruct o; intros w Hw. Qed.

(** Computations on the parts of the connection that the invariant does not read. *)
Lemma preserves_io (P : Io → Prop) {A T} (prj : World S Io → T) inj (m : prog T A) :
  (∀ t w, io (inj t w) = io w) → preserves (λ w, P (io w)) (zoom prj inj m).
Proof. intros Hi w Hw. unfold zoom. destruct (m (prj w)); rewrite ?Hi; done. Qed.

Lemma preserves_modify (P : Io → Prop) f :
  (∀ w, io (f w) = io w) → preserves (λ w, P (io w)) (modify f).
Proof. intros Hf w Hw. cbn. by rewrite Hf. Qed.

Section loop_invariant.
Variable P : Io → Prop.
Hypothesis HP : ∀ out i, P i → P (mk_io (_results i ++ out ++ CRLF) (writing err)
                                  (_connection_alive i) (sent i)).

Abbreviation Inv := (λ w : World S Io, P (io w)).

Lemma parse_command_preserves b : preserves Inv (parse_command b).
Proof.
  unfold parse_command. apply preserves_bind; [by apply preserves_io|]. intros [complete parsed].
  apply preserves_bind; [|intros; apply preserves_mret].
  destruct complete; [|apply preserves_mret]. unfold build_command.
  apply preserves_bind; [by apply preserves_io|]. intros r. apply preserves_bind.
  - destruct r as [[c size]|]; [apply preserves_bind; [by apply preserves_modify|intros _]|];
      by apply preserves_modify.
  - intros _. apply preserves_bind; [apply preserves_bind; [apply preserves_gets|intros; apply preserves_the]|].
    intros arg. destruct (0 <? arg)%Z; [by apply preserves_modify|apply preserves_mret].
Qed.

Lemma fill_step_preserves b : preserves Inv (fill_step b).
Proof.
  apply preserves_bind; [apply preserves_gets|]. intros [c|]; [|apply preserves_mret].
  apply preserves_bind; [apply preserves_bind; [apply preserves_gets|intros; apply preserves_the]|].
  intros arg. destruct (0 <? arg)%Z; [|apply preserves_mret].
  apply preserves_bind; [apply preserves_gets|]. intros a.
  do 2 (apply preserves_bind; [by apply preserves_modify|intros _]). apply preserves_mret.
Qed.

Lemma run_step_preserves : preserves Inv (run_step (S := S) respond).
Proof.
  apply preserves_bind; [apply preserves_gets|]. intros [c|]; [|apply preserves_mret].
  apply preserves_bind; [apply preserves_bind; [apply preserves_gets|intros; apply preserves_the]|].
  intros arg. destruct (arg =? 0)%Z; [|apply preserves_mret].
  apply preserves_bind; [apply preserves_gets|]. intros a.
  apply preserves_bind; [by apply preserves_io|]. intros out.
  apply preserves_bind; [|intros _; by apply preserves_modify].
  intros w Hw. unfold zoom. rewrite respond_run. by apply HP.
Qed.

Lemma drain_preserves f b : preserves Inv (drain (S := S) respond (λ r, Ret true r) f b).
Proof.
  revert b. induction f as [|f IH]; intros b; cbn [drain];
    (apply preserves_bind; [by intros w Hw|intros r; destruct r; cbn [negb]; [|apply preserves_mret]]);
    (destruct b as [|x b]; [apply preserves_mret|]).
  - by intros w Hw.
  - apply preserves_bind.
    + apply preserves_bind; [apply preserves_gets|]. intros [c|]; [apply preserves_mret|].
      apply preserves_bind; [apply parse_command_preserves|]. intros n.
      destruct (n =? 0)%Z; apply preserves_mret.
    + intros [b'|]; [|apply preserves_mret].
      apply preserves_bind; [apply fill_step_preserves|]. intros b''.
      apply preserves_bind; [apply run_step_preserves|]. intros _. apply IH.
Qed.

Lemma read_loop_preserves answers : preserves Inv (read_loop err answers).
Proof.
  induction answers as [|[b| | |e] answers IH]; cbn [read_loop]; try by intros w Hw.
  apply preserves_bind; [apply drain_preserves|]. intros _. apply IH.
Qed.

End loop_invariant.

Lemma DoRead_preserves (P : Io → Prop) answers :
  (∀ out i, P i → P (mk_io (_results i ++ out ++ CRLF) (writing err) (_connection_alive i) (sent i))) →
  (∀ i, P i → P (set_alive false i)) →
  preserves (λ w, P (io w)) (DoRead err answers).
Proof.
  intros HP Ha w Hw. pose proof (read_loop_preserves P HP answers w Hw) as Hr.
  unfold DoRead, try_catch. destruct (read_loop err answers w); try done.
  cbn. by apply Ha.
Qed.

(** *** Writing *)

(** The kernel takes bytes: they leave the waiting replies in order. *)
Lemma DoWrite_some n w :
  let r := _results (io w) in
  (0 < n ≤ bsize r)%Z → (bsize r < 2 ^ 64)%Z →
  ∃ w', DoWrite err n w = Ret tt w' ∧ stream w' = stream w ∧
        _results (io w') = drop (Z.to_nat n) r ∧
        sent (io w') = sent (io w) ++ take (Z.to_nat n) r ∧
        _connection_alive (io w') = _connection_alive (io w) ∧ interest_ok w' ∧
        pStorage w' = pStorage w.
Proof.
  intros r Hn Hr. unfold DoWrite, try_catch, zoom, mbind, prog_bind, gets, modify.
  cbn [_results sent set_sent io]. fold r. rewrite wrap_small by lia.
  rewrite (proj2 (Z.leb_gt n 0)) by lia.
  destruct (Z.leb_spec (bsize r) n) as [Hle|Hlt].
  - assert (Z.to_nat n = length r) as Hlen by (unfold bsize in *; lia).
    eexists. split; [done|]. unfold stream. cbn. fold r. rewrite Hlen, drop_all, take_ge by done.
    rewrite app_nil_r. split_and!; done.
  - eexists. split; [done|]. unfold stream. cbn. fold r. rewrite <-app_assoc, take_drop.
    split_and!; try done. unfold interest_ok. cbn. symmetry. apply bool_decide_eq_true.
    intros Hd. apply (f_equal length) in Hd. rewrite length_drop in Hd. unfold bsize in *.
    simpl in Hd. lia.
Qed.

(** The kernel reports an error: the waiting replies are dropped. *)
Lemma DoWrite_error w :
  (bsize (_results (io w)) < 2 ^ 64)%Z →
  DoWrite err (-1) w =
  Ret tt (set_io (mk_io [] (reading err) (_connection_alive (io w)) (sent (io w))) w).
Proof.
  intros Hr. unfold DoWrite, try_catch, zoom, mbind, prog_bind, gets, modify.
  cbn [_results sent set_sent io]. change (wrap64 (-1)) with (2 ^ 64 - 1)%Z.
  rewrite (proj2 (Z.leb_gt _ 0)) by lia. rewrite (proj2 (Z.leb_le _ _)) by lia.
  cbn. by rewrite app_nil_r.
Qed.

Lemma DoWrite_preserves_interest n : preserves interest_ok (DoWrite err n).
Proof.
  intros w Hw. unfold DoWrite, try_catch, zoom, mbind, prog_bind, gets, modify.
  cbn [_results sent set_sent io]. destruct (Z.leb_spec (wrap64 n) 0); [done|].
  destruct (Z.leb_spec (bsize (_results (io w))) (wrap64 n)) as [Hle|Hlt]; [done|].
  unfold interest_ok. cbn. symmetry. apply bool_decide_eq_true.
  intros Hd. apply (f_equal length) in Hd. rewrite length_drop in Hd. unfold bsize in *.
  simpl in Hd. lia.
Qed.

(** Successive answers of the kernel to [send]. *)
Fixpoint write_all (answers : list send_answer) : prog (World S Io) unit :=
  match answers with
  | [] => mret tt
  | n :: answers => DoWrite err n;; write_all answers
  end.

(** Whatever pieces the kernel takes, the bytes go out in order; and if it takes them
    all, none waits. *)
Lemma write_all_run answers w :
  Forall (λ n, 0 < n)%Z answers → (foldr Z.add 0 answers ≤ bsize (_results (io w)) < 2 ^ 64)%Z →
  ∃ w', write_all answers w = Ret tt w' ∧ stream w' = stream w ∧
        bsize (_results (io w')) = (bsize (_results (io w)) - foldr Z.add 0 answers)%Z.
Proof.
  intros Hpos. revert w. induction Hpos as [|n answers Hn Hpos IH]; intros w Hle.
  - exists w. simpl. split_and!; [done..|lia].
  - simpl in Hle. assert (0 ≤ foldr Z.add 0 answers)%Z as Hs.
    { clear -Hpos. induction Hpos; simpl; lia. }
    destruct (DoWrite_some n w) as (w1 & E1 & Hst & Hr & _); [lia|lia|].
    assert (bsize (_results (io w1)) = (bsize (_results (io w)) - n)%Z) as Hb.
    { rewrite Hr. unfold bsize in *. rewrite length_drop. lia. }
    destruct (IH w1) as (w' & E' & Hst' & Hb'); [lia|].
    exists w'. cbn [write_all]. rewrite (bind_ret _ _ _ _ _ E1). split; [done|].
    split; [congruence|]. simpl. lia.
Qed.

(** Reading a session until the kernel has no more bytes. *)
Lemma read_serves (rs : list request) blocks w outs s' :
  Forall request_ok rs → fresh w → mjoin blocks = mjoin (wire <$> rs) →
  session (executed_as <$> rs) (pStorage w) = Ret outs s' →
  ∃ w1, DoRead err (((λ b, Bytes b) <$> blocks) ++ [Again]) w = Ret tt w1 ∧
    fresh w1 ∧ pStorage w1 = s' ∧
    _results (io w1) = _results (io w) ++ reply_stream outs ∧ sent (io w1) = sent (io w).
Proof.
  intros Hrs Hf Hb E. destruct (respond_all_run outs (io w)) as (i' & Er & Hr & Hs & _).
  destruct (wire_session respond rs w outs s' i' Hrs Hf E Er) as (w1 & E1 & Hf1 & Hs1 & Hi1).
  assert (process_all respond (λ r, Ret true r) blocks w = Ret tt w1) as Ep.
  { apply erase_ret. rewrite process_all_bytes by by try apply fresh_between.
    by rewrite Hb, E1. }
  exists w1. rewrite Hi1. split; [|done].
  unfold DoRead, try_catch. by rewrite read_loop_blocks, (bind_ret _ _ _ _ _ Ep).
Qed.

End network_facts.

(** ** The blocking servers *)

Section blocking_facts.
Import Blocking.
Context {S : Type} `{Storage S}.
Implicit Types (w : World S Io) (i : Io).

Abbreviation respond := (λ result, send_reply (result ++ CRLF)).

(** The answers of a kernel that takes every reply whole. *)
Definition whole (outs : list bytes) : list send_answer := (λ out, bsize (out ++ CRLF)) <$> outs.

Lemma send_whole d rest b rs :
  (0 < bsize d)%Z →
  send_reply d (mk_io (bsize d :: rest) b rs) = Ret tt (mk_io rest (b ++ d) rs).
Proof.
  intros Hpos. unfold send_reply, mbind, prog_bind, get, modify. cbn [sends].
  rewrite (proj2 (Z.leb_gt _ _)) by done. cbn [sent runs].
  unfold bsize. by rewrite Nat2Z.id, take_ge.
Qed.

Lemma respond_whole outs rest b rs :
  respond_all respond outs (mk_io (whole outs ++ rest) b rs) =
  Ret tt (mk_io rest (b ++ reply_stream outs) rs).
Proof.
  revert b. induction outs as [|out outs IH]; intros b.
  - unfold reply_stream. by rewrite app_nil_r.
  - assert (0 < bsize (out ++ CRLF))%Z as Hpos.
    { rewrite bsize_app. pose proof (bsize_nonneg out). unfold CRLF, bsize. simpl. lia. }
    cbn [respond_all whole fmap list_fmap app].
    rewrite (bind_ret _ _ _ _ _ (send_whole _ _ b rs Hpos)). etrans; [apply IH|].
    unfold reply_stream. rewrite fmap_cons, mjoin_cons. by rewrite <-app_assoc.
Qed.

Lemma st_read_loop_blocks blocks answers w :
  st_read_loop (((λ b, Bytes b) <$> blocks) ++ answers) w =
  (process_all respond (λ r, Ret true r) blocks;; st_read_loop answers) w.
Proof.
  revert w. induction blocks as [|b blocks IH]; intros w; [done|].
  cbn [process_all]. rewrite prog_assoc. apply bind_ext. intros u w' _. apply IH.
Qed.

(** Every connection leaves the locals ready for the next one. *)
Lemma st_connection_fresh answers w u w' : st_connection answers w = Ret u w' → fresh w'.
Proof. unfold st_connection. intros E. bind_inv E. injection E as <- <-. by split; [eexists|]. Qed.

Lemma fresh_set_io w i : fresh w → fresh (set_io i w).
Proof. by intros. Qed.

End blocking_facts.

(** ** Properties *)

(** A non-blocking connection serves a session of pipelined requests: it reads
    them in any blocks until the kernel has no more, executes them in order, and
    what the kernel takes of the replies, in any pieces, followed by what still
    waits, is the replies in order, each with its line break. *)
Theorem nonblocking_serves {S} `{Storage S} err (rs : list request) blocks writes
    (w : World S Nonblocking.Io) outs s' :
  Forall request_ok rs → fresh w → Nonblocking._results (io w) = [] →
  mjoin blocks = mjoin (wire <$> rs) →
  session (executed_as <$> rs) (pStorage w) = Ret outs s' →
  Forall (λ n, 0 < n)%Z writes → (foldr Z.add 0 writes ≤ bsize (reply_stream outs) < 2 ^ 64)%Z →
  ∃ w1 w', Nonblocking.DoRead err (((λ b, Bytes b) <$> blocks) ++ [Again]) w = Ret tt w1 ∧
    fresh w1 ∧ pStorage w1 = s' ∧
    write_all err writes w1 = Ret tt w' ∧
    stream w' = Nonblocking.sent (io w) ++ reply_stream outs ∧
    bsize (Nonblocking._results (io w')) = (bsize (reply_stream outs) - foldr Z.add 0 writes)%Z.
Proof.
  intros Hrs Hf Hres Hb E Hw Hsum.
  destruct (read_serves err rs blocks w outs s') as (w1 & E1 & Hf1 & Hs1 & Hr & Hs); try done.
  rewrite Hres in Hr. cbn [app] in Hr.
  destruct (write_all_run err writes w1 Hw) as (w' & Ew & Hst & Hb'); [by rewrite Hr|].
  exists w1, w'. split; [done|split; [done|split; [done|split; [done|split]]]].
  - rewrite Hst. unfold stream. by rewrite Hr, Hs.
  - by rewrite Hb', Hr.
Qed.

(** Whatever the kernel answers to [read] and [send], a non-blocking connection
    asks for the socket to be writable exactly while replies wait; and reading
    never loses or reorders bytes handed to the socket. *)
Theorem interest_follows_results {S} `{Storage S} err answers n (w : World S Nonblocking.Io) :
  interest_ok w →
  match Nonblocking.DoRead err answers w with
  | Ret _ w' | Throw _ w' => interest_ok w' ∧ ∃ more, stream w' = stream w ++ more
  | _ => True
  end ∧
  match Nonblocking.DoWrite err n w with
  | Ret _ w' | Throw _ w' => interest_ok w'
  | _ => True
  end.
Proof.
  intros Hw. split; [|by apply DoWrite_preserves_interest].
  pose proof (DoRead_preserves err
    (λ i, Nonblocking.EPOLLOUT (Nonblocking._event i) = bool_decide (Nonblocking._results i ≠ []) ∧
          ∃ more, Nonblocking.sent i ++ Nonblocking._results i = stream w ++ more) answers) as H1.
  ospecialize (H1 _ _ w _).
  - intros out i [Ho [more Hm]]. cbn. split.
    + symmetry. apply bool_decide_eq_true. by destruct (Nonblocking._results i), out.
    + exists (more ++ out ++ CRLF). by rewrite !app_assoc, Hm.
  - by intros i [Ho Hm].
  - split; [done|]. exists []. by rewrite app_nil_r.
  - by destruct (Nonblocking.DoRead err answers w).
Qed.

(** When [send] fails, a non-blocking connection drops all the replies that wait
    and stays alive: the result -1 is stored in an unsigned variable. *)
Theorem failed_send_drops_replies {S} `{Storage S} err (w : World S Nonblocking.Io) :
  (bsize (Nonblocking._results (io w)) < 2 ^ 64)%Z →
  ∃ w', Nonblocking.DoWrite err (-1) w = Ret tt w' ∧
        Nonblocking._results (io w') = [] ∧ Nonblocking.sent (io w') = Nonblocking.sent (io w) ∧
        Nonblocking._connection_alive (io w') = Nonblocking._connection_alive (io w).
Proof. intros Hr. eexists. by rewrite DoWrite_error. Qed.

(** C24: the blocking server serves a session after any earlier connection, however
    that one ended: the locals it reuses are reset, and to a kernel that takes
    every reply whole the replies go out in order. *)
Theorem st_blocking_serves {S} `{Storage S} earlier (rs : list request) blocks
    (w w0 : World S Blocking.Io) u outs s' :
  Blocking.st_connection earlier w0 = Ret u w →
  Forall request_ok rs → mjoin blocks = mjoin (wire <$> rs) →
  session (executed_as <$> rs) (pStorage w) = Ret outs s' →
  ∃ w', Blocking.st_OnRun [(((λ b, Bytes b) <$> blocks) ++ [Eof], whole outs)] w =
        Ret [reply_stream outs] w' ∧ fresh w' ∧ pStorage w' = s'.
Proof.
  intros E0 Hrs Hb E. apply st_connection_fresh in E0 as Hf.
  set (w1 := set_io (Blocking.mk_io (whole outs) [] []) w).
  destruct (wire_session (λ result, Blocking.send_reply (result ++ CRLF)) rs w1 outs s'
              (Blocking.mk_io [] (reply_stream outs) []) Hrs) as (w2 & E2 & Hf2 & Hs2 & Hi2); try done.
  { change (io w1) with (Blocking.mk_io (whole outs) [] []).
    by rewrite <-(app_nil_r (whole outs)), respond_whole. }
  assert (process_all (λ result, Blocking.send_reply (result ++ CRLF)) (λ r, Ret true r) blocks w1 =
          Ret tt w2) as Ep.
  { apply erase_ret. rewrite process_all_bytes; [by rewrite Hb, E2|done|by apply fresh_between]. }
  assert (Blocking.st_connection (((λ b, Bytes b) <$> blocks) ++ [Eof]) w1 =
          Ret tt (next_command w2)) as Ec.
  { unfold Blocking.st_connection, try_catch. unfold mbind at 1, prog_bind at 1.
    by rewrite st_read_loop_blocks, (bind_ret _ _ _ _ _ Ep). }
  exists (next_command w2). split; [|split; [by eapply st_connection_fresh|done]].
  cbn [Blocking.st_OnRun]. unfold mbind at 1, prog_bind at 1. cbn [modify]. fold w1.
  rewrite (bind_ret _ _ _ _ _ Ec). unfold mbind, prog_bind, gets, mret, prog_ret. cbn.
  by rewrite Hi2.
Qed.

(** Two requests for statistics. *)
Definition two_stats : bytes := lit "stats" ++ CRLF ++ lit "stats" ++ CRLF.

(** What a connection has sent at its end. *)
Definition sent_by (r : res (World (gmap bytes bytes) Blocking.Io) unit) : option bytes :=
  match r with Ret _ w => Some (Blocking.sent (io w)) | _ => None end.

Definition blocking_world (sends : list send_answer) (runs : list bool) :
    World (gmap bytes bytes) Blocking.Io := new_world empty_map (Blocking.mk_io sends [] runs).

(** In the blocking servers the rest of a reply that the kernel takes in part is
    lost, and the multithreaded one sends replies without a line break. *)
Theorem blocking_replies_malformed :
  sent_by (Blocking.st_connection [Bytes two_stats; Eof] (blocking_world [5; 1]%Z [])) =
    Some (lit "END" ++ CRLF ++ lit "E") ∧
  sent_by (Blocking.mt_connection [Bytes two_stats; Eof]
             (blocking_world [3; 3]%Z [true; true; true; true; true; true])) =
    Some (lit "ENDEND").
Proof. split; vm_compute; reflexivity. Qed.

(** *** Witnesses *)

Definition nb_world : World (gmap bytes bytes) Nonblocking.Io :=
  new_world empty_map (Nonblocking.mk_io [] (Nonblocking.reading false) true []).

Lemma nonblocking_serves_witness :
  let rs := [RSet (mk_insert (lit "k") 0 0) (lit "v"); RStats] in
  ∃ w1 w', Nonblocking.DoRead false
             (((λ b, Bytes b) <$> [lit "set k 0 0 1" ++ CRLF ++ lit "v" ++ CRLF; lit "stats" ++ CRLF])
                ++ [Again]) nb_world = Ret tt w1 ∧
    fresh w1 ∧ pStorage w1 = <[lit "k" := lit "v" ++ CRLF]> empty_map ∧
    write_all false [3; 10]%Z w1 = Ret tt w' ∧
    stream w' = [] ++ reply_stream [STORED; lit "END"] ∧
    bsize (Nonblocking._results (io w')) = 0%Z.
Proof.
  apply (nonblocking_serves false [RSet (mk_insert (lit "k") 0 0) (lit "v"); RStats]
           [lit "set k 0 0 1" ++ CRLF ++ lit "v" ++ CRLF; lit "stats" ++ CRLF] [3; 10]%Z nb_world).
  - repeat constructor; try done; by vm_compute.
  - apply new_fresh.
  - reflexivity.
  - reflexivity.
  - vm_compute. reflexivity.
  - repeat constructor.
  - by vm_compute.
Defined.

Lemma interest_follows_results_witness :
  match Nonblocking.DoRead false [Bytes two_stats; Again] nb_world with
  | Ret _ w' | Throw _ w' => interest_ok w' ∧ ∃ more, stream w' = stream nb_world ++ more
  | _ => True
  end ∧
  match Nonblocking.DoWrite false 3 nb_world with
  | Ret _ w' | Throw _ w' => interest_ok w'
  | _ => True
  end.
Proof. by apply (interest_follows_results false [Bytes two_stats; Again] 3 nb_world). Defined.

Lemma failed_send_drops_replies_witness :
  let w := set_io (Nonblocking.mk_io (lit "END") (Nonblocking.writing false) true []) nb_world in
  ∃ w', Nonblocking.DoWrite false (-1) w = Ret tt w' ∧
        Nonblocking._results (io w') = [] ∧ Nonblocking.sent (io w') = [] ∧
        Nonblocking._connection_alive (io w') = true.
Proof.
  apply (failed_send_drops_replies false
    (set_io (Nonblocking.mk_io (lit "END") (Nonblocking.writing false) true []) nb_world)).
  by vm_compute.
Defined.

Lemma st_blocking_serves_witness :
  ∃ w w', Blocking.st_connection [Bytes (lit "bogus line"); Eof] (blocking_world [] []) = Ret tt w ∧
    Blocking.st_OnRun [(((λ b, Bytes b) <$> [two_stats]) ++ [Eof], whole [lit "END"; lit "END"])] w =
      Ret [reply_stream [lit "END"; lit "END"]] w' ∧ fresh w' ∧ pStorage w' = empty_map.
Proof.
  eexists. 
  destruct (st_blocking_serves [Bytes (lit "bogus line"); Eof] [RStats; RStats] [two_stats]
    (next_command (set_parser (mk_parser sName (lit "bogus") [] 0 0 0 None [] false)
       (blocking_world [] []))) (blocking_world [] []) tt [lit "END"; lit "END"] empty_map)
    as (w' & H).
  - vm_compute. reflexivity.
  - repeat constructor.
  - reflexivity.
  - vm_compute. reflexivity.
  - exists w'. split; [vm_compute; reflexivity|exact H].
Defined.
