(* ===== verification/LruServer.v ===== *)
(** * A server over the cache

    The composition of the library: requests on the wire, commands, cache. *)

From S2P Require Import Prelude SimpleLRU Storage LruStorage Commands LruCommands.
From S2P Require Import Parser Connection Wire Network.

(** A new connection to a server with a new cache of [max] bytes. *)
Definition lru_connection (err : bool) (max : Z) : World SimpleLRU Nonblocking.Io :=
  new_world (SimpleLRU_new max)
    (Nonblocking.mk_io [] (Nonblocking.reading err) true []).

(** A client that pipelines requests whose keys and data fit in the cache, in any
    blocks, to a non-blocking server gets the replies of an unbounded map, in order
    and each with its line break: parsing, execution, the pointer structure of the
    cache and the partial writes add up to that, without undefined behaviour. *)
Theorem server_serves_map err max (rs : list request) blocks writes :
  Forall request_ok rs → mjoin blocks = mjoin (wire <$> rs) →
  (session_bytes (executed_as <$> rs) ≤ max < 2 ^ 64)%Z →
  ∃ outs m w1, session (executed_as <$> rs) (∅ : gmap bytes bytes) = Ret outs m ∧
    Nonblocking.DoRead err (((λ b, Bytes b) <$> blocks) ++ [Again]) (lru_connection err max) =
      Ret tt w1 ∧
    (Forall (λ n, 0 < n)%Z writes → (bsize (reply_stream outs) < 2 ^ 64)%Z →
     foldr Z.add 0%Z writes = bsize (reply_stream outs) →
     ∃ w', write_all err writes w1 = Ret tt w' ∧ Nonblocking.sent (io w') = reply_stream outs).
Proof.
  intros Hrs Hb [Hfit Hmax].
  destruct (agree_session max Hmax (executed_as <$> rs) []) as (outs & l' & E & E' & _);
    [done|constructor|].
  destruct (session_abs _ _ _ _ _ (new_exact max) E) as (s' & E'' & _).
  destruct (read_serves err rs blocks (lru_connection err max) outs s') as (w1 & E1 & _ & _ & Hi);
    [done|apply new_fresh|done|done|].
  eexists outs, _, w1. split; [exact E'|]. split; [done|].
  intros Hw Hsz Hsum. destruct Hi as (Hr & Hs). cbn in Hr, Hs.
  destruct (write_all_run err writes w1 Hw) as (w' & Ew & Hst & Hb'); [rewrite Hr; cbn; lia|].
  exists w'. split; [done|]. rewrite Hr, Hsum in Hb'. cbn in Hb'.
  assert (Nonblocking._results (io w') = []) as Hnil.
  { apply length_zero_iff_nil. unfold bsize in Hb'. lia. }
  unfold stream in Hst. by rewrite Hnil, Hr, Hs, app_nil_r in Hst.
Qed.

Lemma server_serves_map_witness :
  let rs := [RSet (mk_insert (lit "k") 0 0) (lit "v"); RGet (lit "k") []] in
  let blocks := [lit "set k 0 0 1" ++ CRLF ++ lit "v" ++ CRLF; lit "get k" ++ CRLF] in
  ∃ outs m w1, session (executed_as <$> rs) (∅ : gmap bytes bytes) = Ret outs m ∧
    Nonblocking.DoRead false (((λ b, Bytes b) <$> blocks) ++ [Again]) (lru_connection false 100) =
      Ret tt w1 ∧
    (Forall (λ n, 0 < n)%Z [8; 25]%Z → (bsize (reply_stream outs) < 2 ^ 64)%Z →
     foldr Z.add 0%Z [8; 25]%Z = bsize (reply_stream outs) →
     ∃ w', write_all false [8; 25]%Z w1 = Ret tt w' ∧
           Nonblocking.sent (io w') = reply_stream outs).
Proof.
  apply (server_serves_map false 100
           [RSet (mk_insert (lit "k") 0 0) (lit "v"); RGet (lit "k") []]
           [lit "set k 0 0 1" ++ CRLF ++ lit "v" ++ CRLF; lit "get k" ++ CRLF] [8; 25]%Z).
  - repeat constructor; try done; by vm_compute.
  - reflexivity.
  - by vm_compute.
Defined.
