(* ===== verification/Servers.v ===== *)
(** * The event loops of the non-blocking servers

    Ownership of the connections in src/sysprog/afina/src/network: the
    [Connection] objects live in an explicit heap, the table [_connections] owns
    the ones it maps to, and the event loops reach them through the raw pointers
    that epoll hands back.  The answers of epoll and of the sockets are
    arguments of the handlers. *)

From S2P Require Import Prelude Storage Commands Parser Connection Wire Network.
Import Nonblocking.

(** ** State *)

(** Address of a connection. *)
Abbreviation loc := positive.

(** [class Connection], with its socket. *)
Record Conn (S : Type) : Type := mk_conn { _socket : Z; body : World S Io }.
Arguments mk_conn {S} _ _.
Arguments _socket {S} _.
Arguments body {S} _.

(** [class ServerImpl]: the table of the connections, which owns them; with the heap
    they live in and the storage they share. *)
Record Server (S : Type) : Type := mk_server {
  storage : S;
  _connections : gmap Z loc;
  heap : gmap loc (Conn S);
  fresh_loc : loc;
}.
Arguments mk_server {S} _ _ _ _.
Arguments storage {S} _.
Arguments _connections {S} _.
Arguments heap {S} _.
Arguments fresh_loc {S} _.

(** The flags of an event. *)
Record flags : Type := mk_flags {
  is_in : bool; is_out : bool; is_rdhup : bool; is_err : bool; is_hup : bool }.

(** An event of a connection, with the answers of the kernel while it is handled: to
    [read], to [send], and to the final [epoll_ctl]. *)
Record conn_event : Type := mk_event {
  ptr : loc;
  fl : flags;
  reads : list read_answer;
  send_result : send_answer;
  ctl_ok : bool;
}.

(** What [epoll_wait] reports to the single-threaded server: the stop signal, the
    listening socket (with the sockets that [accept4] returns, each with the success
    of [EPOLL_CTL_ADD]), or a connection. *)
Inductive event : Type :=
| EventFd
| ServerSocket (accepted : list (Z * bool))
| ConnectionEvent (e : conn_event).

Section servers.
Context {S : Type} `{Storage S}.
Variable err : bool.
Abbreviation server := (Server S).

Definition set_heap (h : gmap loc (Conn S)) (s : server) : server :=
  mk_server (storage s) (_connections s) h (fresh_loc s).
Definition set_connections (m : gmap Z loc) (s : server) : server :=
  mk_server (storage s) m (heap s) (fresh_loc s).

(** A member function of the connection at [l]. *)
Definition on_conn {A} (l : loc) (m : prog (World S Io) A) : prog server A := λ s,
  match heap s !! l with
  | None => Undef UseAfterFree
  | Some c =>
    let put w := mk_server (pStorage w) (_connections s)
                   (<[l := mk_conn (_socket c) w]> (heap s)) (fresh_loc s) in
    match m (set_storage (storage s) (body c)) with
    | Ret a w => Ret a (put w)
    | Throw e w => Throw e (put w)
    | Undef u => Undef u
    | NoFuel => NoFuel
    end
  end.

(** [pc->_socket] *)
Definition socket_of (l : loc) : prog server Z := λ s,
  match heap s !! l with None => Undef UseAfterFree | Some c => Ret (_socket c) s end.

(** [delete pc], and the destruction of the [unique_ptr] that owns it. *)
Definition free (l : loc) : prog server unit := λ s,
  match heap s !! l with
  | None => Undef DoubleFree
  | Some _ => Ret tt (set_heap (delete l (heap s)) s)
  end.

(** [_connections.erase(fd)]: destroys what the entry owns. *)
Definition erase (fd : Z) : prog server unit :=
  c ← gets _connections;
  match c !! fd with
  | None => mret tt
  | Some l => modify (set_connections (delete fd c));; free l
  end.

(** [new Connection(infd, _logger, pStorage); pc->Start();] *)
Definition new_connection (infd : Z) : prog server loc := λ s,
  let l := fresh_loc s in
  let w := new_world (storage s) (mk_io [] (mk_events false false false false) false []) in
  on_conn l (Start err;; mret l)
    (mk_server (storage s) (_connections s) (<[l := mk_conn infd w]> (heap s)) (Pos.succ l)).

(** [_connections.insert(std::make_pair(fd, std::unique_ptr<Connection>(pc)))]: if the
    key is there, the pair is destroyed, and with it the connection. *)
Definition insert_connection (fd : Z) (l : loc) : prog server unit :=
  c ← gets _connections;
  match c !! fd with
  | None => modify (set_connections (<[fd := l]> c))
  | Some _ => free l
  end.

(** The dispatch on the flags of an event, the same in both servers. *)
Definition dispatch (e : conn_event) : prog server unit :=
  let l := ptr e in
  if is_err (fl e) || is_hup (fl e) then on_conn l OnError
  else if is_rdhup (fl e) then on_conn l OnClose
  else
    (if is_in (fl e) then on_conn l (DoRead err (reads e)) else mret tt);;
    (if is_out (fl e) then on_conn l (DoWrite err (send_result e)) else mret tt).

(** [pc->isAlive()] and [pc->_event.events] *)
Definition isAlive (l : loc) : prog server bool := on_conn l (gets (_connection_alive ∘ io)).
Definition mask (l : loc) : prog server Nonblocking.events := on_conn l (gets (_event ∘ io)).

(** ** [STnonblock::ServerImpl] *)

#[export] Instance events_eq_dec : EqDecision Nonblocking.events.
Proof. solve_decision. Defined.

(** The body of the loop of [OnRun] for the event of a connection. *)
Definition st_handle (e : conn_event) : prog server unit :=
  let pc := ptr e in
  old_mask ← mask pc;
  dispatch e;;
  alive ← isAlive pc;
  if negb alive then
    fd ← socket_of pc;
    (* tmp.swap(_connections[pc->_socket]); _connections.erase(pc->_socket) *)
    tmp ← gets (λ s, _connections s !! fd);
    modify (λ s, set_connections (delete fd (_connections s)) s);;
    on_conn pc OnClose;;
    (* end of scope of tmp *)
    match tmp with Some l => free l | None => mret tt end
  else
    new_mask ← mask pc;
    if decide (new_mask = old_mask) then mret tt
    else
      fd ← socket_of pc;
      if ctl_ok e then mret tt
      else
        erase fd;;
        on_conn pc OnError;;
        free pc.

(** [OnNewConnection], for the sockets that [accept4] returns before [EAGAIN]. *)
Fixpoint OnNewConnection (accepted : list (Z * bool)) : prog server unit :=
  match accepted with
  | [] => mret tt
  | (infd, add_ok) :: accepted =>
    pc ← new_connection infd;
    fd ← socket_of pc;
    if add_ok : bool then insert_connection fd pc;; OnNewConnection accepted
    else on_conn pc OnError;; free pc   (* and the exception ends the loop *)
  end.

(** One event of [OnRun]: whether the loop goes on. *)
Definition st_event (e : event) : prog server bool :=
  match e with
  | EventFd => mret false
  | ServerSocket accepted => OnNewConnection accepted;; mret true
  | ConnectionEvent e => st_handle e;; mret true
  end.

(** The events of a batch are all handled, also behind the stop signal. *)
Fixpoint st_events (es : list event) : prog server unit :=
  match es with
  | [] => mret tt
  | e :: es => _ ← st_event e; st_events es
  end.

(** The loop over [mod_list]: whether the loop over [epoll_wait] goes on. *)
Fixpoint st_batch (es : list event) (run : bool) : prog server bool :=
  match es with
  | [] => mret run
  | e :: es => go ← st_event e; st_batch es (run && go)
  end.

(** The loop over [epoll_wait], for the batches it reports: whether it is still running. *)
Fixpoint st_loop (batches : list (list event)) : prog server bool :=
  match batches with
  | [] => mret true
  | es :: batches =>
    run ← st_batch es true;
    if run : bool then st_loop batches else mret false
  end.

(** [OnRun]: the success of [epoll_create1] and of the two registrations, then the loop. *)
Definition OnRun (epoll_created listener_added eventfd_added : bool) (batches : list (list event)) : prog server bool :=
  if negb epoll_created then throw "Failed to create epoll file descriptor" else
  if negb listener_added then throw "Failed to add file descriptor to epoll" else
  if negb eventfd_added then throw "Failed to add file descriptor to epoll" else
  st_loop batches.

(** [Stop]: every connection of the table is destroyed. *)
Fixpoint free_all (ls : list loc) : prog server unit :=
  match ls with
  | [] => mret tt
  | l :: ls => free l;; free_all ls
  end.

Definition Stop : prog server unit :=
  c ← gets _connections;
  free_all (map_to_list c).*2;;
  modify (set_connections ∅).

(** ** [MTnonblock] *)

(** The body of the loop of [Worker::OnRun] for the event of a connection. *)
Definition mt_handle (e : conn_event) : prog server unit :=
  let pconn := ptr e in
  dispatch e;;
  alive ← isAlive pconn;
  if alive : bool then
    _ ← socket_of pconn;
    if ctl_ok e then mret tt else on_conn pconn OnError;; free pconn
  else
    _ ← socket_of pconn;
    free pconn.

(** The registration of an accepted socket in [ServerImpl::OnRun]. *)
Definition mt_accept (infd : Z) (add_ok : bool) : prog server unit :=
  pc ← new_connection infd;
  if add_ok then insert_connection infd pc
  else on_conn pc OnError;; free pc.

End servers.

(** ** Ownership *)

(** Every connection is owned by the entry of the table under its socket, and every
    entry owns a connection. *)
Record owned {S} (s : Server S) : Prop := mk_owned {
  owned_entry : ∀ fd l, _connections s !! fd = Some l →
    ∃ c, heap s !! l = Some c ∧ _socket c = fd;
  owned_conn : ∀ l c, heap s !! l = Some c → _connections s !! _socket c = Some l;
  owned_fresh : ∀ l, is_Some (heap s !! l) → (l < fresh_loc s)%positive;
}.

(** The batches that are handled: those up to the first with the stop signal. *)
Definition is_stop (e : event) : bool := match e with EventFd => true | _ => false end.
Fixpoint until_stop (batches : list (list event)) : list event :=
  match batches with
  | [] => []
  | es :: batches => es ++ (if existsb is_stop es then [] else until_stop batches)
  end.

(** A server without connections. *)
Definition new_server {S} (st : S) : Server S := mk_server st ∅ ∅ 1.

(** ** Facts *)

Section server_facts.
Context {S : Type} `{Storage S}.
Variable err : bool.
Implicit Types (s : Server S) (e : conn_event).

(** The same connections under the same sockets, in other states. *)
Definition keeps s s' : Prop :=
  _connections s' = _connections s ∧ fresh_loc s' = fresh_loc s ∧
  ∀ l, _socket <$> heap s' !! l = _socket <$> heap s !! l.

#[local] Instance keeps_preorder : PreOrder keeps.
Proof.
  split; [by intros s|]. intros s1 s2 s3 (H1 & H2 & H3) (H4 & H5 & H6).
  split_and!; [congruence..|]. intros l. by rewrite H6, H3.
Qed.

Lemma keeps_heap s s' l : keeps s s' → is_Some (heap s !! l) ↔ is_Some (heap s' !! l).
Proof. intros (_ & _ & Hh). rewrite <-!(fmap_is_Some _socket). by rewrite Hh. Qed.

Lemma keeps_conn s s' l c :
  keeps s s' → heap s !! l = Some c → ∃ c', heap s' !! l = Some c' ∧ _socket c' = _socket c.
Proof.
  intros (_ & _ & Hh) Hc. specialize (Hh l). rewrite Hc in Hh. cbn in Hh.
  destruct (heap s' !! l) as [c'|]; simplify_eq/=. eauto.
Qed.

Lemma keeps_sym s s' : keeps s s' → keeps s' s.
Proof. intros (? & ? & Hh). split_and!; [done..|]. intros l. by rewrite Hh. Qed.

Lemma keeps_owned s s' : keeps s s' → owned s → owned s'.
Proof.
  intros Hk [He Hc Hf]. pose proof Hk as (Hm & Hl & Hh). split.
  - intros fd l. rewrite Hm. intros (c & Hl' & <-)%He.
    destruct (keeps_conn _ _ _ _ Hk Hl') as (c' & ? & ?). eauto.
  - intros l c' Hc'. destruct (keeps_conn _ _ _ _ (keeps_sym _ _ Hk) Hc') as (c & Hl' & Hs).
    rewrite Hm, <-Hs. by apply Hc.
  - intros l Hi. rewrite Hl. apply Hf. by eapply keeps_heap.
Qed.

Lemma on_conn_keeps {A} l (m : prog (World S Io) A) s a s' :
  on_conn l m s = Ret a s' → keeps s s' ∧ is_Some (heap s !! l).
Proof.
  unfold on_conn. destruct (heap s !! l) as [c|] eqn:Hc; [|done].
  destruct (m _) as [a0 w| | |]; intros; simplify_eq. split; [|eauto].
  split_and!; [done..|]. intros l'. cbn. destruct (decide (l' = l)) as [->|Hne].
  - by rewrite lookup_insert_eq, Hc.
  - by rewrite lookup_insert_ne.
Qed.

Lemma dispatch_keeps e s u s' :
  is_Some (heap s !! ptr e) → dispatch err e s = Ret u s' → keeps s s'.
Proof.
  intros Hl. unfold dispatch. destruct (is_err _ || is_hup _).
  { intros E. by apply on_conn_keeps in E as [? _]. }
  destruct (is_rdhup _). { intros E. by apply on_conn_keeps in E as [? _]. }
  intros E. bind_inv E. trans s0.
  - destruct (is_in _); [by apply on_conn_keeps in E0 as [? _]|by injection E0 as <- <-].
  - destruct (is_out _); [by apply on_conn_keeps in E as [? _]|by injection E as <- <-].
Qed.

(** A query of a connection that exists. *)
Lemma query_run {A} l (f : World S Io → A) s c :
  heap s !! l = Some c →
  ∃ s', on_conn l (gets f) s = Ret (f (set_storage (storage s) (body c))) s' ∧ keeps s s' ∧
        heap s' !! l = Some (mk_conn (_socket c) (set_storage (storage s) (body c))) ∧
        storage s' = storage s.
Proof.
  intros Hc. eexists. split; [unfold on_conn; by rewrite Hc|]. split; [|split].
  - split_and!; [done..|]. intros l'. cbn. destruct (decide (l' = l)) as [->|Hne].
    + by rewrite lookup_insert_eq, Hc.
    + by rewrite lookup_insert_ne.
  - cbn. by rewrite lookup_insert_eq.
  - done.
Qed.

(** A member function that only closes. *)
Lemma close_run l s c :
  heap s !! l = Some c → ∃ s', on_conn l OnClose s = Ret tt s' ∧ keeps s s'.
Proof.
  intros Hc.
  assert (∃ s', on_conn l OnClose s = Ret tt s') as [s' E].
  { unfold on_conn. rewrite Hc. eexists. cbn. reflexivity. }
  exists s'. split; [done|]. by apply on_conn_keeps in E as [? _].
Qed.

Lemma socket_run l s c : heap s !! l = Some c → socket_of l s = Ret (_socket c) s.
Proof. intros Hc. unfold socket_of. by rewrite Hc. Qed.

Lemma free_run l s : is_Some (heap s !! l) → free l s = Ret tt (set_heap (delete l (heap s)) s).
Proof. intros [c Hc]. unfold free. by rewrite Hc. Qed.

(** A connection and its entry removed together. *)
Lemma owned_remove s l c :
  owned s → heap s !! l = Some c →
  owned (set_heap (delete l (heap s)) (set_connections (delete (_socket c) (_connections s)) s)).
Proof.
  intros [He Hc Hf] Hl. split; cbn.
  - intros fd l' [Hne Hfd]%lookup_delete_Some. destruct (He fd l' Hfd) as (c' & Hl' & <-).
    exists c'. split; [|done]. apply lookup_delete_Some. split; [|done]. intros <-. congruence.
  - intros l' c' [Hne Hl']%lookup_delete_Some. apply lookup_delete_Some. split; [|by apply Hc].
    intros Heq. apply Hc in Hl, Hl'. congruence.
  - intros l' [c' [_ Hl']%lookup_delete_Some]. apply Hf. eauto.
Qed.

(** Handling the event of a connection, when its handlers are defined and the mask can
    be changed. *)
Lemma st_handle_run e s c m s0 s1 :
  owned s → heap s !! ptr e = Some c →
  mask (ptr e) s = Ret m s0 → dispatch err e s0 = Ret tt s1 →
  (∀ c1, heap s1 !! ptr e = Some c1 → _connection_alive (io (body c1)) = true →
         _event (io (body c1)) ≠ m → ctl_ok e = true) →
  ∃ s' c1, heap s1 !! ptr e = Some c1 ∧ st_handle err e s = Ret tt s' ∧ owned s' ∧
    if _connection_alive (io (body c1)) then keeps s s'
    else _connections s' = delete (_socket c) (_connections s) ∧ heap s' !! ptr e = None.
Proof.
  intros Ho Hc Em Hd Hok. unfold st_handle. rewrite (bind_ret _ _ _ _ _ Em).
  unfold mask, isAlive in *.
  destruct (query_run (ptr e) (_event ∘ io) s c Hc) as (s0' & E0 & K0 & Hc0 & Hst0).
  rewrite E0 in Em. injection Em as _ <-.
  rewrite (bind_ret _ _ _ _ _ Hd).
  assert (keeps s0' s1) as K1 by (eapply dispatch_keeps; eauto).
  destruct (keeps_conn _ _ _ _ K1 Hc0) as (c1 & Hc1 & Hs1). cbn in Hs1.
  destruct (query_run (ptr e) (_connection_alive ∘ io) s1 c1 Hc1) as (s2 & E2 & K2 & Hc2 & _).
  rewrite (bind_ret _ _ _ _ _ E2). cbn [compose].
  change (_connection_alive (io (set_storage (storage s1) (body c1))))
    with (_connection_alive (io (body c1))).
  assert (keeps s s2) as K by (by trans s1; [trans s0'|]).
  destruct (_connection_alive (io (body c1))) eqn:Ha; cbn [negb].
  - destruct (query_run (ptr e) (_event ∘ io) s2 _ Hc2) as (s3 & E3 & K3 & Hc3 & _).
    rewrite (bind_ret _ _ _ _ _ E3).
    assert (keeps s s3) as K' by (by trans s2). exists s3, c1. split; [done|].
    split; [|split; [by eapply keeps_owned|by rewrite Ha]].
    case_decide as Hm; [done|]. rewrite (bind_ret _ _ _ _ _ (socket_run _ _ _ Hc3)).
    by rewrite (Hok c1 Hc1 Ha Hm).
  - pose proof (keeps_owned _ _ K Ho) as Ho2.
    rewrite (bind_ret _ _ _ _ _ (socket_run _ _ _ Hc2)). cbn [_socket]. rewrite Hs1.
    pose proof (owned_conn _ Ho2 _ _ Hc2) as Hfd. cbn in Hfd. rewrite Hs1 in Hfd.
    unfold mbind at 1, prog_bind at 1, gets at 1. unfold mbind at 1, prog_bind at 1, modify at 1.
    set (s3 := set_connections (delete (_socket c) (_connections s2)) s2).
    destruct (close_run (ptr e) s3 _ Hc2) as (s4 & E4 & K4).
    rewrite (bind_ret _ _ _ _ _ E4), Hfd.
    destruct (keeps_conn _ _ _ _ K4 Hc2) as (c4 & Hc4 & Hs4).
    rewrite free_run by eauto. eexists _, c1. split; [done|]. split; [done|]. rewrite Ha.
    split.
    + eapply (keeps_owned (set_heap (delete (ptr e) (heap s2)) s3)).
      * destruct K4 as (Hm & Hf & Hh). split_and!; [done..|]. intros l. cbn.
        destruct (decide (l = ptr e)) as [->|Hne]; [by rewrite !lookup_delete_eq|].
        rewrite !lookup_delete_ne by done. apply Hh.
      * pose proof (owned_remove s2 (ptr e) _ Ho2 Hc2) as Hr. cbn in Hr. by rewrite Hs1 in Hr.
    + split; [|cbn; apply lookup_delete_eq]. cbn. destruct K4 as (-> & _). cbn. by destruct K as (-> & _).
Qed.

(** The connection behind its handlers, and the mask before them. *)
Lemma dispatched_conn e s c m s0 s1 :
  heap s !! ptr e = Some c → mask (ptr e) s = Ret m s0 → dispatch err e s0 = Ret tt s1 →
  ∃ c1, heap s1 !! ptr e = Some c1 ∧ m = _event (io (body c)).
Proof.
  intros Hc Em Hd. unfold mask in Em.
  destruct (query_run (ptr e) (_event ∘ io) s c Hc) as (s0' & E0 & K0 & Hc0 & _).
  rewrite E0 in Em. injection Em as <- <-.
  assert (keeps s0' s1) as K1 by (eapply dispatch_keeps; eauto).
  destruct (keeps_conn _ _ _ _ K1 Hc0) as (c1 & Hc1 & _). by exists c1.
Qed.

(** [epoll_ctl] fails to change the mask. *)
Lemma st_handle_mod_fails e s c s0 s1 c1 :
  owned s → heap s !! ptr e = Some c → ctl_ok e = false →
  mask (ptr e) s = Ret (_event (io (body c))) s0 → dispatch err e s0 = Ret tt s1 →
  heap s1 !! ptr e = Some c1 → _connection_alive (io (body c1)) = true →
  _event (io (body c1)) ≠ _event (io (body c)) →
  st_handle err e s = Undef UseAfterFree.
Proof.
  intros Ho Hc Hok E0 E1 Hc1 Ha Hm. unfold st_handle. rewrite (bind_ret _ _ _ _ _ E0).
  rewrite (bind_ret _ _ _ _ _ E1). unfold mask, isAlive in *.
  apply on_conn_keeps in E0 as [K0 _].
  assert (keeps s0 s1) as K1.
  { eapply dispatch_keeps; [|done]. apply (keeps_heap s s0 _ K0). eauto. }
  destruct (query_run (ptr e) (_connection_alive ∘ io) s1 c1 Hc1) as (s2 & E2 & K2 & Hc2 & _).
  rewrite (bind_ret _ _ _ _ _ E2). cbn [compose].
  change (_connection_alive (io (set_storage (storage s1) (body c1))))
    with (_connection_alive (io (body c1))). rewrite Ha. cbn [negb].
  destruct (query_run (ptr e) (_event ∘ io) s2 _ Hc2) as (s3 & E3 & K3 & Hc3 & _).
  rewrite (bind_ret _ _ _ _ _ E3). cbn [compose body].
  change (_event (io (set_storage (storage s2) (set_storage (storage s1) (body c1)))))
    with (_event (io (body c1))).
  rewrite decide_False by done. rewrite (bind_ret _ _ _ _ _ (socket_run _ _ _ Hc3)), Hok.
  cbn [_socket]. assert (keeps s s3) as K by (by trans s2; [trans s1; [trans s0|]|]).
  pose proof (owned_conn _ (keeps_owned _ _ K Ho) _ _ Hc3) as Hfd. cbn in Hfd.
  unfold erase. unfold mbind at 1, prog_bind at 1. unfold mbind at 1, prog_bind at 1, gets at 1.
  rewrite Hfd. unfold mbind at 1, prog_bind at 1, modify at 1.
  rewrite free_run by (cbn; eauto). unfold mbind, prog_bind, on_conn. cbn.
  by rewrite lookup_delete_eq.
Qed.

(** *** Accepting and stopping *)

Lemma new_connection_run s infd :
  ∃ s' c, new_connection err infd s = Ret (fresh_loc s) s' ∧
    heap s' = <[fresh_loc s := c]> (heap s) ∧ _socket c = infd ∧
    _connections s' = _connections s ∧ fresh_loc s' = Pos.succ (fresh_loc s).
Proof.
  eexists _, _. split.
  - unfold new_connection, on_conn. cbn [heap]. rewrite lookup_insert_eq.
    unfold Start, mbind, prog_bind, zoom. cbn. reflexivity.
  - cbn. by rewrite insert_insert_eq.
Qed.

Lemma owned_insert s s' infd c :
  owned s → _connections s !! infd = None → _socket c = infd →
  heap s' = <[fresh_loc s := c]> (heap s) → _connections s' = <[infd := fresh_loc s]> (_connections s) →
  fresh_loc s' = Pos.succ (fresh_loc s) → owned s'.
Proof.
  intros [He Hc Hf] Hfd Hs Hh Hm Hl.
  assert (heap s !! fresh_loc s = None) as Hn by (apply eq_None_not_Some; intros Hi%Hf; lia).
  split; rewrite ?Hh, ?Hm, ?Hl.
  - intros fd l [[<- <-]|[Hne Hfl]]%lookup_insert_Some; [exists c; by rewrite lookup_insert_eq|].
    destruct (He fd l Hfl) as (c' & Hc' & ?). exists c'. split; [|done].
    rewrite lookup_insert_ne; [done|]. intros <-. congruence.
  - intros l c' [[<- <-]|[Hne Hcl]]%lookup_insert_Some; [by rewrite Hs, lookup_insert_eq|].
    pose proof (Hc _ _ Hcl). rewrite lookup_insert_ne; [done|]. congruence.
  - intros l. destruct (decide (l = fresh_loc s)) as [->|Hne]; [lia|].
    rewrite lookup_insert_ne by done. intros Hi%Hf. lia.
Qed.

Lemma owned_drop s s' c :
  owned s → heap s' = <[fresh_loc s := c]> (heap s) → _connections s' = _connections s →
  fresh_loc s' = Pos.succ (fresh_loc s) →
  owned (set_heap (delete (fresh_loc s) (heap s')) s').
Proof.
  intros [He Hc Hf] Hh Hm Hl.
  assert (heap s !! fresh_loc s = None) as Hn by (apply eq_None_not_Some; intros Hi%Hf; lia).
  split; cbn; rewrite ?Hm, ?Hl, Hh, ?delete_insert_id by done; try done.
  intros l Hi%Hf. lia.
Qed.

Lemma OnNewConnection_run accepted s :
  owned s → NoDup accepted.*1 → (∀ fd, fd ∈ accepted.*1 → _connections s !! fd = None) →
  ∃ s', OnNewConnection err accepted s = Ret tt s' ∧ owned s'.
Proof.
  revert s. induction accepted as [|[infd ok] accepted IH]; intros s Ho Hnd Hfree.
  { exists s. done. }
  csimpl in *. apply NoDup_cons in Hnd as [Hin Hnd].
  destruct (new_connection_run s infd) as (s1 & c & E1 & Hh & Hs & Hm & Hl).
  assert (heap s1 !! fresh_loc s = Some c) as Hc by (by rewrite Hh, lookup_insert_eq).
  cbn [OnNewConnection]. rewrite (bind_ret _ _ _ _ _ E1), (bind_ret _ _ _ _ _ (socket_run _ _ _ Hc)).
  rewrite Hs. destruct ok.
  - assert (insert_connection infd (fresh_loc s) s1 =
            Ret tt (set_connections (<[infd := fresh_loc s]> (_connections s1)) s1)) as E2.
    { unfold insert_connection, mbind, prog_bind, gets. by rewrite Hm, Hfree by set_solver. }
    rewrite (bind_ret _ _ _ _ _ E2). apply IH; [|done|].
    + apply (owned_insert s _ infd c); try done; [by apply Hfree; set_solver|]. cbn. by rewrite Hm.
    + intros fd Hfd. cbn. rewrite Hm, lookup_insert_ne by set_solver. apply Hfree. set_solver.
  - destruct (close_run (fresh_loc s) s1 c Hc) as (s2 & E2 & K2).
    unfold OnError. rewrite (bind_ret _ _ _ _ _ E2).
    destruct (keeps_conn _ _ _ _ K2 Hc) as (c2 & Hc2 & _).
    rewrite free_run by eauto. eexists. split; [done|].
    eapply (keeps_owned (set_heap (delete (fresh_loc s) (heap s1)) s1)); [|by apply (owned_drop s s1 c)].
    destruct K2 as (? & ? & Hh2). split_and!; [done..|]. intros l. cbn.
    destruct (decide (l = fresh_loc s)) as [->|Hne]; [by rewrite !lookup_delete_eq|].
    rewrite !lookup_delete_ne by done. apply Hh2.
Qed.

Lemma free_all_run ls s :
  NoDup ls → (∀ l, l ∈ ls → is_Some (heap s !! l)) →
  ∃ s', free_all ls s = Ret tt s' ∧ _connections s' = _connections s ∧
        ∀ l, heap s' !! l = if decide (l ∈ ls) then None else heap s !! l.
Proof.
  revert s. induction ls as [|l ls IH]; intros s Hnd Hin.
  { exists s. split_and!; [done..|]. intros l. by rewrite decide_False by set_solver. }
  apply NoDup_cons in Hnd as [Hl Hnd]. cbn [free_all].
  rewrite (bind_ret _ _ _ _ _ (free_run l s (Hin l ltac:(set_solver)))).
  destruct (IH (set_heap (delete l (heap s)) s) Hnd) as (s' & E & Hm & Hh).
  - intros l' Hl'. cbn. rewrite lookup_delete_ne by set_solver. apply Hin. set_solver.
  - exists s'. split; [done|]. split; [done|]. intros l'. rewrite Hh. cbn.
    destruct (decide (l' = l)) as [->|Hne].
    + rewrite (decide_True (P := l ∈ l :: ls)) by set_solver.
      case_decide; [done|]. apply lookup_delete_eq.
    + rewrite lookup_delete_ne by done. do 2 case_decide; set_solver.
Qed.

(** A freed connection in the list is freed again. *)
Lemma free_all_twice ls l s : l ∈ ls → heap s !! l = None → free_all ls s = Undef DoubleFree.
Proof.
  revert s. induction ls as [|l' ls IH]; intros s Hin Hl; [set_solver|]. cbn [free_all].
  destruct (heap s !! l') as [c|] eqn:Hl'.
  - rewrite (bind_ret _ _ _ _ _ (free_run l' s ltac:(eauto))). apply IH.
    + apply elem_of_cons in Hin as [->|Hin]; [congruence|done].
    + cbn. by rewrite lookup_delete_None; right.
  - apply bind_undef. unfold free. by rewrite Hl'.
Qed.

Lemma table_locs_nodup s : owned s → NoDup (map_to_list (_connections s)).*2.
Proof.
  intros [He _ _]. apply NoDup_fmap_2_strong; [|apply NoDup_map_to_list].
  intros [fd1 l1] [fd2 l2] H1%elem_of_map_to_list H2%elem_of_map_to_list. cbn. intros ->.
  destruct (He _ _ H1) as (c1 & Hc1 & <-), (He _ _ H2) as (c2 & Hc2 & <-). congruence.
Qed.

Lemma Stop_run s :
  owned s → ∃ s', Stop s = Ret tt s' ∧ heap s' = ∅ ∧ _connections s' = ∅.
Proof.
  intros Ho. unfold Stop. unfold mbind at 1, prog_bind at 1, gets at 1.
  destruct (free_all_run (map_to_list (_connections s)).*2 s) as (s' & E & Hm & Hh).
  - by apply table_locs_nodup.
  - intros l ([fd l'] & -> & Hin%elem_of_map_to_list)%list_elem_of_fmap.
    destruct (owned_entry _ Ho _ _ Hin) as (c & Hc & _). eauto.
  - rewrite (bind_ret _ _ _ _ _ E). eexists. split; [done|]. cbn. split; [|done].
    apply map_eq. intros l. rewrite Hh, lookup_empty. case_decide as Hd; [done|].
    apply eq_None_not_Some. intros [c Hc]. apply Hd. apply list_elem_of_fmap.
    exists (_socket c, l). split; [done|]. apply elem_of_map_to_list. by apply Ho.
Qed.

(** *** The worker of the multithreaded server *)

(** A connection that dies is freed while the table still owns it. *)
Lemma mt_handle_dead e s s' c :
  owned s → heap s !! ptr e = Some c → mt_handle err e s = Ret tt s' →
  heap s' !! ptr e = None →
  _connections s' !! _socket c = Some (ptr e) ∧ fresh_loc s' = fresh_loc s ∧
  heap s' !! fresh_loc s' = None.
Proof.
  intros Ho Hc E Hd. unfold mt_handle in E. bind_inv E.
  assert (keeps s s0) as K0 by (eapply dispatch_keeps; eauto).
  bind_inv E. unfold isAlive in E1. apply on_conn_keeps in E1 as [K1 _].
  assert (keeps s s1) as K by (by trans s0).
  destruct (keeps_conn _ _ _ _ K Hc) as (c1 & Hc1 & _).
  assert (∀ s2, keeps s s2 → _connections s2 !! _socket c = Some (ptr e) ∧ fresh_loc s2 = fresh_loc s ∧
            heap s2 !! fresh_loc s2 = None) as Hgoal.
  { intros s2 K2. pose proof (keeps_owned _ _ K2 Ho) as Ho2.
    destruct (keeps_conn _ _ _ _ K2 Hc) as (c2 & Hc2 & <-). split; [by apply Ho2|].
    split; [by destruct K2 as (_ & -> & _)|]. apply eq_None_not_Some. intros Hi%Ho2. lia. }
  assert (∀ s2, keeps s s2 → free (ptr e) s2 = Ret tt s' →
            _connections s' !! _socket c = Some (ptr e) ∧ fresh_loc s' = fresh_loc s ∧
            heap s' !! fresh_loc s' = None) as Hfree.
  { intros s2 K2 Ef. destruct (Hgoal s2 K2) as (? & ? & ?).
    destruct (keeps_conn _ _ _ _ K2 Hc) as (c2 & Hc2 & _). rewrite free_run in Ef by eauto.
    injection Ef as <-. cbn. split_and!; [done..|]. apply lookup_delete_None. by right. }
  destruct a0; rewrite (bind_ret _ _ _ _ _ (socket_run _ _ _ Hc1)) in E.
  - destruct (ctl_ok e).
    + injection E as <-. by apply Hgoal.
    + bind_inv E. apply on_conn_keeps in E1 as [K2 _]. eapply Hfree; [|done]. by trans s1.
  - by eapply Hfree.
Qed.

Lemma on_conn_freed {A} l (m : prog (World S Io) A) s :
  heap s !! l = None → on_conn l m s = Undef UseAfterFree.
Proof. intros Hl. unfold on_conn. by rewrite Hl. Qed.

(** The event of a connection that has been freed. *)
Lemma handle_freed e s :
  heap s !! ptr e = None →
  st_handle err e s = Undef UseAfterFree ∧ mt_handle err e s = Undef UseAfterFree.
Proof.
  intros Hl. split.
  - apply bind_undef. by apply on_conn_freed.
  - unfold mt_handle.
    assert (dispatch err e s = Undef UseAfterFree ∨ dispatch err e s = Ret tt s) as [E|E].
    { unfold dispatch. destruct (is_err _ || is_hup _); [left; by apply on_conn_freed|].
      destruct (is_rdhup _); [left; by apply on_conn_freed|].
      unfold mbind, prog_bind. destruct (is_in _); [rewrite on_conn_freed by done; by left|].
      cbn. destruct (is_out _); [left; by apply on_conn_freed|by right]. }
    + by apply bind_undef.
    + rewrite (bind_ret _ _ _ _ _ E). apply bind_undef. by apply on_conn_freed.
Qed.

End server_facts.

(** ** Properties *)

(** C13: when the handlers that the flags of an event of an owned connection call
    return, the single-threaded event loop handles the event without using or freeing
    a freed connection: a connection that is alive stays under its socket, a dead one is
    freed together with its entry, and the table owns exactly the connections that
    exist; with one exception, exactly when the connection is alive, asks for other
    events than before and [epoll_ctl] fails to change them: then it is used after it
    was freed. *)
Theorem st_handle_safe {S} `{Storage S} err (e : conn_event) (s : Server S) c m s0 s1 :
  owned s → heap s !! ptr e = Some c →
  mask (ptr e) s = Ret m s0 → dispatch err e s0 = Ret tt s1 →
  ∃ c1, heap s1 !! ptr e = Some c1 ∧
    if _connection_alive (io (body c1)) && bool_decide (_event (io (body c1)) ≠ m) && negb (ctl_ok e)
    then st_handle err e s = Undef UseAfterFree
    else ∃ s', st_handle err e s = Ret tt s' ∧ owned s' ∧
      if _connection_alive (io (body c1)) then _connections s' = _connections s
      else _connections s' = delete (_socket c) (_connections s) ∧ heap s' !! ptr e = None.
Proof.
  intros Ho Hc Em Hd.
  destruct (dispatched_conn err e s c m s0 s1 Hc Em Hd) as (c1 & Hc1 & ->). exists c1. split; [done|].
  destruct (_connection_alive (io (body c1)) && bool_decide (_event (io (body c1)) ≠ _event (io (body c))) && negb (ctl_ok e)) eqn:Eb.
  - apply andb_true_iff in Eb as [[Ha Hm%bool_decide_eq_true]%andb_true_iff Hn%negb_true_iff].
    by apply (st_handle_mod_fails err e s c s0 s1 c1).
  - destruct (st_handle_run err e s c _ s0 s1 Ho Hc Em Hd) as (s' & c2 & Hc2 & E & Ho' & Hr).
    { intros c2 Hc2 Ha Hm. simplify_eq. rewrite Ha, bool_decide_true in Eb by done. by destruct (ctl_ok e). }
    simplify_eq. exists s'. split_and!; [done..|]. destruct (_connection_alive _); [by apply Hr|done].
Qed.

(** Accepting sockets that are not in the table and stopping are safe: every new
    connection is registered and owned, or freed when epoll refuses it; [Stop]
    frees every connection exactly once. *)
Theorem accept_and_stop {S} `{Storage S} err accepted (s : Server S) :
  owned s → NoDup accepted.*1 → (∀ fd, fd ∈ accepted.*1 → _connections s !! fd = None) →
  ∃ s' s'', OnNewConnection err accepted s = Ret tt s' ∧ owned s' ∧
            Stop s' = Ret tt s'' ∧ heap s'' = ∅ ∧ _connections s'' = ∅.
Proof.
  intros Ho Hnd Hfree. destruct (OnNewConnection_run err accepted s Ho Hnd Hfree) as (s' & E & Ho').
  destruct (Stop_run s' Ho') as (s'' & E'' & Hh & Hm). by exists s', s''.
Qed.

(** When epoll fails to change the mask of a connection, the single-threaded
    server frees the connection through its table and then calls a member function
    of it; and an event that is handled after [Stop] uses a freed connection. *)
Theorem st_use_after_free {S} `{Storage S} err (e : conn_event) (s : Server S) c s0 s1 c1 :
  owned s → heap s !! ptr e = Some c →
  mask (ptr e) s = Ret (_event (io (body c))) s0 → dispatch err e s0 = Ret tt s1 →
  heap s1 !! ptr e = Some c1 → _connection_alive (io (body c1)) = true →
  _event (io (body c1)) ≠ _event (io (body c)) →
  (ctl_ok e = false → st_handle err e s = Undef UseAfterFree) ∧
  (Stop;; st_handle err e) s = Undef UseAfterFree.
Proof.
  intros Ho Hc E0 E1 Hc1 Ha Hm. split.
  - intros Hok. by apply (st_handle_mod_fails err e s c s0 s1 c1).
  - destruct (Stop_run s Ho) as (s' & E & Hh & _). rewrite (bind_ret _ _ _ _ _ E).
    apply handle_freed. by rewrite Hh.
Qed.

(** A worker of the multithreaded server frees a dead connection that the table
    still owns: [Stop] then frees it again; and when a new connection gets its
    socket, the table refuses it, and its first event uses a freed connection. *)
Theorem mt_double_free {S} `{Storage S} err (e e' : conn_event) (s s' : Server S) c :
  owned s → heap s !! ptr e = Some c → mt_handle err e s = Ret tt s' →
  heap s' !! ptr e = None →
  Stop s' = Undef DoubleFree ∧
  (ptr e' = fresh_loc s' →
   ∃ s'', mt_accept err (_socket c) true s' = Ret tt s'' ∧
          mt_handle err e' s'' = Undef UseAfterFree).
Proof.
  intros Ho Hc E Hd. destruct (mt_handle_dead err e s s' c Ho Hc E Hd) as (Hm & Hl & Hn). split.
  - unfold Stop. unfold mbind at 1, prog_bind at 1, gets at 1. apply bind_undef.
    apply (free_all_twice _ (ptr e)); [|done]. apply list_elem_of_fmap.
    exists (_socket c, ptr e). split; [done|]. by apply elem_of_map_to_list.
  - intros He'. destruct (new_connection_run err s' (_socket c)) as (s2 & c2 & E2 & Hh2 & _ & Hm2 & _).
    unfold mt_accept. rewrite (bind_ret _ _ _ _ _ E2).
    unfold insert_connection, mbind, prog_bind, gets. rewrite Hm2, Hm.
    rewrite free_run by (rewrite Hh2, lookup_insert_eq; eauto). eexists. split; [done|].
    apply handle_freed. cbn. rewrite He'. apply lookup_delete_eq.
Qed.

(** ** The loop of the single-threaded server *)

Section loop.
Context {S : Type} `{Storage S}.
Variable err : bool.
Implicit Types s : Server S.

Lemma st_event_goes e s go s' : st_event err e s = Ret go s' → go = negb (is_stop e).
Proof.
  destruct e as [|acc|c]; cbn [st_event is_stop]; intros E.
  - by injection E as <- _.
  - bind_inv E. by injection E as <- _.
  - bind_inv E. by injection E as <- _.
Qed.

Lemma st_events_app es fs s u s' :
  st_events err (es ++ fs) s = Ret u s' →
  ∃ s0, st_events err es s = Ret tt s0 ∧ st_events err fs s0 = Ret tt s'.
Proof.
  revert s. induction es as [|e es IH]; intros s; cbn [app st_events]; destruct u; [by exists s|].
  intros E. bind_inv E. destruct (IH _ E) as (s1 & E1 & E2). exists s1. split; [|done].
  by rewrite (bind_ret _ _ _ _ _ E0).
Qed.

Lemma st_batch_events es run s u s' :
  st_events err es s = Ret u s' → st_batch err es run s = Ret (run && negb (existsb is_stop es)) s'.
Proof.
  revert run s. induction es as [|e es IH]; intros run s E; cbn [st_events st_batch existsb] in *.
  - injection E as <- <-. by rewrite andb_true_r.
  - bind_inv E. rewrite (bind_ret _ _ _ _ _ E0), (IH _ _ E), (st_event_goes _ _ _ _ E0).
    by rewrite negb_orb, andb_assoc.
Qed.

(** [OnRun] handles the events in order, to the end of the first batch with the stop signal. *)
Lemma OnRun_events batches s u s' :
  st_events err (until_stop batches) s = Ret u s' →
  OnRun err true true true batches s = Ret (negb (existsb (existsb is_stop) batches)) s'.
Proof.
  change (OnRun err true true true batches s) with (st_loop err batches s).
  revert s. induction batches as [|es batches IH]; intros s E; cbn [until_stop st_loop existsb] in *.
  - by injection E as <- <-.
  - apply st_events_app in E as (s0 & E1 & E2).
    rewrite (bind_ret _ _ _ _ _ (st_batch_events _ true _ _ _ E1)). cbn [andb].
    destruct (existsb is_stop es); cbn [negb orb]; [by injection E2 as <-|]. destruct u. by apply IH.
Qed.

End loop.

(** *** Witnesses *)

(** A server with one connection on socket 5, and its events. *)
Definition one_connection (st : gmap bytes bytes) : Server (gmap bytes bytes) :=
  match OnNewConnection false [(5%Z, true)] (new_server st) with
  | Ret _ s => s
  | _ => new_server st
  end.

Definition reads_stats (ok : bool) : conn_event :=
  mk_event 1 (mk_flags true false false false false)
    [Bytes (lit "stats" ++ CRLF); Again] 0 ok.

Definition hangs_up : conn_event := mk_event 1 (mk_flags true false true false false) [] 0 true.

Lemma one_connection_owned : owned (one_connection ∅).
Proof.
  destruct (OnNewConnection_run false [(5%Z, true)] (new_server (∅ : gmap bytes bytes)))
    as (s' & E & Ho).
  - split; cbn.
    + intros fd l. by rewrite lookup_empty.
    + intros l c. by rewrite lookup_empty.
    + intros l. rewrite lookup_empty. by intros [].
  - repeat constructor. set_solver.
  - intros fd _. apply lookup_empty.
  - unfold one_connection. by rewrite E.
Qed.

Lemma reads_stats_dispatched ok :
  ∃ m s0 s1, mask 1 (one_connection ∅) = Ret m s0 ∧ dispatch false (reads_stats ok) s0 = Ret tt s1.
Proof.
  assert (returns ((mask 1;; dispatch false (reads_stats ok)) (one_connection ∅)) = true) as Hr.
  { destruct ok; vm_compute; reflexivity. }
  apply returns_spec in Hr as ([] & s1 & E). bind_inv E. eauto.
Qed.

Lemma one_connection_entry : ∃ c, heap (one_connection ∅) !! 1%positive = Some c ∧ _socket c = 5%Z.
Proof.
  assert ((_socket <$> heap (one_connection ∅) !! 1%positive) = Some 5%Z) as Hc.
  { vm_compute. reflexivity. }
  destruct (heap (one_connection ∅) !! 1%positive) as [c|]; simplify_eq/=. eauto.
Qed.

Lemma st_handle_safe_witness :
  ∃ s' (c1 : Conn (gmap bytes bytes)),
    st_handle false (reads_stats true) (one_connection ∅) = Ret tt s' ∧ owned s' ∧
    if _connection_alive (io (body c1)) then _connections s' = _connections (one_connection ∅)
    else _connections s' = delete 5%Z (_connections (one_connection ∅)) ∧
         heap s' !! 1%positive = None.
Proof.
  destruct (reads_stats_dispatched true) as (m & s0 & s1 & Em & Ed).
  destruct one_connection_entry as (c & Hc & <-).
  destruct (st_handle_safe false (reads_stats true) (one_connection ∅) c m s0 s1
              one_connection_owned Hc Em Ed) as (c1 & _ & Hr).
  rewrite andb_false_r in Hr. destruct Hr as (s' & Hr). by exists s', c1.
Defined.

Lemma accept_and_stop_witness :
  ∃ s' s'', OnNewConnection false [(7%Z, true); (8%Z, false)] (one_connection ∅) = Ret tt s' ∧
            owned s' ∧ Stop s' = Ret tt s'' ∧ heap s'' = ∅ ∧ _connections s'' = ∅.
Proof.
  apply (accept_and_stop false [(7%Z, true); (8%Z, false)] (one_connection ∅)).
  - apply one_connection_owned.
  - repeat constructor; set_solver.
  - intros fd [->|[->|[]%not_elem_of_nil]%elem_of_cons]%elem_of_cons; reflexivity.
Defined.

(** The effect of the handlers on the connection: it lives, and asks for more. *)
Lemma reads_stats_effect ok :
  ∃ c s0 s1 c1, heap (one_connection ∅) !! 1%positive = Some c ∧
    mask 1 (one_connection ∅) = Ret (_event (io (body c))) s0 ∧
    dispatch false (reads_stats ok) s0 = Ret tt s1 ∧ heap s1 !! 1%positive = Some c1 ∧
    _connection_alive (io (body c1)) = true ∧ _event (io (body c1)) ≠ _event (io (body c)).
Proof.
  destruct (reads_stats_dispatched ok) as (m & s0 & s1 & Em & Ed).
  destruct one_connection_entry as (c & Hc & _).
  destruct (query_run 1 (_event ∘ io) (one_connection ∅) c Hc) as (s0' & E0 & K0 & Hc0 & _).
  unfold mask in *. rewrite E0 in Em. injection Em as <- <-.
  destruct (keeps_conn _ _ 1 _ (dispatch_keeps false (reads_stats ok) s0' tt s1 ltac:(eauto) Ed) Hc0)
    as (c1 & Hc1 & _).
  exists c, s0', s1, c1. split_and!; try done.
  - assert ((λ c, _connection_alive (io (body c))) <$>
            match (mask 1;; dispatch false (reads_stats ok)) (one_connection ∅) with
            | Ret _ s => heap s !! 1%positive | _ => None end = Some true) as Ha.
    { destruct ok; vm_compute; reflexivity. }
    unfold mask in Ha. rewrite (bind_ret _ _ _ _ _ E0), Ed, Hc1 in Ha. by simplify_eq/=.
  - assert ((λ c, EPOLLOUT (_event (io (body c)))) <$>
            match (mask 1;; dispatch false (reads_stats ok)) (one_connection ∅) with
            | Ret _ s => heap s !! 1%positive | _ => None end = Some true) as Ha.
    { destruct ok; vm_compute; reflexivity. }
    unfold mask in Ha. rewrite (bind_ret _ _ _ _ _ E0), Ed, Hc1 in Ha.
    assert ((λ c, EPOLLOUT (_event (io (body c)))) <$> heap (one_connection ∅) !! 1%positive = Some false)
      as Hb by (vm_compute; reflexivity).
    rewrite Hc in Hb. simplify_eq/=. congruence.
Qed.

Lemma st_use_after_free_witness :
  st_handle false (reads_stats false) (one_connection ∅) = Undef UseAfterFree ∧
  (Stop;; st_handle false (reads_stats false)) (one_connection ∅) = Undef UseAfterFree.
Proof.
  destruct (reads_stats_effect false) as (c & s0 & s1 & c1 & Hc & E0 & E1 & Hc1 & Ha & Hm).
  destruct (st_use_after_free false (reads_stats false) (one_connection ∅) c s0 s1 c1
              one_connection_owned Hc E0 E1 Hc1 Ha Hm) as [H1 H2].
  split; [by apply H1|done].
Defined.

Lemma mt_double_free_witness :
  ∃ s', mt_handle false hangs_up (one_connection ∅) = Ret tt s' ∧
    Stop s' = Undef DoubleFree ∧
    (ptr (mk_event 2 (fl hangs_up) [] 0 true) = fresh_loc s' →
     ∃ s'', mt_accept false 5 true s' = Ret tt s'' ∧
            mt_handle false (mk_event 2 (fl hangs_up) [] 0 true) s'' = Undef UseAfterFree).
Proof.
  destruct one_connection_entry as (c & Hc & Hs).
  assert (bool_decide (match mt_handle false hangs_up (one_connection ∅) with
          | Ret _ s => heap s !! 1%positive = None | _ => False end) = true) as Hr.
  { vm_compute. reflexivity. }
  apply bool_decide_eq_true in Hr.
  destruct (mt_handle false hangs_up (one_connection ∅)) as [[] s'| | |] eqn:E; [|done..].
  exists s'. split; [done|].
  destruct (mt_double_free false hangs_up (mk_event 2 (fl hangs_up) [] 0 true) (one_connection ∅) s' c
              one_connection_owned Hc E Hr) as [H1 H2]. rewrite Hs in H2. by split.
Defined.
