(* ===== verification/Clients.v ===== *)
(** * Several clients of the single-threaded server

    What the event loop of src/sysprog/afina/src/network/st_nonblocking/ServerImpl.cpp
    does for clients that send well-formed requests, in any pieces and in any order of
    events: an abstract server that knows neither parser nor connections, only which
    requests a client still sends and which replies it has not taken yet, and that executes
    on the storage what has arrived.  The loop over the connections refines it; over the
    cache, every client gets the replies of one map. *)

From S2P Require Import Prelude Storage Commands Parser Connection Wire Network Servers.
Import Nonblocking.

(** ** The abstract server *)

(** A client: its socket, the requests that have not arrived whole yet, the part of the first
    one that has, the replies that wait for it and those it has taken. *)
Record Client : Type := mk_client {
  fd : Z;
  todo : list request;
  part : bytes;
  waiting : bytes;
  taken : bytes;
}.

(** [script l]: the requests of the client that will be connection [l]. *)
Record Clients (S : Type) : Type := mk_clients {
  store : S;
  clients : gmap loc Client;
  next_loc : loc;
}.
Arguments mk_clients {S} _ _ _.
Arguments store {S} _.
Arguments clients {S} _.
Arguments next_loc {S} _.

(** Which requests the bytes complete, which they do not, and what is left of the bytes. *)
Fixpoint arrived (todo : list request) (b : bytes) : list request * list request * bytes :=
  match todo with
  | [] => ([], [], b)
  | r :: todo' =>
    if decide (wire r `prefix_of` b) then
      let '(now, later, p) := arrived todo' (drop (length (wire r)) b) in (r :: now, later, p)
    else ([], todo, b)
  end.

(** The bytes of successive answers to [read]. *)
Fixpoint blocks_of (answers : list read_answer) : list bytes :=
  match answers with Bytes b :: answers => b :: blocks_of answers | _ => [] end.

Section spec.
Context {S : Type} `{Storage S}.
Variable script : loc → list request.
Abbreviation server := (Clients S).

Definition set_client (l : loc) (c : Client) (a : server) : server :=
  mk_clients (store a) (<[l := c]> (clients a)) (next_loc a).

Definition client_at (l : loc) : prog server Client := λ a,
  match clients a !! l with Some c => Ret c a | None => Undef UseAfterFree end.

(** Bytes arrive: the requests they complete are executed, in one go. *)
Definition receive (l : loc) (blocks : list bytes) : prog server unit :=
  c ← client_at l;
  let '(now, later, p) := arrived (todo c) (part c ++ mjoin blocks) in
  outs ← zoom store (λ s a, mk_clients s (clients a) (next_loc a)) (session (executed_as <$> now));
  modify (set_client l (mk_client (fd c) later p (waiting c ++ reply_stream outs) (taken c))).

(** The client takes [n] bytes. *)
Definition deliver (l : loc) (n : Z) : prog server unit :=
  c ← client_at l;
  modify (set_client l (mk_client (fd c) (todo c) (part c) (drop (Z.to_nat n) (waiting c))
                          (taken c ++ take (Z.to_nat n) (waiting c)))).

Definition leave (l : loc) : prog server unit :=
  _ ← client_at l;
  modify (λ a, mk_clients (store a) (delete l (clients a)) (next_loc a)).

Fixpoint arrive (accepted : list (Z * bool)) : prog server unit :=
  match accepted with
  | [] => mret tt
  | (infd, _) :: accepted =>
    modify (λ a, mk_clients (store a)
      (<[next_loc a := mk_client infd (script (next_loc a)) [] [] []]> (clients a)) (Pos.succ (next_loc a)));;
    arrive accepted
  end.

Definition goodbye (f : flags) : bool := is_err f || is_hup f || is_rdhup f.

Definition spec_event (e : event) : prog server unit :=
  match e with
  | EventFd => mret tt
  | ServerSocket accepted => arrive accepted
  | ConnectionEvent e =>
    if goodbye (fl e) then leave (ptr e)
    else
      (if is_in (fl e) then receive (ptr e) (blocks_of (reads e)) else mret tt);;
      (if is_out (fl e) then deliver (ptr e) (send_result e) else mret tt)
  end.

Fixpoint spec_events (es : list event) : prog server unit :=
  match es with [] => mret tt | e :: es => spec_event e;; spec_events es end.

(** ** What the kernel and the clients do *)

(** [read] ends with [EAGAIN] or the end of file. *)
Fixpoint ends_ok (answers : list read_answer) : bool :=
  match answers with
  | Bytes _ :: answers => ends_ok answers
  | Again :: _ | Eof :: _ => true
  | _ => false
  end.

(** The bytes go on with the requests of the client. *)
Definition read_ok (answers : list read_answer) (c : Client) : bool :=
  ends_ok answers && bool_decide (part c ++ mjoin (blocks_of answers) `prefix_of` mjoin (wire <$> todo c)).

(** [send] takes some of the bytes it is offered. *)
Definition write_ok (n : Z) (c : Client) : bool :=
  (0 <? n)%Z && (n <=? bsize (waiting c))%Z && (bsize (waiting c) <? 2 ^ 64)%Z.

(** Bytes come and go as above, and [epoll_ctl] works. *)
Definition conn_event_ok (e : conn_event) (a : server) : bool :=
  ctl_ok e &&
  match clients a !! ptr e with
  | None => false
  | Some c =>
    goodbye (fl e) ||
    (negb (is_in (fl e)) || read_ok (reads e) c) &&
    (negb (is_out (fl e)) ||
     match (if is_in (fl e) then receive (ptr e) (blocks_of (reads e)) else mret tt) a with
     | Ret _ a' => match clients a' !! ptr e with Some c => write_ok (send_result e) c | None => false end
     | _ => true
     end)
  end.

(** Accepted sockets are new, and added to the epoll descriptor. *)
Definition event_ok (e : event) (a : server) : bool :=
  match e with
  | EventFd => true
  | ServerSocket accepted =>
    bool_decide (NoDup accepted.*1) && forallb snd accepted &&
    bool_decide (map_Forall (λ _ c, fd c ∉ accepted.*1) (clients a))
  | ConnectionEvent e => conn_event_ok e a
  end.

Fixpoint events_ok (es : list event) (a : server) : bool :=
  match es with
  | [] => true
  | e :: es => event_ok e a && match spec_event e a with Ret _ a' => events_ok es a' | _ => true end
  end.

End spec.

(** ** How the server represents its clients *)

Section represents.
Context {S : Type} `{Storage S}.
Variable err : bool.

(** The part of a request that has arrived lies between the bytes and the next request. *)
Definition part_ok (todo : list request) (part : bytes) : Prop :=
  match todo with
  | [] => part = []
  | r :: _ => ∃ q, part ++ q = wire r ∧ q ≠ []
  end.

(** A connection that has read [part c] since it was ready for a request. *)
Record serves (c : Client) (w : World S Io) : Prop := mk_serves {
  s_alive : _connection_alive (io w) = true;
  s_results : _results (io w) = waiting c;
  s_sent : sent (io w) = taken c;
  s_ok : Forall request_ok (todo c);
  s_part : part_ok (todo c) (part c);
  s_state : ∃ w0, fresh w0 ∧
    ∀ s r, byte_steps (Nonblocking.respond err) (part c) (at_ s r w0) = Ret tt (at_ s r w);
}.

Record represents (a : Clients S) (s : Server S) : Prop := mk_represents {
  r_owned : owned s;
  r_storage : storage s = store a;
  r_fresh : fresh_loc s = next_loc a;
  r_dom : ∀ l, is_Some (heap s !! l) ↔ is_Some (clients a !! l);
  r_client : ∀ l c k, heap s !! l = Some c → clients a !! l = Some k → _socket c = fd k ∧ serves k (body c);
}.

End represents.

(** ** Requests and their parts *)

Lemma wire_not_nil r : wire r ≠ [].
Proof. destruct r; cbn [wire]; unfold wire_insert, print_insert, print_get; discriminate. Qed.

Lemma arrived_spec todo b : b `prefix_of` mjoin (wire <$> todo) →
  let '(now, later, p) := arrived todo b in
  todo = now ++ later ∧ b = mjoin (wire <$> now) ++ p ∧ part_ok later p.
Proof.
  revert b. induction todo as [|r todo IH]; intros b; cbn [arrived].
  - intros Hb%prefix_nil_inv. by subst.
  - rewrite fmap_cons, mjoin_cons. intros [k Hk]. case_decide as Hp.
    + destruct Hp as [b' ->]. rewrite drop_app_length.
      specialize (IH b'). rewrite <-app_assoc in Hk. apply app_inv_head in Hk.
      destruct (arrived todo b') as [[now later] p]. destruct IH as (-> & -> & Hq); [by exists k|].
      split_and!; [done| |done]. by rewrite fmap_cons, mjoin_cons, app_assoc.
    + split_and!; [done..|]. apply app_eq_inv in Hk as [(q & Hq & _)|(q & -> & _)].
      * exists q. split; [done|]. intros ->. apply Hp. rewrite app_nil_r in Hq. by rewrite Hq.
      * by destruct Hp; exists q.
Qed.

Lemma ends_ok_spec answers : ends_ok answers = true →
  ∃ x rest, (x = Again ∨ x = Eof) ∧ answers = ((λ b, Bytes b) <$> blocks_of answers) ++ x :: rest.
Proof.
  induction answers as [|[b| | |e] answers IH]; cbn; try done.
  - intros (x & rest & Hx & Ha)%IH. exists x, rest. split; [done|]. by f_equal.
  - intros _. eexists _, _. split; [by right|done].
  - intros _. eexists _, _. split; [by left|done].
Qed.

Lemma read_ok_spec answers c : read_ok answers c = true →
  (∃ x rest, (x = Again ∨ x = Eof) ∧ answers = ((λ b, Bytes b) <$> blocks_of answers) ++ x :: rest) ∧
  part c ++ mjoin (blocks_of answers) `prefix_of` mjoin (wire <$> todo c).
Proof.
  unfold read_ok. intros [He Hp]%andb_true_iff. apply bool_decide_eq_true in Hp. split; [by apply ends_ok_spec|done].
Qed.

Lemma write_ok_spec n c : write_ok n c = true → (0 < n ≤ bsize (waiting c))%Z ∧ (bsize (waiting c) < 2 ^ 64)%Z.
Proof. unfold write_ok. intros [[?%Z.ltb_lt ?%Z.leb_le]%andb_true_iff ?%Z.ltb_lt]%andb_true_iff. lia. Qed.

(** What a good event of a connection is good for. *)
Lemma conn_event_ok_spec {S} `{Storage S} e (a : Clients S) : conn_event_ok e a = true →
  ctl_ok e = true ∧ ∃ k, clients a !! ptr e = Some k ∧
  (goodbye (fl e) = false → is_in (fl e) = true → read_ok (reads e) k = true) ∧
  (goodbye (fl e) = false → is_out (fl e) = true →
     ∀ a' c, (if is_in (fl e) then receive (ptr e) (blocks_of (reads e)) else mret tt) a = Ret tt a' →
       clients a' !! ptr e = Some c → write_ok (send_result e) c = true).
Proof.
  unfold conn_event_ok. intros [Hctl Hk]%andb_true_iff. split; [done|].
  destruct (clients a !! ptr e) as [k|]; [|done]. exists k. split; [done|]. split; intros Hg Hi; rewrite Hg, Hi in Hk; cbn [negb orb] in Hk.
  - by apply andb_true_iff in Hk as [Hk _].
  - apply andb_true_iff in Hk as [_ Hk]. intros a' c Ea Hc. rewrite Ea, Hc in Hk. done.
Qed.

Section client_facts.
Context {S : Type} `{Storage S}.
Variable err : bool.
Implicit Types (w : World S Io) (c : Client).

(** Reading blocks: what they complete is executed, the rest is kept. *)
Lemma client_reads c w blocks x rest now later p s outs s' :
  serves err c w → x = Again ∨ x = Eof →
  part c ++ mjoin blocks `prefix_of` mjoin (wire <$> todo c) →
  arrived (todo c) (part c ++ mjoin blocks) = (now, later, p) →
  session (executed_as <$> now) s = Ret outs s' →
  ∃ w1, DoRead err (((λ b, Bytes b) <$> blocks) ++ x :: rest) (set_storage s w) = Ret tt w1 ∧ pStorage w1 = s' ∧
        serves err (mk_client (fd c) later p (waiting c ++ reply_stream outs) (taken c)) w1.
Proof.
  intros [Ha Hr Hs Hok Hp (w0 & Hf & Hw)] Hx Hb Harr Es.
  pose proof (arrived_spec _ _ Hb) as Hspec. rewrite Harr in Hspec. destruct Hspec as (Htodo & Hbytes & Hpart).
  rewrite Htodo in Hok. apply Forall_app in Hok as [Hnow Hlater].
  destruct (respond_all_run err outs (io w)) as (i' & Er & Hr' & Hs' & Ha' & _).
  destruct (wire_session (Nonblocking.respond err) now (at_ s (io w) w0) outs s' i' Hnow) as (w1 & E1 & Hf1 & Hst1 & Hi1); [done..|].
  (* the part that waits *)
  assert (∃ w2, (∀ s r, byte_steps (Nonblocking.respond err) p (at_ s r w1) = Ret tt (at_ s r w2))) as [w2 E2].
  { destruct later as [|r later]; cbn in Hpart; [subst p; by exists w1|]. destruct Hpart as (q & Hq & Hne).
    apply Forall_cons in Hlater as [Hr1 _].
    exact (request_quiet (Nonblocking.respond err) r p q w1 Hr1 Hf1 Hq Hne). }
  pose proof (E2 s' i') as E2'. replace (at_ s' i' w1) with w1 in E2' by (subst; by destruct w1).
  (* the machine that takes bytes *)
  assert (byte_steps (Nonblocking.respond err) (mjoin blocks) (at_ s (io w) w) = Ret tt (at_ s' i' w2)) as Eb.
  { pose proof (byte_steps_app (Nonblocking.respond err) (part c) (mjoin blocks) (at_ s (io w) w0)) as Happ.
    rewrite (bind_ret _ _ _ _ _ (Hw s (io w))) in Happ. rewrite <-Happ, Hbytes, byte_steps_app.
    by rewrite (bind_ret _ _ _ _ _ E1). }
  assert (between (at_ s (io w) w)) as Hbt.
  { eapply byte_steps_between; [|apply (Hw s (io w))]. by apply (fresh_between (at_ s (io w) w0)). }
  assert (process_all (Nonblocking.respond err) (λ r, Ret true r) blocks (at_ s (io w) w) = Ret tt (at_ s' i' w2)) as Ep.
  { apply erase_ret. rewrite process_all_bytes; [by rewrite Eb|done|done]. }
  exists (at_ s' i' w2). split; [|split; [done|]].
  - unfold DoRead, try_catch. rewrite read_loop_blocks. change (set_storage s w) with (at_ s (io w) w).
    rewrite (bind_ret _ _ _ _ _ Ep). by destruct Hx as [-> | ->].
  - split; cbn; [by rewrite Ha'|by rewrite Hr', Hr|by rewrite Hs'|done|done|]. by exists w1.
Qed.

(** Writing leaves what was read alone. *)
Lemma zoom_io_at {A} (m : prog Io A) w s r :
  match zoom io set_io m w with Ret _ w1 | Throw _ w1 => at_ s r w1 = at_ s r w | _ => True end.
Proof. unfold zoom. by destruct (m (io w)). Qed.

Lemma DoWrite_at n w u w1 s r : DoWrite err n w = Ret u w1 → at_ s r w1 = at_ s r w.
Proof.
  unfold DoWrite, try_catch. match goal with |- context [zoom io set_io ?m w] => pose proof (zoom_io_at m w s r) as Hm end.
  destruct (zoom io set_io _ w) as [a w2|e w2| |]; [by intros [= _ <-]| |done..].
  intros E. match type of E with zoom io set_io ?m w2 = _ => pose proof (zoom_io_at m w2 s r) as Hm2 end.
  rewrite E in Hm2. congruence.
Qed.

(** The client takes bytes. *)
Lemma client_takes c w n s :
  serves err c w → (0 < n ≤ bsize (waiting c))%Z → (bsize (waiting c) < 2 ^ 64)%Z →
  ∃ w1, DoWrite err n (set_storage s w) = Ret tt w1 ∧ pStorage w1 = s ∧
    serves err (mk_client (fd c) (todo c) (part c) (drop (Z.to_nat n) (waiting c))
                  (taken c ++ take (Z.to_nat n) (waiting c))) w1.
Proof.
  intros [Ha Hr Hs Hok Hp (w0 & Hf & Hw)] Hn Hb. cbn.
  destruct (DoWrite_some err n (set_storage s w)) as (w1 & E & _ & Hr1 & Hs1 & Ha1 & _ & Hst1);
    [cbn; by rewrite Hr|cbn; by rewrite Hr|].
  exists w1. split; [done|]. split; [done|]. cbn in *.
  assert (∀ s r, at_ s r w1 = at_ s r w) as Hat.
  { intros s1 r. by rewrite (DoWrite_at _ _ _ _ _ _ E). }
  split; cbn; [congruence|by rewrite Hr1, Hr|by rewrite Hs1, Hs, Hr|done|done|].
  exists w0. split; [done|]. intros s1 r. by rewrite Hat.
Qed.

Lemma serves_storage c w s : serves err c w → serves err c (set_storage s w).
Proof. intros [Ha Hr Hs Hok Hp (w0 & Hf & Hw)]. split; try done. by exists w0. Qed.

Lemma new_serves i l s :
  Forall request_ok l → serves err (mk_client i l [] [] []) (new_world s (mk_io [] (reading err) true [])).
Proof.
  intros Hl. split; try done.
  - destruct l as [|r l]; [done|]. exists (wire r). split; [reflexivity|]. apply wire_not_nil.
  - eexists (new_world s (mk_io [] (reading err) true [])). split; [apply new_fresh|done].
Qed.

End client_facts.

(** ** The server refines the abstract server *)

Section simulation.
Context {S : Type} `{Storage S}.
Variable err : bool.
Variable script : loc → list request.
Hypothesis script_ok : ∀ l, Forall request_ok (script l).
Implicit Types (s : Server S) (a : Clients S).

Abbreviation represents := (represents err).
Abbreviation serves := (serves err).

(** Equal up to the copies of the storage that the connections carry. *)
Definition alike s s' : Prop :=
  storage s' = storage s ∧ keeps s s' ∧
  ∀ l c c', heap s !! l = Some c → heap s' !! l = Some c' → ∃ st, body c' = set_storage st (body c).

Lemma alike_trans s1 s2 s3 : alike s1 s2 → alike s2 s3 → alike s1 s3.
Proof.
  intros (E1 & K1 & B1) (E2 & K2 & B2). split; [congruence|]. split.
  { destruct K1 as (? & ? & K1), K2 as (? & ? & K2). split_and!; [congruence..|]. intros l. by rewrite K2, K1. }
  intros l c c' Hc Hc'. destruct (keeps_conn _ _ _ _ K1 Hc) as (c2 & Hc2 & _).
  destruct (B1 l c c2 Hc Hc2) as [st1 Hb1], (B2 l c2 c' Hc2 Hc') as [st2 Hb2]. exists st2. by rewrite Hb2, Hb1.
Qed.

Lemma represents_alike a s s' : represents a s → alike s s' → represents a s'.
Proof.
  intros [Ho Hs Hf Hd Hc] (Es & K & B). split.
  - by apply (keeps_owned s).
  - congruence.
  - destruct K as (_ & -> & _). done.
  - intros l. rewrite <-Hd. symmetry. by apply keeps_heap.
  - intros l c k Hl Hk.
    assert (is_Some (heap s !! l)) as [c0 Hl0] by (rewrite Hd; eauto).
    destruct (keeps_conn _ _ _ _ K Hl0) as (c1 & Hl1 & Hso). rewrite Hl in Hl1. injection Hl1 as <-.
    destruct (Hc l c0 k Hl0 Hk) as [Hfd Hse], (B l c0 c Hl0 Hl) as [st ->]. split; [congruence|by apply serves_storage].
Qed.

Lemma query_alike {A} l (f : World S Io → A) s (x : A) s' : on_conn l (gets f) s = Ret x s' → alike s s'.
Proof.
  intros E. pose proof (on_conn_keeps _ _ _ _ _ E) as [K [c Hc]]. unfold on_conn in E. rewrite Hc in E. cbn in E.
  injection E as _ <-. split; [done|]. split; [done|]. intros l' c1 c2 H1 H2. cbn in H2.
  destruct (decide (l' = l)) as [->|Hne].
  - rewrite lookup_insert_eq in H2. simplify_eq. by eexists.
  - rewrite lookup_insert_ne in H2 by done. rewrite H1 in H2. injection H2 as <-. exists (pStorage (body c1)). by destruct (body c1).
Qed.

(** A member function of a connection that is represented. *)
Lemma conn_step l (m : prog (World S Io) unit) a s c k w' k' :
  represents a s → heap s !! l = Some c → clients a !! l = Some k →
  m (set_storage (storage s) (body c)) = Ret tt w' → serves k' w' → fd k' = fd k →
  ∃ s', on_conn l m s = Ret tt s' ∧
    represents (mk_clients (pStorage w') (<[l := k']> (clients a)) (next_loc a)) s'.
Proof.
  intros [Ho Hs Hf Hd Hc] Hl Hk Em Hse Hfd.
  assert (∃ s', on_conn l m s = Ret tt s' ∧ storage s' = pStorage w' ∧ heap s' = <[l := mk_conn (_socket c) w']> (heap s) ∧
    _connections s' = _connections s ∧ fresh_loc s' = fresh_loc s) as (s' & E & E1 & E2 & E3 & E4).
  { unfold on_conn. rewrite Hl, Em. eexists. split; [done|]. by repeat split. }
  exists s'. split; [done|]. destruct (on_conn_keeps _ _ _ _ _ E) as [K _]. split; cbn.
  - by apply (keeps_owned s).
  - done.
  - congruence.
  - intros l'. rewrite E2. destruct (decide (l' = l)) as [->|Hne].
    + rewrite !lookup_insert_eq. split; eauto.
    + rewrite !lookup_insert_ne by done. apply Hd.
  - intros l' c' k1. rewrite E2. destruct (decide (l' = l)) as [->|Hne].
    + rewrite !lookup_insert_eq. intros [= <-] [= <-]. cbn. split; [|done]. rewrite Hfd. by apply (Hc l).
    + rewrite !lookup_insert_ne by done. apply Hc.
Qed.

Lemma receive_sim l answers a s x rest a' :
  represents a s → x = Again ∨ x = Eof → answers = ((λ b, Bytes b) <$> blocks_of answers) ++ x :: rest →
  (∀ c, clients a !! l = Some c → part c ++ mjoin (blocks_of answers) `prefix_of` mjoin (wire <$> todo c)) →
  receive l (blocks_of answers) a = Ret tt a' →
  ∃ s', on_conn l (DoRead err answers) s = Ret tt s' ∧ represents a' s'.
Proof.
  intros Hr Hx Ha Hb E. unfold receive in E. bind_inv E. unfold client_at in E0.
  destruct (clients a !! l) as [k|] eqn:Hk; [|done]. injection E0 as <- <-.
  destruct (arrived (todo k) (part k ++ mjoin (blocks_of answers))) as [[now later] p] eqn:Harr.
  bind_inv E. apply zoom_ret in E0 as (s' & E0 & ->). injection E as <-.
  assert (is_Some (heap s !! l)) as [c Hc] by (rewrite (r_dom _ _ _ Hr); eauto).
  destruct (r_client _ _ _ Hr l c k Hc Hk) as [Hfd Hse]. rewrite <-(r_storage _ _ _ Hr) in E0.
  destruct (client_reads err k (body c) (blocks_of answers) x rest now later p (storage s) a0 s' Hse Hx (Hb k eq_refl) Harr E0)
    as (w1 & E1 & <- & Hse1). rewrite <-Ha in E1.
  by apply (conn_step l (DoRead err answers) a s c k w1 _ Hr Hc Hk E1 Hse1).
Qed.

Lemma deliver_sim l n a s a' :
  represents a s → deliver l n a = Ret tt a' →
  (∀ c, clients a !! l = Some c → (0 < n ≤ bsize (waiting c))%Z ∧ (bsize (waiting c) < 2 ^ 64)%Z) →
  ∃ s', on_conn l (DoWrite err n) s = Ret tt s' ∧ represents a' s'.
Proof.
  intros Hr E Hn. unfold deliver in E. bind_inv E. unfold client_at in E0.
  destruct (clients a !! l) as [k|] eqn:Hk; [|done]. injection E0 as <- <-. injection E as <-.
  assert (is_Some (heap s !! l)) as [c Hc] by (rewrite (r_dom _ _ _ Hr); eauto).
  destruct (r_client _ _ _ Hr l c k Hc Hk) as [Hfd Hse]. destruct (Hn k eq_refl) as [Hn1 Hn2].
  destruct (client_takes err k (body c) n (storage s) Hse Hn1 Hn2) as (w1 & E1 & Hst & Hse1).
  destruct (conn_step l (DoWrite err n) a s c k w1 _ Hr Hc Hk E1 Hse1 eq_refl) as (s' & Es & Hr').
  exists s'. split; [done|]. rewrite Hst, (r_storage _ _ _ Hr) in Hr'. done.
Qed.

Definition with_conn (l : loc) (c : Conn S) s : Server S :=
  mk_server (storage s) (_connections s) (<[l := c]> (heap s)) (fresh_loc s).

Lemma query_exact {A} l (f : World S Io → A) s c :
  heap s !! l = Some c →
  on_conn l (gets f) s = Ret (f (set_storage (storage s) (body c)))
    (with_conn l (mk_conn (_socket c) (set_storage (storage s) (body c))) s).
Proof. intros Hc. unfold on_conn. by rewrite Hc. Qed.

(** The handler after [dispatch], for a connection that is alive and for one that is not. *)
Lemma st_handle_alive e s m s0 s1 c1 :
  ctl_ok e = true → mask (ptr e) s = Ret m s0 → dispatch err e s0 = Ret tt s1 →
  heap s1 !! ptr e = Some c1 → _connection_alive (io (body c1)) = true →
  ∃ s', st_handle err e s = Ret tt s' ∧ alike s1 s'.
Proof.
  intros Hok Em Ed Hc1 Ha. unfold st_handle. rewrite (bind_ret _ _ _ _ _ Em), (bind_ret _ _ _ _ _ Ed).
  unfold isAlive, mask.
  destruct (query_run (ptr e) (_connection_alive ∘ io) s1 c1 Hc1) as (s2 & E2 & _ & Hc2 & _).
  rewrite (bind_ret _ _ _ _ _ E2). cbn [compose].
  change (_connection_alive (io (set_storage (storage s1) (body c1)))) with (_connection_alive (io (body c1))).
  rewrite Ha. cbn [negb].
  destruct (query_run (ptr e) (_event ∘ io) s2 _ Hc2) as (s3 & E3 & _ & Hc3 & _).
  rewrite (bind_ret _ _ _ _ _ E3). exists s3. split.
  - case_decide; [done|]. rewrite (bind_ret _ _ _ _ _ (socket_run _ _ _ Hc3)). by rewrite Hok.
  - apply (alike_trans s1 s2); by eapply query_alike.
Qed.

Lemma st_handle_dead e s m s0 s1 c1 :
  mask (ptr e) s = Ret m s0 → dispatch err e s0 = Ret tt s1 →
  heap s1 !! ptr e = Some c1 → _connection_alive (io (body c1)) = false →
  _connections s1 !! _socket c1 = Some (ptr e) →
  st_handle err e s = Ret tt (mk_server (storage s1) (delete (_socket c1) (_connections s1)) (delete (ptr e) (heap s1)) (fresh_loc s1)).
Proof.
  intros Em Ed Hc1 Ha Hfd. unfold st_handle. rewrite (bind_ret _ _ _ _ _ Em), (bind_ret _ _ _ _ _ Ed).
  unfold isAlive. rewrite (bind_ret _ _ _ _ _ (query_exact _ (_connection_alive ∘ io) _ _ Hc1)). cbn [compose].
  change (_connection_alive (io (set_storage (storage s1) (body c1)))) with (_connection_alive (io (body c1))).
  rewrite Ha. cbn [negb]. set (s2 := with_conn _ _ s1). set (c2 := mk_conn (_socket c1) _) in s2.
  assert (heap s2 !! ptr e = Some c2) as Hc2 by apply lookup_insert_eq.
  rewrite (bind_ret _ _ _ _ _ (socket_run _ _ _ Hc2)). cbn [_socket c2].
  unfold mbind at 1, prog_bind at 1, gets at 1. unfold mbind at 1, prog_bind at 1, modify at 1.
  change (_connections s2 !! _socket c1) with (_connections s1 !! _socket c1). rewrite Hfd.
  set (s3 := set_connections _ s2).
  assert (on_conn (ptr e) OnClose s3 = Ret tt (with_conn (ptr e) (mk_conn (_socket c1)
    (set_io (set_alive false (io (body c1))) (set_storage (storage s1) (body c1)))) s3)) as E3.
  { unfold on_conn. change (heap s3 !! ptr e) with (heap s2 !! ptr e). by rewrite Hc2. }
  rewrite (bind_ret _ _ _ _ _ E3), free_run by (cbn; rewrite lookup_insert_eq; eauto).
  unfold set_heap, s3, s2, with_conn. cbn [storage _connections heap fresh_loc set_connections]. by rewrite !delete_insert_eq.
Qed.

Lemma handle_sim e a s a' :
  conn_event_ok e a = true → represents a s → spec_event script (ConnectionEvent e) a = Ret tt a' →
  ∃ s', st_handle err e s = Ret tt s' ∧ represents a' s'.
Proof.
  intros (Hok & k & Hk & Hin & Hout)%conn_event_ok_spec Hr E. cbn [spec_event] in E.
  assert (is_Some (heap s !! ptr e)) as [c Hc] by (rewrite (r_dom _ _ _ Hr); eauto).
  destruct (query_run (ptr e) (_event ∘ io) s c Hc) as (s0 & E0 & _ & _ & _).
  pose proof (represents_alike _ _ _ Hr (query_alike _ _ _ _ _ E0)) as Hr0.
  assert (is_Some (heap s0 !! ptr e)) as [c0 Hc0] by (rewrite (r_dom _ _ _ Hr0); eauto).
  destruct (r_client _ _ _ Hr0 _ _ _ Hc0 Hk) as [Hfd0 Hse0].
  destruct (goodbye (fl e)) eqn:Hg.
  - (* the connection ends *)
    unfold leave in E. bind_inv E. unfold client_at in E1. rewrite Hk in E1. injection E1 as <- <-. injection E as <-.
    set (w1 := set_io (set_alive false (io (body c0))) (set_storage (storage s0) (body c0))).
    set (s1 := mk_server (pStorage w1) (_connections s0) (<[ptr e := mk_conn (_socket c0) w1]> (heap s0)) (fresh_loc s0)).
    assert (dispatch err e s0 = Ret tt s1) as Ed.
    { unfold dispatch. unfold goodbye in Hg.
      destruct (is_err (fl e) || is_hup (fl e)); [|destruct (is_rdhup (fl e)); [|done]];
        unfold OnError, on_conn; rewrite Hc0; reflexivity. }
    eexists. split.
    { apply (st_handle_dead e s _ s0 s1 (mk_conn (_socket c0) w1) E0 Ed); cbn; [apply lookup_insert_eq|done|].
      apply (owned_conn _ (r_owned _ _ _ Hr0) _ _ Hc0). }
    destruct Hr0 as [Ho Hs Hf Hd Hcl]. cbn. rewrite delete_insert_eq. split; cbn; try done.
    + apply (owned_remove s0 (ptr e) c0 Ho Hc0).
    + intros l. rewrite !lookup_delete_is_Some. by rewrite Hd.
    + intros l c' k' [_ Hl]%lookup_delete_Some [_ Hl']%lookup_delete_Some. by apply (Hcl l).
  - unfold mbind, prog_bind in E.
    destruct ((if is_in (fl e) then receive (ptr e) (blocks_of (reads e)) else mret tt) a) as [[] a1| | |] eqn:E1; try done.
    assert (∃ s1, (if is_in (fl e) then on_conn (ptr e) (DoRead err (reads e)) else mret tt) s0 = Ret tt s1 ∧
      represents a1 s1) as (s1 & Ed1 & Hr1).
    { destruct (is_in (fl e)) eqn:Ei; [|injection E1 as <-; by exists s0].
      destruct (read_ok_spec _ _ (Hin eq_refl eq_refl)) as [(x & rest & Hx & Ha) Hb].
      apply (receive_sim (ptr e) (reads e) a s0 x rest); try done. intros c1 Hc1. by rewrite Hk in Hc1; injection Hc1 as <-. }
    assert (∃ s2, (if is_out (fl e) then on_conn (ptr e) (DoWrite err (send_result e)) else mret tt) s1 = Ret tt s2 ∧
      represents a' s2) as (s2 & Ed2 & Hr2).
    { destruct (is_out (fl e)) eqn:Eo; [|injection E as <-; by exists s1].
      apply (deliver_sim (ptr e) (send_result e) a1 s1); [done..|]. intros c1 Hc1. by apply write_ok_spec, (Hout eq_refl eq_refl a1). }
    assert (dispatch err e s0 = Ret tt s2) as Ed.
    { unfold dispatch, goodbye in *. apply orb_false_iff in Hg as [-> ->]. by rewrite (bind_ret _ _ _ _ _ Ed1). }
    assert (is_Some (heap s2 !! ptr e)) as [c2 Hc2].
    { apply (keeps_heap s0 s2); [|done]. by apply (dispatch_keeps err e s0 tt s2). }
    assert (is_Some (clients a' !! ptr e)) as [k2 Hk2] by (rewrite <-(r_dom _ _ _ Hr2); eauto).
    destruct (r_client _ _ _ Hr2 _ _ _ Hc2 Hk2) as [_ Hse2].
    destruct (st_handle_alive e s _ s0 s2 c2 Hok E0 Ed Hc2 (s_alive _ _ _ Hse2)) as (s' & E' & Hal).
    exists s'. split; [done|]. by apply (represents_alike a' s2).
Qed.

(** Accepting. *)
Lemma arrive_sim accepted a s a' :
  represents a s → NoDup accepted.*1 → Forall (λ x, x.2 = true) accepted →
  (∀ l c, clients a !! l = Some c → fd c ∉ accepted.*1) → arrive script accepted a = Ret tt a' →
  ∃ s', OnNewConnection err accepted s = Ret tt s' ∧ represents a' s'.
Proof.
  revert a s. induction accepted as [|[infd ok] accepted IH]; intros a s Hr Hnd Hall Hfd E.
  { injection E as <-. by exists s. }
  rewrite fmap_cons in Hnd, Hfd. cbn [fst] in Hnd, Hfd. apply NoDup_cons in Hnd as [Hin Hnd].
  apply Forall_cons in Hall as [Hok Hall]. cbn in Hok. subst ok.
  cbn [arrive] in E. unfold mbind at 1, prog_bind at 1, modify at 1 in E.
  pose proof Hr as [Ho Hs Hf Hd Hc].
  assert (heap s !! fresh_loc s = None) as Hnone.
  { apply eq_None_not_Some. intros Hi%(owned_fresh _ Ho). lia. }
  assert (_connections s !! infd = None) as Hfree.
  { destruct (_connections s !! infd) as [l|] eqn:El; [|done]. destruct (owned_entry _ Ho _ _ El) as (c & Hl & <-).
    assert (is_Some (clients a !! l)) as [k Hk] by (rewrite <-Hd; eauto). destruct (Hc l c k Hl Hk) as [Hfdk _].
    specialize (Hfd l k Hk). rewrite <-Hfdk in Hfd. set_solver. }
  set (w := new_world (storage s) (mk_io [] (reading err) true [])).
  set (s2 := mk_server (storage s) (<[infd := fresh_loc s]> (_connections s)) (<[fresh_loc s := mk_conn infd w]> (heap s)) (Pos.succ (fresh_loc s))).
  assert (∀ k, OnNewConnection err ((infd, true) :: k) s = OnNewConnection err k s2) as En.
  { intros k. cbn [OnNewConnection].
    assert (new_connection err infd s = Ret (fresh_loc s) (mk_server (storage s) (_connections s)
      (<[fresh_loc s := mk_conn infd w]> (heap s)) (Pos.succ (fresh_loc s)))) as E1.
    { unfold new_connection, on_conn. cbn [heap]. rewrite lookup_insert_eq.
      unfold Start, mbind, prog_bind, zoom. cbn. by rewrite insert_insert_eq. }
    rewrite (bind_ret _ _ _ _ _ E1).
    assert (∀ s1 c, heap s1 !! fresh_loc s = Some c → socket_of (fresh_loc s) s1 = Ret (_socket c) s1) as Hso by (intros; by apply socket_run).
    rewrite (bind_ret _ _ _ _ _ (Hso _ (mk_conn infd w) (lookup_insert_eq _ _ _))). cbn [_socket].
    unfold mbind at 1, prog_bind at 1. unfold insert_connection, mbind at 1, prog_bind at 1, gets. cbn [_connections].
    rewrite Hfree. done. }
  rewrite En. apply (IH _ s2) in E; [done| |done|done|].
  - split; cbn.
    + by apply (owned_insert s s2 infd (mk_conn infd w)).
    + done.
    + by rewrite Hf.
    + intros l. rewrite Hf. destruct (decide (l = next_loc a)) as [->|Hne].
      * rewrite !lookup_insert_eq. split; eauto.
      * by rewrite !lookup_insert_ne.
    + intros l c k. rewrite Hf. destruct (decide (l = next_loc a)) as [->|Hne].
      * rewrite !lookup_insert_eq. intros [= <-] [= <-]. split; [done|]. by apply new_serves.
      * rewrite !lookup_insert_ne by done. apply Hc.
  - cbn. intros l c. destruct (decide (l = next_loc a)) as [->|Hne].
    + rewrite lookup_insert_eq. by intros [= <-].
    + rewrite lookup_insert_ne by done. intros Hl. specialize (Hfd l c Hl). set_solver.
Qed.

Lemma event_sim e a s a' :
  event_ok e a = true → represents a s → spec_event script e a = Ret tt a' →
  ∃ b s', st_event err e s = Ret b s' ∧ represents a' s'.
Proof.
  destruct e as [|accepted|e]; intros Hok Hr E.
  - injection E as <-. by exists false, s.
  - cbn in Hok. apply andb_true_iff in Hok as [[Hnd%bool_decide_eq_true Hall]%andb_true_iff Hfd%bool_decide_eq_true].
    assert (Forall (λ x, x.2 = true) accepted) as Hall' by (apply List.Forall_forall; by apply List.forallb_forall). destruct (arrive_sim accepted a s a' Hr Hnd Hall' Hfd E) as (s' & E' & Hr').
    exists true, s'. split; [|done]. cbn [st_event]. by rewrite (bind_ret _ _ _ _ _ E').
  - destruct (handle_sim e a s a' Hok Hr E) as (s' & E' & Hr').
    exists true, s'. split; [|done]. cbn [st_event]. by rewrite (bind_ret _ _ _ _ _ E').
Qed.

Lemma events_sim es a s a' :
  events_ok script es a = true → represents a s → spec_events script es a = Ret tt a' →
  ∃ s', st_events err es s = Ret tt s' ∧ represents a' s'.
Proof.
  revert a s. induction es as [|e es IH]; intros a s Hok Hr E; [injection E as <-; by exists s|].
  cbn [events_ok] in Hok. apply andb_true_iff in Hok as [Hok Hoks]. cbn [spec_events] in E. bind_inv E. destruct a0. rewrite E0 in Hoks.
  destruct (event_sim e a s s0 Hok Hr E0) as (b & s1 & E1 & Hr1).
  destruct (IH s0 s1 Hoks Hr1 E) as (s' & E' & Hr'). exists s'. split; [|done].
  cbn [st_events]. by rewrite (bind_ret _ _ _ _ _ E1).
Qed.

End simulation.

(** ** What has been executed *)

(** The entries of one client. *)
Definition of_client {A} (l : loc) (log : list (loc * A)) : list A := (filter (λ x, x.1 = l) log).*2.

(** The bytes that the events deliver to a connection. *)
Definition received_by (l : loc) (e : event) : bytes :=
  match e with
  | ConnectionEvent e =>
    if decide (ptr e = l) then if negb (goodbye (fl e)) && is_in (fl e) then mjoin (blocks_of (reads e)) else [] else []
  | _ => []
  end.
Definition received (l : loc) (es : list event) : bytes := es ≫= received_by l.

Lemma of_client_app {A} l (x y : list (loc * A)) : of_client l (x ++ y) = of_client l x ++ of_client l y.
Proof. unfold of_client. by rewrite filter_app, fmap_app. Qed.

Lemma of_client_own {A} l (x : list A) : of_client l ((l,.) <$> x) = x.
Proof.
  unfold of_client. induction x as [|y x IH]; [done|]. rewrite fmap_cons, filter_cons_True by done. by rewrite fmap_cons, IH.
Qed.

Lemma of_client_other {A} l l' (x : list A) : l' ≠ l → of_client l' ((l,.) <$> x) = [].
Proof. intros Hl. unfold of_client. induction x as [|y x IH]; [done|]. rewrite fmap_cons, filter_cons_False; [done|naive_solver]. Qed.

Lemma pair_snd {A} (l : loc) (x : list A) : ((l,.) <$> x).*2 = x.
Proof. induction x as [|y x IH]; [done|]. by rewrite !fmap_cons, IH. Qed.

Lemma received_app l x y : received l (x ++ y) = received l x ++ received l y.
Proof. unfold received. by rewrite bind_app. Qed.

Lemma session_app {S} `{Storage S} cs cs' (s : S) :
  session (cs ++ cs') s = (outs ← session cs; outs' ← session cs'; mret (outs ++ outs')) s.
Proof.
  revert s. induction cs as [|[c x] cs IH]; intros s; cbn [app session].
  - unfold mbind, prog_bind, mret, prog_ret. by destruct (session cs' s).
  - unfold mbind, prog_bind, mret, prog_ret in *. destruct (Execute c x s) as [out s1| | |]; try done. rewrite IH.
    destruct (session cs s1) as [outs s2| | |]; try done. by destruct (session cs' s2).
Qed.

Lemma session_length {S} `{Storage S} cs (s s' : S) outs : session cs s = Ret outs s' → length outs = length cs.
Proof.
  revert s outs. induction cs as [|[c x] cs IH]; intros s outs; cbn [session]; [by intros [= <- _]|].
  intros E. bind_inv E. bind_inv E. injection E as <- <-. cbn. f_equal. by eapply IH.
Qed.

Section history.
Context {S : Type} `{Storage S}.
Variable script : loc → list request.
Variable st0 : S.
Abbreviation entry := (loc * (request * bytes))%type.
Implicit Types (log : list entry) (a : Clients S).

(** The session that the log is, from the first storage on; and what the log has of each client. *)
Record history (es : list event) log a : Prop := {
  h_session : session (executed_as <$> log.*2.*1) st0 = Ret (log.*2.*2) (store a);
  h_client : ∀ l k, clients a !! l = Some k → (l < next_loc a)%positive ∧
    script l = (of_client l log).*1 ++ todo k ∧
    received l es = mjoin (wire <$> (of_client l log).*1) ++ part k ∧ part_ok (todo k) (part k) ∧
    taken k ++ waiting k = reply_stream (of_client l log).*2;
  h_gone : ∀ l, clients a !! l = None → (of_client l log).*1 `prefix_of` script l;
  h_new : ∀ l, (next_loc a ≤ l)%positive → of_client l log = [] ∧ received l es = [];
}.

(** Every order in which the clients' requests may be executed is defined. *)
Definition sessions_defined : Prop := ∀ sched : list (loc * request),
  (∀ l, of_client l sched `prefix_of` script l) → returns (session (executed_as <$> sched.*2) st0) = true.

Lemma reply_stream_app x y : reply_stream (x ++ y) = reply_stream x ++ reply_stream y.
Proof. unfold reply_stream. by rewrite fmap_app, join_app. Qed.

Lemma of_client_fst l log : of_client l ((λ x : entry, (x.1, x.2.1)) <$> log) = (of_client l log).*1.
Proof.
  unfold of_client. induction log as [|[l' [r o]] log IH]; [done|]. rewrite fmap_cons, !filter_cons. cbn [fst snd].
  case_decide; [|done]. rewrite !fmap_cons. cbn [fst snd]. by rewrite IH.
Qed.

Lemma log_requests log : ((λ x : entry, (x.1, x.2.1)) <$> log).*2 = log.*2.*1.
Proof. rewrite <-!list_fmap_compose. by apply list_fmap_ext. Qed.

(** The log's requests of one client are the beginning of its script. *)
Lemma history_prefix es log a l : history es log a → (of_client l log).*1 `prefix_of` script l.
Proof.
  intros [_ Hc Hg _]. destruct (clients a !! l) as [k|] eqn:Hk; [|by apply Hg].
  destruct (Hc l k Hk) as (_ & -> & _). by apply prefix_app_r.
Qed.

(** Nothing arrives. *)
Lemma history_quiet es log a e :
  history es log a → (∀ l, received_by l e = []) → history (es ++ [e]) log a.
Proof.
  intros [Hs Hc Hg Hn] He. assert (∀ l, received l (es ++ [e]) = received l es) as Hr.
  { intros l. rewrite received_app. unfold received at 2. cbn. by rewrite He, !app_nil_r. }
  split; [done| |done|]; [intros l k Hk|intros l Hl]; rewrite Hr; auto.
Qed.

(** Bytes arrive for one client: what they complete is executed and gets into the log. *)
Lemma receive_history es log a l blocks e k :
  sessions_defined → history es log a → clients a !! l = Some k →
  part k ++ mjoin blocks `prefix_of` mjoin (wire <$> todo k) →
  (∀ l', received_by l' e = if decide (l' = l) then mjoin blocks else []) →
  ∃ a' log', receive l blocks a = Ret tt a' ∧ history (es ++ [e]) log' a'.
Proof.
  intros Hdef Hh Hk Hb He. pose proof Hh as [Hs Hc Hg Hn]. destruct (Hc l k Hk) as (Hlt & Hscr & Hrec & Hpart & Hout).
  pose proof (arrived_spec _ _ Hb) as Harr. unfold receive, client_at. unfold mbind at 1, prog_bind at 1. rewrite Hk.
  destruct (arrived (todo k) (part k ++ mjoin blocks)) as [[now later] p]. destruct Harr as (Htodo & Hbytes & Hp).
  (* the session is defined *)
  assert (∃ outs s', session (executed_as <$> now) (store a) = Ret outs s') as (outs & s' & Es).
  { specialize (Hdef (((λ x : entry, (x.1, x.2.1)) <$> log) ++ ((l,.) <$> now))).
    destruct (returns_spec (session (executed_as <$> (((λ x : entry, (x.1, x.2.1)) <$> log) ++ ((l,.) <$> now)).*2) st0))
      as (outs & s' & E).
    { apply Hdef. intros l'. rewrite of_client_app, of_client_fst. destruct (decide (l' = l)) as [->|Hne].
      - rewrite of_client_own, Hscr, Htodo, app_assoc. by apply prefix_app_r.
      - rewrite of_client_other, app_nil_r by done. by apply (history_prefix es log a). }
    rewrite fmap_app, log_requests, fmap_app, session_app, (bind_ret _ _ _ _ _ Hs) in E.
    bind_inv E. rewrite pair_snd in E0. eauto. }
  rewrite (bind_ret _ _ _ outs (mk_clients s' (clients a) (next_loc a))) by (unfold zoom; by rewrite Es).
  assert (length outs = length now) as Hlen by (rewrite (session_length _ _ _ _ Es); apply length_fmap).
  set (new := (l,.) <$> zip now outs : list entry).
  assert (new.*2.*1 = now ∧ new.*2.*2 = outs) as [Hn1 Hn2].
  { unfold new. by rewrite pair_snd, fst_zip, snd_zip by lia. }
  assert (∀ l', received l' (es ++ [e]) = received l' es ++ (if decide (l' = l) then mjoin blocks else [])) as Hr.
  { intros l'. rewrite received_app. unfold received at 2. cbn. by rewrite He, app_nil_r. }
  assert ((of_client l (log ++ new)) = of_client l log ++ zip now outs) as Hnew by (unfold new; by rewrite of_client_app, of_client_own).
  assert (∀ l', l' ≠ l → of_client l' (log ++ new) = of_client l' log) as Hold.
  { intros l' Hl'. unfold new. by rewrite of_client_app, of_client_other, app_nil_r. }
  eexists _, (log ++ new). split; [done|]. split; cbn.
  - rewrite !fmap_app, Hn1, Hn2, session_app, (bind_ret _ _ _ _ _ Hs), (bind_ret _ _ _ _ _ Es). done.
  - intros l' k'. destruct (decide (l' = l)) as [->|Hne].
    + rewrite lookup_insert_eq. intros [= <-]. cbn. split; [done|]. rewrite Hnew, Hr, decide_True, !fmap_app by done.
      rewrite fst_zip, snd_zip by lia. split_and!.
      * by rewrite Hscr, Htodo, app_assoc.
      * by rewrite Hrec, join_app, <-!app_assoc, Hbytes.
      * done.
      * by rewrite reply_stream_app, <-Hout, app_assoc.
    + rewrite lookup_insert_ne by done. rewrite Hold, Hr, decide_False, app_nil_r by done. apply Hc.
  - intros l'. destruct (decide (l' = l)) as [->|Hne]; [by rewrite lookup_insert_eq|].
    rewrite lookup_insert_ne by done. rewrite Hold by done. apply Hg.
  - intros l' Hl'. destruct (decide (l' = l)) as [->|Hne]; [lia|]. rewrite Hold, Hr, decide_False, app_nil_r by done. by apply Hn.
Qed.

(** The other changes of a client. *)
Lemma deliver_history es log a l n k :
  history es log a → clients a !! l = Some k → ∃ a', deliver l n a = Ret tt a' ∧ history es log a'.
Proof.
  intros [Hs Hc Hg Hn] Hk. unfold deliver, client_at, mbind, prog_bind. rewrite Hk. eexists. split; [done|].
  split; cbn; try done.
  - intros l' k'. destruct (decide (l' = l)) as [->|Hne]; [|rewrite lookup_insert_ne by done; apply Hc].
    rewrite lookup_insert_eq. intros [= <-]. destruct (Hc l k Hk) as (? & ? & ? & ? & Hout). cbn.
    split_and!; try done. rewrite <-app_assoc, take_drop. done.
  - intros l'. destruct (decide (l' = l)) as [->|Hne]; [by rewrite lookup_insert_eq|]. rewrite lookup_insert_ne by done. apply Hg.
Qed.

Lemma leave_history es log a l :
  history es log a → is_Some (clients a !! l) → ∃ a', leave l a = Ret tt a' ∧ history es log a'.
Proof.
  intros Hh [k Hk]. pose proof Hh as [Hs Hc Hg Hn]. unfold leave, client_at, mbind, prog_bind. rewrite Hk. eexists. split; [done|].
  split; cbn; try done.
  - intros l' k' [_ Hl]%lookup_delete_Some. by apply Hc.
  - intros l' _. by apply (history_prefix es log a).
Qed.

Lemma arrive_history es log a accepted :
  history es log a → ∃ a', arrive script accepted a = Ret tt a' ∧ history es log a'.
Proof.
  revert a. induction accepted as [|[infd ok] accepted IH]; intros a Hh; [by exists a|].
  cbn [arrive]. unfold mbind at 1, prog_bind at 1, modify. apply IH.
  destruct Hh as [Hs Hc Hg Hn]. destruct (Hn (next_loc a)) as [Hn1 Hn2]; [lia|]. split; cbn; try done.
  - intros l k. destruct (decide (l = next_loc a)) as [->|Hne].
    + rewrite lookup_insert_eq. intros [= <-]. cbn. rewrite Hn1, Hn2. split; [lia|]. split_and!; try done.
      destruct (script (next_loc a)) as [|r rs]; [done|]. exists (wire r). split; [reflexivity|]. apply wire_not_nil.
    + rewrite lookup_insert_ne by done. intros Hl. destruct (Hc l k Hl) as (? & ?). split; [lia|done].
  - intros l. destruct (decide (l = next_loc a)) as [->|Hne]; [by rewrite lookup_insert_eq|].
    rewrite lookup_insert_ne by done. apply Hg.
  - intros l Hl. apply Hn. lia.
Qed.

Lemma spec_event_history es log a e :
  sessions_defined → history es log a → event_ok e a = true →
  ∃ a' log', spec_event script e a = Ret tt a' ∧ history (es ++ [e]) log' a'.
Proof.
  intros Hdef Hh Hok. destruct e as [|accepted|e].
  - exists a, log. split; [done|]. by apply history_quiet.
  - destruct (arrive_history es log a accepted Hh) as (a' & E & Hh'). exists a', log. split; [done|]. by apply history_quiet.
  - apply conn_event_ok_spec in Hok as (_ & k & Hk & Hin & _). cbn [spec_event]. destruct (goodbye (fl e)) eqn:Hg.
    { destruct (leave_history es log a (ptr e) Hh) as (a' & E & Hh'); [eauto|]. exists a', log. split; [done|].
      apply history_quiet; [done|]. intros l. cbn. rewrite Hg. by case_decide. }
    assert (∃ a1 log', (if is_in (fl e) then receive (ptr e) (blocks_of (reads e)) else mret tt) a = Ret tt a1 ∧
      history (es ++ [ConnectionEvent e]) log' a1) as (a1 & log' & E1 & Hh1).
    { destruct (is_in (fl e)) eqn:Ei.
      - destruct (read_ok_spec _ _ (Hin eq_refl eq_refl)) as [_ Hb].
        apply (receive_history es log a (ptr e) (blocks_of (reads e)) (ConnectionEvent e) k Hdef Hh Hk Hb).
        intros l. cbn. rewrite Hg, Ei. cbn. destruct (decide (ptr e = l)), (decide (l = ptr e)); congruence.
      - exists a, log. split; [done|]. apply history_quiet; [done|]. intros l. cbn. rewrite Hg, Ei. by case_decide. }
    rewrite (bind_ret _ _ _ _ _ E1). destruct (is_out (fl e)); [|by exists a1, log'].
    assert (is_Some (clients a1 !! ptr e)) as [k1 Hk1].
    { destruct (is_in (fl e)); [|injection E1 as <-; eauto]. unfold receive in E1. bind_inv E1.
      destruct (arrived _ _) as [[now later] p]. bind_inv E1. injection E1 as <-. cbn. rewrite lookup_insert_eq. eauto. }
    destruct (deliver_history _ log' a1 (ptr e) (send_result e) k1 Hh1 Hk1) as (a' & E & Hh'). by exists a', log'.
Qed.

Lemma spec_events_history es es0 log a :
  sessions_defined → history es0 log a → events_ok script es a = true →
  ∃ a' log', spec_events script es a = Ret tt a' ∧ history (es0 ++ es) log' a'.
Proof.
  intros Hdef. revert es0 log a. induction es as [|e es IH]; intros es0 log a Hh Hok.
  { exists a, log. by rewrite app_nil_r. }
  cbn [events_ok] in Hok. apply andb_true_iff in Hok as [Hok Hoks].
  destruct (spec_event_history es0 log a e Hdef Hh Hok) as (a1 & log1 & E1 & Hh1). rewrite E1 in Hoks.
  destruct (IH _ _ _ Hh1 Hoks) as (a' & log' & E & Hh'). exists a', log'. cbn [spec_events].
  rewrite (bind_ret _ _ _ _ _ E1). split; [done|]. by rewrite <-app_assoc in Hh'.
Qed.

Lemma new_history : history [] [] (mk_clients st0 ∅ 1).
Proof. split; cbn; try done; intros l _. apply prefix_nil. Qed.

End history.

(** ** Properties *)

(** A new server without clients. *)
Definition no_clients {S} (st : S) : Clients S := mk_clients st ∅ 1.

Lemma new_represents {S} `{Storage S} err (st : S) : represents err (no_clients st) (new_server st).
Proof.
  split; try done.
  - split; cbn; try done. intros l [c Hc]. done.
  - intros l. cbn. by rewrite !lookup_empty.
Qed.

(** What a run of a new server leaves. *)
Lemma clients_run {S} `{Storage S} err script es (st : S) :
  (∀ l, Forall request_ok (script l)) → sessions_defined script st → events_ok script es (no_clients st) = true →
  ∃ (s' : Server S) (log : list (loc * (request * bytes))),
    st_events err es (new_server st) = Ret tt s' ∧ owned s' ∧
    session (executed_as <$> log.*2.*1) st = Ret log.*2.*2 (storage s') ∧
    (∀ l, (of_client l log).*1 `prefix_of` script l) ∧
    ∀ l c, heap s' !! l = Some c →
      stream (body c) = reply_stream (of_client l log).*2 ∧
      ∃ later p, script l = (of_client l log).*1 ++ later ∧
        received l es = mjoin (wire <$> (of_client l log).*1) ++ p ∧ part_ok later p.
Proof.
  intros Hscr Hdef Hok.
  destruct (spec_events_history script st es [] [] (no_clients st) Hdef (new_history script st) Hok) as (a' & log & E & Hh).
  destruct (events_sim err script Hscr es (no_clients st) (new_server st) a' Hok (new_represents err st) E) as (s' & E' & Hr).
  exists s', log. pose proof Hr as [Ho Hs Hf Hd Hc]. pose proof Hh as [Hse Hcl _ _]. split_and!; try done.
  - by rewrite Hs.
  - intros l. by apply (history_prefix script st _ log a' l Hh).
  - intros l c Hl. assert (is_Some (clients a' !! l)) as [k Hk] by (rewrite <-Hd; eauto).
    destruct (Hc l c k Hl Hk) as [_ [_ Hres Hsent _ _ _]], (Hcl l k Hk) as (_ & H1 & H2 & H3 & H4).
    split; [|by exists (todo k), (part k)]. unfold stream. by rewrite Hres, Hsent.
Qed.

(** C2: The event loop refines the abstract server: for clients that send well-formed
    requests, as long as epoll_ctl succeeds, accepted sockets are new, the reads of an event
    end with EAGAIN or the end of the file, send takes at least a byte of what it is
    offered ([events_ok]) and the commands themselves are defined (the abstract server
    returns), whatever the order of the events and the pieces in which bytes come and go,
    the handlers are defined, and every connection is, in storage, replies and request
    being read, what the abstract server says. *)
Theorem event_loop_refines {S} `{Storage S} err script es (a a' : Clients S) (s : Server S) :
  (∀ l, Forall request_ok (script l)) → represents err a s → events_ok script es a = true →
  spec_events script es a = Ret tt a' →
  ∃ s', st_events err es s = Ret tt s' ∧ represents err a' s'.
Proof. intros Hs Hr Hok E. by apply (events_sim err script Hs es a s a'). Qed.


(** *** Witnesses *)

(** The first client stores a value, the second asks for it and for the statistics. *)
Definition two_scripts (l : loc) : list request :=
  match l with
  | 1%positive => [RSet (mk_insert (lit "k") 0 0) (lit "v")]
  | 2%positive => [RGet (lit "k") []; RStats]
  | _ => []
  end.

Definition readable (l : loc) (blocks : list bytes) : event :=
  ConnectionEvent (mk_event l (mk_flags true false false false false) (((λ b, Bytes b) <$> blocks) ++ [Again]) 0 true).
Definition writable (l : loc) (n : Z) : event :=
  ConnectionEvent (mk_event l (mk_flags false true false false false) [] n true).

(** The request of the first client comes in two pieces, those of the second in between. *)
Definition two_clients : list event :=
  [ServerSocket [(5%Z, true); (6%Z, true)];
   readable 1 [lit "set k 0 0 1"];
   readable 2 [lit "get k" ++ CRLF ++ lit "st"];
   readable 1 [CRLF; lit "v" ++ CRLF];
   writable 2 4;
   readable 2 [lit "ats" ++ CRLF];
   writable 1 8].

(** A map without a bound executes everything. *)
Lemma map_execute (c : Command) (x : bytes) (m : gmap bytes bytes) : returns (Execute c x m) = true.
Proof.
  destruct c as [i|i|i|i|keys|]; cbn [Execute]; try done.
  - unfold Add_Execute, mbind, prog_bind. cbn. by destruct (m !! _key i).
  - unfold Append_Execute, mbind, prog_bind. cbn. by destruct (m !! _key i).
  - unfold Replace_Execute, mbind, prog_bind. cbn. destruct (m !! _key i) eqn:E; [|done]. cbn. by rewrite E.
  - unfold Get_Execute. assert (∀ out, ∃ out', Get_items keys out m = Ret out' m) as Hg.
    { induction keys as [|k keys IH]; intros out; [by exists out|]. cbn [Get_items]. unfold mbind, prog_bind. cbn.
      destruct (m !! k); apply IH. }
    destruct (Hg []) as [out E]. by rewrite (bind_ret _ _ _ _ _ E).
Qed.

Lemma map_session (cs : list (Command * bytes)) (m : gmap bytes bytes) : returns (session cs m) = true.
Proof.
  revert m. induction cs as [|[c x] cs IH]; intros m; [done|]. cbn [session].
  destruct (returns_spec _ (map_execute c x m)) as (out & m1 & E). rewrite (bind_ret _ _ _ _ _ E).
  destruct (returns_spec _ (IH m1)) as (outs & m2 & E2). by rewrite (bind_ret _ _ _ _ _ E2).
Qed.

Lemma two_scripts_ok l : Forall request_ok (two_scripts l).
Proof.
  unfold two_scripts. repeat case_match; repeat constructor; try done; by vm_compute.
Qed.

Lemma two_clients_ok : events_ok two_scripts two_clients (no_clients empty_map) = true.
Proof. vm_compute. reflexivity. Qed.


Lemma event_loop_refines_witness :
  ∃ a' (s' : Server (gmap bytes bytes)), spec_events two_scripts two_clients (no_clients empty_map) = Ret tt a' ∧
    waiting <$> clients a' !! 2%positive = Some ([LF] ++ lit "END" ++ CRLF) ∧
    st_events false two_clients (new_server empty_map) = Ret tt s' ∧ represents false a' s'.
Proof.
  assert (match spec_events two_scripts two_clients (no_clients empty_map) with
          | Ret _ a' => waiting <$> clients a' !! 2%positive | _ => None end = Some ([LF] ++ lit "END" ++ CRLF)) as Hw
    by (vm_compute; reflexivity).
  destruct (spec_events two_scripts two_clients (no_clients empty_map)) as [[] a'| | |] eqn:E; [|discriminate Hw..].
  destruct (event_loop_refines false two_scripts two_clients (no_clients empty_map) a' (new_server empty_map)) as (s' & E' & Hr').
  - apply two_scripts_ok.
  - apply new_represents.
  - apply two_clients_ok.
  - exact E.
  - exists a', s'. split_and!; [reflexivity|exact Hw|exact E'|exact Hr'].
Defined.
