(* ===== verification/LruClients.v ===== *)
(** * Several clients of the cache

    The composition of the library for the single-threaded non-blocking server: clients, event
    loop, connections, parser, commands and the pointer structure of the cache. *)

From S2P Require Import Prelude SimpleLRU Storage LruStorage Commands LruCommands.
From S2P Require Import Parser Connection Wire Network Servers Clients.

(** The scripts of the first connections. *)
Definition script_of (scripts : list (list request)) (l : loc) : list request :=
  default [] (scripts !! Nat.pred (Pos.to_nat l)).

(** The bytes of requests. *)
Definition requests_bytes (rs : list request) : Z := session_bytes (executed_as <$> rs).

Section sizes.
Implicit Types (rs : list request) (sched : list (loc * request)).

Lemma requests_bytes_app rs rs' : requests_bytes (rs ++ rs') = (requests_bytes rs + requests_bytes rs')%Z.
Proof.
  unfold requests_bytes, session_bytes. rewrite fmap_app. induction (executed_as <$> rs) as [|[c x] cs IH]; cbn; [done|].
  rewrite IH. lia.
Qed.

Lemma requests_bytes_nonneg rs : (0 ≤ requests_bytes rs)%Z.
Proof.
  unfold requests_bytes, session_bytes. induction (executed_as <$> rs) as [|[c x] cs IH]; cbn; [done|].
  pose proof (command_bytes_nonneg c x). lia.
Qed.

Lemma requests_bytes_prefix rs rs' : rs `prefix_of` rs' → (requests_bytes rs ≤ requests_bytes rs')%Z.
Proof. intros [k ->]. rewrite requests_bytes_app. pose proof (requests_bytes_nonneg k). lia. Qed.

(** The requests of one client, and the others. *)
Lemma requests_bytes_split l sched :
  requests_bytes sched.*2 =
  (requests_bytes (of_client l sched) + requests_bytes (filter (λ x, x.1 ≠ l) sched).*2)%Z.
Proof.
  unfold of_client. induction sched as [|[l' r] sched IH]; [done|]. rewrite !filter_cons. cbn [fst].
  assert (∀ x y, requests_bytes (x :: y) = (requests_bytes [x] + requests_bytes y)%Z) as Hc by (intros x y; apply (requests_bytes_app [x])).
  destruct (decide (l' = l)) as [->|Hne].
  - rewrite decide_False by naive_solver. rewrite !fmap_cons. cbn [snd]. rewrite Hc, (Hc r (filter _ _).*2), IH. lia.
  - rewrite decide_True by done. rewrite !fmap_cons. cbn [snd]. rewrite Hc, (Hc r (filter _ _).*2), IH. lia.
Qed.

Lemma of_client_without l l' sched : l' ≠ l → of_client l' (filter (λ x, x.1 ≠ l) sched) = of_client l' sched.
Proof.
  intros Hne. unfold of_client. induction sched as [|[l1 r] sched IH]; [done|]. rewrite !filter_cons. cbn [fst].
  destruct (decide (l1 = l)) as [->|Hl].
  - rewrite decide_False by naive_solver. rewrite decide_False by done. done.
  - rewrite decide_True by done. rewrite filter_cons. cbn [fst]. case_decide; [|done]. by rewrite !fmap_cons, IH.
Qed.

(** However the clients' requests are interleaved, they fit together. *)
Lemma schedule_fits scripts sched :
  (∀ l, of_client l sched `prefix_of` script_of scripts l) → (requests_bytes sched.*2 ≤ requests_bytes (mjoin scripts))%Z.
Proof.
  revert sched. induction scripts as [|rs scripts IH] using rev_ind; intros sched Hs.
  - destruct sched as [|[l r] sched]; [done|]. specialize (Hs l). unfold of_client, script_of in Hs.
    rewrite filter_cons_True in Hs by done. rewrite lookup_nil in Hs. by apply prefix_nil_inv in Hs.
  - rewrite join_app. cbn [mjoin list_join]. rewrite app_nil_r, requests_bytes_app.
    set (l := Pos.of_succ_nat (length scripts)). rewrite (requests_bytes_split l sched).
    assert (∀ l', Nat.pred (Pos.to_nat l') = length scripts → l' = l) as Hl by (unfold l; lia).
    assert (script_of (scripts ++ [rs]) l = rs) as El.
    { unfold script_of, l. rewrite SuccNat2Pos.id_succ. cbn [Nat.pred]. by rewrite list_lookup_middle. }
    pose proof (Hs l) as H1. rewrite El in H1. apply requests_bytes_prefix in H1.
    enough (requests_bytes (filter (λ x, x.1 ≠ l) sched).*2 ≤ requests_bytes (mjoin scripts))%Z by lia.
    apply IH. intros l'. destruct (decide (l' = l)) as [->|Hne].
    + assert (of_client l (filter (λ x, x.1 ≠ l) sched) = []) as ->; [|apply prefix_nil].
      unfold of_client. rewrite list_filter_filter. clear. induction sched as [|x sched IHs]; [done|].
      rewrite filter_cons_False; [done|naive_solver].
    + rewrite of_client_without by done. specialize (Hs l'). unfold script_of in *.
      rewrite lookup_app in Hs. destruct (scripts !! Nat.pred (Pos.to_nat l')) as [rs'|] eqn:E; [done|].
      apply lookup_ge_None in E. destruct (Nat.pred (Pos.to_nat l') - length scripts) as [|k] eqn:Ek.
      * destruct Hne. apply Hl. lia.
      * done.
Qed.

End sizes.

(** C1: Clients whose requests fit together in the cache, whatever their number, the order of
    the events, their batches and the pieces in which bytes come and go, are served by the
    single-threaded server as by one unbounded map that executes whole requests one after
    the other: the event loop, the connections and the pointer structure of the cache are
    defined throughout, and each connected client gets, in order, the map's replies to
    exactly those of its requests whose bytes have arrived.  The loop runs until the batch
    with the stop signal has been handled. *)
Theorem cache_clients_served err max (scripts : list (list request)) batches :
  Forall (Forall request_ok) scripts →
  (requests_bytes (mjoin scripts) ≤ max < 2 ^ 64)%Z →
  let es := until_stop batches in
  events_ok (script_of scripts) es (no_clients (SimpleLRU_new max)) = true →
  ∃ (s' : Server SimpleLRU) (log : list (loc * (request * bytes))) m,
    OnRun err true true true batches (new_server (SimpleLRU_new max)) =
      Ret (negb (existsb (existsb is_stop) batches)) s' ∧ owned s' ∧
    session (executed_as <$> log.*2.*1) (∅ : gmap bytes bytes) = Ret log.*2.*2 m ∧
    (∀ l, (of_client l log).*1 `prefix_of` script_of scripts l) ∧
    ∀ l c, heap s' !! l = Some c →
      stream (body c) = reply_stream (of_client l log).*2 ∧
      ∃ later p, script_of scripts l = (of_client l log).*1 ++ later ∧
        received l es = mjoin (wire <$> (of_client l log).*1) ++ p ∧ part_ok later p.
Proof.
  intros Hok [Hfit Hmax] es Hes.
  assert (∀ l, Forall request_ok (script_of scripts l)) as Hscr.
  { intros l. unfold script_of. destruct (scripts !! _) as [rs|] eqn:E; [|constructor]. by apply (Forall_lookup_1 _ _ _ _ Hok E). }
  assert (∀ sched, (∀ l, of_client l sched `prefix_of` script_of scripts l) →
    ∃ outs s m, session (executed_as <$> sched.*2) (SimpleLRU_new max) = Ret outs s ∧
      session (executed_as <$> sched.*2) (∅ : gmap bytes bytes) = Ret outs m) as Hfits.
  { intros sched Hs. pose proof (schedule_fits scripts sched Hs) as Hb.
    destruct (session_fits max (executed_as <$> sched.*2)) as (outs & s & m & E & E'); [unfold requests_bytes in *; lia|].
    by exists outs, s, m. }
  destruct (clients_run err (script_of scripts) es (SimpleLRU_new max)) as (s' & log & E & Ho & Hse & Hp & Hc); [done| |done|].
  { intros sched Hs. destruct (Hfits sched Hs) as (outs & s & m & -> & _). done. }
  destruct (Hfits ((λ x, (x.1, x.2.1)) <$> log)) as (outs & s & m & E1 & E2).
  { intros l. by rewrite of_client_fst. }
  rewrite log_requests in E1, E2. rewrite Hse in E1. injection E1 as <- _.
  exists s', log, m. split_and!; [by apply (OnRun_events _ _ _ tt)|done..].
Qed.

Lemma cache_clients_served_witness :
  let scripts := [two_scripts 1; two_scripts 2] in
  ∃ (s' : Server SimpleLRU) (log : list (loc * (request * bytes))) m,
    OnRun false true true true [two_clients; [EventFd]; two_clients] (new_server (SimpleLRU_new 100)) = Ret false s' ∧ owned s' ∧
    session (executed_as <$> log.*2.*1) (∅ : gmap bytes bytes) = Ret log.*2.*2 m ∧
    (∀ l, (of_client l log).*1 `prefix_of` script_of scripts l) ∧
    ∀ l c, heap s' !! l = Some c →
      stream (body c) = reply_stream (of_client l log).*2 ∧
      ∃ later p, script_of scripts l = (of_client l log).*1 ++ later ∧
        received l (two_clients ++ [EventFd]) = mjoin (wire <$> (of_client l log).*1) ++ p ∧ part_ok later p.
Proof.
  apply (cache_clients_served false 100 [two_scripts 1; two_scripts 2] [two_clients; [EventFd]; two_clients]).
  - apply Forall_cons; split; [apply two_scripts_ok|]. apply Forall_cons; split; [apply two_scripts_ok|constructor].
  - by vm_compute.
  - vm_compute. reflexivity.
Defined.
