(* ===== verification/Concur.v ===== *)
(** * Interleaved threads

    A small interleaving semantics the models of the lock-based programs share: a
    list of threads over one shared state, a function that gives the atomic steps
    a thread can make, and the counting lemmas their invariants need. *)

From S2P Require Import Prelude.

(** A configuration: the shared variables, and where every thread is. *)
Record config (S L : Type) : Type := mk_config { shared : S; threads : list L }.
Arguments mk_config {S L} _ _.
Arguments shared {S L} _.
Arguments threads {S L} _.

(** How many elements of a list satisfy a test. *)
Fixpoint count {A} (P : A → bool) (l : list A) : nat :=
  match l with [] => 0 | x :: l => (if P x then 1 else 0) + count P l end.

(** What [notify_one] leaves of a set of sleeping threads: one of them is woken, if
    there is any. *)
Definition notify_one (g : gset nat) : list (gset nat) :=
  match elements g with [] => [g] | js => (λ j, g ∖ {[j]}) <$> js end.

(** A bound mutex: free, or the owner. *)
Definition mutex_free (m : option nat) : bool := match m with None => true | _ => false end.

Section interleaving.
Context {S L : Type}.
(** The atomic steps of thread [i] at a location of its program: where it is next,
    and the shared variables; none while it blocks or when it has ended. *)
Variable tstep : nat → L → S → list (L * S).
Implicit Types (c : config S L).

Inductive step : config S L → config S L → Prop :=
| step_thread s s' ls i l l' :
    ls !! i = Some l → (l', s') ∈ tstep i l s →
    step (mk_config s ls) (mk_config s' (<[i:=l']> ls)).

Definition reachable (c c' : config S L) : Prop := star step c c'.

(** Thread [i] takes the [k]-th of its steps. *)
Definition sched_step (x : nat * nat) (c : config S L) : option (config S L) :=
  l ← threads c !! x.1; r ← tstep x.1 l (shared c) !! x.2;
  Some (mk_config r.2 (<[x.1:=r.1]> (threads c))).

(** Run a schedule. *)
Fixpoint run_schedule (xs : list (nat * nat)) (c : config S L) : option (config S L) :=
  match xs with [] => Some c | x :: xs => sched_step x c ≫= run_schedule xs end.

Lemma sched_step_step x c c' : sched_step x c = Some c' → step c c'.
Proof.
  unfold sched_step. destruct c as [s ls]. simpl. intros H.
  destruct (ls !! x.1) as [l|] eqn:El; [|done]. simpl in H.
  destruct (tstep x.1 l s !! x.2) as [[l' s']|] eqn:Er; [|done]. simpl in H.
  simplify_eq. econstructor; [done|]. by eapply list_elem_of_lookup_2.
Qed.

(** A run of a schedule is a way to reach its end. *)
Lemma run_schedule_reachable xs c c' : run_schedule xs c = Some c' → reachable c c'.
Proof.
  revert c. induction xs as [|x xs IH]; intros c; simpl.
  - intros [= ->]. constructor.
  - destruct (sched_step x c) as [c1|] eqn:E; [|done]. simpl. intros H.
    econstructor; [by eapply sched_step_step|by apply IH].
Qed.

(** Invariants by rule induction, one thread's step at a time. *)
Lemma reachable_invariant (I : config S L → Prop) c c' :
  (∀ s s' ls i l l', I (mk_config s ls) → ls !! i = Some l → (l', s') ∈ tstep i l s →
    I (mk_config s' (<[i:=l']> ls))) →
  I c → reachable c c' → I c'.
Proof.
  intros Hs. apply star_invariant. intros x y Hx Hxy. inversion Hxy; subst. eauto.
Qed.

(** The number of threads does not change. *)
Lemma reachable_length c c' : reachable c c' → length (threads c') = length (threads c).
Proof.
  intros H. cut (length (threads c') = length (threads c)); [done|]. revert H.
  apply (reachable_invariant (λ c', length (threads c') = length (threads c))); [|done].
  intros s s' ls i l l' Hl _ _. cbn. by rewrite length_insert.
Qed.

End interleaving.

(** ** Counting *)

Section counting.
Context {A : Type} (P : A → bool).
Implicit Types (l : list A).

Lemma count_insert l i x y :
  l !! i = Some x →
  count P (<[i:=y]> l) + (if P x then 1 else 0) = count P l + (if P y then 1 else 0).
Proof.
  revert i. induction l as [|z l IH]; intros [|i] H; simplify_eq/=; [lia|].
  specialize (IH _ H). lia.
Qed.

Lemma count_le l : count P l ≤ length l.
Proof. induction l as [|x l IH]; simpl; [lia|]. destruct (P x); lia. Qed.

Lemma count_pos l i x : l !! i = Some x → P x = true → 0 < count P l.
Proof.
  revert i. induction l as [|z l IH]; intros [|i] H HP; simplify_eq/=.
  - rewrite HP. lia.
  - specialize (IH _ H HP). lia.
Qed.

Lemma count_exists l : 0 < count P l → ∃ i x, l !! i = Some x ∧ P x = true.
Proof.
  induction l as [|z l IH]; simpl; [lia|]. destruct (P z) eqn:E.
  - intros _. by exists 0, z.
  - intros H. destruct IH as (i & x & Hi & HP); [lia|]. by exists (Datatypes.S i), x.
Qed.

(** Two different threads that satisfy a test. *)
Lemma count_two l i j x y :
  i ≠ j → l !! i = Some x → l !! j = Some y → P x = true → P y = true → 2 ≤ count P l.
Proof.
  revert i j. induction l as [|z l IH]; intros [|i] [|j] Hij Hi Hj Hx Hy; simplify_eq/=.
  - rewrite Hx. pose proof (count_pos _ _ _ Hj Hy). lia.
  - rewrite Hy. pose proof (count_pos _ _ _ Hi Hx). lia.
  - assert (i ≠ j) as Hne by congruence. specialize (IH _ _ Hne Hi Hj Hx Hy). lia.
Qed.

Lemma count_app l k : count P (l ++ k) = count P l + count P k.
Proof. induction l as [|z l IH]; simpl; [done|]. rewrite IH. lia. Qed.

Lemma count_none l : (∀ x, x ∈ l → P x = false) → count P l = 0.
Proof.
  induction l as [|z l IH]; intros H; simpl; [done|].
  rewrite (H z) by constructor. apply IH. intros x Hx. apply H. by constructor.
Qed.

End counting.

Lemma count_replicate {A} (P : A → bool) n x :
  count P (replicate n x) = if P x then n else 0.
Proof. induction n as [|n IH]; simpl; [by destruct (P x)|]. rewrite IH. by destruct (P x). Qed.

(** The sum of a measure over a list. *)
Fixpoint total {A} (w : A → Z) (l : list A) : Z :=
  match l with [] => 0 | x :: l => w x + total w l end%Z.

Lemma total_insert {A} (w : A → Z) l i x y :
  l !! i = Some x → (total w (<[i:=y]> l) = total w l - w x + w y)%Z.
Proof.
  revert i. induction l as [|z l IH]; intros [|i] H; simplify_eq/=; [lia|]. rewrite IH by done. lia.
Qed.

Lemma total_all {A} (w : A → Z) l v :
  (∀ i x, l !! i = Some x → w x = v) → (total w l = Z.of_nat (length l) * v)%Z.
Proof.
  induction l as [|x l IH]; intros H; [done|]. cbn [total length].
  rewrite (H 0 x eq_refl), IH by (intros i y Hy; apply (H (Datatypes.S i) y Hy)). lia.
Qed.

(** The outcomes of [notify_one]: the set is empty, or lost one element. *)
Lemma notify_one_spec g g' :
  g' ∈ notify_one g → (g = ∅ ∧ g' = ∅) ∨ ∃ j, j ∈ g ∧ g' = g ∖ {[j]}.
Proof.
  unfold notify_one. destruct (elements g) as [|j js] eqn:E.
  - intros ->%list_elem_of_singleton. left. apply elements_empty_inv in E. set_solver.
  - rewrite <-E. intros (k & -> & Hk)%list_elem_of_fmap. right. exists k. set_solver.
Qed.

Lemma notify_one_nonempty g : notify_one g ≠ [].
Proof. unfold notify_one. destruct (elements g) as [|j js] eqn:E; [done|]. by cbn. Qed.

(** Split the lookup of an updated thread. *)
Ltac thread_cases H :=
  match type of H with
  | <[?i:=_]> _ !! ?j = Some _ =>
      destruct (decide (i = j)) as [<-|?];
      [rewrite list_lookup_insert_eq in H by (by eapply lookup_lt_Some);
       simplify_eq
      |rewrite list_lookup_insert_ne in H by done]
  end.

(** ** Owners of mutexes *)

(** The owner of a mutex is the thread that is at a place inside of its critical sections. *)
Definition owned_by {L} (inside : L → bool) (m : option nat) (ls : list L) : Prop :=
  ∀ j, m = Some j ↔ ∃ l0, ls !! j = Some l0 ∧ inside l0 = true.

(** The owner after a step: the thread locks the mutex, releases it, or neither. *)
Lemma owner_step {L} (inside : L → bool) m ls i l l' m' :
  owned_by inside m ls → ls !! i = Some l →
  m' = (if eqb (inside l') (inside l) then m else if inside l' then Some i else None) →
  (inside l' = true → inside l = false → m = None) →
  owned_by inside m' (<[i:=l']> ls).
Proof.
  intros Hok Hl -> Hfree j.
  assert (∀ j l0, ls !! j = Some l0 → inside l0 = true → m = Some j) as Hm
    by (intros; apply Hok; eauto).
  destruct (inside l') eqn:Ei', (inside l) eqn:Ei; cbn [eqb].
  - rewrite (Hm _ _ Hl Ei). split.
    + intros [= <-]. exists l'. by rewrite list_lookup_insert_eq by (by eapply lookup_lt_Some).
    + intros (l0 & H & Hi). thread_cases H; [done|]. rewrite <-(Hm _ _ Hl Ei). eauto.
  - split.
    + intros [= <-]. exists l'. by rewrite list_lookup_insert_eq by (by eapply lookup_lt_Some).
    + intros (l0 & H & Hi). thread_cases H; [done|]. pose proof (Hm _ _ H Hi) as Hj.
      by rewrite Hfree in Hj.
  - split; [done|]. intros (l0 & H & Hi). thread_cases H; [congruence|].
    pose proof (Hm _ _ H Hi) as Hj. rewrite (Hm _ _ Hl Ei) in Hj. congruence.
  - split.
    + intros (l0 & H & Hi)%Hok. exists l0.
      rewrite list_lookup_insert_ne; [done|]. intros ->. congruence.
    + intros (l0 & H & Hi). thread_cases H; [congruence|]. eauto.
Qed.

Lemma owned_replicate {L} (inside : L → bool) n l :
  inside l = false → owned_by inside None (replicate n l).
Proof. intros Hl j. split; [done|]. intros (l0 & [-> _]%lookup_replicate & ?). congruence. Qed.

(** The outcomes of a step, one by one. *)
Ltac outcomes H :=
  repeat match type of H with
  | _ ∈ [] => by apply not_elem_of_nil in H
  | _ ∈ [_] => apply list_elem_of_singleton in H; simplify_eq
  | _ ∈ _ :: _ => apply elem_of_cons in H as [H|H]; [simplify_eq|]
  | _ ∈ (if ?b then _ else _) => destruct b eqn:?
  end.

(** ** Threads that answer to labels *)

(** A step of a labelled system may be impossible, undefined, or done. *)
Inductive attempt (S : Type) : Type := Blocked | Undefined (u : ub) | Next (s : S).
Arguments Blocked {S}.
Arguments Undefined {S} _.
Arguments Next {S} _.

Section labels.
Context {S L : Type}.
Variable try : L → S → attempt S.

Fixpoint run_labels (es : list L) (s : S) : attempt S :=
  match es with
  | [] => Next s
  | e :: es => match try e s with Next s => run_labels es s | r => r end
  end.

(** Invariants of the steps, under a condition on the labels, hold along every run. *)
Lemma run_labels_on (P : L → Prop) (I : S → Prop) es s s' :
  (∀ e s s', P e → I s → try e s = Next s' → I s') → Forall P es → I s → run_labels es s = Next s' → I s'.
Proof.
  intros Hstep He. revert s. induction He as [|e es HP _ IH]; intros s Hs E; cbn [run_labels] in E; [by injection E as <-|].
  destruct (try e s) as [| |s1] eqn:Es; [done..|]. eapply IH; [|done]. by eapply Hstep.
Qed.

Lemma run_labels_invariant (I : S → Prop) es s s' :
  (∀ e s s', I s → try e s = Next s' → I s') → I s → run_labels es s = Next s' → I s'.
Proof. intros Hstep. apply (run_labels_on (λ _, True)); [naive_solver|by apply Forall_true]. Qed.

(** And backwards: what no step brings about held at the start. *)
Lemma run_labels_backwards (I : S → Prop) es s s' :
  (∀ e s s', try e s = Next s' → I s' → I s) → run_labels es s = Next s' → I s' → I s.
Proof.
  intros Hstep. revert s. induction es as [|e es IH]; intros s E; cbn [run_labels] in E; [by injection E as <-|].
  destruct (try e s) as [| |s1] eqn:Es; [done..|]. intros Hs. eapply Hstep; [done|]. by apply IH.
Qed.

End labels.
