(* ===== verification/Handover.v ===== *)
(** * Data handed over with a condition variable

    Model of src/sysprog/afina/materials/07-synchronization-primitives/code/cv.cpp: main
    prepares [data], a worker processes it, main prints it.  Every access to the shared
    variables is a step; a wait may also end without a notification. *)

From S2P Require Import Prelude Concur.

(** ** The threads *)

(** [main]: after the thread is created. *)
Inductive main_at : Type :=
| Prepares            (* data = "Example data" *)
| Locks_first | Sets_ready | Unlocks_first | Notifies
| Locks_again | Tests | Sleeps | Relocks
| Unlocks_last | Prints | Joins | Returned.

(** [worker_thread] *)
Inductive worker_at : Type :=
| W_locks | W_tests | W_sleeps | W_relocks | W_appends | W_sets | W_unlocks | W_notifies | W_returned.

Inductive thread : Type := Main | Worker.

Record state : Type := mk_state {
  main_pc : main_at;
  worker_pc : worker_at;
  m : option thread;         (* who has the mutex *)
  ready : bool;
  processed : bool;
  data : bytes;
  cout : option bytes;
}.

Definition start : state := mk_state Prepares W_locks None false false [] None.

(** A step of a thread, or a wait that ends without a notification. *)
Inductive event : Type := Step (t : thread) | Spurious (t : thread).

Definition main_step (s : state) : attempt state :=
  let goes p l r d o := Next (mk_state p (worker_pc s) l r (processed s) d o) in
  match main_pc s with
  | Prepares => goes Locks_first (m s) (ready s) (lit "Example data") (cout s)
  | Locks_first => match m s with None => goes Sets_ready (Some Main) (ready s) (data s) (cout s) | _ => Blocked end
  | Sets_ready => goes Unlocks_first (m s) true (data s) (cout s)
  | Unlocks_first => goes Notifies None (ready s) (data s) (cout s)
  | Notifies =>
      Next (mk_state Locks_again (match worker_pc s with W_sleeps => W_relocks | w => w end)
              (m s) (ready s) (processed s) (data s) (cout s))
  | Locks_again => match m s with None => goes Tests (Some Main) (ready s) (data s) (cout s) | _ => Blocked end
  | Tests => if processed s then goes Unlocks_last (m s) (ready s) (data s) (cout s)
             else goes Sleeps None (ready s) (data s) (cout s)
  | Sleeps => Blocked
  | Relocks => match m s with None => goes Tests (Some Main) (ready s) (data s) (cout s) | _ => Blocked end
  | Unlocks_last => goes Prints None (ready s) (data s) (cout s)
  | Prints => goes Joins (m s) (ready s) (data s) (Some (data s))
  | Joins => match worker_pc s with W_returned => goes Returned (m s) (ready s) (data s) (cout s) | _ => Blocked end
  | Returned => Blocked
  end.

Definition worker_step (s : state) : attempt state :=
  let goes w l p d := Next (mk_state (main_pc s) w l (ready s) p d (cout s)) in
  match worker_pc s with
  | W_locks => match m s with None => goes W_tests (Some Worker) (processed s) (data s) | _ => Blocked end
  | W_tests => if ready s then goes W_appends (m s) (processed s) (data s) else goes W_sleeps None (processed s) (data s)
  | W_sleeps => Blocked
  | W_relocks => match m s with None => goes W_tests (Some Worker) (processed s) (data s) | _ => Blocked end
  | W_appends => goes W_sets (m s) (processed s) (data s ++ lit " after processing")
  | W_sets => goes W_unlocks (m s) true (data s)
  | W_unlocks => goes W_notifies None (processed s) (data s)
  | W_notifies =>
      Next (mk_state (match main_pc s with Sleeps => Relocks | p => p end) W_returned
              (m s) (ready s) (processed s) (data s) (cout s))
  | W_returned => Blocked
  end.

Definition step (e : event) (s : state) : attempt state :=
  match e with
  | Step Main => main_step s
  | Step Worker => worker_step s
  | Spurious Main =>
      match main_pc s with
      | Sleeps => Next (mk_state Relocks (worker_pc s) (m s) (ready s) (processed s) (data s) (cout s))
      | _ => Blocked
      end
  | Spurious Worker =>
      match worker_pc s with
      | W_sleeps => Next (mk_state (main_pc s) W_relocks (m s) (ready s) (processed s) (data s) (cout s))
      | _ => Blocked
      end
  end.

Definition run : list event → state → attempt state := run_labels step.

(** ** The states that are reached *)

Definition main_holds (p : main_at) : bool :=
  match p with Sets_ready | Unlocks_first | Tests | Unlocks_last => true | _ => false end.
Definition worker_holds (w : worker_at) : bool :=
  match w with W_tests | W_appends | W_sets | W_unlocks => true | _ => false end.
Definition was_ready (p : main_at) : bool :=
  match p with Prepares | Locks_first | Sets_ready => false | _ => true end.
Definition was_processed (w : worker_at) : bool :=
  match w with W_unlocks | W_notifies | W_returned => true | _ => false end.
Definition appended (w : worker_at) : bool :=
  match w with W_sets => true | _ => was_processed w end.

Definition RESULT : bytes := lit "Example data after processing".

(** The variables are what the places of the threads say. *)
Definition view (p : main_at) (w : worker_at) : state :=
  mk_state p w (if main_holds p then Some Main else if worker_holds w then Some Worker else None)
    (was_ready p) (was_processed w)
    (match p with Prepares => [] | _ => if appended w then RESULT else lit "Example data" end)
    (match p with Joins | Returned => Some RESULT | _ => None end).

(** The mutex excludes; the worker is behind its test when main has set [ready], and main
    behind its own when the worker has set [processed]; who sleeps will be notified. *)
Definition possible (p : main_at) (w : worker_at) : bool :=
  negb (main_holds p && worker_holds w) &&
  match w with
  | W_locks | W_relocks | W_tests => true
  | W_sleeps => match p with Prepares | Locks_first | Sets_ready | Unlocks_first | Notifies => true | _ => false end
  | W_appends | W_sets => was_ready p
  | W_unlocks | W_notifies | W_returned => was_ready p
  end &&
  match p with
  | Sleeps => match w with W_returned => false | _ => true end
  | Unlocks_last | Prints | Joins => was_processed w
  | Returned => match w with W_returned => true | _ => false end
  | _ => true
  end.

Definition reached (s : state) : Prop := possible (main_pc s) (worker_pc s) = true ∧ s = view (main_pc s) (worker_pc s).

Lemma step_reached e s s' : reached s → step e s = Next s' → reached s'.
Proof.
  destruct s as [p w m r q d c]. intros [Hp Hs]. cbn [main_pc worker_pc] in *. rewrite Hs. clear Hs m r q d c.
  destruct p, w; try discriminate Hp; destruct e as [[]|[]]; cbn; intros E;
    first [discriminate E | injection E as <-; split; reflexivity].
Qed.

Lemma run_reached es s : run es start = Next s → reached s.
Proof.
  refine (run_labels_invariant step reached es start s _ _); [apply step_reached|by split].
Qed.

(** How many steps are left, when no wait ends by itself. *)
Definition main_left (p : main_at) : nat :=
  match p with
  | Prepares => 16 | Locks_first => 15 | Sets_ready => 14 | Unlocks_first => 13 | Notifies => 12 | Locks_again => 7
  | Tests => 5 | Sleeps => 4 | Relocks => 6 | Unlocks_last => 3 | Prints => 2 | Joins => 1 | Returned => 0
  end.
Definition worker_left (w : worker_at) : nat :=
  match w with
  | W_locks => 11 | W_tests => 9 | W_sleeps => 8 | W_relocks => 10
  | W_appends => 7 | W_sets => 6 | W_unlocks => 5 | W_notifies => 4 | W_returned => 0
  end.
Definition left (s : state) : nat := main_left (main_pc s) + worker_left (worker_pc s).

Definition spurious (e : event) : nat := match e with Spurious _ => 3 | Step _ => 0 end.

Lemma step_left e s s' : step e s = Next s' → left s' + 1 ≤ left s + spurious e.
Proof.
  destruct s as [p w m r q d c], e as [[]|[]], p, w; cbn; intros E; repeat case_match;
    first [discriminate E | injection E as <-; cbn; lia].
Qed.

Lemma handover_left es s s' : run es s = Next s' → left s' + length es ≤ left s + sum_list (spurious <$> es).
Proof.
  revert s. unfold run. induction es as [|e es IH]; intros s; cbn [run_labels]; [intros [= <-]; cbn; lia|].
  destruct (step e s) as [| |s1] eqn:E; try done. intros Hr%IH. apply step_left in E. cbn. lia.
Qed.

(** In every interleaving of main and the worker, with any number of waits that end by
    themselves: the threads never hold the mutex together and never use [data] at the same
    time; main prints the data with what the worker appended, and nothing else; until both
    have returned, a thread can go on, and every run has at most 27 steps and three for each
    wait that ended by itself. *)
Theorem handover_delivers es s : run es start = Next s →
  ¬ (main_holds (main_pc s) = true ∧ worker_holds (worker_pc s) = true) ∧
  ¬ ((main_pc s = Prepares ∨ main_pc s = Prints) ∧ worker_pc s = W_appends) ∧
  (cout s = None ∨ cout s = Some RESULT) ∧ (main_pc s = Returned → cout s = Some RESULT) ∧
  (main_pc s = Returned ∧ worker_pc s = W_returned ∨ ∃ t s', step (Step t) s = Next s') ∧
  length es ≤ 27 + sum_list (spurious <$> es).
Proof.
  intros E. pose proof (handover_left _ _ _ E) as Hl. apply run_reached in E as [Hp Hs].
  assert (length es ≤ 27 + sum_list (spurious <$> es)) as Hlen by (change (left start) with 27 in Hl; lia).
  clear Hl. destruct s as [p w m r q d c]. cbn [main_pc worker_pc] in *. injection Hs as -> -> -> -> ->.
  split_and!; [| | | | |done]; clear Hlen; destruct p, w; try discriminate Hp;
    first [by intros [? ?] | by intros [[?|?] ?] | by left | by right
          | right; exists Main; eexists; reflexivity | right; exists Worker; eexists; reflexivity | done].
Qed.

(** Both wait twice, once each for nothing. *)
Lemma handover_delivers_witness : ∃ es s, run es start = Next s ∧ main_pc s = Returned ∧
  cout s = Some RESULT ∧ length es ≤ 27 + sum_list (spurious <$> es).
Proof.
  set (es := [Step Worker; Step Worker; Spurious Worker; Step Worker; Step Worker] ++ replicate 7 (Step Main) ++
    [Spurious Main; Step Main; Step Main] ++ replicate 6 (Step Worker) ++ replicate 5 (Step Main)).
  set (s := match run es start with Next s => s | _ => start end).
  exists es, s. destruct (handover_delivers es s) as (_ & _ & _ & Hr & _ & Hl); [vm_compute; reflexivity|].
  split; [vm_compute; reflexivity|]. split; [vm_compute; reflexivity|]. split; [by apply Hr|exact Hl].
Defined.
