(* ===== verification/PosixSem.v ===== *)
(** * A named semaphore

    Model of src/sysprog/lecture_examples/7_ipc/12_sem_posix.c: ten threads of which five at
    a time have the semaphore, until a character is read. *)

From S2P Require Import Prelude Concur.

Definition WORKER_COUNT : nat := 10.
Definition PERMITS : nat := 5.

(** [worker_f]: before [sem_wait], between it and [sem_post], in the second [sleep]; or a
    thread that could not be created. *)
Inductive worker : Type := Waits | Has | Sleeps | Absent.

(** [main]: before [sem_open], in the loop that creates the threads, in [getchar], before
    [sem_unlink], returned. *)
Inductive main_at : Type := Opens | Creates | Reads | Unlinks | Returned (rc : Z).

(** [named]: "/my_sem" exists; [value] of the semaphore that was opened, while it is open. *)
Record state : Type := mk_state { named : bool; value : option nat; workers : list worker; main : main_at }.

Definition start (named : bool) : state := mk_state named None [] Opens.

(** A step of [main] or of a thread, whose call fails if [ok] is false: sem_open for another
    reason than the name, pthread_create, whose result nobody looks at, or sem_wait, that a
    signal interrupts. *)
Inductive event : Type := Main (ok : bool) | Worker (i : nat) (ok : bool).

Definition main_step (ok : bool) (s : state) : attempt state :=
  match main s with
  | Opens =>
      if negb ok then Next (mk_state (named s) (value s) (workers s) (Returned (-1)))
      else if named s then Next (mk_state false (value s) (workers s) Opens)     (* EEXIST: retry *)
      else Next (mk_state true (Some PERMITS) (workers s) Creates)
  | Creates =>
      if length (workers s) <? WORKER_COUNT
      then Next (mk_state (named s) (value s) (workers s ++ [if ok then Waits else Absent]) Creates)
      else Next (mk_state (named s) (value s) (workers s) Reads)
  | Reads => Next (mk_state (named s) None (workers s) Unlinks)                   (* getchar, sem_close *)
  | Unlinks => Next (mk_state false (value s) (workers s) (Returned 0))
  | Returned _ => Blocked
  end.

Definition worker_step (i : nat) (ok : bool) (s : state) : attempt state :=
  let goes v w := Next (mk_state (named s) (Some v) (<[i := w]> (workers s)) (main s)) in
  match main s, workers s !! i with
  | Returned _, _ => Blocked                              (* the process has ended *)
  | _, None | _, Some Absent => Blocked
  | _, Some Sleeps => Next (mk_state (named s) (value s) (<[i := Waits]> (workers s)) (main s))
  | _, Some Waits =>
      match value s with
      | None => Undefined UseAfterFree
      | Some v => if negb ok then goes v Has else match v with 0 => Blocked | S v => goes v Has end
      end
  | _, Some Has =>
      match value s with None => Undefined UseAfterFree | Some v => goes (v + 1) Sleeps end
  end.

Definition step (e : event) (s : state) : attempt state :=
  match e with Main ok => main_step ok s | Worker i ok => worker_step i ok s end.

Definition run : list event → state → attempt state := run_labels step.

(** ** Five threads at most *)

Definition holds (w : worker) : nat := match w with Has => 1 | _ => 0 end.
Definition holders (s : state) : nat := sum_list (holds <$> workers s).

Lemma holds_insert i w w' l : l !! i = Some w → sum_list (holds <$> <[i := w']> l) + holds w = sum_list (holds <$> l) + holds w'.
Proof.
  revert i. induction l as [|x l IH]; intros [|i] H; try done.
  - injection H as ->. change (holds w' + sum_list (holds <$> l) + holds w = holds w + sum_list (holds <$> l) + holds w'). lia.
  - specialize (IH i H).
    change (holds x + sum_list (holds <$> <[i := w']> l) + holds w = holds x + sum_list (holds <$> l) + holds w'). lia.
Qed.

(** No wait is interrupted. *)
Definition uninterrupted (e : event) : Prop := match e with Worker _ ok => ok = true | Main _ => True end.

Record counted (s : state) : Prop := mk_counted {
  counted_value : match value s with Some v => v + holders s = PERMITS | None => holders s ≤ PERMITS end;
  counted_open : match main s with
    | Opens => value s = None ∧ workers s = []
    | Creates | Reads => is_Some (value s) ∧ named s = true
    | Unlinks => value s = None
    | Returned rc => rc = 0%Z → value s = None ∧ named s = false
    end;
}.

Lemma permits_step e s s' : uninterrupted e → counted s → step e s = Next s' → counted s'.
Proof.
  intros He [H1 H2] E. destruct s as [nm v ws m], e as [ok|i ok]; cbn [step] in E; unfold holders in *; cbn in H1, H2.
  - unfold main_step in E. cbn [main named value workers negb] in E. destruct m as [| | | |rc]; try done.
    + destruct H2 as [-> ->]. destruct ok; [destruct nm|]; injection E as <-; split; cbn; unfold PERMITS;
        first [lia|done|by split; [eexists|]].
    + destruct (length ws <? WORKER_COUNT); injection E as <-; (split; cbn; [|done]); [|done].
      unfold holders. cbn. rewrite fmap_app, sum_list_with_app in *. by destruct ok; cbn; destruct v; rewrite Nat.add_0_r.
    + injection E as <-. destruct H2 as [[k ->] ->]. split; cbn; [unfold holders; cbn; lia|done].
    + injection E as <-. by split.
  - cbn in He. subst ok. unfold worker_step in E. cbn in E. destruct (ws !! i) as [w|] eqn:Ei; [|by destruct m].
    assert (Hm : ∀ rc, m ≠ Returned rc) by (intros rc ->; done).
    assert (m = Opens → ws = []) as Ho by (by intros ->; destruct H2).
    destruct w; try (by destruct m).
    + destruct v as [[|k]|]; destruct m; try done; injection E as <-; pose proof (holds_insert i Waits Has ws Ei) as Hh;
        (split; cbn; [unfold holders; cbn in *; lia|]); naive_solver.
    + destruct v as [k|]; destruct m; try done; injection E as <-; pose proof (holds_insert i Has Sleeps ws Ei) as Hh;
        (split; cbn; [unfold holders; cbn in *; lia|]); naive_solver.
    + pose proof (holds_insert i Sleeps Waits ws Ei) as Hh. destruct m; try done; injection E as <-;
        (split; cbn; [unfold holders; cbn in *; destruct v; lia|]); try done. destruct H2 as [_ ->]. done.
Qed.

(** As long as no wait is interrupted at most five threads have the semaphore, in every
    interleaving and whether or not the name existed before; when main has returned the name
    is gone. *)
Theorem at_most_five es nm s : Forall uninterrupted es → run es (start nm) = Next s →
  holders s ≤ PERMITS ∧ (main s = Returned 0 → named s = false).
Proof.
  intros He E. assert (Hc : counted s).
  { refine (run_labels_on step uninterrupted counted es (start nm) s permits_step He _ E). split; cbn; [unfold PERMITS; lia|done]. }
  destruct Hc as [H1 H2]. split; [destruct (value s); lia|]. intros Hm. rewrite Hm in H2. by apply H2.
Qed.

(** An interrupted wait is taken for the semaphore: nothing is taken off its value, which the
    thread adds one to, and a sixth thread gets it. *)
Definition creation : list event := Main true :: repeat (Main true) 11.

Example interrupted : ∃ s,
  run (creation ++ [Worker 9 false] ++ map (λ i, Worker i true) (seq 0 5)) (start false) = Next s ∧ holders s = 6.
Proof. eexists. split; [vm_compute; reflexivity|]. reflexivity. Qed.

(** The semaphore is closed while the threads use it. *)
Example closed_under_threads :
  run (creation ++ [Worker 0 true; Main true; Worker 0 true]) (start false) = Undefined UseAfterFree.
Proof. vm_compute. reflexivity. Qed.

(** The name of an earlier run is removed first. *)
Example stale_name : ∃ s, run (Main true :: creation ++ [Main true; Main true]) (start true) = Next s ∧
  main s = Returned 0 ∧ named s = false.
Proof. eexists. split; [vm_compute; reflexivity|]. by split. Qed.
