(* ===== verification/PipeExample.v ===== *)
(** * A string through a pipe

    Model of src/sysprog/afina/materials/08-pipes/examples/simple_pipe.c: the parent writes
    its argument into a pipe, the child prints what it reads from it.  How much a call moves
    at a time is chosen by the kernel. *)

From S2P Require Import Prelude Concur.

Definition BUF_SIZE : nat := 10.

(** ** The processes *)

(** The parent behind fork: before its first [close], in [write] with what is left, before
    the second [close], in [wait], ended with a result. *)
Inductive parent : Type := P_close | P_write (rest : bytes) | P_close_write | P_wait | P_done (rc : Z).

(** The child: before its first [close], in [read], in [write] of what it has read, before
    the line feed, ended. *)
Inductive child : Type := C_close | C_read | C_write (d : bytes) | C_newline | C_done (rc : Z).

Record system : Type := mk_system {
  at_parent : parent;
  at_child : child;
  stdin_open : bool;      (* descriptor 0 of the parent *)
  pipe : bytes;
  out : bytes;
}.

Section program.
(** The argument, and the bytes a pipe holds. *)
Context (arg : bytes) (CAPACITY : nat).

Definition start (stdin : bool) : system := mk_system P_close C_close stdin [] [].

(** A step of the parent in which [k] bytes move.  [close(pfd[0] == -1)] closes descriptor
    0, and leaves the end of the pipe that is read open: a write is never told that nobody
    reads. *)
Definition parent_step (k : nat) (s : system) : attempt system :=
  let goes p b d := Next (mk_system p (at_child s) b d (out s)) in
  match at_parent s with
  | P_close => if stdin_open s then goes (P_write arg) false (pipe s) else goes (P_done (-1)) false (pipe s)
  | P_write [] => goes P_close_write (stdin_open s) (pipe s)
  | P_write rest =>
      if (1 <=? k) && (k <=? length rest) && (length (pipe s) + k <=? CAPACITY)
      then goes (P_write (drop k rest)) (stdin_open s) (pipe s ++ take k rest) else Blocked
  | P_close_write => goes P_wait (stdin_open s) (pipe s)
  | P_wait => match at_child s with C_done _ => goes (P_done 0) (stdin_open s) (pipe s) | _ => Blocked end
  | P_done _ => Blocked
  end.

(** Is the end of the parent that is written open? *)
Definition writing (s : system) : bool :=
  match at_parent s with P_close | P_write _ | P_close_write => true | _ => false end.

(** A step of the child: a call moves [k] bytes, or it fails. *)
Definition child_step (k : nat) (ok : bool) (s : system) : attempt system :=
  let goes c d o := Next (mk_system (at_parent s) c (stdin_open s) d o) in
  match at_child s with
  | C_close => goes (if ok then C_read else C_done (-1)) (pipe s) (out s)
  | C_read =>
      if negb ok then goes (C_done (-1)) (pipe s) (out s)
      else match pipe s with
           | [] => if writing s then Blocked else goes C_newline [] (out s)
           | d => if (1 <=? k) && (k <=? Nat.min BUF_SIZE (length d))
                  then goes (C_write (take k d)) (drop k d) (out s) else Blocked
           end
  | C_write d =>
      if ok then goes C_read (pipe s) (out s ++ d)
      else goes (C_done (-1)) (pipe s) (out s ++ take k d)
  | C_newline => goes (C_done 0) (pipe s) (out s ++ if ok then [LF] else [])
  | C_done _ => Blocked
  end.

Inductive event : Type := Parent (k : nat) | Child (k : nat) (ok : bool).

Definition step (e : event) (s : system) : attempt system :=
  match e with Parent k => parent_step k s | Child k ok => child_step k ok s end.

Definition run : list event → system → attempt system := run_labels step.

(** ** What arrives *)

(** No call of the child fails. *)
Definition fine (e : event) : Prop := match e with Child _ ok => ok = true | Parent _ => True end.

Definition unwritten (s : system) : bytes :=
  match at_parent s with P_close => arg | P_write rest => rest | _ => [] end.
Definition in_hand (s : system) : bytes := match at_child s with C_write d => d | _ => [] end.

(** The argument is cut into what was printed, what the child has read, what is in the pipe
    and what is still to be written. *)
Record piped (s : system) : Prop := mk_piped {
  piped_all : match at_child s with
    | C_done rc => rc = 0%Z ∧ out s = arg ++ [LF]
    | _ => out s ++ in_hand s ++ pipe s ++ unwritten s = arg
    end;
  piped_end : match at_child s with
    | C_newline | C_done _ => writing s = false ∧ pipe s = []
    | _ => ∀ rc, at_parent s ≠ P_done rc
    end;
  piped_rc : ∀ rc, at_parent s = P_done rc → rc = 0%Z;
  piped_stdin : at_parent s = P_close → stdin_open s = true;
  piped_room : length (pipe s) ≤ CAPACITY;
}.

Lemma parent_piped k s s' : piped s → parent_step k s = Next s' → piped s'.
Proof.
  destruct s as [p c i d o]. intros [H1 H2 H3 H4 H5] E. unfold parent_step, writing, unwritten, in_hand in *.
  cbn [at_parent at_child stdin_open pipe out] in *.
  destruct p as [|[|x rest]| | |rc]; try done.
  - rewrite H4 in E by done. injection E as <-. split; cbn; [done| |done|done|done]. destruct c; try done; by destruct H2.
  - injection E as <-. split; cbn; [done| |done|done|done]. destruct c; try done; by destruct H2.
  - destruct ((1 <=? k) && (k <=? length (x :: rest)) && (length d + k <=? CAPACITY)) eqn:Ek; [|done].
    apply andb_true_iff in Ek as [[Hk1 Hk2]%andb_true_iff Hk3]. apply Nat.leb_le in Hk1, Hk2, Hk3.
    injection E as <-. split; cbn -[take drop]; [| |done|done|].
    + unfold in_hand in *. cbn in *. destruct c; try done; rewrite <-(take_drop k (x :: rest)) in H1; by rewrite <-app_assoc.
    + destruct c; try done; by destruct H2.
    + rewrite length_app, length_take. lia.
  - injection E as <-. split; cbn; [done| |done|done|done]. destruct c; try done; by destruct H2.
  - destruct c; try done. injection E as <-. split; cbn; [done..| |done|done]. by intros ? [= <-].
Qed.

Lemma child_piped k s s' : piped s → child_step k true s = Next s' → piped s'.
Proof.
  destruct s as [p c i d o]. intros [H1 H2 H3 H4 H5] E. unfold child_step, writing, unwritten, in_hand in *.
  cbn [at_parent at_child stdin_open pipe out negb] in *.
  destruct c as [| |w| |rc]; try done.
  - injection E as <-. by split.
  - destruct d as [|x d].
    + destruct p as [|rest| | |rc]; try done; injection E as <-; (split; cbn; [|by split|done|done|done]).
      * by rewrite app_nil_r in *.
      * by rewrite app_nil_r in *.
    + destruct ((1 <=? k) && (k <=? Nat.min BUF_SIZE (length (x :: d)))) eqn:Ek; [|done].
      injection E as <-. split; cbn -[take drop]; [|done|done|done|].
      * etransitivity; [|exact H1]. unfold in_hand, unwritten. cbn [at_child at_parent app]. f_equal.
        by rewrite app_assoc, (take_drop k (x :: d)).
      * rewrite length_drop. lia.
  - injection E as <-. split; cbn; [|done|done|done|done]. by rewrite <-H1, <-app_assoc.
  - injection E as <-. split; cbn; [|done|done|done|done]. destruct H2 as [Hw Hd]. split; [done|].
    cbn in H1. subst d. destruct p; try done; cbn in H1; by rewrite !app_nil_r in H1; subst o.
Qed.

Lemma run_piped es s : Forall fine es → run es (start true) = Next s → piped s.
Proof.
  intros He E. refine (run_labels_on step fine piped es (start true) s _ He _ E).
  - intros [k|k ok] s1 s2 Hf Hp; cbn [step]; [by apply parent_piped|]. cbn in Hf. subst ok. by apply child_piped.
  - split; cbn; try done. lia.
Qed.

(** When no call of the child fails and the parent has an input, in every interleaving and
    however the bytes are cut the child prints a prefix of the argument, and once it has
    ended all of it and a line feed; until both have ended with 0 one of them can go on. *)
Theorem pipe_prints es s : 0 < CAPACITY → Forall fine es → run es (start true) = Next s →
  (out s `prefix_of` arg ++ [LF]) ∧
  (∀ rc, at_child s = C_done rc → rc = 0%Z ∧ out s = arg ++ [LF]) ∧
  (at_parent s = P_done 0 ∧ at_child s = C_done 0 ∨ ∃ e s', fine e ∧ step e s = Next s').
Proof.
  intros Hcap He E. destruct (run_piped _ _ He E) as [H1 H2 H3 H4 H5]. clear He E.
  destruct s as [p c i d o]. unfold writing, unwritten, in_hand in *. cbn [at_parent at_child stdin_open pipe out] in *. split_and!.
  - destruct c; try (rewrite <-H1, <-app_assoc; by eexists). destruct H1 as [_ ->]. done.
  - intros rc ->. exact H1.
  - destruct c as [| |w| |rc].
    + right. eexists (Child 0 true), _. by split.
    + right. destruct d as [|x d].
      * destruct p as [|[|x rest]| | |rc]; try by (eexists (Parent 0), _; split; [done|]; cbn; rewrite ?H4 by done; done).
        -- eexists (Parent 1), _. split; [done|]. cbn. destruct CAPACITY; [lia|done].
        -- eexists (Child 0 true), _. by split.
        -- by destruct (H2 rc).
      * eexists (Child 1 true), _. split; [done|]. cbn. done.
    + right. eexists (Child 0 true), _. by split.
    + right. eexists (Child 0 true), _. by split.
    + destruct H1 as [-> _], H2 as [Hw _]. destruct p as [|rest| | |rc]; try done.
      * right. eexists (Parent 0), _. by split.
      * left. by rewrite (H3 rc).
Qed.
End program.

(** *** Runs *)

Lemma pipe_prints_witness : ∃ s,
  run (lit "hello") 4 [Parent 0; Parent 3; Child 0 true; Child 2 true; Parent 2; Parent 0; Child 0 true; Child 3 true; Child 0 true; Parent 0] (start true) = Next s ∧
  out s = lit "hello" ∧ out s `prefix_of` lit "hello" ++ [LF].
Proof.
  eexists. split; [vm_compute; reflexivity|]. split; [reflexivity|].
  refine (proj1 (pipe_prints (lit "hello") 4 [Parent 0; Parent 3; Child 0 true; Child 2 true; Parent 2; Parent 0; Child 0 true; Child 3 true; Child 0 true; Parent 0] _ _ _ _)).
  - lia.
  - by repeat constructor.
  - vm_compute. reflexivity.
Defined.

(** The misplaced parenthesis: without an input the parent gives up before it has written,
    and the child prints an empty line. *)
Example no_input : ∃ s,
  run (lit "hello") 4 [Parent 0; Child 0 true; Child 0 true; Child 0 true] (start false) = Next s ∧
  at_parent s = P_done (-1) ∧ out s = [LF].
Proof. eexists. split; [vm_compute; reflexivity|]. by split. Qed.

(** And when the child has ended early, a parent that does not fit its argument into the pipe
    waits for ever for itself to read. *)
Example waits_for_itself : ∃ s,
  run (lit "hello") 4 [Parent 0; Parent 4; Child 0 false] (start true) = Next s ∧
  at_child s = C_done (-1) ∧ ∀ k, step (lit "hello") 4 (Parent k) s = Blocked.
Proof.
  eexists. split; [vm_compute; reflexivity|]. split; [done|]. intros [|[|k]]; [done..|]. cbn. done.
Qed.
