(* ===== verification/DatagramRing.v ===== *)
(** * A ring of processes over datagrams

    Model of src/sysprog/lecture_examples/7_ipc/14_sock_dgram.c: processes with an id each,
    that send a number to the process whose id follows theirs modulo three.  Process 0
    reads numbers and waits for each to come round; the others add one.  A datagram arrives
    whole and in order, or not at all when its sender is told so. *)

From S2P Require Import Prelude CStrings Concur.

(** ** The processes *)

(** What process 0 prints, and the workers. *)
Inductive out : Type := Sent (n : Z) | Received (n : Z) | Failed.

(** [initiator_f] before [scanf], [sendto] and [recv], or returned; [worker_f] before [recv]
    and [sendto]. *)
Inductive spot : Type := Scans | Starts (n : Z) | Waits | Returned | Takes | Passes (n : Z).

#[export] Instance spot_eq_dec : EqDecision spot.
Proof. solve_decision. Defined.

(** The datagrams that arrived at the socket of a process are in [queue]. *)
Record proc : Type := mk_proc { at_ : spot; stdin : bytes; queue : list Z; printed : list out }.

(** The processes that are bound, by their ids. *)
Notation system := (gmap Z proc).

Definition next_id (myid : Z) : Z := Z.rem (myid + 1) 3.

(** [main] up to the loops: the socket of an id can be bound once. *)
Definition enter (myid : Z) (input : bytes) (s : system) : option system :=
  match s !! myid with
  | Some _ => None
  | None => Some (<[myid := mk_proc (if decide (myid = 0)%Z then Scans else Takes) input [] []]> s)
  end.

Definition put (i : Z) (p : proc) (a : spot) (o : list out) (s : system) : system :=
  <[i := mk_proc a (stdin p) (queue p) (printed p ++ o)]> s.

(** [recv]: a number is taken off the queue. *)
Definition recv (p : proc) : option (Z * proc) :=
  match queue p with [] => None | n :: q => Some (n, mk_proc (at_ p) (stdin p) q (printed p)) end.

(** The socket with the next id, if it is open. *)
Definition peer (i : Z) (s : system) : option proc :=
  match s !! next_id i with
  | Some q => if decide (at_ q = Returned) then None else Some q
  | None => None
  end.

(** [sendto]; it cannot succeed without a peer. *)
Definition sendto (i : Z) (n : Z) (p : proc) (s : system) (sent : spot) : attempt system :=
  match peer i s with
  | Some q => Next (<[next_id i := mk_proc (at_ q) (stdin q) (queue q ++ [n]) (printed q)]> (put i p sent [Sent n] s))
  | None => Blocked
  end.

(** A process is started; it takes a turn in which its call, if there is one, succeeds; or
    the call fails. *)
Inductive event : Type := Enter (myid : Z) (input : bytes) | Turn (i : Z) | Send_fails (i : Z) | Recv_fails (i : Z).

Definition turn (i : Z) (p : proc) (s : system) : attempt system :=
  match at_ p with
  | Scans =>
      match scan_int (stdin p) with
      | None => Next (put i p Returned [] s)
      | Some (n, rest) =>
          if bool_decide (i32_range n)
          then Next (<[i := mk_proc (Starts n) rest (queue p) (printed p)]> s)
          else Undefined SignedOverflow
      end
  | Starts n => sendto i n p s Waits
  | Waits =>
      match recv p with
      | None => Blocked
      | Some (n, p) => Next (put i p Scans [Received n] s)
      end
  | Takes =>
      match recv p with
      | None => Blocked
      | Some (n, p) =>
          if bool_decide (i32_range (n + 1)) then Next (put i p (Passes (n + 1)) [Received n] s)
          else Undefined SignedOverflow
      end
  | Passes n => sendto i n p s Takes
  | Returned => Blocked
  end.

Definition step (e : event) (s : system) : attempt system :=
  match e with
  | Enter myid input => Next (default s (enter myid input s))      (* bind failed: it ends *)
  | Turn i => match s !! i with Some p => turn i p s | None => Blocked end
  | Send_fails i =>
      match s !! i with
      | Some p =>
          match at_ p with
          | Starts _ => Next (put i p Scans [Failed] s)
          | Passes _ => Next (put i p Takes [Failed] s)
          | _ => Blocked
          end
      | None => Blocked
      end
  | Recv_fails i =>
      match s !! i with
      | Some p =>
          match at_ p with
          | Waits => Next (put i p Scans [Failed] s)
          | Takes => Next (put i p Takes [Failed] s)
          | _ => Blocked
          end
      | None => Blocked
      end
  end.

Definition run : list event → system → attempt system := run_labels step.

(** ** One number goes round *)

(** What process 0 prints: every number that it could send comes back with two added. *)
Definition talk (zs : list (Z * bool)) : list out :=
  zs ≫= λ x, if (snd x : bool) then [Sent (fst x); Received (fst x + 2)] else [Failed].

(** The numbers at a process. *)
Definition carried (p : proc) : list Z :=
  queue p ++ match at_ p with Passes n => [n] | _ => [] end.

(** Where the number that was sent can be, and how often one was added. *)
Inductive place : Z → bool → Z → Prop :=
| queue_1 : place 1 false 0
| hand_1 : place 1 true 1
| queue_2 : place 2 false 1
| hand_2 : place 2 true 2
| queue_0 : place 0 false 2.

(** The number [v] is at process [i], in its hands or in its queue. *)
Record token : Type := mk_token { holder : Z; in_hand : bool; value : Z }.

Definition queue_of (t : option token) (i : Z) : list Z :=
  match t with Some t => if decide (holder t = i ∧ in_hand t = false) then [value t] else [] | None => [] end.
Definition spot_of (t : option token) (i : Z) : spot :=
  match t with Some t => if decide (holder t = i ∧ in_hand t = true) then Passes (value t) else Takes | None => Takes end.

(** Process 0, with its input [b] at the start; [z] is the number it waits for. *)
Definition initiator (b : bytes) (z : Z) (p : proc) : Prop :=
  ∃ zs,
  match at_ p with
  | Scans | Returned => scans b zs.*1 (stdin p) ∧ printed p = talk zs
  | Starts n => scans b (zs.*1 ++ [n]) (stdin p) ∧ printed p = talk zs
  | Waits => scans b (zs.*1 ++ [z]) (stdin p) ∧ printed p = talk zs ++ [Sent z]
  | Takes | Passes _ => False
  end.

Record ring (b : bytes) (t : option token) (z : Z) (s : system) : Prop := mk_ring {
  ring_queue i p : s !! i = Some p → queue p = queue_of t i;
  ring_spot i p : s !! i = Some p → i ≠ 0%Z → at_ p = spot_of t i;
  ring_zero p : s !! 0%Z = Some p → initiator b z p;
  ring_token u : t = Some u → is_Some (s !! holder u) ∧
    (∃ k, place (holder u) (in_hand u) k ∧ value u = (z + k)%Z) ∧ ∃ p, s !! 0%Z = Some p ∧ at_ p = Waits;
}.

(** The receives of process 0 do not fail, and its input is [b]. *)
Definition steady (b : bytes) (e : event) : Prop :=
  e ≠ Recv_fails 0 ∧ ∀ input, e = Enter 0 input → input = b.

Section steps.
Context (b : bytes).

(** The number is not where the process is not. *)
Lemma ring_absent t z s i : ring b t z s → s !! i = None → queue_of t i = [] ∧ spot_of t i = Takes.
Proof.
  intros H Hi. destruct t as [u|]; [|done]. destruct (ring_token _ _ _ _ H u eq_refl) as [[q Hq] _].
  unfold queue_of, spot_of. by rewrite !decide_False by (intros [<- _]; congruence).
Qed.

(** Process [i] changes, the others keep what they have. *)
Lemma ring_put t t' z z' s i p :
  ring b t z s → queue p = queue_of t' i → (i ≠ 0%Z → at_ p = spot_of t' i ∧ z' = z) → (i = 0%Z → initiator b z' p) →
  (∀ j, j ≠ i → is_Some (s !! j) → queue_of t' j = queue_of t j ∧ spot_of t' j = spot_of t j) →
  (∀ u, t' = Some u → is_Some (<[i := p]> s !! holder u) ∧
    (∃ k, place (holder u) (in_hand u) k ∧ value u = (z' + k)%Z) ∧ ∃ p0, <[i := p]> s !! 0%Z = Some p0 ∧ at_ p0 = Waits) →
  ring b t' z' (<[i := p]> s).
Proof.
  intros H Hq Hs H0 Hother Ht. constructor; [| | |done].
  - intros j q Hj. destruct (decide (j = i)) as [->|Hne]; [rewrite lookup_insert_eq in Hj; by injection Hj as <-|].
    rewrite lookup_insert_ne in Hj by done. destruct (Hother j Hne ltac:(by exists q)) as [-> _]. by eapply ring_queue.
  - intros j q Hj Hj0. destruct (decide (j = i)) as [->|Hne].
    + rewrite lookup_insert_eq in Hj. injection Hj as <-. by apply Hs.
    + rewrite lookup_insert_ne in Hj by done. destruct (Hother j Hne ltac:(by exists q)) as [_ ->]. by eapply ring_spot.
  - intros q Hj. destruct (decide (i = 0%Z)) as [->|Hne].
    + rewrite lookup_insert_eq in Hj. injection Hj as <-. by apply H0.
    + rewrite lookup_insert_ne in Hj by done. destruct (Hs Hne) as [_ ->]. by eapply ring_zero.
Qed.

Lemma ring_enter t z s i input : ring b t z s → s !! i = None → (i = 0%Z → input = b) →
  ring b t z (<[i := mk_proc (if decide (i = 0)%Z then Scans else Takes) input [] []]> s).
Proof.
  intros H Hi Hin. destruct (ring_absent _ _ _ _ H Hi) as [Hq Hs].
  eapply ring_put; [done|by rewrite Hq|intros; rewrite decide_False by done; by rewrite Hs| |done|].
  - intros ->. rewrite decide_True, Hin by done. exists []. split; [constructor|done].
  - intros u Hu. destruct (ring_token _ _ _ _ H u Hu) as ([q Hh] & Hk & p0 & Hp & Hw).
    assert (Hne : i ≠ 0%Z) by congruence. assert (Hne' : i ≠ holder u) by congruence. rewrite !lookup_insert_ne by done. eauto.
Qed.

(** Process 0 while no number is under way. *)
Lemma ring_idle t z s p p' : ring b t z s → s !! 0%Z = Some p → at_ p ≠ Waits →
  queue p' = queue p → initiator b z p' → ring b None z (<[0%Z := p']> s).
Proof.
  intros H Hp Hw Hq Hi. assert (t = None) as ->.
  { destruct t as [u|]; [|done]. by destruct (ring_token _ _ _ _ H u eq_refl) as (_ & _ & q & Hq' & ?); simplify_eq. }
  eapply ring_put; [done| |done|done|done|done]. rewrite Hq. by eapply (ring_queue _ None).
Qed.

(** A process in whose queue or hands the number is has all of it. *)
Lemma ring_queued t z s i p n q : ring b t z s → s !! i = Some p → queue p = n :: q → t = Some (mk_token i false n) ∧ q = [].
Proof.
  intros H Hi E. rewrite (ring_queue _ _ _ _ H _ _ Hi) in E. destruct t as [[h d v]|]; [|done].
  unfold queue_of in E. cbn in E. case_decide as Hd; [|done]. destruct Hd as [-> ->]. by simplify_eq.
Qed.

Lemma ring_held t z s i p n : ring b t z s → s !! i = Some p → i ≠ 0%Z → at_ p = Passes n → t = Some (mk_token i true n).
Proof.
  intros H Hi Hne E. rewrite (ring_spot _ _ _ _ H _ _ Hi Hne) in E. destruct t as [[h d v]|]; [|done].
  unfold spot_of in E. cbn in E. case_decide as Hd; [|done]. destruct Hd as [-> ->]. by simplify_eq.
Qed.

Lemma laps_app zs x : talk (zs ++ [x]) = talk zs ++ talk [x].
Proof. unfold talk. by rewrite bind_app. Qed.

Lemma ring_deliver z s j q n k : ring b None z s → s !! j = Some q → place j false k → n = (z + k)%Z →
  (∃ p0, s !! 0%Z = Some p0 ∧ at_ p0 = Waits) →
  ring b (Some (mk_token j false n)) z (<[j := mk_proc (at_ q) (stdin q) (queue q ++ [n]) (printed q)]> s).
Proof.
  intros H Hj Hk -> (p0 & Hp & Hw). pose proof (ring_queue _ _ _ _ H _ _ Hj) as Hq. cbn in Hq.
  eapply ring_put; [done| | | | |].
  - unfold queue_of. cbn. rewrite decide_True by done. by rewrite Hq.
  - intros Hne. split; [|done]. unfold spot_of. cbn. rewrite decide_False by (by intros [_ ?]). by eapply (ring_spot _ _ _ _ H).
  - intros ->. apply (ring_zero _ _ _ _ H _ Hj).
  - intros i Hi _. unfold queue_of, spot_of. cbn. by rewrite !decide_False by (intros [? ?]; congruence).
  - intros u [= <-]. cbn. split_and!; [by rewrite lookup_insert_eq|by exists k|].
    destruct (decide (j = 0%Z)) as [->|Hne]; [rewrite lookup_insert_eq|rewrite lookup_insert_ne by done; eauto].
    eexists. split; [done|]. cbn. congruence.
Qed.

Lemma ring_start t z s p n : ring b t z s → s !! 0%Z = Some p → at_ p = Starts n →
  ring b None n (put 0 p Waits [Sent n] s).
Proof.
  intros H Hp Ha. destruct (ring_zero _ _ _ _ H _ Hp) as [zs Hi]. rewrite Ha in Hi. destruct Hi as [Hs Hpr].
  assert (t = None) as ->.
  { destruct t as [u|]; [|done]. destruct (ring_token _ _ _ _ H u eq_refl) as (_ & _ & q & Hq' & ?). congruence. }
  eapply ring_put; [done|exact (ring_queue _ _ _ _ H _ _ Hp)|done| |done|done].
  intros _. exists zs. cbn. by rewrite Hpr.
Qed.

Lemma ring_arrive t z s p n q : ring b t z s → s !! 0%Z = Some p → at_ p = Waits → queue p = n :: q →
  ring b None z (<[0%Z := mk_proc Scans (stdin p) q (printed p ++ [Received n])]> s).
Proof.
  intros H Hp Ha Hq. destruct (ring_queued _ _ _ _ _ _ _ H Hp Hq) as [-> ->].
  destruct (ring_token _ _ _ _ H _ eq_refl) as (_ & (k & Hk & Hv) & _). cbn in Hk, Hv.
  assert (k = 2%Z) as -> by (inversion Hk; lia).
  destruct (ring_zero _ _ _ _ H _ Hp) as [zs Hi]. rewrite Ha in Hi. destruct Hi as [Hs Hpr].
  eapply ring_put; [done|done|done| | |done].
  - intros _. exists (zs ++ [(z, true)]). cbn. rewrite fmap_app, laps_app, Hpr, <-app_assoc. split; [done|].
    by rewrite Hv.
  - intros j Hj _. unfold queue_of, spot_of. cbn. by rewrite !decide_False by (intros [? ?]; congruence).
Qed.

Lemma ring_take t z s i p n q : ring b t z s → s !! i = Some p → i ≠ 0%Z → queue p = n :: q →
  ring b (Some (mk_token i true (n + 1))) z (<[i := mk_proc (Passes (n + 1)) (stdin p) q (printed p ++ [Received n])]> s).
Proof.
  intros H Hp Hne Hq. destruct (ring_queued _ _ _ _ _ _ _ H Hp Hq) as [-> ->].
  destruct (ring_token _ _ _ _ H _ eq_refl) as (_ & (k & Hk & Hv) & p0 & Hp0 & Hw). cbn in Hk, Hv.
  eapply ring_put; [done| | |done| |].
  - unfold queue_of. cbn. by rewrite decide_False by (by intros [_ ?]).
  - intros _. split; [|done]. unfold spot_of. cbn. by rewrite decide_True.
  - intros j Hj _. unfold queue_of, spot_of. cbn. by rewrite !decide_False by (intros [? ?]; congruence).
  - intros u [= <-]. cbn. split_and!; [by rewrite lookup_insert_eq| |rewrite lookup_insert_ne by done; eauto].
    exists (k + 1)%Z. split; [|lia]. inversion Hk; subst; [constructor|constructor|done].
Qed.

Lemma ring_pass t z s i p n o : ring b t z s → s !! i = Some p → i ≠ 0%Z → at_ p = Passes n →
  ring b None z (put i p Takes o s).
Proof.
  intros H Hp Hne Ha. pose proof (ring_held _ _ _ _ _ _ H Hp Hne Ha) as ->.
  eapply ring_put; [done| |done|done| |done].
  - cbn. rewrite (ring_queue _ _ _ _ H _ _ Hp). unfold queue_of. cbn. by rewrite decide_False by (by intros [_ ?]).
  - intros j Hj _. unfold queue_of, spot_of. cbn. by rewrite !decide_False by (intros [? ?]; congruence).
Qed.

Lemma ring_stay t z s i p o : ring b t z s → s !! i = Some p → i ≠ 0%Z → ring b t z (put i p (at_ p) o s).
Proof.
  intros H Hp Hne. eapply ring_put; [done|exact (ring_queue _ _ _ _ H _ _ Hp)|split; [exact (ring_spot _ _ _ _ H _ _ Hp Hne)|done]|done|done|].
  intros u Hu. destruct (ring_token _ _ _ _ H u Hu) as ([q Hh] & Hk & p0 & Hp0 & Hw).
  rewrite (lookup_insert_ne s i 0%Z) by done. split_and!; [|done|eauto].
  destruct (decide (i = holder u)) as [->|]; [by rewrite lookup_insert_eq|by rewrite lookup_insert_ne].
Qed.

(** *** Every step *)

Lemma peer_some i s q : peer i s = Some q → s !! next_id i = Some q.
Proof. unfold peer. destruct (s !! next_id i); [case_decide|]; naive_solver. Qed.

Lemma zero_spot t z s i p : ring b t z s → s !! i = Some p → at_ p ≠ Takes → (∀ n, at_ p ≠ Passes n) → i = 0%Z.
Proof.
  intros H Hp Ht Hn. destruct (decide (i = 0%Z)) as [|Hne]; [done|]. rewrite (ring_spot _ _ _ _ H _ _ Hp Hne) in *.
  unfold spot_of in *. destruct t as [u|]; [|done]. case_decide; [by destruct (Hn (value u))|done].
Qed.

Lemma worker_spot t z s i p : ring b t z s → s !! i = Some p → at_ p = Takes ∨ (∃ n, at_ p = Passes n) → i ≠ 0%Z.
Proof.
  intros H Hp Ha ->. destruct (ring_zero _ _ _ _ H _ Hp) as [zs Hi].
  by destruct Ha as [Ha|[n Ha]]; rewrite Ha in Hi.
Qed.

Lemma turn_ring t z s i p s' : ring b t z s → s !! i = Some p → turn i p s = Next s' → ∃ t' z', ring b t' z' s'.
Proof.
  intros H Hp. unfold turn. destruct (at_ p) as [|n| | | |n] eqn:Ea.
  - assert (i = 0%Z) as -> by (eapply zero_spot; eauto; congruence).
    destruct (ring_zero _ _ _ _ H _ Hp) as [zs Hi]. rewrite Ea in Hi. destruct Hi as [Hs Hpr].
    assert (at_ p ≠ Waits) by congruence.
    destruct (scan_int _) as [[n r]|] eqn:En; [case_bool_decide; [|done]|]; intros [= <-]; do 2 eexists;
      (eapply ring_idle; [done|done|done|done|exists zs; cbn]).
    + split; [by eapply scans_one|done].
    + by rewrite app_nil_r.
  - assert (i = 0%Z) as -> by (eapply zero_spot; eauto; congruence). unfold sendto.
    destruct (peer _ _) as [q|] eqn:Eq; [|done]. intros [= <-]. apply peer_some in Eq. do 2 eexists.
    eapply (ring_deliver _ _ _ _ _ 0); [by eapply ring_start| |by constructor|lia|].
    + unfold put. by rewrite lookup_insert_ne.
    + eexists. unfold put. by rewrite lookup_insert_eq.
  - assert (i = 0%Z) as -> by (eapply zero_spot; eauto; congruence). unfold recv.
    destruct (queue p) as [|n q] eqn:Eq; [done|]. intros [= <-]. do 2 eexists. exact (ring_arrive _ _ _ _ _ _ H Hp Ea Eq).
  - done.
  - assert (i ≠ 0%Z) by (eapply worker_spot; eauto). unfold recv.
    destruct (queue p) as [|n q] eqn:Eq; [done|]. case_bool_decide; [|done]. intros [= <-]. do 2 eexists.
    refine (ring_take _ _ _ _ _ _ _ H Hp _ Eq); done.
  - assert (Hne : i ≠ 0%Z) by (eapply worker_spot; eauto). unfold sendto.
    destruct (peer _ _) as [q|] eqn:Eq; [|done]. intros [= <-]. apply peer_some in Eq.
    pose proof (ring_held _ _ _ _ _ _ H Hp Hne Ea) as ->.
    destruct (ring_token _ _ _ _ H _ eq_refl) as (_ & (k & Hk & Hv) & p0 & Hp0 & Hw). cbn in Hk, Hv.
    do 2 eexists. eapply (ring_deliver _ _ _ _ _ k); [by eapply ring_pass| | |done|].
    + unfold put. rewrite lookup_insert_ne; [done|]. by inversion Hk; subst.
    + inversion Hk; subst; constructor.
    + exists p0. unfold put. by rewrite lookup_insert_ne.
Qed.

Lemma step_ring t z e s s' : steady b e → ring b t z s → step e s = Next s' → ∃ t' z', ring b t' z' s'.
Proof.
  intros [Hr He] H. destruct e as [i input|i|i|i]; cbn [step].
  - intros [= <-]. unfold enter. destruct (s !! i) as [p|] eqn:Hi; [by do 2 eexists|]. cbn. do 2 eexists.
    eapply ring_enter; [done|done|]. intros ->. by apply He.
  - destruct (s !! i) as [p|] eqn:Hp; [|done]. by eapply turn_ring.
  - destruct (s !! i) as [p|] eqn:Hp; [|done]. destruct (at_ p) as [|n| | | |n] eqn:Ea; try done; intros [= <-]; do 2 eexists.
    + assert (i = 0%Z) as -> by (eapply zero_spot; eauto; congruence).
      destruct (ring_zero _ _ _ _ H _ Hp) as [zs Hi]. rewrite Ea in Hi. destruct Hi as [Hs Hpr].
      eapply ring_idle; [done|done|congruence|done|]. exists (zs ++ [(n, false)]). cbn.
      by rewrite fmap_app, laps_app, Hpr.
    + eapply ring_pass; [done|done| |done]. eapply worker_spot; eauto.
  - destruct (s !! i) as [p|] eqn:Hp; [|done]. destruct (at_ p) as [|n| | | |n] eqn:Ea; try done; intros [= <-].
    + destruct Hr. f_equal. eapply zero_spot; eauto; congruence.
    + do 2 eexists. rewrite <-Ea. eapply ring_stay; [done|done|]. eapply worker_spot; eauto.
Qed.

Lemma run_ring es s : Forall (steady b) es → run es ∅ = Next s → ∃ t z, ring b t z s.
Proof.
  intros He E. refine (run_labels_on step (steady b) (λ s, ∃ t z, ring b t z s) es ∅ s _ He _ E).
  - intros e s1 s2 Hs (t & z & H). by eapply step_ring.
  - exists None, 0%Z. by constructor.
Qed.

(** *** The number comes back *)

(** Only process 0 fails to send: no worker loses the number. *)
Definition lossless (e : event) : Prop := ∀ i, e = Send_fails i → i = 0%Z.

Definition waits (s : system) : Prop := ∃ p, s !! 0%Z = Some p ∧ at_ p = Waits.
Definition under_way (s : system) : Prop := ∃ i q, s !! i = Some q ∧ carried q ≠ [].

Lemma under_way_put i p p' s : s !! i = Some p → carried p' = carried p → under_way s → under_way (<[i := p']> s).
Proof.
  intros Hp Hc (j & q & Hj & Hq). destruct (decide (j = i)) as [->|Hne].
  - exists i, p'. rewrite lookup_insert_eq. split; [done|]. rewrite Hc. by simplify_eq.
  - exists j, q. by rewrite lookup_insert_ne.
Qed.

Lemma under_way_own i p s : carried p ≠ [] → under_way (<[i := p]> s).
Proof. intros Hp. exists i, p. by rewrite lookup_insert_eq. Qed.

Lemma not_waits i p s : at_ p ≠ Waits → i = 0%Z → ¬ waits (<[i := p]> s).
Proof. intros Hp -> (q & Hq & Hw). rewrite lookup_insert_eq in Hq. by simplify_eq. Qed.

Lemma waits_other i p s : i ≠ 0%Z → waits (<[i := p]> s) → waits s.
Proof. intros Hi (q & Hq & Hw). exists q. by rewrite lookup_insert_ne in Hq. Qed.

Lemma sendto_under_way i n p s a s' : sendto i n p s a = Next s' → under_way s'.
Proof.
  unfold sendto. destruct (peer _ _); [|done]. intros [= <-]. apply under_way_own. unfold carried. cbn.
  by destruct (queue p0).
Qed.

Lemma step_under_way t z e s s' : ring b t z s → lossless e → step e s = Next s' →
  (waits s → under_way s) → waits s' → under_way s'.
Proof.
  intros H Hl E Hs Hw. destruct e as [i input|i|i|i]; cbn [step] in E.
  - injection E as <-. unfold enter in *. destruct (s !! i) as [p|] eqn:Hi; [by apply Hs|]. cbn [from_option id] in *.
    destruct (decide (i = 0%Z)) as [->|Hne]; [by apply not_waits in Hw|].
    destruct (Hs (waits_other _ _ _ Hne Hw)) as (j & q & Hj & Hq). exists j, q.
    rewrite lookup_insert_ne; [done|]. congruence.
  - destruct (s !! i) as [p|] eqn:Hp; [|done]. unfold turn in E. destruct (at_ p) as [|n| | | |n] eqn:Ea.
    + assert (i = 0%Z) by (eapply zero_spot; eauto; congruence).
      destruct (scan_int _) as [[n r]|]; [case_bool_decide; [|done]|]; injection E as <-; by apply not_waits in Hw.
    + by eapply sendto_under_way.
    + assert (i = 0%Z) by (eapply zero_spot; eauto; congruence).
      unfold recv in E. destruct (queue p); [done|]. injection E as <-. by apply not_waits in Hw.
    + done.
    + unfold recv in E. destruct (queue p) as [|n q]; [done|]. case_bool_decide; [|done]. injection E as <-.
      apply under_way_own. unfold carried. cbn. by destruct q.
    + by eapply sendto_under_way.
  - destruct (s !! i) as [p|] eqn:Hp; [|done]. pose proof (Hl i eq_refl) as ->.
    destruct (at_ p) as [|n| | | |n] eqn:Ea; try done; injection E as <-; by apply not_waits in Hw.
  - destruct (s !! i) as [p|] eqn:Hp; [|done]. destruct (at_ p) as [|n| | | |n] eqn:Ea; try done; injection E as <-.
    + assert (i = 0%Z) by (eapply zero_spot; eauto; congruence). by apply not_waits in Hw.
    + assert (i ≠ 0%Z) as Hne by (eapply worker_spot; eauto).
      eapply under_way_put; [done|unfold carried; cbn; by rewrite Ea|]. apply Hs. by eapply waits_other.
Qed.

(** Who carries something is the holder. *)
Lemma carried_holder t z s i q : ring b t z s → s !! i = Some q → carried q ≠ [] →
  ∃ u, t = Some u ∧ holder u = i ∧ length (carried q) = 1.
Proof.
  intros H Hi Hq. unfold carried in *. rewrite (ring_queue _ _ _ _ H _ _ Hi) in *.
  assert (Hpass : ∀ n, at_ q = Passes n → t = Some (mk_token i true n)).
  { intros n Hn. eapply ring_held; eauto. eapply worker_spot; eauto. }
  destruct t as [u|].
  - exists u. unfold queue_of in *. destruct (at_ q) as [|n| | | |n]; case_decide as Hd; try done;
      try (destruct Hd as [? ?]; by split_and!).
    + specialize (Hpass n eq_refl). injection Hpass as ->. by destruct Hd.
    + specialize (Hpass n eq_refl). injection Hpass as ->. done.
  - destruct (at_ q); try done. by specialize (Hpass _ eq_refl).
Qed.

(** How far the number is from process 0. *)
Definition distance (u : token) : nat :=
  (if decide (holder u = 1%Z) then 4 else if decide (holder u = 2%Z) then 2 else 0) + (if in_hand u then 0 else 1).

(** What a turn of the process that has the number comes to: process 0 prints it, or it is
    nearer to process 0. *)
Definition taken_on (z : Z) (s : system) (p : proc) (u : token) : Prop :=
  ∃ s' p', step (Turn (holder u)) s = Next s' ∧ s' !! 0%Z = Some p' ∧
    (printed p' = printed p ++ [Received (z + 2)] ∨
     (printed p' = printed p ∧ is_Some (s' !! 1%Z) ∧ is_Some (s' !! 2%Z) ∧
      ∃ u', ring b (Some u') z s' ∧ distance u' < distance u)).

Lemma put_present (s : system) i x j : is_Some (s !! j) → is_Some (<[i := x]> s !! j).
Proof. intros Hj. destruct (decide (i = j)) as [->|]; [by rewrite lookup_insert_eq|by rewrite lookup_insert_ne]. Qed.

Lemma token_passed z s i v p :
  ring b (Some (mk_token i true v)) z s → s !! 0%Z = Some p → is_Some (s !! 1%Z) → is_Some (s !! 2%Z) →
  taken_on z s p (mk_token i true v).
Proof.
  intros H Hp0 H1 H2.
  destruct (ring_token _ _ _ _ H _ eq_refl) as ([q Hq] & (k & Hk & Hv) & p0 & Hp & Hw). cbn in Hq, Hk, Hv.
  rewrite Hp0 in Hp. injection Hp as <-.
  assert (i ≠ 0%Z) as Hne by (by inversion Hk).
  assert (at_ q = Passes v) as Hat
    by (rewrite (ring_spot _ _ _ _ H _ _ Hq Hne); unfold spot_of; cbn; by rewrite decide_True).
  assert (∃ r, s !! next_id i = Some r ∧ at_ r ≠ Returned) as (r & Hr & Hret).
  { inversion Hk; subst; cbn.
    - destruct H2 as [r Hr]. exists r. split; [done|]. rewrite (ring_spot _ _ _ _ H _ _ Hr) by done.
      unfold spot_of. by case_decide.
    - exists p. split; [done|congruence]. }
  assert (peer i s = Some r) as Epeer by (unfold peer; rewrite Hr; by rewrite decide_False).
  set (s1 := put i q Takes [Sent v] s).
  assert (s1 !! next_id i = Some r) as Hr1 by (unfold s1, put; rewrite lookup_insert_ne; [done|by inversion Hk; subst]).
  assert (s1 !! 0%Z = Some p) as Hz by (unfold s1, put; by rewrite lookup_insert_ne).
  assert (place (next_id i) false k) as Hpl by (inversion Hk; subst; constructor).
  pose proof (ring_pass _ _ _ _ _ _ [Sent v] H Hq Hne Hat) as Hring. fold s1 in Hring.
  pose proof (ring_deliver _ _ _ _ _ _ Hring Hr1 Hpl Hv (ex_intro _ p (conj Hz Hw))) as Hring'.
  set (r' := mk_proc (at_ r) (stdin r) (queue r ++ [v]) (printed r)) in Hring'.
  assert (∃ p', <[next_id i := r']> s1 !! 0%Z = Some p' ∧ printed p' = printed p) as (p' & E1 & E2).
  { destruct (decide (next_id i = 0%Z)) as [E|E].
    - rewrite E in *. rewrite lookup_insert_eq. eexists. split; [done|]. cbn. congruence.
    - exists p. by rewrite lookup_insert_ne. }
  exists (<[next_id i := r']> s1), p'. cbn [holder step]. rewrite Hq. unfold turn, sendto. rewrite Hat, Epeer.
  split; [done|]. split; [done|]. right. split; [done|].
  split; [by do 2 apply put_present|]. split; [by do 2 apply put_present|]. eexists. split; [exact Hring'|].
  clear -Hk. unfold lt. inversion Hk; subst; vm_compute; lia.
Qed.

Lemma token_taken z s i v p :
  ring b (Some (mk_token i false v)) z s → s !! 0%Z = Some p → is_Some (s !! 1%Z) → is_Some (s !! 2%Z) →
  i32_range (z + 1) → i32_range (z + 2) → taken_on z s p (mk_token i false v).
Proof.
  intros H Hp0 H1 H2 Hr1 Hr2.
  destruct (ring_token _ _ _ _ H _ eq_refl) as ([q Hq] & (k & Hk & Hv) & p0 & Hp & Hw). cbn in Hq, Hk, Hv.
  rewrite Hp0 in Hp. injection Hp as <-.
  assert (queue q = [v]) as Hqueue
    by (rewrite (ring_queue _ _ _ _ H _ _ Hq); unfold queue_of; cbn; by rewrite decide_True).
  unfold taken_on. cbn [holder step]. rewrite Hq. unfold turn. destruct (decide (i = 0%Z)) as [->|Hne].
  - assert (q = p) as -> by congruence. rewrite Hw. unfold recv. rewrite Hqueue.
    eexists _, _. split; [done|]. split; [unfold put; by rewrite lookup_insert_eq|]. left. cbn.
    inversion Hk; subst. done.
  - rewrite (ring_spot _ _ _ _ H _ _ Hq Hne). unfold spot_of. cbn. rewrite decide_False by (by intros [_ ?]).
    unfold recv. rewrite Hqueue.
    assert (i32_range (v + 1)) as Hr by (inversion Hk; subst; unfold i32_range in *; lia).
    rewrite bool_decide_eq_true_2 by done.
    pose proof (ring_take _ _ _ _ _ _ _ H Hq Hne Hqueue) as Hring.
    eexists _, p. split; [done|]. unfold put. cbn [stdin queue printed].
    split; [by rewrite lookup_insert_ne|]. right. split; [done|].
    split; [by apply put_present|]. split; [by apply put_present|]. eexists. split; [exact Hring|].
    unfold distance. cbn. lia.
Qed.

Lemma token_step z s u p :
  ring b (Some u) z s → s !! 0%Z = Some p → is_Some (s !! 1%Z) → is_Some (s !! 2%Z) →
  i32_range (z + 1) → i32_range (z + 2) → taken_on z s p u.
Proof. destruct u as [i [] v]; intros; [by apply token_passed|by apply token_taken]. Qed.

(** And so in at most five turns the number is back. *)
Lemma token_returns z u : ∀ s p n, distance u ≤ n →
  ring b (Some u) z s → s !! 0%Z = Some p → is_Some (s !! 1%Z) → is_Some (s !! 2%Z) →
  i32_range (z + 1) → i32_range (z + 2) →
  ∃ turns s' p', length turns ≤ n + 1 ∧ run (Turn <$> turns) s = Next s' ∧ s' !! 0%Z = Some p' ∧
    printed p' = printed p ++ [Received (z + 2)].
Proof.
  intros s p n. revert u s p. induction n as [|n IH]; intros u s p Hd H Hp H1 H2 Hr1 Hr2;
    destruct (token_step z s u p H Hp H1 H2 Hr1 Hr2) as (s1 & p1 & E & Hp1 & [Hpr|(Hpr & H1' & H2' & u' & Hring & Hlt)]); try lia.
  - exists [holder u], s1, p1. split_and!; [cbn; lia| |done|done]. unfold run. cbn [fmap list_fmap run_labels]. by rewrite E.
  - exists [holder u], s1, p1. split_and!; [cbn; lia| |done|done]. unfold run. cbn [fmap list_fmap run_labels]. by rewrite E.
  - destruct (IH u' s1 p1) as (turns & s' & p' & Hl & Er & Hp' & Hpr'); try done; [lia|].
    exists (holder u :: turns), s', p'. split_and!; [cbn; lia| |done|by rewrite Hpr', Hpr].
    unfold run in *. cbn [fmap list_fmap run_labels]. by rewrite E.
Qed.

Lemma run_under_way es s : Forall (steady b) es → Forall lossless es → run es ∅ = Next s → waits s → under_way s.
Proof.
  intros He Hl E. assert (Forall (λ e, steady b e ∧ lossless e) es) as Hel by (by apply Forall_and).
  refine (proj2 (run_labels_on step (λ e, steady b e ∧ lossless e) (λ s, (∃ t z, ring b t z s) ∧ (waits s → under_way s))
    es ∅ s _ Hel _ E)).
  - intros e s1 s2 [Hs Hlo] [(t & z & H) Hw] Es. split; [by eapply step_ring|]. by eapply step_under_way.
  - split; [exists None, 0%Z; by constructor|]. by intros (p & Hp & _).
Qed.

End steps.

(** C39: As long as no receive of process 0 fails, in every order in which processes start,
    run and fail otherwise, there is at most one number under way in the ring, and process 0
    prints what became of its numbers in the order of its input: for each one but the last, that
    it could not be sent, or the number and then the number with two added.  The last one may
    still be under way: when no worker has failed to pass a number on and both have been started, it
    comes back with two added, if that is an int, in at most six turns. *)
Theorem ring_laps b es s p : Forall (steady b) es → run es ∅ = Next s → s !! 0%Z = Some p →
  (∃ zs pending, scans b (zs.*1 ++ pending) (stdin p) ∧ length pending ≤ 1 ∧
    printed p = talk zs ++ (if at_ p is Waits then Sent <$> pending else []) ∧
    (at_ p = Waits → length pending = 1)) ∧
  (∀ i j q r, s !! i = Some q → s !! j = Some r → carried q ≠ [] → carried r ≠ [] → i = j ∧ length (carried q) = 1) ∧
  (at_ p = Waits → Forall lossless es → is_Some (s !! 1%Z) → is_Some (s !! 2%Z) →
   ∃ z, last (printed p) = Some (Sent z) ∧ (i32_range (z + 1) → i32_range (z + 2) →
     ∃ turns s' p', length turns ≤ 6 ∧ run (Turn <$> turns) s = Next s' ∧ s' !! 0%Z = Some p' ∧
       printed p' = printed p ++ [Received (z + 2)])).
Proof.
  intros He E Hp. destruct (run_ring _ _ _ He E) as (t & z & H). split_and!.
  - destruct (ring_zero _ _ _ _ H _ Hp) as [zs Hi]. destruct (at_ p) as [|n| | | |n]; try done.
    + exists zs, []. rewrite !app_nil_r. by destruct Hi; split_and!; [|cbn; lia| |].
    + exists zs, [n]. rewrite app_nil_r. by destruct Hi; split_and!.
    + exists zs, [z]. by destruct Hi; split_and!.
    + exists zs, []. rewrite !app_nil_r. by destruct Hi; split_and!; [|cbn; lia| |].
  - intros i j q r Hi Hj Hq Hr. destruct (carried_holder _ _ _ _ _ _ H Hi Hq) as (u & Hu & <- & Hl).
    destruct (carried_holder _ _ _ _ _ _ H Hj Hr) as (v & Hv & <- & _). simplify_eq. by split.
  - intros Hw Hl H1 H2. exists z. destruct (ring_zero _ _ _ _ H _ Hp) as [zs Hi]. rewrite Hw in Hi.
    destruct Hi as [_ Hpr]. rewrite Hpr, last_snoc. split; [done|]. intros Hr1 Hr2.
    destruct (run_under_way b es s He Hl E) as (i & q & Hi & Hq); [by exists p|].
    destruct (carried_holder _ _ _ _ _ _ H Hi Hq) as (u & -> & _).
    rewrite <-Hpr. apply (token_returns b z u s p 5); try done. unfold distance. repeat case_decide; destruct (in_hand u); lia.
Qed.

(** *** Runs *)

Definition lap : list event := [Turn 0; Turn 0; Turn 1; Turn 1; Turn 2; Turn 2; Turn 0].
Definition all_start (b : bytes) : list event := [Enter 2 []; Enter 0 b; Enter 1 []].

Lemma ring_laps_witness : ∃ s p,
  run ([Enter 0 (lit "5 6 7"); Turn 0; Send_fails 0; Enter 2 []; Enter 1 []; Recv_fails 1] ++ lap) ∅ = Next s ∧
  s !! 0%Z = Some p ∧ printed p = [Failed; Sent 6; Received 8] ∧
  (∃ (zs : list (Z * bool)) pending, scans (lit "5 6 7") (zs.*1 ++ pending) (stdin p)).
Proof.
  set (es := [Enter 0 (lit "5 6 7"); Turn 0; Send_fails 0; Enter 2 []; Enter 1 []; Recv_fails 1] ++ lap).
  set (s := match run es ∅ with Next s => s | _ => ∅ end).
  set (p := default (mk_proc Takes [] [] []) (s !! 0%Z)).
  destruct (ring_laps (lit "5 6 7") es s p) as [(zs & pending & H & _) _].
  - repeat constructor; try discriminate; by intros ? [=].
  - vm_compute. reflexivity.
  - vm_compute. reflexivity.
  - exists s, p. split; [vm_compute; reflexivity|]. split; [vm_compute; reflexivity|].
    split; [vm_compute; reflexivity|]. by exists zs, pending.
Defined.

(** After a receive of process 0 that failed there are two numbers under way, and each
    that comes round is taken for the answer to the one after it. *)
Example receive_failed : ∃ s p,
  run ([Enter 0 (lit "10 20"); Enter 1 []; Enter 2 []; Turn 0; Turn 0; Recv_fails 0] ++ [Turn 0; Turn 0] ++
       [Turn 1; Turn 1; Turn 2; Turn 2; Turn 0]) ∅ = Next s ∧
  s !! 0%Z = Some p ∧ printed p = [Sent 10; Failed; Sent 20; Received 12].
Proof. eexists _, _. split; [vm_compute; reflexivity|]. by split. Qed.

(** A number that a worker cannot pass on is gone, and process 0 waits for ever. *)
Example number_lost : ∃ s,
  run [Enter 0 (lit "10"); Enter 1 []; Turn 0; Turn 0; Turn 1; Send_fails 1] ∅ = Next s ∧
  step (Turn 0) s = Blocked ∧ step (Turn 1) s = Blocked.
Proof. eexists. split; [vm_compute; reflexivity|]. by split. Qed.

(** The number after the largest is not defined. *)
Example ring_overflow :
  run [Enter 0 (lit "2147483647"); Enter 1 []; Turn 0; Turn 0; Turn 1] ∅ = Undefined SignedOverflow.
Proof. vm_compute. reflexivity. Qed.
