(* ===== verification/SharedMutex.v ===== *)
(** * The reader-writer mutex [shared_mutex] and the guard [shared_lock]

    Model of src/sysprog/afina/materials/09-advanced-synchronization/code/shared_mutex.h
    and shared_mutex.cpp: every member function as a program of atomic steps over the
    inner mutex [mut_], the word [state_] (bit 31: a writer has entered; bits 0-30: the
    number of readers) and the two condition variables, with threads that take the lock
    in any order; and the wrapper class [shared_lock] with its errors. *)

From S2P Require Import Prelude Concur.

(** ** The word [state_] *)

Definition write_entered_ : Z := wrap32 (Z.shiftl 1 (4 * 8 - 1)).
Definition n_readers_ : Z := wrap32 (Z.lnot write_entered_).

(** [state_ & write_entered_] and [state_ & n_readers_] *)
Definition has_writer (st : Z) : bool := negb (Z.land st write_entered_ =? 0)%Z.
Definition readers (st : Z) : Z := Z.land st n_readers_.
(** [state_ &= ~n_readers_; state_ |= num_readers;] *)
Definition set_readers (st num_readers : Z) : Z :=
  Z.lor (Z.land st (wrap32 (Z.lnot n_readers_))) num_readers.

(** ** The mutex *)

(** The members; a condition variable is the set of the threads that sleep on it. *)
Record shared_mutex : Type := mk_shared_mutex {
  mut_ : option nat;
  state_ : Z;
  gate1_ : gset nat;
  gate2_ : gset nat;
}.

(** [shared_mutex()] *)
Definition shared_mutex_new : shared_mutex := mk_shared_mutex None 0 ∅ ∅.

(** Where a thread is. *)
Inductive pc : Type :=
| Idle                       (* holds nothing *)
| Writing                    (* holds the lock exclusively *)
| Reading                    (* holds the lock shared *)
| lock_enter                 (* lock: before it has mut_ *)
| lock_gate1                 (* lock: at the first loop *)
| lock_wait1                 (* lock: in gate1_.wait *)
| lock_gate2                 (* lock: at the second loop *)
| lock_wait2                 (* lock: in gate2_.wait *)
| try_lock_enter
| try_lock_test
| unlock_enter
| unlock_body
| unlock_notify              (* unlock: mut_ released, before notify_all *)
| lock_shared_enter
| lock_shared_gate           (* lock_shared: at the loop *)
| lock_shared_wait           (* lock_shared: in gate1_.wait *)
| try_lock_shared_enter
| try_lock_shared_test (owns : bool)
| unlock_shared_enter
| unlock_shared_body.

Definition set_mut (m : option nat) (s : shared_mutex) : shared_mutex :=
  mk_shared_mutex m (state_ s) (gate1_ s) (gate2_ s).
Definition set_state (st : Z) (s : shared_mutex) : shared_mutex :=
  mk_shared_mutex (mut_ s) st (gate1_ s) (gate2_ s).
Definition set_gate1 (g : gset nat) (s : shared_mutex) : shared_mutex :=
  mk_shared_mutex (mut_ s) (state_ s) g (gate2_ s).
Definition set_gate2 (g : gset nat) (s : shared_mutex) : shared_mutex :=
  mk_shared_mutex (mut_ s) (state_ s) (gate1_ s) g.

(** Lock [mut_] and go on at [l]; no step while it is taken. *)
Definition acquire (i : nat) (l : pc) (s : shared_mutex) : list (pc * shared_mutex) :=
  if mutex_free (mut_ s) then [(l, set_mut (Some i) s)] else [].
(** The destructor of the [unique_lock]. *)
Definition release (s : shared_mutex) : shared_mutex := set_mut None s.
(** [gate_.wait(lk)]: release [mut_] and sleep ... *)
Definition wait1 (i : nat) (s : shared_mutex) : shared_mutex :=
  release (set_gate1 ({[i]} ∪ gate1_ s) s).
Definition wait2 (i : nat) (s : shared_mutex) : shared_mutex :=
  release (set_gate2 ({[i]} ∪ gate2_ s) s).
(** ... and, once woken, lock it again. *)
Definition awake (i : nat) (g : gset nat) (l : pc) (s : shared_mutex) : list (pc * shared_mutex) :=
  if bool_decide (i ∈ g) then [] else acquire i l s.

(** [(state_ & write_entered_) || (state_ & n_readers_) == n_readers_] *)
Definition shared_blocked (st : Z) : bool := has_writer st || (readers st =? n_readers_)%Z.

(** The body of [unlock_shared] under [mut_]. *)
Definition unlock_shared_step (s : shared_mutex) : list (pc * shared_mutex) :=
  let num_readers := wrap32 (readers (state_ s) - 1) in
  let s1 := set_state (set_readers (state_ s) num_readers) s in
  if has_writer (state_ s1) then
    if (num_readers =? 0)%Z then (λ g, (Idle, release (set_gate2 g s1))) <$> notify_one (gate2_ s1)
    else [(Idle, release s1)]
  else
    if (num_readers =? wrap32 (n_readers_ - 1))%Z
    then (λ g, (Idle, release (set_gate1 g s1))) <$> notify_one (gate1_ s1)
    else [(Idle, release s1)].

(** The atomic steps of a thread: it calls the locking functions in any order, and
    unlocks what it has locked.  [try_to_lock] may fail at any time. *)
Definition tstep (i : nat) (l : pc) (s : shared_mutex) : list (pc * shared_mutex) :=
  match l with
  | Idle => [(lock_enter, s); (try_lock_enter, s); (lock_shared_enter, s);
             (try_lock_shared_enter, s)]
  | Writing => [(unlock_enter, s)]
  | Reading => [(unlock_shared_enter, s)]
  | lock_enter => acquire i lock_gate1 s
  | lock_gate1 =>
      if has_writer (state_ s) then [(lock_wait1, wait1 i s)]
      else [(lock_gate2, set_state (Z.lor (state_ s) write_entered_) s)]
  | lock_wait1 => awake i (gate1_ s) lock_gate1 s
  | lock_gate2 =>
      if negb (readers (state_ s) =? 0)%Z then [(lock_wait2, wait2 i s)]
      else [(Writing, release s)]
  | lock_wait2 => awake i (gate2_ s) lock_gate2 s
  | try_lock_enter => (Idle, s) :: acquire i try_lock_test s
  | try_lock_test =>
      if (state_ s =? 0)%Z then [(Writing, release (set_state write_entered_ s))]
      else [(Idle, release s)]
  | unlock_enter => acquire i unlock_body s
  | unlock_body => [(unlock_notify, release (set_state 0 s))]
  | unlock_notify => [(Idle, set_gate1 ∅ s)]
  | lock_shared_enter => acquire i lock_shared_gate s
  | lock_shared_gate =>
      if shared_blocked (state_ s) then [(lock_shared_wait, wait1 i s)]
      else [(Reading,
             release (set_state (set_readers (state_ s) (wrap32 (readers (state_ s) + 1))) s))]
  | lock_shared_wait => awake i (gate1_ s) lock_shared_gate s
  | try_lock_shared_enter => (try_lock_shared_test false, s) :: acquire i (try_lock_shared_test true) s
  | try_lock_shared_test owns =>
      let num_readers := readers (state_ s) in
      if owns && negb (has_writer (state_ s)) && negb (num_readers =? n_readers_)%Z
      then [(Reading, release (set_state (set_readers (state_ s) (wrap32 (num_readers + 1))) s))]
      else [(Idle, if owns then release s else s)]
  | unlock_shared_enter => acquire i unlock_shared_body s
  | unlock_shared_body => unlock_shared_step s
  end.

(** A step of a thread, or a spurious wake-up of a sleeping one. *)
Inductive any_step : config shared_mutex pc → config shared_mutex pc → Prop :=
| any_thread c c' : step tstep c c' → any_step c c'
| any_spurious1 s ls i :
    any_step (mk_config s ls) (mk_config (set_gate1 (gate1_ s ∖ {[i]}) s) ls)
| any_spurious2 s ls i :
    any_step (mk_config s ls) (mk_config (set_gate2 (gate2_ s ∖ {[i]}) s) ls).

(** [n] threads that share a new mutex. *)
Definition start (n : nat) : config shared_mutex pc := mk_config shared_mutex_new (replicate n Idle).

(** *** Who is where *)

(** Holding [mut_]. *)
Definition inside (l : pc) : bool :=
  match l with
  | lock_gate1 | lock_gate2 | try_lock_test | unlock_body | lock_shared_gate
  | try_lock_shared_test true | unlock_shared_body => true
  | _ => false
  end.
(** Counted as a reader; entered as a writer; holding the lock exclusively. *)
Definition is_reader (l : pc) : bool :=
  match l with Reading | unlock_shared_enter | unlock_shared_body => true | _ => false end.
Definition owns_write (l : pc) : bool :=
  match l with Writing | unlock_enter | unlock_body => true | _ => false end.
Definition entered (l : pc) : bool :=
  match l with lock_gate2 | lock_wait2 => true | _ => owns_write l end.
(** About to call [notify_all]. *)
Definition notifying (l : pc) : bool := match l with unlock_notify => true | _ => false end.
(** Inside of a member function. *)
Definition in_call (l : pc) : bool :=
  match l with Idle | Writing | Reading => false | _ => true end.

(** The meaning of [state_]: a writer bit and a number of readers. *)
Definition word (w r : nat) : Z := (Z.of_nat w * 2 ^ 31 + Z.of_nat r)%Z.

(** The invariant of the mutex. *)
Record ok (c : config shared_mutex pc) : Prop := mk_ok {
  ok_mut : owned_by inside (mut_ (shared c)) (threads c);
  ok_state : state_ (shared c) = word (count entered (threads c)) (count is_reader (threads c));
  ok_writer : count entered (threads c) ≤ 1;
  ok_readers : (Z.of_nat (count is_reader (threads c)) ≤ n_readers_)%Z;
  ok_excl : 0 < count owns_write (threads c) → count is_reader (threads c) = 0;
  ok_gate2 : ∀ i, i ∈ gate2_ (shared c) →
    threads c !! i = Some lock_wait2 ∧ 0 < count is_reader (threads c);
  ok_gate1 : ∀ i, i ∈ gate1_ (shared c) →
    0 < count entered (threads c) ∨ 0 < count notifying (threads c) ∨
    (n_readers_ ≤ Z.of_nat (length (threads c)))%Z;
}.

(** ** Arithmetic of the word *)

Lemma n_readers_ones : n_readers_ = Z.ones 31.
Proof. reflexivity. Qed.

Lemma write_entered_pow : write_entered_ = (2 ^ 31)%Z.
Proof. reflexivity. Qed.

Lemma reader_bits r : (Z.of_nat r ≤ n_readers_)%Z → Z.land (Z.of_nat r) n_readers_ = Z.of_nat r.
Proof.
  rewrite n_readers_ones. intros H. rewrite Z.land_ones by lia. apply Z.mod_small.
  change (Z.ones 31) with (2 ^ 31 - 1)%Z in H. lia.
Qed.

Lemma reader_writer_bits r : (Z.of_nat r ≤ n_readers_)%Z → Z.land (Z.of_nat r) write_entered_ = 0%Z.
Proof.
  intros H. rewrite <-reader_bits by done. rewrite <-Z.land_assoc.
  change (Z.land n_readers_ write_entered_) with 0%Z. apply Z.land_0_r.
Qed.

Lemma word_lor w r :
  w ≤ 1 → (Z.of_nat r ≤ n_readers_)%Z →
  word w r = Z.lor (if decide (w = 0) then 0 else write_entered_) (Z.of_nat r).
Proof.
  intros Hw Hr. unfold word. rewrite <-Z.lxor_lor, <-Z.add_nocarry_lxor.
  - case_decide; rewrite ?write_entered_pow; nia.
  - case_decide; [apply Z.land_0_l|]. rewrite Z.land_comm. by apply reader_writer_bits.
  - case_decide; [apply Z.land_0_l|]. rewrite Z.land_comm. by apply reader_writer_bits.
Qed.

Section word_facts.
Context (w r : nat) (Hw : w ≤ 1) (Hr : (Z.of_nat r ≤ n_readers_)%Z).

Lemma word_readers : readers (word w r) = Z.of_nat r.
Proof.
  unfold readers. rewrite word_lor, Z.land_lor_distr_l, reader_bits by done.
  by case_decide.
Qed.

Lemma word_writer : has_writer (word w r) = negb (w =? 0)%nat.
Proof.
  unfold has_writer. rewrite word_lor, Z.land_lor_distr_l, reader_writer_bits by done.
  case_decide as E; [by subst|]. by destruct w.
Qed.

Lemma word_enter : w = 0 → Z.lor (word w r) write_entered_ = word 1 r.
Proof. intros ->. rewrite !word_lor by (done || lia). simpl. apply Z.lor_comm. Qed.

Lemma word_set_readers n :
  (Z.of_nat n ≤ n_readers_)%Z → set_readers (word w r) (Z.of_nat n) = word w n.
Proof.
  intros Hn. unfold set_readers.
  change (wrap32 (Z.lnot n_readers_)) with write_entered_.
  rewrite !word_lor, Z.land_lor_distr_l, reader_writer_bits, Z.lor_0_r by done.
  by case_decide.
Qed.

Lemma word_zero : (word w r =? 0)%Z = (w =? 0)%nat && (r =? 0)%nat.
Proof.
  apply eq_true_iff_eq. rewrite Z.eqb_eq, andb_true_iff, !Nat.eqb_eq. unfold word. clear.
  change (2 ^ 31)%Z with 2147483648%Z. split; intros; lia.
Qed.

Lemma word_next n : n = r + 1 → (Z.of_nat n ≤ n_readers_)%Z →
  set_readers (word w r) (wrap32 (Z.of_nat r + 1)) = word w n.
Proof.
  intros -> Hn. rewrite wrap_small.
  - replace (Z.of_nat r + 1)%Z with (Z.of_nat (r + 1)) by lia. by apply word_set_readers.
  - change n_readers_ with (2 ^ 31 - 1)%Z in Hn. lia.
Qed.

Lemma word_prev n : r = n + 1 →
  wrap32 (Z.of_nat r - 1) = Z.of_nat n ∧ set_readers (word w r) (Z.of_nat n) = word w n.
Proof.
  intros E. rewrite word_set_readers by lia. split; [|done].
  rewrite wrap_small; [lia|]. change n_readers_ with (2 ^ 31 - 1)%Z in Hr. lia.
Qed.

End word_facts.

#[global] Opaque n_readers_ write_entered_.
(** ** The invariant *)

Lemma rw_start_ok n : ok (start n).
Proof.
  unfold start, shared_mutex_new. split; cbn; rewrite ?count_replicate; try done; try set_solver; try lia.
  intros i. split; [done|]. by intros (l & [-> _]%lookup_replicate & ?).
Qed.

Section step_facts.
Context (s : shared_mutex) (ls : list pc) (Hok : ok (mk_config s ls)).

Lemma owns_entered : count owns_write ls ≤ count entered ls.
Proof.
  clear. induction ls as [|l ls' IH]; simpl; [lia|]. destruct l; simpl; lia.
Qed.

(** Only the writer that has entered sleeps on [gate2_]. *)
Lemma gate2_one i j : i ∈ gate2_ s → j ∈ gate2_ s → i = j.
Proof.
  intros [Hi _]%(ok_gate2 _ Hok) [Hj _]%(ok_gate2 _ Hok). cbn in *.
  destruct (decide (i = j)); [done|].
  pose proof (count_two entered _ _ _ _ _ n Hi Hj eq_refl eq_refl).
  pose proof (ok_writer _ Hok). cbn in *. lia.
Qed.

Lemma state_writer : has_writer (state_ s) = negb (count entered ls =? 0)%nat.
Proof.
  pose proof (ok_state _ Hok) as E. cbn in E. rewrite E. apply word_writer; apply Hok.
Qed.

Lemma state_readers : readers (state_ s) = Z.of_nat (count is_reader ls).
Proof.
  pose proof (ok_state _ Hok) as E. cbn in E. rewrite E. apply word_readers; apply Hok.
Qed.

End step_facts.


(** What a step has to establish. *)
Lemma rw_step_ok_intro s ls i l l' s' :
  ok (mk_config s ls) → ls !! i = Some l →
  (mut_ s' = (if eqb (inside l') (inside l) then mut_ s else if inside l' then Some i else None) ∧
    (inside l' = true → inside l = false → mut_ s = None)) →
  state_ s' = word (count entered (<[i:=l']> ls)) (count is_reader (<[i:=l']> ls)) →
  count entered (<[i:=l']> ls) ≤ 1 →
  (Z.of_nat (count is_reader (<[i:=l']> ls)) ≤ n_readers_)%Z →
  (0 < count owns_write (<[i:=l']> ls) → count is_reader (<[i:=l']> ls) = 0) →
  (∀ j, j ∈ gate2_ s' → (j = i ∧ l' = lock_wait2 ∨ j ∈ gate2_ s ∧ (l = lock_wait2 → j ≠ i)) ∧
    0 < count is_reader (<[i:=l']> ls)) →
  (∀ j, j ∈ gate1_ s' → 0 < count entered (<[i:=l']> ls) ∨ 0 < count notifying (<[i:=l']> ls) ∨
    (n_readers_ ≤ Z.of_nat (length ls))%Z) →
  ok (mk_config s' (<[i:=l']> ls)).
Proof.
  intros Hok Hl [Hm1 Hm2] Hs He Hr Hx H2 H1. split; try done; cbn.
  - eapply (owner_step inside); [apply (ok_mut _ Hok)|..]; eauto.
  - intros j Hj. destruct (H2 j Hj) as [[[-> ->]|[Hin Hne]] Hpos]; (split; [|done]).
    + by rewrite list_lookup_insert_eq by (by eapply lookup_lt_Some).
    + destruct (ok_gate2 _ Hok j Hin) as [Hj2 _]. cbn in Hj2.
      rewrite list_lookup_insert_ne; [done|]. intros ->. apply Hne; [congruence|done].
  - intros j Hj. rewrite length_insert. eauto.
Qed.
(** A thread becomes a reader. *)
Lemma reader_ok s ls i l :
  ok (mk_config s ls) → ls !! i = Some l →
  inside l = true → is_reader l = false → entered l = false → notifying l = false →
  has_writer (state_ s) = false → (readers (state_ s) =? n_readers_)%Z = false →
  ok (mk_config (release (set_state (set_readers (state_ s) (wrap32 (readers (state_ s) + 1))) s))
    (<[i:=Reading]> ls)).
Proof.
  intros Hok Hl Hi Hlr Hle Hln E E'.
  pose proof (count_insert entered ls i l Reading Hl) as He.
  pose proof (count_insert is_reader ls i l Reading Hl) as Hr.
  pose proof (count_insert owns_write ls i l Reading Hl) as Ho.
  pose proof (count_insert notifying ls i l Reading Hl) as Hn.
  rewrite Hle in He. rewrite Hlr in Hr. rewrite Hln in Hn.
  assert (owns_write l = false) as Hlo by (by destruct l). rewrite Hlo in Ho.
  pose proof (owns_entered ls). pose proof (ok_readers _ Hok) as Hm. pose proof (ok_state _ Hok) as Hst.
  rewrite (state_writer _ _ Hok) in E. rewrite (state_readers _ _ Hok) in E' |- *. cbn in *.
  apply negb_false_iff, Nat.eqb_eq in E. apply Z.eqb_neq in E'. rewrite E in *.
  apply (rw_step_ok_intro s ls i l _ _ Hok Hl); cbn; rewrite ?Hi; try (by split); auto; try lia.
  - rewrite Hst. replace (count entered (<[i:=Reading]> ls)) with 0 by lia.
    apply word_next; lia.
  - intros j Hj. destruct (ok_gate2 _ Hok j Hj) as [Hj2 _]. split; [|lia].
    right. split; [done|]. by intros ->.
  - intros j Hj. pose proof (ok_gate1 _ Hok j Hj) as H1. cbn in H1. lia.
Qed.

(** A reader leaves. *)
Lemma unlock_shared_ok s ls i l' s' :
  ok (mk_config s ls) → ls !! i = Some unlock_shared_body →
  (l', s') ∈ unlock_shared_step s → ok (mk_config s' (<[i:=l']> ls)).
Proof.
  intros Hok Hl Hs.
  assert (0 < count is_reader ls) as Hpos by (by eapply count_pos).
  pose proof (owns_entered ls) as Hoe. pose proof (ok_writer _ Hok) as Hw.
  pose proof (ok_readers _ Hok) as Hm. pose proof (ok_state _ Hok) as Hst.
  pose proof (ok_excl _ Hok) as Hx. pose proof (ok_gate1 _ Hok) as H1. cbn in Hw, Hm, Hst, Hx, H1.
  destruct (word_prev (count entered ls) (count is_reader ls) Hw Hm (count is_reader ls - 1))
    as [Hnum Hset]; [lia|].
  unfold unlock_shared_step in Hs. rewrite (state_readers _ _ Hok), Hnum in Hs. cbn in Hs.
  rewrite Hst, Hset in Hs.
  rewrite word_writer in Hs by lia.
  assert (l' = Idle ∧ ∃ g1 g2, g1 ⊆ gate1_ s ∧ g2 ⊆ gate2_ s ∧
    (1 < count is_reader ls ∨ g2 = ∅ ∨ count entered ls = 0) ∧
    s' = mk_shared_mutex None (word (count entered ls) (count is_reader ls - 1)) g1 g2) as
    (-> & g1 & g2 & Hg1 & Hg2 & Hlast & ->).
  { destruct (count entered ls =? 0)%nat eqn:E0; cbn [negb] in Hs.
    - apply Nat.eqb_eq in E0.
      destruct (_ =? _)%Z; [|outcomes Hs; split; [done|]; eexists _, _; split_and!; [..|done]; auto].
      apply list_elem_of_fmap in Hs as (g & ? & Hg); simplify_eq. split; [done|].
      eexists g, _. split_and!; [|done|by auto|done].
      apply notify_one_spec in Hg as [[-> ->]|(j & _ & ->)]; set_solver.
    - destruct (_ =? 0)%Z eqn:E1.
      + apply list_elem_of_fmap in Hs as (g & ? & Hg); simplify_eq. split; [done|].
        eexists _, g. apply notify_one_spec in Hg. split_and!; [done| | |done].
        * destruct Hg as [[-> ->]|(j & _ & ->)]; set_solver.
        * right. left. destruct Hg as [[_ ->]|(j & Hj & ->)]; [done|].
          apply set_eq. intros k. split; [|set_solver].
          intros [Hk Hne]%elem_of_difference. pose proof (gate2_one _ _ Hok j k Hj Hk). set_solver.
      + apply Z.eqb_neq in E1. outcomes Hs. split; [done|].
        eexists _, _; split_and!; [..|done]; auto. lia. }
  pose proof (count_insert entered ls i _ Idle Hl) as He.
  pose proof (count_insert is_reader ls i _ Idle Hl) as Hr.
  pose proof (count_insert owns_write ls i _ Idle Hl) as Ho.
  pose proof (count_insert notifying ls i _ Idle Hl) as Hn. cbn in He, Hr, Ho, Hn.
  apply (rw_step_ok_intro s ls i _ _ _ Hok Hl); cbn; try (by split); try lia.
  - f_equal; lia.
  - intros j Hj. assert (j ∈ gate2_ s) as Hj2 by set_solver.
    destruct (ok_gate2 _ Hok j Hj2) as [Hlj _]. cbn in Hlj.
    pose proof (count_pos entered _ _ _ Hlj eq_refl).
    split; [right; by split|]. destruct Hlast as [?|[->| ?]]; [lia|set_solver|lia].
  - intros j Hj. assert (j ∈ gate1_ s) as Hj1 by set_solver. specialize (H1 j Hj1). lia.
Qed.

Lemma mutex_free_none m : mutex_free m = true → m = None.
Proof. by destruct m. Qed.

Lemma rw_step_ok s ls i l l' s' :
  ok (mk_config s ls) → ls !! i = Some l → (l', s') ∈ tstep i l s →
  ok (mk_config s' (<[i:=l']> ls)).
Proof.
  intros Hok Hl Hs.
  pose proof (count_insert entered ls i l l' Hl) as He.
  pose proof (count_insert is_reader ls i l l' Hl) as Hr.
  pose proof (count_insert owns_write ls i l l' Hl) as Ho.
  pose proof (count_insert notifying ls i l l' Hl) as Hn.
  pose proof (owns_entered ls) as Hoe.
  pose proof (ok_writer _ Hok) as Hw. pose proof (ok_readers _ Hok) as Hm.
  pose proof (ok_excl _ Hok) as Hx. pose proof (ok_state _ Hok) as Hst.
  pose proof (λ j H, proj2 (ok_gate2 _ Hok j H)) as H2. pose proof (ok_gate1 _ Hok) as H1.
  pose proof (state_writer _ _ Hok) as Hsw. pose proof (state_readers _ _ Hok) as Hsr.
  cbn in Hw, Hm, Hx, Hst, H2, H1.
  destruct l; cbn [tstep] in Hs; unfold awake, acquire in Hs; outcomes Hs; cbn in He, Hr, Ho, Hn; rewrite ?Nat.add_0_r in *.
  all: repeat match goal with
    | H : mutex_free _ = true |- _ => apply mutex_free_none in H
    | H : bool_decide _ = false |- _ => apply bool_decide_eq_false in H
    end.
  all: try (by apply (rw_step_ok_intro s ls i _ _ _ Hok Hl); cbn;
    [by auto|rewrite Hst; f_equal; lia|lia|lia|lia
    |intros j Hj; specialize (H2 j Hj); (split; [right; split; [done|congruence]|lia])
    |intros j Hj; specialize (H1 j Hj); lia]).
  - (* lock sleeps on gate1_ *)
    apply (rw_step_ok_intro s ls i _ _ _ Hok Hl); cbn; rewrite ?He, ?Hr; try (by split); auto; [lia| |].
    + intros j Hj. specialize (H2 j Hj). split; [right; split; [done|congruence]|lia].
    + intros j _. left. destruct (count entered ls); [done|lia].
  - (* lock enters *)
    assert (count entered ls = 0) as E0 by (destruct (count entered ls); done).
    rewrite E0 in *.
    apply (rw_step_ok_intro s ls i _ _ _ Hok Hl); cbn; rewrite ?He, ?Hr; try (by split); auto; try lia.
    + rewrite Hst. apply word_enter; auto.
    + intros j Hj. specialize (H2 j Hj). split; [right; split; [done|congruence]|lia].
  - (* lock sleeps on gate2_ *)
    apply negb_true_iff, Z.eqb_neq in Heqb.
    apply (rw_step_ok_intro s ls i _ _ _ Hok Hl); cbn; try (by split); auto; try lia.
    + rewrite Hst. f_equal; lia.
    + intros j Hj. split; [|lia]. apply elem_of_union in Hj as [->%elem_of_singleton|]; [by left|].
      right. split; [done|congruence].
    + intros j Hj. specialize (H1 j Hj). lia.
  - (* try_lock succeeds *)
    rewrite Hst, word_zero in Heqb by lia. apply andb_true_iff in Heqb as [E0 E1].
    apply Nat.eqb_eq in E0, E1. rewrite E0, E1 in *.
    apply (rw_step_ok_intro s ls i _ _ _ Hok Hl); cbn; rewrite ?He, ?Hr; try (by split); auto; try lia.
    intros j Hj. specialize (H2 j Hj). lia.
  - (* unlock *)
    assert (0 < count owns_write ls) as Hpos by (by eapply count_pos).
    assert (count entered ls = 1) as E1 by lia. rewrite E1, (Hx Hpos) in *.
    apply (rw_step_ok_intro s ls i _ _ _ Hok Hl); cbn; rewrite ?Hr; try (by split); auto; try lia.
    + replace (count entered (<[i:=unlock_notify]> ls)) with 0 by lia. done.
    + intros j Hj. specialize (H2 j Hj). lia.
  - (* notify_all *)
    apply (rw_step_ok_intro s ls i _ _ _ Hok Hl); cbn; rewrite ?He, ?Hr; try (by split); auto; try lia.
    + intros j Hj. specialize (H2 j Hj). split; [right; split; [done|congruence]|lia].
    + intros j Hj. set_solver.
  - (* lock_shared sleeps *)
    apply (rw_step_ok_intro s ls i _ _ _ Hok Hl); cbn; rewrite ?He, ?Hr; try (by split); auto; [lia| |].
    + intros j Hj. specialize (H2 j Hj). split; [right; split; [done|congruence]|lia].
    + intros j _. unfold shared_blocked in Heqb. rewrite Hsw, Hsr in Heqb.
      pose proof (count_le is_reader ls).
      apply orb_true_iff in Heqb as [E|E%Z.eqb_eq]; [|lia].
      left. destruct (count entered ls); [done|lia].
  - (* lock_shared *)
    unfold shared_blocked in Heqb. apply orb_false_iff in Heqb as [E E'].
    by apply (reader_ok s ls i lock_shared_gate).
  - (* try_lock_shared succeeds *)
    apply andb_true_iff in Heqb as [[-> E%negb_true_iff]%andb_true_iff E'%negb_true_iff].
    by apply (reader_ok s ls i (try_lock_shared_test true)).
  - (* try_lock_shared fails *)
    destruct owns; (apply (rw_step_ok_intro s ls i _ _ _ Hok Hl); cbn; rewrite ?He, ?Hr, ?Ho, ?Hn;
      try (by split); auto);
    intros j Hj; specialize (H2 j Hj); (split; [right; split; [done|congruence]|lia]).
  - by eapply unlock_shared_ok.
Qed.

Lemma any_step_ok c c' : ok c → any_step c c' → ok c'.
Proof.
  intros Hok Hs. inversion Hs as [? ? H|s ls i|s ls i]; subst.
  - inversion H; subst. by eapply rw_step_ok.
  - destruct Hok. split; try done. cbn in *. set_solver.
  - destruct Hok. split; try done. cbn in *. set_solver.
Qed.

Lemma rw_reached_ok n c : star any_step (start n) c → ok c.
Proof. apply (star_invariant any_step ok); [apply any_step_ok|apply rw_start_ok]. Qed.

Lemma reached_length n c : star any_step (start n) c → length (threads c) = n.
Proof.
  apply (star_invariant any_step (λ c, length (threads c) = n)).
  - intros x y Hx Hs. inversion Hs as [? ? H|s ls i|s ls i]; subst; try done.
    inversion H; subst. cbn. by rewrite length_insert.
  - cbn. apply length_replicate.
Qed.

(** ** Exclusion *)

(** C25: at every moment of every run of any number of threads that lock, try to lock
    and unlock in any order, with spurious wake-ups: while one thread holds the lock
    exclusively no other thread holds it in either way, and [state_] counts the
    shared holders exactly, without carry into the writer's bit. *)
Theorem shared_mutex_exclusion n c :
  star any_step (start n) c →
  (∀ i j l, threads c !! i = Some Writing → threads c !! j = Some l → i ≠ j →
    owns_write l = false ∧ is_reader l = false) ∧
  readers (state_ (shared c)) = Z.of_nat (count is_reader (threads c)) ∧
  has_writer (state_ (shared c)) = negb (count entered (threads c) =? 0)%nat.
Proof.
  intros Hr%rw_reached_ok. destruct c as [s ls]. split_and!.
  - cbn. intros i j l Hi Hj Hne.
    pose proof (count_pos owns_write _ _ _ Hi eq_refl) as Ho. pose proof (ok_excl _ Hr Ho) as Hx.
    pose proof (owns_entered ls). pose proof (ok_writer _ Hr) as Hw. cbn in Hx, Hw. split.
    + destruct (owns_write l) eqn:E; [|done].
      pose proof (count_two owns_write _ _ _ _ _ Hne Hi Hj eq_refl E). lia.
    + destruct (is_reader l) eqn:E; [|done].
      pose proof (count_pos is_reader _ _ _ Hj E). lia.
  - by apply state_readers.
  - by apply state_writer.
Qed.

(** The schedule of one thread that takes the lock exclusively. *)
Definition write_schedule (i : nat) : list (nat * nat) := [(i, 0); (i, 0); (i, 0); (i, 0)].

Lemma step_any c c' : star (step tstep) c c' → star any_step c c'.
Proof. induction 1; econstructor; eauto. by constructor. Qed.

Lemma rw_schedule_any xs c c' : run_schedule tstep xs c = Some c' → star any_step c c'.
Proof. intros H. eapply step_any, run_schedule_reachable, H. Qed.

Lemma shared_mutex_exclusion_witness :
  ∃ c, star any_step (start 3) c ∧ threads c !! 1 = Some Writing ∧
    (∀ i j l, threads c !! i = Some Writing → threads c !! j = Some l → i ≠ j →
      owns_write l = false ∧ is_reader l = false).
Proof.
  destruct (run_schedule tstep (write_schedule 1) (start 3)) as [c|] eqn:E; [|by vm_compute in E].
  exists c. assert (star any_step (start 3) c) as H by (by eapply rw_schedule_any).
  split; [done|]. split; [vm_compute in E; by simplify_eq|].
  apply (shared_mutex_exclusion 3 c H).
Defined.

(** ** Progress *)

(** A thread that can take a step. *)
Definition can_step (c : config shared_mutex pc) (i : nat) : Prop :=
  ∃ l, threads c !! i = Some l ∧ in_call l = true ∧ tstep i l (shared c) ≠ [].

Lemma acquire_some i l s : mut_ s = None → acquire i l s ≠ [].
Proof. intros H. unfold acquire. by rewrite H. Qed.

Lemma awake_some i g l s : mut_ s = None → i ∉ g → awake i g l s ≠ [].
Proof. intros Hm Hi. unfold awake. rewrite bool_decide_eq_false_2 by done. by apply acquire_some. Qed.

Lemma inside_can_step i l s : inside l = true → tstep i l s ≠ [].
Proof.
  intros Hi. destruct l; simplify_eq/=; repeat case_match; try done.
  unfold unlock_shared_step. repeat case_match; try done; cbn;
    intros E%fmap_nil_inv; by apply notify_one_nonempty in E.
Qed.

(** Fewer threads than the reader count holds never all wait for each other: in
    every reachable state in which no thread holds the lock, if some thread is inside
    of a member function then one that is can go on without a spurious wake-up.  In
    particular no notification is lost. *)
Theorem shared_mutex_progress n c :
  star any_step (start n) c → (Z.of_nat n < n_readers_)%Z →
  (∀ i l, threads c !! i = Some l → l ≠ Writing ∧ l ≠ Reading) →
  (∃ i l, threads c !! i = Some l ∧ in_call l = true) →
  ∃ i, can_step c i.
Proof.
  intros Hr Hn Hfree (i & l & Hl & Hc). pose proof (reached_length _ _ Hr) as Hlen.
  apply rw_reached_ok in Hr. destruct c as [s ls]. cbn in *.
  destruct (mut_ s) as [j|] eqn:Em.
  { apply (ok_mut _ Hr j) in Em as (lj & Hj & Hi). exists j, lj. split_and!; [done|by destruct lj|].
    by apply inside_can_step. }
  assert (∀ j lj, ls !! j = Some lj → inside lj = false) as Hout.
  { intros j lj Hj. destruct (inside lj) eqn:E; [|done].
    assert (mut_ s = Some j) by (apply (ok_mut _ Hr); eauto). congruence. }
  assert (∀ j lj, ls !! j = Some lj → is_reader lj = true → ∃ i, can_step (mk_config s ls) i) as Hrd.
  { intros j lj Hj E. exists j, lj. split; [done|].
    destruct lj; simplify_eq/=; [by destruct (Hfree j _ Hj)| |by specialize (Hout _ _ Hj)].
    split; [done|]. by apply acquire_some. }
  assert (∀ j lj, ls !! j = Some lj → entered lj = true → ∃ i, can_step (mk_config s ls) i) as Hwr.
  { intros j lj Hj E. destruct lj; simplify_eq/=; try by specialize (Hout _ _ Hj).
    - by destruct (Hfree j _ Hj).
    - destruct (decide (j ∈ gate2_ s)) as [Hg|Hg].
      + destruct (ok_gate2 _ Hr j Hg) as [_ (k & lk & Hk & Ek)%count_exists]. eauto.
      + exists j, lock_wait2. split_and!; [done..|]. by apply awake_some.
    - exists j, unlock_enter. split_and!; [done..|]. by apply acquire_some. }
  assert (∀ j, j ∈ gate1_ s → ∃ i, can_step (mk_config s ls) i) as Hg1.
  { intros j Hj. destruct (ok_gate1 _ Hr j Hj) as [H|[H|H]]; cbn in H; [| |lia].
    - apply count_exists in H as (k & lk & Hk & Ek). eauto.
    - apply count_exists in H as (k & lk & Hk & Ek). exists k, lk. by destruct lk. }
  destruct (decide (i ∈ gate1_ s)) as [Hg|Hg]; [by eapply Hg1|].
  destruct (entered l) eqn:Ee; [by eapply Hwr|].
  exists i, l. split_and!; [done..|].
  pose proof (Hout _ _ Hl). destruct l; simplify_eq/=; 
    first [done|by apply acquire_some|by apply awake_some|by destruct owns].
Qed.

Lemma shared_mutex_progress_witness :
  ∃ c, star any_step (start 2) c ∧ ∃ i, can_step c i.
Proof.
  destruct (run_schedule tstep [(0, 0)] (start 2)) as [c|] eqn:E; [|by vm_compute in E].
  exists c. assert (star any_step (start 2) c) as H by (by eapply rw_schedule_any).
  split; [done|]. apply (shared_mutex_progress 2 c H).
  - by vm_compute.
  - intros i l Hl. vm_compute in E. simplify_eq. destruct i as [|[|]]; simplify_eq/=; done.
  - exists 0, lock_enter. vm_compute in E. by simplify_eq.
Defined.
(** ** The guard [shared_lock] *)

(** What a mutex type promises to the guard: how often each mutex is held shared,
    and how the three functions change that. *)
Class SharedLockable (M : Type) := {
  lock_shared : nat → prog M unit;
  try_lock_shared : nat → prog M bool;
  unlock_shared : nat → prog M unit;
  shared_count : M → nat → nat;
}.

Definition one (b : bool) : nat := if b then 1 else 0.

Class SharedLockableLaws (M : Type) `{SharedLockable M} := {
  lock_shared_law m s :
    match lock_shared m s with
    | Ret _ s' => ∀ k, shared_count s' k = shared_count s k + one (bool_decide (m = k))
    | NoFuel => True
    | _ => False
    end;
  try_lock_shared_law m s :
    match try_lock_shared m s with
    | Ret b s' => ∀ k, shared_count s' k = shared_count s k + one (b && bool_decide (m = k))
    | NoFuel => True
    | _ => False
    end;
  unlock_shared_law m s : 0 < shared_count s m → ∃ s', unlock_shared m s = Ret tt s' ∧
    ∀ k, shared_count s k = shared_count s' k + one (bool_decide (m = k));
}.

(** The members of the guard: the mutex it refers to, and whether it holds it. *)
Record shared_lock : Type := mk_shared_lock { _M_pm : option nat; _M_owns : bool }.

#[export] Instance shared_lock_eq_dec : EqDecision shared_lock.
Proof. solve_decision. Defined.

(** [shared_lock()] *)
Definition shared_lock_new : shared_lock := mk_shared_lock None false.

(** The guards of a program, by name. *)
Abbreviation guards := (gmap nat shared_lock).

Section guard.
Context {M : Type} `{SharedLockable M}.

Definition _M_lockable (l : shared_lock) : prog M nat :=
  match _M_pm l with
  | None => throw "No lock"
  | Some m => if _M_owns l then throw "deadlock" else mret m
  end.

(** The constructors that take a mutex. *)
Definition guard_construct (m : nat) : prog M shared_lock :=
  _ ← lock_shared m; mret (mk_shared_lock (Some m) true).
Definition guard_defer (m : nat) : prog M shared_lock := mret (mk_shared_lock (Some m) false).
Definition guard_try (m : nat) : prog M shared_lock :=
  b ← try_lock_shared m; mret (mk_shared_lock (Some m) b).
Definition guard_adopt (m : nat) : prog M shared_lock := mret (mk_shared_lock (Some m) true).

(** [_M_pm->unlock_shared()] *)
Definition unlock_pm (l : shared_lock) : prog M unit := the NullDeref (_M_pm l) ≫= unlock_shared.

(** The destructor. *)
Definition guard_destroy (l : shared_lock) : prog M unit :=
  if _M_owns l then unlock_pm l else mret tt.

Definition guard_lock (l : shared_lock) : prog M shared_lock :=
  m ← _M_lockable l; _ ← lock_shared m; mret (mk_shared_lock (_M_pm l) true).
Definition guard_try_lock (l : shared_lock) : prog M shared_lock :=
  m ← _M_lockable l; b ← try_lock_shared m; mret (mk_shared_lock (_M_pm l) b).
Definition guard_unlock (l : shared_lock) : prog M shared_lock :=
  if negb (_M_owns l) then throw "Unlock not owned lock"
  else _ ← unlock_pm l; mret (mk_shared_lock (_M_pm l) false).

(** [__x.swap(__y)]: the two guards afterwards. *)
Definition guard_swap (x y : shared_lock) : shared_lock * shared_lock :=
  (mk_shared_lock (_M_pm y) (_M_owns y), mk_shared_lock (_M_pm x) (_M_owns x)).
(** The move constructor: the new guard, and what is left of the old one. *)
Definition guard_move (y : shared_lock) : shared_lock * shared_lock := guard_swap shared_lock_new y.
(** [x = std::move(y)]: both guards afterwards; the temporary is destroyed. *)
Definition guard_assign (x y : shared_lock) : prog M (shared_lock * shared_lock) :=
  let (tmp, y') := guard_move y in
  let (tmp', x') := guard_swap tmp x in
  _ ← guard_destroy tmp'; mret (x', y').
(** [release()]: the guard gives its mutex away without unlocking it. *)
Definition guard_release (l : shared_lock) : option nat * shared_lock :=
  (_M_pm l, shared_lock_new).

(** *** Programs over several guards *)

(** What a program does with guards that it names by numbers. *)
Inductive guard_op : Type :=
| Construct (x m : nat) | Defer (x m : nat) | TryTo (x m : nat)
| Lock (x : nat) | TryLock (x : nat) | Unlock (x : nat)
| Swap (x y : nat) | MoveTo (x y : nat) | Assign (x y : nat) | Destroy (x : nat).

(** A fresh guard under the name [x]; a name in use is not reused. *)
Definition declare (x : nat) (gs : guards) (p : prog M shared_lock) : prog M guards :=
  match gs !! x with Some _ => mret gs | None => l ← p; mret (<[x:=l]> gs) end.

(** A member function of the guard [x]. *)
Definition member (x : nat) (gs : guards) (f : shared_lock → prog M shared_lock) : prog M guards :=
  match gs !! x with None => mret gs | Some l => l' ← f l; mret (<[x:=l']> gs) end.

Definition guard_exec (o : guard_op) (gs : guards) : prog M guards :=
  match o with
  | Construct x m => declare x gs (guard_construct m)
  | Defer x m => declare x gs (guard_defer m)
  | TryTo x m => declare x gs (guard_try m)
  | Lock x => member x gs guard_lock
  | TryLock x => member x gs guard_try_lock
  | Unlock x => member x gs guard_unlock
  | Swap x y =>
      match gs !! x, gs !! y with
      | Some a, Some b =>
          let (a', b') := guard_swap a b in
          mret (if decide (x = y) then gs else <[x:=a']> (<[y:=b']> gs))
      | _, _ => mret gs
      end
  | MoveTo x y =>
      match gs !! x, gs !! y with
      | None, Some b => let (a, b') := guard_move b in mret (<[x:=a]> (<[y:=b']> gs))
      | _, _ => mret gs
      end
  | Assign x y =>
      match gs !! x, gs !! y with
      | Some a, Some b =>
          if decide (x = y) then mret gs
          else p ← guard_assign a b; mret (<[x:=p.1]> (<[y:=p.2]> gs))
      | _, _ => mret gs
      end
  | Destroy x =>
      match gs !! x with
      | Some l => _ ← guard_destroy l; mret (delete x gs)
      | None => mret gs
      end
  end.

(** A program; an operation that throws leaves the guards as they are, and the program
    catches the exception. *)
Definition guard_step (o : guard_op) (gs : guards) : prog M guards :=
  try_catch (guard_exec o gs) (λ _, mret gs).
Fixpoint guard_program (os : list guard_op) (gs : guards) : prog M guards :=
  match os with [] => mret gs | o :: os => guard_step o gs ≫= guard_program os end.

(** How many guards hold mutex [k]. *)
Definition holds (k : nat) (l : shared_lock) : bool := _M_owns l && bool_decide (_M_pm l = Some k).
Definition held (k : nat) (gs : guards) : nat := map_fold (λ _ l n, one (holds k l) + n) 0 gs.

End guard.
(** *** Counting the guards that hold a mutex *)

Lemma held_new k x l gs : gs !! x = None → held k (<[x:=l]> gs) = one (holds k l) + held k gs.
Proof. intros Hx. unfold held. rewrite map_fold_insert_L; [done|intros; lia|done]. Qed.

Lemma held_delete k x l gs : gs !! x = Some l → held k gs = one (holds k l) + held k (delete x gs).
Proof.
  intros Hx. rewrite <-(insert_delete_id gs x l Hx) at 1. apply held_new, lookup_delete_eq.
Qed.

Lemma held_update k x a b gs :
  gs !! x = Some a → held k (<[x:=b]> gs) + one (holds k a) = held k gs + one (holds k b).
Proof.
  intros Hx. rewrite (held_delete k x a gs) by done.
  rewrite (held_delete k x b (<[x:=b]> gs)) by apply lookup_insert_eq.
  rewrite delete_insert_eq. lia.
Qed.

(** Two guards of a program change together. *)
Lemma held_update_two k x y a b a' b' gs :
  x ≠ y → gs !! x = Some a → gs !! y = Some b →
  held k (<[x:=a']> (<[y:=b']> gs)) + one (holds k a) + one (holds k b) =
  held k gs + one (holds k a') + one (holds k b').
Proof.
  intros Hne Hx Hy. pose proof (held_update k y b b' gs Hy).
  pose proof (held_update k x a a' (<[y:=b']> gs)) as H1.
  rewrite lookup_insert_ne in H1 by done. specialize (H1 Hx). lia.
Qed.

Section guard_facts.
Context {M : Type} `{SharedLockableLaws M}.
Implicit Types (s : M) (gs : guards).

(** What a guard is worth, and that it is sound: it holds no null mutex. *)
Definition sound (l : shared_lock) : Prop := _M_owns l = true → is_Some (_M_pm l).

(** The state of the mutexes is what the guards say. *)
Definition balanced (gs : guards) s : Prop :=
  (∀ k, shared_count s k = held k gs) ∧ map_Forall (λ _, sound) gs.


(** What an operation on one guard does: the mutexes follow the guard, and an exception
    changes nothing. *)
Definition tracks (l : shared_lock) (p : prog M shared_lock) : Prop := ∀ s,
  sound l → (∀ k, holds k l = true → 0 < shared_count s k) →
  match p s with
  | Ret l' s' => sound l' ∧
      ∀ k, shared_count s' k + one (holds k l) = shared_count s k + one (holds k l')
  | Throw _ s' => s' = s
  | Undef _ => False
  | NoFuel => True
  end.

Lemma holds_some k m b : holds k (mk_shared_lock (Some m) b) = b && bool_decide (m = k).
Proof.
  unfold holds. cbn. f_equal. apply bool_decide_ext. split; congruence.
Qed.

Lemma not_owned k l : _M_owns l = false → holds k l = false.
Proof. unfold holds. by intros ->. Qed.

(** Locking through a guard that holds nothing. *)
Lemma tracks_construct l m : _M_owns l = false → tracks l (guard_construct m).
Proof.
  intros Ho s _ _. unfold guard_construct, mbind, prog_bind. pose proof (lock_shared_law m s) as Hl.
  destruct (lock_shared m s); try done. split; [by eexists|].
  intros k. rewrite holds_some, (not_owned k l Ho), Hl. cbn. lia.
Qed.

Lemma tracks_try l m : _M_owns l = false → tracks l (guard_try m).
Proof.
  intros Ho s _ _. unfold guard_try, mbind, prog_bind. pose proof (try_lock_shared_law m s) as Hl.
  destruct (try_lock_shared m s); try done. split; [by eexists|].
  intros k. rewrite holds_some, (not_owned k l Ho), Hl. cbn. lia.
Qed.

Lemma lockable_cases l :
  (∃ m, l = mk_shared_lock (Some m) false ∧ _M_lockable l = (mret m : prog M nat)) ∨
  ∃ e, _M_lockable l = (throw e : prog M nat).
Proof. destruct l as [[m|] []]; unfold _M_lockable; cbn; eauto. Qed.

Lemma tracks_lock l : tracks l (guard_lock l).
Proof.
  destruct (lockable_cases l) as [(m & -> & E)|(e & E)]; unfold guard_lock; rewrite E; [|done].
  by apply (tracks_construct (mk_shared_lock (Some m) false) m).
Qed.

Lemma tracks_try_lock l : tracks l (guard_try_lock l).
Proof.
  destruct (lockable_cases l) as [(m & -> & E)|(e & E)]; unfold guard_try_lock; rewrite E; [|done].
  by apply (tracks_try (mk_shared_lock (Some m) false) m).
Qed.

(** Unlocking the mutex of a guard that holds it. *)
Lemma unlock_pm_run l s :
  _M_owns l = true → sound l → (∀ k, holds k l = true → 0 < shared_count s k) →
  ∃ s', unlock_pm l s = Ret tt s' ∧ ∀ k, shared_count s k = shared_count s' k + one (holds k l).
Proof.
  intros Ho Hs Hk. destruct (Hs Ho) as [m Em]. destruct l as [pm b]. cbn in *. subst.
  destruct (unlock_shared_law m s) as (s' & E & Hc).
  { apply Hk. rewrite holds_some. by apply bool_decide_eq_true. }
  exists s'. split; [done|]. intros k. rewrite holds_some. apply Hc.
Qed.

Lemma tracks_unlock l : tracks l (guard_unlock l).
Proof.
  intros s Hs Hk. unfold guard_unlock. destruct (_M_owns l) eqn:Ho; [|done]. cbn.
  destruct (unlock_pm_run l s Ho Hs Hk) as (s' & E & Hc). rewrite (bind_ret _ _ _ _ _ E). cbn.
  split; [done|]. intros k. rewrite Hc. cbn. lia.
Qed.

Lemma guard_destroy_run l s :
  sound l → (∀ k, holds k l = true → 0 < shared_count s k) →
  ∃ s', guard_destroy l s = Ret tt s' ∧ ∀ k, shared_count s k = shared_count s' k + one (holds k l).
Proof.
  intros Hs Hk. unfold guard_destroy. destruct (_M_owns l) eqn:Ho; [by apply unlock_pm_run|].
  exists s. split; [done|]. intros k. rewrite not_owned by done. cbn. lia.
Qed.

(** *** Operations on several guards *)

Lemma balanced_count gs s x l k :
  balanced gs s → gs !! x = Some l → holds k l = true → 0 < shared_count s k.
Proof. intros [Hc _] Hx Hk. rewrite Hc, (held_delete k x l gs Hx), Hk. cbn. lia. Qed.

(** The outcome of an operation keeps the balance. *)
Definition keeps (gs : guards) s (r : res M guards) : Prop :=
  match r with
  | Ret gs' s' => balanced gs' s'
  | Throw _ s' => s' = s
  | Undef _ => False
  | NoFuel => True
  end.

Lemma member_keeps x gs s f :
  (∀ l, tracks l (f l)) → balanced gs s → keeps gs s (member x gs f s).
Proof.
  intros Hf Hb. unfold member. destruct (gs !! x) as [l|] eqn:Hx; [|done].
  pose proof (Hf l s (map_Forall_lookup_1 _ _ _ _ (proj2 Hb) Hx)
    (λ k, balanced_count _ _ _ _ k Hb Hx)) as Ht.
  unfold mbind, prog_bind. destruct (f l s) as [l' s'| | |]; try done. cbn.
  destruct Ht as [Hs Ht]. split; [|by apply map_Forall_insert_2, Hb].
  intros k. specialize (Ht k). pose proof (held_update k x l l' gs Hx). rewrite (proj1 Hb) in Ht. lia.
Qed.

Lemma declare_keeps x gs s p :
  tracks shared_lock_new p → balanced gs s → keeps gs s (declare x gs p s).
Proof.
  intros Hp Hb. unfold declare. destruct (gs !! x) as [l|] eqn:Hx; [done|].
  assert (sound shared_lock_new) as Hn by done.
  assert (∀ k, holds k shared_lock_new = true → 0 < shared_count s k) as Hk by done.
  pose proof (Hp s Hn Hk) as Ht.
  unfold mbind, prog_bind. destruct (p s) as [l' s'| | |]; try done. cbn.
  destruct Ht as [Hs Ht]. split; [|by apply map_Forall_insert_2, Hb].
  intros k. specialize (Ht k). rewrite (held_new k x l' gs Hx).
  rewrite not_owned in Ht by done. rewrite (proj1 Hb) in Ht. cbn in Ht. lia.
Qed.

Lemma exec_keeps o gs s : balanced gs s → keeps gs s (guard_exec o gs s).
Proof.
  intros Hb. destruct o as [x m|x m|x m|x|x|x|x y|x y|x y|x]; cbn [guard_exec].
  - apply declare_keeps; [by apply tracks_construct|done].
  - apply declare_keeps; [|done]. intros s' _ _. cbn. split; [done|]. intros k. cbn. lia.
  - apply declare_keeps; [by apply tracks_try|done].
  - apply member_keeps; [apply tracks_lock|done].
  - apply member_keeps; [apply tracks_try_lock|done].
  - apply member_keeps; [apply tracks_unlock|done].
  - destruct (gs !! x) as [a|] eqn:Hx; [|done]. destruct (gs !! y) as [b|] eqn:Hy; [|done].
    cbn. destruct (decide (x = y)) as [|Hne]; [done|]. split.
    + intros k. pose proof (held_update_two k x y a b b a gs Hne Hx Hy). rewrite (proj1 Hb).
      destruct a, b. cbn in *. lia.
    + apply map_Forall_insert_2; [|apply map_Forall_insert_2; [|apply Hb]];
        [apply (map_Forall_lookup_1 _ _ _ _ (proj2 Hb) Hy)
        |apply (map_Forall_lookup_1 _ _ _ _ (proj2 Hb) Hx)].
  - destruct (gs !! x) as [a|] eqn:Hx; [done|]. destruct (gs !! y) as [b|] eqn:Hy; [|done].
    assert (x ≠ y) as Hne by (intros ->; congruence). cbn. split.
    + intros k. rewrite held_new by (by rewrite lookup_insert_ne).
      pose proof (held_update k y b shared_lock_new gs Hy). rewrite (proj1 Hb).
      rewrite (not_owned k shared_lock_new) in * by done. destruct b. cbn in *.
      fold shared_lock_new. lia.
    + apply map_Forall_insert_2; [|apply map_Forall_insert_2; [done|apply Hb]].
      apply (map_Forall_lookup_1 _ _ _ _ (proj2 Hb) Hy).
  - destruct (gs !! x) as [a|] eqn:Hx; [|done]. destruct (gs !! y) as [b|] eqn:Hy; [|done].
    destruct (decide (x = y)) as [|Hne]; [done|].
    destruct (guard_destroy_run a s (map_Forall_lookup_1 _ _ _ _ (proj2 Hb) Hx)
      (λ k, balanced_count _ _ _ _ k Hb Hx)) as (s' & E & Hc).
    destruct a as [ap ao]. unfold guard_assign. cbn [guard_move guard_swap].
    rewrite (bind_ret _ _ _ (mk_shared_lock (_M_pm b) (_M_owns b), shared_lock_new) s').
    2: { cbn. by rewrite (bind_ret _ _ _ _ _ E). }
    cbn. split.
    + intros k. specialize (Hc k). rewrite (proj1 Hb) in Hc.
      pose proof (held_update_two k x y _ _ b shared_lock_new gs Hne Hx Hy).
      rewrite (not_owned k shared_lock_new) in * by done. destruct b. cbn in *. lia.
    + apply map_Forall_insert_2; [|apply map_Forall_insert_2; [done|apply Hb]].
      destruct b. apply (map_Forall_lookup_1 _ _ _ _ (proj2 Hb) Hy).
  - destruct (gs !! x) as [l|] eqn:Hx; [|done].
    destruct (guard_destroy_run l s (map_Forall_lookup_1 _ _ _ _ (proj2 Hb) Hx)
      (λ k, balanced_count _ _ _ _ k Hb Hx)) as (s' & E & Hc).
    rewrite (bind_ret _ _ _ _ _ E). cbn. split; [|by apply map_Forall_delete, Hb].
    intros k. specialize (Hc k). rewrite (proj1 Hb), (held_delete k x l gs Hx) in Hc. lia.
Qed.

Lemma program_keeps os gs s :
  balanced gs s →
  match guard_program os gs s with
  | Ret gs' s' => balanced gs' s'
  | NoFuel => True
  | _ => False
  end.
Proof.
  revert gs s. induction os as [|o os IH]; intros gs s Hb; cbn [guard_program]; [done|].
  unfold guard_step, try_catch, mbind, prog_bind. pose proof (exec_keeps o gs s Hb) as Hk.
  destruct (guard_exec o gs s) as [gs' s'|e s'| |]; try done; cbn in Hk |- *.
  - by apply IH.
  - subst. by apply IH.
Qed.

End guard_facts.

(** *** The guard over [shared_mutex] *)

(** Many mutexes by number, each used by one thread: the words [state_], and the
    functions of shared_mutex.cpp without interleaving; [lock_shared] never comes back
    where it would wait. *)
#[export] Instance shared_mutexes : SharedLockable (nat → Z) := {
  lock_shared m := λ w,
    if shared_blocked (w m) then NoFuel
    else Ret tt (λ k, if decide (k = m) then set_readers (w m) (wrap32 (readers (w m) + 1)) else w k);
  try_lock_shared m := λ w,
    let num_readers := readers (w m) in
    if negb (has_writer (w m)) && negb (num_readers =? n_readers_)%Z
    then Ret true (λ k, if decide (k = m) then set_readers (w m) (wrap32 (num_readers + 1)) else w k)
    else Ret false w;
  unlock_shared m := λ w,
    Ret tt (λ k, if decide (k = m) then set_readers (w m) (wrap32 (readers (w m) - 1)) else w k);
  shared_count w k := Z.to_nat (readers (w k));
}.

Lemma readers_range st : (0 ≤ readers st ≤ n_readers_)%Z.
Proof.
  unfold readers. rewrite n_readers_ones, Z.land_ones by lia.
  pose proof (Z.mod_pos_bound st (2 ^ 31)). change (Z.ones 31) with (2 ^ 31 - 1)%Z. lia.
Qed.

Lemma readers_set st n : (0 ≤ n ≤ n_readers_)%Z → readers (set_readers st n) = n.
Proof.
  intros Hn. unfold readers, set_readers. rewrite Z.land_lor_distr_l, <-Z.land_assoc.
  replace (Z.land (wrap32 (Z.lnot n_readers_)) n_readers_) with 0%Z by by vm_compute.
  rewrite Z.land_0_r, Z.lor_0_l, <-(Z2Nat.id n) by lia. apply reader_bits. lia.
Qed.

Lemma n_readers_small : (0 < n_readers_ < 2 ^ 32 - 1)%Z.
Proof. rewrite n_readers_ones. by vm_compute. Qed.

#[export] Instance shared_mutexes_laws : SharedLockableLaws (nat → Z).
Proof.
  pose proof n_readers_small as Hs.
  split; intros m w; cbn; pose proof (readers_range (w m)) as Hr.
  - destruct (shared_blocked (w m)) eqn:E; [done|]. intros k.
    unfold shared_blocked in E. apply orb_false_iff in E as [_ E%Z.eqb_neq].
    case_decide as Ek; [subst|by rewrite bool_decide_eq_false_2; [cbn; lia|congruence]].
    rewrite bool_decide_eq_true_2, wrap_small, readers_set by (done || lia). cbn. lia.
  - destruct (negb _ && negb _) eqn:E; cbn; intros k; [|lia].
    apply andb_true_iff in E as [_ E%negb_true_iff%Z.eqb_neq].
    case_decide as Ek; [subst|by rewrite bool_decide_eq_false_2; [cbn; lia|congruence]].
    rewrite bool_decide_eq_true_2, wrap_small, readers_set by (done || lia). cbn. lia.
  - intros Hpos. eexists. split; [done|]. intros k. cbn.
    case_decide as Ek; [subst|by rewrite bool_decide_eq_false_2; [cbn; lia|congruence]].
    rewrite bool_decide_eq_true_2, wrap_small, readers_set by (done || lia). cbn. lia.
Qed.

(** Whatever a program does with guards over a mutex type that keeps its promises
    (constructing, locking, unlocking, swapping, moving, assigning, destroying, in any
    order, with the errors caught), unless a [lock_shared] never comes back it ends
    without undefined behaviour, and each mutex is held shared by exactly the guards
    that own it: once all of them are destroyed, it is free. *)
Theorem shared_lock_balanced {M} `{SharedLockableLaws M} os s :
  (∀ k, shared_count s k = 0) →
  match guard_program os ∅ s with
  | Ret gs s' => (∀ k, shared_count s' k = held k gs) ∧ (gs = ∅ → ∀ k, shared_count s' k = 0)
  | NoFuel => True
  | _ => False
  end.
Proof.
  intros Hz. assert (balanced ∅ s) as Hb by (split; [intros k; by rewrite Hz|apply map_Forall_empty]).
  pose proof (program_keeps os ∅ s Hb) as Hp. destruct (guard_program os ∅ s) as [gs s'| | |]; try done.
  destruct Hp as [Hc _]. split; [done|]. intros -> k. apply Hc.
Qed.

Lemma shared_lock_balanced_witness :
  let os := [Construct 0 7; Lock 0; Defer 1 7; Lock 1; Swap 0 1; MoveTo 2 0; Unlock 1; Destroy 2] in
  ∃ gs s', guard_program os ∅ (λ _ : nat, 0%Z) = Ret gs s' ∧ ∀ k, shared_count s' k = held k gs.
Proof.
  intros os. pose proof (shared_lock_balanced os (λ _, 0%Z) (λ _, eq_refl)) as H.
  assert (returns (guard_program os ∅ (λ _ : nat, 0%Z)) = true) as (gs & s' & E)%returns_spec
    by by vm_compute.
  exists gs, s'. split; [done|]. rewrite E in H. apply H.
Defined.
