(* ===== verification/CountDownLatch.v ===== *)
(** * The latch [countdownlatch]

    Model of src/sysprog/afina/materials/09-advanced-synchronization/code/
    count_down_latch.h and count_down_latch.cpp: threads that wait for a count to
    become zero and threads that count down. *)

From S2P Require Import Prelude Concur.

(** The members: [lock] with its owner, the threads that sleep on [cv], [count]. *)
Record countdownlatch : Type := mk_latch {
  lock : option nat;
  cv : gset nat;
  count_ : Z;
}.

(** [countdownlatch(count)] *)
Definition countdownlatch_new (count : Z) : countdownlatch := mk_latch None ∅ (wrap32 count).

(** Where a thread is; a waiting thread has [nanosecs] in hand. *)
Inductive pc : Type :=
| Free                              (* outside of the latch *)
| await_enter (nanosecs : Z)
| await_test (nanosecs : Z)         (* holding lock, before the test *)
| await_wait                        (* in cv.wait *)
| await_wait_for                    (* in cv.wait_for *)
| await_leave (timed : bool)        (* woken, holding lock again *)
| Passed (timed : bool)             (* await has returned *)
| count_down_enter
| count_down_body
| get_count_enter
| get_count_body.

Definition set_lock (m : option nat) (s : countdownlatch) : countdownlatch :=
  mk_latch m (cv s) (count_ s).
Definition acquire (i : nat) (l : pc) (s : countdownlatch) : list (pc * countdownlatch) :=
  if mutex_free (lock s) then [(l, set_lock (Some i) s)] else [].
Definition sleep (i : nat) (s : countdownlatch) : countdownlatch :=
  mk_latch None ({[i]} ∪ cv s) (count_ s).

(** [count_down] under the lock; the destructor of [lck] included. *)
Definition count_down (s : countdownlatch) : countdownlatch :=
  if (0 =? count_ s)%Z then set_lock None s
  else
    let c := wrap32 (count_ s - 1) in
    mk_latch None (if (0 =? c)%Z then ∅ else cv s) c.

(** The atomic steps of a thread. *)
Definition tstep (i : nat) (l : pc) (s : countdownlatch) : list (pc * countdownlatch) :=
  match l with
  | Free => [(await_enter 0, s); (await_enter 1, s); (count_down_enter, s); (get_count_enter, s)]
  | Passed _ => []
  | await_enter n => acquire i (await_test n) s
  | await_test n =>
      if (0 =? count_ s)%Z then [(Passed (0 <? n)%Z, set_lock None s)]
      else [((if (0 <? n)%Z then await_wait_for else await_wait), sleep i s)]
  | await_wait => if bool_decide (i ∈ cv s) then [] else acquire i (await_leave false) s
  | await_wait_for => (* notified or timed out *)
      if mutex_free (lock s) then [(await_leave true, mk_latch (Some i) (cv s ∖ {[i]}) (count_ s))] else []
  | await_leave timed => [(Passed timed, set_lock None s)]
  | count_down_enter => acquire i count_down_body s
  | count_down_body => [(Free, count_down s)]
  | get_count_enter => acquire i get_count_body s
  | get_count_body => [(Free, set_lock None s)]
  end.

(** A step of a thread, or, where [spurious], a spurious wake-up. *)
Inductive any_step (spurious : bool) : config countdownlatch pc → config countdownlatch pc → Prop :=
| any_thread c c' : step tstep c c' → any_step spurious c c'
| any_spurious s ls i : spurious = true →
    any_step spurious (mk_config s ls) (mk_config (mk_latch (lock s) (cv s ∖ {[i]}) (count_ s)) ls).

(** [n] threads and a new latch. *)
Definition start (count : Z) (n : nat) : config countdownlatch pc :=
  mk_config (countdownlatch_new count) (replicate n Free).

(** What holds without spurious wake-ups: who waits without a bound and is not asleep
    any more finds the count at zero; nobody sleeps then; the owner of [lock] is inside. *)
Definition inside (l : pc) : bool :=
  match l with
  | await_test _ | await_leave _ | count_down_body | get_count_body => true
  | _ => false
  end.

Record ok (c : config countdownlatch pc) : Prop := mk_ok {
  ok_lock : owned_by inside (lock (shared c)) (threads c);
  ok_range : (0 ≤ count_ (shared c) < 2 ^ 32)%Z;
  ok_awake : ∀ i, threads c !! i = Some await_wait → i ∉ cv (shared c) → count_ (shared c) = 0%Z;
  ok_passed : ∀ i, threads c !! i = Some (await_leave false) ∨ threads c !! i = Some (Passed false) →
    count_ (shared c) = 0%Z;
  ok_open : count_ (shared c) = 0%Z → cv (shared c) = ∅;
}.


Lemma latch_start_ok count n : ok (start count n).
Proof.
  split; cbn; try set_solver.
  - by apply owned_replicate.
  - by apply wrap_range.
  - by intros i [? _]%lookup_replicate.
  - by intros i [[? _]%lookup_replicate|[? _]%lookup_replicate].
Qed.

(** What a step that leaves the count alone, or decrements it, keeps of [ok]. *)
Lemma latch_step_ok_intro s ls i l l' s' :
  ok (mk_config s ls) → ls !! i = Some l →
  lock s' = (if eqb (inside l') (inside l) then lock s else if inside l' then Some i else None) →
  (inside l' = true → inside l = false → lock s = None) →
  (0 ≤ count_ s' < 2 ^ 32)%Z → (count_ s = 0 → count_ s' = 0)%Z →
  (∀ j, j ∈ cv s → j ∉ cv s' → j = i ∨ count_ s' = 0%Z) →
  (l' = await_wait → i ∈ cv s') →
  (l' = await_leave false ∨ l' = Passed false → count_ s = 0%Z) →
  (count_ s' = 0%Z → cv s' = ∅) →
  ok (mk_config s' (<[i:=l']> ls)).
Proof.
  intros [H1 H2 H3 H4 H5] Hl Hm Hf Hr Hc Hcv Hw Hp Ho. cbn in *. split; cbn; try done.
  - by eapply owner_step.
  - intros j Hj Hn. thread_cases Hj; [by destruct Hn; apply Hw|].
    destruct (decide (j ∈ cv s)) as [Hin|Hin]; [by destruct (Hcv j Hin Hn)|].
    by apply Hc, H3 with j.
  - intros j [Hj|Hj]; thread_cases Hj; eauto.
Qed.

(** Counting down: one less, and at zero all sleepers are woken. *)
Lemma count_down_spec s :
  (0 ≤ count_ s < 2 ^ 32)%Z → (count_ s = 0%Z → cv s = ∅) →
  lock (count_down s) = None ∧ count_ (count_down s) = Z.max 0 (count_ s - 1) ∧
  cv (count_down s) = if decide (count_ s ≤ 1)%Z then ∅ else cv s.
Proof.
  intros Hr Ho. unfold count_down. destruct (0 =? count_ s)%Z eqn:E; cbn [lock cv count_ set_lock].
  - apply Z.eqb_eq in E. rewrite decide_True by lia. split_and!; [done|lia|auto].
  - apply Z.eqb_neq in E. destruct (0 =? wrap32 (count_ s - 1))%Z eqn:E';
      rewrite wrap_small in * by lia; [apply Z.eqb_eq in E'|apply Z.eqb_neq in E'];
      (split_and!; [done|lia|]).
    + by rewrite decide_True by lia.
    + by rewrite decide_False by lia.
Qed.

Lemma latch_step_ok s ls i l l' s' :
  ok (mk_config s ls) → ls !! i = Some l → (l', s') ∈ tstep i l s →
  ok (mk_config s' (<[i:=l']> ls)).
Proof.
  intros Hok Hl Hs. pose proof (ok_range _ Hok) as Hr. pose proof (ok_open _ Hok) as Ho.
  pose proof (ok_awake _ Hok i) as Ha. pose proof (ok_passed _ Hok i) as Hp. cbn in Hr, Ho, Ha, Hp.
  rewrite Hl in Ha, Hp.
  destruct l; cbn [tstep] in Hs; unfold acquire in Hs; outcomes Hs;
    repeat match goal with
    | H : mutex_free (lock s) = true |- _ => destruct (lock s) eqn:?; [done|clear H]
    | H : bool_decide _ = false |- _ => apply bool_decide_eq_false in H
    | H : (0 =? _)%Z = true |- _ => apply Z.eqb_eq in H
    | H : (0 =? _)%Z = false |- _ => apply Z.eqb_neq in H
    end; apply (latch_step_ok_intro s ls i _ _ _ Hok Hl); cbn; try done.
  all: try (by intros [|]).
  all: try (by destruct (0 <? nanosecs)%Z).
  - intros j Hj Hn. set_solver.
  - intros _. set_solver.
  - destruct (0 <? nanosecs)%Z; by intros [|].
  - intros _. by apply Ha.
  - intros j Hj Hn. left. destruct (decide (j = i)); [done|]. set_solver.
  - intros E. rewrite (Ho E). set_solver.
  - intros [|]; simplify_eq. apply Hp. by left.
  - by apply count_down_spec.
  - rewrite (proj1 (proj2 (count_down_spec s Hr Ho))). lia.
  - rewrite (proj1 (proj2 (count_down_spec s Hr Ho))). lia.
  - destruct (count_down_spec s Hr Ho) as (_ & -> & ->). case_decide; [right; lia|by intros].
  - destruct (count_down_spec s Hr Ho) as (_ & -> & ->). case_decide; [done|lia].
Qed.

Lemma latch_reached_ok count n c : star (any_step false) (start count n) c → ok c.
Proof.
  apply (star_invariant (any_step false) ok); [|apply latch_start_ok].
  intros x y Hx Hs. inversion Hs as [? ? H|]; subst; [|done].
  inversion H; subst. by eapply latch_step_ok.
Qed.

(** A thread that waits in [await]. *)
Definition waiting (l : pc) : bool :=
  match l with await_wait | await_wait_for => true | _ => false end.

(** Without spurious wake-ups an unbounded [await] returns only once the count is
    zero; and then nobody is left asleep: every thread that waits goes on as soon as
    [lock] is free. *)
Theorem latch_holds count n c :
  star (any_step false) (start count n) c →
  (∀ i, threads c !! i = Some (Passed false) → count_ (shared c) = 0%Z) ∧
  (∀ i l, threads c !! i = Some l → waiting l = true → count_ (shared c) = 0%Z →
    lock (shared c) = None → tstep i l (shared c) ≠ []).
Proof.
  intros Hr%latch_reached_ok. destruct c as [s ls]. split.
  - intros i Hi. apply (ok_passed _ Hr i). by right.
  - cbn. intros i l Hi Hw Hc Hm. pose proof (ok_open _ Hr Hc) as Hcv. cbn in Hcv.
    destruct l; simplify_eq/=; unfold acquire; rewrite Hm, ?Hcv; [|done].
    rewrite bool_decide_eq_false_2 by set_solver. done.
Qed.

(** Thread 0 waits, thread 1 counts a latch of one down. *)
Definition await_schedule : list (nat * nat) :=
  [(0, 0); (0, 0); (0, 0); (1, 2); (1, 0); (1, 0); (0, 0); (0, 0)].

Lemma latch_schedule_any b xs c c' : run_schedule tstep xs c = Some c' → star (any_step b) c c'.
Proof.
  intros H%run_schedule_reachable. induction H; econstructor; eauto. by constructor.
Qed.

Lemma latch_holds_witness :
  ∃ c, star (any_step false) (start 1 2) c ∧ threads c !! 0 = Some (Passed false) ∧
    count_ (shared c) = 0%Z.
Proof.
  destruct (run_schedule tstep await_schedule (start 1 2)) as [c|] eqn:E; [|by vm_compute in E].
  exists c. assert (star (any_step false) (start 1 2) c) as H by (by eapply latch_schedule_any).
  assert (threads c !! 0 = Some (Passed false)) as H0 by (vm_compute in E; by simplify_eq).
  split; [done|]. split; [done|]. by apply (proj1 (latch_holds 1 2 c H) 0).
Defined.

(** One spurious wake-up is enough for an unbounded [await] to return while the
    count is above zero: the wait is not in a loop. *)
Theorem latch_spurious count n :
  (0 < count < 2 ^ 32)%Z → 0 < n →
  ∃ c, star (any_step true) (start count n) c ∧ threads c !! 0 = Some (Passed false) ∧
    (0 < count_ (shared c))%Z.
Proof.
  intros Hc Hn. destruct n as [|n]; [lia|].
  assert ((0 =? wrap32 count)%Z = false) as E by (rewrite wrap_small by lia; lia).
  exists (mk_config (mk_latch None ∅ (wrap32 count)) (Passed false :: replicate n Free)).
  split_and!; [|done|cbn; rewrite wrap_small by lia; lia].
  eapply star_trans; [apply (latch_schedule_any _ [(0, 0); (0, 0); (0, 0)])|].
  { cbn -[wrap Z.eqb]. rewrite E. cbn -[wrap]. done. }
  eapply star_step; [by apply (any_spurious _ _ _ 0)|].
  cbn [lock cv count_]. replace (({[0]} ∪ ∅) ∖ {[0]}) with (∅ : gset nat) by set_solver.
  apply (latch_schedule_any _ [(0, 0); (0, 0)]). cbn -[wrap]. by rewrite bool_decide_eq_false_2 by set_solver.
Qed.

Lemma latch_spurious_witness :
  ∃ c, star (any_step true) (start 10 2) c ∧ threads c !! 0 = Some (Passed false) ∧
    (0 < count_ (shared c))%Z.
Proof. apply (latch_spurious 10 2); lia. Defined.
