(* ===== verification/Locks.v ===== *)
(** * Counters and locks of the thread lectures

    Models of src/sysprog/lecture_examples/6_threads: 4_not_atomic.c and 5_atomic.c (two
    threads that increment one counter), 6_bad_lock.c and 7_spin_lock.c (threads that
    fill one string), 8_futex.c (a lock over the futex system call). *)

From S2P Require Import Prelude CStrings Concur.

(** [int] arithmetic that wraps around, as the atomic builtins do. *)
Definition int_wrap (z : Z) : Z := ((z + 2 ^ 31) `mod` 2 ^ 32 - 2 ^ 31)%Z.

Lemma int_wrap_small z : i32_range z → int_wrap z = z.
Proof. unfold i32_range, int_wrap. intros. rewrite Z.mod_small; lia. Qed.

(** ** 4_not_atomic.c and 5_atomic.c *)

Module Counter.

(** The globals; thread 0 is [main], thread 1 runs [thread_f]. *)
Record globals : Type := mk_globals { counter : Z; is_finished : bool }.

Inductive pc : Type :=
| Loop (i : nat)             (* at the head of the for loop *)
| Add (i : nat) (read : Z)   (* 4_not_atomic: has read counter, not yet written it *)
| Finish                     (* thread_f: before is_finished = true *)
| Wait                       (* main: while (! is_finished) sched_yield() *)
| Exited
| Printed (v : Z).           (* main has printed counter *)

(** The steps; [atomic] for 5_atomic.c, the other file otherwise; [n] iterations. *)
Definition tstep (atomic : bool) (n : nat) (t : nat) (l : pc) (s : globals) : list (pc * globals) :=
  match l with
  | Loop i =>
      if (i <? n)%nat then
        if atomic then [(Loop (i + 1), mk_globals (int_wrap (counter s + 1)) (is_finished s))]
        else [(Add i (counter s), s)]
      else [((if (t =? 0)%nat then Wait else Finish), s)]
  | Add i read => [(Loop (i + 1), mk_globals (int_wrap (read + 1)) (is_finished s))]
  | Finish => [(Exited, mk_globals (counter s) true)]
  | Wait => if is_finished s then [(Printed (counter s), s)] else [(Wait, s)]
  | Exited | Printed _ => []
  end.

Definition start : config globals pc := mk_config (mk_globals 0 false) [Loop 0; Loop 0].

(** How many increments a thread has made. *)
Definition done_by (n : nat) (l : pc) : Z :=
  match l with Loop i => Z.of_nat i | Add i _ => Z.of_nat i | _ => Z.of_nat n end.

(** Where the two threads of the atomic program can be. *)
Definition main_at (n : nat) (l : pc) : Prop :=
  match l with
  | Loop i => i ≤ n | Wait => True | Printed v => v = (2 * Z.of_nat n)%Z | _ => False
  end.
Definition thread_at (n : nat) (l : pc) : Prop :=
  match l with Loop i => i ≤ n | Finish | Exited => True | _ => False end.

(** The invariant of the atomic program. *)
Definition counted (n : nat) (c : config globals pc) : Prop := ∃ a b,
  threads c = [a; b] ∧ main_at n a ∧ thread_at n b ∧
  counter (shared c) = (done_by n a + done_by n b)%Z ∧
  (is_finished (shared c) = true → b = Exited).

#[local] Arguments Nat.ltb : simpl never.

Lemma counted_step n s ls t l l' s' :
  (2 * Z.of_nat n < 2 ^ 31)%Z →
  counted n (mk_config s ls) → ls !! t = Some l → (l', s') ∈ tstep true n t l s →
  counted n (mk_config s' (<[t:=l']> ls)).
Proof.
  intros Hn (a & b & E & Ha & Hb & Hc & Hf) Hl Hs. cbn in E, Hc, Hf. subst ls.
  destruct t as [|[|t]]; [| |done]; simplify_eq/=.
  all: destruct l as [i|i r| | | |v]; cbn in *; try done; outcomes Hs;
      unfold counted; cbn; eexists _, _; (split; [done|]); cbn in *;
    repeat match goal with
    | H : (_ <? _)%nat = true |- _ => apply Nat.ltb_lt in H
    | H : (_ <? _)%nat = false |- _ => apply Nat.ltb_ge in H
    end; split_and!; auto; try done; try lia; try (intros E; by specialize (Hf E)).
  - rewrite Hc, int_wrap_small; [lia|]. unfold i32_range. destruct b; simplify_eq/=; try done; lia.
  - rewrite (Hf eq_refl) in Hc. cbn in Hc. lia.
  - congruence.
  - rewrite Hc, int_wrap_small; [lia|]. unfold i32_range. destruct a; simplify_eq/=; try done; lia.
Qed.

(** A thread that runs its loop alone for [k] rounds adds [k]. *)
Lemma run_alone atomic n k t i v f ls :
  ls !! t = Some (Loop i) → i + k ≤ n → (0 ≤ v)%Z → (v + Z.of_nat k < 2 ^ 31)%Z →
  reachable (tstep atomic n) (mk_config (mk_globals v f) ls)
    (mk_config (mk_globals (v + Z.of_nat k) f) (<[t:=Loop (i + k)]> ls)).
Proof.
  revert i v ls. induction k as [|k IH]; intros i v ls Hl Hk Hv Hb.
  - rewrite Nat.add_0_r, Z.add_0_r, list_insert_id by done. constructor.
  - assert (i <? n = true)%nat as Hi by (apply Nat.ltb_lt; lia).
    assert (reachable (tstep atomic n) (mk_config (mk_globals v f) ls)
      (mk_config (mk_globals (v + 1) f) (<[t:=Loop (i + 1)]> ls))) as H1.
    { destruct atomic.
      - apply star_one. econstructor; [done|]. cbn [tstep counter]. rewrite Hi.
        rewrite int_wrap_small by (unfold i32_range; lia). by left.
      - eapply star_step; [econstructor; [done|]; cbn [tstep counter]; rewrite Hi; by left|].
        apply star_one. rewrite <-(list_insert_insert_eq ls t (Loop (i + 1)) (Add i v)).
        econstructor; [by rewrite list_lookup_insert_eq by (by eapply lookup_lt_Some)|].
        cbn. rewrite int_wrap_small by (unfold i32_range; lia). by left. }
    eapply star_trans; [exact H1|].
    specialize (IH (i + 1) (v + 1)%Z (<[t:=Loop (i + 1)]> ls)).
    rewrite list_insert_insert_eq in IH. replace (i + Datatypes.S k) with (i + 1 + k) by lia.
    replace (v + Z.of_nat (Datatypes.S k))%Z with (v + 1 + Z.of_nat k)%Z by lia.
    apply IH; [|lia|lia|lia]. by rewrite list_lookup_insert_eq by (by eapply lookup_lt_Some).
Qed.

(** With the atomic builtin every run of 5_atomic.c that prints prints the number of
    all increments; without it 4_not_atomic.c can print 2, however many there are. *)
Theorem increments_need_atomicity n :
  2 ≤ n → (2 * Z.of_nat n < 2 ^ 31)%Z →
  (∀ c v, reachable (tstep true n) start c → threads c !! 0 = Some (Printed v) → v = (2 * Z.of_nat n)%Z) ∧
  (∃ c, reachable (tstep false n) start c ∧ threads c !! 0 = Some (Printed 2)).
Proof.
  intros Hn Hb. split.
  - intros c v Hr Hv.
    assert (counted n c) as (a & b & E & Ha & _).
    { eapply (reachable_invariant (tstep true n) (counted n)); [by intros; eapply counted_step| |done].
      exists (Loop 0), (Loop 0). cbn. split_and!; (done || lia). }
    rewrite E in Hv. by simplify_eq/=.
  - exists (mk_config (mk_globals 2 true) [Printed 2; Exited]). split; [|done].
    assert (0 <? n = true)%nat as H0 by (apply Nat.ltb_lt; lia).
    assert (n - 1 <? n = true)%nat as H1 by (apply Nat.ltb_lt; lia).
    (* main reads 0; the thread makes all but one of its rounds *)
    eapply (star_step _ _ (mk_config (mk_globals 0 false) [Add 0 0; Loop 0])).
    { apply (step_thread _ _ _ [Loop 0; Loop 0] 0 (Loop 0)); [done|]. cbn. rewrite H0. by left. }
    eapply star_trans; [apply (run_alone false n (n - 1) 1 0 0); (done || lia)|]. cbn [insert list_insert].
    (* main writes 1; the thread reads it *)
    eapply star_step; [by apply (step_thread _ _ (mk_globals 1 false) _ 0 (Add 0 0) (Loop 1)); [|left]|].
    cbn [insert list_insert Nat.add].
    eapply star_step; [apply (step_thread _ _ (mk_globals 1 false) _ 1 (Loop (n - 1)) (Add (n - 1) 1));
      [done|cbn [tstep]; rewrite H1; by left]|].
    cbn [insert list_insert].
    (* main makes the rest of its rounds; the thread writes 2 and ends *)
    eapply star_trans; [apply (run_alone false n (n - 1) 0 1 1); (done || lia)|]. cbn [insert list_insert].
    eapply star_step; [by apply (step_thread _ _ (mk_globals 2 false) _ 1 (Add (n - 1) 1) (Loop (n - 1 + 1))); [|left]|].
    cbn [insert list_insert]. replace (n - 1 + 1) with n by lia. replace (1 + (n - 1)) with n by lia.
    eapply star_step; [apply (step_thread _ _ (mk_globals 2 false) _ 1 (Loop n) Finish);
      [done|cbn [tstep]; rewrite Nat.ltb_irrefl; by left]|].
    eapply star_step; [by apply (step_thread _ _ (mk_globals 2 true) _ 1 Finish Exited); [|left]|].
    eapply star_step; [apply (step_thread _ _ (mk_globals 2 true) _ 0 (Loop n) Wait);
      [done|cbn [tstep]; rewrite Nat.ltb_irrefl; by left]|].
    eapply star_step; [by apply (step_thread _ _ (mk_globals 2 true) _ 0 Wait (Printed 2)); [|left]|].
    constructor.
Qed.

Lemma increments_need_atomicity_witness :
  ∃ c, reachable (tstep false 100000) start c ∧ threads c !! 0 = Some (Printed 2).
Proof. apply (increments_need_atomicity 100000); [by apply Nat.leb_le; vm_compute|by vm_compute]. Defined.

End Counter.

(** ** Programs that start threads, release them together and join them *)

(** The [main] that 6_bad_lock.c, 7_spin_lock.c and 8_futex.c share: create the threads,
    set [start], join them, print.  [S]: the other globals; [W]: where a thread is in
    [thread_f] behind its [while (! start)]. *)
Section fork_join.
Context {S W V : Type}.
(** The steps of [thread_f]; [None]: it returns. *)
Variable wstep : nat → W → S → list (option W * S).
(** Its first location, and what [main] prints. *)
Variable enter : W.
Variable print : S → V.
(** How many threads [main] creates; they are numbered from 1, [main] is thread 0. *)
Variable n : nat.

Record program : Type := mk_program { is_started : bool; exited : gset nat; body : S }.

Inductive place : Type :=
| Create                  (* main: before start = true *)
| Join (j : nat)          (* main: in pthread_join of thread j *)
| Printed (v : V)
| Spin                    (* thread_f: while (! start) *)
| Work (w : W)
| Exited.

Definition fj_step (i : nat) (l : place) (s : program) : list (place * program) :=
  match l with
  | Create => [(Join 1, mk_program true (exited s) (body s))]
  | Join j =>
      if (j <=? n)%nat then
        if bool_decide (j ∈ exited s) then [(Join (j + 1), s)] else []
      else [(Printed (print (body s)), s)]
  | Printed _ => []
  | Spin => if is_started s then [(Work enter, s)] else []
  | Work w =>
      (λ r, match r.1 with
            | Some w' => (Work w', mk_program (is_started s) (exited s) r.2)
            | None => (Exited, mk_program (is_started s) ({[i]} ∪ exited s) r.2)
            end) <$> wstep i w (body s)
  | Exited => []
  end.

Definition fj_start (b : S) : config program place :=
  mk_config (mk_program false ∅ b) (Create :: replicate n Spin).

(** Thread 0 is in [main], the others in [thread_f]; who is joined has returned. *)
Record joined (c : config program place) : Prop := mk_joined {
  joined_length : length (threads c) = n + 1;
  joined_main : ∃ l, threads c !! 0 = Some l ∧
    match l with
    | Create => is_started (shared c) = false
    | Join j => is_started (shared c) = true ∧ 1 ≤ j ∧ ∀ k, 1 ≤ k < j → k ∈ exited (shared c)
    | Printed v => is_started (shared c) = true ∧ v = print (body (shared c)) ∧
        ∀ k, 1 ≤ k ≤ n → k ∈ exited (shared c)
    | _ => False
    end;
  joined_thread : ∀ i l, threads c !! i = Some l → 0 < i →
    match l with Spin | Work _ | Exited => True | _ => False end;
  joined_exited : ∀ i, i ∈ exited (shared c) ↔ 0 < i ∧ threads c !! i = Some Exited;
}.

Lemma fj_start_joined b : joined (fj_start b).
Proof.
  split; cbn.
  - rewrite length_replicate. lia.
  - by eexists.
  - intros [|i] l; [lia|]. cbn. by intros [-> _]%lookup_replicate.
  - intros i. split; [set_solver|]. intros [Hi E]. destruct i; [lia|].
    cbn in E. by apply lookup_replicate in E as [? _].
Qed.

Lemma fj_step_joined s ls i l l' s' :
  joined (mk_config s ls) → ls !! i = Some l → (l', s') ∈ fj_step i l s →
  joined (mk_config s' (<[i:=l']> ls)).
Proof.
  intros [H1 (m & Hm & H2) H3 H4] Hl Hs. cbn in *.
  destruct (decide (i = 0)) as [->|Hi].
  - (* main *)
    rewrite Hm in Hl. simplify_eq.
    assert (exited s' = exited s ∧ is_started s' = true ∧
      match l' with
      | Join j => 1 ≤ j ∧ ∀ k, 1 ≤ k < j → k ∈ exited s
      | Printed v => v = print (body s') ∧ ∀ k, 1 ≤ k ≤ n → k ∈ exited s
      | _ => False
      end) as (He & Hst & Hl').
    { destruct l as [|j|v| | |]; cbn in Hs; try done.
      - outcomes Hs. cbn. split_and!; [done|done|lia|lia].
      - destruct H2 as (Hst & Hj & H2). destruct (Nat.leb_spec j n); outcomes Hs.
        + apply bool_decide_eq_true in Heqb. split_and!; [done|done|lia|]. intros k Hk.
          destruct (decide (k = j)) as [->|]; [done|]. apply H2. lia.
        + split_and!; [done..|]. intros k Hk. apply H2. lia.
      - by apply not_elem_of_nil in Hs. }
    split; cbn.
    + by rewrite length_insert.
    + exists l'. rewrite list_lookup_insert_eq by lia. split; [done|].
      rewrite He. destruct l'; naive_solver.
    + intros k lk Hk Hpos. rewrite list_lookup_insert_ne in Hk by lia. apply (H3 k lk Hk Hpos).
    + intros k. rewrite He, H4. destruct (decide (k = 0)) as [->|]; [lia|].
      by rewrite list_lookup_insert_ne by lia.
  - (* a thread *)
    assert (0 < i) as Hpos by lia. pose proof (H3 i l Hl Hpos) as Ht.
    assert (is_started s' = is_started s ∧
      match l' with Spin | Work _ | Exited => True | _ => False end ∧
      (exited s' = exited s ∧ l' ≠ Exited ∧ l ≠ Exited ∨ exited s' = {[i]} ∪ exited s ∧ l' = Exited) ∧
      (body s' = body s ∨ l ≠ Exited)) as (Hst & Hl' & He & Hb).
    { destruct l as [| | | |w|]; try done; cbn in Hs.
      - outcomes Hs. split_and!; auto.
      - apply list_elem_of_fmap in Hs as ([o b] & E & _). destruct o; simplify_eq/=;
          split_and!; auto.
      - by apply not_elem_of_nil in Hs. }
    split; cbn.
    + by rewrite length_insert.
    + exists m. rewrite list_lookup_insert_ne by done. split; [done|]. rewrite Hst.
      assert (∀ k, k ∈ exited s → k ∈ exited s') as Hmon by (destruct He as [(-> & _)|(-> & _)]; set_solver).
      destruct m; try done; [naive_solver|]. destruct H2 as (? & -> & H2). split_and!; [done| |auto].
      f_equal. destruct Hb as [->|Hne]; [done|]. exfalso. apply Hne.
      assert (1 ≤ i ≤ n) as Hi' by (apply lookup_lt_Some in Hl; lia).
      destruct (proj1 (H4 i) (H2 i Hi')) as [_ E]. congruence.
    + intros k lk Hk Hkp. thread_cases Hk; [done|]. apply (H3 k lk Hk Hkp).
    + intros k. destruct (decide (k = i)) as [->|Hne].
      * rewrite list_lookup_insert_eq by (by eapply lookup_lt_Some).
        destruct He as [(-> & Hn & Hn')|(-> & ->)]; [|set_solver].
        rewrite H4. split; intros [_ E]; congruence.
      * rewrite list_lookup_insert_ne by done. rewrite <-H4. set_solver.
Qed.

Lemma fj_joined b c : reachable fj_step (fj_start b) c → joined c.
Proof.
  apply (reachable_invariant fj_step joined); [by intros; eapply fj_step_joined|].
  apply fj_start_joined.
Qed.

(** [main] prints when every thread has returned, and what it prints is there then. *)
Lemma printed_joined b c v :
  reachable fj_step (fj_start b) c → threads c !! 0 = Some (Printed v) →
  v = print (body (shared c)) ∧ ∀ i l, threads c !! i = Some l → 0 < i → l = Exited.
Proof.
  intros [H1 (l & Hl & H2) H3 H4]%fj_joined Hv.
  rewrite Hv in Hl. simplify_eq. destruct H2 as (_ & -> & H2). split; [done|].
  intros i l Hl Hi. assert (1 ≤ i ≤ n) as Hi' by (apply lookup_lt_Some in Hl; lia).
  destruct (proj1 (H4 i) (H2 i Hi')) as [_ E]. congruence.
Qed.

(** The places of [main]. *)
Definition in_main (l : place) : bool :=
  match l with Create | Join _ | Printed _ => true | _ => false end.
Definition after (o : option W) : place := match o with Some w => Work w | None => Exited end.

(** Invariants of the other globals and the threads: what [main] does is neutral. *)
Lemma fj_invariant (I : S → list place → Prop) b c :
  (∀ b ls i l l', I b ls → ls !! i = Some l → in_main l → in_main l' → I b (<[i:=l']> ls)) →
  (∀ b ls i, I b ls → ls !! i = Some Spin → I b (<[i:=Work enter]> ls)) →
  (∀ b ls i w o b', I b ls → ls !! i = Some (Work w) → (o, b') ∈ wstep i w b →
    I b' (<[i:=after o]> ls)) →
  I b (Create :: replicate n Spin) →
  reachable fj_step (fj_start b) c → I (body (shared c)) (threads c).
Proof.
  intros Hmain Hspin Hwork H0.
  apply (reachable_invariant fj_step (λ c, I (body (shared c)) (threads c))); [|done].
  intros s s' ls i l l' HI Hl Hs. cbn in *. destruct l as [|j|v| |w|]; cbn in Hs; outcomes Hs.
  - by apply (Hmain _ _ _ Create).
  - by apply (Hmain _ _ _ (Join j)).
  - by apply (Hmain _ _ _ (Join j)).
  - by apply Hspin.
  - apply list_elem_of_fmap in Hs as ([o b'] & E & Hw).
    pose proof (Hwork _ _ _ _ _ _ HI Hl Hw) as HI'. destruct o; simplify_eq/=; exact HI'.
Qed.

(** A thread whose next step is possible makes the program go on. *)
Lemma fj_worker_step c i w :
  threads c !! i = Some (Work w) → wstep i w (body (shared c)) ≠ [] → ∃ c', step fj_step c c'.
Proof.
  destruct c as [s ls]. cbn. intros Hl Hw. destruct (wstep i w (body s)) as [|r rs] eqn:E; [done|].
  destruct r as [[w'|] b']; (eexists; econstructor; [done|]; cbn; rewrite E; by left).
Qed.

(** While [main] has not printed, the program goes on unless a thread that has not
    returned is blocked. *)
Lemma fj_progress c :
  joined c → (∀ v, threads c !! 0 ≠ Some (Printed v)) →
  (∃ c', step fj_step c c') ∨
  ∃ i w, threads c !! i = Some (Work w) ∧ wstep i w (body (shared c)) = [].
Proof.
  intros [H1 (l & Hl & H2) H3 H4] Hnp. destruct c as [s ls]. cbn in *.
  destruct l as [|j|v| | |]; try done.
  - left. eexists. econstructor; [exact Hl|]. by left.
  - destruct H2 as (Hst & Hj1 & H2). destruct (Nat.leb_spec j n) as [Hj|Hj].
    + destruct (decide (j ∈ exited s)) as [Hx|Hx].
      { left. eexists. econstructor; [exact Hl|]. cbn.
        destruct (Nat.leb_spec j n); [|lia]. rewrite bool_decide_eq_true_2 by done. by left. }
      destruct (lookup_lt_is_Some_2 ls j) as [lj Hlj]; [lia|].
      pose proof (H3 j lj Hlj ltac:(lia)) as Hp. destruct lj as [| | | |w|]; try done.
      * left. eexists. econstructor; [exact Hlj|]. cbn. rewrite Hst. by left.
      * destruct (wstep j w (body s)) eqn:E; [right; eauto|].
        left. apply (fj_worker_step (mk_config s ls) j w Hlj). cbn. by rewrite E.
      * destruct Hx. apply H4. split; [lia|done].
    + left. eexists. econstructor; [exact Hl|]. cbn. destruct (Nat.leb_spec j n); [lia|]. by left.
  - by destruct (Hnp v).
Qed.

End fork_join.
Arguments place : clear implicits.
Arguments program : clear implicits.

(** ** 6_bad_lock.c and 7_spin_lock.c *)

Module Fill.

(** [struct complex_thing]; the string has 128 bytes. *)
Record complex_thing : Type := mk_thing { lock : bool; string : bytes }.

Definition thing : complex_thing := mk_thing false (replicate 128 NUL).

(** [thread_f] behind [while (! start)]. *)
Inductive pc : Type :=
| Test                 (* at the test of thing.lock *)
| Take                 (* 6_bad_lock: the test has passed, before thing.lock = true *)
| FillAt (i : nat)     (* at the head of the for loop *)
| Release.             (* 7_spin_lock: before the second compare-and-swap *)

(** ['a' + id]; thread number [t] has [id = t - 1]. *)
Definition letter (t : nat) : ascii := ascii_of_nat (97 + (t - 1)).

(** The steps; [spin] for 7_spin_lock.c, the other file otherwise. *)
Definition wstep (spin : bool) (t : nat) (w : pc) (s : complex_thing) :
    list (option pc * complex_thing) :=
  match w with
  | Test =>
      if lock s then [(None, s)]
      else if spin then [(Some (FillAt 0), mk_thing true (string s))] else [(Some Take, s)]
  | Take => [(Some (FillAt 0), mk_thing true (string s))]
  | FillAt i =>
      if (i <? 128 - 1)%nat
      then [(Some (FillAt (i + 1)), mk_thing (lock s) (<[i:=letter t]> (string s)))]
      else if spin then [(Some Release, s)] else [(None, s)]
  | Release => [(None, mk_thing (if lock s then false else lock s) (string s))]
  end.

(** What [printf] shows: the bytes before the first zero. *)
Definition print (s : complex_thing) : bytes := c_string (string s).

Definition tstep (spin : bool) (n : nat) := fj_step (wstep spin) Test print n.
Definition start (n : nat) : config (program complex_thing) (place pc bytes) := fj_start n thing.

(** The thread that fills the string. *)
Definition filling (l : place pc bytes) : bool :=
  match l with Work (FillAt _) | Work Release | Work Take => true | _ => false end.

(** The string of 127 letters [c]. *)
Definition uniform (c : ascii) : bytes := replicate 127 c ++ [NUL].

(** Half way: [i] letters [c] over letters [d]. *)
Definition partial (i : nat) (c d : ascii) : bytes := replicate i c ++ replicate (127 - i) d ++ [NUL].

Lemma partial_next i c d : i < 127 → <[i:=c]> (partial i c d) = partial (i + 1) c d.
Proof.
  intros Hi. unfold partial. rewrite insert_app_r_alt by (rewrite length_replicate; lia).
  rewrite length_replicate, Nat.sub_diag. replace (127 - i) with (Datatypes.S (127 - (i + 1))) by lia.
  cbn [replicate app insert list_insert]. rewrite (replicate_add i 1 c), <-app_assoc. done.
Qed.

(** The invariant of 7_spin_lock.c: who holds the lock has written the letters in front of
    its position; without a holder the string is of one letter, or nobody was there yet. *)
Definition inv (n : nat) (s : complex_thing) (ls : list (place pc bytes)) : Prop :=
  length ls = n + 1 ∧ count filling ls = (if lock s then 1 else 0) ∧
  (∀ t l, ls !! t = Some l → in_main l = (t =? 0)%nat) ∧
  (∀ t l, ls !! t = Some l → filling l = true →
    match l with
    | Work (FillAt i) => i ≤ 127 ∧ ∃ d, string s = partial i (letter t) d
    | Work Release => string s = uniform (letter t)
    | _ => False
    end) ∧
  (lock s = false → (∃ t, 1 ≤ t ≤ n ∧ string s = uniform (letter t)) ∨
    string s = replicate 128 NUL ∧ ∀ t, ls !! t ≠ Some Exited).

Lemma fill_inv_start n : inv n thing (Create :: replicate n Spin).
Proof.
  split_and!; cbn.
  - rewrite length_replicate. lia.
  - by rewrite count_replicate.
  - intros [|t] l; [by intros [= <-]|]. cbn. by intros [-> _]%lookup_replicate.
  - intros [|t] l; [by intros [= <-]|]. cbn. by intros [-> _]%lookup_replicate.
  - intros _. right. split; [done|]. intros [|t]; [done|]. cbn. by intros [? _]%lookup_replicate.
Qed.

(** A step of a thread that does not fill, into a place that does not. *)
Lemma fill_inv_idle n s ls t l l' :
  inv n s ls → ls !! t = Some l → in_main l = in_main l' → filling l = false → filling l' = false →
  (l' = Exited → lock s = true ∨ ∃ t, 1 ≤ t ≤ n ∧ string s = uniform (letter t)) →
  inv n s (<[t:=l']> ls).
Proof.
  intros (H1 & H2 & H3 & H4 & H5) Hl Hm Hf Hf' He. split_and!.
  - by rewrite length_insert.
  - pose proof (count_insert filling ls t l l' Hl) as Hc. rewrite Hf, Hf' in Hc. lia.
  - intros k lk Hk. thread_cases Hk; [rewrite <-Hm|]; eauto.
  - intros k lk Hk Hfk. thread_cases Hk; [congruence|]. by apply (H4 k).
  - intros Hlk. destruct (H5 Hlk) as [?|[Hs Hx]]; [by left|].
    assert (l' = Exited ∨ l' ≠ Exited) as [E|E] by (destruct l'; auto).
    + destruct (He E) as [?|?]; [congruence|by left].
    + right. split; [done|]. intros k Hk. thread_cases Hk. by apply (Hx k).
Qed.

(** A step of the thread that holds the lock. *)
Lemma fill_inv_holder n s ls t w w' str :
  inv n s ls → ls !! t = Some (Work w) → filling (Work w) = true →
  filling (Work w') = true →
  match w' with
  | FillAt i => i ≤ 127 ∧ ∃ d, str = partial i (letter t) d
  | Release => str = uniform (letter t)
  | _ => False
  end →
  inv n (mk_thing (lock s) str) (<[t:=Work w']> ls).
Proof.
  intros (H1 & H2 & H3 & H4 & H5) Hl Hf Hf' Hw'.
  pose proof (count_insert filling ls t _ (Work w') Hl) as Hc. rewrite Hf, Hf' in Hc.
  pose proof (count_pos filling _ _ _ Hl Hf) as Hpos.
  destruct (lock s) eqn:Elk; [|lia]. split_and!; cbn.
  - by rewrite length_insert.
  - lia.
  - intros k lk Hk. thread_cases Hk; [by apply (H3 t _ Hl)|eauto].
  - intros k lk Hk Hfk. thread_cases Hk; [by destruct w'|].
    pose proof (count_two filling _ _ _ _ _ n0 Hl Hk Hf Hfk). lia.
  - done.
Qed.

Lemma fill_inv_step n s ls t w o s' :
  inv n s ls → ls !! t = Some (Work w) → (o, s') ∈ wstep true t w s →
  inv n s' (<[t:=after o]> ls).
Proof.
  intros Hi Hl Hs. pose proof Hi as (H1 & H2 & H3 & H4 & H5).
  assert (1 ≤ t ≤ n) as Ht.
  { pose proof (lookup_lt_Some _ _ _ Hl). pose proof (H3 t _ Hl) as E. cbn in E.
    destruct t; [done|lia]. }
  destruct w as [| |i|]; cbn in Hs; outcomes Hs; cbn [after].
  - by apply (fill_inv_idle n s ls t (Work Test)); auto.
  - (* the compare-and-swap succeeds *)
    pose proof (count_insert filling ls t _ (Work (FillAt 0)) Hl) as Hc. cbn in Hc.
    assert (∃ d, string s = partial 0 (letter t) d) as Hp.
    { destruct (H5 eq_refl) as [(k & _ & E)|[E _]]; rewrite E; [by exists (letter k)|by exists NUL]. }
    split_and!; cbn.
    + by rewrite length_insert.
    + lia.
    + intros k lk Hk. thread_cases Hk; [by apply (H3 t _ Hl)|eauto].
    + intros k lk Hk Hfk. thread_cases Hk; [split; [lia|done]|].
      pose proof (count_pos filling _ _ _ Hk Hfk). lia.
    + done.
  - by destruct (H4 t _ Hl eq_refl).
  - destruct (H4 t _ Hl eq_refl) as [Hb (d & E)]. apply Nat.leb_le in Heqb.
    apply (fill_inv_holder n s ls t (FillAt i)); [done..|]. split; [lia|]. exists d.
    rewrite E. apply partial_next. lia.
  - destruct (H4 t _ Hl eq_refl) as [Hb (d & E)]. apply Nat.leb_gt in Heqb.
    destruct s as [lk str]. apply (fill_inv_holder n (mk_thing lk str) ls t (FillAt i)); [done..|].
    cbn in *. rewrite E. unfold partial. assert (i = 127) as -> by lia. done.
  - (* release *)
    pose proof (H4 t _ Hl eq_refl) as E. cbn in E.
    pose proof (count_insert filling ls t _ Exited Hl) as Hc. cbn in Hc.
    assert (lock s = true) as Hlk by (destruct (lock s); [done|lia]). rewrite Hlk in *.
    split_and!; cbn.
    + by rewrite length_insert.
    + lia.
    + intros k lk Hk. thread_cases Hk; [by apply (H3 t _ Hl)|eauto].
    + intros k lk Hk Hfk. thread_cases Hk.
      assert (t ≠ k) as Hne by done.
      pose proof (count_two filling _ _ _ _ _ Hne Hl Hk eq_refl Hfk). lia.
    + intros _. left. eauto.
Qed.

Lemma c_string_uniform c : c ≠ NUL → c_string (uniform c) = replicate 127 c.
Proof.
  intros Hc. unfold uniform. generalize 127. intros k.
  induction k as [|k IH]; cbn; [done|]. by rewrite decide_False, IH.
Qed.

Lemma letter_not_nul t : 1 ≤ t ≤ 26 → letter t ≠ NUL.
Proof.
  intros Ht E. assert (t ∈ seq 1 26) as Hin by (apply elem_of_seq; lia).
  revert t Hin Ht E. apply (Forall_forall (λ t, 1 ≤ t ≤ 26 → letter t = NUL → False)).
  repeat constructor; by vm_compute.
Qed.

(** With the compare-and-swap every run of 7_spin_lock.c that prints prints 127 times
    the letter of one thread; with the test and the assignment of 6_bad_lock.c apart two
    threads can both fill the string, which comes out mixed. *)
Theorem fill_needs_spin_lock n :
  1 ≤ n ≤ 26 →
  (∀ c v, reachable (tstep true n) (start n) c → threads c !! 0 = Some (Printed v) →
    ∃ t, 1 ≤ t ≤ n ∧ v = replicate 127 (letter t)) ∧
  (∃ c v, reachable (tstep false 2) (start 2) c ∧ threads c !! 0 = Some (Printed v) ∧
    letter 1 ∈ v ∧ letter 2 ∈ v).
Proof.
  intros Hn. split.
  - intros c v Hr Hv. destruct (printed_joined _ _ _ _ _ _ _ Hr Hv) as [-> Hx].
    assert (inv n (body (shared c)) (threads c)) as (H1 & H2 & H3 & H4 & H5).
    { eapply (fj_invariant (wstep true) Test print n (inv n)); [| | |apply fill_inv_start|exact Hr].
      - intros b ls i l l' Hi Hl Hm Hm'. apply (fill_inv_idle n b ls i l); destruct l, l'; done.
      - intros b ls i Hi Hl. by apply (fill_inv_idle n b ls i Spin).
      - intros. by eapply fill_inv_step. }
    destruct (lookup_lt_is_Some_2 (threads c) 1) as [l Hl]; [lia|].
    pose proof (Hx 1 l Hl ltac:(lia)) as ->.
    assert (lock (body (shared c)) = false) as Hlk.
    { destruct (lock (body (shared c))) eqn:E; [|done].
      destruct (count_exists filling (threads c)) as (i & x & Hi & Hfx); [lia|].
      destruct i as [|i]; [by rewrite Hv in Hi; simplify_eq|].
      pose proof (Hx _ _ Hi ltac:(lia)). by subst. }
    destruct (H5 Hlk) as [(t & Ht & E)|[_ Hno]]; [|by destruct (Hno 1)].
    exists t. split; [done|]. unfold print. rewrite E. apply c_string_uniform, letter_not_nul. lia.
  - pose (xs := [(0, 0); (1, 0); (2, 0); (1, 0); (2, 0); (1, 0); (1, 0); (2, 0)] ++
      replicate 128 (2, 0) ++ replicate 127 (1, 0) ++ replicate 3 (0, 0)).
    destruct (run_schedule (tstep false 2) xs (start 2)) as [c|] eqn:E; [|by vm_compute in E].
    assert (threads c !! 0 = Some (Printed (letter 2 :: replicate 126 (letter 1)))) as Hv.
    { by vm_compute in E; simplify_eq; vm_compute. }
    exists c, (letter 2 :: replicate 126 (letter 1)). split_and!; [by eapply run_schedule_reachable|done| |].
    + right. by left.
    + by left.
Qed.

Lemma fill_needs_spin_lock_witness :
  ∃ c v, reachable (tstep false 2) (start 2) c ∧ threads c !! 0 = Some (Printed v) ∧
    letter 1 ∈ v ∧ letter 2 ∈ v.
Proof. apply (fill_needs_spin_lock 6). lia. Defined.

End Fill.

(** ** 8_futex.c *)

Module Futex.

(** The lock word, the counter, and the threads that sleep in the system call. *)
Record globals : Type := mk_globals { futex : Z; counter : Z; sleepers : gset nat }.

(** [thread_f] behind [while (! start)], in round [i] of the for loop. *)
Inductive pc : Type :=
| Round (i : nat)            (* at the head of the loop *)
| futex_lock (i : nat)       (* before the compare-and-swap *)
| futex_wait (i : nat)       (* the compare-and-swap has failed: before the system call *)
| Asleep (i : nat)           (* in FUTEX_WAIT *)
| Read (i : nat)             (* holds the lock: before the read of counter *)
| Write (i : nat) (r : Z)    (* before counter = r + 1 *)
| futex_unlock (i : nat)     (* before the compare-and-swap *)
| futex_wake (i : nat).      (* before FUTEX_WAKE *)

(** The steps of a thread that makes [rounds] rounds. *)
Definition wstep (rounds : nat) (t : nat) (w : pc) (s : globals) : list (option pc * globals) :=
  match w with
  | Round i => if (i <? rounds)%nat then [(Some (futex_lock i), s)] else [(None, s)]
  | futex_lock i =>
      if (futex s =? 0)%Z then [(Some (Read i), mk_globals 1 (counter s) (sleepers s))]
      else [(Some (futex_wait i), s)]
  | futex_wait i =>
      if (futex s =? 1)%Z
      then [(Some (Asleep i), mk_globals (futex s) (counter s) ({[t]} ∪ sleepers s))]
      else [(Some (futex_lock i), s)]
  | Asleep i => if bool_decide (t ∈ sleepers s) then [] else [(Some (futex_lock i), s)]
  | Read i => [(Some (Write i (counter s)), s)]
  | Write i r => [(Some (futex_unlock i), mk_globals (futex s) (int_wrap (r + 1)) (sleepers s))]
  | futex_unlock i =>
      [(Some (futex_wake i),
        mk_globals (if (futex s =? 1)%Z then 0 else futex s) (counter s) (sleepers s))]
  | futex_wake i =>
      (λ g, (Some (Round (i + 1)), mk_globals (futex s) (counter s) g)) <$> notify_one (sleepers s)
  end.

Definition tstep (n rounds : nat) := fj_step (wstep rounds) (Round 0) counter n.
Definition start (n : nat) : config (program globals) (place pc Z) :=
  fj_start n (mk_globals 0 0 ∅).

(** Between the compare-and-swaps. *)
Definition critical (l : place pc Z) : bool :=
  match l with Work (Read _) | Work (Write _ _) | Work (futex_unlock _) => true | _ => false end.
(** Going to wake a sleeper. *)
Definition waking (l : place pc Z) : bool :=
  match l with Work (futex_wake _) => true | _ => false end.
(** Awake, and about to try to lock. *)
Definition trying (g : gset nat) (t : nat) (l : place pc Z) : Prop :=
  match l with
  | Work (futex_lock _) | Work (futex_wait _) => True
  | Work (Asleep _) => t ∉ g
  | _ => False
  end.

(** How often a thread has incremented the counter. *)
Definition incremented (rounds : nat) (l : place pc Z) : Z :=
  match l with
  | Work (Round i) | Work (futex_lock i) | Work (futex_wait i) | Work (Asleep i)
  | Work (Read i) | Work (Write i _) => Z.of_nat i
  | Work (futex_unlock i) | Work (futex_wake i) => Z.of_nat (i + 1)
  | Exited => Z.of_nat rounds
  | _ => 0
  end.

(** The round of a thread is one of [rounds]. *)
Definition in_round (rounds : nat) (l : place pc Z) : Prop :=
  match l with
  | Work (Round i) => i ≤ rounds
  | Work (futex_lock i) | Work (futex_wait i) | Work (Asleep i) | Work (Read i)
  | Work (Write i _) | Work (futex_unlock i) | Work (futex_wake i) => i < rounds
  | _ => True
  end.

Record inv (n rounds : nat) (s : globals) (ls : list (place pc Z)) : Prop := mk_inv {
  inv_length : length ls = n + 1;
  inv_main : ∀ t l, ls !! t = Some l → in_main l = (t =? 0)%nat;
  inv_futex : futex s = Z.of_nat (count critical ls) ∧ count critical ls ≤ 1;
  inv_counter : counter s = total (incremented rounds) ls;
  inv_read : ∀ t i r, ls !! t = Some (Work (Write i r)) → r = counter s;
  inv_round : ∀ t l, ls !! t = Some l → in_round rounds l;
  inv_asleep : ∀ t, t ∈ sleepers s → ∃ i, ls !! t = Some (Work (Asleep i));
  inv_wake : ∀ t, t ∈ sleepers s → 0 < count critical ls ∨ 0 < count waking ls ∨
    ∃ k l, ls !! k = Some l ∧ trying (sleepers s) k l;
}.

(** No thread has made more than [rounds] increments. *)
Lemma incremented_le rounds l : in_round rounds l → (0 ≤ incremented rounds l ≤ Z.of_nat rounds)%Z.
Proof. destruct l as [| | | |[]|]; cbn; lia. Qed.

Lemma total_le rounds ls :
  (∀ t l, ls !! t = Some l → in_round rounds l) →
  (0 ≤ total (incremented rounds) ls ≤ Z.of_nat (length ls) * Z.of_nat rounds)%Z.
Proof.
  induction ls as [|l ls IH]; intros H; cbn [total length]; [lia|].
  pose proof (incremented_le rounds l (H 0 l eq_refl)).
  assert (∀ t l, ls !! t = Some l → in_round rounds l) as H' by (intros t; apply (H (Datatypes.S t))).
  specialize (IH H'). lia.
Qed.

Lemma futex_inv_start n rounds : inv n rounds (mk_globals 0 0 ∅) (Create :: replicate n Spin).
Proof.
  split; cbn.
  - rewrite length_replicate. lia.
  - intros [|t] l; [by intros [= <-]|]. cbn. by intros [-> _]%lookup_replicate.
  - rewrite count_replicate. cbn. lia.
  - induction n as [|n IH]; cbn in *; lia.
  - intros [|t] i r; [done|]. cbn. by intros [? _]%lookup_replicate.
  - intros [|t] l; [by intros [= <-]|]. cbn. by intros [-> _]%lookup_replicate.
  - set_solver.
  - set_solver.
Qed.

(** What a step has to establish. *)
Lemma futex_inv_intro n rounds s ls t l l' s' :
  inv n rounds s ls → ls !! t = Some l → in_main l = in_main l' →
  futex s' = (futex s - (if critical l then 1 else 0) + (if critical l' then 1 else 0))%Z →
  (critical l = false → critical l' = true → futex s = 0%Z) →
  counter s' = (counter s - incremented rounds l + incremented rounds l')%Z →
  (counter s' = counter s ∨ critical l = true) →
  (∀ i r, l' = Work (Write i r) → r = counter s') →
  in_round rounds l' →
  (∀ j, j ∈ sleepers s' → j = t ∧ (∃ i, l' = Work (Asleep i)) ∨ j ∈ sleepers s ∧ j ≠ t) →
  (∀ j, j ∈ sleepers s' → 0 < count critical (<[t:=l']> ls) ∨ 0 < count waking (<[t:=l']> ls) ∨
    ∃ k l, <[t:=l']> ls !! k = Some l ∧ trying (sleepers s') k l) →
  inv n rounds s' (<[t:=l']> ls).
Proof.
  intros [H1 H2 [H3 H3'] H4 H5 H6 H7 H8] Hl Hm Hf Hf0 Hc Hc' Hr Hin Hs Hw.
  pose proof (count_insert critical ls t l l' Hl) as Hcc. split; try done.
  - by rewrite length_insert.
  - intros k lk Hk. thread_cases Hk; [rewrite <-Hm|]; eauto.
  - destruct (critical l) eqn:E, (critical l') eqn:E'; lia.
  - rewrite (total_insert _ _ _ _ _ Hl). lia.
  - intros k i r Hk. thread_cases Hk; [by apply (Hr i)|]. rewrite (H5 _ _ _ Hk).
    destruct Hc' as [->|E]; [done|]. assert (t ≠ k) as Hne by done.
    pose proof (count_two critical _ _ _ _ _ Hne Hl Hk E eq_refl). lia.
  - intros k lk Hk. thread_cases Hk; [done|]. by apply (H6 k).
  - intros j Hj. destruct (Hs j Hj) as [[-> (i & ->)]|[Hj' Hne]].
    + exists i. by rewrite list_lookup_insert_eq by (by eapply lookup_lt_Some).
    + rewrite list_lookup_insert_ne by done. by apply H7.
Qed.

(** A thread that sleeps is at no other place. *)
Lemma sleepers_ne n rounds s ls t l :
  inv n rounds s ls → ls !! t = Some l → (∀ i, l = Work (Asleep i) → t ∉ sleepers s) →
  ∀ j, j ∈ sleepers s → j ≠ t.
Proof.
  intros Hi Hl Hne j Hj ->. destruct (inv_asleep _ _ _ _ Hi t Hj) as [i E].
  rewrite Hl in E. simplify_eq. by apply (Hne i).
Qed.

(** Somebody still wakes the sleepers when a thread steps that was not to do it. *)
Lemma wake_kept n rounds s ls t l l' :
  inv n rounds s ls → ls !! t = Some l → critical l = false → waking l = false →
  ¬ trying (sleepers s) t l →
  ∀ j, j ∈ sleepers s → 0 < count critical (<[t:=l']> ls) ∨ 0 < count waking (<[t:=l']> ls) ∨
    ∃ k l, <[t:=l']> ls !! k = Some l ∧ trying (sleepers s) k l.
Proof.
  intros Hi Hl Hc Hw Ht j Hj.
  pose proof (count_insert critical ls t l l' Hl) as Hcc. rewrite Hc in Hcc.
  pose proof (count_insert waking ls t l l' Hl) as Hww. rewrite Hw in Hww.
  destruct (inv_wake _ _ _ _ Hi j Hj) as [?|[?|(k & lk & Hk & Hkt)]]; [lia|lia|].
  right. right. exists k, lk. rewrite list_lookup_insert_ne; [done|]. intros ->. congruence.
Qed.

(** A thread goes from one idle place to another. *)
Lemma futex_inv_idle n rounds s ls t l l' :
  inv n rounds s ls → ls !! t = Some l → in_main l = in_main l' →
  critical l = false → waking l = false → critical l' = false →
  (∀ i, l ≠ Work (Asleep i)) → ¬ trying (sleepers s) t l →
  incremented rounds l = incremented rounds l' → in_round rounds l' →
  inv n rounds s (<[t:=l']> ls).
Proof.
  intros Hi Hl Hm Hc Hw Hc' Hna Ht He Hin.
  apply (futex_inv_intro n rounds s ls t l l' s Hi Hl Hm); rewrite ?Hc, ?Hc'; try done; try lia.
  - intros i r ->. done.
  - intros j Hj. right. split; [done|].
    apply (sleepers_ne n rounds s ls t l Hi Hl); [|done]. intros i ->. by destruct (Hna i).
  - by apply (wake_kept n rounds s ls t l).
Qed.

Lemma futex_inv_step n rounds s ls t w o s' :
  (Z.of_nat (n + 1) * Z.of_nat rounds < 2 ^ 31)%Z →
  inv n rounds s ls → ls !! t = Some (Work w) → (o, s') ∈ wstep rounds t w s →
  inv n rounds s' (<[t:=after o]> ls).
Proof.
  intros Hb Hi Hl Hs. pose proof (inv_round _ _ _ _ Hi t _ Hl) as Hr. cbn in Hr.
  pose proof (inv_futex _ _ _ _ Hi) as [Hfu Hf1].
  assert (∀ l' : place pc Z, <[t:=l']> ls !! t = Some l') as Ht'
    by (intros; apply list_lookup_insert_eq; by eapply lookup_lt_Some).
  destruct w as [i|i|i|i|i|i r|i|i]; cbn [wstep] in Hs; outcomes Hs; cbn [after].
  - apply Nat.ltb_lt in Heqb. apply (futex_inv_idle n rounds s ls t _ _ Hi Hl); cbn; try done; tauto.
  - apply Nat.ltb_ge in Heqb. apply (futex_inv_idle n rounds s ls t _ _ Hi Hl); cbn; try done; lia || tauto.
  - (* the compare-and-swap succeeds *)
    apply Z.eqb_eq in Heqb.
    apply (futex_inv_intro n rounds s ls t _ _ _ Hi Hl); cbn; try done; try lia; try by intros.
    + intros j Hj. right. split; [done|]. by eapply sleepers_ne.
    + intros j Hj. left. by eapply count_pos; [apply Ht'|].
  - (* it fails *)
    apply (futex_inv_intro n rounds s ls t _ _ _ Hi Hl); cbn; try done; try lia; try by intros.
    + intros j Hj. right. split; [done|]. by eapply sleepers_ne.
    + intros j Hj. right. right. eexists t, _. split; [apply Ht'|done].
  - (* FUTEX_WAIT sleeps *)
    apply Z.eqb_eq in Heqb.
    apply (futex_inv_intro n rounds s ls t _ _ _ Hi Hl); cbn; try done; try lia; try by intros.
    + intros j [->%elem_of_singleton|Hj]%elem_of_union; [left; eauto|].
      right. split; [done|]. by eapply sleepers_ne.
    + intros j Hj. left.
      pose proof (count_insert critical ls t _ (Work (Asleep i)) Hl) as Hc. cbn in Hc. lia.
  - (* it returns at once *)
    apply (futex_inv_intro n rounds s ls t _ _ _ Hi Hl); cbn; try done; try lia; try by intros.
    + intros j Hj. right. split; [done|]. by eapply sleepers_ne.
    + intros j Hj. right. right. eexists t, _. split; [apply Ht'|done].
  - (* woken *)
    apply bool_decide_eq_false in Heqb.
    apply (futex_inv_intro n rounds s ls t _ _ _ Hi Hl); cbn; try done; try lia; try by intros.
    + intros j Hj. right. split; [done|]. by intros ->.
    + intros j Hj. right. right. eexists t, _. split; [apply Ht'|done].
  - apply (futex_inv_intro n rounds s ls t _ _ _ Hi Hl); cbn; try done; try lia; try by intros.
    + intros j r [= <- <-]. done.
    + intros j Hj. right. split; [done|]. by eapply sleepers_ne.
    + intros j Hj. left. by eapply count_pos; [apply Ht'|].
  - (* the increment *)
    rewrite (inv_read _ _ _ _ Hi t i r Hl) in *.
    assert (int_wrap (counter s + 1) = counter s + 1)%Z as Ew.
    { apply int_wrap_small. unfold i32_range. rewrite (inv_counter _ _ _ _ Hi).
      pose proof (total_insert (incremented rounds) ls t _ (Work (Round (i + 1))) Hl) as Ht.
      pose proof (total_le rounds (<[t:=Work (Round (i + 1))]> ls)) as Hle. rewrite length_insert in Hle.
      destruct Hle as [_ Hle].
      { intros k lk Hk. thread_cases Hk; [cbn; lia|]. by apply (inv_round _ _ _ _ Hi k). }
      pose proof (total_le rounds ls (inv_round _ _ _ _ Hi)) as [H0 _].
      rewrite (inv_length _ _ _ _ Hi) in Hle. cbn [incremented] in Ht. lia. }
    apply (futex_inv_intro n rounds s ls t _ _ _ Hi Hl); cbn; try done; try lia; try by intros; [by right| |].
    + intros j Hj. right. split; [done|]. by eapply sleepers_ne.
    + intros j Hj. left. by eapply count_pos; [apply Ht'|].
  - (* the lock is released *)
    pose proof (count_pos critical _ _ _ Hl eq_refl) as Hpos.
    assert (futex s = 1%Z) as Ef by lia. rewrite Ef.
    apply (futex_inv_intro n rounds s ls t _ _ _ Hi Hl); cbn; try done; try lia; try by intros.
    + intros j Hj. right. split; [done|]. by eapply sleepers_ne.
    + intros j Hj. right. left. by eapply count_pos; [apply Ht'|].
  - (* FUTEX_WAKE *)
    apply list_elem_of_fmap in Hs as (g & ? & Hg). simplify_eq. cbn [after].
    assert (∀ j, j ∈ g → j ∈ sleepers s) as Hsub
      by (destruct (notify_one_spec _ _ Hg) as [[_ ->]|(j & _ & ->)]; set_solver).
    apply (futex_inv_intro n rounds s ls t _ _ _ Hi Hl); cbn; try done; try lia; try by intros.
    + intros j Hj. right. split; [by apply Hsub|]. eapply sleepers_ne; [done..|by apply Hsub].
    + intros j Hj. right. right. destruct (notify_one_spec _ _ Hg) as [[_ ->]|(k & Hk & ->)]; [set_solver|].
      destruct (inv_asleep _ _ _ _ Hi k Hk) as [m Hm]. exists k, (Work (Asleep m)).
      rewrite list_lookup_insert_ne by (intros ->; congruence). split; [done|]. cbn. set_solver.
Qed.

(** A thread without a step sleeps. *)
Lemma blocked rounds t w s : wstep rounds t w s = [] → ∃ i, w = Asleep i ∧ t ∈ sleepers s.
Proof.
  destruct w as [i|i|i|i|i|i r|i|i]; cbn; try (by repeat case_match).
  - case_bool_decide; [eauto|done].
  - intros E%fmap_nil_inv. by apply notify_one_nonempty in E.
Qed.

(** C26: with the futex lock at most one thread is at the increment at any time, [main]
    prints exactly the number of all increments, and the program never gets stuck before:
    a sleeping thread is never forgotten. *)
Theorem futex_counts n rounds c :
  (Z.of_nat (n + 1) * Z.of_nat rounds < 2 ^ 31)%Z →
  reachable (tstep n rounds) (start n) c →
  count critical (threads c) ≤ 1 ∧
  (∀ v, threads c !! 0 = Some (Printed v) → v = (Z.of_nat n * Z.of_nat rounds)%Z) ∧
  ((∀ v, threads c !! 0 ≠ Some (Printed v)) → ∃ c', step (tstep n rounds) c c').
Proof.
  intros Hb Hr.
  assert (inv n rounds (body (shared c)) (threads c)) as Hi.
  { eapply (fj_invariant (wstep rounds) (Round 0) counter n (inv n rounds)); [| | |apply futex_inv_start|exact Hr].
    - intros b ls i l l' Hi Hl Hm Hm'. apply (futex_inv_idle n rounds b ls i l); destruct l, l'; done || tauto.
    - intros b ls i Hi Hl. apply (futex_inv_idle n rounds b ls i Spin); cbn; done || lia || tauto.
    - intros. by eapply futex_inv_step. }
  split_and!; [apply Hi| |].
  - intros v Hv. destruct (printed_joined _ _ _ _ _ _ _ Hr Hv) as [-> Hx].
    rewrite (inv_counter _ _ _ _ Hi). pose proof (inv_length _ _ _ _ Hi) as Hlen.
    destruct (threads c) as [|l ls]; [done|]. cbn in Hv. simplify_eq. cbn [total incremented].
    rewrite (total_all _ ls (Z.of_nat rounds)); [cbn in Hlen; lia|].
    intros i x Hx'. by rewrite (Hx (Datatypes.S i) x Hx' ltac:(lia)).
  - intros Hnp. pose proof (fj_joined _ _ _ _ _ _ Hr) as Hj.
    destruct (fj_progress (wstep rounds) (Round 0) counter n c Hj Hnp) as [?|(i & w & Hw & E)]; [done|].
    apply blocked in E as (k & -> & Hsl).
    assert (∃ j w, threads c !! j = Some (Work w) ∧ wstep rounds j w (body (shared c)) ≠ []) as (j & w & Hj' & Hne).
    { destruct (inv_wake _ _ _ _ Hi i Hsl) as [Hc|[Hc|(j & l & Hjl & Ht)]].
      - apply count_exists in Hc as (j & l & Hjl & Hc). destruct l as [| | | |w|]; try done.
        exists j, w. split; [done|]. intros (m & -> & _)%blocked. done.
      - apply count_exists in Hc as (j & l & Hjl & Hc). destruct l as [| | | |w|]; try done.
        exists j, w. split; [done|]. intros (m & -> & _)%blocked. done.
      - destruct l as [| | | |w|]; try done.
        exists j, w. split; [done|]. by intros (m & -> & ?)%blocked. }
    by eapply fj_worker_step.
Qed.

Lemma futex_counts_witness :
  ∃ c, reachable (tstep 6 100000) (start 6) c ∧ count critical (threads c) ≤ 1 ∧
    ∃ c', step (tstep 6 100000) c c'.
Proof.
  destruct (run_schedule (tstep 6 100000) [(0, 0); (2, 0); (2, 0); (2, 0); (3, 0); (3, 0); (3, 0); (3, 0)] (start 6))
    as [c|] eqn:E; [|by vm_compute in E].
  exists c. assert (reachable (tstep 6 100000) (start 6) c) as Hr by (by eapply run_schedule_reachable).
  split; [done|]. destruct (futex_counts 6 100000 c) as (H1 & _ & H3); [by vm_compute|done|].
  split; [done|]. apply H3. intros v Hv. by vm_compute in E; simplify_eq.
Defined.

End Futex.
