(* ===== verification/FileLocks.v ===== *)
(** * Locks on a file

    Model of src/sysprog/lecture_examples/9_aio/3_fcntl_lock.c: processes that read
    commands and lock ranges of one file with fcntl, or write to it.  The record locks are
    those of POSIX; the lines, the order in which the processes run and the answers to
    write are arguments. *)

From S2P Require Import Prelude CStrings Concur.

(** ** Record locks *)

(** The bytes from [first] to [last_], for a process, to read or to write. *)
Record lock : Type := mk_lock { owner : nat; excl : bool; first : Z; last_ : Z }.

(** The largest offset of a file. *)
Definition OFFSET_MAX : Z := 2 ^ 63 - 1.

(** A lock of process [i] without the bytes from [s] to [e]. *)
Definition cut (i : nat) (s e : Z) (l : lock) : list lock :=
  if negb (owner l =? i) then [l] else
  let left := mk_lock i (excl l) (first l) (Z.min (last_ l) (s - 1)) in
  let right := mk_lock i (excl l) (Z.max (first l) (e + 1)) (last_ l) in
  (if first left <=? last_ left then [left] else [])%Z ++
  (if first right <=? last_ right then [right] else [])%Z.

(** A lock replaces what the process had on the range; [None] unlocks it. *)
Definition set_lock (i : nat) (t : option bool) (s e : Z) (ls : list lock) : list lock :=
  flat_map (cut i s e) ls ++ match t with Some w => [mk_lock i w s e] | None => [] end.

(** A lock of another process that forbids one of type [t] on the range. *)
Definition conflicts (i : nat) (w : bool) (s e : Z) (l : lock) : bool :=
  negb (owner l =? i) && (w || excl l) && (first l <=? e)%Z && (s <=? last_ l)%Z.

(** Unlocking is always possible. *)
Definition free (i : nat) (t : option bool) (s e : Z) (ls : list lock) : bool :=
  match t with Some w => negb (existsb (conflicts i w s e) ls) | None => true end.

(** The types: F_RDLCK is [Some false], F_WRLCK is [Some true], F_UNLCK is [None]. *)
Inductive whence : Type := SEEK_SET | SEEK_CUR | SEEK_END.

(** [struct flock] *)
Record flock : Type := mk_flock { l_type : option bool; l_whence : whence; l_start : Z; l_len : Z }.

(** The range it means, for a file of [size] bytes and an offset; nothing for EINVAL. *)
Definition range (fl : flock) (offset size : Z) : option (Z * Z) :=
  let s := (l_start fl + match l_whence fl with SEEK_SET => 0 | SEEK_CUR => offset | SEEK_END => size end)%Z in
  if (s <? 0)%Z || (OFFSET_MAX <? s)%Z then None
  else if (l_len fl =? 0)%Z then Some (s, OFFSET_MAX)
  else if (0 <? l_len fl)%Z then
    if (OFFSET_MAX <? s + l_len fl - 1)%Z then None else Some (s, s + l_len fl - 1)%Z
  else if (s + l_len fl <? 0)%Z then None else Some (s + l_len fl, s - 1)%Z.

(** ** The processes *)

(** Where a process is: before [getline], in F_SETLKW, with [n] characters to write, or
    gone. *)
Inductive spot : Type :=
| Reads | Locking (t : option bool) (s e : Z) | Writing (n : Z) (c : ascii) | Gone.

Record proc : Type := mk_proc { at_ : spot; offset : Z }.

(** What a process prints. *)
Inductive reply : Type := Ok | Error | Unknown_command | No_lock | Held_by (pid : nat).

Record system : Type := mk_system {
  file : bytes;
  locks : list lock;
  procs : list proc;
  said : list (nat * reply);
}.

Definition start (n : nat) : system := mk_system [] [] (replicate n (mk_proc Reads 0)) [].

(** Process [i] is at [p], and has printed [r]. *)
Definition goes (i : nat) (p : proc) (r : list reply) (s : system) : system :=
  mk_system (file s) (locks s) (<[i := p]> (procs s)) (said s ++ (pair i <$> r)).
Definition set_locks (ls : list lock) (s : system) : system := mk_system (file s) ls (procs s) (said s).
Definition set_file (f : bytes) (s : system) : system := mk_system f (locks s) (procs s) (said s).

(** Bytes at an offset of the file; a gap in front of them reads as zeros. *)
Definition write_at (f : bytes) (o : nat) (d : bytes) : bytes :=
  match d with [] => f | _ => take o (f ++ replicate (o - length f) NUL) ++ d ++ drop (o + length d) f end.

(** [char_to_whence] *)
Definition char_to_whence (c : ascii) : whence :=
  if decide (c = "s"%char) then SEEK_SET
  else if decide (c = "e"%char) then SEEK_END else SEEK_CUR.

(** [char_to_type] *)
Definition char_to_type (c : ascii) : option bool :=
  if decide (c = "r"%char) then Some false
  else if decide (c = "w"%char) then Some true else None.

(** [sscanf(cmd, "%c %c %d %d", ...)]; what is not there stays uninitialised, and is read. *)
Definition scan_lock (cmd : bytes) : ub + flock :=
  match scan_char cmd with
  | None => inl Uninitialised
  | Some (type, r) =>
      match scan_char (skip_space r) with
      | None => inl Uninitialised
      | Some (wh, r) =>
          match scan_int r with
          | None => inl Uninitialised
          | Some (start, r) =>
              if negb (bool_decide (i32_range start)) then inl SignedOverflow else
              match scan_int r with
              | None => inl Uninitialised
              | Some (len, _) =>
                  if negb (bool_decide (i32_range len)) then inl SignedOverflow
                  else inr (mk_flock (char_to_type type) (char_to_whence wh) start len)
              end
          end
      end
  end.

(** ** The loop of [main] *)

(** [write_symbols] when it has [n] characters left to write. *)
Definition writes (i : nat) (n : Z) (c : ascii) (o : Z) (s : system) : system :=
  if (n <=? 0)%Z then goes i (mk_proc Reads o) [Ok] s else goes i (mk_proc (Writing n c) o) [] s.

Definition write_symbols (i : nat) (cmd : bytes) (p : proc) (s : system) : attempt system :=
  match scan_int cmd with
  | None => Undefined Uninitialised
  | Some (n, r) =>
      if negb (bool_decide (i32_range n)) then Undefined SignedOverflow
      else match scan_char (skip_space r) with
           | Some (c, _) => Next (writes i n c (offset p) s)
           | None => if (n <=? 0)%Z then Next (goes i p [Ok] s) else Undefined Uninitialised
           end
  end.

(** [do_lock]: F_SETLK answers at once, F_SETLKW when the range is free. *)
Definition do_lock (i : nat) (block : bool) (cmd : bytes) (p : proc) (s : system) : attempt system :=
  match scan_lock cmd with
  | inl u => Undefined u
  | inr fl =>
      match range fl (offset p) (bsize (file s)) with
      | None => Next (goes i p [Error] s)
      | Some (f, l) =>
          if block then Next (goes i (mk_proc (Locking (l_type fl) f l) (offset p)) [] s)
          else if free i (l_type fl) f l (locks s)
          then Next (goes i p [Ok] (set_locks (set_lock i (l_type fl) f l (locks s)) s))
          else Next (goes i p [Error] s)
      end
  end.

(** [get_lock]: F_GETLK tells of one of the locks in the way, the one that is picked, and
    refuses the type F_UNLCK. *)
Definition get_lock (i pick : nat) (cmd : bytes) (p : proc) (s : system) : attempt system :=
  match scan_lock cmd with
  | inl u => Undefined u
  | inr fl =>
      match l_type fl, range fl (offset p) (bsize (file s)) with
      | Some w, Some (f, l) =>
          match filter (λ x, conflicts i w f l x = true) (locks s) with
          | [] => Next (goes i p [No_lock; Ok] s)
          | x :: xs => Next (goes i p [Held_by (owner (nth pick (x :: xs) x)); Ok] s)
          end
      | _, _ => Next (goes i p [Error] s)
      end
  end.

(** [strsep(&line, " \n")]: the command, and its arguments, a null pointer when there is no
    delimiter. *)
Definition strsep (l : bytes) : bytes * option bytes :=
  let '(cmd, r) := span (λ c, negb (bool_decide (c = SP ∨ c = LF))) l in
  (cmd, match r with [] => None | _ :: args => Some args end).

(** A command that scans its arguments. *)
Definition with_args (args : option bytes) (f : bytes → attempt system) : attempt system :=
  match args with Some a => f a | None => Undefined NullDeref end.

(** A turn of the loop on the line in the buffer; the C library prints a null pointer as
    text. *)
Definition command (i pick : nat) (raw : bytes) (p : proc) (s : system) : attempt system :=
  match c_string raw with
  | [] => Undefined OutOfBounds                 (* line[strlen(line) - 1] *)
  | l =>
      let '(cmd, line) := strsep (removelast l) in
      if decide (cmd = lit "write") then with_args line (λ a, write_symbols i a p s)
      else if decide (cmd = lit "lock") then with_args line (λ a, do_lock i false a p s)
      else if decide (cmd = lit "lockb") then with_args line (λ a, do_lock i true a p s)
      else if decide (cmd = lit "getlock") then with_args line (λ a, get_lock i pick a p s)
      else Next (goes i p [Unknown_command] s)
  end.

(** [getline] returns a line or ends; or the kernel answers F_SETLKW or [write]: success, or
    -1 (a signal, EDEADLK, no space). *)
Inductive event : Type := Line (raw : bytes) (pick : nat) | Eof | Answer (ok : bool).

Definition step (e : nat * event) (s : system) : attempt system :=
  let '(i, e) := e in
  match procs s !! i with
  | None => Blocked
  | Some p =>
      match at_ p, e with
      | Reads, Line raw pick => command i pick raw p s
      | Reads, Eof =>
          (* close, and the end of the process *)
          Next (goes i (mk_proc Gone (offset p)) []
                  (set_locks (filter (λ l, owner l ≠ i) (locks s)) s))
      | Locking t f l, Answer true =>
          if free i t f l (locks s)
          then Next (goes i (mk_proc Reads (offset p)) [Ok] (set_locks (set_lock i t f l (locks s)) s))
          else Blocked
      | Locking _ _ _, Answer false => Next (goes i (mk_proc Reads (offset p)) [Error] s)
      | Writing n c, Answer true =>
          Next (writes i (n - 1) c (offset p + 1)
                  (set_file (write_at (file s) (Z.to_nat (offset p)) [c]) s))
      | Writing _ _, Answer false => Next (goes i (mk_proc Reads (offset p)) [Error] s)
      | _, _ => Blocked
      end
  end.

Definition run : list (nat * event) → system → attempt system := run_labels step.

(** ** What the locks mean *)

(** Process [i] has byte [b] locked, to write or to read. *)
Definition holds (ls : list lock) (i : nat) (b : Z) (w : bool) : Prop :=
  ∃ l, l ∈ ls ∧ owner l = i ∧ excl l = w ∧ (first l ≤ b ≤ last_ l)%Z.

(** A byte is locked by one writer or by readers. *)
Definition exclusive (ls : list lock) : Prop :=
  ∀ i j b w, holds ls i b true → holds ls j b w → i = j ∧ w = true.

(** *** Facts *)

Lemma cut_spec i s e l x b : x ∈ cut i s e l → (first x ≤ b ≤ last_ x)%Z →
  owner x = owner l ∧ excl x = excl l ∧ (first l ≤ b ≤ last_ l)%Z ∧ ¬ (owner l = i ∧ s ≤ b ≤ e)%Z.
Proof.
  unfold cut. destruct (Nat.eqb_spec (owner l) i) as [<-|Hne]; cbn.
  - intros [H|H]%elem_of_app; (case_match; [|by apply not_elem_of_nil in H]);
      apply list_elem_of_singleton in H as ->; cbn; intros; split_and!; try done; lia.
  - intros ->%list_elem_of_singleton Hb. split_and!; try done; [lia..|]. by intros [? _].
Qed.

Lemma cut_back i s e l b : (first l ≤ b ≤ last_ l)%Z → ¬ (owner l = i ∧ s ≤ b ≤ e)%Z →
  ∃ x, x ∈ cut i s e l ∧ owner x = owner l ∧ excl x = excl l ∧ (first x ≤ b ≤ last_ x)%Z.
Proof.
  intros Hb Hn. unfold cut. destruct (Nat.eqb_spec (owner l) i) as [Ho|Hne]; cbn.
  2: { exists l. split_and!; try done; [by constructor|lia..]. }
  destruct (decide (b < s)%Z) as [Hl|Hl].
  - exists (mk_lock i (excl l) (first l) (Z.min (last_ l) (s - 1))). cbn.
    rewrite (proj2 (Z.leb_le _ _)) by lia. split_and!; try done; [by constructor|lia..].
  - exists (mk_lock i (excl l) (Z.max (first l) (e + 1)) (last_ l)). cbn.
    rewrite (proj2 (Z.leb_le (Z.max _ _) _)) by lia.
    split_and!; try done; [|lia..]. apply elem_of_app. right. by constructor.
Qed.

(** Locking replaces exactly the locks of the process on the range. *)
Lemma holds_set i t s e ls j b w :
  holds (set_lock i t s e ls) j b w ↔
  (j = i ∧ (s ≤ b ≤ e)%Z ∧ t = Some w) ∨ (holds ls j b w ∧ ¬ (j = i ∧ s ≤ b ≤ e)%Z).
Proof.
  unfold holds, set_lock. split.
  - intros (x & [Hx|Hx]%elem_of_app & Ho & Hw & Hb).
    + apply list_elem_of_In, in_flat_map in Hx as (l & Hl%list_elem_of_In & Hx%list_elem_of_In).
      destruct (cut_spec _ _ _ _ _ _ Hx Hb) as (Ho' & Hw' & Hb' & Hn). right.
      split; [|by rewrite <-Ho, Ho']. exists l. by rewrite <-Ho', <-Hw'.
    + destruct t as [v|]; [|by apply not_elem_of_nil in Hx].
      apply list_elem_of_singleton in Hx as ->. cbn in *. left. by subst.
  - intros [(-> & Hb & ->)|[(l & Hl & Ho & Hw & Hb) Hn]].
    + exists (mk_lock i w s e). split_and!; try done; [|cbn; lia..].
      apply elem_of_app. right. by constructor.
    + destruct (cut_back i s e l b Hb) as (x & Hx & Hox & Hwx & Hbx); [by rewrite Ho|].
      exists x. rewrite Hox, Hwx. split_and!; try done; [|lia..].
      apply elem_of_app. left. apply list_elem_of_In, in_flat_map.
      exists l. by rewrite <-!list_elem_of_In.
Qed.

Lemma conflicts_spec i w s e l : conflicts i w s e l = true ↔
  owner l ≠ i ∧ (w = true ∨ excl l = true) ∧ (first l ≤ e)%Z ∧ (s ≤ last_ l)%Z.
Proof.
  unfold conflicts. rewrite !andb_true_iff, orb_true_iff, negb_true_iff, Nat.eqb_neq, !Z.leb_le. tauto.
Qed.

Definition valid (l : lock) : Prop := (0 ≤ first l ≤ last_ l ∧ last_ l ≤ OFFSET_MAX)%Z.

(** A lock is possible when no byte of the range is locked in a way that forbids it. *)
Lemma free_spec i w s e ls : Forall valid ls → (s ≤ e)%Z →
  free i (Some w) s e ls = true ↔
  ∀ j b w', (s ≤ b ≤ e)%Z → holds ls j b w' → j = i ∨ w = false ∧ w' = false.
Proof.
  intros Hv Hse. unfold free. rewrite negb_true_iff, <-not_true_iff_false, existsb_exists. split.
  - intros Hno j b w' Hb (l & Hl & Ho & Hw & Hb').
    destruct (decide (j = i)) as [|Hne]; [by left|]. right.
    destruct w, w'; try done; exfalso; apply Hno; exists l; rewrite <-list_elem_of_In, conflicts_spec, Ho, Hw;
      (split; [done|]); split_and!; auto; lia.
  - intros H (l & Hl%list_elem_of_In & (Ho & Hw & H1 & H2)%conflicts_spec).
    rewrite Forall_forall in Hv. pose proof (Hv l Hl) as [Hr _].
    destruct (H (owner l) (Z.max s (first l)) (excl l)) as [|[-> Hx]]; [lia| |done|].
    + exists l. split_and!; try done; lia.
    + destruct Hw; congruence.
Qed.

Lemma exclusive_set i t s e ls :
  exclusive ls → Forall valid ls → (s ≤ e)%Z → free i t s e ls = true → exclusive (set_lock i t s e ls).
Proof.
  intros Hx Hv Hse Hf j k b w Hj Hk. rewrite holds_set in Hj, Hk.
  destruct Hj as [(-> & Hb & ->)|[Hj Hnj]], Hk as [(-> & Hb' & Hw)|[Hk Hnk]].
  - by injection Hw as <-.
  - rewrite free_spec in Hf by done. destruct (Hf _ _ _ Hb Hk) as [->|[? _]]; [tauto|done].
  - subst t. rewrite free_spec in Hf by done. destruct (Hf _ _ _ Hb' Hj) as [->|[_ ?]]; [tauto|done].
  - by eapply Hx.
Qed.

(** The pieces a lock is cut into. *)
Lemma cut_inv i s e l x : x ∈ cut i s e l →
  owner x = owner l ∧ (first l ≤ first x)%Z ∧ (last_ x ≤ last_ l)%Z ∧ (x = l ∨ (first x ≤ last_ x)%Z).
Proof.
  unfold cut. destruct (Nat.eqb_spec (owner l) i) as [<-|]; cbn.
  - intros [H|H]%elem_of_app; (case_match eqn:E; [|by apply not_elem_of_nil in H]);
      apply list_elem_of_singleton in H as ->; apply Z.leb_le in E; cbn; split_and!; auto; lia.
  - intros ->%list_elem_of_singleton. split_and!; auto; lia.
Qed.

Lemma Forall_set (P : lock → Prop) i t s e ls :
  (∀ l x, P l → x ∈ cut i s e l → P x) → (∀ w, t = Some w → P (mk_lock i w s e)) →
  Forall P ls → Forall P (set_lock i t s e ls).
Proof.
  intros Hcut Hnew Hls. unfold set_lock. apply Forall_app. split.
  - apply Forall_forall. intros x (l & Hl%list_elem_of_In & Hx%list_elem_of_In)%list_elem_of_In%in_flat_map.
    rewrite Forall_forall in Hls. eauto.
  - destruct t; repeat constructor. by apply Hnew.
Qed.

Lemma valid_set i t s e ls : Forall valid ls → (0 ≤ s ≤ e ∧ e ≤ OFFSET_MAX)%Z → Forall valid (set_lock i t s e ls).
Proof.
  intros Hv Hr. apply Forall_set; [|done|done].
  intros l x Hl (_ & ? & ? & [->|?])%cut_inv; unfold valid in *; lia.
Qed.

Lemma owners_set i t s e ls (P : nat → Prop) : P i → Forall (λ l, P (owner l)) ls → Forall (λ l, P (owner l)) (set_lock i t s e ls).
Proof. intros Hi. apply Forall_set; [|done]. by intros l x Hl (-> & _)%cut_inv. Qed.

Lemma range_valid fl o z f l : range fl o z = Some (f, l) → (0 ≤ f ≤ l ∧ l ≤ OFFSET_MAX)%Z.
Proof.
  unfold range. set (s := (l_start fl + _)%Z).
  destruct (Z.ltb_spec s 0); [done|]. destruct (Z.ltb_spec OFFSET_MAX s); [done|]. cbn.
  destruct (Z.eqb_spec (l_len fl) 0); [intros [= <- <-]; lia|].
  destruct (Z.ltb_spec 0 (l_len fl)).
  - destruct (Z.ltb_spec OFFSET_MAX (s + l_len fl - 1)); [done|]. intros [= <- <-]. lia.
  - destruct (Z.ltb_spec (s + l_len fl) 0); [done|]. intros [= <- <-]. lia.
Qed.

(** ** Every interleaving *)

Definition spot_ok (p : proc) : Prop :=
  match at_ p with Locking _ f l => (0 ≤ f ≤ l ∧ l ≤ OFFSET_MAX)%Z | _ => True end.

Definition lives (s : system) (i : nat) : Prop := ∃ p, procs s !! i = Some p ∧ at_ p ≠ Gone.

(** The state between the steps: locks that agree, of processes that are there. *)
Record good (s : system) : Prop := mk_good {
  good_exclusive : exclusive (locks s);
  good_valid : Forall valid (locks s);
  good_owners : Forall (λ l, lives s (owner l)) (locks s);
  good_spots : Forall spot_ok (procs s);
}.

(** What process [i] does to the locks: nothing, one change the kernel allows, or its end. *)
Inductive changes (i : nat) (s : system) (ls : list lock) (p' : proc) : Prop :=
| keeps : at_ p' ≠ Gone → ls = locks s → changes i s ls p'
| relocks t f l : at_ p' ≠ Gone → (0 ≤ f ≤ l ∧ l ≤ OFFSET_MAX)%Z → free i t f l (locks s) = true →
    ls = set_lock i t f l (locks s) → changes i s ls p'
| leaves : ls = filter (λ l, owner l ≠ i) (locks s) → changes i s ls p'.

(** A step of process [i] from [s] to [s']. *)
Definition acts (i : nat) (s s' : system) : Prop :=
  ∃ p', procs s' = <[i := p']> (procs s) ∧ spot_ok p' ∧ changes i s (locks s') p'.

Lemma acts_goes i p r s : at_ p ≠ Gone → spot_ok p → acts i s (goes i p r s).
Proof. intros. exists p. split_and!; try done. by apply keeps. Qed.

Lemma acts_writes i n c o s f : acts i s (writes i n c o (set_file f s)).
Proof. unfold writes. case_match; eexists; (split_and!; [done..|by apply keeps]). Qed.

Lemma acts_relocks i p r s t f l : at_ p ≠ Gone → spot_ok p → (0 ≤ f ≤ l ∧ l ≤ OFFSET_MAX)%Z →
  free i t f l (locks s) = true → acts i s (goes i p r (set_locks (set_lock i t f l (locks s)) s)).
Proof. intros. exists p. split_and!; try done. by eapply relocks. Qed.

#[local] Hint Resolve acts_goes acts_writes acts_relocks : core.

Lemma command_acts i pick raw p s s' : at_ p = Reads → command i pick raw p s = Next s' → acts i s s'.
Proof.
  intros Hp. assert (Hgone : at_ p ≠ Gone) by congruence. assert (Hok : spot_ok p) by (unfold spot_ok; by rewrite Hp).
  unfold command, with_args. destruct (c_string raw) as [|c l]; [done|].
  destruct (strsep _) as [cmd args]. repeat case_decide; destruct args as [a|]; try done.
  all: try (intros [= <-]; by eauto).
  - unfold write_symbols. repeat case_match; intros [= <-]; eauto. destruct s. apply (acts_writes _ _ _ _ (mk_system _ _ _ _)).
  - unfold do_lock. repeat case_match; intros [= <-]; eauto using range_valid.
  - unfold do_lock. repeat case_match; intros [= <-]; eauto. apply acts_goes; [done|]. by eapply range_valid.
  - unfold get_lock. repeat case_match; intros [= <-]; eauto.
Qed.

Lemma step_acts e s s' : Forall spot_ok (procs s) → step e s = Next s' → acts e.1 s s'.
Proof.
  destruct e as [i e]. intros Hs. unfold step. destruct (procs s !! i) as [p|] eqn:Ei; [|done].
  assert (Hp : spot_ok p) by (by eapply Forall_lookup_1). unfold spot_ok in Hp. cbn.
  destruct (at_ p) as [|t f l|n c|] eqn:Ep, e as [raw pick| |[]]; try done.
  - by apply command_acts.
  - intros [= <-]. eexists. split_and!; [done..|]. by apply leaves.
  - case_match; [|done]. intros [= <-]. by apply acts_relocks.
  - intros [= <-]. by apply acts_goes.
  - intros [= <-]. apply acts_writes.
  - intros [= <-]. by apply acts_goes.
Qed.

Lemma filter_holds i ls j b w : holds (filter (λ l, owner l ≠ i) ls) j b w ↔ holds ls j b w ∧ j ≠ i.
Proof. unfold holds. setoid_rewrite list_elem_of_filter. naive_solver. Qed.

(** Nobody else comes or goes. *)
Lemma acts_lives i s s' j : acts i s s' → lives s j → j ≠ i → lives s' j.
Proof. intros (p' & Hp & _) (p & Hj & ?) Hne. exists p. by rewrite Hp, list_lookup_insert_ne. Qed.

Lemma acts_good i s s' : good s → lives s i → acts i s s' → good s'.
Proof.
  intros [Hx Hv Ho Hs] (p & Hi & Hp) Ha. pose proof Ha as (p' & Hps & Hok & Hc).
  assert (Hspots : Forall spot_ok (procs s')) by (rewrite Hps; by apply Forall_insert).
  assert (Hlives : at_ p' ≠ Gone → ∀ j, lives s j → lives s' j).
  { intros Hg j Hj. destruct (decide (j = i)) as [->|]; [|by eapply acts_lives]. exists p'.
    split; [|done]. rewrite Hps. apply list_lookup_insert_eq. by eapply lookup_lt_Some. }
  destruct Hc as [Hg E|t f l Hg Hr Hf E|E]; constructor; rewrite ?E; try done.
  - eapply Forall_impl; eauto.
  - apply exclusive_set; try done. lia.
  - by apply valid_set.
  - apply owners_set; [apply Hlives; [done|by exists p]|]. eapply Forall_impl; eauto.
  - intros j k b w [Hj _]%filter_holds [Hk _]%filter_holds. by eapply Hx.
  - rewrite Forall_forall in *. intros l [_ Hl]%list_elem_of_filter. by apply Hv.
  - rewrite Forall_forall in *. intros l [Hne Hl]%list_elem_of_filter. eapply acts_lives; eauto.
Qed.

Lemma step_lives e s s' : step e s = Next s' → lives s e.1.
Proof.
  destruct e as [i e]. unfold step. destruct (procs s !! i) as [p|] eqn:Ei; [|done]. cbn.
  intros E. exists p. split; [done|]. intros Hg. by rewrite Hg in E.
Qed.

Lemma start_good n : good (start n).
Proof.
  constructor; cbn; [|by apply Forall_nil..|by apply Forall_replicate].
  by intros i j b w (l & Hl%not_elem_of_nil & _).
Qed.

Lemma run_good es n s : run es (start n) = Next s → good s.
Proof.
  intros E. unfold run in E. eapply (run_labels_invariant step good); [|apply start_good|done].
  intros e s1 s2 Hg Hs. eapply acts_good; [done|by eapply step_lives|].
  by eapply step_acts; [apply Hg|].
Qed.

(** In every interleaving of the processes and every order in which the kernel serves
    the ones that wait, a byte that one process has locked for writing is locked by nobody
    else, the locked bytes are offsets of a file, and who has them is a process that did not end. *)
Lemma locks_exclusive es n s : run es (start n) = Next s →
  exclusive (locks s) ∧ ∀ i b w, holds (locks s) i b w → (0 ≤ b ≤ OFFSET_MAX)%Z ∧ lives s i.
Proof.
  intros [Hx Hv Ho _]%run_good. split; [done|]. intros i b w (l & Hl & <- & _ & Hb).
  rewrite Forall_forall in Hv, Ho. pose proof (Hv l Hl) as [? ?]. split; [lia|by apply Ho].
Qed.

(** The arguments [a] ask a process at [o] for a lock of type [t] from [f] to [l]. *)
Definition asks (a : bytes) (o : Z) (s : system) (t : option bool) (f l : Z) : Prop :=
  ∃ fl, scan_lock a = inr fl ∧ l_type fl = t ∧ range fl o (bsize (file s)) = Some (f, l).

Lemma no_conflicts i w f l ls :
  filter (λ x, conflicts i w f l x = true) ls = [] ↔ free i (Some w) f l ls = true.
Proof.
  unfold free. rewrite negb_true_iff. induction ls as [|x ls IH]; [done|]. cbn [existsb].
  rewrite filter_cons. destruct (conflicts i w f l x); cbn; [by split|]. by rewrite decide_False.
Qed.

Lemma nth_conflict i w f l ls x xs pick :
  filter (λ x, conflicts i w f l x = true) ls = x :: xs →
  nth pick (x :: xs) x ∈ ls ∧ conflicts i w f l (nth pick (x :: xs) x) = true.
Proof.
  intros E. assert (Hin : nth pick (x :: xs) x ∈ x :: xs).
  { destruct (nth_in_or_default pick (x :: xs) x) as [?| ->]; [by apply list_elem_of_In|by constructor]. }
  rewrite <-E in Hin at 2. apply list_elem_of_filter in Hin as [? ?]. by split.
Qed.

(** When a process that runs asks for a lock, F_SETLK grants it exactly if F_GETLK says
    that there is no lock on the region.  Granted, the bytes of the range have the new type
    for the process and all other bytes and processes keep their locks; refused, nothing
    changes, and the process that F_GETLK names has a byte of the range locked so that the
    lock is impossible. *)
Theorem lock_answers es n s i p a w f l pick :
  run es (start n) = Next s → procs s !! i = Some p → asks a (offset p) s (Some w) f l →
  ∃ s1 s2, get_lock i pick a p s = Next s1 ∧ do_lock i false a p s = Next s2 ∧ locks s1 = locks s ∧
    ((said s1 = said s ++ [(i, No_lock); (i, Ok)] ∧ said s2 = said s ++ [(i, Ok)] ∧
      ∀ j b w', holds (locks s2) j b w' ↔
        (j = i ∧ (f ≤ b ≤ l)%Z ∧ w' = w) ∨ (holds (locks s) j b w' ∧ ¬ (j = i ∧ f ≤ b ≤ l)%Z)) ∨
     (∃ j b w', said s1 = said s ++ [(i, Held_by j); (i, Ok)] ∧ said s2 = said s ++ [(i, Error)] ∧
        locks s2 = locks s ∧ j ≠ i ∧ (f ≤ b ≤ l)%Z ∧ holds (locks s) j b w' ∧ (w = true ∨ w' = true))).
Proof.
  intros [_ Hv _ _]%run_good _ (fl & Ha & Ht & Hr). unfold get_lock, do_lock. rewrite Ha, Ht, Hr.
  destruct (filter _ _) as [|x xs] eqn:Ef.
  - rewrite (proj1 (no_conflicts _ _ _ _ _) Ef). eexists _, _. split_and!; [done..|]. left. split_and!; [done..|].
    intros j b v. cbn. rewrite holds_set. naive_solver.
  - destruct (free i (Some w) f l (locks s)) eqn:Hf; [by rewrite <-no_conflicts, Ef in Hf|].
    eexists _, _. split_and!; [done..|]. right.
    destruct (nth_conflict _ _ _ _ _ _ _ pick Ef) as [Hin Hy]. apply conflicts_spec in Hy as (Hne & Hw & H1 & H2).
    rewrite Forall_forall in Hv. pose proof (Hv _ Hin) as [? _]. pose proof (range_valid _ _ _ _ _ Hr).
    set (y := nth pick (x :: xs) x) in *. exists (owner y), (Z.max f (first y)), (excl y).
    split_and!; try done; [lia..|]. exists y. split_and!; try done; lia.
Qed.

(** ** The commands that lock *)

Definition type_char (t : option bool) : ascii :=
  match t with Some false => "r" | Some true => "w" | None => "u" end%char.
Definition whence_char (w : whence) : ascii :=
  match w with SEEK_SET => "s" | SEEK_CUR => "c" | SEEK_END => "e" end%char.

(** The line that a user types for a lock. *)
Definition arguments (fl : flock) : bytes :=
  [type_char (l_type fl); SP; whence_char (l_whence fl); SP] ++ number (l_start fl) ++ SP :: number (l_len fl).
Definition lock_line (block : bool) (fl : flock) : bytes :=
  (if block then lit "lockb" else lit "lock") ++ SP :: arguments fl ++ [LF].

Lemma scan_arguments fl :
  i32_range (l_start fl) → i32_range (l_len fl) → scan_lock (arguments fl) = inr fl.
Proof.
  intros Hs Hl. destruct fl as [t w st len]. unfold scan_lock, arguments. cbn [l_type l_whence l_start l_len app scan_char].
  change (skip_space (SP :: whence_char w :: ?r)) with (skip_space (whence_char w :: r)).
  assert (∀ r, skip_space (whence_char w :: r) = whence_char w :: r) as Hw by (intros r; by destruct w).
  rewrite Hw. cbn [scan_char].
  destruct (scan_int_number st (SP :: number len)) as [_ ->]; [by left|].
  rewrite bool_decide_eq_true_2 by done. cbn [negb].
  destruct (scan_int_number len []) as [_ E]; [by left|]. rewrite app_nil_r in E. rewrite E.
  rewrite bool_decide_eq_true_2 by done. cbn [negb]. by destruct t as [[]|], w.
Qed.

Lemma arguments_free fl c : c ≠ "-"%char → is_digit c = false → c ≠ SP →
  c ≠ type_char (l_type fl) → c ≠ whence_char (l_whence fl) → c ∉ arguments fl.
Proof.
  intros. unfold arguments. pose proof (number_free (l_start fl) c). pose proof (number_free (l_len fl) c).
  rewrite elem_of_app, !elem_of_cons, elem_of_app, elem_of_cons. rewrite !not_elem_of_nil || idtac.
  intros [[?|[?|[?|[?|?%not_elem_of_nil]]]]|[?|[?|?]]]; tauto.
Qed.

(** What the loop makes of the line. *)
Lemma command_lock i pick block fl p s :
  i32_range (l_start fl) → i32_range (l_len fl) →
  command i pick (lock_line block fl) p s =
    match range fl (offset p) (bsize (file s)) with
    | None => Next (goes i p [Error] s)
    | Some (f, l) =>
        if block then Next (goes i (mk_proc (Locking (l_type fl) f l) (offset p)) [] s)
        else if free i (l_type fl) f l (locks s)
        then Next (goes i p [Ok] (set_locks (set_lock i (l_type fl) f l (locks s)) s))
        else Next (goes i p [Error] s)
    end.
Proof.
  intros Hs Hl. set (w := if block then lit "lockb" else lit "lock").
  assert (lock_line block fl = (w ++ SP :: arguments fl) ++ [LF]) as E
    by (unfold lock_line; rewrite <-app_assoc; done).
  assert (NUL ∉ lock_line block fl) as Hnul.
  { rewrite E, !elem_of_app, elem_of_cons. intros [[Hw|[?|Ha]]|Hn]; try done.
    - unfold w in Hw. revert Hw. destruct block; apply (bool_decide_unpack (NUL ∉ _)); vm_compute; reflexivity.
    - revert Ha. apply arguments_free; try done; [by destruct (l_type fl) as [[]|]|by destruct (l_whence fl)].
    - by apply list_elem_of_singleton in Hn. }
  unfold command. rewrite c_string_plain by done.
  destruct (lock_line block fl) as [|c0 l0] eqn:El; [by unfold lock_line in El; destruct block|].
  rewrite E. rewrite removelast_last.
  assert (strsep (w ++ SP :: arguments fl) = (w, Some (arguments fl))) as -> by (unfold strsep, w; by destruct block).
  unfold w. destruct block; rewrite !decide_False by done; rewrite decide_True by done;
    cbn [with_args]; unfold do_lock; by rewrite scan_arguments.
Qed.

(** The kernel lets process [i] have the lock: unlocking, or no byte of the range is locked by
    another one in a way that forbids it. *)
Definition allowed (i : nat) (t : option bool) (f l : Z) (s : system) : Prop :=
  t = None ∨ ∀ j b w, (f ≤ b ≤ l)%Z → holds (locks s) j b w → j = i ∨ t = Some false ∧ w = false.

(** The range has the type for the process, and all other bytes and processes keep their
    locks. *)
Definition granted (i : nat) (t : option bool) (f l : Z) (s s' : system) : Prop :=
  said s' = said s ++ [(i, Ok)] ∧ at_ <$> procs s' !! i = Some Reads ∧
  ∀ j b w, holds (locks s') j b w ↔
    (j = i ∧ (f ≤ b ≤ l)%Z ∧ t = Some w) ∨ (holds (locks s) j b w ∧ ¬ (j = i ∧ f ≤ b ≤ l)%Z).
Definition refused (i : nat) (s s' : system) : Prop :=
  said s' = said s ++ [(i, Error)] ∧ at_ <$> procs s' !! i = Some Reads ∧ locks s' = locks s.

Lemma allowed_free i t f l s : Forall valid (locks s) → (f ≤ l)%Z →
  allowed i t f l s ↔ free i t f l (locks s) = true.
Proof.
  intros Hv Hfl. unfold allowed. destruct t as [w|]; [|cbn; naive_solver].
  rewrite free_spec by done. split.
  - intros [?|H]; [done|]. intros j b w' Hb Hh. destruct (H j b w' Hb Hh) as [?|[[= ->] ?]]; auto.
  - intros H. right. intros j b w' Hb Hh. destruct (H j b w' Hb Hh) as [?|[-> ?]]; auto.
Qed.

Lemma goes_granted i p o t f l s : procs s !! i = Some p →
  granted i t f l s (goes i (mk_proc Reads o) [Ok] (set_locks (set_lock i t f l (locks s)) s)).
Proof.
  intros Hp. split_and!; [done| |].
  - cbn. by rewrite list_lookup_insert_eq by (by eapply lookup_lt_Some).
  - intros j b w. apply holds_set.
Qed.

Lemma goes_refused i p o s : procs s !! i = Some p → refused i s (goes i (mk_proc Reads o) [Error] s).
Proof. intros Hp. split_and!; [done| |done]. cbn. by rewrite list_lookup_insert_eq by (by eapply lookup_lt_Some). Qed.

(** C36: The commands "lock" and "lockb", typed with a type, an origin, and numbers that are
    ints, ask for the lock that they name: a range that is none is an error; "lock" grants it
    or fails at once, "lockb" makes the process wait, and when the kernel answers it the lock is
    there, or it goes on waiting.  What is granted is the lock of the bytes of the range, of the
    type that was typed; it is granted exactly when no other process has locked one of them in a
    way that forbids it; everybody's other bytes stay as they were, and so in every interleaving
    a byte locked for writing is locked by nobody else. *)
Theorem lock_commands es n s i p :
  run es (start n) = Next s → procs s !! i = Some p →
  exclusive (locks s) ∧
  (∀ block fl pick, at_ p = Reads → i32_range (l_start fl) → i32_range (l_len fl) →
    ∃ s', step (i, Line (lock_line block fl) pick) s = Next s' ∧
      match range fl (offset p) (bsize (file s)) with
      | None => refused i s s'
      | Some (f, l) =>
          if block then locks s' = locks s ∧ procs s' !! i = Some (mk_proc (Locking (l_type fl) f l) (offset p))
          else (allowed i (l_type fl) f l s ∧ granted i (l_type fl) f l s s') ∨
               (¬ allowed i (l_type fl) f l s ∧ refused i s s')
      end) ∧
  (∀ t f l, at_ p = Locking t f l →
    (allowed i t f l s ∧ ∃ s', step (i, Answer true) s = Next s' ∧ granted i t f l s s') ∨
    (¬ allowed i t f l s ∧ step (i, Answer true) s = Blocked)).
Proof.
  intros [Hx Hv _ Hs]%run_good Hp. split; [done|]. split.
  - intros block fl pick Hr H1 H2. unfold step. rewrite Hp, Hr. rewrite command_lock by done.
    assert (p = mk_proc Reads (offset p)) as Ep by (destruct p; cbn in *; by subst).
    destruct (range fl (offset p) _) as [[f l]|] eqn:Er.
    2: { eexists. split; [done|]. rewrite Ep. by eapply goes_refused. }
    pose proof (range_valid _ _ _ _ _ Er) as Hval. destruct block.
    + eexists. split; [done|]. split; [done|]. cbn. by rewrite list_lookup_insert_eq by (by eapply lookup_lt_Some).
    + pose proof (allowed_free i (l_type fl) f l s Hv ltac:(lia)) as Hal.
      destruct (free i (l_type fl) f l (locks s)) eqn:Ef; eexists; (split; [done|]).
      * left. split; [by apply Hal|]. rewrite Ep. by eapply goes_granted.
      * right. split; [by intros ?%Hal|]. rewrite Ep. by eapply goes_refused.
  - intros t f l Hl. assert (spot_ok p) as Hsp by (by eapply Forall_lookup_1). unfold spot_ok in Hsp. rewrite Hl in Hsp.
    pose proof (allowed_free i t f l s Hv ltac:(lia)) as Hal. unfold step. rewrite Hp, Hl.
    destruct (free i t f l (locks s)) eqn:Ef; [left|right; split; [by intros ?%Hal|done]].
    split; [by apply Hal|]. eexists. split; [done|]. by eapply goes_granted.
Qed.

(** *** Runs *)

Definition line (s : string) : event := Line (lit s ++ [LF]) 0.

Definition two_processes : list (nat * event) :=
  [(0, line "write 10 x")] ++ replicate 10 (0, Answer true) ++
  [(0, line "lock w s 2 4"); (1, line "lock r s 0 2"); (1, line "lock r e -5 0"); (1, line "lockb w s 3 1");
   (0, line "lock u s 3 2"); (1, Answer true)].

(** Process 1 has asked for bytes that process 0 has given up. *)
Lemma lock_commands_witness : ∃ s s',
  run (removelast two_processes) (start 2) = Next s ∧
  step (1, Answer true) s = Next s' ∧ holds (locks s') 1 3 true ∧ exclusive (locks s').
Proof.
  destruct (run (removelast two_processes) (start 2)) as [|u|s] eqn:E; [by vm_compute in E..|].
  assert (procs s !! 1 = Some (mk_proc (Locking (Some true) 3 3) 0)) as Hp
    by (vm_compute in E; injection E as <-; reflexivity).
  destruct (step (1, Answer true) s) as [|u|s'] eqn:E'.
  1, 2: exfalso; vm_compute in E; injection E as <-; vm_compute in E'; discriminate E'.
  destruct (lock_commands (removelast two_processes) 2 s 1 _ E Hp) as (_ & _ & H).
  exists s, s'. split; [done|]. split; [done|].
  destruct (H _ _ _ eq_refl) as [(_ & s1 & E1 & _ & _ & Hg)|[_ Eb]]; [|congruence].
  assert (s1 = s') as -> by congruence. split; [apply Hg; left; split_and!; [done|lia|lia|done]|].
  assert (run two_processes (start 2) = Next s') as E2.
  { vm_compute in E. injection E as <-. vm_compute in E'. injection E' as <-. vm_compute. reflexivity. }
  destruct (procs s' !! 0) as [p0|] eqn:Hp0.
  - exact (proj1 (lock_commands two_processes 2 s' 0 p0 E2 Hp0)).
  - exfalso. vm_compute in E2. injection E2 as <-. discriminate Hp0.
Defined.

Lemma lock_answers_witness : ∃ s s1 s2,
  run two_processes (start 2) = Next s ∧
  get_lock 1 0 (lit "w e -6 4") (mk_proc Reads 0) s = Next s1 ∧
  do_lock 1 false (lit "w e -6 4") (mk_proc Reads 0) s = Next s2 ∧ locks s1 = locks s.
Proof.
  set (s := match run two_processes (start 2) with Next s => s | _ => start 0 end). exists s.
  destruct (lock_answers two_processes 2 s 1 (mk_proc Reads 0) (lit "w e -6 4") true 4 7 0) as (s1 & s2 & E1 & E2 & E3 & _).
  - vm_compute. reflexivity.
  - vm_compute. reflexivity.
  - exists (mk_flock (Some true) SEEK_END (-6) 4). split_and!; vm_compute; reflexivity.
  - exists s1, s2. split_and!; [vm_compute; reflexivity|exact E1|exact E2|exact E3].
Defined.

(** A lock without arguments scans a null pointer; two spaces make the second one the type,
    and nothing is left for the numbers; a line that starts with a zero byte is trimmed in
    front of the buffer. *)
Example lock_undefined :
  run [(0, line "lock")] (start 1) = Undefined NullDeref ∧
  run [(0, line "lock  r s 0 1")] (start 1) = Undefined Uninitialised ∧
  run [(0, line "write")] (start 1) = Undefined NullDeref ∧
  run [(0, Line [NUL; LF] 0)] (start 1) = Undefined OutOfBounds.
Proof. vm_compute. by split_and!. Qed.

(** The locks are advisory: a write goes where another process has a lock. *)
Example writes_ignore_locks : ∃ s,
  run [(0, line "lock w s 0 0"); (1, line "write 1 a"); (1, Answer true)] (start 2) = Next s ∧
  holds (locks s) 0 0 true ∧ file s = lit "a" ∧ said s = [(0, Ok); (1, Ok)].
Proof.
  eexists. split; [vm_compute; reflexivity|]. split_and!; try reflexivity.
  exists (mk_lock 0 true 0 OFFSET_MAX). split_and!; try done. by constructor.
Qed.

(** Two processes that wait for each other: only the kernel, with EDEADLK, helps. *)
Example waiting_for_each_other : ∃ s,
  run [(0, line "lock w s 0 1"); (1, line "lock w s 1 1"); (0, line "lockb w s 1 1"); (1, line "lockb w s 0 1")]
    (start 2) = Next s ∧
  step (0, Answer true) s = Blocked ∧ step (1, Answer true) s = Blocked ∧
  ∃ s', run [(1, Answer false); (1, line "lock u s 1 1"); (0, Answer true)] s = Next s'.
Proof.
  eexists. split; [vm_compute; reflexivity|]. split_and!; try (vm_compute; reflexivity).
  eexists. vm_compute. reflexivity.
Qed.

(** ** flock

    src/sysprog/lecture_examples/9_aio/2_flock.c: locks of the whole file. *)
Module Flock.

(** [cmd] *)
Definition CMD : nat := 100.

(** Where a process is: before [scanf], in [flock] with LOCK_EX or LOCK_SH, in [write], or
    gone. *)
Inductive spot : Type := Reads | Locking (w : bool) | Writing | Gone.

Record proc : Type := mk_proc { at_ : spot; stdin : bytes; offset : nat }.

(** The locks by the process that opened the file, [true] for an exclusive one. *)
Record system : Type := mk_system {
  file : bytes; locks : gmap nat bool; procs : list proc; said : list (nat * reply) }.

(** The lock of another process forbids one of type [w]. *)
Definition busy (i : nat) (w : bool) (ls : gmap nat bool) : Prop :=
  map_Exists (λ j v, j ≠ i ∧ (w || v) = true) ls.
#[export] Instance busy_dec i w ls : Decision (busy i w ls).
Proof. unfold busy. apply _. Defined.

(** A process that has a lock of another type loses it before it waits for the new one. *)
Definition convert (i : nat) (w : bool) (ls : gmap nat bool) : gmap nat bool :=
  if decide (ls !! i = Some w) then ls else delete i ls.

Definition goes (i : nat) (p : proc) (r : list reply) (s : system) : system :=
  mk_system (file s) (locks s) (<[i := p]> (procs s)) (said s ++ (pair i <$> r)).
Definition set_locks (ls : gmap nat bool) (s : system) : system := mk_system (file s) ls (procs s) (said s).

(** A call that does not wait, and one that does. *)
Definition flock_nb (i : nat) (w : bool) (p : proc) (s : system) : system :=
  let ls := convert i w (locks s) in
  if decide (busy i w ls) then goes i p [Error] (set_locks ls s)
  else goes i p [Ok] (set_locks (<[i := w]> ls) s).
Definition flock (i : nat) (w : bool) (p : proc) (s : system) : system :=
  goes i (mk_proc (Locking w) (stdin p) (offset p)) [] (set_locks (convert i w (locks s)) s).

(** What the kernel answers: the lock, when it is free; how much [write] wrote; or -1. *)
Inductive event : Type := Scan | Answer (n : option nat).

(** A turn of the loop: [scanf], and the call that belongs to the word. *)
Definition command (i : nat) (p : proc) (s : system) : attempt system :=
  match scan_word (stdin p) with
  | None => Next (goes i (mk_proc Gone [] (offset p)) [] (set_locks (delete i (locks s)) s))
  | Some (cmd, rest) =>
      let p := mk_proc Reads rest (offset p) in
      let cmd' := c_string cmd in
      if CMD <=? length cmd then Undefined OutOfBounds
      else if decide (cmd' = lit "excl") then Next (flock i true p s)
      else if decide (cmd' = lit "exclnb") then Next (flock_nb i true p s)
      else if decide (cmd' = lit "shared") then Next (flock i false p s)
      else if decide (cmd' = lit "sharednb") then Next (flock_nb i false p s)
      else if decide (cmd' = lit "unlock") then Next (goes i p [Ok] (set_locks (delete i (locks s)) s))
      else if decide (cmd' = lit "write") then Next (goes i (mk_proc Writing rest (offset p)) [] s)
      else Next (goes i p [Unknown_command] s)
  end.

Definition step (e : nat * event) (s : system) : attempt system :=
  let '(i, e) := e in
  match procs s !! i with
  | None => Blocked
  | Some p =>
      let back o := mk_proc Reads (stdin p) o in
      match at_ p, e with
      | Reads, Scan => command i p s
      | Locking w, Answer (Some _) =>
          if decide (busy i w (locks s)) then Blocked
          else Next (goes i (back (offset p)) [Ok] (set_locks (<[i := w]> (locks s)) s))
      | Writing, Answer (Some n) =>
          let d := take n (lit "data") in
          Next (goes i (back (offset p + length d)) [Ok]
                  (mk_system (write_at (file s) (offset p) d) (locks s) (procs s) (said s)))
      | Locking _, Answer None | Writing, Answer None => Next (goes i (back (offset p)) [Error] s)
      | _, _ => Blocked
      end
  end.

Definition start (inputs : list bytes) : system :=
  mk_system [] ∅ ((λ b, mk_proc Reads b 0) <$> inputs) [].

Definition run : list (nat * event) → system → attempt system := run_labels step.

(** *** A lock of a writer is the only one *)

Definition alone (ls : gmap nat bool) : Prop := ∀ i j w, ls !! i = Some true → ls !! j = Some w → j = i.

Lemma alone_subseteq ls ls' : ls' ⊆ ls → alone ls → alone ls'.
Proof. intros Hs Ha i j w Hi Hj. eapply Ha; by eapply lookup_weaken. Qed.

Lemma alone_empty : alone ∅.
Proof. intros i j w Hi. by rewrite lookup_empty in Hi. Qed.

Lemma alone_insert i w ls : alone ls → ¬ busy i w ls → alone (<[i := w]> ls).
Proof.
  intros Ha Hb j k v. unfold busy in Hb. rewrite !lookup_insert.
  assert (Hno : ∀ j v, ls !! j = Some v → j ≠ i → (w || v) = false).
  { intros m v' Hm Hne. apply not_true_iff_false. intros E. apply Hb. by exists m, v'. }
  repeat case_decide; subst; intros Hj Hk; simplify_eq; try done.
  - by specialize (Hno k v Hk (not_eq_sym ltac:(done))).
  - specialize (Hno j true Hj). rewrite orb_true_r in Hno. by discriminate Hno.
  - by eapply Ha.
Qed.

Lemma convert_subseteq i w ls : convert i w ls ⊆ ls.
Proof. unfold convert. case_decide; [done|apply delete_subseteq]. Qed.

#[local] Hint Resolve alone_insert : core.

Lemma command_alone i p s s' : command i p s = Next s' → alone (locks s) → alone (locks s').
Proof.
  intros E Ha. assert (Hc : ∀ w, alone (convert i w (locks s))) by (intros; eapply alone_subseteq; [apply convert_subseteq|done]).
  assert (Hd : alone (delete i (locks s))) by (eapply alone_subseteq; [apply delete_subseteq|done]).
  unfold command in E. destruct (scan_word _) as [[cmd rest]|]; [|by injection E as <-].
  destruct (CMD <=? _); [done|]. unfold flock_nb in E.
  repeat case_decide; injection E as <-; cbn; auto.
Qed.

(** In every interleaving a process with an exclusive lock is the only one that has a lock. *)
Theorem flock_exclusive es inputs s : run es (start inputs) = Next s → alone (locks s).
Proof.
  intros E. refine (run_labels_invariant step (λ s, alone (locks s)) es (start inputs) s _ alone_empty E).
  intros [i e] s1 s2 Ha. unfold step. destruct (procs s1 !! i) as [p|]; [|done].
  destruct (at_ p), e as [|[n|]]; try done; [by intros ?%command_alone|..]; try (by intros [= <-]).
  case_decide; [done|]. intros [= <-]. cbn. auto.
Qed.

(** The words of the commands. *)
Definition commands (ws : list string) : bytes := ws ≫= λ w, lit w ++ [LF].

(** A process that tries to make its shared lock exclusive while another reads fails, and has
    no lock any more. *)
Example conversion_loses : ∃ s,
  run [(0, Scan); (0, Answer (Some 0)); (1, Scan); (1, Answer (Some 0)); (0, Scan)]
    (start [commands ["shared"; "exclnb"]; commands ["shared"]]) = Next s ∧
  locks s = {[1 := false]} ∧ said s = [(0, Ok); (1, Ok); (0, Error)].
Proof. eexists. split; [vm_compute; reflexivity|]. by split. Qed.

(** A word of a hundred characters does not fit, with the zero behind it. *)
Example long_word :
  run [(0, Scan)] (start [replicate 100 "x"%char]) = Undefined OutOfBounds ∧
  ∃ s, run [(0, Scan)] (start [replicate 99 "x"%char]) = Next s ∧ said s = [(0, Unknown_command)].
Proof. split; [reflexivity|]. eexists. split; vm_compute; reflexivity. Qed.

End Flock.
