(* ===== verification/CondVar.v ===== *)
(** * Condition variables from a mutex

    Model of src/sysprog/lecture_examples/6_threads/13_simple_condvar.c and
    14_condvar.c: one thread signals, ten others wait; the second version counts the
    waiters and waits until one of them has taken the signal.  It waits in an empty loop
    that reads the plain variable [is_event_set] without the lock, which is a data race: the
    compiler may read it in every turn, as the program means, or once in front of the loop. *)

From S2P Require Import Prelude Concur.

(** [struct condvar], and what the threads have done so far: the signals sent and the
    waits that have returned. *)
Record condvar : Type := mk_condvar {
  event_lock : option nat;
  is_event_set : bool;
  wait_count : Z;
  signals : Z;
  returns : Z;
}.

(** [condvar_create] by thread 0: the lock is taken. *)
Definition condvar_create : condvar := mk_condvar (Some 0) false 0 0 0.

(** Where a thread is: thread 0 in [main] and [condvar_signal], the others in [thread_f]
    and [condvar_wait]. *)
Inductive pc : Type :=
| Getchar              (* main: while (getchar() != EOF) *)
| Joining              (* main: after the end of its input *)
| signal_count         (* 14: before the read of wait_count *)
| signal_set           (* before is_event_set = true *)
| signal_unlock
| signal_spin          (* 14: while (condvar->is_event_set) *)
| signal_hung          (* 14: in this loop, when it does not read is_event_set again *)
| signal_lock
| signal_clear         (* before is_event_set = false *)
| Outside              (* thread_f: processes an event *)
| wait_add             (* 14: before the increment of wait_count *)
| wait_lock
| wait_test            (* holding event_lock: if (condvar->is_event_set) *)
| wait_clear           (* before is_event_set = false *)
| wait_sub             (* 14: before the decrement of wait_count *)
| wait_return          (* before the unlock and the return *)
| wait_again.          (* before the unlock and the next round *)

Definition set_lock (m : option nat) (s : condvar) : condvar :=
  mk_condvar m (is_event_set s) (wait_count s) (signals s) (returns s).
Definition set_event (b : bool) (s : condvar) : condvar :=
  mk_condvar (event_lock s) b (wait_count s) (signals s) (returns s).
Definition set_count (k : Z) (s : condvar) : condvar :=
  mk_condvar (event_lock s) (is_event_set s) k (signals s) (returns s).
Definition acquire (i : nat) (l : pc) (s : condvar) : list (pc * condvar) :=
  if mutex_free (event_lock s) then [(l, set_lock (Some i) s)] else [].

(** The steps; [counting] for 14_condvar.c, 13_simple_condvar.c otherwise; [rereads] when the
    compiler reads [is_event_set] in every turn of [signal_spin]. *)
Definition tstep (rereads counting : bool) (i : nat) (l : pc) (s : condvar) : list (pc * condvar) :=
  match l with
  | Getchar => [((if counting then signal_count else signal_set), s); (Joining, s)]
  | Joining => []
  | signal_count =>
      if (wait_count s =? 0)%Z then [(Getchar, s)] (* no waiters *) else [(signal_set, s)]
  | signal_set =>
      [(signal_unlock, mk_condvar (event_lock s) true (wait_count s) (signals s + 1) (returns s))]
  | signal_unlock => [((if counting then signal_spin else signal_lock), set_lock None s)]
  | signal_spin =>
      if is_event_set s then [((if rereads then signal_spin else signal_hung), s)] else [(signal_lock, s)]
  | signal_hung => []
  | signal_lock => acquire i signal_clear s
  | signal_clear => [(Getchar, set_event false s)]
  | Outside => [((if counting then wait_add else wait_lock), s)]
  | wait_add => [(wait_lock, set_count (wait_count s + 1) s)]
  | wait_lock => acquire i wait_test s
  | wait_test => if is_event_set s then [(wait_clear, s)] else [(wait_again, s)]
  | wait_clear => [((if counting then wait_sub else wait_return), set_event false s)]
  | wait_sub => [(wait_return, set_count (wait_count s - 1) s)]
  | wait_return =>
      [(Outside, mk_condvar None (is_event_set s) (wait_count s) (signals s) (returns s + 1))]
  | wait_again => [(wait_lock, set_lock None s)]
  end.

(** [main] after [condvar_create], and [n] threads. *)
Definition start (n : nat) : config condvar pc :=
  mk_config condvar_create (Getchar :: replicate n Outside).

(** Holding [event_lock]. *)
Definition inside (l : pc) : bool :=
  match l with
  | Getchar | Joining | signal_count | signal_set | signal_unlock | signal_clear
  | wait_test | wait_clear | wait_sub | wait_return | wait_again => true
  | _ => false
  end.
(** In [main] and what it calls. *)
Definition in_main (l : pc) : bool :=
  match l with
  | Getchar | Joining | signal_count | signal_set | signal_unlock | signal_spin
  | signal_hung | signal_lock | signal_clear => true
  | _ => false
  end.
(** Has taken the signal, and not returned yet. *)
Definition taken (l : pc) : bool := match l with wait_sub | wait_return => true | _ => false end.
(** Counted in [wait_count] by 14_condvar.c. *)
Definition counted (l : pc) : bool :=
  match l with wait_lock | wait_test | wait_clear | wait_sub | wait_again => true | _ => false end.

(** May the event be set while the thread is here? *)
Definition event_at (counting : bool) (l : pc) (e : bool) : Prop :=
  match l with
  | Getchar | Joining | signal_count | signal_set => e = false
  | signal_unlock | wait_clear => e = true
  | signal_lock | signal_clear => counting = true → e = false
  | wait_sub | wait_return => e = false
  | _ => True
  end.

Definition one (b : bool) : Z := if b then 1 else 0.

Record ok (counting : bool) (c : config condvar pc) : Prop := mk_ok {
  ok_lock : owned_by inside (event_lock (shared c)) (threads c);
  ok_main : ∀ i l, threads c !! i = Some l → in_main l = (i =? 0)%nat;
  ok_event : ∀ i l, threads c !! i = Some l → event_at counting l (is_event_set (shared c));
  ok_sum : let n := (returns (shared c) + Z.of_nat (count taken (threads c)) +
      one (is_event_set (shared c)))%Z in
    (n ≤ signals (shared c))%Z ∧ (counting = true → n = signals (shared c));
  ok_count : counting = true → wait_count (shared c) = Z.of_nat (count counted (threads c));
}.

Lemma condvar_start_ok counting n : ok counting (start n).
Proof.
  split; cbn.
  - intros j. split.
    + intros [= <-]. by exists Getchar.
    + intros (l & Hl & Hi). destruct j as [|j]; [done|]. cbn in Hl.
      by apply lookup_replicate in Hl as [-> _].
  - intros [|i] l; [by intros [= <-]|]. cbn. by intros [-> _]%lookup_replicate.
  - intros [|i] l; [by intros [= <-]|]. cbn. by intros [-> _]%lookup_replicate.
  - rewrite count_replicate. cbn. lia.
  - by rewrite count_replicate.
Qed.

Lemma condvar_step_ok rereads counting s ls i l l' s' :
  ok counting (mk_config s ls) → ls !! i = Some l → (l', s') ∈ tstep rereads counting i l s →
  ok counting (mk_config s' (<[i:=l']> ls)).
Proof.
  intros [H1 H2 H3 [H4 H5] H6] Hl Hs. cbn in *.
  pose proof (count_insert taken ls i l l' Hl) as Ht.
  pose proof (count_insert counted ls i l l' Hl) as Hc.
  pose proof (H2 i l Hl) as Hm. pose proof (H3 i l Hl) as He.
  assert (inside l = true → ∀ j lj, ls !! j = Some lj → inside lj = true → j = i) as Hx.
  { intros Hin j lj Hj Hinj. assert (event_lock s = Some i) as E by (apply H1; eauto).
    assert (event_lock s = Some j) as E' by (apply H1; eauto). congruence. }
  split; cbn.
  - eapply (owner_step inside); [done..| |].
    + destruct l; cbn [tstep] in Hs; unfold acquire in Hs; outcomes Hs; try done; by destruct counting, rereads.
    + destruct l; cbn [tstep] in Hs; unfold acquire in Hs; outcomes Hs; try done.
      all: try by destruct counting, rereads.
      all: by destruct (event_lock s).
  - intros k lk Hk. thread_cases Hk; [|by apply H2]. rewrite <-Hm.
    destruct l; cbn [tstep] in Hs; unfold acquire in Hs; outcomes Hs; try done; by destruct counting, rereads.
  - assert (is_event_set s' = is_event_set s ∨
      inside l = true ∧ (is_event_set s' = false ∨ in_main l = true)) as Hev.
    { destruct l; cbn [tstep] in Hs; unfold acquire in Hs; outcomes Hs; cbn; auto. }
    intros k lk Hk. thread_cases Hk.
    + destruct l; cbn [tstep] in Hs; unfold acquire in Hs; outcomes Hs; cbn in *; auto; by destruct counting, rereads.
    + pose proof (H3 k lk Hk) as Hek. destruct Hev as [->|[Hin Hev]]; [done|].
      destruct (inside lk) eqn:Ek; [by destruct (Hx Hin k lk Hk Ek)|].
      destruct lk; try done. intros _. destruct Hev as [->|Hev]; [done|].
      pose proof (H2 k _ Hk) as Hk0. rewrite Hm in Hev. cbn in Hk0.
      apply Nat.eqb_eq in Hev. symmetry in Hk0. apply Nat.eqb_eq in Hk0. congruence.
  - destruct l; cbn [tstep] in Hs; unfold acquire in Hs; outcomes Hs; cbn in *;
      try destruct counting; try destruct rereads; cbn in *;
      try specialize (H5 eq_refl); try specialize (He eq_refl);
      repeat match goal with H : is_event_set s = _ |- _ => rewrite H in * end; cbn in *;
      try (destruct (is_event_set s)); cbn in *; lia.
  - intros ->. specialize (H6 eq_refl).
    destruct l; cbn [tstep] in Hs; unfold acquire in Hs; outcomes Hs; try destruct rereads; cbn in *; lia.
Qed.

Lemma condvar_reached_ok rereads counting n c : reachable (tstep rereads counting) (start n) c → ok counting c.
Proof.
  apply (reachable_invariant (tstep rereads counting) (ok counting)); [|apply condvar_start_ok].
  intros. by eapply condvar_step_ok.
Qed.

(** From the test of [wait_count] until the signal is taken there is a waiter. *)
Definition has_waiter (c : config condvar pc) : Prop :=
  (threads c !! 0 = Some signal_set ∨ threads c !! 0 = Some signal_unlock ∨
    threads c !! 0 = Some signal_spin ∧ is_event_set (shared c) = true) →
  0 < count counted (threads c).

Lemma reached_waiter rereads n c : reachable (tstep rereads true) (start n) c → ok true c ∧ has_waiter c.
Proof.
  apply (reachable_invariant (tstep rereads true) (λ c, ok true c ∧ has_waiter c)).
  2: { split; [apply condvar_start_ok|]. by intros [?|[?|[? _]]]. }
  intros s s' ls i l l' [Hok Hw] Hl Hs. split; [by eapply condvar_step_ok|].
  pose proof (count_insert counted ls i l l' Hl) as Hc. unfold has_waiter in *. cbn in *.
  destruct (decide (i = 0)) as [->|Hi].
  - pose proof (ok_main _ _ Hok 0 _ Hl) as Hm. pose proof (ok_count _ _ Hok eq_refl) as Hk. cbn in Hk.
    rewrite list_lookup_insert_eq by (by eapply lookup_lt_Some). intros H.
    destruct l; cbn [tstep] in Hs; unfold acquire in Hs; outcomes Hs; cbn in *; try done;
      try (by destruct H as [?|[?|[? ?]]]).
    + apply Z.eqb_neq in Heqb. lia.
    + rewrite Hl in Hw. assert (0 < count counted ls) by auto. lia.
    + rewrite Hl in Hw. assert (0 < count counted ls) by auto. lia.
    + rewrite Hl in Hw. assert (0 < count counted ls) by auto. lia.
  - rewrite list_lookup_insert_ne by done. intros H.
    pose proof (ok_main _ _ Hok i l Hl) as Hm. rewrite (proj2 (Nat.eqb_neq _ _) Hi) in Hm.
    assert (is_event_set s' = true → is_event_set s = true) as Hev.
    { destruct l; try done; cbn [tstep] in Hs; unfold acquire in Hs; outcomes Hs; cbn; auto; congruence. }
    assert (0 < count counted ls) as Hpos by (apply Hw; naive_solver).
    destruct (counted l') eqn:Ec'; [destruct (counted l); lia|].
    destruct (counted l) eqn:Ec; [|lia].
    assert (l = wait_sub ∧ is_event_set s' = is_event_set s) as [-> Ee].
    { destruct l; try done; cbn [tstep] in Hs; unfold acquire in Hs; outcomes Hs; done. }
    pose proof (ok_event _ _ Hok i _ Hl) as He. cbn in He.
    assert (event_lock s = Some i) as E by (apply (ok_lock _ _ Hok); eauto).
    assert (∀ l0, ls !! 0 = Some l0 → inside l0 = true → i = 0) as Hx.
    { intros l0 H0 Hin. assert (event_lock s = Some 0) as E0 by (apply (ok_lock _ _ Hok); eauto).
      congruence. }
    destruct H as [H|[H|[H H']]]; [by destruct Hi; eapply Hx|by destruct Hi; eapply Hx|congruence].
Qed.

Lemma spin_progress rereads n c :
  reachable (tstep rereads true) (start n) c → threads c !! 0 = Some signal_spin →
  is_event_set (shared c) = true →
  ∃ i l, threads c !! i = Some l ∧ counted l = true ∧ tstep rereads true i l (shared c) ≠ [].
Proof.
  intros [Hok Hw]%reached_waiter H0 He.
  destruct (count_exists counted (threads c)) as (i & l & Hi & Hc); [apply Hw; auto|].
  destruct (event_lock (shared c)) as [j|] eqn:El.
  - apply (ok_lock _ _ Hok) in El as (lj & Hj & Hin). exists j, lj. split; [done|].
    pose proof (ok_event _ _ Hok j lj Hj) as Hej. rewrite He in Hej.
    pose proof (ok_main _ _ Hok j lj Hj) as Hm.
    assert (j ≠ 0) as Hj0 by (intros ->; rewrite H0 in Hj; simplify_eq).
    rewrite (proj2 (Nat.eqb_neq _ _) Hj0) in Hm. destruct lj; try done; cbn; by rewrite ?He.
  - exists i, l. split_and!; [done..|]. destruct l; cbn; unfold acquire; rewrite ?El; try done.
    by destruct (is_event_set (shared c)).
Qed.

(** What a lost signal looks like: 13_simple_condvar.c, with one thread that waits. *)
Definition lost_schedule : list (nat * nat) :=
  [(1, 0); (0, 0); (0, 0); (0, 0); (0, 0); (0, 0)].

(** A signal of 14_condvar.c that one of two threads takes. *)
Definition taken_schedule : list (nat * nat) :=
  [(1, 0); (1, 0); (0, 0); (0, 0); (0, 0); (0, 0)] ++ replicate 5 (1, 0) ++ replicate 3 (0, 0).

(** The same, when [main] has read [is_event_set] before it is taken. *)
Definition hung_schedule : list (nat * nat) :=
  [(1, 0); (1, 0); (0, 0); (0, 0); (0, 0); (0, 0); (0, 0)] ++ replicate 5 (1, 0).

(** C27: no wait returns without a signal of its own.  In 14_condvar.c, whenever
    [condvar_signal] has returned, every signal but those it reported to have no waiters
    has ended exactly one wait, and while one waits to be taken a waiter can
    go on; so [condvar_signal] does not hang when its loop reads [is_event_set] in every
    turn.  But the variable is plain and the loop reads it without the lock: when the
    compiler reads it once, [condvar_signal] can loop for ever behind a signal that was
    taken.  In 13_simple_condvar.c a signal can be lost although a thread waits. *)
Theorem condvar_signals :
  (∀ rereads counting n c, reachable (tstep rereads counting) (start n) c →
    (returns (shared c) ≤ signals (shared c))%Z) ∧
  (∀ rereads n c, reachable (tstep rereads true) (start n) c → threads c !! 0 = Some Getchar →
    returns (shared c) = signals (shared c)) ∧
  (∀ n c, reachable (tstep true true) (start n) c → threads c !! 0 = Some signal_spin →
    if is_event_set (shared c)
    then ∃ i l, threads c !! i = Some l ∧ counted l = true ∧ tstep true true i l (shared c) ≠ []
    else tstep true true 0 signal_spin (shared c) = [(signal_lock, shared c)]) ∧
  (∃ c, reachable (tstep false true) (start 10) c ∧ threads c !! 0 = Some signal_hung ∧
    returns (shared c) = signals (shared c) ∧ ∀ s, tstep false true 0 signal_hung s = []) ∧
  (∃ c, reachable (tstep true false) (start 10) c ∧ threads c !! 0 = Some Getchar ∧
    threads c !! 1 = Some wait_lock ∧ signals (shared c) = 1%Z ∧ returns (shared c) = 0%Z ∧
    is_event_set (shared c) = false).
Proof.
  split_and!.
  - intros rereads counting n c Hr%condvar_reached_ok. destruct (ok_sum _ _ Hr) as [H _].
    assert (0 ≤ one (is_event_set (shared c)))%Z by (by destruct (is_event_set (shared c))). lia.
  - intros rereads n c Hr%condvar_reached_ok H0. destruct (ok_sum _ _ Hr) as [_ H]. specialize (H eq_refl).
    rewrite (ok_event _ _ Hr 0 _ H0) in H. cbn in H.
    assert (count taken (threads c) = 0) as E; [|lia].
    destruct (count taken (threads c)) as [|k] eqn:E; [done|].
    destruct (count_exists taken (threads c)) as (i & l & Hi & Ht); [lia|].
    assert (event_lock (shared c) = Some 0) as E0 by (apply (ok_lock _ _ Hr); eauto).
    assert (event_lock (shared c) = Some i) as Ei.
    { apply (ok_lock _ _ Hr). exists l. split; [done|]. by destruct l. }
    rewrite E0 in Ei. by simplify_eq.
  - intros n c Hr H0. destruct (is_event_set (shared c)) eqn:Ee; [by eapply spin_progress|].
    cbn. by rewrite Ee.
  - destruct (run_schedule (tstep false true) hung_schedule (start 10)) as [c|] eqn:E; [|by vm_compute in E].
    exists c. split; [by eapply run_schedule_reachable|].
    vm_compute in E. simplify_eq. by vm_compute.
  - destruct (run_schedule (tstep true false) lost_schedule (start 10)) as [c|] eqn:E; [|by vm_compute in E].
    exists c. split; [by eapply run_schedule_reachable|].
    vm_compute in E. simplify_eq. by vm_compute.
Qed.

Lemma condvar_signals_witness :
  ∃ c, reachable (tstep true true) (start 2) c ∧ signals (shared c) = 1%Z ∧ returns (shared c) = 1%Z.
Proof.
  destruct (run_schedule (tstep true true) taken_schedule (start 2)) as [c|] eqn:E; [|by vm_compute in E].
  exists c. assert (reachable (tstep true true) (start 2) c) as Hr by (by eapply run_schedule_reachable).
  assert (threads c !! 0 = Some Getchar ∧ signals (shared c) = 1%Z) as [H0 H1]
    by (vm_compute in E; by simplify_eq).
  split; [done|]. split; [done|]. rewrite <-H1. by apply (proj1 (proj2 condvar_signals) true 2 c).
Defined.
