(* ===== verification/IpcSort.v ===== *)
(** * Sorting in several processes

    Models of src/sysprog/lecture_examples/7_ipc/1_simple_sort.c (one process),
    2_parallel_sort.c (a child process for each file, results through pipes) and
    3_mem_sort.c (results through shared memory and two flags). *)

From stdpp Require Import sorting.
From S2P Require Import Prelude Concur.

(** ** [cmp] and [qsort] *)

(** [*(int * )a - *(int * )b]: signed subtraction. *)
Definition cmp {S} (a b : Z) : prog S Z :=
  if bool_decide (i32_range (a - b)) then mret (a - b)%Z else undef SignedOverflow.

(** [qsort] of the C library, which compares through [cmp] only; the model sorts by
    insertion. *)
Fixpoint insert_sorted {S} (x : Z) (l : list Z) : prog S (list Z) :=
  match l with
  | [] => mret [x]
  | y :: l' =>
      c ← cmp x y;
      if (c <=? 0)%Z then mret (x :: l) else (λ t, y :: t) <$> insert_sorted x l'
  end.
Fixpoint qsort {S} (l : list Z) : prog S (list Z) :=
  match l with [] => mret [] | x :: l => t ← qsort l; insert_sorted x t end.

(** ** [sorter] *)

(** The growing buffer: every element written or not. *)
Record buffer : Type := mk_buffer { array : list (option Z); size : Z; capacity : Z }.

(** Body of the reading loop for one number: store it, count it, grow the array. *)
Definition read_number (x : Z) : prog buffer unit :=
  b ← get;
  if negb ((0 <=? size b)%Z && (size b <? Z.of_nat (length (array b)))%Z) then undef OutOfBounds
  else
    let a := <[Z.to_nat (size b) := Some x]> (array b) in
    let n := (size b + 1)%Z in
    if (n =? capacity b)%Z then
      let c := (capacity b * 2)%Z in
      if bool_decide (i32_range c)
      then modify (λ _, mk_buffer (a ++ replicate (Z.to_nat c - length a) None) n c)
      else undef SignedOverflow
    else modify (λ _, mk_buffer a n (capacity b)).

Fixpoint read_numbers (file : list Z) : prog buffer unit :=
  match file with [] => mret tt | x :: f => read_number x ≫= λ _, read_numbers f end.

(** The first [size] elements, all of which must have been written. *)
Definition contents (b : buffer) : prog buffer (list Z) :=
  the Uninitialised (mapM id (take (Z.to_nat (size b)) (array b))).

(** [sorter]: the numbers of a file, sorted; [fscanf] ends at the end of [file]. *)
Definition sorter (file : list Z) : prog buffer (list Z) :=
  _ ← modify (λ _, mk_buffer (replicate 1024 None) 0 1024);
  _ ← read_numbers file;
  b ← get;
  l ← contents b;
  qsort l.

(** ** [main] of 1_simple_sort.c *)

(** [memcpy] into an array at a position. *)
Definition memcpy {S A} (dst : list A) (pos : nat) (src : list A) : prog S (list A) :=
  if (pos + length src <=? length dst)%nat
  then mret (take pos dst ++ src ++ drop (pos + length src) dst)
  else undef OutOfBounds.

(** The loop that sorts the files. *)
Fixpoint sort_files (files : list (list Z)) (b : buffer) : prog Z (list (list Z)) :=
  match files with
  | [] => mret []
  | f :: fs => λ total,
      match sorter f b with
      | Ret l b' =>
          (* total_size += w->size *)
          if bool_decide (i32_range (total + Z.of_nat (length l)))
          then ((λ ls, l :: ls) <$> sort_files fs b') (total + Z.of_nat (length l))%Z
          else Undef SignedOverflow
      | Throw e _ => Throw e total
      | Undef u => Undef u
      | NoFuel => NoFuel
      end
  end.

(** The loop that copies the arrays into [total_array]. *)
Fixpoint copy_arrays {S} (ws : list (list Z)) (pos : nat) (dst : list (option Z)) :
    prog S (list (option Z)) :=
  match ws with
  | [] => mret dst
  | w :: ws => dst' ← memcpy dst pos (Some <$> w); copy_arrays ws (pos + length w) dst'
  end.

(** [main]: the contents of [total_array] at its end. *)
Definition simple_sort (files : list (list Z)) : prog Z (list (option Z)) :=
  _ ← modify (λ _, 0%Z);
  ws ← sort_files files (mk_buffer [] 0 0);
  total ← get;
  copy_arrays ws 0 (replicate (Z.to_nat total) None).

(** ** Sorting *)

(** The numbers of a file: they are [int]s, and so is the difference of any two of them. *)
Definition fits (l : list Z) : Prop :=
  Forall i32_range l ∧ ∀ x y, x ∈ l → y ∈ l → i32_range (x - y).

Lemma fits_permutation l t : t ≡ₚ l → fits l → fits t.
Proof.
  intros Hp [Hr Hd]. split; [by rewrite Hp|].
  intros x y. rewrite Hp. apply Hd.
Qed.
Lemma fits_tail x l : fits (x :: l) → fits l.
Proof.
  intros [Hr Hd]. split; [by apply Forall_cons in Hr as [_ ?]|].
  intros ????. apply Hd; by right.
Qed.
Lemma fits_within l b : Forall (λ x, b ≤ x < b + 2 ^ 31)%Z l → Forall i32_range l → fits l.
Proof.
  intros Hb Hr. split; [done|]. intros x y Hx Hy. rewrite Forall_forall in Hb.
  pose proof (Hb x Hx). pose proof (Hb y Hy). unfold i32_range. lia.
Qed.

(** The reference: the sorted list of the same numbers. *)
Definition sorted (l : list Z) : list Z := merge_sort Z.le l.

Lemma sorted_unique l t : Sorted Z.le t → t ≡ₚ l → t = sorted l.
Proof.
  intros Ht Hp. apply (Sorted_unique Z.le); [done| |].
  - apply Sorted_merge_sort. intros x y. lia.
  - rewrite Hp. symmetry. apply merge_sort_Permutation.
Qed.

Lemma cmp_fits {S} x y (s : S) : i32_range (x - y) → cmp x y s = Ret (x - y)%Z s.
Proof. unfold cmp. intros. by rewrite bool_decide_eq_true_2. Qed.

(** A difference of two numbers that is not an [int] makes [cmp] overflow, and [sorter] on a
    file of these two. *)
Lemma cmp_overflows {S} x y (s : S) : ¬ i32_range (x - y) → cmp x y s = Undef SignedOverflow.
Proof. unfold cmp. intros. by rewrite bool_decide_eq_false_2. Qed.

Lemma qsort_overflows {S} x y (s : S) : ¬ i32_range (x - y) → qsort [x; y] s = Undef SignedOverflow.
Proof.
  intros H. unfold qsort. cbn. unfold mbind, prog_bind at 1. cbn.
  unfold mbind, prog_bind. by rewrite cmp_overflows.
Qed.

Lemma insert_sorted_run {S} x l (s : S) :
  (∀ y, y ∈ l → i32_range (x - y)) → Sorted Z.le l →
  ∃ t, insert_sorted x l s = Ret t s ∧ t ≡ₚ x :: l ∧ Sorted Z.le t.
Proof.
  induction l as [|y l IH]; intros Hl Hs; cbn [insert_sorted].
  - exists [x]. split_and!; [done|done|]. repeat constructor.
  - rewrite (bind_ret _ _ _ _ _ (cmp_fits x y s (Hl y ltac:(by left)))).
    destruct (Z.leb_spec (x - y) 0).
    + exists (x :: y :: l). split_and!; [done|done|]. constructor; [done|]. constructor. lia.
    + destruct IH as (t & E & Hp & Ht);
        [intros z Hz; apply Hl; by right|by apply Sorted_inv in Hs as [? _]|].
      exists (y :: t). unfold fmap, prog_fmap. rewrite (bind_ret _ _ _ _ _ E).
      split_and!; [done|by rewrite Hp; constructor|].
      constructor; [done|]. apply Sorted_inv in Hs as [Hs Hh].
      destruct t as [|z t]; constructor.
      assert (z ∈ x :: l) as Hz by (rewrite <-Hp; by left).
      apply elem_of_cons in Hz as [->|Hz]; [lia|].
      assert (Forall (Z.le y) l) as Hall by (apply Sorted_extends; [intros ???; lia|by constructor]).
      rewrite Forall_forall in Hall. by apply Hall.
Qed.

Lemma qsort_run {S} l (s : S) : fits l → qsort l s = Ret (sorted l) s.
Proof.
  intros Hl. cut (∃ t, qsort l s = Ret t s ∧ t ≡ₚ l ∧ Sorted Z.le t).
  { intros (t & -> & Hp & Ht). by rewrite (sorted_unique l t). }
  induction l as [|x l IH]; cbn [qsort].
  - exists []. split_and!; [done|done|constructor].
  - destruct (IH (fits_tail _ _ Hl)) as (t & E & Hp & Ht). rewrite (bind_ret _ _ _ _ _ E).
    destruct (insert_sorted_run x t s) as (t' & E' & Hp' & Ht'); [|done|].
    { intros y Hy. rewrite Hp in Hy. apply Hl; [by left|by right]. }
    exists t'. split_and!; [done|by rewrite Hp', Hp|done].
Qed.

(** ** The buffer *)

(** [xs] has been read. *)
Definition holds (xs : list Z) (b : buffer) : Prop :=
  size b = Z.of_nat (length xs) ∧ capacity b = Z.of_nat (length (array b)) ∧
  length xs < length (array b) ∧
  array b = (Some <$> xs) ++ replicate (length (array b) - length xs) None.

Lemma read_number_run xs x b :
  holds xs b → (Z.of_nat (length xs) + 1 < 2 ^ 30)%Z →
  ∃ b', read_number x b = Ret tt b' ∧ holds (xs ++ [x]) b'.
Proof.
  destruct b as [a n c]. unfold holds. cbn. intros (-> & -> & Hlt & Ha) Hb.
  unfold read_number, get, mbind, prog_bind. cbn [size array capacity].
  destruct (Z.leb_spec 0 (Z.of_nat (length xs))); [|lia].
  destruct (Z.ltb_spec (Z.of_nat (length xs)) (Z.of_nat (length a))); [|lia].
  cbn [andb negb]. rewrite Nat2Z.id.
  assert (<[length xs:=Some x]> a = (Some <$> xs ++ [x]) ++ replicate (length a - length (xs ++ [x])) None)
    as Hins.
  { rewrite Ha at 1. rewrite insert_app_r_alt by (by rewrite length_fmap).
    rewrite length_fmap, Nat.sub_diag, fmap_app, length_app, <-app_assoc. cbn.
    by replace (length a - length xs) with (Datatypes.S (length a - (length xs + 1))) by lia. }
  destruct (Z.eqb_spec (Z.of_nat (length xs) + 1) (Z.of_nat (length a))) as [E|E].
  - rewrite bool_decide_eq_true_2 by (unfold i32_range; lia). eexists. split; [done|]. cbn.
    rewrite Hins, !length_app, !length_fmap, !length_replicate, length_app. cbn [length].
    assert (length a = length xs + 1) as -> by lia.
    rewrite Nat.sub_diag, app_nil_r. split_and!; try lia. f_equal. f_equal. lia.
  - eexists. split; [done|]. cbn. rewrite length_insert, Hins, !length_app. cbn [length].
    split_and!; try lia. done.
Qed.

Lemma read_numbers_run f xs b :
  holds xs b → (Z.of_nat (length (xs ++ f)) < 2 ^ 30)%Z →
  ∃ b', read_numbers f b = Ret tt b' ∧ holds (xs ++ f) b'.
Proof.
  revert xs b. induction f as [|x f IH]; intros xs b Hh Hb; cbn [read_numbers].
  - exists b. rewrite app_nil_r. done.
  - rewrite length_app in Hb. cbn in Hb.
    destruct (read_number_run xs x b Hh) as (b1 & E & H1); [lia|].
    rewrite (bind_ret _ _ _ _ _ E). destruct (IH (xs ++ [x]) b1 H1) as (b2 & E2 & H2).
    { rewrite !length_app. cbn. lia. }
    exists b2. by rewrite <-app_assoc in H2.
Qed.

Lemma mapM_some xs : mapM id (Some <$> xs) = Some (xs : list Z).
Proof. induction xs as [|x xs IH]; [done|]. cbn in *. by rewrite IH. Qed.

Lemma contents_run xs b : holds xs b → contents b b = Ret xs b.
Proof.
  intros (Hs & _ & _ & Ha). unfold contents.
  rewrite Hs, Nat2Z.id, Ha, take_app_length' by (by rewrite length_fmap). by rewrite mapM_some.
Qed.

(** [sorter] has the numbers of the file when it calls [qsort]. *)
Lemma sorter_reads f b :
  (Z.of_nat (length f) < 2 ^ 30)%Z → ∃ b', sorter f b = qsort f b'.
Proof.
  intros Hl. unfold sorter.
  destruct (read_numbers_run f [] (mk_buffer (replicate 1024 None) 0 1024)) as (b' & E & Hh).
  { unfold holds. cbn [array size capacity]. rewrite length_replicate. split_and!; done || (cbn [length]; lia). }
  { done. }
  cbn [modify mbind prog_bind]. exists b'.
  change ((read_numbers f ≫= λ _, get ≫= λ b, contents b ≫= qsort) (mk_buffer (replicate 1024 None) 0 1024)
    = qsort f b').
  rewrite (bind_ret _ _ _ _ _ E). cbn [get mbind prog_bind].
  change ((contents b' ≫= qsort) b' = qsort f b').
  by rewrite (bind_ret _ _ _ _ _ (contents_run _ _ Hh)).
Qed.

Lemma sorter_run f b :
  fits f → (Z.of_nat (length f) < 2 ^ 30)%Z → ∃ b', sorter f b = Ret (sorted f) b'.
Proof.
  intros Hf Hl. destruct (sorter_reads f b Hl) as (b' & ->). exists b'. by apply qsort_run.
Qed.

Lemma sorter_overflows x y b : ¬ i32_range (x - y) → sorter [x; y] b = Undef SignedOverflow.
Proof.
  intros H. destruct (sorter_reads [x; y] b) as (b' & ->); [done|]. by apply qsort_overflows.
Qed.

(** ** Copying *)

Lemma copy_arrays_run {S} ws xs n (s : S) :
  length (mjoin ws) = n →
  copy_arrays ws (length xs) ((Some <$> xs) ++ replicate n None) s =
    Ret (Some <$> (xs ++ mjoin ws)) s.
Proof.
  revert xs n. induction ws as [|w ws IH]; intros xs n Hn; cbn [copy_arrays].
  - cbn in Hn. subst. by rewrite !app_nil_r.
  - change (mjoin (w :: ws)) with (w ++ mjoin ws) in *. rewrite length_app in Hn.
    assert (memcpy ((Some <$> xs) ++ replicate n None) (length xs) (Some <$> w) s =
      Ret ((Some <$> (xs ++ w)) ++ replicate (n - length w) None) s) as E.
    { unfold memcpy. rewrite length_app, !length_fmap, length_replicate.
      destruct (Nat.leb_spec (length xs + length w) (length xs + n)); [|lia].
      rewrite take_app_length' by (by rewrite length_fmap).
      rewrite drop_app_ge by (rewrite length_fmap; lia). rewrite length_fmap, drop_replicate.
      rewrite fmap_app, <-app_assoc.
      by replace (n - (length xs + length w - length xs)) with (n - length w) by lia. }
    rewrite (bind_ret _ _ _ _ _ E). rewrite <-length_app.
    rewrite IH by lia. by rewrite <-app_assoc.
Qed.

(** The numbers of every file can be subtracted by [cmp] and counted by [size] and its
    [capacity], and those of all files by [total_size]. *)
Definition countable (files : list (list Z)) : Prop :=
  Forall fits files ∧ Forall (λ f, Z.of_nat (length f) < 2 ^ 30)%Z files ∧
  (Z.of_nat (length (mjoin files)) < 2 ^ 31)%Z.

Lemma length_sorted f : length (sorted f) = length f.
Proof. apply Permutation_length, merge_sort_Permutation. Qed.

Lemma length_join_sorted files : length (mjoin (sorted <$> files)) = length (mjoin files).
Proof.
  induction files as [|f fs IH]; [done|].
  change (mjoin (sorted <$> f :: fs)) with (sorted f ++ mjoin (sorted <$> fs)).
  change (mjoin (f :: fs)) with (f ++ mjoin fs). by rewrite !length_app, IH, length_sorted.
Qed.

Lemma sort_files_run files b total :
  Forall fits files → Forall (λ f, Z.of_nat (length f) < 2 ^ 30)%Z files →
  (0 ≤ total)%Z → (total + Z.of_nat (length (mjoin files)) < 2 ^ 31)%Z →
  sort_files files b total =
    Ret (sorted <$> files) (total + Z.of_nat (length (mjoin files)))%Z.
Proof.
  revert b total. induction files as [|f fs IH]; intros b total Hs Hl H0 Hb; cbn [sort_files].
  - cbn. by rewrite Z.add_0_r.
  - apply Forall_cons in Hs as [Hf Hs]. apply Forall_cons in Hl as [Hlf Hl].
    change (mjoin (f :: fs)) with (f ++ mjoin fs) in *. rewrite length_app in *.
    destruct (sorter_run f b Hf Hlf) as (b' & E). rewrite E.
    rewrite length_sorted, bool_decide_eq_true_2 by (unfold i32_range; lia).
    pose proof (IH b' (total + Z.of_nat (length f))%Z Hs Hl ltac:(lia) ltac:(lia)) as E'.
    unfold fmap, prog_fmap. rewrite (bind_ret _ _ _ _ _ E').
    cbn. f_equal. lia.
Qed.

(** What all versions put into [total_array]. *)
Definition presorted (files : list (list Z)) : list (option Z) := Some <$> mjoin (sorted <$> files).

Lemma simple_sort_run files total :
  countable files →
  simple_sort files total = Ret (presorted files) (Z.of_nat (length (mjoin files))).
Proof.
  intros (Hs & Hl & Hb). unfold simple_sort. cbn [modify mbind prog_bind].
  change ((sort_files files (mk_buffer [] 0 0) ≫= λ ws, get ≫= λ total,
    copy_arrays ws 0 (replicate (Z.to_nat total) None)) 0%Z =
    Ret (presorted files) (Z.of_nat (length (mjoin files)))).
  rewrite (bind_ret _ _ _ _ _ (sort_files_run files (mk_buffer [] 0 0) 0 Hs Hl ltac:(lia) ltac:(lia))).
  unfold get, mbind, prog_bind. rewrite Z.add_0_l, Nat2Z.id.
  apply (copy_arrays_run (sorted <$> files) []). apply length_join_sorted.
Qed.
(** ** [int] in memory *)

(** The four bytes of an [int], the lowest first. *)
Definition byte_of (z : Z) : ascii := ascii_of_N (Z.to_N (z `mod` 256)).
Definition of_byte (c : ascii) : Z := Z.of_N (N_of_ascii c).
Definition int_bytes (z : Z) : bytes :=
  let u := wrap32 z in
  [byte_of u; byte_of (u `div` 256); byte_of (u `div` 65536); byte_of (u `div` 16777216)].
Definition bytes_int (s : bytes) : Z :=
  let u := foldr (λ c a, of_byte c + 256 * a)%Z 0%Z s in
  if (u <? 2 ^ 31)%Z then u else (u - 2 ^ 32)%Z.

(** An array of [n] ints read back from memory. *)
Fixpoint ints_of (n : nat) (s : bytes) : list Z :=
  match n with 0 => [] | S n => bytes_int (take 4 s) :: ints_of n (drop 4 s) end.

(** ** 2_parallel_sort.c *)

(** [size_t] to [int]: reduced to 32 bits. *)
Definition int_of (z : Z) : Z :=
  let u := wrap32 z in if (u <? 2 ^ 31)%Z then u else (u - 2 ^ 32)%Z.

(** How many bytes Linux moves in one call at the most. *)
Definition max_count : Z := 2147479552.
#[global] Opaque max_count.

(** The parent's end of a pipe: what the child has written, and how many bytes the kernel
    is willing to give to each [read] (at least one, all if it does not say). *)
Record pipe : Type := mk_pipe { content : bytes; offers : list nat }.

(** [read(fd, in, size)]: the bytes that arrive; none at the end of the file. The [int] is
    converted to [size_t]: a negative one is more than a call can ask for, and the call fails. *)
Definition read (size : Z) : prog pipe (option bytes) := λ p,
  if (size <? 0)%Z then Ret None p
  else
    let offer := match offers p with [] => length (content p) | k :: _ => Nat.max 1 k end in
    let n := Z.to_nat (Z.min size (Z.of_nat (Nat.min offer (length (content p))))) in
    Ret (Some (take n (content p))) (mk_pipe (drop n (content p)) (tail (offers p))).

(** [read_from_pipe]: the bytes it has stored at [in]; [got] is the result of the last
    [read]. *)
Fixpoint read_from_pipe_loop (fuel : nat) (got : option bytes) (size : Z) : prog pipe bytes :=
  match fuel with
  | 0 => out_of_fuel
  | S fuel =>
      let rc := from_option (λ t, Z.of_nat (length t)) (-1)%Z got in
      if (0 <? rc)%Z && (0 <? size)%Z then
        let size' := (size - rc)%Z in
        next ← read size';
        (λ t, default [] got ++ t) <$> read_from_pipe_loop fuel next size'
      else mret []
  end.
Definition read_from_pipe (size : Z) : prog pipe bytes := λ p,
  (rc ← read size; read_from_pipe_loop (length (content p) + 2) rc size) p.

(** [write] of an array that nobody interrupts: all of it, or what a call moves at the most. *)
Definition write (array : bytes) : bytes :=
  if (Z.of_nat (length array) <=? max_count)%Z then array else take (Z.to_nat max_count) array.

(** What [sorter] writes: [size], then the array. *)
Definition message (l : list Z) : bytes := mjoin (int_bytes <$> l).
Definition child_writes (l : list Z) : bytes :=
  write (int_bytes (Z.of_nat (length l))) ++ write (message l).

(** What the parent does with one pipe: read the size, then so many bytes for the array,
    [size * sizeof(int)] as an [int]. Elements that no byte was read for stay uninitialised. *)
Definition receive : prog pipe (list Z) :=
  h ← read_from_pipe 4;
  let size := bytes_int h in
  if (size <? 0)%Z then undef OutOfBounds
  else
    body ← read_from_pipe (int_of (size * 4));
    if (Z.of_nat (length body) =? size * 4)%Z then mret (ints_of (Z.to_nat size) body)
    else undef Uninitialised.

(** The children and the parent's first loop; [os]: the kernel's offers for each pipe. *)
Fixpoint receive_all (files : list (list Z)) (os : list (list nat)) : prog Z (list (list Z)) :=
  match files with
  | [] => mret []
  | f :: fs => λ total,
      match sorter f (mk_buffer [] 0 0) with
      | Ret l _ =>
          match receive (mk_pipe (child_writes l) (hd [] os)) with
          | Ret w _ =>
              if bool_decide (i32_range (total + Z.of_nat (length w)))
              then ((λ ls, w :: ls) <$> receive_all fs (tl os)) (total + Z.of_nat (length w))%Z
              else Undef SignedOverflow
          | Throw e _ => Throw e total
          | Undef u => Undef u
          | NoFuel => NoFuel
          end
      | Throw e _ => Throw e total
      | Undef u => Undef u
      | NoFuel => NoFuel
      end
  end.

(** [main] of 2_parallel_sort.c. *)
Definition parallel_sort (files : list (list Z)) (os : list (list nat)) : prog Z (list (option Z)) :=
  _ ← modify (λ _, 0%Z);
  ws ← receive_all files os;
  total ← get;
  copy_arrays ws 0 (replicate (Z.to_nat total) None).

(** *** The encoding *)

Lemma of_byte_of z : of_byte (byte_of z) = (z `mod` 256)%Z.
Proof.
  unfold of_byte, byte_of. pose proof (Z.mod_pos_bound z 256). rewrite N_ascii_embedding; lia.
Qed.

Lemma length_int_bytes z : length (int_bytes z) = 4.
Proof. done. Qed.

Lemma int_roundtrip z : i32_range z → bytes_int (int_bytes z) = z.
Proof.
  intros Hz. unfold i32_range in Hz. unfold bytes_int, int_bytes. cbn [foldr].
  rewrite !of_byte_of. pose proof (wrap_range 32 z ltac:(lia)) as Hw.
  set (u := wrap32 z) in *.
  assert (u `mod` 256 + 256 * ((u `div` 256) `mod` 256 + 256 * ((u `div` 65536) `mod` 256 +
    256 * ((u `div` 16777216) `mod` 256 + 256 * 0))) = u)%Z as ->.
  { change 65536%Z with (256 * 256)%Z. change 16777216%Z with (256 * (256 * 256))%Z.
    rewrite <-!Z.div_div by lia.
    pose proof (Z.div_mod u 256). pose proof (Z.div_mod (u `div` 256) 256).
    pose proof (Z.div_mod (u `div` 256 `div` 256) 256).
    assert (0 ≤ u `div` 256 `div` 256 `div` 256 < 256)%Z.
    { rewrite !Z.div_div by lia. split; [apply Z.div_pos; lia|]. apply Z.div_lt_upper_bound; lia. }
    rewrite (Z.mod_small (u `div` 256 `div` 256 `div` 256)) by done. lia. }
  destruct (Z.ltb_spec u (2 ^ 31)); unfold u, wrap in *.
  - destruct (decide (0 ≤ z)%Z); [apply Z.mod_small; lia|].
    rewrite <-(Z.mod_add z 1) in * by lia. rewrite Z.mod_small in * by lia. lia.
  - destruct (decide (0 ≤ z)%Z); [rewrite Z.mod_small in * by lia; lia|].
    rewrite <-(Z.mod_add z 1) in * by lia. rewrite Z.mod_small in * by lia. lia.
Qed.

Lemma ints_roundtrip l t : Forall i32_range l → ints_of (length l) (message l ++ t) = l.
Proof.
  induction 1 as [|x l Hx Hl IH]; [done|].
  change (message (x :: l)) with (int_bytes x ++ message l). cbn [length ints_of].
  rewrite <-app_assoc, take_app_length', drop_app_length' by done.
  by rewrite int_roundtrip, IH.
Qed.

Lemma length_message l : length (message l) = length l * 4.
Proof.
  induction l as [|x l IH]; [done|]. change (message (x :: l)) with (int_bytes x ++ message l).
  rewrite length_app, IH. done.
Qed.

(** *** Reading a pipe *)

Lemma read_split n c os :
  ∃ k, k ≤ n ∧ k ≤ length c ∧ (0 < n → 0 < length c → 0 < k) ∧
    read (Z.of_nat n) (mk_pipe c os) = Ret (Some (take k c)) (mk_pipe (drop k c) (tail os)).
Proof.
  unfold read. cbn. destruct (Z.ltb_spec (Z.of_nat n) 0); [lia|]. eexists. split_and!; [| | |done].
  all: destruct os; lia.
Qed.

(** Short reads add up to the bytes that were asked for, or to all that there are. *)
Lemma read_from_pipe_loop_run fuel n got c os :
  length c + 2 ≤ fuel → 0 < length got →
  ∃ os', read_from_pipe_loop fuel (Some got) (Z.of_nat (length got + n)) (mk_pipe c os) =
    Ret (got ++ take n c) (mk_pipe (drop n c) os').
Proof.
  revert n got c os. induction fuel as [|fuel IH]; intros n got c os Hf Hg; [lia|].
  cbn [read_from_pipe_loop from_option default].
  destruct (Z.ltb_spec 0 (Z.of_nat (length got))); [|lia].
  destruct (Z.ltb_spec 0 (Z.of_nat (length got + n))); [|lia]. cbn [andb].
  replace (Z.of_nat (length got + n) - Z.of_nat (length got))%Z with (Z.of_nat n) by lia.
  destruct (read_split n c os) as (k & Hn & Hc & Hk & E). rewrite (bind_ret _ _ _ _ _ E).
  destruct (decide (k = 0)) as [->|Hk0].
  - destruct fuel as [|fuel]; [lia|]. exists (tail os).
    destruct n as [|n]; [done|]. destruct c as [|b c]; [done|]. cbn in Hk. lia.
  - destruct (IH (n - k) (take k c) (drop k c) (tail os)) as (os' & E').
    { rewrite length_drop. lia. }
    { rewrite length_take. lia. }
    rewrite length_take, Nat.min_l in E' by lia. replace (k + (n - k)) with n in E' by lia.
    exists os'. unfold fmap, prog_fmap. rewrite (bind_ret _ _ _ _ _ E').
    rewrite drop_drop. replace (k + (n - k)) with n by lia. f_equal. f_equal.
    rewrite <-(take_drop k (take n c)) at 1. rewrite take_take, Nat.min_l by lia.
    by rewrite skipn_firstn_comm.
Qed.

Lemma read_from_pipe_run n c os :
  ∃ os', read_from_pipe (Z.of_nat n) (mk_pipe c os) = Ret (take n c) (mk_pipe (drop n c) os').
Proof.
  unfold read_from_pipe. destruct (read_split n c os) as (k & Hn & Hc & Hk & E).
  rewrite (bind_ret _ _ _ _ _ E). cbn [content]. destruct (decide (k = 0)) as [->|Hk0].
  - exists (tail os). rewrite Nat.add_comm. destruct n as [|n]; [done|]. destruct c as [|b c]; [done|].
    cbn in Hk. lia.
  - destruct (read_from_pipe_loop_run (length c + 2) (n - k) (take k c) (drop k c) (tail os)) as (os' & E').
    { rewrite length_drop. lia. }
    { rewrite length_take. lia. }
    rewrite length_take, Nat.min_l in E' by lia. replace (k + (n - k)) with n in E' by lia.
    exists os'. rewrite E', drop_drop. replace (k + (n - k)) with n by lia. f_equal.
    rewrite <-(take_drop k (take n c)) at 1. rewrite take_take, Nat.min_l by lia.
    by rewrite skipn_firstn_comm.
Qed.

(** A negative size stores nothing. *)
Lemma read_from_pipe_negative size p : (size < 0)%Z → read_from_pipe size p = Ret [] p.
Proof.
  intros H. unfold read_from_pipe, read, mbind, prog_bind.
  destruct (Z.ltb_spec size 0); [|lia]. by rewrite Nat.add_comm.
Qed.

#[local] Transparent max_count.
Lemma max_count_eq : max_count = 2147479552%Z.
Proof. done. Qed.
#[local] Opaque max_count.

Lemma write_all t : (Z.of_nat (length t) ≤ 2147479552)%Z → write t = t.
Proof. intros. unfold write. rewrite max_count_eq. destruct (Z.leb_spec (Z.of_nat (length t)) 2147479552); [done|lia]. Qed.

Lemma write_length t : Z.of_nat (length (write t)) = Z.min (Z.of_nat (length t)) 2147479552.
Proof.
  unfold write. rewrite max_count_eq. destruct (Z.leb_spec (Z.of_nat (length t)) 2147479552); [lia|].
  rewrite length_take. lia.
Qed.

(** The parent has the count of a child's array and then asks for the bytes of the array. *)
Lemma receive_size l os :
  (Z.of_nat (length l) < 2 ^ 31)%Z →
  ∃ os', receive (mk_pipe (child_writes l) os) =
    (body ← read_from_pipe (int_of (Z.of_nat (length l) * 4));
     if (Z.of_nat (length body) =? Z.of_nat (length l) * 4)%Z then mret (ints_of (length l) body)
     else undef Uninitialised) (mk_pipe (write (message l)) os').
Proof.
  intros Hb. unfold receive, child_writes. rewrite (write_all (int_bytes _)) by done.
  destruct (read_from_pipe_run 4 (int_bytes (Z.of_nat (length l)) ++ write (message l)) os) as (os1 & E1).
  change (Z.of_nat 4) with 4%Z in E1.
  rewrite (bind_ret _ _ _ _ _ E1). rewrite take_app_length', drop_app_length' by done.
  rewrite int_roundtrip by (unfold i32_range; lia).
  destruct (Z.ltb_spec (Z.of_nat (length l)) 0); [lia|]. rewrite Nat2Z.id. by exists os1.
Qed.

Lemma int_of_id z : i32_range z → int_of z = z.
Proof.
  intros Hz. unfold i32_range in Hz. unfold int_of, wrap.
  destruct (decide (0 ≤ z)%Z).
  - rewrite Z.mod_small by lia. destruct (Z.ltb_spec z (2 ^ 31)); lia.
  - rewrite <-(Z.mod_add z 1), Z.mod_small by lia.
    destruct (Z.ltb_spec (z + 1 * 2 ^ 32) (2 ^ 31)); lia.
Qed.

(** What a child has written arrives as it was, for as many numbers as one [write] takes. *)
Lemma receive_run l os :
  Forall i32_range l → (Z.of_nat (length l) ≤ 536869888)%Z →
  ∃ p, receive (mk_pipe (child_writes l) os) = Ret l p.
Proof.
  intros Hl Hb. destruct (receive_size l os) as (os1 & ->); [lia|].
  rewrite write_all by (rewrite length_message; lia). rewrite int_of_id by (unfold i32_range; lia).
  replace (Z.of_nat (length l) * 4)%Z with (Z.of_nat (length l * 4)) by lia.
  destruct (read_from_pipe_run (length l * 4) (message l) os1) as (os2 & E2).
  rewrite (bind_ret _ _ _ _ _ E2). rewrite take_ge by (by rewrite length_message).
  rewrite length_message, Z.eqb_refl. rewrite <-(app_nil_r (message l)), ints_roundtrip by done.
  by eexists.
Qed.

(** From there on the end of the array is never read: first because the child's [write] was
    not complete, then because [size * sizeof(int)] is negative as an [int]. *)
Lemma receive_too_many l os :
  (536869888 < Z.of_nat (length l) < 2 ^ 30)%Z →
  receive (mk_pipe (child_writes l) os) = Undef Uninitialised.
Proof.
  intros [Hb Hu]. destruct (receive_size l os) as (os1 & ->); [lia|].
  pose proof (write_length (message l)) as Hw. rewrite length_message in Hw.
  destruct (Z.ltb_spec (Z.of_nat (length l)) (2 ^ 29)).
  - rewrite int_of_id by (unfold i32_range; lia).
    replace (Z.of_nat (length l) * 4)%Z with (Z.of_nat (length l * 4)) by lia.
    destruct (read_from_pipe_run (length l * 4) (write (message l)) os1) as (os2 & E2).
    rewrite (bind_ret _ _ _ _ _ E2). rewrite take_ge by lia.
    destruct (Z.eqb_spec (Z.of_nat (length (write (message l)))) (Z.of_nat (length l * 4))); [lia|done].
  - assert (int_of (Z.of_nat (length l) * 4) = Z.of_nat (length l) * 4 - 2 ^ 32)%Z as ->.
    { unfold int_of, wrap. rewrite Z.mod_small by lia.
      destruct (Z.ltb_spec (Z.of_nat (length l) * 4) (2 ^ 31)); lia. }
    assert (Z.of_nat (length l) * 4 - 2 ^ 32 < 0)%Z as Hneg by lia.
    rewrite (bind_ret _ _ _ _ _ (read_from_pipe_negative _ _ Hneg)). cbn [length].
    destruct (Z.eqb_spec (Z.of_nat 0) (Z.of_nat (length l) * 4)); [lia|done].
Qed.

Lemma sorted_range f : fits f → Forall i32_range (sorted f).
Proof. intros [Hf _]. unfold sorted. by rewrite merge_sort_Permutation. Qed.

Lemma receive_all_run files os total :
  Forall fits files → Forall (λ f, Z.of_nat (length f) ≤ 536869888)%Z files →
  (0 ≤ total)%Z → (total + Z.of_nat (length (mjoin files)) < 2 ^ 31)%Z →
  receive_all files os total =
    Ret (sorted <$> files) (total + Z.of_nat (length (mjoin files)))%Z.
Proof.
  revert os total. induction files as [|f fs IH]; intros os total Hs Hl H0 Hb; cbn [receive_all].
  - cbn. by rewrite Z.add_0_r.
  - apply Forall_cons in Hs as [Hf Hs]. apply Forall_cons in Hl as [Hlf Hl].
    change (mjoin (f :: fs)) with (f ++ mjoin fs) in *. rewrite length_app in *.
    destruct (sorter_run f (mk_buffer [] 0 0) Hf) as (b' & ->); [lia|].
    destruct (receive_run (sorted f) (hd [] os)) as (p & ->);
      [by apply sorted_range|rewrite length_sorted; lia|].
    rewrite length_sorted, bool_decide_eq_true_2 by (unfold i32_range; lia).
    pose proof (IH (tl os) (total + Z.of_nat (length f))%Z Hs Hl ltac:(lia) ltac:(lia)) as E'.
    unfold fmap, prog_fmap. rewrite (bind_ret _ _ _ _ _ E'). cbn. f_equal. lia.
Qed.

Lemma parallel_sort_too_many f files os :
  fits f → (536869888 < Z.of_nat (length f) < 2 ^ 30)%Z →
  parallel_sort (f :: files) os 0%Z = Undef Uninitialised.
Proof.
  intros Hf Hl. unfold parallel_sort, modify, mbind, prog_bind. cbn [receive_all].
  destruct (sorter_run f (mk_buffer [] 0 0) Hf) as (b' & ->); [lia|].
  by rewrite receive_too_many by (by rewrite length_sorted).
Qed.


(** ** 3_mem_sort.c *)

Module SharedMem.

Definition MEM_SIZE : nat := N.to_nat 65536.
Definition MEM_META_SIZE : nat := 2.
(** [mem_size] *)
Definition room : nat := MEM_SIZE - MEM_META_SIZE.

(** The shared pages: the data behind the two flags. *)
Record shared_mem : Type := mk_mem { mem : bytes; is_readable : bool; is_writable : bool }.

Definition set_readable (b : bool) (s : shared_mem) : shared_mem := mk_mem (mem s) b (is_writable s).
Definition set_writable (b : bool) (s : shared_mem) : shared_mem := mk_mem (mem s) (is_readable s) b.

Definition to_copy (size : nat) : nat := if (size <? room)%nat then size else room.

(** Where the two processes are. The writer: [src] is what is left to copy of the array of
    the current call of [write_to_shared_mem], [more] the arrays of the calls that
    follow.  The reader: [size] is what is left to read in the current call of
    [read_from_shared_mem], [dst] what it has stored, [done] the results of the calls
    before. *)
Inductive pc : Type :=
| WriteWait (src : bytes) (more : list bytes)     (* while (! *is_writable) *)
| WriteTaken (src : bytes) (more : list bytes)    (* copied: before *is_writable = 0 *)
| WriteReady (src : bytes) (more : list bytes)    (* before *is_readable = 1 *)
| Written                                         (* all calls have returned *)
| ReadWait (size : nat) (dst : bytes) (results : list bytes)
| ReadTaken (size : nat) (dst : bytes) (results : list bytes)  (* before *is_readable = 0 *)
| ReadReady (size : nat) (dst : bytes) (results : list bytes)  (* before *is_writable = 1 *)
| ReadAll (results : list bytes).

(** The end of a round of a loop: [if (size == 0) break;] and what follows. *)
Definition write_next (src : bytes) (more : list bytes) : pc :=
  match src with
  | [] => match more with [] => Written | m :: more => WriteWait m more end
  | _ => WriteWait src more
  end.

Section protocol.
(** How many bytes the reader asks for when it has the results of its calls so far; [None]
    when it calls no more. *)
Variable next_size : list bytes → option nat.

Definition start_read (results : list bytes) : pc :=
  match next_size results with Some n => ReadWait n [] results | None => ReadAll results end.
Definition read_next (size : nat) (dst : bytes) (results : list bytes) : pc :=
  match size with 0 => start_read (results ++ [dst]) | _ => ReadWait size dst results end.

(** The atomic steps of both processes. *)
Definition tstep (i : nat) (l : pc) (s : shared_mem) : list (pc * shared_mem) :=
  match l with
  | WriteWait src more =>
      if is_writable s then
        let n := to_copy (length src) in
        [(WriteTaken (drop n src) more,
          mk_mem (take n src ++ drop n (mem s)) (is_readable s) (is_writable s))]
      else [(l, s)]
  | WriteTaken src more => [(WriteReady src more, set_writable false s)]
  | WriteReady src more => [(write_next src more, set_readable true s)]
  | Written => []
  | ReadWait size dst results =>
      if is_readable s then
        let n := to_copy size in
        [(ReadTaken (size - n) (dst ++ take n (mem s)) results, s)]
      else [(l, s)]
  | ReadTaken size dst results => [(ReadReady size dst results, set_readable false s)]
  | ReadReady size dst results => [(read_next size dst results, set_writable true s)]
  | ReadAll _ => []
  end.

(** The writer with the arrays of its calls, the reader before its first. *)
Definition start (m : bytes) (more : list bytes) : config shared_mem pc :=
  mk_config (mk_mem (replicate room "000"%char) false true) [WriteWait m more; start_read []].

(** The reader asks for what the writer sends. *)
Definition agree (ms : list bytes) : Prop :=
  ∀ k, next_size (take k ms) = length <$> ms !! k.

Context (ms : list bytes) (Hagree : agree ms).

(** A place in the transfer: [o] bytes of the [k]-th array are through. *)
Definition writer_at (k o : nat) : pc :=
  match ms !! k with Some m => WriteWait (drop o m) (drop (Datatypes.S k) ms) | None => Written end.
Definition reader_at (k o : nat) : pc :=
  match ms !! k with
  | Some m => ReadWait (length m - o) (take o m) (take k ms)
  | None => ReadAll ms
  end.
(** The next place. *)
Definition next_place (k o : nat) : nat * nat :=
  match ms !! k with
  | Some m =>
      let o' := o + to_copy (length m - o) in
      if (o' =? length m)%nat then (Datatypes.S k, 0) else (k, o')
  | None => (k, o)
  end.

(** The six states of the hand-over; [r] is the readable flag, [w] the writable one. *)
Inductive handover (m : bytes) (k o : nat) : config shared_mem pc → Prop :=
| ho_idle d :
    handover m k o (mk_config (mk_mem d false true) [writer_at k o; reader_at k o])
| ho_copied d :
    take (to_copy (length m - o)) d = take (to_copy (length m - o)) (drop o m) →
    handover m k o (mk_config (mk_mem d false true)
      [WriteTaken (drop (to_copy (length m - o)) (drop o m)) (drop (Datatypes.S k) ms); reader_at k o])
| ho_closed d :
    take (to_copy (length m - o)) d = take (to_copy (length m - o)) (drop o m) →
    handover m k o (mk_config (mk_mem d false false)
      [WriteReady (drop (to_copy (length m - o)) (drop o m)) (drop (Datatypes.S k) ms); reader_at k o])
| ho_ready d :
    take (to_copy (length m - o)) d = take (to_copy (length m - o)) (drop o m) →
    handover m k o (mk_config (mk_mem d true false)
      [writer_at (next_place k o).1 (next_place k o).2; reader_at k o])
| ho_read d :
    handover m k o (mk_config (mk_mem d true false)
      [writer_at (next_place k o).1 (next_place k o).2;
       ReadTaken (length m - o - to_copy (length m - o)) (take (o + to_copy (length m - o)) m) (take k ms)])
| ho_taken d :
    handover m k o (mk_config (mk_mem d false false)
      [writer_at (next_place k o).1 (next_place k o).2;
       ReadReady (length m - o - to_copy (length m - o)) (take (o + to_copy (length m - o)) m) (take k ms)]).

(** Between the places, or at the end. *)
Definition transfer (c : config shared_mem pc) : Prop :=
  (∃ k o m, ms !! k = Some m ∧ o ≤ length m ∧ length (mem (shared c)) = room ∧ handover m k o c) ∨
  ∃ d, length d = room ∧ c = mk_config (mk_mem d false true) [Written; ReadAll ms].

Lemma to_copy_le n : to_copy n ≤ n ∧ to_copy n ≤ room ∧ (0 < n → 0 < to_copy n).
Proof.
  unfold to_copy. assert (0 < room) by (apply Nat.ltb_lt; by vm_compute).
  destruct (Nat.ltb_spec n room); lia.
Qed.

#[local] Opaque room.

Lemma writer_next k o m :
  ms !! k = Some m → o ≤ length m →
  write_next (drop (to_copy (length m - o)) (drop o m)) (drop (Datatypes.S k) ms) =
    writer_at (next_place k o).1 (next_place k o).2.
Proof.
  intros Hm Ho. unfold next_place. rewrite Hm. rewrite drop_drop.
  pose proof (to_copy_le (length m - o)) as (H1 & _ & H3).
  destruct (Nat.eqb_spec (o + to_copy (length m - o)) (length m)) as [E|E]; cbn [fst snd].
  - rewrite drop_ge by lia. cbn [write_next]. unfold writer_at.
    destruct (ms !! Datatypes.S k) as [m'|] eqn:E'.
    + rewrite (drop_S _ _ _ E'). by rewrite drop_0.
    + rewrite drop_ge; [done|]. by apply lookup_ge_None.
  - unfold writer_at. rewrite Hm.
    destruct (drop (o + to_copy (length m - o)) m) as [|x t] eqn:E'; [|done].
    apply (f_equal length) in E'. rewrite length_drop in E'. cbn in E'. lia.
Qed.

Lemma reader_next k o m :
  ms !! k = Some m → o ≤ length m →
  read_next (length m - o - to_copy (length m - o)) (take (o + to_copy (length m - o)) m) (take k ms) =
    reader_at (next_place k o).1 (next_place k o).2.
Proof.
  intros Hm Ho. unfold next_place. rewrite Hm.
  pose proof (to_copy_le (length m - o)) as (H1 & _ & H3).
  destruct (Nat.eqb_spec (o + to_copy (length m - o)) (length m)) as [E|E]; cbn [fst snd].
  - replace (length m - o - to_copy (length m - o)) with 0 by lia. cbn [read_next].
    rewrite (take_ge m), <-(take_S_r _ _ _ Hm) by lia. unfold start_read, reader_at.
    rewrite Hagree. destruct (ms !! Datatypes.S k) as [m'|] eqn:E'; cbn.
    + by rewrite Nat.sub_0_r, take_0.
    + rewrite (take_ge ms); [done|]. by apply lookup_ge_None.
  - unfold reader_at. rewrite Hm. replace (length m - o - to_copy (length m - o))
      with (length m - (o + to_copy (length m - o))) by lia.
    destruct (length m - (o + to_copy (length m - o))) eqn:E'; [lia|]. done.
Qed.

Lemma next_place_ok k o m :
  ms !! k = Some m → o ≤ length m →
  (next_place k o).1 = k ∧ (next_place k o).2 ≤ length m ∨ next_place k o = (Datatypes.S k, 0).
Proof.
  intros Hm Ho. unfold next_place. rewrite Hm. pose proof (to_copy_le (length m - o)).
  destruct (Nat.eqb_spec (o + to_copy (length m - o)) (length m)); cbn; [by right|]. left. lia.
Qed.

(** Reaching a new place. *)
Lemma transfer_idle k o d :
  length d = room → (∀ m, ms !! k = Some m → o ≤ length m) →
  transfer (mk_config (mk_mem d false true) [writer_at k o; reader_at k o]).
Proof.
  intros Hd Ho. destruct (ms !! k) as [m|] eqn:E.
  - left. exists k, o, m. split_and!; [done|by apply Ho|done|constructor].
  - right. exists d. split; [done|]. unfold writer_at, reader_at. by rewrite E.
Qed.

(** Waiting for a flag changes nothing. *)
Lemma writer_spins k o s l' s' :
  is_writable s = false → (l', s') ∈ tstep 0 (writer_at k o) s → l' = writer_at k o ∧ s' = s.
Proof.
  intros Hw. unfold writer_at. destruct (ms !! k); cbn; rewrite ?Hw; intros Hs; outcomes Hs; done.
Qed.

Lemma reader_spins k o s l' s' :
  is_readable s = false → (l', s') ∈ tstep 1 (reader_at k o) s → l' = reader_at k o ∧ s' = s.
Proof.
  intros Hw. unfold reader_at. destruct (ms !! k); cbn; rewrite ?Hw; intros Hs; outcomes Hs; done.
Qed.

Lemma handover_step m k o s a b i l l' s' :
  ms !! k = Some m → o ≤ length m → length (mem s) = room →
  handover m k o (mk_config s [a; b]) → [a; b] !! i = Some l → (l', s') ∈ tstep i l s →
  transfer (mk_config s' (<[i:=l']> [a; b])).
Proof.
  intros Hm Ho Hlen Hh Hl Hs. pose proof (to_copy_le (length m - o)) as (Hn1 & Hn2 & _).
  assert (∀ c, length (mem (shared c)) = room → handover m k o c → transfer c) as Hkeep
    by (intros; left; exists k, o, m; done).
  assert (length (drop o m) = length m - o) as Hlo by apply length_drop.
  destruct i as [|[|i]]; [| |done]; injection Hl as ->;
    inversion Hh as [d|d Hd|d Hd|d Hd|d|d]; subst; cbn in Hlen; cbn [insert list_insert].
  - (* the writer copies *)
    unfold writer_at in Hs. rewrite Hm in Hs. cbn in Hs. outcomes Hs. rewrite Hlo.
    apply Hkeep; [cbn; rewrite length_app, length_take, !length_drop; lia|]. apply ho_copied.
    apply take_app_length'. rewrite length_take. lia.
  - cbn in Hs. outcomes Hs. apply Hkeep; [done|]. by apply ho_closed.
  - cbn in Hs. outcomes Hs. rewrite (writer_next _ _ _ Hm Ho). apply Hkeep; [done|]. by apply ho_ready.
  - apply writer_spins in Hs as [-> ->]; [|done]. apply Hkeep; [done|]. by apply ho_ready.
  - apply writer_spins in Hs as [-> ->]; [|done]. apply Hkeep; [done|]. apply ho_read.
  - apply writer_spins in Hs as [-> ->]; [|done]. apply Hkeep; [done|]. apply ho_taken.
  - apply reader_spins in Hs as [-> ->]; [|done]. apply Hkeep; [done|]. apply ho_idle.
  - apply reader_spins in Hs as [-> ->]; [|done]. apply Hkeep; [done|]. by apply ho_copied.
  - apply reader_spins in Hs as [-> ->]; [|done]. apply Hkeep; [done|]. by apply ho_closed.
  - (* the reader copies *)
    unfold reader_at in Hs. rewrite Hm in Hs. cbn in Hs. outcomes Hs.
    rewrite Hd, take_take_drop. apply Hkeep; [done|]. apply ho_read.
  - cbn in Hs. outcomes Hs. apply Hkeep; [done|]. apply ho_taken.
  - cbn in Hs. outcomes Hs. rewrite (reader_next _ _ _ Hm Ho).
    apply transfer_idle; [done|]. intros m' Hm'.
    destruct (next_place_ok _ _ _ Hm Ho) as [[E E']|E]; [rewrite E in Hm'; by simplify_eq|].
    rewrite E. cbn. lia.
Qed.

Lemma transfer_step s ls i l l' s' :
  transfer (mk_config s ls) → ls !! i = Some l → (l', s') ∈ tstep i l s →
  transfer (mk_config s' (<[i:=l']> ls)).
Proof.
  intros [(k & o & m & Hm & Ho & Hlen & Hh)|(d & _ & Hd)] Hl Hs.
  - assert (∃ a b, ls = [a; b]) as (a & b & ->) by (inversion Hh; eauto).
    by apply (handover_step m k o s a b i l l' s').
  - injection Hd as -> ->. destruct i as [|[|i]]; simplify_eq/=; outcomes Hs.
Qed.

Lemma reached m more c :
  ms = m :: more → reachable tstep (start m more) c → transfer c.
Proof.
  intros E. apply (reachable_invariant tstep transfer); [intros; by eapply transfer_step|].
  unfold start. left. exists 0, 0, m. rewrite E. split_and!; [done|lia|apply length_replicate|].
  assert (start_read [] = reader_at 0 0) as ->.
  { pose proof (Hagree 0) as H0. rewrite take_0 in H0. unfold start_read, reader_at.
    rewrite H0, E. cbn. by rewrite Nat.sub_0_r, take_0. }
  assert (WriteWait m more = writer_at 0 0) as -> by (unfold writer_at; rewrite E; cbn; by rewrite !drop_0).
  constructor.
Qed.

(** Somebody can always take a step that is not a wait. *)
Lemma transfer_progress c :
  transfer c → (∃ d, length d = room ∧ c = mk_config (mk_mem d false true) [Written; ReadAll ms]) ∨
  ∃ i l l' s', threads c !! i = Some l ∧ (l', s') ∈ tstep i l (shared c) ∧ l' ≠ l.
Proof.
  intros [(k & o & m & Hm & Ho & Hlen & Hh)|?]; [|by left]. right.
  destruct Hh.
  - exists 0. unfold writer_at. rewrite Hm. eexists _, _, _. split; [done|]. split; [by left|done].
  - exists 0. eexists _, _, _. split; [done|]. split; [by left|done].
  - exists 0. eexists _, _, _. split; [done|]. split; [by left|].
    unfold write_next. by repeat case_match.
  - exists 1. unfold reader_at. rewrite Hm. eexists _, _, _. split; [done|]. split; [by left|done].
  - exists 1. eexists _, _, _. split; [done|]. split; [by left|done].
  - exists 1. eexists _, _, _. split; [done|]. split; [by left|].
    unfold read_next, start_read. by repeat case_match.
Qed.
End protocol.

(** How much the parent asks for in its two calls: the size, then so many ints. *)
Definition parent_reads (results : list bytes) : option nat :=
  match results with
  | [] => Some 4
  | [h] => Some (Z.to_nat (bytes_int h) * 4)
  | _ => None
  end.

(** The child of 3_mem_sort.c that sends an array, and the parent. *)
Definition transfer_start (l : list Z) : config shared_mem pc :=
  start parent_reads (int_bytes (Z.of_nat (length l))) [message l].

Lemma transfer_reached l c :
  Forall i32_range l → (Z.of_nat (length l) < 2 ^ 31)%Z →
  reachable (tstep parent_reads) (transfer_start l) c →
  transfer [int_bytes (Z.of_nat (length l)); message l] c.
Proof.
  intros Hl Hb Hr. refine (reached parent_reads _ _ _ _ c eq_refl Hr).
  intros [|[|[|k]]]; cbn -[int_bytes bytes_int]; [done| |done|done].
  by rewrite int_roundtrip, Nat2Z.id, length_message by (unfold i32_range; lia).
Qed.

(** In every interleaving of a child and the parent over the shared memory, an array of
    any size arrives as it was sent, the data region keeps its size, and until
    then one of the two can always do more than wait. *)
Theorem shared_mem_transfer l c :
  Forall i32_range l → (Z.of_nat (length l) < 2 ^ 31)%Z →
  reachable (tstep parent_reads) (transfer_start l) c →
  length (mem (shared c)) = room ∧
  (∀ results, threads c !! 1 = Some (ReadAll results) → ∃ h body,
    results = [h; body] ∧ ints_of (Z.to_nat (bytes_int h)) body = l) ∧
  ((∀ results, threads c !! 1 ≠ Some (ReadAll results)) → ∃ i p p' s',
    threads c !! i = Some p ∧ (p', s') ∈ tstep parent_reads i p (shared c) ∧ p' ≠ p).
Proof.
  intros Hl Hb Hr. set (ms := [int_bytes (Z.of_nat (length l)); message l]).
  assert (bytes_int (int_bytes (Z.of_nat (length l))) = Z.of_nat (length l)) as Hh
    by (apply int_roundtrip; unfold i32_range; lia).
  assert (agree parent_reads ms) as Hag.
  { intros [|[|[|k]]]; cbn -[int_bytes bytes_int]; [done| |done|done].
    by rewrite Hh, Nat2Z.id, length_message. }
  pose proof (reached parent_reads ms Hag _ _ c eq_refl Hr) as Ht.
  split_and!.
  - by destruct Ht as [(k & o & m & Hm & Ho & Hlen & Hho)|(d & Hlen & ->)].
  - intros results Hres. destruct Ht as [(k & o & m & Hm & Ho & Hlen & Hho)|(d & _ & ->)].
    + exfalso. inversion Hho; subst; cbn in Hres; unfold reader_at in Hres; rewrite ?Hm in Hres; done.
    + injection Hres as <-. eexists _, _. split; [done|]. rewrite Hh, Nat2Z.id.
      rewrite <-(app_nil_r (message l)). by apply ints_roundtrip.
  - intros Hno. destruct (transfer_progress parent_reads ms c Ht) as [(d & _ & ->)|?]; [|done].
    by destruct (Hno ms).
Qed.

(** What the parent has when it has read everything: the two arrays as they were sent. *)
Lemma reached_results l c h body :
  Forall i32_range l → (Z.of_nat (length l) < 2 ^ 31)%Z →
  reachable (tstep parent_reads) (transfer_start l) c → threads c !! 1 = Some (ReadAll [h; body]) →
  h = int_bytes (Z.of_nat (length l)) ∧ body = message l.
Proof.
  intros Hl Hb Hr Hres. destruct (transfer_reached l c Hl Hb Hr) as [(k & o & m & Hm & Ho & Hlen & Hho)|(d & _ & ->)].
  - exfalso. inversion Hho; subst; cbn in Hres; unfold reader_at in Hres; rewrite ?Hm in Hres; done.
  - by injection Hres as -> ->.
Qed.

(** Has the parent read everything? *)
Definition all_read (c : config shared_mem pc) : bool :=
  match threads c !! 1 with Some (ReadAll _) => true | _ => false end.

Lemma shared_mem_transfer_witness :
  ∃ c h body, reachable (tstep parent_reads) (transfer_start [7; -9]%Z) c ∧
    threads c !! 1 = Some (ReadAll [h; body]) ∧ ints_of (Z.to_nat (bytes_int h)) body = [7; -9]%Z.
Proof.
  pose (xs := (concat (replicate 2 (replicate 3 (0, 0) ++ replicate 3 (1, 0)))) : list (nat * nat)).
  assert (from_option all_read false (run_schedule (tstep parent_reads) xs (transfer_start [7; -9]%Z)) = true)
    as H by by vm_compute.
  destruct (run_schedule _ xs _) as [c|] eqn:E; [|discriminate H]. cbn [from_option] in H.
  apply run_schedule_reachable in E as Hr. clear E. unfold all_read in H.
  destruct (threads c !! 1) as [[| | | | | | |results]|] eqn:E1; try discriminate H.
  destruct (proj1 (proj2 (shared_mem_transfer [7; -9]%Z c ltac:(repeat constructor; unfold i32_range; lia)
    ltac:(cbn; lia) Hr)) results E1) as (h & body & -> & Hi).
  by exists c, h, body.
Defined.

(** *** The program *)

(** The children and the loop of [main] that reads what they send; [xs]: an order of the
    steps of each child and the parent. *)
Fixpoint read_all (files : list (list Z)) (xs : list (list (nat * nat))) : prog Z (list (list Z)) :=
  match files with
  | [] => mret []
  | f :: fs => λ total,
      match sorter f (mk_buffer [] 0 0) with
      | Ret l _ =>
          match run_schedule (tstep parent_reads) (hd [] xs) (transfer_start l) with
          | Some c =>
              match threads c !! 1 with
              | Some (ReadAll [h; body]) =>
                  let size := bytes_int h in
                  if bool_decide (i32_range (total + size))
                  then ((λ ls, ints_of (Z.to_nat size) body :: ls) <$> read_all fs (tl xs)) (total + size)%Z
                  else Undef SignedOverflow
              | _ => NoFuel                  (* the parent is still reading *)
              end
          | None => NoFuel
          end
      | Throw e _ => Throw e total
      | Undef u => Undef u
      | NoFuel => NoFuel
      end
  end.

(** [main] of 3_mem_sort.c. *)
Definition mem_sort (files : list (list Z)) (xs : list (list (nat * nat))) : prog Z (list (option Z)) :=
  _ ← modify (λ _, 0%Z);
  ws ← read_all files xs;
  total ← get;
  copy_arrays ws 0 (replicate (Z.to_nat total) None).

(** An order of steps in which the parent reads all that the child of a file sends. *)
Definition completes (f : list Z) (xs : list (nat * nat)) : Prop :=
  from_option all_read false (run_schedule (tstep parent_reads) xs (transfer_start (sorted f))) = true.

Lemma read_all_run files xs total :
  Forall2 completes files xs →
  Forall fits files → Forall (λ f, Z.of_nat (length f) < 2 ^ 30)%Z files →
  (0 ≤ total)%Z → (total + Z.of_nat (length (mjoin files)) < 2 ^ 31)%Z →
  read_all files xs total = Ret (sorted <$> files) (total + Z.of_nat (length (mjoin files)))%Z.
Proof.
  intros Hc. revert total. induction Hc as [|f x files xs Hx _ IH]; intros total Hs Hl H0 Hb; cbn [read_all].
  - cbn. by rewrite Z.add_0_r.
  - apply Forall_cons in Hs as [Hf Hs]. apply Forall_cons in Hl as [Hlf Hl].
    change (mjoin (f :: files)) with (f ++ mjoin files) in *. rewrite length_app in *.
    destruct (sorter_run f (mk_buffer [] 0 0) Hf Hlf) as (b' & ->). cbn [hd tl].
    unfold completes in Hx. destruct (run_schedule _ x _) as [c|] eqn:E; [|done]. cbn [from_option] in Hx.
    apply run_schedule_reachable in E. unfold all_read in Hx.
    destruct (threads c !! 1) as [[| | | | | | |results]|] eqn:E1; try done.
    assert (Hlen : length (sorted f) = length f) by apply length_sorted.
    destruct (shared_mem_transfer (sorted f) c (sorted_range f Hf) ltac:(rewrite Hlen; lia) E) as (_ & H & _).
    destruct (H results E1) as (h & body & -> & Hi). clear H.
    assert (bytes_int h = Z.of_nat (length f)) as Eh.
    { destruct (reached_results (sorted f) c h body) as [-> _]; [by apply sorted_range|rewrite Hlen; lia|done|done|].
      rewrite Hlen. apply int_roundtrip. unfold i32_range. lia. }
    rewrite Eh in *. rewrite Hi, bool_decide_eq_true_2 by (unfold i32_range; lia).
    pose proof (IH (total + Z.of_nat (length f))%Z Hs Hl ltac:(lia) ltac:(lia)) as E'.
    unfold fmap, prog_fmap. rewrite (bind_ret _ _ _ _ _ E'). cbn. f_equal. lia.
Qed.

(** The third program ends with the same array as the other two, for every order of the
    steps in which the children and the parent come to an end. *)
Theorem mem_sort_correct files xs :
  countable files → Forall2 completes files xs →
  mem_sort files xs 0%Z = Ret (presorted files) (Z.of_nat (length (mjoin files))) ∧
  mem_sort files xs 0%Z = simple_sort files 0%Z.
Proof.
  intros Hc Hx. rewrite simple_sort_run by done.
  assert (mem_sort files xs 0%Z = Ret (presorted files) (Z.of_nat (length (mjoin files)))) as ->; [|done].
  destruct Hc as (Hs & Hl & Hb). unfold mem_sort. cbn [modify mbind prog_bind].
  change ((read_all files xs ≫= λ ws, get ≫= λ total,
    copy_arrays ws 0 (replicate (Z.to_nat total) None)) 0%Z =
    Ret (presorted files) (Z.of_nat (length (mjoin files)))).
  rewrite (bind_ret _ _ _ _ _ (read_all_run files xs 0%Z Hx Hs Hl ltac:(lia) ltac:(lia))).
  unfold get, mbind, prog_bind. rewrite Z.add_0_l, Nat2Z.id.
  apply (copy_arrays_run (sorted <$> files) []). apply length_join_sorted.
Qed.

(** Child and parent in turns. *)
Definition in_turns : list (nat * nat) := concat (replicate 2 (replicate 3 (0, 0) ++ replicate 3 (1, 0))).

Lemma mem_sort_correct_witness :
  mem_sort [[7; -9]; []; [1]]%Z [in_turns; in_turns; in_turns] 0%Z = Ret (Some <$> [-9; 7; 1])%Z 3%Z.
Proof.
  refine (eq_trans (proj1 (mem_sort_correct [[7; -9]; []; [1]]%Z [in_turns; in_turns; in_turns] _ _)) _).
  - split_and!; [|repeat constructor; cbn; lia|cbn; lia].
    repeat apply Forall_cons_2; try constructor; apply (fits_within _ (-16));
      repeat constructor; unfold i32_range; lia.
  - repeat constructor; vm_compute; reflexivity.
  - vm_compute. reflexivity.
Defined.
End SharedMem.
