(* ===== verification/SemEvents.v ===== *)
(** * Events between processes: a message queue and a set of semaphores

    Model of src/sysprog/lecture_examples/7_ipc/9_sem_event_source.c and
    9_sem_event_cons.c: sources of events with the identifiers 1, 2 and 3 send each line to
    a System V queue and increment their semaphore; a consumer takes one event of every
    source and the lock, the semaphore number 3, in one [semop].  What the stack holds
    before the buffers are written, and the order in which the processes run, are
    arguments. *)

From S2P Require Import Prelude CStrings Concur.

(** ** Messages *)

(** An integer of [n] bytes in memory (x86), and its value without a sign. *)
Fixpoint le (n : nat) (z : Z) : bytes :=
  match n with 0 => [] | S n => ascii_of_nat (Z.to_nat (z `mod` 256)) :: le n (z / 256) end.
Fixpoint unle (b : bytes) : Z :=
  match b with [] => 0 | c :: b => Z.of_nat (nat_of_ascii c) + 256 * unle b end%Z.

(** [char msg[512]] *)
Definition MSG : nat := 512.

(** [memcpy(msg + pos, b, size)] into an array, or out of its bounds. *)
Definition memcpy (msg : bytes) (pos : nat) (b : bytes) : option bytes :=
  if pos + length b <=? length msg then Some (take pos msg ++ b ++ drop (pos + length b) msg) else None.

(** [pack_msg]: the buffer and [pos - msg]. *)
Definition pack_msg (msg : bytes) (type : Z) (data : bytes) : option (bytes * nat) :=
  let data_size := Z.of_nat (length data) in
  let pos := 0 in
  msg ← memcpy msg pos (le 8 type);
  let pos := pos + 8 in
  msg ← memcpy msg pos (le 4 data_size);
  let pos := pos + 4 in
  msg ← memcpy msg pos data;
  let pos := pos + length data in
  Some (msg, pos).

(** A message in a queue: its type, and the bytes behind it. *)
Definition message : Type := Z * bytes.

(** [send_msg]: [msgsnd] takes [size] bytes from behind the type, of an array that holds them. *)
Definition send_msg (msg : bytes) (myid : Z) (data : bytes) : option message :=
  '(msg, size) ← pack_msg msg myid data;
  if 8 + size <=? length msg then Some (myid, take size (drop 8 msg)) else None.

(** [unpack_msg]: the type, the size of the data, and [data], a pointer into the message. *)
Definition unpack_msg (msg : bytes) : Z * Z * nat :=
  let pos := 0 in
  let type := unle (take 8 (drop pos msg)) in
  let pos := pos + 8 in
  let data_size := unle (take 4 (drop pos msg)) in
  let pos := pos + 4 in
  (type, data_size, pos).

(** What [recv_msg] prints: [%ld], [%d], and the memory that [%s] starts to read. *)
Record received : Type := mk_received { r_type : Z; r_size : Z; r_str : bytes }.

(** [recv_msg], when [msgrcv] returns the message; its text goes behind the type. *)
Definition recv_msg (msg : bytes) (m : message) : option received :=
  msg ← memcpy msg 0 (le 8 m.1);
  msg ← memcpy msg 8 m.2;
  let '(type, data_size, data) := unpack_msg msg in
  Some (mk_received type data_size (drop data msg)).

(** ** Processes *)

(** A source: [getline], [send_msg], [sem_inc]. *)
Inductive spc : Type := s_read | s_send (line : bytes) | s_inc | s_gone.
Record source : Type := mk_source { myid : Z; semadj : list nat; at_source : spc }.

(** A consumer: [lock_events], [recv_msg] for [i + 1], [unlock_events]. *)
Inductive cpc : Type := c_lock | c_recv (i : nat) | c_unlock.

(** The queue, the semaphores, whether they were removed; the processes; the lines sent
    and the events received so far, with their types; and what the kernel adds to the
    semaphores when a consumer ends. *)
Record Events : Type := mk_events {
  queue : list message;
  sems : list nat;
  removed : bool;
  sources : list source;
  consumers : list cpc;
  sent : list (Z * bytes);
  taken : list (Z * bytes);
  adjs : list (list Z);
}.

(** [sem_get_or_create] by the first process; then all are connected. *)
Definition start (ids : list Z) (n : nat) : Events :=
  mk_events [] [0; 0; 0; 1] false ((λ i, mk_source i [0; 0; 0; 0] s_read) <$> ids) (replicate n c_lock) [] [] (replicate n [0; 0; 0; 0]%Z).

Definition set_source i x s := mk_events (queue s) (sems s) (removed s) (<[i := x]> (sources s)) (consumers s) (sent s) (taken s) (adjs s).
Definition set_consumer j c s := mk_events (queue s) (sems s) (removed s) (sources s) (<[j := c]> (consumers s)) (sent s) (taken s) (adjs s).
Definition set_sems v s := mk_events (queue s) v (removed s) (sources s) (consumers s) (sent s) (taken s) (adjs s).
Definition set_queue q o t s := mk_events q (sems s) (removed s) (sources s) (consumers s) o t (adjs s).
Definition set_adj j adj s := mk_events (queue s) (sems s) (removed s) (sources s) (consumers s) (sent s) (taken s) (<[j := adj]> (adjs s)).
Definition set_removed s := mk_events (queue s) (sems s) true (sources s) (consumers s) (sent s) (taken s) (adjs s).

(** [op.sem_num = myid - 1], an unsigned short. *)
Definition sem_num (id : Z) : nat := Z.to_nat ((id - 1) `mod` 2 ^ 16).

(** What a semaphore holds at the most, and what SEM_UNDO can count: -32768 to 32767. *)
Definition SEMVMX : nat := Z.to_nat 32767.
Definition SEMAEM : Z := 32767.

(** [sem_inc]; the result of [semop], an error when one of the two would be exceeded, is not
    looked at.  SEM_UNDO counts it: [semadj] is how much is to be taken away. *)
Definition sem_inc (x : source) (s : Events) : list nat * list nat :=
  let n := sem_num (myid x) in
  match sems s !! n, semadj x !! n with
  | Some v, Some a =>
      if (v <? SEMVMX) && (Z.of_nat a <=? SEMAEM)%Z && negb (removed s)
      then (<[n := S v]> (sems s), <[n := S a]> (semadj x)) else (sems s, semadj x)
  | _, _ => (sems s, semadj x)
  end.

(** What the kernel does when a process with SEM_UNDO ends: its increments are taken back,
    down to 0. *)
Definition undo (adj v : list nat) : list nat := zip_with Nat.sub v adj.

(** [semop] of an array of decrements: the first that cannot be done decides, by waiting for
    its semaphore or, when SEM_UNDO cannot count it, with the error ERANGE. *)
Inductive verdict : Type := all_fine | must_wait | out_of_range.
Fixpoint verdict_of (v : list nat) (adj : list Z) : verdict :=
  match v, adj with
  | n :: v, a :: adj =>
      if n =? 0 then must_wait else if (SEMAEM <? a + 1)%Z then out_of_range else verdict_of v adj
  | _, _ => all_fine
  end.

(** [lock_events]: [semop] takes one of each, all at once, or fails, which is not looked at;
    [None] while it waits. *)
Definition lock_events (v : list nat) (adj : list Z) : option (list nat * list Z) :=
  match verdict_of v adj with
  | all_fine => Some (pred <$> v, Z.succ <$> adj)
  | out_of_range => Some (v, adj)
  | must_wait => None
  end.
Definition unlock_events (v : list nat) (adj : list Z) : list nat * list Z :=
  match v !! 3, adj !! 3 with
  | Some n, Some a =>
      if (n <? SEMVMX) && (- SEMAEM <=? a)%Z then (<[3 := S n]> v, <[3 := Z.pred a]> adj) else (v, adj)
  | _, _ => (v, adj)
  end.

(** [msgrcv] takes the first message of a type. *)
Fixpoint msgrcv (type : Z) (q : list message) : option (message * list message) :=
  match q with
  | [] => None
  | m :: q =>
      if (m.1 =? type)%Z then Some (m, q)
      else '(x, q) ← msgrcv type q; Some (x, m :: q)
  end.

(** [getline] returns a line or ends; then the bytes that the buffers hold; or nothing. *)
Inductive answer : Type := Line (o : option bytes) | Stack (msg : bytes) | Go.
Inductive label : Type := Source (i : nat) (a : answer) | Consumer (j : nat) (a : answer).

Definition with_pc (x : source) (p : spc) : source := mk_source (myid x) (semadj x) p.

Definition source_step (i : nat) (a : answer) (s : Events) : attempt Events :=
  match sources s !! i with
  | None => Blocked
  | Some x =>
      match at_source x, a with
      | s_read, Line (Some line) => Next (set_source i (with_pc x (s_send (c_string line))) s)
      | s_read, Line None =>
          (* the end of main, and of the process *)
          let s := if (myid x =? 1)%Z then set_removed s else set_sems (undo (semadj x) (sems s)) s in
          Next (set_source i (with_pc x s_gone) s)
      | s_send line, Stack msg =>
          if negb (length msg =? MSG) then Blocked else
          match send_msg msg (myid x) line with
          | None => Undefined OutOfBounds
          | Some m =>
              if removed s || (myid x <? 1)%Z then Next (set_source i (with_pc x s_inc) s)  (* msgsnd fails *)
              else Next (set_source i (with_pc x s_inc) (set_queue (queue s ++ [m]) (sent s ++ [(myid x, line)]) (taken s) s))
          end
      | s_inc, Go =>
          let '(v, adj) := sem_inc x s in
          Next (set_source i (mk_source (myid x) adj s_read) (set_sems v s))
      | _, _ => Blocked
      end
  end.

Definition consumer_step (j : nat) (a : answer) (s : Events) : attempt Events :=
  match consumers s !! j, a with
  | Some c_lock, Go =>
      if removed s then Next (set_consumer j (c_recv 0) s)   (* semop fails *)
      else match adjs s !! j with
           | Some adj =>
               match lock_events (sems s) adj with
               | Some (v, adj) => Next (set_adj j adj (set_consumer j (c_recv 0) (set_sems v s)))
               | None => Blocked
               end
           | None => Blocked
           end
  | Some (c_recv i), Stack msg =>
      if negb (length msg =? MSG) then Blocked else
      if removed s then Undefined Uninitialised   (* msgrcv fails, and msg is unpacked *)
      else
        match msgrcv (Z.of_nat i + 1) (queue s) with
        | None => Blocked
        | Some (m, q) =>
            match recv_msg msg m with
            | None => Undefined OutOfBounds
            | Some r =>
                let e := (r_type r, take (Z.to_nat (r_size r)) (r_str r)) in
                Next (set_consumer j (if i + 1 <? 3 then c_recv (i + 1) else c_unlock)
                  (set_queue q (sent s) (taken s ++ [e]) s))
            end
        end
  | Some c_unlock, Go =>
      if removed s then Next (set_consumer j c_lock s)
      else match adjs s !! j with
           | Some adj =>
               let '(v, adj) := unlock_events (sems s) adj in
               Next (set_adj j adj (set_consumer j c_lock (set_sems v s)))
           | None => Blocked
           end
  | _, _ => Blocked
  end.

Definition step (e : label) (s : Events) : attempt Events :=
  match e with Source i a => source_step i a s | Consumer j a => consumer_step j a s end.

Definition run : list label → Events → attempt Events := run_labels step.

(** ** The messages *)

Lemma length_le n z : length (le n z) = n.
Proof. revert z. induction n as [|n IH]; intros z; [done|]. cbn. by rewrite IH. Qed.

Lemma byte_value z : Z.of_nat (nat_of_ascii (ascii_of_nat (Z.to_nat (z `mod` 256)))) = (z `mod` 256)%Z.
Proof. pose proof (Z.mod_pos_bound z 256). rewrite nat_ascii_embedding by lia. lia. Qed.

Lemma unle_le n z : unle (le n z) = (z `mod` 256 ^ Z.of_nat n)%Z.
Proof.
  revert z. induction n as [|n IH]; intros z; cbn [le unle]; [by rewrite Z.mod_1_r|].
  rewrite byte_value, IH, Nat2Z.inj_succ, Z.pow_succ_r by lia.
  rewrite (Z.rem_mul_r z 256) by lia. lia.
Qed.

Lemma memcpy_ok msg pos b : pos + length b ≤ length msg →
  memcpy msg pos b = Some (take pos msg ++ b ++ drop (pos + length b) msg).
Proof. intros H. unfold memcpy. by rewrite (proj2 (Nat.leb_le _ _) H). Qed.

Lemma memcpy_none msg pos b : length msg < pos + length b → memcpy msg pos b = None.
Proof. intros H. unfold memcpy. by rewrite (proj2 (Nat.leb_gt _ _) H). Qed.

(** Bytes behind those that were written. *)
Lemma memcpy_next msg (a b : bytes) :
  length a + length b ≤ length msg →
  memcpy (a ++ drop (length a) msg) (length a) b = Some ((a ++ b) ++ drop (length (a ++ b)) msg).
Proof.
  intros Hn. rewrite memcpy_ok by (rewrite length_app, length_drop; lia).
  rewrite take_app_length, <-drop_drop, drop_app_length, drop_drop, length_app, <-app_assoc. done.
Qed.

Lemma pack_msg_spec msg type data : length msg = MSG →
  pack_msg msg type data =
    if 12 + length data <=? MSG
    then Some ((le 8 type ++ le 4 (Z.of_nat (length data)) ++ data) ++ drop (12 + length data) msg, 12 + length data)
    else None.
Proof.
  intros Hm. unfold pack_msg. unfold MSG in *. set (size := Z.of_nat (length data)).
  pose proof (length_le 8 type) as H8. pose proof (length_le 4 size) as H4.
  assert (memcpy msg 0 (le 8 type) = Some (le 8 type ++ drop (length (le 8 type)) msg)) as E1.
  { rewrite memcpy_ok by lia. done. }
  rewrite E1. cbn [mbind option_bind].
  assert (memcpy (le 8 type ++ drop (length (le 8 type)) msg) (0 + 8) (le 4 size) =
    Some ((le 8 type ++ le 4 size) ++ drop (length (le 8 type ++ le 4 size)) msg)) as E2.
  { replace (0 + 8) with (length (le 8 type)) at 1 by lia. apply memcpy_next. lia. }
  rewrite E2. cbn [mbind option_bind].
  assert (length (le 8 type ++ le 4 size) = 12) as H12 by (rewrite length_app; lia).
  replace (0 + 8 + 4) with (length (le 8 type ++ le 4 size)) by lia.
  destruct (Nat.leb_spec (12 + length data) 512) as [Hl|Hl].
  - rewrite memcpy_next by lia. cbn [mbind option_bind].
    rewrite <-!app_assoc, !length_app, H8, H4. f_equal.
  - rewrite memcpy_none by (rewrite length_app, length_drop; lia). done.
Qed.

(** The message of a line of up to 492 bytes: its size, the line, and eight bytes of the stack. *)
Definition text_of (msg data : bytes) : bytes :=
  le 4 (Z.of_nat (length data)) ++ data ++ take 8 (drop (12 + length data) msg).

Lemma length_text_of msg data : length msg = MSG → length data ≤ 492 → length (text_of msg data) = 12 + length data.
Proof. unfold text_of, MSG. intros. rewrite !length_app, length_le, length_take, length_drop. lia. Qed.

Lemma send_msg_spec msg type data : length msg = MSG →
  send_msg msg type data = if length data <=? 492 then Some (type, text_of msg data) else None.
Proof.
  intros Hm. unfold send_msg. rewrite pack_msg_spec by done. unfold MSG in *.
  destruct (Nat.leb_spec (12 + length data) 512) as [Hl|Hl]; cbn [mbind option_bind].
  2: { destruct (Nat.leb_spec (length data) 492); [lia|done]. }
  rewrite !length_app, !length_le, length_drop, Hm.
  destruct (Nat.leb_spec (length data) 492) as [Hd|Hd].
  - rewrite (proj2 (Nat.leb_le _ _)) by lia. f_equal. f_equal. unfold text_of.
    assert (drop 8 ((le 8 type ++ le 4 (Z.of_nat (length data)) ++ data) ++ drop (12 + length data) msg) =
      (le 4 (Z.of_nat (length data)) ++ data) ++ drop (12 + length data) msg) as ->.
    { rewrite <-(length_le 8 type) at 1. by rewrite <-app_assoc, drop_app_length. }
    rewrite take_app, take_ge by (rewrite length_app, length_le; lia).
    rewrite length_app, length_le, <-app_assoc. do 3 f_equal. lia.
  - by rewrite (proj2 (Nat.leb_gt _ _)) by lia.
Qed.

(** What is received. *)
Lemma recv_msg_spec msg (m : message) : length msg = MSG → length m.2 ≤ 504 → 4 ≤ length m.2 →
  recv_msg msg m = Some (mk_received (m.1 `mod` 256 ^ 8) (unle (take 4 m.2)) (drop 4 m.2 ++ drop (8 + length m.2) msg)).
Proof.
  destruct m as [t x]. cbn [fst snd]. intros Hm Hx Hx'. unfold MSG in *. unfold recv_msg. cbn [fst snd].
  pose proof (length_le 8 t) as H8.
  assert (memcpy msg 0 (le 8 t) = Some (le 8 t ++ drop (length (le 8 t)) msg)) as E1.
  { rewrite memcpy_ok by lia. done. }
  rewrite E1. cbn [mbind option_bind].
  assert (memcpy (le 8 t ++ drop (length (le 8 t)) msg) 8 x =
    Some ((le 8 t ++ x) ++ drop (length (le 8 t ++ x)) msg)) as E2.
  { replace 8 with (length (le 8 t)) at 3 by lia. apply memcpy_next. lia. }
  rewrite E2. cbn [mbind option_bind]. unfold unpack_msg. rewrite length_app, H8, <-app_assoc.
  assert (∀ b, drop 8 (le 8 t ++ b) = b) as Hd.
  { intros b. rewrite <-(length_le 8 t) at 1. apply drop_app_length. }
  f_equal. f_equal.
  - rewrite drop_0, take_app_le, take_ge by lia. by rewrite unle_le.
  - change (0 + 8) with 8. rewrite Hd. by rewrite take_app_le by lia.
  - change (0 + 8 + 4) with (8 + 4). rewrite <-drop_drop, Hd. by rewrite drop_app_le by lia.
Qed.

Lemma unle_size n : n ≤ 492 → unle (le 4 (Z.of_nat n)) = Z.of_nat n.
Proof. intros H. rewrite unle_le. apply Z.mod_small. cbn. lia. Qed.

(** What is received of a line: its type, its size, and the line in front of the stack. *)
Lemma received_text msg msg' type data :
  length msg = MSG → length msg' = MSG → (0 ≤ type < 2 ^ 63)%Z → length data ≤ 492 →
  ∃ r, recv_msg msg' (type, text_of msg data) = Some r ∧ r_type r = type ∧
    r_size r = Z.of_nat (length data) ∧
    r_str r = data ++ take 8 (drop (12 + length data) msg) ++ drop (20 + length data) msg'.
Proof.
  intros Hm Hm' Ht Hl. pose proof (length_text_of msg data Hm Hl) as Hx.
  eexists. split; [apply recv_msg_spec; cbn [snd]; [done|lia..]|]. cbn [fst snd r_type r_size r_str].
  assert (take 4 (text_of msg data) = le 4 (Z.of_nat (length data))) as ->.
  { unfold text_of. by rewrite take_app_le, take_ge by (rewrite length_le; lia). }
  assert (drop 4 (text_of msg data) = data ++ take 8 (drop (12 + length data) msg)) as ->.
  { unfold text_of. rewrite <-(length_le 4 (Z.of_nat (length data))) at 1. apply drop_app_length. }
  rewrite unle_size, Hx by done. rewrite <-app_assoc. split_and!; [|done..].
  apply Z.mod_small. cbn. lia.
Qed.

(** A line of up to 492 bytes comes out of the queue as it went in: the type, the size and the
    bytes are those that were sent.  A longer one is out of bounds: the array of 512 bytes
    holds 12 bytes in front of it, and [msgsnd] sends 8 bytes more than were packed.
    The memory that the consumer prints goes on behind the line, with 8 bytes
    of the stack of the source, then with its own. *)
Theorem message_roundtrip msg msg' type data :
  length msg = MSG → length msg' = MSG → (0 ≤ type < 2 ^ 63)%Z →
  match send_msg msg type data with
  | Some m => length data ≤ 492 ∧ ∃ r, recv_msg msg' m = Some r ∧ r_type r = type ∧
      r_size r = Z.of_nat (length data) ∧ take (Z.to_nat (r_size r)) (r_str r) = data ∧
      r_str r = data ++ take 8 (drop (12 + length data) msg) ++ drop (20 + length data) msg'
  | None => 492 < length data
  end.
Proof.
  intros Hm Hm' Ht. rewrite send_msg_spec by done. destruct (Nat.leb_spec (length data) 492) as [Hl|Hl]; [|done].
  split; [done|]. destruct (received_text msg msg' type data Hm Hm' Ht Hl) as (r & Hr & Hty & Hs & Hstr).
  exists r. split_and!; [done..| |done]. by rewrite Hs, Hstr, Nat2Z.id, take_app_length.
Qed.

Lemma message_roundtrip_witness :
  ∃ m r, send_msg (replicate 512 NUL) 2 (lit "event") = Some m ∧ recv_msg (replicate 512 NUL) m = Some r ∧
    take (Z.to_nat (r_size r)) (r_str r) = lit "event".
Proof.
  pose proof (message_roundtrip (replicate 512 NUL) (replicate 512 NUL) 2 (lit "event") eq_refl eq_refl) as H.
  destruct (send_msg _ 2 _) as [m|] eqn:E; [|by vm_compute in E].
  destruct H as (_ & r & Er & _ & _ & H & _); [lia|]. by exists m, r.
Defined.

(** ** The processes *)

(** The line of a message. *)
Definition decode (m : message) : Z * bytes := (m.1, take (Z.to_nat (unle (take 4 m.2))) (drop 4 m.2)).

(** The lines of one type, in their order. *)
Definition of_type {A} (t : Z) (l : list (Z * A)) : list (Z * A) := filter (λ x, x.1 = t) l.

(** What [send_msg] queues. *)
Definition sent_message (m : message) : Prop :=
  ∃ t stack data, m = (t, text_of stack data) ∧ length stack = MSG ∧ length data ≤ 492 ∧ (1 ≤ t ≤ 3)%Z.

Lemma text_of_parts stack data (x : bytes) : length data ≤ 492 →
  unle (take 4 (text_of stack data)) = Z.of_nat (length data) ∧
  take (length data) (drop 4 (text_of stack data) ++ x) = data.
Proof.
  intros Hl. unfold text_of. split.
  - by rewrite take_app_le, take_ge, unle_size by (rewrite ?length_le; lia).
  - assert (∀ y, drop 4 (le 4 (Z.of_nat (length data)) ++ y) = y) as ->.
    { intros y. rewrite <-(length_le 4 (Z.of_nat (length data))) at 1. apply drop_app_length. }
    by rewrite <-app_assoc, take_app_length.
Qed.

Lemma recv_sent msg m : length msg = MSG → sent_message m →
  ∃ r, recv_msg msg m = Some r ∧ (r_type r, take (Z.to_nat (r_size r)) (r_str r)) = decode m.
Proof.
  intros Hm (t & stack & data & -> & Hs & Hd & Ht). pose proof (length_text_of stack data Hs Hd) as Hx.
  eexists. split; [apply recv_msg_spec; cbn [snd]; [done|lia..]|]. unfold decode. cbn [fst snd r_type r_size r_str].
  destruct (text_of_parts stack data (drop (8 + length (text_of stack data)) msg) Hd) as [-> H].
  destruct (text_of_parts stack data [] Hd) as [_ H']. rewrite app_nil_r in H'. rewrite Nat2Z.id, H, H'.
  f_equal. apply Z.mod_small. cbn. lia.
Qed.

Lemma decode_text t stack data : length data ≤ 492 → decode (t, text_of stack data) = (t, data).
Proof.
  intros Hd. unfold decode. cbn [fst snd]. destruct (text_of_parts stack data [] Hd) as [-> H].
  by rewrite Nat2Z.id, <-(app_nil_r (drop 4 _)), H.
Qed.

(** Is the message of type [k + 1]; has the source [k + 1] sent and not counted; will the consumer ask
    for type [k + 1]; does it hold the lock? *)
Definition is_type (k : nat) (m : message) : bool := (m.1 =? Z.of_nat k + 1)%Z.
Definition uncounted (k : nat) (x : source) : bool :=
  (myid x =? Z.of_nat k + 1)%Z && match at_source x with s_inc => true | _ => false end.
Definition asks (k : nat) (c : cpc) : bool := match c with c_recv i => i <=? k | _ => false end.
Definition locked (c : cpc) : bool := match c with c_lock => false | _ => true end.

Definition bit (b : bool) : nat := if b then 1 else 0.

Record source_ok (x : source) : Prop := mk_source_ok {
  so_id : (1 ≤ myid x ≤ 3)%Z;
  so_adj : length (semadj x) = 4 ∧ semadj x !! 3 = Some 0;
  so_line : match at_source x with s_send line => length line ≤ 492 | _ => True end;
}.

Record inv (s : Events) : Prop := mk_inv {
  i_sources : ∀ i x, sources s !! i = Some x → source_ok x;
  i_consumers : ∀ j i, consumers s !! j = Some (c_recv i) → i < 3;
  i_queue : Forall sent_message (queue s);
  i_sems : ∀ k, k < 3 → ∃ v, sems s !! k = Some v ∧
    v + count (uncounted k) (sources s) + count (asks k) (consumers s) ≤ count (is_type k) (queue s);
  i_lock : ∃ v, sems s !! 3 = Some v ∧ v + count locked (consumers s) = 1;
  i_order : ∀ t, of_type t (taken s) ++ of_type t (decode <$> queue s) = of_type t (sent s);
  i_adjs : ∀ j c, consumers s !! j = Some c → ∃ a, adjs s !! j = Some [a; a; a; Z.of_nat (bit (locked c))];
}.

(** No consumer has locked the events 32767 times. *)
Definition countable (s : Events) : Prop := ∀ j adj a, adjs s !! j = Some (a :: adj) → (a < SEMAEM)%Z.

Definition line_ok (e : label) : Prop :=
  match e with Source _ (Line (Some l)) => length l ≤ 492 | _ => True end.

Lemma inv_start ids n : Forall (λ i, 1 ≤ i ≤ 3)%Z ids → inv (start ids n).
Proof.
  intros Hids. unfold start. split; cbn.
  - intros i x Hx. apply list_lookup_fmap_Some in Hx as (id & -> & Hid). split; cbn; [|done..].
    by apply (Forall_lookup_1 _ _ _ _ Hids Hid).
  - intros j i [? _]%lookup_replicate. done.
  - constructor.
  - intros k Hk. exists 0. split; [by destruct k as [|[|[|k]]]; [..|lia]|].
    rewrite (count_none (uncounted k)), count_replicate; [done|].
    intros x (id & -> & _)%list_elem_of_fmap. unfold uncounted. apply andb_false_r.
  - exists 1. by rewrite count_replicate.
  - done.
  - intros j c [-> Hj]%lookup_replicate. exists 0%Z. by apply lookup_replicate.
Qed.

Lemma msgrcv_spec t q :
  match msgrcv t q with
  | Some (m, q') => m.1 = t ∧ ∃ q1 q2, q = q1 ++ m :: q2 ∧ q' = q1 ++ q2 ∧ Forall (λ m, m.1 ≠ t) q1
  | None => Forall (λ m, m.1 ≠ t) q
  end.
Proof.
  induction q as [|m q IH]; cbn; [constructor|]. destruct (Z.eqb_spec m.1 t) as [Ht|Ht].
  - split; [done|]. by exists [], q.
  - destruct (msgrcv t q) as [[x q']|]; cbn.
    + destruct IH as (Hx & q1 & q2 & -> & -> & Hq). split; [done|]. exists (m :: q1), q2. split_and!; [done..|]. by constructor.
    + by constructor.
Qed.

Lemma of_type_app {A} t (l k : list (Z * A)) : of_type t (l ++ k) = of_type t l ++ of_type t k.
Proof. apply filter_app. Qed.

Lemma of_type_none {A} t (l : list (Z * A)) : Forall (λ x, x.1 ≠ t) l → of_type t l = [].
Proof. unfold of_type. induction 1 as [|x l Hx _ IH]; [done|]. by rewrite filter_cons_False. Qed.

(** Taking the first message of a type leaves every type in order. *)
Lemma of_type_take t' (q1 q2 : list message) m :
  Forall (λ x, x.1 ≠ m.1) q1 →
  of_type t' [decode m] ++ of_type t' (decode <$> q1 ++ q2) = of_type t' (decode <$> q1 ++ m :: q2).
Proof.
  intros Hq. rewrite !fmap_app, fmap_cons, !of_type_app.
  change (decode m :: (decode <$> q2)) with ([decode m] ++ (decode <$> q2)). rewrite of_type_app.
  destruct (decide (t' = m.1)) as [->|Hne].
  - rewrite (of_type_none m.1 (decode <$> q1)); [done|]. apply Forall_fmap. by eapply Forall_impl.
  - assert (of_type t' [decode m] = []) as ->; [|done]. apply of_type_none. by repeat constructor.
Qed.

(** A source's step. *)
Lemma inv_source s i x x' v q o :
  inv s → sources s !! i = Some x → source_ok x' → Forall sent_message q →
  (∀ k v0, k < 3 → sems s !! k = Some v0 → ∃ v1, v !! k = Some v1 ∧
    v1 + bit (uncounted k x') + count (is_type k) (queue s) ≤ v0 + bit (uncounted k x) + count (is_type k) q) →
  v !! 3 = sems s !! 3 →
  (∀ t, of_type t (taken s) ++ of_type t (decode <$> q) = of_type t o) →
  inv (mk_events q v (removed s) (<[i := x']> (sources s)) (consumers s) o (taken s) (adjs s)).
Proof.
  intros [H1 H2 H3 H4 H5 H6 H7] Hx Hok Hq Hs Hl Ho. split; cbn; [|done|done| |by rewrite Hl|done|done].
  - intros i' y Hy. thread_cases Hy; [done|by eapply H1].
  - intros k Hk. destruct (H4 k Hk) as (v0 & Hv0 & Hle). destruct (Hs k v0 Hk Hv0) as (v1 & Hv1 & Hle1).
    exists v1. split; [done|]. pose proof (count_insert (uncounted k) _ _ _ x' Hx) as Hc. unfold bit in Hle1. lia.
Qed.

(** A consumer's step. *)
Lemma inv_consumer s j c c' v q tk ad :
  inv s → consumers s !! j = Some c → (∀ i, c' = c_recv i → i < 3) → Forall sent_message q →
  (∀ k v0, k < 3 → sems s !! k = Some v0 → ∃ v1, v !! k = Some v1 ∧
    v1 + bit (asks k c') + count (is_type k) (queue s) ≤ v0 + bit (asks k c) + count (is_type k) q) →
  (∀ v0, sems s !! 3 = Some v0 → v0 + bit (locked c) ≤ 1 → ∃ v1, v !! 3 = Some v1 ∧ v1 + bit (locked c') = v0 + bit (locked c)) →
  (∀ t, of_type t tk ++ of_type t (decode <$> q) = of_type t (sent s)) →
  (∃ a, ad !! j = Some [a; a; a; Z.of_nat (bit (locked c'))]) → (∀ j', j' ≠ j → ad !! j' = adjs s !! j') →
  inv (mk_events q v (removed s) (sources s) (<[j := c']> (consumers s)) (sent s) tk ad).
Proof.
  intros [H1 H2 H3 H4 H5 H6 H7] Hc Hok Hq Hs Hl Ho Ha Hna. split; cbn; [done| |done| | |done|].
  - intros j' i Hj. thread_cases Hj; [by apply Hok|by eapply H2].
  - intros k Hk. destruct (H4 k Hk) as (v0 & Hv0 & Hle). destruct (Hs k v0 Hk Hv0) as (v1 & Hv1 & Hle1).
    exists v1. split; [done|]. pose proof (count_insert (asks k) _ _ _ c' Hc). unfold bit in Hle1. lia.
  - destruct H5 as (v0 & Hv0 & Hle). pose proof (count_insert locked _ _ _ c' Hc) as Hi.
    assert (bit (locked c) ≤ count locked (consumers s)) as Hb.
    { destruct (locked c) eqn:E; cbn; [|lia]. by apply (count_pos locked _ j c). }
    destruct (Hl v0 Hv0) as (v1 & Hv1 & He); [lia|]. exists v1. split; [done|]. unfold bit in He. lia.
  - intros j' c0 Hj. destruct (decide (j' = j)) as [->|Hne].
    + rewrite list_lookup_insert_eq in Hj by (by eapply lookup_lt_Some). by injection Hj as <-.
    + rewrite list_lookup_insert_ne in Hj by done. rewrite Hna by done. by apply H7.
Qed.

Lemma sem_num_id id : (1 ≤ id ≤ 3)%Z → sem_num id = Z.to_nat (id - 1) ∧ sem_num id < 3.
Proof. intros H. unfold sem_num. rewrite Z.mod_small by lia. lia. Qed.

Lemma sem_inc_spec x s : inv s → removed s = false → source_ok x →
  ∃ v adj, sem_inc x s = (v, adj) ∧ length adj = 4 ∧ adj !! 3 = Some 0 ∧ v !! 3 = sems s !! 3 ∧
    ∀ k v0, k < 3 → sems s !! k = Some v0 → ∃ v1, v !! k = Some v1 ∧ v1 ≤ v0 + bit (myid x =? Z.of_nat k + 1)%Z.
Proof.
  intros Hi Hr [Hid [Hlen Hadj] _]. destruct (sem_num_id (myid x) Hid) as [Hn Hlt]. unfold sem_inc.
  destruct (i_sems _ Hi _ Hlt) as (w & Hw & _). rewrite Hw.
  destruct (lookup_lt_is_Some_2 (semadj x) (sem_num (myid x))) as [a Ha]; [lia|]. rewrite Ha, Hr, andb_true_r.
  destruct ((w <? SEMVMX) && (Z.of_nat a <=? SEMAEM)%Z).
  - do 2 eexists. split; [done|]. split_and!.
    + by rewrite length_insert.
    + rewrite list_lookup_insert_ne by lia. done.
    + by rewrite list_lookup_insert_ne by lia.
    + intros k v0 Hk Hv0. destruct (decide (k = sem_num (myid x))) as [->|Hne].
      * exists (S w). rewrite list_lookup_insert_eq by (by eapply lookup_lt_Some). split; [done|]. simplify_eq.
        assert (myid x = Z.of_nat (sem_num (myid x)) + 1)%Z as He by lia. apply Z.eqb_eq in He. rewrite He. cbn. lia.
      * rewrite list_lookup_insert_ne by done. exists v0. split; [done|lia].
  - do 2 eexists. split; [done|]. split_and!; [done..|]. intros k v0 _ ?. exists v0. split; [done|lia].
Qed.

(** The end of a source only decreases the semaphores of the events. *)
Lemma undo_spec adj v k v0 : length adj = 4 → v !! k = Some v0 → k < 4 → ∃ v1, undo adj v !! k = Some v1 ∧ v1 ≤ v0.
Proof.
  intros Hl Hv Hk. unfold undo. rewrite lookup_zip_with, Hv. cbn.
  destruct (adj !! k) as [a|] eqn:Ea; [|apply lookup_ge_None in Ea; lia]. exists (v0 - a). split; [done|lia].
Qed.

Definition step_ok (r : attempt Events) : Prop :=
  match r with Blocked => True | Undefined _ => False | Next s' => removed s' = false → inv s' end.

Lemma source_step_ok s i a : inv s → removed s = false → line_ok (Source i a) → step_ok (source_step i a s).
Proof.
  intros Hi Hr Hline. unfold source_step. destruct (sources s !! i) as [x|] eqn:Hx; [|done].
  pose proof (i_sources _ Hi _ _ Hx) as Hok. pose proof Hok as [Hid [Hlen Hadj] Hl].
  pose proof (λ x' v q o, inv_source s i x x' v q o Hi Hx) as Hstep.
  destruct (at_source x) as [|line| |] eqn:Ex, a as [[line'|]|msg|]; try done.
  - intros _. apply (Hstep _ (sems s) (queue s) (sent s)); [|apply Hi| |done|apply Hi].
    + split; [done..|]. cbn. etrans; [apply c_string_length|done].
    + intros k v0 _ Hv. exists v0. split; [done|]. unfold uncounted. rewrite Ex. cbn. rewrite !andb_false_r. lia.
  - destruct (myid x =? 1)%Z eqn:E1; [done|]. intros _.
    apply (Hstep _ (undo (semadj x) (sems s)) (queue s) (sent s)); [by split|apply Hi| | |apply Hi].
    + intros k v0 Hk Hv. destruct (undo_spec (semadj x) _ _ _ Hlen Hv) as (v1 & Hv1 & Hle); [lia|]. exists v1. split; [done|].
      unfold uncounted. rewrite Ex. cbn. rewrite !andb_false_r. lia.
    + unfold undo. rewrite lookup_zip_with, Hadj. destruct (sems s !! 3) as [w|]; cbn; [|done]. f_equal. lia.
  - destruct (Nat.eqb_spec (length msg) MSG) as [Hm|]; cbn [negb]; [|done].
    rewrite send_msg_spec, (proj2 (Nat.leb_le _ _) Hl) by done.
    assert (myid x <? 1 = false)%Z as -> by (apply Z.ltb_ge; lia). rewrite Hr. cbn [orb]. intros _.
    apply (Hstep _ (sems s) (queue s ++ [(myid x, text_of msg line)]) (sent s ++ [(myid x, line)])); [by split| | |done|].
    + apply Forall_app. split; [apply Hi|]. constructor; [|constructor]. by exists (myid x), msg, line.
    + intros k v0 _ Hv. exists v0. split; [done|]. rewrite count_app. unfold uncounted. rewrite Ex. cbn [with_pc myid at_source].
      rewrite andb_false_r, andb_true_r. cbn [count].
      change (is_type k (myid x, text_of msg line)) with (myid x =? Z.of_nat k + 1)%Z. unfold bit. destruct (_ =? _)%Z; lia.
    + intros t. rewrite fmap_app, !of_type_app, app_assoc, (i_order _ Hi). f_equal. cbn [fmap list_fmap].
      by rewrite decode_text.
  - destruct (sem_inc_spec x s Hi Hr Hok) as (v & adj & -> & Hlen' & Hadj' & Hv3 & Hv). intros _.
    apply (Hstep _ v (queue s) (sent s)); [by split|apply Hi| |done|apply Hi].
    intros k v0 Hk Hv0. destruct (Hv k v0 Hk Hv0) as (v1 & Hv1 & Hle). exists v1. split; [done|].
    unfold uncounted. rewrite Ex. cbn [myid at_source]. rewrite andb_false_r, andb_true_r. cbn [bit]. lia.
Qed.

(** While the queue exists a consumer with the lock gets its message. *)
Lemma recv_goes s j i msg :
  inv s → removed s = false → consumers s !! j = Some (c_recv i) → length msg = MSG →
  ∃ m q1 q2 r, queue s = q1 ++ m :: q2 ∧ is_type i m = true ∧ Forall (λ m', m'.1 ≠ m.1) q1 ∧
    recv_msg msg m = Some r ∧ msgrcv (Z.of_nat i + 1) (queue s) = Some (m, q1 ++ q2) ∧
    (r_type r, take (Z.to_nat (r_size r)) (r_str r)) = decode m.
Proof.
  intros Hi Hr Hc Hm. pose proof (i_consumers _ Hi _ _ Hc) as Hlt.
  destruct (i_sems _ Hi i Hlt) as (v & _ & Hle).
  assert (0 < count (asks i) (consumers s)) as Hp by (apply (count_pos _ _ j (c_recv i)); [done|apply Nat.leb_refl]).
  pose proof (msgrcv_spec (Z.of_nat i + 1) (queue s)) as Hq.
  destruct (msgrcv _ _) as [[m q']|].
  - destruct Hq as (Ht & q1 & q2 & Eq & -> & Hf). pose proof (i_queue _ Hi) as Hs. rewrite Eq in Hs.
    apply Forall_app in Hs as [_ [Hs _]%Forall_cons]. destruct (recv_sent msg m Hm Hs) as (r & Er & Ed).
    exists m, q1, q2, r. split_and!; [done|by apply Z.eqb_eq| |done..]. by rewrite Ht.
  - exfalso. rewrite (count_none (is_type i)) in Hle; [lia|]. intros m Hin. apply Z.eqb_neq.
    by apply (proj1 (Forall_forall _ _) Hq).
Qed.

Lemma verdict_fine v : ∀ adj, verdict_of v adj = all_fine →
  ∀ k n, k < length adj → v !! k = Some n → 0 < n.
Proof.
  induction v as [|n v IH]; intros [|a adj] Hv k m Hl Hk; cbn in Hl; try lia; [by destruct k|].
  cbn in Hv. destruct (Nat.eqb_spec n 0); [done|]. destruct (_ <? _)%Z; [done|].
  destruct k as [|k]; [injection Hk as <-; lia|]. apply (IH adj Hv k m ltac:(lia) Hk).
Qed.

Lemma verdict_in_range v : ∀ adj, Forall (λ a, a < SEMAEM)%Z adj → verdict_of v adj ≠ out_of_range.
Proof.
  induction v as [|n v IH]; intros [|a adj] Ha; try done. apply Forall_cons in Ha as [Ha Hr]. cbn [verdict_of].
  destruct (n =? 0); [done|]. destruct (Z.ltb_spec SEMAEM (a + 1)); [lia|]. by apply IH.
Qed.

(** What [semop] takes while SEM_UNDO can count it. *)
Lemma lock_events_spec v adj v' adj' :
  lock_events v adj = Some (v', adj') → Forall (λ a, a < SEMAEM)%Z adj →
  adj' = Z.succ <$> adj ∧ ∀ k n, k < length adj → v !! k = Some n → 0 < n ∧ v' !! k = Some (pred n).
Proof.
  unfold lock_events. intros E Hr. pose proof (verdict_in_range v adj Hr).
  destruct (verdict_of v adj) eqn:Ev; try done. injection E as <- <-. split; [done|]. intros k n Hl Hk.
  split; [by apply (verdict_fine v adj Ev k)|by rewrite list_lookup_fmap, Hk].
Qed.

Lemma consumer_step_ok s j a :
  inv s → removed s = false → countable s → step_ok (consumer_step j a s).
Proof.
  intros Hi Hr Hcount. unfold consumer_step. destruct (consumers s !! j) as [c|] eqn:Hc; [|done].
  pose proof (λ c' v q tk ad, inv_consumer s j c c' v q tk ad Hi Hc) as Hstep. rewrite Hr.
  destruct (i_adjs _ Hi _ _ Hc) as [b Hb]. pose proof (Hcount _ _ _ Hb) as Hlim.
  assert (∀ adj, <[j:=adj]> (adjs s) !! j = Some adj ∧ ∀ j', j' ≠ j → <[j:=adj]> (adjs s) !! j' = adjs s !! j') as Hadj.
  { intros adj. split; [apply list_lookup_insert_eq; by eapply lookup_lt_Some|].
    intros j' Hj. by rewrite list_lookup_insert_ne. }
  destruct c as [|i|], a as [|msg|]; try done.
  - rewrite Hb. destruct (lock_events (sems s) _) as [[v adj]|] eqn:El; [|done].
    destruct (lock_events_spec _ _ _ _ El) as [-> Hl]; [by repeat constructor|]. intros _.
    apply (Hstep _ v (queue s) (taken s)); [intros i [= <-]; lia|apply Hi| | |apply Hi|by exists (Z.succ b); apply Hadj|by apply Hadj].
    + intros k v0 Hk Hv. destruct (Hl k v0 ltac:(cbn; lia) Hv) as [Hp Hv']. exists (pred v0). split; [done|]. cbn. lia.
    + intros v0 Hv _. destruct (Hl 3 v0 ltac:(cbn; lia) Hv) as [Hp Hv']. exists (pred v0). split; [done|]. cbn. lia.
  - destruct (Nat.eqb_spec (length msg) MSG) as [Hm|]; cbn [negb]; [|done].
    destruct (recv_goes s j i msg Hi Hr Hc Hm) as (m & q1 & q2 & r & Eq & Ht & Hf & Er & -> & Ed). rewrite Er. intros _.
    pose proof (i_consumers _ Hi _ _ Hc) as Hlt. pose proof (i_queue _ Hi) as Hs. rewrite Eq in Hs.
    apply Forall_app in Hs as [Hs1 [_ Hs2]%Forall_cons].
    apply (Hstep _ (sems s) (q1 ++ q2) (taken s ++ [(r_type r, take (Z.to_nat (r_size r)) (r_str r))]) (adjs s)).
    + intros i'. destruct (Nat.ltb_spec (i + 1) 3); [by intros [= <-]|done].
    + by apply Forall_app.
    + intros k v0 Hk Hv. exists v0. split; [done|]. rewrite Eq, !count_app. cbn [count asks].
      assert (is_type k m = (i =? k)) as ->.
      { apply Z.eqb_eq in Ht. unfold is_type. destruct (Nat.eqb_spec i k); [apply Z.eqb_eq|apply Z.eqb_neq]; lia. }
      destruct (Nat.ltb_spec (i + 1) 3), (Nat.eqb_spec i k), (Nat.leb_spec i k); cbn [asks bit]; try lia;
        destruct (Nat.leb_spec (i + 1) k); cbn [bit]; lia.
    + intros v0 Hv _. exists v0. split; [done|]. by destruct (i + 1 <? 3).
    + intros t. rewrite Ed, of_type_app, <-app_assoc, of_type_take by done. pose proof (i_order _ Hi t) as Ho. by rewrite Eq in Ho.
    + exists b. by destruct (i + 1 <? 3).
    + done.
  - rewrite Hb. unfold unlock_events. cbn [lookup list_lookup]. destruct (i_lock _ Hi) as (w & Hw & Hcw). rewrite Hw.
    assert (0 < count locked (consumers s)) as Hp by (by apply (count_pos _ _ j c_unlock)). assert (w = 0) as -> by lia.
    intros _. apply (Hstep _ (<[3:=1]> (sems s)) (queue s) (taken s)); [done|apply Hi| | |apply Hi|by exists b; apply Hadj|by apply Hadj].
    + intros k v0 Hk Hv. exists v0. split; [|done]. by rewrite list_lookup_insert_ne by lia.
    + intros v0 Hv _. assert (v0 = 0) as -> by congruence. exists 1. split; [|done].
      apply list_lookup_insert_eq. by eapply lookup_lt_Some.
Qed.

Lemma removed_step e s s' : step e s = Next s' → removed s' = false → removed s = false.
Proof.
  destruct e as [i a|j a]; cbn [step]; [unfold source_step|unfold consumer_step]; intros E Hr.
  - repeat case_match; simplify_eq; try done; cbn in *; congruence.
  - repeat case_match; simplify_eq; try done; cbn in *; congruence.
Qed.

(** What a consumer has counted of the first semaphore never decreases. *)
Definition not_below (adj adj' : list Z) : Prop :=
  ∀ a t, adj = a :: t → ∃ a' t', adj' = a' :: t' ∧ (a ≤ a')%Z.

Lemma lock_not_below v adj v' adj' : lock_events v adj = Some (v', adj') → not_below adj adj'.
Proof.
  unfold lock_events. intros E a t ->. destruct (verdict_of v _); simplify_eq/=; do 2 eexists; (split; [done|lia]).
Qed.

Lemma unlock_not_below v adj : not_below adj (unlock_events v adj).2.
Proof.
  unfold unlock_events. intros a t ->. destruct (v !! 3) as [n|], ((a :: t) !! 3) as [b|];
    try destruct (_ && _); exists a; eexists; (split; [reflexivity|lia]).
Qed.

Lemma countable_adj s s' j adj adj' :
  adjs s !! j = Some adj → adjs s' = <[j := adj']> (adjs s) → not_below adj adj' → countable s' → countable s.
Proof.
  intros Hj E Hn Hc k x a Hx. destruct (decide (k = j)) as [->|Hne].
  - rewrite Hj in Hx. injection Hx as ->. destruct (Hn a x eq_refl) as (a' & t' & -> & Hle).
    assert (a' < SEMAEM)%Z; [|lia]. apply (Hc j t'). rewrite E. apply list_lookup_insert_eq. by eapply lookup_lt_Some.
  - apply (Hc k x). by rewrite E, list_lookup_insert_ne.
Qed.

Lemma countable_step e s s' : step e s = Next s' → countable s' → countable s.
Proof.
  destruct e as [i a|j a]; cbn [step]; [unfold source_step|unfold consumer_step]; intros E Hc.
  - by repeat case_match; simplify_eq.
  - destruct (consumers s !! j) as [[|i|]|], a as [|msg|]; try done.
    + destruct (removed s); [by simplify_eq|]. destruct (adjs s !! j) as [adj|] eqn:Ej; [|done].
      destruct (lock_events _ _) as [[v adj']|] eqn:El; [|done]. simplify_eq.
      refine (countable_adj _ _ j _ _ Ej _ _ Hc); [reflexivity|by eapply lock_not_below].
    + by repeat case_match; simplify_eq.
    + destruct (removed s); [by simplify_eq|]. destruct (adjs s !! j) as [adj|] eqn:Ej; [|done].
      pose proof (unlock_not_below (sems s) adj) as Hn. destruct (unlock_events _ _) as [v adj']. simplify_eq.
      refine (countable_adj _ _ j _ _ Ej _ _ Hc); [reflexivity|exact Hn].
Qed.

Lemma events_step_inv e s s' :
  line_ok e → removed s' = false → countable s → inv s → step e s = Next s' → inv s'.
Proof.
  intros Hl Hr Hcnt Hi E. pose proof (removed_step _ _ _ E Hr) as Hr0. destruct e as [i a|j a]; cbn [step] in E.
  - pose proof (source_step_ok s i a Hi Hr0 Hl) as H. rewrite E in H. by apply H.
  - pose proof (consumer_step_ok s j a Hi Hr0 Hcnt) as H. rewrite E in H. by apply H.
Qed.


(** An event of each source, taken by the second of two consumers. *)
Definition one_each : list label :=
  let stack := Stack (replicate MSG NUL) in
  let event i := [Source i (Line (Some (lit "event" ++ ["010"%char]))); Source i stack; Source i Go] in
  event 0 ++ event 1 ++ event 2 ++ [Consumer 1 Go; Consumer 1 stack; Consumer 1 stack].


(** Behind the 32767th time SEM_UNDO cannot count another one: [semop] fails, which
    [lock_events] does not see, and the consumer reads while another has the lock. *)
Example lock_lost :
  let q := (λ t, (t, text_of (replicate MSG NUL) (lit "event"))) <$> [1; 2; 3; 1; 2; 3]%Z in
  let s := mk_events q [2; 2; 2; 1] false [] [c_lock; c_lock] [] []
    [[32767; 32767; 32767; 0]; [0; 0; 0; 0]]%Z in
  match run [Consumer 1 Go; Consumer 0 Go] s with
  | Next s' => count locked (consumers s') = 2 ∧ sems s' = [1; 1; 1; 0]
  | _ => False
  end.
Proof. vm_compute. split; reflexivity. Qed.

(** When a source ends, SEM_UNDO takes its increments back: the events that it sent
    stay in the queue, and no consumer comes for them. *)
Example ended_source_events_stay :
  let stack := Stack (replicate MSG NUL) in
  let event i := [Source i (Line (Some (lit "event"))); Source i stack; Source i Go] in
  match run (event 0 ++ event 1 ++ event 2 ++ [Source 1 (Line None)]) (start [1; 2; 3]%Z 1) with
  | Next s => sems s = [1; 0; 1; 1] ∧ length (queue s) = 3 ∧ consumer_step 0 Go s = Blocked
  | _ => False
  end.
Proof. vm_compute. split_and!; reflexivity. Qed.

(** When the first source ends, the consumer goes on with a message it never received. *)
Example removed_queue_undefined :
  run [Source 0 (Line None); Consumer 0 Go; Consumer 0 (Stack (replicate MSG NUL))] (start [1]%Z 1) = Undefined Uninitialised.
Proof. vm_compute. reflexivity. Qed.
