(* ===== verification/MsgQueue.v ===== *)
(** * Messages by their types

    Model of src/sysprog/lecture_examples/7_ipc/7_msgsend_client.c with its servers
    7_msgsend_server.c and 7_msgsend_server_flag.c: the client sends three messages, the
    server takes them in the order of the types it asks for.  The messages are packed as
    in [SemEvents]; what the stack holds and the order of the steps are arguments. *)

From S2P Require Import Prelude CStrings Concur SemEvents.

(** ** The queue *)

(** The lowest type of a queue up to [b]. *)
Fixpoint lowest (b : Z) (q : list message) : option Z :=
  match q with
  | [] => None
  | m :: q =>
      match lowest b q with
      | Some t => Some (if (m.1 <=? t)%Z then m.1 else t)
      | None => if (m.1 <=? b)%Z then Some m.1 else None
      end
  end.

(** [msgrcv] with any type: the first message; the first one of the type; or the first one of
    the lowest type up to that bound. *)
Definition take_message (type : Z) (q : list message) : option (message * list message) :=
  if (type =? 0)%Z then match q with [] => None | m :: q => Some (m, q) end
  else if (0 <? type)%Z then msgrcv type q
  else t ← lowest (- type) q; msgrcv t q.

(** ** The programs *)

(** [strlen(text) + 1] bytes of a text. *)
Definition text (s : string) : bytes := lit s ++ [NUL].

(** What [main] of the client sends. *)
Definition messages : list (Z * bytes) :=
  [(100, text "hello, world"); (50, text "hello, world of type 50"); (60, text "hello, world of type 60")]%Z.

(** What [main] of the server asks for. *)
Definition wanted : list Z := [0; 60; -200]%Z.

(** The client before [msgget], before message [k], connected or not; the server before
    [msgget], in its loop until a message is there, before its call [i] of [recv_msg], and
    after it removed the queue. *)
Inductive client_place : Type := c_get | c_send (k : nat) (connected : bool).
Inductive server_place : Type := v_get | v_poll | v_recv (i : nat) | v_done.

#[export] Instance server_place_eq_dec : EqDecision server_place.
Proof. solve_decision. Defined.

Record State : Type := mk_state {
  created : bool;
  queue : list message;
  client : client_place;
  server : server_place;
  got : list received;
}.

Definition start : State := mk_state false [] c_get v_get [].

Inductive label : Type := Client (stack : bytes) | Server (stack : bytes).

Section programs.
(** 7_msgsend_server_flag.c does without the loop of msgctl, and calls [msgrcv] with
    IPC_NOWAIT until there is a message. *)
Variable flag : bool.

Definition client_step (stack : bytes) (s : State) : attempt State :=
  match client s with
  | c_get => Next (mk_state (created s) (queue s) (c_send 0 (created s && bool_decide (server s ≠ v_done))) (server s) (got s))
  | c_send k connected =>
      match messages !! k with
      | None => Blocked
      | Some (type, data) =>
          if negb (length stack =? MSG) then Blocked else
          match send_msg stack type data with
          | None => Undefined OutOfBounds
          | Some m =>
              let q := if connected && bool_decide (server s ≠ v_done) then queue s ++ [m] else queue s in
              Next (mk_state (created s) q (c_send (k + 1) connected) (server s) (got s))
          end
      end
  end.

Definition server_step (stack : bytes) (s : State) : attempt State :=
  let at_ v := Next (mk_state (created s) (queue s) (client s) v (got s)) in
  match server s with
  | v_get => Next (mk_state true (queue s) (client s) (if flag then v_recv 0 else v_poll) (got s))
  | v_poll => match queue s with [] => at_ v_poll | _ => at_ (v_recv 0) end
  | v_recv i =>
      match wanted !! i with
      | None => at_ v_done
      | Some type =>
          if negb (length stack =? MSG) then Blocked else
          match take_message type (queue s) with
          | None => if flag then at_ (v_recv i) else Blocked
          | Some (m, q) =>
              match recv_msg stack m with
              | None => Undefined OutOfBounds
              | Some r => Next (mk_state (created s) q (client s) (v_recv (i + 1)) (got s ++ [r]))
              end
          end
      end
  | v_done => Blocked
  end.

Definition step (l : label) (s : State) : attempt State :=
  match l with Client stack => client_step stack s | Server stack => server_step stack s end.

Definition run : list label → State → attempt State := run_labels step.
End programs.

(** What the server prints of a message: its type and the bytes of its text. *)
Definition seen (r : received) : Z * bytes := (r_type r, take (Z.to_nat (r_size r)) (r_str r)).

(** The order in which the server asks for the messages. *)
Definition as_asked : list (Z * bytes) :=
  [(100, text "hello, world"); (60, text "hello, world of type 60"); (50, text "hello, world of type 50")]%Z.

(** ** Facts *)

(** A message of a type and a text. *)
Definition carries (x : Z * bytes) (m : message) : Prop :=
  ∃ stack, length stack = MSG ∧ m = (x.1, text_of stack x.2).

(** What is in the queue when the client has sent [k] messages and the server has taken
    [i]. *)
Definition pending (k i : nat) : option (list (Z * bytes)) :=
  match i with
  | 0 => Some (take k messages)
  | 1 => if k =? 0 then None else Some (drop 1 (take k messages))
  | 2 => if k =? 3 then Some (take 1 (drop 1 messages)) else None
  | _ => if k =? 3 then Some [] else None
  end.

Definition sent_of (c : client_place) : nat := match c with c_send k true => k | _ => 0 end.
Definition taken_of (v : server_place) : nat := match v with v_recv i => i | v_done => 3 | _ => 0 end.

Record inv (s : State) : Prop := {
  inv_sent : sent_of (client s) ≤ 3;
  inv_taken : taken_of (server s) ≤ 3;
  inv_queue : ∃ p, pending (sent_of (client s)) (taken_of (server s)) = Some p ∧ Forall2 carries p (queue s);
  inv_got : seen <$> got s = take (taken_of (server s)) as_asked;
}.

Lemma Forall2_one {A B} (R : A → B → Prop) x l : Forall2 R [x] l → ∃ y, l = [y] ∧ R x y.
Proof. intros (y & l' & H & H' & ->)%Forall2_cons_inv_l. apply Forall2_nil_inv_l in H' as ->. by exists y. Qed.

(** A message that carries a text is unpacked to it. *)
Lemma carries_recv x m stack : carries x m → x ∈ messages → length stack = MSG →
  ∃ r, recv_msg stack m = Some r ∧ seen r = x.
Proof.
  intros (st & Hst & ->) Hx Hl.
  assert ((0 ≤ x.1 < 2 ^ 63)%Z ∧ length x.2 ≤ 492) as [H1 H2].
  { revert x Hx. apply Forall_forall. unfold messages, text. repeat constructor; cbn; lia. }
  destruct (received_text st stack x.1 x.2 Hst Hl H1 H2) as (r & Hr & Ht & Hs & Hstr).
  exists r. split; [done|]. unfold seen. rewrite Ht, Hs, Hstr, Nat2Z.id, take_app_length. by destruct x.
Qed.

(** The messages of a queue that carries a given list. *)
Ltac queue_of H :=
  repeat match type of H with
  | Forall2 carries (_ :: _) _ =>
      let st := fresh "stack" in let Hst := fresh "Hst" in let H' := fresh "H" in
      apply Forall2_cons_inv_l in H as (? & ? & (st & Hst & ->) & H' & ->);
      clear H; rename H' into H
  | Forall2 carries [] _ => apply Forall2_nil_inv_l in H as ->
  end.

(** The message that the server asks for next. *)
Lemma take_pending k i p q type m q' :
  pending k i = Some p → Forall2 carries p q → wanted !! i = Some type →
  take_message type q = Some (m, q') → k ≤ 3 →
  ∃ x p', as_asked !! i = Some x ∧ x ∈ messages ∧ carries x m ∧
    pending k (i + 1) = Some p' ∧ Forall2 carries p' q'.
Proof.
  intros Hp Hq Hw Ht Hk. destruct i as [|[|[|i]]]; cbn in Hw; [| | |done]; injection Hw as <-;
    (destruct k as [|[|[|[|k]]]]; [| | | |lia]); cbn in Hp; try done; injection Hp as <-;
    queue_of Hq; cbn in Ht; try done; injection Ht as <- <-; cbn.
  all: eexists _, _; split; [reflexivity|]; split; [unfold messages; set_solver|].
  all: split; [eexists; split; [|reflexivity]; done|]; split; [reflexivity|].
  all: repeat constructor; eexists; (split; [|reflexivity]); done.
Qed.

Lemma pending_send k i p x :
  pending k i = Some p → messages !! k = Some x → pending (k + 1) i = Some (p ++ [x]).
Proof.
  intros Hp Hx. destruct k as [|[|[|k]]]; [| | |done]; destruct i as [|[|[|i]]]; try done;
    injection Hp as <-; injection Hx as <-; reflexivity.
Qed.

Lemma inv_client stack s s' : inv s → client_step stack s = Next s' → inv s'.
Proof.
  intros [Hs Ht (p & Hp & Hq) Hg] H. unfold client_step in H.
  destruct (client s) as [|k connected] eqn:Ec.
  { injection H as <-. cbn in *.
    assert (sent_of (c_send 0 (created s && bool_decide (server s ≠ v_done))) = 0) as E by by destruct (_ && _).
    split; cbn [client server queue got]; rewrite ?E; [lia|done|by exists p|done]. }
  destruct (messages !! k) as [[type data]|] eqn:Ex; [|done].
  destruct (Nat.eqb_spec (length stack) MSG) as [Hst|]; [|done]. cbn in H.
  rewrite send_msg_spec in H by done.
  destruct (length data <=? 492); [|done]. injection H as <-.
  assert (k < 3) as Hk by (apply lookup_lt_Some in Ex; exact Ex).
  destruct connected; [|by split; cbn; eauto]. cbn in Hp, Hs.
  destruct (decide (server s = v_done)) as [Hd|Hd].
  { rewrite Hd in Hp. cbn in Hp. destruct k as [|[|[|k]]]; done. }
  rewrite bool_decide_eq_true_2 by done. cbn. split; cbn; [lia|done| |done].
  exists (p ++ [(type, data)]). split; [by apply pending_send|].
  apply Forall2_app; [done|]. constructor; [|constructor]. by exists stack.
Qed.

Lemma inv_server flag stack s s' : inv s → server_step flag stack s = Next s' → inv s'.
Proof.
  intros [Hs Ht (p & Hp & Hq) Hg] H. unfold server_step in H.
  destruct (server s) as [| |i|] eqn:Ev; cbn in Hp, Ht, Hg; try done.
  - injection H as <-. split; cbn; [done|destruct flag; cbn; lia| |by destruct flag].
    exists p. by destruct flag.
  - destruct (queue s) eqn:Eq; injection H as <-; split; cbn; eauto; by rewrite Eq.
  - destruct (wanted !! i) as [type|] eqn:Ew.
    2: { injection H as <-. apply lookup_ge_None in Ew. cbn in Ew. assert (i = 3) as -> by lia.
         split; cbn; eauto. }
    destruct (Nat.eqb_spec (length stack) MSG) as [Hst|]; [|done]. cbn in H.
    destruct (take_message type (queue s)) as [[m q]|] eqn:Em.
    2: { destruct flag; [|done]. injection H as <-. split; cbn; eauto. }
    destruct (take_pending _ _ _ _ _ _ _ Hp Hq Ew Em Hs) as (x & p' & Hx & Hin & Hm & Hp' & Hq').
    destruct (carries_recv x m stack Hm Hin Hst) as (r & Hr & Hseen). rewrite Hr in H.
    injection H as <-. split; cbn; [done| |by eauto|].
    + apply lookup_lt_Some in Ew. cbn in Ew. lia.
    + rewrite fmap_app, Hg. cbn. rewrite Hseen, Nat.add_1_r. symmetry. by apply take_S_r.
Qed.

(** Whatever the order of the steps and whatever the stacks hold, what the server has
    received, with or without IPC_NOWAIT, are the messages it asks for in that order: the
    first one sent, the one of type 60, and the one of the lowest type that is left; when
    it removes the queue it has all three. *)
Theorem received_by_type flag ls s :
  run flag ls start = Next s →
  seen <$> got s = take (taken_of (server s)) as_asked ∧
  (server s = v_done → seen <$> got s = as_asked ∧ queue s = []).
Proof.
  intros H. assert (inv s) as [Hs Ht (p & Hp & Hq) Hg].
  { eapply (run_labels_invariant (step flag) inv); [| |exact H].
    - intros [stack|stack] s1 s2; [by apply inv_client|by apply inv_server].
    - split; cbn; try lia; [|done]. exists []. by split. }
  split; [done|]. intros Hd. rewrite Hd in *. cbn in *. split; [done|].
  destruct (sent_of (client s) =? 3); [|done]. injection Hp as <-. by apply Forall2_nil_inv_l in Hq.
Qed.

(** ** Examples *)

Definition zeros : bytes := replicate MSG NUL.

Lemma received_by_type_witness :
  let ls := [Server zeros; Client zeros; Client zeros; Server zeros; Server zeros; Client zeros;
             Client zeros; Server zeros; Server zeros; Server zeros] in
  match run false ls start with Next s => seen <$> got s = as_asked | _ => False end.
Proof.
  intros ls. eassert (run false ls start = Next _) as E by (vm_compute; reflexivity).
  destruct (received_by_type false ls _ E) as (_ & H). rewrite E. by apply H.
Defined.

(** A client that starts before the server has created the queue sends into nothing, and
    does not notice: the results of msgget and msgsnd are not looked at. *)
Example early_client :
  match run false [Client zeros; Server zeros; Client zeros; Client zeros; Client zeros; Server zeros] start with
  | Next s => client s = c_send 3 false ∧ server s = v_poll ∧ queue s = []
  | _ => False
  end.
Proof. vm_compute. done. Qed.
