(* ===== verification/SemTxn.v ===== *)
(** * Transactions on semaphores

    Model of src/sysprog/lecture_examples/7_ipc/8_sem.c: processes that read commands and
    change three System V semaphores, one operation at a time or the operations of a
    transaction at once, with SEM_UNDO.  The lines they read and the order in which the
    kernel answers them are arguments; what they print is left out. *)

From S2P Require Import Prelude CStrings Concur.

(** ** The kernel *)

Definition SEMVMX : Z := 32767.
Definition SEMAEM : Z := 32767.
Definition SEMOPM : nat := 500.

(** A [struct sembuf] with SEM_UNDO: the number, an unsigned short, and the operation. *)
Definition sembuf : Type := nat * Z.

(** What [semop] comes to. *)
Inductive outcome : Type := Done (sems semadj : list Z) | Waits | Fails.

(** The operations in order, on the semaphores and on the adjustments of the process. *)
Fixpoint apply_ops (ops : list sembuf) (sems semadj : list Z) : outcome :=
  match ops with
  | [] => Done sems semadj
  | (n, o) :: ops =>
      match sems !! n, semadj !! n with
      | Some v, Some a =>
          if (v + o <? 0)%Z then Waits
          else if (SEMVMX <? v + o)%Z then Fails
          else if (a - o <? - SEMAEM - 1)%Z || (SEMAEM <? a - o)%Z then Fails
          else apply_ops ops (<[n := (v + o)%Z]> sems) (<[n := (a - o)%Z]> semadj)
      | _, _ => Fails
      end
  end.

(** [semop]: all of the operations or none. *)
Definition semop (ops : list sembuf) (sems semadj : list Z) : outcome :=
  if (length ops =? 0) || (SEMOPM <? length ops) || existsb (λ x, length sems <=? x.1) ops
  then Fails else apply_ops ops sems semadj.

(** What the adjustments of a process that ends make of the semaphores: they are kept
    within their range. *)
Definition clamp (v : Z) : Z := Z.max 0 (Z.min SEMVMX v).
Definition undo (sems semadj : list Z) : list Z := zip_with (λ v a, clamp (v + a)) sems semadj.
Definition undo_fits (sems semadj : list Z) : bool :=
  forallb (λ x, bool_decide (0 ≤ x ≤ SEMVMX)%Z) (zip_with Z.add sems semadj).

(** ** The processes *)

(** Where a process is: before [getline], in [semop] for one operation or for the
    transaction, or gone. *)
Inductive whereabouts : Type := Reads | Single (op : sembuf) | Commits | Gone.

(** The variables of [main], the first [ops_count] elements of [ops] among them; those that
    have no value yet are [None]. *)
Record proc : Type := mk_proc {
  ops : list sembuf;
  is_inside_txn : bool;
  sem_num : option Z;
  cmd : option ascii;
  line : option bytes;
  semadj : list Z;
  at_ : whereabouts;
}.

(** The semaphores, whether they were deleted, the processes, and whether some undoing
    did not fit. *)
Record system : Type := mk_system {
  sems : list Z;
  deleted : bool;
  procs : list proc;
  clamped : bool;
}.

(** [struct sembuf ops[100]] *)
Definition OPS : nat := 100.

(** [init_sems] by the first process; then [n] are connected. *)
Definition init : list Z := [1; 2; 3]%Z.
Definition new_proc : proc := mk_proc [] false None None None [0; 0; 0]%Z Reads.
Definition start (n : nat) : system := mk_system init false (replicate n new_proc) false.

Definition go (a : whereabouts) (p : proc) : proc :=
  mk_proc (ops p) (is_inside_txn p) (sem_num p) (cmd p) (line p) (semadj p) a.
Definition set_txn (b : bool) (o : list sembuf) (p : proc) : proc :=
  mk_proc o b (sem_num p) (cmd p) (line p) (semadj p) (at_ p).
Definition set_scanned (n : option Z) (c : option ascii) (p : proc) : proc :=
  mk_proc (ops p) (is_inside_txn p) n c (line p) (semadj p) (at_ p).
Definition set_line (l : bytes) (p : proc) : proc :=
  mk_proc (ops p) (is_inside_txn p) (sem_num p) (cmd p) (Some l) (semadj p) (at_ p).
Definition set_semadj (a : list Z) (p : proc) : proc :=
  mk_proc (ops p) (is_inside_txn p) (sem_num p) (cmd p) (line p) a (at_ p).
Definition set_proc (i : nat) (p : proc) (s : system) : system :=
  mk_system (sems s) (deleted s) (<[i := p]> (procs s)) (clamped s).

(** ** [sscanf(line, "%d %c", &sem_num, &cmd)] *)

(** The number, and the character behind it, as far as they are there. *)
Definition sscanf (l : bytes) : option Z * option ascii :=
  match scan_int l with
  | None => (None, None)
  | Some (n, l) => (Some n, head (skip_space l))
  end.

(** ** The loop of [main] *)

(** A process ends: the kernel undoes its operations, if the semaphores are still there. *)
Definition exit_ (i : nat) (p : proc) (s : system) : system :=
  let p' := set_semadj [0; 0; 0]%Z (go Gone p) in
  if deleted s then set_proc i p' s
  else mk_system (undo (sems s) (semadj p)) false (<[i := p']> (procs s))
         (clamped s || negb (undo_fits (sems s) (semadj p))).

(** A line that is none of the words. *)
Definition txn_operation (i : nat) (l : bytes) (p : proc) (s : system) : attempt system :=
  let '(n, c) := sscanf l in
  let n := match n with Some z => Some z | None => sem_num p end in
  let c := match c with Some a => Some a | None => cmd p end in
  let p := set_scanned n c p in
  if negb (match n with Some z => bool_decide (i32_range z) | None => true end)
  then Undefined SignedOverflow else
  match c with
  | None => Undefined Uninitialised
  | Some c =>
      let sem_op := if decide (c = "-"%char) then Some (-1)%Z
                    else if decide (c = "+"%char) then Some 1%Z else None in
      match sem_op with
      | None => Next (set_proc i p s)
      | Some o =>
          if negb (length (ops p) <? OPS) then Undefined OutOfBounds else
          match n with
          | None => Undefined Uninitialised
          | Some z =>
              if negb (bool_decide (i32_range (z - 1))) then Undefined SignedOverflow
              else
                let op := (Z.to_nat (wrap 16 (z - 1)), o) in
                if is_inside_txn p then Next (set_proc i (set_txn true (ops p ++ [op]) p) s)
                else Next (set_proc i (go (Single op) p) s)
          end
      end
  end.

(** A turn of the loop on the string that the buffer holds: [line\[strlen(line) - 1\] = 0],
    then the command. *)
Definition command_turn (i : nat) (raw : bytes) (p : proc) (s : system) : attempt system :=
  match c_string raw with
  | [] => Undefined OutOfBounds
  | l =>
      let l := removelast l in
      let p := set_line l p in
      if decide (l = lit "begin") then Next (set_proc i (set_txn true (ops p) p) s)
      else if decide (l = lit "commit") then Next (set_proc i (go Commits p) s)
      else if decide (l = lit "rollback") then Next (set_proc i (set_txn false [] p) s)
      else if decide (l = lit "delete") then
        Next (exit_ i p (mk_system (sems s) true (procs s) (clamped s)))
      else if decide (l = lit "quit") then Next (exit_ i p s)
      else if decide (l = lit "show") then Next (set_proc i p s)
      else txn_operation i l p s
  end.

(** [getline] puts a line into the buffer, or leaves it as it is; or the kernel tries a
    [semop]. *)
Inductive event : Type := Line (raw : bytes) | Eof | Semop.

(** The kernel answers a [semop] of process [i]: success, or -1. *)
Definition answer (i : nat) (o : list sembuf) (p success : proc) (s : system) : attempt system :=
  if deleted s then Next (set_proc i (go Reads p) s)
  else
    match semop o (sems s) (semadj p) with
    | Done v a => Next (mk_system v false (<[i := set_semadj a (go Reads success)]> (procs s)) (clamped s))
    | Waits => Blocked
    | Fails => Next (set_proc i (go Reads p) s)
    end.

Definition step (e : nat * event) (s : system) : attempt system :=
  let '(i, e) := e in
  match procs s !! i with
  | None => Blocked
  | Some p =>
      match at_ p, e with
      | Reads, Line raw => command_turn i raw p s
      | Reads, Eof => match line p with Some l => command_turn i l p s | None => Undefined Uninitialised end
      | Single op, Semop => answer i [op] p p s
      | Commits, Semop => answer i (ops p) p (set_txn false [] p) s
      | _, _ => Blocked
      end
  end.

Definition run : list (nat * event) → system → attempt system := run_labels step.

(** ** Facts *)

(** Element [k], and the range of the values. *)
Definition nth_of (k : nat) (l : list Z) : Z := default 0%Z (l !! k).
Definition in_range (l : list Z) : Prop := Forall (λ v, 0 ≤ v ≤ SEMVMX)%Z l.

Lemma nth_insert k n (x : Z) l : n < length l →
  nth_of k (<[n := x]> l) = if decide (k = n) then x else nth_of k l.
Proof.
  intros Hn. unfold nth_of. case_decide as E.
  - subst. by rewrite list_lookup_insert_eq.
  - by rewrite list_lookup_insert_ne.
Qed.

(** What a process takes from a semaphore it is adjusted by. *)
Lemma apply_ops_spec o : ∀ v a v' a', apply_ops o v a = Done v' a' → in_range v →
  in_range v' ∧ length v' = length v ∧ length a' = length a ∧
  ∀ k, (nth_of k v' + nth_of k a' = nth_of k v + nth_of k a)%Z.
Proof.
  induction o as [|[n x] o IH]; intros v a v' a' H Hr; cbn [apply_ops] in H; [by injection H as <- <-|].
  destruct (v !! n) as [vn|] eqn:Ev; [|done]. destruct (a !! n) as [an|] eqn:Ea; [|done].
  destruct (Z.ltb_spec (vn + x) 0); [done|]. destruct (Z.ltb_spec SEMVMX (vn + x)); [done|].
  destruct (_ || _); [done|].
  apply IH in H as (Hr' & Hv & Ha & Hk); [|apply Forall_insert; [done|lia]].
  rewrite length_insert in Hv, Ha. split_and!; try done. intros k. rewrite Hk.
  rewrite !nth_insert by (by eapply lookup_lt_Some). case_decide as E; [|done].
  subst. unfold nth_of. rewrite Ev, Ea. cbn. lia.
Qed.

Lemma semop_spec o v a v' a' : semop o v a = Done v' a' → in_range v →
  in_range v' ∧ length v' = length v ∧ length a' = length a ∧
  ∀ k, (nth_of k v' + nth_of k a' = nth_of k v + nth_of k a)%Z.
Proof. unfold semop. destruct (_ || _); [done|]. apply apply_ops_spec. Qed.

Lemma undo_range v a : in_range (undo v a).
Proof.
  unfold undo, in_range. revert a. induction v as [|x v IH]; intros [|y a]; cbn; constructor; [|done].
  unfold clamp, SEMVMX. lia.
Qed.

Lemma undo_exact k v a : length v = length a → undo_fits v a = true →
  nth_of k (undo v a) = (nth_of k v + nth_of k a)%Z.
Proof.
  unfold undo, undo_fits. revert k a. induction v as [|x v IH]; intros k [|y a] Hl Hf; try done.
  cbn in Hf. apply andb_true_iff in Hf as [Hx Hf]. apply bool_decide_eq_true in Hx.
  destruct k as [|k].
  - unfold nth_of, clamp. cbn. unfold SEMVMX in *. lia.
  - apply (IH k a); [by injection Hl|done].
Qed.

(** The adjustments of all processes to semaphore [k]. *)
Definition owed (k : nat) (s : system) : Z := total (λ p, nth_of k (semadj p)) (procs s).

(** The semaphores and what the processes owe them make up the initial values. *)
Record conserved (s : system) : Prop := {
  con_range : in_range (sems s);
  con_sems : length (sems s) = 3;
  con_adj : Forall (λ p, length (semadj p) = 3) (procs s);
  con_gone : Forall (λ p, at_ p = Gone → semadj p = [0; 0; 0]%Z) (procs s);
  con_sum k : deleted s = false → clamped s = false →
    (nth_of k (sems s) + owed k s = nth_of k init)%Z;
}.

(** A step of a process that changes none of the numbers. *)
Lemma conserved_quiet i p p' s :
  conserved s → procs s !! i = Some p → semadj p' = semadj p → at_ p' ≠ Gone →
  conserved (set_proc i p' s).
Proof.
  intros [Hr Hl Ha Hg Hs] Hp Hadj Hat. split; try done; cbn.
  - apply Forall_insert; [done|]. rewrite Hadj. by apply (Forall_lookup_1 _ _ _ _ Ha Hp).
  - by apply Forall_insert.
  - intros k Hd Hc. rewrite <-(Hs k Hd Hc). unfold owed. cbn.
    rewrite (total_insert _ _ _ _ _ Hp), Hadj. lia.
Qed.

(** A process ends. *)
Lemma conserved_exit i p p' s :
  conserved s → procs s !! i = Some p → semadj p' = semadj p → conserved (exit_ i p' s).
Proof.
  intros [Hr Hl Ha Hg Hs] Hp Hadj. pose proof (Forall_lookup_1 _ _ _ _ Ha Hp) as Hlp. cbn in Hlp.
  unfold exit_. destruct (deleted s) eqn:Ed; (split; cbn; [|  |by apply Forall_insert|by apply Forall_insert|]).
  - done.
  - done.
  - congruence.
  - apply undo_range.
  - unfold undo. rewrite length_zip_with, Hadj, Hl, Hlp. done.
  - intros k _ [Hc Hf%negb_false_iff]%orb_false_iff. rewrite <-(Hs k eq_refl Hc).
    rewrite undo_exact by (rewrite ?Hadj; congruence). unfold owed. cbn.
    rewrite (total_insert _ _ _ _ _ Hp). rewrite Hadj. cbn.
    assert (nth_of k [0; 0; 0]%Z = 0%Z) as -> by (by destruct k as [|[|[|k]]]). lia.
Qed.

(** A turn of the loop changes the variables of the process, or ends it. *)
Definition quiet (i : nat) (p : proc) (s s' : system) : Prop :=
  ∃ p', s' = set_proc i p' s ∧ semadj p' = semadj p ∧ at_ p' ≠ Gone.

Lemma operation_quiet i l p p0 s s' :
  txn_operation i l p s = Next s' → at_ p = Reads → semadj p = semadj p0 → quiet i p0 s s'.
Proof.
  unfold txn_operation, quiet. intros H Hat Ha.
  repeat (case_match; simplify_eq/=); eexists; (split; [done|]); cbn; by rewrite ?Hat.
Qed.

Lemma turn_cases i raw p s s' : command_turn i raw p s = Next s' → at_ p = Reads →
  quiet i p s s' ∨ ∃ p' d, s' = exit_ i p' (mk_system (sems s) d (procs s) (clamped s)) ∧
    semadj p' = semadj p ∧ (d = false → deleted s = false).
Proof.
  unfold command_turn. intros H Hat. destruct (c_string raw) as [|c l]; [done|].
  repeat (case_decide; [|]); try injection H as <-.
  - left. eexists. split; [done|]. cbn. by rewrite Hat.
  - left. eexists. by split.
  - left. eexists. split; [done|]. cbn. by rewrite Hat.
  - right. eexists _, true. by split_and!.
  - right. exists (set_line (removelast (c :: l)) p), (deleted s). split_and!; done.
  - left. eexists. split; [done|]. cbn. by rewrite Hat.
  - left. eapply operation_quiet; [done| |]; cbn; done.
Qed.

Lemma conserved_answer i o p success s s' :
  conserved s → procs s !! i = Some p → semadj success = semadj p →
  answer i o p success s = Next s' → conserved s'.
Proof.
  intros Hc Hp Hadj. unfold answer.
  assert (conserved (set_proc i (go Reads p) s)) as Hq by by eapply conserved_quiet.
  destruct (deleted s) eqn:Ed; [by intros [= <-]|].
  destruct (semop o (sems s) (semadj p)) as [v a| |] eqn:E; [|done|by intros [= <-]].
  intros [= <-]. destruct Hc as [Hr Hl Ha Hg Hs].
  destruct (semop_spec _ _ _ _ _ E Hr) as (Hr' & Hv & Hla & Hk).
  pose proof (Forall_lookup_1 _ _ _ _ Ha Hp) as Hlp. cbn in Hlp.
  split; cbn; [done|congruence|apply Forall_insert; [done|cbn; congruence]|by apply Forall_insert|].
  intros k _ Hcl. rewrite <-(Hs k Ed Hcl). unfold owed. cbn. rewrite (total_insert _ _ _ _ _ Hp). cbn.
  pose proof (Hk k). lia.
Qed.

Lemma conserved_step e s s' : conserved s → step e s = Next s' → conserved s'.
Proof.
  destruct e as [i e]. intros Hc H. unfold step in H.
  destruct (procs s !! i) as [p|] eqn:Hp; [|done].
  assert (∀ raw, at_ p = Reads → command_turn i raw p s = Next s' → conserved s') as Hturn.
  { intros raw Hat Ht. destruct (turn_cases _ _ _ _ _ Ht Hat) as [(p' & -> & Ha & Hg)|(p' & d & -> & Ha & Hd)].
    - by eapply conserved_quiet.
    - eapply conserved_exit; [|exact Hp|exact Ha]. destruct Hc as [Hr Hl Hadj Hgone Hs].
      split; try done. intros k Hd' Hcl. cbn in *. apply (Hs k); auto. }
  destruct (at_ p) as [|op| |] eqn:Hat, e as [raw| |]; try done.
  - by eapply Hturn.
  - destruct (line p); [by eapply Hturn|done].
  - by eapply (conserved_answer i [op] p p).
  - by eapply (conserved_answer i (ops p) p (set_txn false [] p)).
Qed.

Lemma conserved_start n : conserved (start n).
Proof.
  split; cbn; try done.
  - unfold init, in_range, SEMVMX. repeat constructor; lia.
  - by apply Forall_replicate.
  - by apply Forall_replicate.
  - intros k _ _. unfold owed. cbn. rewrite (total_all _ _ 0%Z).
    + lia.
    + intros j p [-> _]%lookup_replicate. by destruct k as [|[|[|k]]].
Qed.

(** ** Properties *)

(** In every interleaving of the processes the semaphores keep their range, and as
    long as they are not deleted and no undoing had to be cut off, what a transaction took
    from them and its process has not given back is exactly what the kernel would undo:
    with the adjustments of the processes they make up their initial values.  When all
    processes have ended, by quit, they are 1, 2 and 3 again. *)
Lemma transactions_undone n es s :
  run es (start n) = Next s →
  in_range (sems s) ∧
  (deleted s = false → clamped s = false →
   (∀ k, nth_of k (sems s) + owed k s = nth_of k init)%Z ∧
   (Forall (λ p, at_ p = Gone) (procs s) → sems s = init)).
Proof.
  intros H. assert (conserved s) as [Hr Hl Ha Hg Hs].
  { eapply (run_labels_invariant step conserved); [|apply conserved_start|exact H].
    intros. by eapply conserved_step. }
  split; [done|]. intros Hd Hc. split; [by intros k; apply Hs|]. intros Hall.
  assert (∀ k, owed k s = 0%Z) as Ho.
  { intros k. unfold owed. rewrite (total_all _ _ 0%Z); [lia|]. intros j p Hj.
    rewrite (Forall_lookup_1 _ _ _ _ Hg Hj) by by apply (Forall_lookup_1 _ _ _ _ Hall Hj).
    by destruct k as [|[|[|k]]]. }
  destruct (sems s) as [|a [|b [|c [|]]]]; try done.
  pose proof (Hs 0 Hd Hc) as H0. pose proof (Hs 1 Hd Hc) as H1. pose proof (Hs 2 Hd Hc) as H2.
  rewrite Ho in *. unfold nth_of in *. cbn in *. unfold init. repeat f_equal; lia.
Qed.

(** ** What a user types *)

(** An operation of a transaction: the number of the semaphore, and "+" or "-". *)
Definition operation : Type := Z * bool.
Definition operation_line (t : operation) : bytes :=
  number t.1 ++ [SP; if t.2 then "+"%char else "-"%char; LF].
Definition begin_line : bytes := lit "begin" ++ [LF].
Definition commit_line : bytes := lit "commit" ++ [LF].
Definition rollback_line : bytes := lit "rollback" ++ [LF].

(** What it is to do. *)
Definition delta (t : operation) : sembuf := (Z.to_nat (wrap 16 (t.1 - 1)), if t.2 then 1 else -1)%Z.
Definition net (k : nat) (ts : list operation) : Z :=
  total (λ t, if decide ((delta t).1 = k) then (delta t).2 else 0)%Z ts.

(** The events of one process. *)
Definition own (i : nat) (es : list (nat * event)) : list event := (filter (λ e, e.1 = i) es).*2.

(** The other processes leave it alone. *)
Lemma answer_other j i o p q s s' : j ≠ i → answer j o p q s = Next s' → procs s' !! i = procs s !! i.
Proof.
  intros Hne. unfold answer. destruct (deleted s); [intros [= <-]; cbn; by rewrite list_lookup_insert_ne|].
  destruct (semop _ _ _); [|done|]; intros [= <-]; cbn; by rewrite list_lookup_insert_ne.
Qed.

Lemma step_other j i e s s' : j ≠ i → step (j, e) s = Next s' → procs s' !! i = procs s !! i.
Proof.
  intros Hne. unfold step. destruct (procs s !! j) as [p|]; [|done].
  assert (∀ raw, at_ p = Reads → command_turn j raw p s = Next s' → procs s' !! i = procs s !! i) as Hturn.
  { intros raw Hat Ht. destruct (turn_cases _ _ _ _ _ Ht Hat) as [(p' & -> & _)|(p' & d & -> & _)].
    - cbn. by rewrite list_lookup_insert_ne.
    - unfold exit_. destruct (deleted _); cbn; by rewrite list_lookup_insert_ne. }
  destruct (at_ p) eqn:Hat, e; try done; intros E.
  - by eapply Hturn.
  - destruct (line p); [|done]. by eapply Hturn.
  - by eapply answer_other.
  - by eapply answer_other.
Qed.

(** A line that was typed. *)
Lemma typed_line l : NUL ∉ l → LF ∉ l → c_string (l ++ [LF]) = l ++ [LF].
Proof. intros Hn _. apply c_string_plain. rewrite elem_of_app, list_elem_of_singleton. by intros [?|?]. Qed.

Lemma operation_scanned t : scan_int (removelast (operation_line t)) = Some (t.1, [SP; if t.2 then "+"%char else "-"%char]).
Proof.
  unfold operation_line. rewrite removelast_app by done. cbn [removelast].
  by destruct (scan_int_number t.1 [SP; if t.2 then "+"%char else "-"%char]) as [-> _]; [left|].
Qed.

(** An operation is put behind the others of the transaction. *)
Lemma operation_typed i t p s :
  i32_range t.1 → i32_range (t.1 - 1) → is_inside_txn p = true → length (ops p) < OPS →
  ∃ p', command_turn i (operation_line t) p s = Next (set_proc i p' s) ∧
    at_ p' = at_ p ∧ is_inside_txn p' = true ∧ ops p' = ops p ++ [delta t] ∧ semadj p' = semadj p.
Proof.
  intros Hz Hz' Hin Hlen.
  assert (NUL ∉ operation_line t) as Hnul.
  { unfold operation_line. rewrite elem_of_app. intros [Hn|Hn]; [by apply (number_free t.1 NUL)|].
    revert Hn. by destruct t.2; apply (bool_decide_unpack (NUL ∉ _)). }
  unfold command_turn. rewrite c_string_plain by done.
  destruct (operation_line t) as [|c l] eqn:El; [by apply (f_equal length) in El; unfold operation_line in El; rewrite length_app in El; cbn in El; lia|].
  rewrite <-El.
  assert (∀ w, LF ∉ w → (SP ∉ w) → removelast (operation_line t) ≠ w) as Hw.
  { intros w _ Hsp <-. apply Hsp. unfold operation_line. rewrite removelast_app by done. cbn [removelast].
    apply elem_of_app. right. by left. }
  rewrite !decide_False by (apply Hw; by apply (bool_decide_unpack (_ ∉ _))).
  assert (sscanf (removelast (operation_line t)) = (Some t.1, Some (if t.2 then "+"%char else "-"%char))) as Esc
    by (unfold sscanf; rewrite operation_scanned; by destruct t.2).
  unfold txn_operation. rewrite Esc.
  rewrite bool_decide_eq_true_2 by done. cbn [negb].
  assert ((if decide ((if t.2 then "+"%char else "-"%char) = "-"%char) then Some (-1)%Z
    else if decide ((if t.2 then "+"%char else "-"%char) = "+"%char) then Some 1%Z else None) = Some (delta t).2) as ->
    by (unfold delta; by destruct t.2).
  cbn [set_scanned set_line ops is_inside_txn]. rewrite (proj2 (Nat.ltb_lt _ _)) by done. cbn [negb].
  rewrite (bool_decide_eq_true_2 _ Hz'). cbn [negb]. rewrite Hin. eexists. split; [reflexivity|]. done.
Qed.

(** The rest of a transaction, among whatever the other processes do. *)
Lemma transaction_rest (fin : bool) es : ∀ ts s s' i p,
  procs s !! i = Some p → at_ p = Reads → is_inside_txn p = true →
  Forall (λ t, i32_range t.1 ∧ i32_range (t.1 - 1))%Z ts → length (ops p) + length ts ≤ OPS →
  own i es = (Line ∘ operation_line <$> ts) ++ [Line (if fin then commit_line else rollback_line)] →
  run es s = Next s' →
  ∃ p', procs s' !! i = Some p' ∧ semadj p' = semadj p ∧
    if fin then at_ p' = Commits ∧ is_inside_txn p' = true ∧ ops p' = ops p ++ (delta <$> ts)
    else at_ p' = Reads ∧ is_inside_txn p' = false ∧ ops p' = [].
Proof.
  assert (∀ es s s' i p, procs s !! i = Some p → own i es = [] → run es s = Next s' → procs s' !! i = Some p) as Hrest.
  { intros es0. induction es0 as [|[j e] es0 IH]; intros s s' i p Hp Ho E; [by injection E as <-|].
    unfold own in Ho. rewrite filter_cons in Ho. cbn in Ho. case_decide as Hj; [done|].
    unfold run in E. cbn [run_labels] in E. destruct (step (j, e) s) as [| |s1] eqn:Es; [done..|].
    apply (IH s1 s' i p); [by rewrite (step_other j i e s s1)|done|done]. }
  induction es as [|[j e] es IH]; intros ts s s' i p Hp Hat Hin Hts Hlen Ho E; [by destruct ts|].
  unfold run in E. cbn [run_labels] in E. destruct (step (j, e) s) as [| |s1] eqn:Es; [done..|].
  unfold own in Ho. rewrite filter_cons in Ho. cbn in Ho. case_decide as Hj.
  2: { apply (IH ts s1 s' i p); try done. by rewrite (step_other j i e s s1). }
  subst j. fold (own i es) in Ho. unfold step in Es. rewrite Hp, Hat in Es. destruct ts as [|t ts].
  - cbn in Ho. injection Ho as -> Ho.
    assert (∃ p1, s1 = set_proc i p1 s ∧ semadj p1 = semadj p ∧
      if fin then at_ p1 = Commits ∧ is_inside_txn p1 = true ∧ ops p1 = ops p
      else at_ p1 = Reads ∧ is_inside_txn p1 = false ∧ ops p1 = []) as (p1 & -> & Ha1 & H1).
    { destruct fin; injection Es as <-; eexists; (split; [done|]); cbn; done. }
    exists p1. rewrite app_nil_r. split; [|done]. eapply Hrest; [|done|exact E].
    cbn. apply list_lookup_insert_eq. by eapply lookup_lt_Some.
  - cbn in Ho. injection Ho as -> Ho. apply Forall_cons in Hts as [[Hz Hz'] Hts]. cbn [length] in Hlen.
    destruct (operation_typed i t p s) as (p1 & E1 & Ha1 & Hi1 & Ho1 & Hs1); try done; [lia|].
    rewrite E1 in Es. injection Es as <-.
    destruct (IH ts (set_proc i p1 s) s' i p1) as (p' & Hp' & Hs' & H'); try done.
    + cbn. apply list_lookup_insert_eq. by eapply lookup_lt_Some.
    + congruence.
    + rewrite Ho1, length_app. cbn. lia.
    + exists p'. split; [done|]. split; [congruence|]. destruct fin; [|done]. cbn [fmap list_fmap].
      destruct H' as (? & ? & ->). split_and!; [done|done|]. by rewrite Ho1, <-app_assoc.
Qed.

(** What a [semop] that succeeds does to the semaphores. *)
Lemma apply_ops_net ts : ∀ v a v' a' k, apply_ops (delta <$> ts) v a = Done v' a' → nth_of k v' = (nth_of k v + net k ts)%Z.
Proof.
  induction ts as [|t ts IH]; intros v a v' a' k H; cbn [fmap list_fmap apply_ops] in H.
  { injection H as <- <-. unfold net. cbn. lia. }
  destruct (delta t) as [n x] eqn:Et. destruct (v !! n) as [vn|] eqn:Ev; [|done]. destruct (a !! n) as [an|] eqn:Ea; [|done].
  destruct (vn + x <? 0)%Z; [done|]. destruct (SEMVMX <? vn + x)%Z; [done|]. destruct (_ || _); [done|].
  apply IH with (k := k) in H. rewrite H, nth_insert by (by eapply lookup_lt_Some).
  change (net k (t :: ts)) with ((if decide ((delta t).1 = k) then (delta t).2 else 0) + net k ts)%Z.
  rewrite Et. cbn [fst snd]. repeat case_decide; try congruence; [|lia].
  subst. unfold nth_of. rewrite Ev. cbn. lia.
Qed.

(** C35: A transaction that is typed by one process, while the others do whatever they do, is
    executed at once: until "commit" nothing of it has touched the semaphores, and then [semop]
    is called with the operations that were typed, in their order.  When it succeeds every
    semaphore has been increased by the number of its "+" and decreased by that of its "-",
    and the process is outside of a transaction without operations; when it fails nothing
    changes, and the process is still inside with all of them; or it waits.  After "rollback"
    they are forgotten. *)
Theorem transaction_at_once (fin : bool) es ts s s' i p :
  procs s !! i = Some p → at_ p = Reads → ops p = [] →
  Forall (λ t, i32_range t.1 ∧ i32_range (t.1 - 1))%Z ts → length ts ≤ OPS →
  own i es = Line begin_line :: (Line ∘ operation_line <$> ts) ++ [Line (if fin then commit_line else rollback_line)] →
  run es s = Next s' →
  ∃ p', procs s' !! i = Some p' ∧ semadj p' = semadj p ∧
    if fin then
      (* only the kernel's answer is to come *)
      (∀ e, e ≠ Semop → step (i, e) s' = Blocked) ∧
      match step (i, Semop) s' with
      | Next s'' => ∃ p'', procs s'' !! i = Some p'' ∧ at_ p'' = Reads ∧
          ((∀ k, nth_of k (sems s'') = nth_of k (sems s') + net k ts)%Z ∧ is_inside_txn p'' = false ∧ ops p'' = [] ∨
           sems s'' = sems s' ∧ is_inside_txn p'' = true ∧ ops p'' = delta <$> ts)
      | Blocked => semop (delta <$> ts) (sems s') (semadj p') = Waits
      | Undefined _ => False
      end
    else at_ p' = Reads ∧ is_inside_txn p' = false ∧ ops p' = [].
Proof.
  intros Hp Hat Hops Hts Hlen Ho E.
  assert (∃ p', procs s' !! i = Some p' ∧ semadj p' = semadj p ∧
    if fin then at_ p' = Commits ∧ is_inside_txn p' = true ∧ ops p' = delta <$> ts
    else at_ p' = Reads ∧ is_inside_txn p' = false ∧ ops p' = []) as (p' & Hp' & Hs' & H).
  { revert s Hp Ho E. induction es as [|[j e] es IH]; intros s Hp Ho E; [done|].
    unfold run in E. cbn [run_labels] in E. destruct (step (j, e) s) as [| |s1] eqn:Es; [done..|].
    unfold own in Ho. rewrite filter_cons in Ho. cbn in Ho. case_decide as Hj.
    2: { apply (IH s1); try done. by rewrite (step_other j i e s s1). }
    subst j. fold (own i es) in Ho. injection Ho as -> Ho. unfold step in Es. rewrite Hp, Hat in Es.
    set (p1 := set_txn true (ops p) (set_line (removelast begin_line) p)).
    assert (s1 = set_proc i p1 s) as -> by (by injection Es as <-).
    destruct (transaction_rest fin es ts (set_proc i p1 s) s' i p1) as (p' & H1 & H2 & H3); try done.
    - cbn. apply list_lookup_insert_eq. by eapply lookup_lt_Some.
    - cbn. rewrite Hops. cbn. lia.
    - exists p'. split; [done|]. split; [done|]. cbn in H3. by rewrite Hops in H3. }
  exists p'. split; [done|]. split; [done|]. destruct fin; [|done]. destruct H as (Ha & Hi & Hopsp).
  unfold step. rewrite Hp', Ha. split; [by intros []|]. unfold answer. rewrite Hopsp.
  assert (∀ q, <[i := q]> (procs s') !! i = Some q) as Hins
    by (intros q; apply list_lookup_insert_eq; by eapply lookup_lt_Some).
  destruct (deleted s').
  { eexists. cbn. split; [apply Hins|]. split; [done|]. by right. }
  destruct (semop (delta <$> ts) (sems s') (semadj p')) as [v a| |] eqn:Eo; [|done|].
  - eexists. cbn. split; [apply Hins|]. split; [done|]. left. split; [|done]. intros k.
    unfold semop in Eo. destruct (_ || _); [done|]. by apply apply_ops_net with (1 := Eo).
  - eexists. cbn. split; [apply Hins|]. split; [done|]. by right.
Qed.

(** ** Examples *)

Definition says (i : nat) (l : string) : nat * event := (i, Line (lit l ++ [LF])).
Definition sems_of (r : attempt system) : option (list Z) :=
  match r with Next s => Some (sems s) | _ => None end.

(** A transaction waits until all of its operations are possible. *)
Example transaction_waits :
  let es := [says 0 "begin"; says 0 "1 -"; says 0 "2 +"; says 1 "1 -"; (1, Semop); says 0 "commit"] in
  run (es ++ [(0, Semop)]) (start 2) = Blocked ∧
  sems_of (run (es ++ [says 1 "1 +"; (1, Semop); (0, Semop)]) (start 2)) = Some [0; 3; 3]%Z.
Proof. vm_compute. done. Qed.

(** The undoing of a process that ends is cut off at 0: what another one took is given
    back later all the same. *)
Example undo_cut_off :
  sems_of (run [says 0 "1 +"; (0, Semop); says 1 "1 -"; (1, Semop); says 1 "1 -"; (1, Semop);
    says 0 "quit"; says 1 "quit"] (start 2)) = Some [2; 2; 3]%Z.
Proof. vm_compute. done. Qed.

(** At the end of its input a process trims the last line once more and repeats its
    operation, again and again, then writes in front of the buffer. *)
Example end_of_input :
  let es := [says 0 "3 +"; (0, Semop); (0, Eof); (0, Semop); (0, Eof); (0, Semop); (0, Eof); (0, Semop)] in
  sems_of (run es (start 1)) = Some [1; 2; 7]%Z ∧
  run (es ++ [(0, Eof)]) (start 1) = Undefined OutOfBounds.
Proof. vm_compute. done. Qed.

(** An empty transaction cannot be committed: [semop] fails, and its process stays inside. *)
Example empty_commit :
  match run [says 0 "begin"; says 0 "commit"; (0, Semop)] (start 1) with
  | Next s => (is_inside_txn <$> procs s) = [true]
  | _ => False
  end.
Proof. vm_compute. done. Qed.

(** The operation number 101 of a transaction is written behind the array. *)
Example long_transaction :
  run (says 0 "begin" :: replicate 101 (says 0 "1 +")) (start 1) = Undefined OutOfBounds.
Proof. vm_compute. done. Qed.

(** Process 0 takes the first and the third semaphore at once, while process 1 uses the second. *)
Definition interleaved : list (nat * event) :=
  [says 0 "begin"; says 1 "2 -"; says 0 "1 -"; (1, Semop); says 0 "3 -"; says 1 "show"; says 0 "commit"].

Lemma transaction_at_once_witness : ∃ s s'',
  run interleaved (start 2) = Next s ∧ step (0, Semop) s = Next s'' ∧ sems s'' = [0; 1; 2]%Z.
Proof.
  destruct (run interleaved (start 2)) as [|u|s] eqn:E; [by vm_compute in E..|].
  destruct (transaction_at_once true interleaved [(1, false); (3, false)]%Z (start 2) s 0 new_proc) as (p' & _ & _ & _ & H).
  - done.
  - done.
  - done.
  - repeat constructor; unfold i32_range; cbn; lia.
  - unfold OPS. cbn. lia.
  - vm_compute. reflexivity.
  - exact E.
  - exists s. destruct (step (0, Semop) s) as [|u|s''] eqn:Es.
    + exfalso. vm_compute in E. injection E as <-. vm_compute in Es. discriminate Es.
    + done.
    + exists s''. split; [done|]. split; [done|]. clear H.
      vm_compute in E. injection E as <-. vm_compute in Es. injection Es as <-. reflexivity.
Defined.
