(* ===== verification/Logging.v ===== *)
(** * The logging service

    Model of src/sysprog/afina/src/logging/ServiceImpl.cpp and ServiceImpl.h over the
    configuration of include/afina/logging/Config.h, and of [Application::Configure]
    of src/main.cpp.  The registry of spdlog is a map from names to loggers. *)

From S2P Require Import Prelude.

(** ** The configuration: Config.h *)

Inductive Appender_Type : Type := STDOUT | STDERR | FILE | DAILY | SIZED | SYSLOG.

(** An [Appender]; [type] is [None] when it holds none of the enumerators. *)
Record Appender : Type := mk_Appender {
  type : option Appender_Type;
  color : bool;
  file : bytes;
  rotate_at_hours : Z;
  rotate_at_mins : Z;
  rotate_at_size : Z;
  history_to_keep : Z;
  ident : bytes;
  option_ : Z;
  facility : Z;
}.

Inductive Level : Type := CRITICAL | ERROR | WARNING | INFO | DEBUG | TRACE.

#[export] Instance Level_eq_dec : EqDecision Level.
Proof. solve_decision. Defined.

Record Logger : Type := mk_Logger { level : Level; format : bytes; appenders_of : list bytes }.

(** The two maps, in the order of their keys. *)
Record Config : Type := mk_Config {
  appenders : list (bytes * Appender);
  loggers : list (bytes * Logger);
}.

(** ** Sinks and loggers *)

(** A sink object; sinks are shared, so they refer to each other by pointer. *)
Inductive sink : Type :=
| stdout_sink | stderr_sink
| ansicolor_sink (target : nat)
| rotate_file_sink (filename : bytes) (force_flush : bool) (reopened : nat)
| daily_file_sink (filename : bytes) (hours mins : Z)
| rotating_file_sink (filename : bytes) (size keep : Z)
| syslog_sink (name : bytes) (opt fac : Z)
| dist_sink (sinks : list (option nat)).

(** [spdlog::level], ordered as in spdlog. *)
Inductive spdlog_level : Type := lvl_trace | lvl_debug | lvl_info | lvl_warn | lvl_err | lvl_critical.

Record logger : Type := mk_logger {
  name : bytes;
  sinks_of : list (option nat);
  lvl : spdlog_level;
  pattern : bytes;
  flush_level : spdlog_level;
}.

(** The process: the sinks by address (the singletons for stdout and stderr first), the
    registry, and the service's [_root]. *)
Record Process : Type := mk_process {
  heap : list sink;
  registry : gmap bytes logger;
  _root : option logger;
}.

(** [ServiceImpl(cfg)] in a fresh process. *)
Definition new_process : Process := mk_process [stdout_sink; stderr_sink] ∅ None.

Definition stdout_instance : nat := 0.
Definition stderr_instance : nat := 1.

(** [std::make_shared<...>(...)] *)
Definition make_sink (k : sink) : prog Process nat := λ w,
  Ret (length (heap w)) (mk_process (heap w ++ [k]) (registry w) (_root w)).

(** [spdlog::get] *)
Definition spdlog_get (n : bytes) : prog Process (option logger) := gets (λ w, registry w !! n).

(** [spdlog::register_logger] *)
Definition register_logger (l : logger) : prog Process unit := λ w,
  match registry w !! name l with
  | Some _ => Throw "logger already exists" w
  | None => Ret tt (mk_process (heap w) (<[name l := l]> (registry w)) (_root w))
  end.

(** ** [ServiceImpl::Start] *)

(** The sink of one appender. *)
Definition build_appender (a : Appender) : prog Process nat :=
  match type a with
  | Some STDOUT => if color a then make_sink (ansicolor_sink stdout_instance) else mret stdout_instance
  | Some STDERR => if color a then make_sink (ansicolor_sink stderr_instance) else mret stderr_instance
  | Some FILE => make_sink (rotate_file_sink (file a) false 0)
  | Some DAILY => make_sink (daily_file_sink (file a) (rotate_at_hours a) (rotate_at_mins a))
  | Some SIZED => make_sink (rotating_file_sink (file a) (rotate_at_size a) (history_to_keep a))
  | Some SYSLOG => make_sink (syslog_sink (ident a) (option_ a) (facility a))
  | None => throw "Invalid appender type"
  end.

(** The first loop: [results]. *)
Fixpoint build_appenders (l : list (bytes * Appender)) (results : gmap bytes nat) :
    prog Process (gmap bytes nat) :=
  match l with
  | [] => mret results
  | (n, a) :: l => p ← build_appender a; build_appenders l (<[n := p]> results)
  end.

(** The sink of a logger; [results[...]] of an unknown name is a null pointer. *)
Definition logger_sink (results : gmap bytes nat) (l : Logger) : prog Process (option nat) :=
  match appenders_of l with
  | [] => mret None
  | [a] => mret (results !! a)
  | ns => Some <$> make_sink (dist_sink ((λ a, results !! a) <$> ns))
  end.

Definition read_level (l : Level) : spdlog_level :=
  match l with
  | TRACE => lvl_trace | DEBUG => lvl_debug | INFO => lvl_info
  | WARNING => lvl_warn | ERROR => lvl_err | CRITICAL => lvl_critical
  end.

(** Body of the second loop. *)
Definition create_logger (results : gmap bytes nat) (n : bytes) (l : Logger) : prog Process unit :=
  p ← logger_sink results l;
  register_logger (mk_logger n [p] (read_level (level l)) (format l) lvl_err).

Fixpoint create_loggers (results : gmap bytes nat) (l : list (bytes * Logger)) : prog Process unit :=
  match l with
  | [] => mret tt
  | (n, lg) :: l => _ ← create_logger results n lg; create_loggers results l
  end.

Definition Start (cfg : Config) : prog Process unit :=
  results ← build_appenders (appenders cfg) ∅;
  _ ← create_loggers results (loggers cfg);
  r ← spdlog_get (lit "root");
  _ ← modify (λ w, mk_process (heap w) (registry w) r);
  match r with None => throw "Root logger not configured" | Some _ => mret tt end.

(** ** [ServiceImpl::select] *)

Definition DOT : ascii := "."%char.

(** [tmp_name.substr(0, idx)] for the last dot, or for 0 when there is none. *)
Fixpoint before_last_dot (s : bytes) : option bytes :=
  match s with
  | [] => None
  | c :: s =>
      match before_last_dot s with
      | Some t => Some (c :: t)
      | None => if decide (c = DOT) then Some [] else None
      end
  end.
Definition parent_name (s : bytes) : bytes := default [] (before_last_dot s).

Fixpoint select_loop (fuel : nat) (tmp_name : bytes) : prog Process (option logger) :=
  match fuel with
  | 0 => out_of_fuel
  | S fuel =>
      result ← spdlog_get tmp_name;
      match result with
      | Some l => mret (Some l)
      | None =>
          let tmp_name := parent_name tmp_name in
          match tmp_name with [] => gets _root | _ => select_loop fuel tmp_name end
      end
  end.
Definition select (n : bytes) : prog Process (option logger) := select_loop (length n + 1) n.

(** ** [ServiceImpl::create] *)

Definition PCT : ascii := "%"%char.
Definition X_ : ascii := "X"%char.
Definition OPEN : ascii := "{"%char.
Definition CLOSE : ascii := "}"%char.

(** [std::find(it, end, c)]: what is in front of the first [c] and what begins with it. *)
Fixpoint find_char (c : ascii) (s : bytes) : option (bytes * bytes) :=
  match s with
  | [] => None
  | d :: s' => if decide (d = c) then Some ([], s) else
      match find_char c s' with Some (a, b) => Some (d :: a, b) | None => None end
  end.

(** The loop over the pattern; [it] is the rest of the pattern, and the result what goes
    into [ss].  [mdc] maps keys to values.  An iterator that is moved or read behind the
    end is undefined. *)
Fixpoint expand (fuel : nat) (mdc : gmap bytes bytes) (it : bytes) : prog Process bytes :=
  match fuel with
  | 0 => out_of_fuel
  | S fuel =>
      match it with
      | [] => mret []
      | c :: it1 =>
          if negb (bool_decide (c = PCT)) then (λ t, c :: t) <$> expand fuel mdc it1
          else
            match it1 with
            | [] => undef OutOfBounds (* ++it behind the end *)
            | d :: it2 =>
                if negb (bool_decide (d = X_)) then (λ t, PCT :: d :: t) <$> expand fuel mdc it2
                else
                  match it2 with
                  | [] => undef OutOfBounds (* "%X{" << *end *)
                  | e :: it3 =>
                      if negb (bool_decide (e = OPEN))
                      then (λ t, PCT :: X_ :: e :: t) <$> expand fuel mdc it3
                      else
                        match find_char CLOSE it2 with
                        | None => (λ t, [PCT; X_; OPEN; e] ++ t) <$> expand fuel mdc it3
                        | Some (inside, rest) =>
                            let key := tail inside in
                            match mdc !! key with
                            | None => (λ t, [PCT; X_; OPEN; e] ++ t) <$> expand fuel mdc it3
                            | Some _ => (λ t, key ++ t) <$> expand fuel mdc (tail rest)
                            end
                        end
                  end
            end
      end
  end.

(** [create]: a logger that is not registered. *)
Definition create (n : bytes) (mdc : gmap bytes bytes) : prog Process logger :=
  b ← select n;
  base ← the NullDeref b;
  ss ← expand (length (pattern base) + 1) mdc (pattern base);
  mret (mk_logger (name base) (sinks_of base) (lvl base) ss lvl_err).

(** ** [ServiceImpl::reopen_all] *)

(** [file_sink->reopen()] *)
Definition reopen_sink (p : nat) (h : list sink) : list sink :=
  match h !! p with
  | Some (rotate_file_sink f b n) => <[p := rotate_file_sink f b (n + 1)]> h
  | _ => h
  end.

(** The loop over the queue; [seen] holds pointers, null among them. *)
Fixpoint reopen_loop (fuel : nat) (queue : list (option nat)) (seen : gset (option nat)) :
    prog Process unit :=
  match fuel with
  | 0 => out_of_fuel
  | S fuel =>
      match queue with
      | [] => mret tt
      | p :: queue =>
          if decide (p ∈ seen) then reopen_loop fuel queue seen
          else
            let seen := {[p]} ∪ seen in
            match p with
            | None => reopen_loop fuel queue seen
            | Some a =>
                w ← get;
                match heap w !! a with
                | None => undef UseAfterFree
                | Some (dist_sink ps) => reopen_loop fuel (queue ++ ps) seen
                | Some _ =>
                    _ ← modify (λ w, mk_process (reopen_sink a (heap w)) (registry w) (_root w));
                    reopen_loop fuel queue seen
                end
            end
      end
  end.

(** The pointers a sink leads to. *)
Definition children (k : sink) : list (option nat) := match k with dist_sink ps => ps | _ => [] end.

Definition reopen_all : prog Process unit :=
  w ← get;
  let queue := mjoin ((λ x, sinks_of x.2) <$> map_to_list (registry w)) in
  reopen_loop (length queue + length (mjoin (children <$> heap w)) + 1) queue ∅.
(** ** [Application::Configure] *)

(** The command line options, where given. *)
Record Options : Type := mk_Options {
  opt_storage : option bytes;
  opt_network : option bytes;
  opt_logger : option bytes;
}.

Inductive storage_kind : Type := st_lru | mt_lru.
Inductive network_kind : Type := st_block | mt_block | st_nonblock | mt_nonblock.

(** What [Configure] constructs. *)
Record Application : Type := mk_Application {
  logConfig : Config;
  storage : storage_kind;
  server : network_kind;
}.

Definition logger_level (logger_type : bytes) : option Level :=
  if bool_decide (logger_type = lit "warn") then Some WARNING
  else if bool_decide (logger_type = lit "info") then Some INFO
  else if bool_decide (logger_type = lit "critical") then Some CRITICAL
  else if bool_decide (logger_type = lit "error") then Some ERROR
  else if bool_decide (logger_type = lit "debug") then Some DEBUG
  else if bool_decide (logger_type = lit "trace") then Some TRACE
  else None.

(** The default appender; the numbers are those of the constructor. *)
Definition console : Appender :=
  mk_Appender (Some STDOUT) true [] (-1) (-1) 0 0 [] 0 0.

(** The configuration of the logging service at a level. *)
Definition main_config (lv : Level) : Config :=
  mk_Config [(lit "console", console)]
    [(lit "root", mk_Logger lv (lit "[%H:%M:%S %z] [thread %t] [%n] [%l] %v") [lit "console"])].

Definition Configure (o : Options) : prog Process Application :=
  let logger_type := default (lit "warn") (opt_logger o) in
  match logger_level logger_type with
  | None => throw "Unknown logger level type"
  | Some lv =>
      let cfg := main_config lv in
      let storage_type := default (lit "st_lru") (opt_storage o) in
      s ← (if bool_decide (storage_type = lit "st_lru") then mret st_lru
           else if bool_decide (storage_type = lit "mt_lru") then mret mt_lru
           else throw "Unknown storage type");
      let network_type := default (lit "st_block") (opt_network o) in
      n ← (if bool_decide (network_type = lit "st_block") then mret st_block
           else if bool_decide (network_type = lit "mt_block") then mret mt_block
           else if bool_decide (network_type = lit "st_nonblock") then mret st_nonblock
           else if bool_decide (network_type = lit "mt_nonblock") then mret mt_nonblock
           else throw "Unknown network type");
      mret (mk_Application cfg s n)
  end.

(** ** Starting the service *)

(** The sink an appender stands for. *)
Definition appender_sink (a : Appender) : option sink :=
  match type a with
  | Some STDOUT => Some (if color a then ansicolor_sink stdout_instance else stdout_sink)
  | Some STDERR => Some (if color a then ansicolor_sink stderr_instance else stderr_sink)
  | Some FILE => Some (rotate_file_sink (file a) false 0)
  | Some DAILY => Some (daily_file_sink (file a) (rotate_at_hours a) (rotate_at_mins a))
  | Some SIZED => Some (rotating_file_sink (file a) (rotate_at_size a) (history_to_keep a))
  | Some SYSLOG => Some (syslog_sink (ident a) (option_ a) (facility a))
  | None => None
  end.

(** The pointer [p] leads to the sink of the appender named [n], or is null without one. *)
Definition leads_to (w : Process) (cfg : Config) (n : bytes) (p : option nat) : Prop :=
  match (list_to_map (appenders cfg) : gmap bytes Appender) !! n with
  | Some a => ∃ q k, p = Some q ∧ appender_sink a = Some k ∧ heap w !! q = Some k
  | None => p = None
  end.

(** The pointer of a logger leads to the sinks of its appenders. *)
Definition logs_to (w : Process) (cfg : Config) (l : Logger) (p : option nat) : Prop :=
  match appenders_of l with
  | [] => p = None
  | [n] => leads_to w cfg n p
  | ns => ∃ q ps, p = Some q ∧ heap w !! q = Some (dist_sink ps) ∧ Forall2 (leads_to w cfg) ns ps
  end.

(** The registered logger of an entry of the configuration. *)
Definition registered (w : Process) (cfg : Config) (n : bytes) (l : Logger) : Prop :=
  ∃ p, registry w !! n = Some (mk_logger n [p] (read_level (level l)) (format l) lvl_err) ∧
    logs_to w cfg l p.

(** A configuration the service accepts. *)
Definition valid (cfg : Config) : Prop :=
  NoDup (appenders cfg).*1 ∧ NoDup (loggers cfg).*1 ∧
  Forall (λ x, is_Some (type x.2)) (appenders cfg).

(** The singletons are where they are expected. *)
Definition has_consoles (w : Process) : Prop :=
  heap w !! stdout_instance = Some stdout_sink ∧ heap w !! stderr_instance = Some stderr_sink.

Definition grows (w w' : Process) : Prop :=
  heap w `prefix_of` heap w'.

Lemma make_sink_run k w :
  ∃ w', make_sink k w = Ret (length (heap w)) w' ∧ heap w' = heap w ++ [k] ∧
    registry w' = registry w ∧ _root w' = _root w.
Proof. by eexists. Qed.

Lemma build_appender_run a w :
  is_Some (type a) → has_consoles w →
  ∃ q k w', build_appender a w = Ret q w' ∧ appender_sink a = Some k ∧ heap w' !! q = Some k ∧
    grows w w' ∧ registry w' = registry w.
Proof.
  intros [t Ht] [H0 H1]. unfold build_appender, appender_sink. rewrite Ht.
  assert (∀ k, ∃ q k' w', make_sink k w = Ret q w' ∧ Some k = Some k' ∧ heap w' !! q = Some k' ∧
    grows w w' ∧ registry w' = registry w) as Hmake.
  { intros k. eexists _, k, _. split_and!; [done|done| | |done]; cbn.
    - by rewrite lookup_app_r, Nat.sub_diag.
    - by exists [k]. }
  destruct t; try apply Hmake; (destruct (color a); [apply Hmake|]);
    (eexists _, _, w; split_and!; [done|done|done|unfold grows; reflexivity|done]).
Qed.

Lemma grows_lookup w w' q k : grows w w' → heap w !! q = Some k → heap w' !! q = Some k.
Proof. intros [t Ht] H. rewrite Ht. by apply lookup_app_l_Some. Qed.

Lemma grows_consoles w w' : grows w w' → has_consoles w → has_consoles w'.
Proof. intros Hg [H0 H1]. split; by eapply grows_lookup. Qed.

Lemma grows_refl w : grows w w.
Proof. unfold grows. reflexivity. Qed.

Lemma grows_trans w1 w2 w3 : grows w1 w2 → grows w2 w3 → grows w1 w3.
Proof. unfold grows. intros. by transitivity (heap w2). Qed.

Lemma grows_leads w w' cfg n p : grows w w' → leads_to w cfg n p → leads_to w' cfg n p.
Proof.
  intros Hg. unfold leads_to. destruct (_ !! n); [|done].
  intros (q & k & -> & Hk & Hq). exists q, k. split_and!; [done|done|by eapply grows_lookup].
Qed.

Lemma grows_logs w w' cfg l p : grows w w' → logs_to w cfg l p → logs_to w' cfg l p.
Proof.
  intros Hg. unfold logs_to. destruct (appenders_of l) as [|n [|n' ns]]; [done|by apply grows_leads|].
  intros (q & ps & -> & Hq & Hf). exists q, ps. split_and!; [done|by eapply grows_lookup|].
  eapply Forall2_impl; [exact Hf|]. intros. by eapply grows_leads.
Qed.

(** The first loop: every entry of [results] leads to the sink of its appender. *)
Definition results_ok (w : Process) (done_ : list (bytes * Appender)) (results : gmap bytes nat) : Prop :=
  ∀ n, match (list_to_map done_ : gmap bytes Appender) !! n with
       | Some a => ∃ q k, results !! n = Some q ∧ appender_sink a = Some k ∧ heap w !! q = Some k
       | None => results !! n = None
       end.

Lemma build_appenders_run l d results w :
  NoDup (d ++ l).*1 → Forall (λ x, is_Some (type x.2)) l → has_consoles w → results_ok w d results →
  ∃ results' w', build_appenders l results w = Ret results' w' ∧ results_ok w' (d ++ l) results' ∧
    grows w w' ∧ registry w' = registry w.
Proof.
  revert d results w. induction l as [|[n a] l IH]; intros d results w Hnd Hl Hc Hr; cbn [build_appenders].
  - exists results, w. rewrite app_nil_r. split_and!; [done|done|apply grows_refl|done].
  - apply Forall_cons in Hl as [Ha Hl]. cbn in Ha.
    destruct (build_appender_run a w Ha Hc) as (q & k & w1 & E & Hk & Hq & Hg & Hreg).
    rewrite (bind_ret _ _ _ _ _ E).
    destruct (IH (d ++ [(n, a)]) (<[n:=q]> results) w1) as (results' & w' & E' & Hr' & Hg' & Hreg').
    + by rewrite <-app_assoc.
    + done.
    + by eapply grows_consoles.
    + assert (n ∉ d.*1) as Hn.
      { rewrite fmap_app in Hnd. apply NoDup_app in Hnd as (_ & Hnd & _). intros Hin.
        apply (Hnd n Hin). by left. }
      intros m. rewrite list_to_map_snoc by done. destruct (decide (m = n)) as [->|Hne].
      * rewrite lookup_insert_eq. exists q, k. by rewrite lookup_insert_eq.
      * rewrite !lookup_insert_ne by done. specialize (Hr m). destruct (_ !! m); [|done].
        destruct Hr as (q' & k' & H1 & H2 & H3). exists q', k'. split_and!; [done|done|by eapply grows_lookup].
    + exists results', w'. rewrite <-app_assoc in Hr'. split_and!; [done|done|by eapply grows_trans|congruence].
Qed.

Lemma logger_sink_run cfg results l w :
  results_ok w (appenders cfg) results →
  ∃ p w', logger_sink results l w = Ret p w' ∧ logs_to w' cfg l p ∧ grows w w' ∧
    registry w' = registry w.
Proof.
  intros Hr.
  assert (∀ n, leads_to w cfg n (results !! n)) as Hl.
  { intros n. specialize (Hr n). unfold leads_to. destruct (_ !! n); [|done].
    destruct Hr as (q & k & -> & Hk & Hq). by exists q, k. }
  unfold logger_sink, logs_to. destruct (appenders_of l) as [|n [|n' ns]].
  - exists None, w. split_and!; [done|done|apply grows_refl|done].
  - exists (results !! n), w. split_and!; [done|apply Hl|apply grows_refl|done].
  - set (ps := (λ a, results !! a) <$> n :: n' :: ns).
    destruct (make_sink_run (dist_sink ps) w) as (w' & E & Hh & Hreg & Hroot).
    assert (grows w w') as Hg by (unfold grows; rewrite Hh; by eexists).
    exists (Some (length (heap w))), w'. unfold fmap, prog_fmap. rewrite (bind_ret _ _ _ _ _ E).
    split_and!; [done| |done|done]. eexists _, ps. split_and!; [done| |].
    + by rewrite Hh, lookup_app_r, Nat.sub_diag.
    + unfold ps. apply Forall2_fmap_r. apply Forall_Forall2_diag, Forall_forall.
      intros m _. by eapply grows_leads.
Qed.

Lemma create_loggers_run cfg results ls w :
  results_ok w (appenders cfg) results → NoDup ls.*1 → (∀ n, n ∈ ls.*1 → registry w !! n = None) →
  ∃ w', create_loggers results ls w = Ret tt w' ∧ grows w w' ∧
    (∀ n l, (n, l) ∈ ls → registered w' cfg n l) ∧
    (∀ n, n ∉ ls.*1 → registry w' !! n = registry w !! n).
Proof.
  revert w. induction ls as [|[n l] ls IH]; intros w Hr Hnd Hfree; cbn [create_loggers].
  - exists w. split_and!; [done|apply grows_refl| |done]. by intros ?? ?%not_elem_of_nil.
  - apply NoDup_cons in Hnd as [Hn Hnd]. change (n ∉ ls.*1) in Hn.
    destruct (logger_sink_run cfg results l w Hr) as (p & w1 & E & Hp & Hg & Hreg).
    set (lg := mk_logger n [p] (read_level (level l)) (format l) lvl_err).
    set (w2 := mk_process (heap w1) (<[n:=lg]> (registry w1)) (_root w1)).
    assert (create_logger results n l w = Ret tt w2) as E2.
    { unfold create_logger. rewrite (bind_ret _ _ _ _ _ E). unfold register_logger. cbn.
      rewrite Hreg, Hfree by (by left). by rewrite <-Hreg. }
    rewrite (bind_ret _ _ _ _ _ E2).
    assert (grows w w2) as Hg2 by exact Hg.
    destruct (IH w2) as (w' & E' & Hg' & Hin & Hout).
    + intros m. specialize (Hr m). destruct (_ !! m); [|done].
      destruct Hr as (q & k & H1 & H2 & H3). exists q, k. split_and!; [done|done|by eapply grows_lookup].
    + done.
    + intros m Hm. cbn. rewrite lookup_insert_ne by (intros ->; done). rewrite Hreg. apply Hfree. by right.
    + exists w'. split_and!; [done|by eapply grows_trans| |].
      * intros m lm [Heq|Hm]%elem_of_cons; [|by apply Hin]. simplify_eq.
        exists p. split; [rewrite Hout by done; cbn; by rewrite lookup_insert_eq|].
        eapply grows_logs; [exact Hg'|]. exact Hp.
      * intros m Hm. rewrite Hout by (intros ?; apply Hm; by right). cbn.
        rewrite lookup_insert_ne by (intros ->; apply Hm; by left). by rewrite Hreg.
Qed.

Lemma Start_run cfg w :
  valid cfg → has_consoles w → registry w = ∅ → lit "root" ∈ (loggers cfg).*1 →
  ∃ w', Start cfg w = Ret tt w' ∧ (∀ n l, (n, l) ∈ loggers cfg → registered w' cfg n l) ∧
    (∀ n, n ∉ (loggers cfg).*1 → registry w' !! n = None) ∧
    _root w' = registry w' !! lit "root" ∧ is_Some (_root w') ∧ has_consoles w'.
Proof.
  intros (Ha & Hl & Ht) Hc He Hroot. unfold Start.
  destruct (build_appenders_run (appenders cfg) [] ∅ w Ha Ht Hc) as (res & w1 & E1 & Hr & Hg1 & Hreg1).
  { intros n. cbn. by rewrite !lookup_empty. }
  rewrite (bind_ret _ _ _ _ _ E1).
  destruct (create_loggers_run cfg res (loggers cfg) w1 Hr Hl) as (w2 & E2 & Hg2 & Hin & Hout).
  { intros n _. by rewrite Hreg1, He, lookup_empty. }
  rewrite (bind_ret _ _ _ _ _ E2).
  revert Hroot. generalize (lit "root"). intros root Hroot.
  assert (is_Some (registry w2 !! root)) as [r Er].
  { apply list_elem_of_fmap in Hroot as ([n l] & Hn & Hnl). cbn in Hn. rewrite Hn.
    destruct (Hin n l Hnl) as (p & -> & _). eauto. }
  assert (spdlog_get root w2 = Ret (Some r) w2) as E3 by (unfold spdlog_get, gets; f_equal; exact Er).
  rewrite (bind_ret _ _ _ _ _ E3). eexists. split; [reflexivity|]. split_and!.
  - intros n l Hnl. destruct (Hin n l Hnl) as (p & Hp & Hlog). exists p. split; [done|].
    by apply (grows_logs w2); [apply (grows_refl w2)|].
  - intros n Hn. cbn. rewrite Hout, Hreg1, He by done. apply lookup_empty.
  - cbn. by rewrite Er.
  - done.
  - apply (grows_consoles w2); [apply (grows_refl w2)|]. eapply grows_consoles; [exact Hg2|].
    by eapply grows_consoles.
Qed.

(** A second start in the same process meets its own loggers. *)
Lemma create_loggers_again results ls w n l :
  (n, l) ∈ ls → is_Some (registry w !! n) → NoDup ls.*1 →
  ∃ w', create_loggers results ls w = Throw "logger already exists" w'.
Proof.
  intros Hin. revert w. induction ls as [|[m k] ls IH]; [by apply not_elem_of_nil in Hin|].
  intros w Hreg Hnd. cbn [create_loggers].
  assert (∃ p w1, logger_sink results k w = Ret p w1 ∧ registry w1 = registry w) as (p & w1 & E & Hr).
  { unfold logger_sink. destruct (appenders_of k) as [|? [|??]]; by do 2 eexists. }
  destruct (registry w !! m) as [lg|] eqn:Em.
  - eexists. unfold create_logger. apply bind_throw. rewrite (bind_ret _ _ _ _ _ E).
    unfold register_logger. cbn. by rewrite Hr, Em.
  - set (w2 := mk_process (heap w1)
      (<[m:=mk_logger m [p] (read_level (level k)) (format k) lvl_err]> (registry w1)) (_root w1)).
    assert (create_logger results m k w = Ret tt w2) as E2.
    { unfold create_logger. rewrite (bind_ret _ _ _ _ _ E). unfold register_logger. cbn. rewrite Hr, Em.
      unfold w2. by rewrite Hr. }
    rewrite (bind_ret _ _ _ _ _ E2). apply NoDup_cons in Hnd as [Hm Hnd].
    apply elem_of_cons in Hin as [Hin|Hin]; [simplify_eq; destruct Hreg as [? Hreg]; congruence|].
    apply IH; [done| |done]. cbn. destruct (decide (m = n)) as [->|Hne].
    + rewrite lookup_insert_eq. eauto.
    + by rewrite lookup_insert_ne, Hr by done.
Qed.

(** ** Selecting *)

(** The names [select] asks for: the name itself and its nonempty dotted prefixes. *)
Definition ancestor (p n : bytes) : Prop := p = n ∨ p ≠ [] ∧ ∃ t, n = p ++ DOT :: t.

Lemma before_last_dot_spec s :
  match before_last_dot s with
  | Some t => ∃ u, s = t ++ DOT :: u ∧ DOT ∉ u
  | None => DOT ∉ s
  end.
Proof.
  induction s as [|c s IH]; cbn [before_last_dot]; [by apply not_elem_of_nil|].
  destruct (before_last_dot s) as [t|].
  - destruct IH as (u & -> & Hu). by exists u.
  - destruct (decide (c = DOT)) as [->|Hc]; [by exists s|]. by apply not_elem_of_cons.
Qed.

Lemma dot_prefix t u q v : t ++ DOT :: u = q ++ DOT :: v → DOT ∉ u → q = t ∨ ∃ z, t = q ++ DOT :: z.
Proof.
  revert q. induction t as [|c t IH]; intros [|d q] H Hu; cbn in H; simplify_eq.
  - by left.
  - exfalso. apply Hu. set_solver.
  - right. by exists t.
  - destruct (IH q) as [->|[z ->]]; [done|done|by left|right; by exists z].
Qed.

Lemma ancestor_parent q n :
  ancestor q n ↔ q = n ∨ parent_name n ≠ [] ∧ ancestor q (parent_name n).
Proof.
  unfold ancestor, parent_name. pose proof (before_last_dot_spec n) as Hn.
  destruct (before_last_dot n) as [t|]; cbn.
  - destruct Hn as (u & -> & Hu). split.
    + intros [->|[Hq [v Hv]]]; [by left|right].
      destruct (dot_prefix _ _ _ _ Hv Hu) as [->|[z ->]]; [by eauto|].
      split; [by destruct q|]. eauto.
    + intros [->|[Ht [->|[Hq [v ->]]]]]; [by left|eauto|].
      right. split; [done|]. exists (v ++ DOT :: u). by rewrite <-app_assoc.
  - split; [|by intros [->|[]]; [left|]]. intros [->|[_ [v ->]]]; [by left|]. exfalso. set_solver.
Qed.

Lemma parent_shorter n : parent_name n ≠ [] → length (parent_name n) < length n.
Proof.
  unfold parent_name. pose proof (before_last_dot_spec n) as Hn. destruct (before_last_dot n) as [t|]; [|done].
  destruct Hn as (u & -> & _). cbn. rewrite length_app. cbn. lia.
Qed.

Lemma ancestor_length p n : ancestor p n → length p ≤ length n.
Proof. intros [->|[_ [t ->]]]; [done|]. rewrite length_app. lia. Qed.

(** The logger of the longest registered ancestor, or the root. *)
Definition selected (w : Process) (n : bytes) (r : option logger) : Prop :=
  (∃ p, ancestor p n ∧ r = registry w !! p ∧ is_Some r ∧
     ∀ q, ancestor q n → is_Some (registry w !! q) → length q ≤ length p) ∨
  (r = _root w ∧ ∀ q, ancestor q n → registry w !! q = None).

Lemma select_loop_run fuel n w :
  length n < fuel → ∃ r, select_loop fuel n w = Ret r w ∧ selected w n r.
Proof.
  revert n. induction fuel as [|fuel IH]; intros n Hf; [lia|]. cbn [select_loop].
  assert (spdlog_get n w = Ret (registry w !! n) w) as E by done.
  rewrite (bind_ret _ _ _ _ _ E). destruct (registry w !! n) as [l|] eqn:En.
  - eexists. split; [done|]. left. exists n. rewrite En. split_and!; [by left|done|by eexists|].
    intros q Hq _. by apply ancestor_length.
  - cbn zeta. destruct (decide (parent_name n = [])) as [Hp|Hp].
    + rewrite Hp. eexists. split; [done|]. right. split; [done|].
      intros q [->|[Hne _]]%ancestor_parent; done.
    + pose proof (parent_shorter n Hp) as Hlt. destruct (IH (parent_name n)) as (r & Er & Hr); [lia|].
      exists r. split; [destruct (parent_name n); [done|exact Er]|].
      destruct Hr as [(p & Ha & -> & Hs & Hmax)|[-> Hno]]; [left; exists p|right].
      * split_and!; [apply ancestor_parent; by right|done|done|].
        intros q [->|[_ Hq]]%ancestor_parent Hq'; [by rewrite En in Hq'; destruct Hq'|by apply Hmax].
      * split; [done|]. intros q [->|[_ Hq]]%ancestor_parent; [done|by apply Hno].
Qed.

(** [select] terminates and finds the logger of the longest dotted prefix. *)
Theorem select_longest n w : ∃ r, select n w = Ret r w ∧ selected w n r.
Proof. apply select_loop_run. lia. Qed.

(** ** Patterns *)

(** A pattern in pieces: characters, the flags of spdlog, and the two uses of "%X". *)
Inductive piece : Type :=
| Plain (c : ascii)
| Flag (d : ascii)
| XFlag (e : ascii)
| Mdc (key : bytes).

Definition print_piece (p : piece) : bytes :=
  match p with
  | Plain c => [c]
  | Flag d => [PCT; d]
  | XFlag e => [PCT; X_; e]
  | Mdc key => [PCT; X_; OPEN] ++ key ++ [CLOSE]
  end.

Definition good_piece (p : piece) : Prop :=
  match p with
  | Plain c => c ≠ PCT
  | Flag d => d ≠ X_
  | XFlag e => e ≠ OPEN
  | Mdc key => CLOSE ∉ key ∧ PCT ∉ key
  end.

(** What the piece becomes: a known key loses its braces, an unknown one gains one. *)
Definition expand_piece (mdc : gmap bytes bytes) (p : piece) : bytes :=
  match p with
  | Mdc key => match mdc !! key with
               | Some _ => key
               | None => [PCT; X_; OPEN; OPEN] ++ key ++ [CLOSE]
               end
  | p => print_piece p
  end.

Definition print_pattern (ps : list piece) : bytes := mjoin (print_piece <$> ps).

Lemma print_pattern_cons p ps : print_pattern (p :: ps) = print_piece p ++ print_pattern ps.
Proof. done. Qed.

Lemma find_char_first c s t : c ∉ s → find_char c (s ++ c :: t) = Some (s, c :: t).
Proof.
  induction s as [|d s IH]; cbn; intros Hc.
  - by rewrite decide_True.
  - apply not_elem_of_cons in Hc as [Hd Hs]. rewrite decide_False by done. by rewrite IH.
Qed.

(** Output in front of a result. *)
Definition prepend (o : bytes) (R : res Process bytes) : res Process bytes :=
  match R with Ret r u => Ret (o ++ r) u | R => R end.

Lemma prepend_run (m : prog Process bytes) o w R : m w = R → ((λ t, o ++ t) <$> m) w = prepend o R.
Proof. intros <-. unfold fmap, prog_fmap, mbind, prog_bind. by destruct (m w). Qed.

Lemma prepend_app o1 o2 R : prepend o1 (prepend o2 R) = prepend (o1 ++ o2) R.
Proof. destruct R; [|done..]. cbn. by rewrite app_assoc. Qed.

(** Prefix [s] is copied to the output [o]. *)
Definition copies (mdc : gmap bytes bytes) (s o : bytes) : Prop :=
  ∀ t w R, (∀ fuel, length t < fuel → expand fuel mdc t w = R) →
    ∀ fuel, length (s ++ t) < fuel → expand fuel mdc (s ++ t) w = prepend o R.

Lemma copies_app mdc s1 o1 s2 o2 :
  copies mdc s1 o1 → copies mdc s2 o2 → copies mdc (s1 ++ s2) (o1 ++ o2).
Proof.
  intros H1 H2 t w R Ht. rewrite <-app_assoc, <-prepend_app. apply H1. by apply H2.
Qed.

Lemma copies_nil mdc : copies mdc [] [].
Proof. intros t w R Ht fuel Hf. cbn [app] in *. rewrite (Ht fuel Hf). by destruct R. Qed.

Lemma copies_plain mdc c : c ≠ PCT → copies mdc [c] [c].
Proof.
  intros Hc t w R Ht [|fuel] Hf; [lia|]. cbn [expand app]. rewrite bool_decide_eq_false_2 by done.
  cbn [negb]. apply (prepend_run _ [c]), Ht. cbn in Hf. lia.
Qed.

Lemma copies_plains mdc s : PCT ∉ s → copies mdc s s.
Proof.
  induction s as [|c s IH]; intros Hs; [apply copies_nil|]. apply not_elem_of_cons in Hs as [Hc Hs].
  apply (copies_app _ [c] [c]); [by apply copies_plain|by apply IH].
Qed.

Lemma copies_piece mdc p : good_piece p → copies mdc (print_piece p) (expand_piece mdc p).
Proof.
  destruct p as [c|d|e|key]; intros Hp; [by apply copies_plain| | |];
    intros t w R Ht [|fuel] Hf; try lia; cbn in Hf; cbn [expand_piece print_piece app expand].
  - rewrite bool_decide_eq_true_2 by done. cbn [negb]. rewrite bool_decide_eq_false_2 by done.
    cbn [negb]. apply (prepend_run _ [PCT; d]), Ht. lia.
  - rewrite !bool_decide_eq_true_2 by done. cbn [negb]. rewrite bool_decide_eq_false_2 by done.
    cbn [negb]. apply (prepend_run _ [PCT; X_; e]), Ht. lia.
  - destruct Hp as [Hc Hk]. rewrite !bool_decide_eq_true_2 by done. cbn [negb]. rewrite <-app_assoc.
    cbn [app]. change (OPEN :: key ++ CLOSE :: t) with ((OPEN :: key) ++ CLOSE :: t).
    rewrite find_char_first by (apply not_elem_of_cons; by split). cbn [tail].
    rewrite length_app in Hf. cbn in Hf. rewrite length_app in Hf. cbn in Hf.
    destruct (mdc !! key).
    + apply prepend_run, Ht. lia.
    + change (PCT :: X_ :: OPEN :: OPEN :: key ++ [CLOSE])
        with ([PCT; X_; OPEN; OPEN] ++ (key ++ [CLOSE])).
      rewrite <-prepend_app. apply (prepend_run _ [PCT; X_; OPEN; OPEN]).
      pose proof (copies_app mdc key key [CLOSE] [CLOSE] (copies_plains _ _ Hk)
        (copies_plain mdc CLOSE ltac:(done)) t w R Ht fuel) as E.
      rewrite <-app_assoc in E. apply E. rewrite length_app. cbn. lia.
Qed.

Lemma expand_pieces mdc ps : Forall good_piece ps →
  copies mdc (print_pattern ps) (mjoin (expand_piece mdc <$> ps)).
Proof.
  induction 1 as [|p ps Hp _ IH]; [apply copies_nil|].
  rewrite print_pattern_cons. change (mjoin (expand_piece mdc <$> p :: ps))
    with (expand_piece mdc p ++ mjoin (expand_piece mdc <$> ps)).
  apply copies_app; [by apply copies_piece|done].
Qed.

(** What [create] does with the pattern [good pieces ++ t]. *)
Lemma create_run n mdc w base ps t R :
  select n w = Ret (Some base) w → pattern base = print_pattern ps ++ t → Forall good_piece ps →
  (∀ fuel, length t < fuel → expand fuel mdc t w = R) →
  create n mdc w = match prepend (mjoin (expand_piece mdc <$> ps)) R with
                   | Ret ss w => Ret (mk_logger (name base) (sinks_of base) (lvl base) ss lvl_err) w
                   | Throw e w => Throw e w | Undef u => Undef u | NoFuel => NoFuel
                   end.
Proof.
  intros Hs Hp Hg Ht. unfold create. rewrite (bind_ret _ _ _ _ _ Hs). cbn [the].
  change ((mret base : prog Process logger) ≫= ?k) with (k base). cbn beta.
  rewrite <-(expand_pieces mdc ps Hg t w R Ht (length (pattern base) + 1)) by (rewrite Hp; lia).
  rewrite <-Hp. unfold mbind, prog_bind. by destruct (expand _ _ _ w).
Qed.

(** [create] copies the base logger and expands its pattern piece by piece. *)
Theorem create_pattern n mdc w base ps :
  select n w = Ret (Some base) w → pattern base = print_pattern ps → Forall good_piece ps →
  create n mdc w = Ret (mk_logger (name base) (sinks_of base) (lvl base)
    (mjoin (expand_piece mdc <$> ps)) lvl_err) w.
Proof.
  intros Hs Hp Hg. rewrite (create_run n mdc w base ps [] (Ret [] w)); [|done| |done|].
  - cbn [prepend]. by rewrite app_nil_r.
  - by rewrite app_nil_r.
  - by intros [|f] Hf; [cbn in Hf; lia|].
Qed.

(** A pattern that ends in "%" or "%X" takes the iterator behind the end. *)
Theorem create_dangling n mdc w base ps t :
  select n w = Ret (Some base) w → pattern base = print_pattern ps ++ t → Forall good_piece ps →
  t = [PCT] ∨ t = [PCT; X_] →
  create n mdc w = Undef OutOfBounds.
Proof.
  intros Hs Hp Hg Ht. rewrite (create_run n mdc w base ps t (Undef OutOfBounds)); [done..|].
  destruct Ht as [-> | ->]; by intros [|f] Hf; [cbn in Hf; lia|].
Qed.

(** ** Reopening *)

Section reopen.
Context (h0 : list sink).

Definition reopened_ (k : sink) : sink :=
  match k with rotate_file_sink f b n => rotate_file_sink f b (n + 1) | k => k end.

(** The heap after the sinks in [seen] have been handled. *)
Definition marked (seen : gset (option nat)) : list sink :=
  imap (λ a k, if decide (Some a ∈ seen) then reopened_ k else k) h0.

Lemma marked_lookup seen a :
  marked seen !! a = (λ k, if decide (Some a ∈ seen) then reopened_ k else k) <$> h0 !! a.
Proof. unfold marked. by rewrite list_lookup_imap. Qed.

Lemma marked_unseen seen a : Some a ∉ seen → marked seen !! a = h0 !! a.
Proof. intros Ha. rewrite marked_lookup. destruct (h0 !! a); [|done]. cbn. by rewrite decide_False. Qed.

Lemma reopen_marked seen a :
  Some a ∉ seen → reopen_sink a (marked seen) = marked ({[Some a]} ∪ seen).
Proof.
  intros Ha. apply list_eq. intros b. rewrite marked_lookup.
  unfold reopen_sink. pose proof (marked_unseen seen a Ha) as E.
  destruct (decide (b = a)) as [->|Hb].
  - destruct (h0 !! a) as [k|]; rewrite E; cbn; rewrite ?decide_True by set_solver.
    + destruct k; cbn; try exact E. apply list_lookup_insert_eq. by eapply lookup_lt_Some.
    + exact E.
  - assert (∀ k, <[a:=k]> (marked seen) !! b = marked seen !! b) as Hins
      by (intros; by apply list_lookup_insert_ne).
    transitivity (marked seen !! b).
    + destruct (marked seen !! a) as [[]|]; try done; apply Hins.
    + rewrite marked_lookup. destruct (h0 !! b); [|done]. cbn. f_equal.
      destruct (decide (Some b ∈ seen)); [by rewrite decide_True by set_solver|].
      by rewrite decide_False by set_solver.
Qed.

(** Pointers still to come out of sinks not yet seen. *)
Fixpoint pending (seen : gset (option nat)) (i : nat) (h : list sink) : nat :=
  match h with
  | [] => 0
  | k :: h => (if decide (Some i ∈ seen) then 0 else length (children k)) + pending seen (i + 1) h
  end.

Lemma pending_mono seen p i h : pending ({[p]} ∪ seen) i h ≤ pending seen i h.
Proof.
  revert i. induction h as [|k h IH]; intros i; cbn [pending]; [done|]. specialize (IH (i + 1)).
  destruct (decide (Some i ∈ seen)); [rewrite decide_True by set_solver; lia|].
  destruct (decide _); lia.
Qed.

Lemma pending_seen seen a i h k :
  h !! a = Some k → Some (i + a) ∉ seen →
  pending ({[Some (i + a)]} ∪ seen) i h + length (children k) ≤ pending seen i h.
Proof.
  revert i a. induction h as [|k' h IH]; intros i [|a]; cbn; intros Ha Hs; [done..| |].
  - simplify_eq. rewrite Nat.add_0_r in *. rewrite decide_True by set_solver.
    rewrite decide_False by done. pose proof (pending_mono seen (Some i) (i + 1) h). lia.
  - replace (i + Datatypes.S a) with (i + 1 + a) in * by lia. specialize (IH (i + 1) a Ha Hs).
    destruct (decide (Some i ∈ seen)); [rewrite decide_True by set_solver; lia|].
    rewrite decide_False by (rewrite elem_of_union, elem_of_singleton; intros [?|?]; [simplify_eq; lia|done]).
    lia.
Qed.

Lemma pending_all i h : pending ∅ i h = length (mjoin (children <$> h)).
Proof.
  revert i. induction h as [|k h IH]; intros i; cbn [pending]; [done|].
  change (mjoin (children <$> k :: h)) with (children k ++ mjoin (children <$> h)).
  rewrite length_app, <-(IH (i + 1)). by rewrite decide_False by set_solver.
Qed.

(** The sinks the queue [roots] leads to. *)
Inductive reach (roots : list (option nat)) : option nat → Prop :=
| reach_root p : p ∈ roots → reach roots p
| reach_child a k p : reach roots (Some a) → h0 !! a = Some k → p ∈ children k → reach roots p.

(** The pointers are null or lead to sinks. *)
Definition valid_pointer (p : option nat) : Prop := ∀ a, p = Some a → is_Some (h0 !! a).

Definition closed_heap : Prop := ∀ a k p, h0 !! a = Some k → p ∈ children k → valid_pointer p.

Lemma reopen_loop_run (reg : gmap bytes logger) r (R : option nat → Prop) fuel queue seen :
  closed_heap → (∀ p, p ∈ queue → valid_pointer p ∧ R p) →
  (∀ a k p, R (Some a) → h0 !! a = Some k → p ∈ children k → R p) →
  length queue + pending seen 0 h0 < fuel →
  ∃ seen', reopen_loop fuel queue seen (mk_process (marked seen) reg r) = Ret tt (mk_process (marked seen') reg r) ∧
    seen ⊆ seen' ∧ (∀ p, p ∈ queue → p ∈ seen') ∧ (∀ p, p ∈ seen' → p ∈ seen ∨ R p) ∧
    (∀ a k p, Some a ∈ seen' → Some a ∉ seen → h0 !! a = Some k → p ∈ children k → p ∈ seen').
Proof.
  intros Hcl Hq HR. revert queue seen Hq. induction fuel as [|fuel IH]; intros queue seen Hq Hf; [lia|].
  cbn [reopen_loop]. destruct queue as [|p queue].
  { exists seen. split_and!; [done|done|by intros ? ?%not_elem_of_nil|by left|done]. }
  cbn in Hf. destruct (Hq p ltac:(by left)) as [Hv Hp].
  assert (∀ q, q ∈ queue → valid_pointer q ∧ R q) as Hq' by (intros; apply Hq; by right).
  destruct (decide (p ∈ seen)) as [Hs|Hs].
  { destruct (IH queue seen Hq') as (s & E & Hsub & Hqs & Hr & Hc); [lia|]. exists s.
    split_and!; [done|done| |done|done]. intros q [->|Hin]%elem_of_cons; [by apply Hsub|by apply Hqs]. }
  cbn zeta. pose proof (pending_mono seen p 0 h0) as Hmono. destruct p as [a|].
  2: { destruct (IH queue ({[None]} ∪ seen) Hq') as (s & E & Hsub & Hqs & Hr & Hc); [lia|]. exists s.
    assert (marked ({[None]} ∪ seen) = marked seen) as Hm.
    { apply list_eq. intros b. rewrite !marked_lookup. destruct (h0 !! b); [|done]. cbn. f_equal.
      destruct (decide (Some b ∈ seen)); [by rewrite decide_True by set_solver|].
      by rewrite decide_False by set_solver. }
    rewrite Hm in E. split_and!; [done|set_solver|set_solver| |].
    - intros q [Hin|?]%Hr; [|by right]. set_solver.
    - intros b k q H1 H2. apply Hc; [done|set_solver]. }
  destruct (Hv a eq_refl) as [k Hk].
  pose proof (marked_unseen seen a Hs) as Em. rewrite Hk in Em.
  pose proof (pending_seen seen a 0 h0 k Hk Hs) as Hpend. rewrite Nat.add_0_l in Hpend.
  destruct (IH (queue ++ children k) ({[Some a]} ∪ seen)) as (s & E & Hsub & Hqs & Hr & Hc).
  { intros q [?|Hin]%elem_of_app; [by apply Hq'|]. split; [by eapply Hcl|by eapply HR]. }
  { rewrite length_app. lia. }
  exists s. split_and!.
  - rewrite <-E, <-reopen_marked by done. unfold get. unfold mbind at 1, prog_bind at 1. cbn beta iota.
    cbn [heap]. rewrite Em. destruct k; cbn [children]; rewrite ?app_nil_r; try done.
    unfold reopen_sink. by rewrite Em.
  - set_solver.
  - intros q [->|Hin]%elem_of_cons; [set_solver|]. apply Hqs, elem_of_app. by left.
  - intros q [Hin|?]%Hr; [|by right]. apply elem_of_union in Hin as [->%elem_of_singleton|]; [by right|by left].
  - intros b k' q H1 H2 H3 H4. destruct (decide (b = a)) as [->|Hb].
    + simplify_eq. apply Hqs, elem_of_app. by right.
    + eapply Hc; [done| |done|done]. rewrite elem_of_union, elem_of_singleton. intros [?|?]; [congruence|done].
Qed.
End reopen.

(** The sinks of the registered loggers. *)
Definition log_sinks (w : Process) : list (option nat) :=
  mjoin ((λ x, sinks_of x.2) <$> map_to_list (registry w)).

(** [reopen_all] terminates, however the sinks refer to each other, and reopens every file
    sink that a registered logger leads to exactly once, and no other. *)
Theorem reopen_all_once w :
  closed_heap (heap w) → Forall (valid_pointer (heap w)) (log_sinks w) →
  ∃ w', reopen_all w = Ret tt w' ∧ registry w' = registry w ∧ _root w' = _root w ∧
    ∀ a k, heap w !! a = Some k →
      (reach (heap w) (log_sinks w) (Some a) → heap w' !! a = Some (reopened_ k)) ∧
      (¬ reach (heap w) (log_sinks w) (Some a) → heap w' !! a = Some k).
Proof.
  intros Hcl Hv. rewrite Forall_forall in Hv.
  destruct (reopen_loop_run (heap w) (registry w) (_root w) (reach (heap w) (log_sinks w))
    (length (log_sinks w) + length (mjoin (children <$> heap w)) + 1) (log_sinks w) ∅)
    as (s & E & _ & Hq & Hr & Hc).
  - done.
  - intros p Hp. split; [by apply Hv|by constructor].
  - intros. by econstructor.
  - rewrite pending_all. lia.
  - assert (marked (heap w) ∅ = heap w) as Hm.
    { apply list_eq. intros b. rewrite marked_lookup. by destruct (heap w !! b). }
    rewrite Hm in E. exists (mk_process (marked (heap w) s) (registry w) (_root w)).
    split_and!; [|done|done|].
    + unfold reopen_all, get. unfold mbind at 1, prog_bind at 1. cbn zeta beta iota.
      rewrite <-E. by destruct w.
    + assert (∀ p, reach (heap w) (log_sinks w) p → p ∈ s) as Hrs.
      { induction 1 as [p Hp|a k p _ IH Hk Hp]; [by apply Hq|]. eapply Hc; [exact IH|set_solver|done|done]. }
      intros a k Hk. cbn [heap]. rewrite marked_lookup, Hk. cbn. split.
      * intros Ha. by rewrite decide_True by (by apply Hrs).
      * intros Ha. rewrite decide_False; [done|]. intros [?%not_elem_of_empty|]%Hr; done.
Qed.

(** ** The service as a whole *)

(** A valid configuration with a root logger starts in a fresh process: every configured
    logger, and no other, is registered with its level, its format and the sinks of its
    appenders; starting a second time throws. *)
Theorem service_starts cfg :
  valid cfg → lit "root" ∈ (loggers cfg).*1 →
  ∃ w, Start cfg new_process = Ret tt w ∧ (∀ n l, (n, l) ∈ loggers cfg → registered w cfg n l) ∧
    (∀ n, n ∉ (loggers cfg).*1 → registry w !! n = None) ∧
    _root w = registry w !! lit "root" ∧ is_Some (_root w) ∧
    ∃ w', Start cfg w = Throw "logger already exists" w'.
Proof.
  intros Hv Hroot. destruct (Start_run cfg new_process Hv) as (w & E & Hin & Hout & Hr & Hs & Hc); [done..|].
  exists w. split_and!; [done..|]. destruct Hv as (Ha & Hl & Ht).
  destruct (build_appenders_run (appenders cfg) [] ∅ w Ha Ht Hc) as (res & w1 & E1 & _ & _ & Hreg1).
  { intros n. cbn. by rewrite !lookup_empty. }
  revert Hroot Hr. generalize (lit "root"). intros root Hroot Hr.
  apply list_elem_of_fmap in Hroot as ([n l] & Hn & Hnl). cbn in Hn. subst n.
  destruct (create_loggers_again res (loggers cfg) w1 root l Hnl) as (w2 & E2); [|done|].
  { rewrite Hreg1, <-Hr. done. }
  exists w2. unfold Start. rewrite (bind_ret _ _ _ _ _ E1). by rewrite (bind_throw _ _ _ _ _ E2).
Qed.

(** The logger and the process that the configuration of [main] leads to. *)
Definition main_logger (lv : Level) : logger :=
  mk_logger (lit "root") [Some 2] (read_level lv) (lit "[%H:%M:%S %z] [thread %t] [%n] [%l] %v") lvl_err.
Definition main_process (lv : Level) : Process :=
  mk_process [stdout_sink; stderr_sink; ansicolor_sink stdout_instance]
    {[lit "root" := main_logger lv]} (Some (main_logger lv)).

Lemma main_config_start lv : Start (main_config lv) new_process = Ret tt (main_process lv).
Proof. vm_compute. reflexivity. Qed.

Lemma main_process_select lv n : select n (main_process lv) = Ret (Some (main_logger lv)) (main_process lv).
Proof.
  destruct (select_loop_run (length n + 1) n (main_process lv)) as (x & E & Hx); [lia|].
  unfold select. rewrite E. destruct Hx as [(p & _ & Hx & Hs & _)|[-> _]]; [|done].
  f_equal. rewrite Hx. cbn [registry main_process] in *. rewrite Hx in Hs. destruct Hs as [y Hy].
  rewrite Hy. by apply lookup_singleton_Some in Hy as [_ <-].
Qed.

(** What [main] configures starts, and from then on every name is logged to one logger
    on the standard output, of the level that was asked for, with its pattern unchanged. *)
Theorem configured_service o app w0 w1 :
  Configure o w0 = Ret app w1 →
  ∃ lv w, logger_level (default (lit "warn") (opt_logger o)) = Some lv ∧
    Start (logConfig app) new_process = Ret tt w ∧
    heap w !! 2 = Some (ansicolor_sink stdout_instance) ∧
    ∀ n mdc, create n mdc w = Ret (main_logger lv) w.
Proof.
  unfold Configure. destruct (logger_level _) as [lv|] eqn:El; [|done]. intros H.
  assert (logConfig app = main_config lv) as ->.
  { apply bind_inv in H as (s & w2 & _ & H). apply bind_inv in H as (s' & w3 & _ & H).
    by injection H as <- _. }
  exists lv, (main_process lv). split_and!; [done|apply main_config_start|done|].
  intros n mdc. unfold create. rewrite (bind_ret _ _ _ _ _ (main_process_select lv n)). cbn [the].
  change ((mret (main_logger lv) : prog Process logger) ≫= ?k) with (k (main_logger lv)). cbn beta.
  assert (expand (length (pattern (main_logger lv)) + 1) mdc (pattern (main_logger lv)) (main_process lv)
    = Ret (pattern (main_logger lv)) (main_process lv)) as Ee by (vm_compute; reflexivity).
  by rewrite (bind_ret _ _ _ _ _ Ee).
Qed.

(** *** Witnesses *)

Definition ex_config : Config := mk_Config
  [(lit "a", mk_Appender (Some FILE) false (lit "a.log") (-1) (-1) 0 0 [] 0 0);
   (lit "b", mk_Appender (Some STDERR) true [] (-1) (-1) 0 0 [] 0 0)]
  [(lit "net", mk_Logger INFO (lit "%X{conn}") [lit "a"; lit "b"]);
   (lit "root", mk_Logger WARNING (lit "%v") [lit "b"])].

Lemma service_starts_witness : ∃ w, Start ex_config new_process = Ret tt w.
Proof.
  destruct (service_starts ex_config) as (w & E & _).
  - split_and!; [apply (bool_decide_unpack _); vm_compute; reflexivity..|].
    repeat constructor; eexists; reflexivity.
  - apply (bool_decide_unpack _). vm_compute. reflexivity.
  - by exists w.
Defined.

Lemma configured_service_witness : ∃ w, ∀ n mdc,
  create n mdc w = Ret (main_logger INFO) w.
Proof.
  destruct (configured_service (mk_Options None None (Some (lit "info")))
    (mk_Application _ st_lru st_block) new_process new_process eq_refl) as (lv & w & El & _ & _ & H).
  vm_compute in El. injection El as <-. exists w. exact H.
Defined.

(** The process [Start] leaves for [ex_config]. *)
Definition ex_process : Process :=
  match Start ex_config new_process with Ret _ w => w | _ => new_process end.

Lemma create_pattern_witness :
  create (lit "net.st") {[lit "conn" := lit "42"]} ex_process
  = Ret (mk_logger (lit "net") [Some 4] lvl_info (lit "conn") lvl_err) ex_process.
Proof.
  refine (create_pattern (lit "net.st") {[lit "conn" := lit "42"]} ex_process
    (mk_logger (lit "net") [Some 4] lvl_info (lit "%X{conn}") lvl_err) [Mdc (lit "conn")] _ _ _).
  - vm_compute. reflexivity.
  - vm_compute. reflexivity.
  - constructor; [|constructor]. split; apply (bool_decide_unpack _); vm_compute; reflexivity.
Defined.

Lemma create_dangling_witness :
  create [] ∅ (mk_process [stdout_sink; stderr_sink] ∅ (Some (mk_logger [] [] lvl_info (lit "a%") lvl_err)))
  = Undef OutOfBounds.
Proof.
  refine (create_dangling [] ∅ _ (mk_logger [] [] lvl_info (lit "a%") lvl_err) [Plain "a"%char] [PCT] _ _ _ _).
  - reflexivity.
  - reflexivity.
  - constructor; [|constructor]. discriminate.
  - by left.
Defined.

(** A distribution sink that contains itself, and a file sink it shares with the logger. *)
Definition ex_cyclic : Process := mk_process
  [stdout_sink; rotate_file_sink (lit "a.log") false 0; dist_sink [Some 1; Some 2; None; Some 0]]
  {[lit "root" := mk_logger (lit "root") [Some 2; Some 1] lvl_info [] lvl_err]} None.

Lemma reopen_all_once_witness : ∃ w', reopen_all ex_cyclic = Ret tt w' ∧
  heap w' !! 1 = Some (rotate_file_sink (lit "a.log") false 1).
Proof.
  destruct (reopen_all_once ex_cyclic) as (w' & E & _ & _ & H).
  - intros a k p Hk Hp. destruct a as [|[|[|a]]]; cbn in Hk; simplify_eq; cbn in Hp; [by apply not_elem_of_nil in Hp..|].
    intros a ->. set_unfold. destruct Hp as [?|[?|[?|[?|[]]]]]; simplify_eq; eauto.
  - change (log_sinks ex_cyclic) with [Some 2; Some 1].
    repeat constructor; intros a ?; simplify_eq; cbn; eauto.
  - exists w'. split; [exact E|]. apply (H 1 (rotate_file_sink (lit "a.log") false 0)); [done|].
    constructor. change (log_sinks ex_cyclic) with [Some 2; Some 1]. by right; left.
Defined.
