(* ===== verification/HwSort.v ===== *)
(** * Sorting in coroutines

    Model of src/sysprog/1/hw_sort.cpp: every file is sorted by a coroutine that runs a
    quicksort with a stack of its own and gives the processor away after every line; the
    sorted arrays are merged and printed.  A coroutine is a program counter and the
    variables of its [struct task]; [setjmp] and [longjmp] store and resume it. *)

From S2P Require Import Prelude.
From stdpp Require Import sorting.

Local Open Scope Z_scope.

(** ** Arrays *)

(** [a\[k\]] *)
Definition at_ (a : list Z) (k : Z) : option Z :=
  if bool_decide (0 ≤ k) then a !! Z.to_nat k else None.

(** [a\[k\] = v] *)
Definition set_at (a : list Z) (k v : Z) : option (list Z) :=
  if bool_decide (0 ≤ k < Z.of_nat (length a)) then Some (<[Z.to_nat k := v]> a) else None.

(** A block of [calloc], which nobody else writes to. *)
Record block : Type := mk_block { addr : nat; cells : list Z }.

(** ** The coroutines *)

(** The next line of a coroutine, named after what the line does. *)
Inductive pc : Type :=
| begin | pop_h | pop_l | load_x | init_i | init_j
| compare | inc_i | load_t | store_i | store_j | inc_j
| pivot_store | pivot_swap | set_p
| left_top | left_l | left_top' | left_h
| right_test | right_top | right_l | right_top' | right_h
| inner_test | left_test | outer_test | wait.

Record task : Type := mk_task {
  env : pc;
  is_finished : bool;
  arr : block;
  stack : block;
  top : Z; l : Z; h : Z; x : Z; i : Z; j : Z; p : Z; t : Z; N : Z;
}.

(** What a coroutine does up to the next [check_resched]: [Ret false] when it gives the
    processor away, [Ret true] when it gets to the test of all [is_finished]. *)
Definition slice_res : Type := res task bool.

Definition read_ (a : block) (k : Z) (f : Z → slice_res) : slice_res :=
  match at_ (cells a) k with Some v => f v | None => Undef OutOfBounds end.
Definition write_ (a : block) (k v : Z) (f : block → slice_res) : slice_res :=
  match set_at (cells a) k v with Some c => f (mk_block (addr a) c) | None => Undef OutOfBounds end.

Definition yield (s : task) : slice_res := Ret false s.

(** [while (top >= 0)], and what follows the loop. *)
Definition outer_while (s : task) : slice_res :=
  let '(mk_task _ f a st tp l h x i j p t n) := s in
  if 0 <=? tp then yield (mk_task pop_h f a st tp l h x i j p t n)
  else Ret true (mk_task wait true a st tp l h x i j p t n).

(** [if (p + 1 < h)] *)
Definition right_if (s : task) : slice_res :=
  let '(mk_task _ f a st tp l h x i j p t n) := s in
  if p + 1 <? h then yield (mk_task right_top f a st tp l h x i j p t n) else outer_while s.

(** [if (p - 1 > l)] *)
Definition left_if (s : task) : slice_res :=
  let '(mk_task _ f a st tp l h x i j p t n) := s in
  if p - 1 >? l then yield (mk_task left_top f a st tp l h x i j p t n) else right_if s.

(** [while (j <= h - 1)], and the line after the loop. *)
Definition inner_while (s : task) : slice_res :=
  let '(mk_task _ f a st tp l h x i j p t n) := s in
  if j <=? h - 1 then yield (mk_task compare f a st tp l h x i j p t n)
  else read_ a (i + 1) (λ t, yield (mk_task pivot_store f a st tp l h x i j p t n)).

(** One turn of [q_sort_coro]. *)
Definition slice (s : task) : slice_res :=
  let '(mk_task c f a st tp l h x i j p t n) := s in
  match c with
  | begin => yield (mk_task outer_test f a st tp l h x i j p t n)
  | outer_test => outer_while s
  | pop_h => read_ st tp (λ h, yield (mk_task pop_l f a st (tp - 1) l h x i j p t n))
  | pop_l => read_ st tp (λ l, yield (mk_task load_x f a st (tp - 1) l h x i j p t n))
  | load_x => read_ a h (λ x, yield (mk_task init_i f a st tp l h x i j p t n))
  | init_i => yield (mk_task init_j f a st tp l h x (l - 1) j p t n)
  | init_j => yield (mk_task inner_test f a st tp l h x i l p t n)
  | inner_test => inner_while s
  | compare => read_ a j (λ v,
      if v <=? x then yield (mk_task inc_i f a st tp l h x i j p t n)
      else yield (mk_task inner_test f a st tp l h x i (j + 1) p t n))
  | inc_i => yield (mk_task load_t f a st tp l h x (i + 1) j p t n)
  | load_t => read_ a i (λ t, yield (mk_task store_i f a st tp l h x i j p t n))
  | store_i => read_ a j (λ v, write_ a i v (λ a, yield (mk_task store_j f a st tp l h x i j p t n)))
  | store_j => write_ a j t (λ a, yield (mk_task inc_j f a st tp l h x i j p t n))
  | inc_j => yield (mk_task inner_test f a st tp l h x i (j + 1) p t n)
  | pivot_store => read_ a h (λ v, write_ a (i + 1) v (λ a,
      yield (mk_task pivot_swap f a st tp l h x i j p t n)))
  | pivot_swap => write_ a h t (λ a, yield (mk_task set_p f a st tp l h x i j p t n))
  | set_p => yield (mk_task left_test f a st tp l h x i j (i + 1) t n)
  | left_test => left_if s
  | left_top => yield (mk_task left_l f a st (tp + 1) l h x i j p t n)
  | left_l => write_ st tp l (λ st, yield (mk_task left_top' f a st tp l h x i j p t n))
  | left_top' => yield (mk_task left_h f a st (tp + 1) l h x i j p t n)
  | left_h => write_ st tp (p - 1) (λ st, yield (mk_task right_test f a st tp l h x i j p t n))
  | right_test => right_if s
  | right_top => yield (mk_task right_l f a st (tp + 1) l h x i j p t n)
  | right_l => write_ st tp (p + 1) (λ st, yield (mk_task right_top' f a st tp l h x i j p t n))
  | right_top' => yield (mk_task right_h f a st (tp + 1) l h x i j p t n)
  | right_h => write_ st tp h (λ st, yield (mk_task outer_test f a st tp l h x i j p t n))
  | wait => Ret true s
  end.

(** The process: the coroutines, the one that runs, and the memory of [calloc]. *)
Record Process : Type := mk_process {
  tasks : list task;
  curT : nat;
  live : gset nat;
  next : nat;
}.

Definition set_tasks (ts : list task) (c : nat) (w : Process) : Process :=
  mk_process ts c (live w) (next w).

(** [q_sort_coro], as the switches of [check_resched] interleave it.  It returns in the
    coroutine that finds all of them finished. *)
Fixpoint q_sort_coro (fuel : nat) : prog Process unit :=
  match fuel with
  | O => out_of_fuel
  | S fuel => λ w,
      match tasks w !! curT w with
      | None => Undef OutOfBounds
      | Some s =>
          match slice s with
          | Ret testing s' =>
              let ts := <[curT w := s']> (tasks w) in
              if testing && forallb is_finished ts then Ret tt (set_tasks ts (curT w) w)
              else q_sort_coro fuel (set_tasks ts ((curT w + 1) mod length ts)%nat w)
          | Throw e _ => Throw e w
          | Undef u => Undef u
          | NoFuel => NoFuel
          end
      end
  end.

(** ** Memory *)

Definition calloc (n : Z) : prog Process block := λ w,
  Ret (mk_block (next w) (replicate (Z.to_nat n) 0))
      (mk_process (tasks w) (curT w) ({[next w]} ∪ live w) (next w + 1)).

Definition free (b : nat) : prog Process unit := λ w,
  if decide (b ∈ live w) then Ret tt (mk_process (tasks w) (curT w) (live w ∖ {[b]}) (next w))
  else Undef DoubleFree.

(** Reading an array of a task. *)
Definition load (b : block) (k : Z) : prog Process Z := λ w,
  if decide (addr b ∈ live w) then the OutOfBounds (at_ (cells b) k) w else Undef UseAfterFree.
Definition store (b : block) (k v : Z) : prog Process block := λ w,
  if decide (addr b ∈ live w)
  then (c ← the OutOfBounds (set_at (cells b) k v); mret (mk_block (addr b) c)) w
  else Undef UseAfterFree.

(** [int] addition *)
Definition int_add (a b : Z) : prog Process Z :=
  if bool_decide (i32_range (a + b)) then mret (a + b) else undef SignedOverflow.

(** ** [merge] *)

(** The first loop; [x], [y] are the arrays of the first two tasks. *)
Fixpoint merge_while (fuel : nat) (x y : task) (tmp : block) (a b k : Z) :
    prog Process (block * Z * Z * Z) :=
  match fuel with
  | O => out_of_fuel
  | S fuel =>
      if (a <=? N x - 1) && (b <=? N y - 1) then
        u ← load (arr x) a;
        v ← load (arr y) b;
        if u <=? v then tmp ← store tmp k u; merge_while fuel x y tmp (a + 1) b (k + 1)
        else tmp ← store tmp k v; merge_while fuel x y tmp a (b + 1) (k + 1)
      else mret (tmp, a, b, k)
  end.

(** The loops that copy the rest of one array. *)
Fixpoint copy_while (fuel : nat) (x : task) (tmp : block) (a k : Z) : prog Process block :=
  match fuel with
  | O => out_of_fuel
  | S fuel =>
      if a <=? N x - 1 then
        u ← load (arr x) a;
        tmp ← store tmp k u;
        copy_while fuel x tmp (a + 1) (k + 1)
      else mret tmp
  end.

Definition set_arr (b : block) (n : Z) (s : task) : task :=
  let '(mk_task c f _ st tp l h x i j p t _) := s in mk_task c f b st tp l h x i j p t n.

(** [tasks\[k\].arr = b; tasks\[k\].N = n] *)
Definition assign (k : nat) (b : block) (n : Z) : prog Process unit := λ w,
  match tasks w !! k with
  | None => Undef OutOfBounds
  | Some s => Ret tt (set_tasks (<[k := set_arr b n s]> (tasks w)) (curT w) w)
  end.

Definition task_at (k : nat) : prog Process task := λ w, the OutOfBounds (tasks w !! k) w.

(** [merge(k, tasks + off)] *)
Fixpoint merge (k off : nat) : prog Process unit :=
  match k with
  | O => undef OutOfBounds (* never called *)
  | S O => mret tt
  | S k' =>
      x ← task_at off;
      y ← task_at (off + 1);
      n ← int_add (N y) (N x);
      tmp ← calloc n;
      let fuel := Z.to_nat (N x + N y + 1) in
      r ← merge_while fuel x y tmp 0 0 0;
      let '(tmp, a, b, m) := r in
      tmp ← (if a =? N x then copy_while fuel y tmp b m
             else if b =? N y then copy_while fuel x tmp a m
             else mret tmp);
      _ ← free (addr (arr y));
      tmpN ← int_add (N y) (N x);
      z ← task_at (off + k');
      _ ← assign (off + 1) (arr z) (N z);
      _ ← assign (off + k') tmp tmpN;
      merge k' (off + 1)
  end.

(** ** [main] *)

(** A file, as [fscanf] reads it: its numbers up to the first thing that is none. *)
Abbreviation numbers := (list Z).

(** The loop over the numbers of a file; a failing [fscanf] leaves [num] as it was, which
    is not initialised before the first. *)
Fixpoint read_loop (n : nat) (k : Z) (num : option Z) (ns : numbers) (a st : block) :
    prog Process (block * block) :=
  match n with
  | O => mret (a, st)
  | S n =>
      let num := match ns with v :: _ => Some v | [] => num end in
      v ← the Uninitialised num;
      a ← store a k v;
      st ← store st k 0;
      read_loop n (k + 1) num (tail ns) a st
  end.

(** The body of the loop over the files; the result is [N_all] and the new task. *)
Definition load_file (ns : numbers) (N_all : Z) : prog Process (Z * task) :=
  n ← the Uninitialised (head ns);
  N_all ← int_add N_all n;
  if bool_decide (n < 0) then undef NullDeref (* calloc fails *)
  else
    a ← calloc n;
    st ← calloc n;
    r ← read_loop (Z.to_nat n) 0 None (tail ns) a st;
    let '(a, st) := r in
    st ← store st 0 0;
    st ← store st 1 (n - 1);
    mret (N_all, mk_task begin false a st 1 0 (n - 1) 0 0 0 0 0 n).

(** A file that cannot be opened is [None]. *)
Fixpoint load_files (files : list (option numbers)) (N_all : Z) : prog Process Z :=
  match files with
  | [] => mret N_all
  | None :: _ => throw "Cannot open file"
  | Some ns :: files =>
      r ← load_file ns N_all;
      let '(N_all, s) := r in
      _ ← modify (λ w, set_tasks (tasks w ++ [s]) (curT w) w);
      load_files files N_all
  end.

(** [fprintf(fp, "%d ", tasks\[task_count - 1\].arr\[i\])] for all [i] *)
Fixpoint print_loop (n : nat) (k : Z) (b : block) : prog Process (list Z) :=
  match n with
  | O => mret []
  | S n => v ← load b k; out ← print_loop n (k + 1) b; mret (v :: out)
  end.

Fixpoint free_loop (ts : list task) : prog Process unit :=
  match ts with
  | [] => mret tt
  | s :: ts => _ ← free (addr (arr s)); _ ← free (addr (stack s)); free_loop ts
  end.

(** [main] on the files of its arguments; the result is what out.txt holds. *)
Definition main (fuel : nat) (files : list (option numbers)) : prog Process (list Z) :=
  let argc := (length files + 1)%nat in
  if (argc <? 2)%nat then throw "usage"
  else
    N_all ← load_files files 0;
    _ ← q_sort_coro fuel;
    _ ← merge (argc - 1) 0;
    s ← task_at (argc - 2);
    out ← print_loop (Z.to_nat N_all) 0 (arr s);
    w ← get;
    _ ← free_loop (tasks w);
    mret out.

(** The process at the start of [main]. *)
Definition start : Process := mk_process [] 0 ∅ 0.

(** ** Arrays *)

Local Abbreviation len a := (Z.of_nat (length a)).

Lemma at_range a k v : at_ a k = Some v → 0 ≤ k < len a.
Proof. unfold at_. case_bool_decide; [|done]. intros Hk%lookup_lt_Some. lia. Qed.

Lemma at_in a k : 0 ≤ k < len a → ∃ v, at_ a k = Some v.
Proof. intros Hk. unfold at_. rewrite bool_decide_eq_true_2 by lia. apply lookup_lt_is_Some. lia. Qed.

Definition upd (a : list Z) (k v : Z) : list Z := <[Z.to_nat k := v]> a.

Lemma set_at_in a k v : 0 ≤ k < len a → set_at a k v = Some (upd a k v).
Proof. intros Hk. unfold set_at. by rewrite bool_decide_eq_true_2 by lia. Qed.

Lemma length_upd a k v : length (upd a k v) = length a.
Proof. apply length_insert. Qed.

Lemma at_upd_eq a k v : 0 ≤ k < len a → at_ (upd a k v) k = Some v.
Proof. intros Hk. unfold at_, upd. rewrite bool_decide_eq_true_2 by lia. apply list_lookup_insert_eq. lia. Qed.

Lemma at_upd_ne a k j v : 0 ≤ k → k ≠ j → at_ (upd a k v) j = at_ a j.
Proof. intros Hk Hj. unfold at_, upd. case_bool_decide; [|done]. apply list_lookup_insert_ne. lia. Qed.

Lemma insert_delete_Permutation (a : list Z) n v w :
  a !! n = Some v → v :: <[n:=w]> a ≡ₚ w :: a.
Proof.
  revert n. induction a as [|u a IH]; intros [|n] Hn; cbn in *; simplify_eq.
  - apply Permutation_swap.
  - by rewrite Permutation_swap, IH, Permutation_swap.
Qed.

(** [a'] comes from [a] by moving elements inside of [l..h]. *)
Record shuffled (l h : Z) (a a' : list Z) : Prop := {
  sh_perm : a' ≡ₚ a;
  sh_out u : ¬ l ≤ u ≤ h → at_ a' u = at_ a u;
  sh_in u : l ≤ u ≤ h → ∃ u', l ≤ u' ≤ h ∧ at_ a' u = at_ a u';
}.

Lemma sh_length l h a a' : shuffled l h a a' → length a' = length a.
Proof. intros [H _ _]. by rewrite H. Qed.

Lemma sh_refl l h a : shuffled l h a a.
Proof. split; [done|done|eauto]. Qed.

Lemma sh_trans l h a b c : shuffled l h a b → shuffled l h b c → shuffled l h a c.
Proof.
  intros [P1 O1 I1] [P2 O2 I2]. split.
  - by rewrite P2.
  - intros u Hu. by rewrite O2, O1.
  - intros u Hu. destruct (I2 u Hu) as (u' & Hu' & ->). by apply I1.
Qed.

(** The exchange of two elements through a third variable. *)
Lemma sh_swap l h a m n v w :
  l ≤ m ≤ h → l ≤ n ≤ h → at_ a m = Some v → at_ a n = Some w →
  shuffled l h a (upd (upd a m w) n v).
Proof.
  intros Hm Hn Em En. pose proof (at_range _ _ _ Em) as Rm. pose proof (at_range _ _ _ En) as Rn.
  assert (∀ u, at_ (upd (upd a m w) n v) u = if decide (u = n) then Some v else
    if decide (u = m) then Some w else at_ a u) as Hat.
  { intros u. destruct (decide (u = n)) as [->|]; [apply at_upd_eq; by rewrite length_upd|].
    rewrite at_upd_ne by lia. destruct (decide (u = m)) as [->|]; [by apply at_upd_eq|by apply at_upd_ne; lia]. }
  split.
  - assert (∀ k z, at_ a k = Some z → a !! Z.to_nat k = Some z) as Hl.
    { intros k z. unfold at_. by case_bool_decide. }
    apply (Permutation_cons_inv (a:=w)), (Permutation_cons_inv (a:=v)).
    transitivity (v :: v :: upd a m w).
    + constructor. unfold upd at 1. apply insert_delete_Permutation.
      destruct (decide (n = m)) as [->|Hne].
      * unfold upd. rewrite list_lookup_insert_eq by lia. congruence.
      * unfold upd. rewrite list_lookup_insert_ne by lia. by apply Hl.
    + constructor. by apply insert_delete_Permutation, Hl.
  - intros u Hu. rewrite Hat, !decide_False by lia. done.
  - intros u Hu. rewrite Hat. destruct (decide _); [by exists m|]. destruct (decide _); [by exists n|eauto].
Qed.

Definition sorted_at (a : list Z) : Prop :=
  ∀ u v x y, u < v → at_ a u = Some x → at_ a v = Some y → x ≤ y.

Lemma sorted_at_sorted a : sorted_at a → StronglySorted Z.le a.
Proof.
  induction a as [|x a IH]; intros Hs; constructor.
  - apply IH. intros u v y z Huv Hu Hv. apply (Hs (u + 1) (v + 1)); [lia| |].
    + pose proof (at_range _ _ _ Hu). unfold at_ in *. rewrite bool_decide_eq_true_2 in * by lia.
      by rewrite Z2Nat.inj_add, Nat.add_1_r by lia.
    + pose proof (at_range _ _ _ Hv). unfold at_ in *. rewrite bool_decide_eq_true_2 in * by lia.
      by rewrite Z2Nat.inj_add, Nat.add_1_r by lia.
  - apply Forall_lookup. intros n y Hn. apply (Hs 0 (Z.of_nat (S n))); [lia|done|].
    unfold at_. rewrite bool_decide_eq_true_2 by lia. by rewrite Nat2Z.id.
Qed.

(** ** One coroutine *)

(** From [r] on the coroutine is finished after [n] more turns, as [s]. *)
Inductive ends : nat → slice_res → task → Prop :=
| ends_done s : ends 0 (Ret true s) s
| ends_yield n s s' : ends n (slice s) s' → ends (S n) (Ret false s) s'.

Definition wp (r : slice_res) (Q : task → Prop) : Prop := ∃ n s, ends n r s ∧ Q s.

Lemma wp_done s (Q : task → Prop) : Q s → wp (Ret true s) Q.
Proof. intros HQ. exists 0%nat, s. split; [constructor|done]. Qed.

Lemma wp_yield s Q : wp (slice s) Q → wp (yield s) Q.
Proof. intros (n & s' & H & HQ). exists (S n), s'. split; [by constructor|done]. Qed.

Lemma wp_read a k v f Q : at_ (cells a) k = Some v → wp (f v) Q → wp (read_ a k f) Q.
Proof. intros Hk HQ. unfold read_. by rewrite Hk. Qed.

Lemma wp_write a k v f Q :
  0 ≤ k < len (cells a) → wp (f (mk_block (addr a) (upd (cells a) k v))) Q → wp (write_ a k v f) Q.
Proof. intros Hk HQ. unfold write_. by rewrite set_at_in. Qed.

Ltac turn := apply wp_yield; cbn [slice].
Ltac reads H := eapply wp_read; [cbn [cells]; exact H|].
Ltac writes := apply wp_write; [cbn [cells]; rewrite ?length_upd; lia|]; cbn [addr cells].

(** What the inner loop has done up to [j]. *)
Record split_ (a : list Z) (l h x i j : Z) : Prop := {
  sp_low u v : l ≤ u ≤ i → at_ a u = Some v → v ≤ x;
  sp_high u v : i < u < j → at_ a u = Some v → x < v;
  sp_pivot : at_ a h = Some x;
  sp_i : l - 1 ≤ i < j;
}.

Lemma inner_loop Q f ad st tp l h x p n d : ∀ a i j t,
  d = Z.to_nat (h - j) → 0 ≤ l → l ≤ j ≤ h → h < len a → split_ a l h x i j →
  (∀ a' i' t', shuffled l h a a' → split_ a' l h x i' h →
     wp (inner_while (mk_task inner_test f (mk_block ad a') st tp l h x i' h p t' n)) Q) →
  wp (inner_while (mk_task inner_test f (mk_block ad a) st tp l h x i j p t n)) Q.
Proof.
  induction d as [|d IH]; intros a i j t Hd Hl Hj Hh Hs HQ.
  { assert (j = h) as -> by lia. apply HQ; [apply sh_refl|done]. }
  assert (j < h) as Hlt by lia.
  unfold inner_while. rewrite (proj2 (Z.leb_le j (h - 1))) by lia. turn.
  destruct (at_in a j) as [v Hv]; [lia|]. reads Hv.
  destruct Hs as [Hlow Hhigh Hpiv Hi]. destruct (Z.leb_spec v x) as [Hle|Hgt].
  - do 2 turn. destruct (at_in a (i + 1)) as [w Hw]; [lia|]. reads Hw.
    turn. reads Hv. writes. turn. writes. do 2 turn.
    pose proof (sh_swap l h a (i + 1) j w v ltac:(lia) ltac:(lia) Hw Hv) as Hsh.
    set (a2 := upd (upd a (i + 1) v) j w) in *.
    assert (∀ u, u ≠ j → u ≠ i + 1 → at_ a2 u = at_ a u) as Hsame.
    { intros u H1 H2. unfold a2. by rewrite !at_upd_ne by lia. }
    assert (i + 1 ≠ j → at_ a2 (i + 1) = Some v) as Hi1.
    { intros H1. unfold a2. rewrite at_upd_ne by lia. apply at_upd_eq. lia. }
    assert (at_ a2 j = Some w) as Hj1.
    { unfold a2. apply at_upd_eq. rewrite length_upd. lia. }
    apply IH; [lia|done|lia|by rewrite (sh_length _ _ _ _ Hsh)| |].
    + split; [| | |lia].
      * intros u y Hu Hy. destruct (decide (u = i + 1)) as [->|Hne].
        -- destruct (decide (i + 1 = j)) as [E|E]; [rewrite E in *; congruence|].
           rewrite Hi1 in Hy by done. congruence.
        -- rewrite Hsame in Hy by lia. by eapply Hlow; [|exact Hy]; lia.
      * intros u y Hu Hy. destruct (decide (u = j)) as [->|Hne].
        -- rewrite Hj1 in Hy. simplify_eq. apply (Hhigh (i + 1)); [lia|done].
        -- rewrite Hsame in Hy by lia. by eapply Hhigh; [|exact Hy]; lia.
      * by rewrite Hsame by lia.
    + intros a' i' t' Hsh'. apply HQ. by eapply sh_trans.
  - turn. apply IH; [lia|done|lia|done| |done]. split; [done| |done|lia].
    intros u y Hu Hy. destruct (decide (u = j)) as [->|Hne]; [simplify_eq; lia|].
    apply (Hhigh u); [lia|done].
Qed.

(** *** The stack of ranges, the topmost first *)

Fixpoint ranges_ok (bound : Z) (R : list (Z * Z)) : Prop :=
  match R with
  | [] => 0 ≤ bound
  | (l, h) :: R => l < h < bound ∧ ranges_ok l R
  end.

Fixpoint stack_is (st : list Z) (R : list (Z * Z)) : Prop :=
  match R with
  | [] => True
  | (l, h) :: R => at_ st (2 * len R) = Some l ∧ at_ st (2 * len R + 1) = Some h ∧ stack_is st R
  end.

Fixpoint size (R : list (Z * Z)) : Z :=
  match R with [] => 0 | (l, h) :: R => h - l + 1 + size R end.

Lemma ranges_len bound R : ranges_ok bound R → 2 * len R ≤ bound.
Proof.
  revert bound. induction R as [|[l h] R IH]; intros b; cbn [ranges_ok]; [cbn; lia|].
  intros [Hl HR%IH]. cbn [length]. lia.
Qed.

Lemma ranges_mono b b' R : ranges_ok b R → b ≤ b' → ranges_ok b' R.
Proof. destruct R as [|[l h] R]; cbn [ranges_ok]; [lia|]. intros [? ?] ?. split; [lia|done]. Qed.

Lemma ranges_below b R l h : ranges_ok b R → (l, h) ∈ R → h < b.
Proof.
  revert b. induction R as [|[l' h'] R IH]; intros b; [by intros _ ?%not_elem_of_nil|].
  cbn [ranges_ok]. intros [Hl HR] [?|Hin]%elem_of_cons; [simplify_eq; lia|]. specialize (IH l' HR Hin). lia.
Qed.

Lemma size_nonneg b R : ranges_ok b R → 0 ≤ size R.
Proof.
  revert b. induction R as [|[l h] R IH]; intros b; cbn [ranges_ok size]; [lia|].
  intros [Hl HR%IH]. lia.
Qed.

Lemma stack_upd st R k v : stack_is st R → 2 * len R ≤ k → stack_is (upd st k v) R.
Proof.
  induction R as [|[l h] R IH]; [done|]. cbn [stack_is length]. intros (Hl & Hh & HR) Hk.
  rewrite !at_upd_ne by lia. split_and!; [done|done|]. apply IH; [done|lia].
Qed.

(** Everything is in order except for the pairs inside of a range. *)
Definition ordered_but (a : list Z) (R : list (Z * Z)) : Prop :=
  ∀ u v x y, u < v → at_ a u = Some x → at_ a v = Some y → x ≤ y ∨ ∃ l h, (l, h) ∈ R ∧ l ≤ u ∧ v ≤ h.

(** The ranges [if] pushes. *)
Definition pushed (b : bool) (l h : Z) (R : list (Z * Z)) : list (Z * Z) := if b then (l, h) :: R else R.

Lemma partition_ordered a a' l h x p R :
  ordered_but a ((l, h) :: R) → ranges_ok l R → shuffled l h a a' → l ≤ p ≤ h →
  at_ a' p = Some x →
  (∀ u v, l ≤ u < p → at_ a' u = Some v → v ≤ x) → (∀ u v, p < u ≤ h → at_ a' u = Some v → x ≤ v) →
  ordered_but a' (pushed (p + 1 <? h) (p + 1) h (pushed (p - 1 >? l) l (p - 1) R)).
Proof.
  intros Ho HR [_ Hout Hin] Hp Hx Hlow Hhigh u v y z Huv Hy Hz. unfold pushed.
  destruct (decide (l ≤ u ∧ v ≤ h)) as [[Hu Hv]|Hn].
  - destruct (Z.lt_trichotomy u p) as [Hup|[->|Hup]].
    + destruct (Z.lt_trichotomy v p) as [Hvp|[->|Hvp]].
      * right. rewrite (proj2 (Z.gtb_lt (p - 1) l)) by lia. exists l, (p - 1).
        split; [destruct (_ <? _); [right|]; by left|lia].
      * left. simplify_eq. by eapply Hlow; [|exact Hy]; lia.
      * left. transitivity x; [by eapply Hlow; [|exact Hy]; lia|by eapply Hhigh; [|exact Hz]; lia].
    + left. simplify_eq. by eapply Hhigh; [|exact Hz]; lia.
    + right. rewrite (proj2 (Z.ltb_lt (p + 1) h)) by lia. exists (p + 1), h. split; [by left|lia].
  - assert (∀ w c, at_ a' w = Some c →
      ∃ w', at_ a w' = Some c ∧ (l ≤ w ≤ h ∧ l ≤ w' ≤ h ∨ ¬ l ≤ w ≤ h ∧ w' = w)) as Hclass.
    { intros w c Hw. destruct (decide (l ≤ w ≤ h)) as [Hlh|Hlh].
      - destruct (Hin w Hlh) as (w' & Hw' & E). exists w'. rewrite <-E. split; [done|by left].
      - exists w. rewrite <-(Hout w Hlh). split; [done|by right]. }
    destruct (Hclass u y Hy) as (u' & Hu' & Cu). destruct (Hclass v z Hz) as (v' & Hv' & Cv).
    destruct (Ho u' v' y z) as [Hle|(l1 & h1 & Hm & Hl1 & Hh1)]; [lia|done|done|by left|].
    apply elem_of_cons in Hm as [?|Hm]; [simplify_eq; lia|].
    pose proof (ranges_below _ _ _ _ HR Hm) as Hb. right. exists l1, h1. split; [|lia].
    destruct (_ <? _), (_ >? _); rewrite ?elem_of_cons; auto.
Qed.

(** The coroutine is in front of the test of the outer loop, [R] on its stack. *)
Record outer (s : task) (R : list (Z * Z)) : Prop := {
  o_top : top s = 2 * len R - 1;
  o_stack : stack_is (cells (stack s)) R;
  o_len : length (cells (stack s)) = length (cells (arr s));
  o_ranges : ranges_ok (len (cells (arr s))) R;
  o_order : ordered_but (cells (arr s)) R;
}.

(** What it keeps of the task [s0]. *)
Definition same_task (s0 s : task) : Prop :=
  addr (arr s) = addr (arr s0) ∧ addr (stack s) = addr (stack s0) ∧ N s = N s0 ∧
  is_finished s = is_finished s0 ∧ cells (arr s) ≡ₚ cells (arr s0).

(** The test of the right side, the left range being on the stack already. *)
Lemma right_part Q c f a st tp l h x i j p t n R :
  tp = 2 * len R - 1 → stack_is (cells st) R → length (cells st) = length (cells a) →
  p ≤ h → ranges_ok (p + 1) R → h < len (cells a) →
  ordered_but (cells a) (pushed (p + 1 <? h) (p + 1) h R) →
  (∀ s', outer s' (pushed (p + 1 <? h) (p + 1) h R) → same_task (mk_task c f a st tp l h x i j p t n) s' →
     wp (outer_while s') Q) →
  wp (right_if (mk_task c f a st tp l h x i j p t n)) Q.
Proof.
  intros Htp Hst Hlen Hp HR Hh Ho HQ. unfold right_if, pushed in *.
  pose proof (ranges_len _ _ HR) as Hlr.
  destruct (Z.ltb_spec (p + 1) h) as [Hlt|Hge].
  - do 2 turn. writes. do 2 turn. writes. turn. apply HQ.
    + split; cbn [top stack arr cells ranges_ok stack_is length]; rewrite ?length_upd; [lia| |done|done|done].
      subst tp. replace (2 * len R - 1 + 1) with (2 * len R) by lia. split_and!.
      * rewrite at_upd_ne by lia. apply at_upd_eq. lia.
      * apply at_upd_eq. rewrite length_upd. lia.
      * apply stack_upd; [|lia]. by apply stack_upd; [|lia].
    + done.
  - apply HQ; [split; [done|done|done| |done]|done]. cbn [arr]. eapply ranges_mono; [done|lia].
Qed.

(** The test of the left side. *)
Lemma left_part Q c f a st tp l h x i j p t n R :
  tp = 2 * len R - 1 → stack_is (cells st) R → length (cells st) = length (cells a) →
  0 ≤ l → l ≤ p ≤ h → ranges_ok l R → h < len (cells a) →
  ordered_but (cells a) (pushed (p + 1 <? h) (p + 1) h (pushed (p - 1 >? l) l (p - 1) R)) →
  (∀ s', outer s' (pushed (p + 1 <? h) (p + 1) h (pushed (p - 1 >? l) l (p - 1) R)) →
     same_task (mk_task c f a st tp l h x i j p t n) s' → wp (outer_while s') Q) →
  wp (left_if (mk_task c f a st tp l h x i j p t n)) Q.
Proof.
  intros Htp Hst Hlen Hl Hp HR Hh Ho HQ. unfold left_if.
  pose proof (ranges_len _ _ HR) as Hlr. revert Ho HQ. unfold pushed at 2 4.
  rewrite Z.gtb_ltb. destruct (Z.ltb_spec l (p - 1)) as [Hlt|Hge]; intros Ho HQ.
  - do 2 turn. writes. do 2 turn. writes. turn.
    apply (right_part _ _ _ _ _ _ _ _ _ _ _ _ _ _ ((l, p - 1) :: R)); try done; try lia.
    + cbn [length]. lia.
    + cbn [stack_is cells]. subst tp. replace (2 * len R - 1 + 1) with (2 * len R) by lia. split_and!.
      * rewrite at_upd_ne by lia. apply at_upd_eq. lia.
      * apply at_upd_eq. rewrite length_upd. lia.
      * apply stack_upd; [|lia]. by apply stack_upd; [|lia].
    + cbn [cells]. by rewrite !length_upd.
    + cbn [ranges_ok]. split; [lia|done].
  - eapply right_part; try done; try lia. eapply ranges_mono; [done|lia].
Qed.

(** One round of the outer loop: the topmost range is partitioned, and its parts pushed. *)
Lemma round Q s l h R :
  outer s ((l, h) :: R) →
  (∀ s' R', outer s' R' → same_task s s' → size R' < size ((l, h) :: R) → wp (outer_while s') Q) →
  wp (outer_while s) Q.
Proof.
  destruct s as [c f [ad a] [sd st] tp l0 h0 x i j p t n]. intros [Htp Hst Hlen [Hlh HR] Ho] HQ.
  cbn [top stack arr cells stack_is length] in *. destruct Hst as (Hl & Hh & HR').
  pose proof (ranges_len _ _ HR) as Hlr.
  unfold outer_while at 1. rewrite (proj2 (Z.leb_le 0 tp)) by lia. turn.
  replace (2 * len R + 1) with tp in Hh by lia. reads Hh. turn.
  replace (2 * len R) with (tp - 1) in Hl by lia. reads Hl. turn.
  destruct (at_in a h) as [y Hy]; [lia|]. reads Hy. do 3 turn.
  eapply inner_loop; [done|lia|lia|lia| |].
  { split; [intros u v Hu; lia..|done|lia]. }
  intros a1 i1 t1 Hsh1 [Hlow Hhigh Hpiv Hi]. pose proof (sh_length _ _ _ _ Hsh1) as Hl1.
  unfold inner_while. rewrite (proj2 (Z.leb_gt h (h - 1))) by lia.
  destruct (at_in a1 (i1 + 1)) as [w Hw]; [lia|]. reads Hw. turn. reads Hpiv. writes. turn.
  writes. do 2 turn.
  pose proof (sh_swap l h a1 (i1 + 1) h w y ltac:(lia) ltac:(lia) Hw Hpiv) as Hsh2.
  set (a2 := upd (upd a1 (i1 + 1) y) h w) in *.
  pose proof (sh_trans _ _ _ _ _ Hsh1 Hsh2) as Hsh. pose proof (sh_length _ _ _ _ Hsh) as Hl2.
  assert (at_ a2 (i1 + 1) = Some y) as Hpv.
  { unfold a2. destruct (decide (i1 + 1 = h)) as [E|E].
    - rewrite E in *. rewrite at_upd_eq by (rewrite length_upd; lia). congruence.
    - rewrite at_upd_ne by lia. apply at_upd_eq. lia. }
  apply (left_part _ _ _ _ _ _ _ _ _ _ _ _ _ _ R); cbn [cells]; try done; try lia.
  - eapply partition_ordered; [exact Ho|done|exact Hsh|lia|exact Hpv| |].
    + intros u v Hu. unfold a2. rewrite !at_upd_ne by lia. apply Hlow. lia.
    + intros u v Hu Hv. destruct (decide (u = h)) as [->|Hne].
      * unfold a2 in Hv. rewrite at_upd_eq in Hv by (rewrite length_upd; lia). injection Hv as <-.
        apply Z.lt_le_incl, (Hhigh (i1 + 1)); [lia|done].
      * unfold a2 in Hv. rewrite !at_upd_ne in Hv by lia.
        apply Z.lt_le_incl, (Hhigh u); [lia|done].
  - intros s' Hs' (E1 & E2 & E3 & E4 & E5). apply (HQ _ _ Hs').
    + cbn [arr stack addr N is_finished cells] in *.
      unfold same_task. cbn [arr stack addr N is_finished cells]. split_and!; [done..|].
      rewrite E5. by apply Hsh.
    + unfold pushed. cbn [size]. pose proof (size_nonneg _ _ HR).
      rewrite Z.gtb_ltb.
      destruct (Z.ltb_spec (i1 + 1 + 1) h), (Z.ltb_spec l (i1 + 1 - 1)); cbn [size]; lia.
Qed.

Lemma outer_sorts s R :
  outer s R →
  wp (outer_while s) (λ s', addr (arr s') = addr (arr s) ∧ addr (stack s') = addr (stack s) ∧ N s' = N s ∧
    is_finished s' = true ∧ env s' = wait ∧ cells (arr s') ≡ₚ cells (arr s) ∧
    StronglySorted Z.le (cells (arr s'))).
Proof.
  intros Ho. remember (Z.to_nat (size R)) as d eqn:Hd. revert s R Ho Hd.
  induction d as [d IH] using lt_wf_ind. intros s R Ho Hd.
  destruct R as [|[l h] R].
  - destruct s as [c f a st tp l h x i j p t n], Ho as [Htp _ _ _ Ho]. cbn in Htp, Ho.
    unfold outer_while. rewrite (proj2 (Z.leb_gt 0 tp)) by lia. apply wp_done. split_and!; try done.
    apply sorted_at_sorted. intros u v y z Huv Hu Hv.
    destruct (Ho u v y z Huv Hu Hv) as [?|(? & ? & []%not_elem_of_nil & _)]; done.
  - eapply round; [exact Ho|]. intros s' R' Ho' (E1 & E2 & E3 & E4 & E5) Hlt.
    pose proof (size_nonneg _ _ (o_ranges _ _ Ho')) as Hnn.
    assert (Z.to_nat (size R') < d)%nat as Hd' by (subst d; lia).
    destruct (IH _ Hd' s' R' Ho' eq_refl) as (m & s'' & Hends & F1 & F2 & F3 & F4 & F5 & F6 & F7).
    exists m, s''. split_and!; [done|congruence..|done|done| |done]. by rewrite F6.
Qed.

(** ** The scheduler *)

Lemma slice_keeps s s' : slice s = Ret false s' → is_finished s' = is_finished s.
Proof.
  destruct s as [[] f a st tp l h x i j p t n]; cbn [slice outer_while left_if right_if inner_while];
    unfold left_if, right_if, outer_while, inner_while, read_, write_, yield;
    repeat case_match; intros ?; by simplify_eq.
Qed.

(** The coroutine [s] is going to end as [f]. *)
Definition heading (n : nat) (s f : task) : Prop :=
  ends n (slice s) f ∧ is_finished f = true ∧ slice f = Ret true f ∧ (is_finished s = true → s = f).

(** A bound on the turns until it is marked as finished. *)
Definition cost (n : nat) (s : task) : nat := (n + if is_finished s then 0 else 1)%nat.

Lemma heading_turn n s f : heading n s f →
  ∃ b s' n', slice s = Ret b s' ∧ heading n' s' f ∧
    (is_finished s = true → s' = s ∧ b = true ∧ n' = n) ∧
    (is_finished s = false → (cost n' s' < cost n s)%nat ∧ is_finished s' = b).
Proof.
  intros (He & Hf & Hw & Hs). unfold cost.
  remember (slice s) as r eqn:Er. destruct He as [s1|m s1 f He].
  - exists true, s1, 0%nat. split; [done|]. split.
    { split_and!; try done. rewrite Hw. constructor. }
    split; [by intros ->%Hs|]. rewrite Hf. intros ->. split; [lia|done].
  - assert (is_finished s = false) as Hfs.
    { destruct (is_finished s) eqn:Efs; [|done]. rewrite Hs in Er by done. congruence. }
    pose proof (slice_keeps s s1 (eq_sym Er)) as Hk. rewrite Hfs in Hk.
    exists false, s1, m. split; [done|]. split; [split_and!; [done..|congruence]|].
    split; [congruence|]. rewrite Hfs, Hk. intros _. split; [lia|done].
Qed.

Lemma sum_insert {A} (g : A → nat) L c a b :
  L !! c = Some a → (sum_list_with g (<[c := b]> L) + g a = sum_list_with g L + g b)%nat.
Proof.
  revert c. induction L as [|a' L IH]; intros [|c] Hc; try done.
  - injection Hc as ->. cbn. lia.
  - specialize (IH c Hc). change (<[S c:=b]> (a' :: L)) with (a' :: <[c:=b]> L). cbn [sum_list_with]. lia.
Qed.

(** The coroutines with what they end as. *)
Notation plan := (list (task * task * nat)).
Definition now_of (q : task * task * nat) : task := q.1.1.
Definition end_of (q : task * task * nat) : task := q.1.2.
Definition plan_ok (L : plan) : Prop := Forall (λ q, heading q.2 (now_of q) (end_of q)) L.
Definition plan_cost (L : plan) : nat := sum_list_with (λ q, cost q.2 (now_of q)) L.

Lemma plan_finished L :
  plan_ok L → forallb is_finished (now_of <$> L) = true → now_of <$> L = end_of <$> L.
Proof.
  induction 1 as [|q L (_ & _ & _ & Hq) _ IH]; [done|]. cbn. rewrite andb_true_iff. intros [H1 H2].
  f_equal; [by apply Hq|by apply IH].
Qed.

(** One turn, from any process that is at [c] in the plan. *)
Lemma q_sort_turn L c :
  plan_ok L → (c < length L)%nat →
  ∃ L', plan_ok L' ∧ end_of <$> L' = end_of <$> L ∧ length L' = length L ∧
    ((∀ fuel w, tasks w = now_of <$> L → curT w = c →
        q_sort_coro (S fuel) w = Ret tt (set_tasks (end_of <$> L) c w)) ∨
     (∀ fuel w, tasks w = now_of <$> L → curT w = c →
        q_sort_coro (S fuel) w = q_sort_coro fuel (set_tasks (now_of <$> L') ((c + 1) mod length L)%nat w)) ∧
     (L' = L ∧ (∀ q, L !! c = Some q → is_finished (now_of q) = true) ∧
        forallb is_finished (now_of <$> L) = false ∨ (plan_cost L' < plan_cost L)%nat)).
Proof.
  intros HL Hc. destruct (lookup_lt_is_Some_2 L c Hc) as [[[s f] n] Hq].
  pose proof (proj1 (Forall_lookup _ _) HL _ _ Hq) as Hh. cbn in Hh.
  destruct (heading_turn _ _ _ Hh) as (b & s' & n' & Es & Hh' & Hfin & Hunf).
  set (L' := <[c := (s', f, n')]> L). exists L'.
  assert (plan_ok L') as HL' by (by apply Forall_insert).
  assert (end_of <$> L' = end_of <$> L) as Hend.
  { unfold L'. rewrite list_fmap_insert. apply list_insert_id. by rewrite list_lookup_fmap, Hq. }
  assert (length L' = length L) as Hlen by apply length_insert.
  split_and!; [done..|].
  assert (∀ fuel w, tasks w = now_of <$> L → curT w = c →
    q_sort_coro (S fuel) w = if b && forallb is_finished (now_of <$> L')
      then Ret tt (set_tasks (now_of <$> L') c w)
      else q_sort_coro fuel (set_tasks (now_of <$> L') ((c + 1) mod length L)%nat w)) as Hrun.
  { intros fuel w Hw Hcw. cbn [q_sort_coro]. rewrite Hcw, Hw, list_lookup_fmap, Hq. cbn [fmap option_fmap option_map].
    change (now_of (s, f, n)) with s. rewrite Es.
    assert (<[c := s']> (now_of <$> L) = now_of <$> L') as -> by (unfold L'; by rewrite list_fmap_insert).
    by rewrite length_fmap, Hlen. }
  destruct (b && forallb is_finished (now_of <$> L')) eqn:Eb.
  - left. apply andb_true_iff in Eb as [_ Eb]. by rewrite <-Hend, <-(plan_finished L').
  - right. split; [done|]. destruct (is_finished s) eqn:Efs.
    + left. destruct (Hfin eq_refl) as (-> & -> & ->).
      assert (L' = L) as Hsame by (by apply list_insert_id).
      split_and!; [done|intros q Hq'; rewrite Hq in Hq'; by injection Hq' as <-|by rewrite Hsame in Eb].
    + right. destruct (Hunf eq_refl) as [Hlt _].
      assert (plan_cost L' + cost n s = plan_cost L + cost n' s')%nat as Hsum
        by exact (sum_insert (λ q, cost q.2 (now_of q)) L c _ (s', f, n') Hq).
      lia.
Qed.

Lemma q_sort_returns L c : plan_ok L → (c < length L)%nat →
  ∃ m c', ∀ fuel w, (m ≤ fuel)%nat → tasks w = now_of <$> L → curT w = c →
    q_sort_coro fuel w = Ret tt (set_tasks (end_of <$> L) c' w).
Proof.
  remember (plan_cost L) as M eqn:HM. revert L HM c.
  induction M as [M IHM] using lt_wf_ind. intros L HM c HL Hc.
  assert (∀ d c, (c < length L)%nat →
    (∃ q, L !! ((c + d) mod length L)%nat = Some q ∧ is_finished (now_of q) = false) ∨
      forallb is_finished (now_of <$> L) = true →
    ∃ m c', ∀ fuel w, (m ≤ fuel)%nat → tasks w = now_of <$> L → curT w = c →
      q_sort_coro fuel w = Ret tt (set_tasks (end_of <$> L) c' w)) as Hd.
  { clear c Hc. intros d. induction d as [|d IHd]; intros c Hc Hck.
    all: destruct (q_sort_turn L c HL Hc) as (L' & HL' & Hend & Hlen & [Hret|[Hgo [(-> & Hcur & Hnot)|Hlt]]]).
    1, 4: exists 1%nat, c; intros [|fuel] w Hf Hw Hcw; [lia|by apply Hret].
    - rewrite Nat.add_0_r, Nat.mod_small in Hck by done.
      destruct Hck as [(q & Hq & Hqf)|]; [|congruence]. rewrite (Hcur q Hq) in Hqf. done.
    - destruct (IHM (plan_cost L') ltac:(lia) L' eq_refl ((c + 1) mod length L)%nat HL') as (m & c' & Hm).
      { rewrite Hlen. apply Nat.mod_upper_bound. lia. }
      exists (S m), c'. intros [|fuel] w Hf Hw Hcw; [lia|]. rewrite (Hgo fuel w Hw Hcw), <-Hend.
      rewrite Hm; [done|lia|done|done].
    - destruct (IHd ((c + 1) mod length L)%nat) as (m & c' & Hm).
      { apply Nat.mod_upper_bound. lia. }
      { rewrite Nat.Div0.add_mod_idemp_l. by replace (c + 1 + d)%nat with (c + S d)%nat by lia. }
      exists (S m), c'. intros [|fuel] w Hf Hw Hcw; [lia|]. rewrite (Hgo fuel w Hw Hcw).
      rewrite Hm; [done|lia|done|done].
    - destruct (IHM (plan_cost L') ltac:(lia) L' eq_refl ((c + 1) mod length L)%nat HL') as (m & c' & Hm).
      { rewrite Hlen. apply Nat.mod_upper_bound. lia. }
      exists (S m), c'. intros [|fuel] w Hf Hw Hcw; [lia|]. rewrite (Hgo fuel w Hw Hcw), <-Hend.
      rewrite Hm; [done|lia|done|done]. }
  destruct (forallb is_finished (now_of <$> L)) eqn:Eall; [by apply (Hd 0%nat); [|right]|].
  assert (∃ k q, L !! k = Some q ∧ is_finished (now_of q) = false) as (k & q & Hk & Hq).
  { clear -Eall. induction L as [|q L IH]; [done|]. cbn in Eall. apply andb_false_iff in Eall as [E|E].
    - by exists 0%nat, q.
    - destruct (IH E) as (k & q' & Hk & Hq'). by exists (S k), q'. }
  pose proof (lookup_lt_Some _ _ _ Hk) as Hkl.
  apply (Hd (k + length L - c)%nat c Hc). left. exists q. split; [|done].
  replace (c + (k + length L - c))%nat with (k + 1 * length L)%nat by lia.
  by rewrite Nat.Div0.mod_add, Nat.mod_small.
Qed.

(** ** Merging *)

Lemma at_app d u r : at_ (d ++ u :: r) (len d) = Some u.
Proof.
  unfold at_. rewrite bool_decide_eq_true_2 by lia.
  rewrite Nat2Z.id, lookup_app_r, Nat.sub_diag by done. done.
Qed.

Lemma load_run b d u r w :
  addr b ∈ live w → cells b = d ++ u :: r → load b (len d) w = Ret u w.
Proof. intros Hl Hb. unfold load. rewrite decide_True by done. by rewrite Hb, at_app. Qed.

Lemma store_cell_run ad out z zs v w :
  ad ∈ live w → store (mk_block ad (out ++ z :: zs)) (len out) v w = Ret (mk_block ad (out ++ v :: zs)) w.
Proof.
  intros Hl. unfold store. cbn [addr cells]. rewrite decide_True by done.
  rewrite set_at_in by (rewrite length_app; cbn; lia). unfold upd.
  rewrite Nat2Z.id, insert_app_r_alt, Nat.sub_diag by done. done.
Qed.

Lemma len_snoc (d : list Z) u : len (d ++ [u]) = len d + 1.
Proof. rewrite length_app. cbn. lia. Qed.

Lemma copy_while_run fuel x ad w : ∀ d r out zs,
  cells (arr x) = d ++ r → N x = len (cells (arr x)) → length zs = length r → (length r < fuel)%nat →
  addr (arr x) ∈ live w → ad ∈ live w →
  copy_while fuel x (mk_block ad (out ++ zs)) (len d) (len out) w = Ret (mk_block ad (out ++ r)) w.
Proof.
  induction fuel as [|fuel IH]; intros d r out zs Hc HN Hz Hf Hx Had; [lia|]. cbn [copy_while].
  rewrite HN, Hc, length_app. destruct r as [|u r].
  - destruct zs; [|done]. rewrite (proj2 (Z.leb_gt _ _)) by (cbn; lia). done.
  - destruct zs as [|z zs]; [done|]. rewrite (proj2 (Z.leb_le _ _)) by (cbn; lia).
    rewrite (bind_ret _ _ _ _ _ (load_run (arr x) d u r w Hx Hc)).
    rewrite (bind_ret _ _ _ _ _ (store_cell_run ad out z zs u w Had)).
    rewrite <-!len_snoc with (u := u). rewrite (cons_middle u out zs), (app_assoc out [u] zs).
    rewrite (IH (d ++ [u]) r (out ++ [u])); [by rewrite <-app_assoc|by rewrite <-app_assoc|done..| | |done|done].
    + cbn in Hz. lia.
    + cbn in Hf. lia.
Qed.

Lemma merge_while_run fuel x y ad w : ∀ xd xr yd yr out zs,
  cells (arr x) = xd ++ xr → N x = len (cells (arr x)) → cells (arr y) = yd ++ yr → N y = len (cells (arr y)) →
  length zs = (length xr + length yr)%nat → (length xr + length yr < fuel)%nat →
  addr (arr x) ∈ live w → addr (arr y) ∈ live w → ad ∈ live w →
  ∃ xd' xr' yd' yr' out' zs',
    merge_while fuel x y (mk_block ad (out ++ zs)) (len xd) (len yd) (len out) w
      = Ret (mk_block ad (out' ++ zs'), len xd', len yd', len out') w ∧
    cells (arr x) = xd' ++ xr' ∧ cells (arr y) = yd' ++ yr' ∧ (xr' = [] ∨ yr' = []) ∧
    length zs' = (length xr' + length yr')%nat ∧ out ++ list_merge Z.le xr yr = out' ++ xr' ++ yr'.
Proof.
  induction fuel as [|fuel IH]; intros xd xr yd yr out zs Hx Nx Hy Ny Hz Hf Lx Ly Lt; [lia|].
  cbn [merge_while]. rewrite Nx, Ny, Hx, Hy, !length_app.
  destruct xr as [|u xr].
  { exists xd, [], yd, yr, out, zs. rewrite (proj2 (Z.leb_gt (len xd) _)) by (cbn; lia). cbn [andb].
    rewrite list_merge_nil_l. split_and!; try done. by left. }
  destruct yr as [|v yr].
  { exists xd, (u :: xr), yd, [], out, zs. rewrite (proj2 (Z.leb_gt (len yd) _)) by (cbn; lia). rewrite andb_false_r.
    split_and!; try done; [by right|by rewrite list_merge_nil_r, app_nil_r]. }
  rewrite !(proj2 (Z.leb_le _ _)) by (cbn; lia). cbn [andb].
  rewrite (bind_ret _ _ _ _ _ (load_run (arr x) xd u xr w Lx Hx)).
  rewrite (bind_ret _ _ _ _ _ (load_run (arr y) yd v yr w Ly Hy)).
  destruct zs as [|z zs]; [done|]. cbn in Hz, Hf. rewrite list_merge_cons.
  destruct (Z.leb_spec u v) as [Hle|Hgt].
  - rewrite (bind_ret _ _ _ _ _ (store_cell_run ad out z zs u w Lt)). rewrite decide_True by done.
    rewrite <-!len_snoc with (u := u). rewrite (cons_middle u out zs), (app_assoc out [u] zs).
    destruct (IH (xd ++ [u]) xr yd (v :: yr) (out ++ [u]) zs) as (xd' & xr' & yd' & yr' & out' & zs' & E & H);
      try done; [by rewrite <-app_assoc|cbn; lia|cbn; lia|].
    exists xd', xr', yd', yr', out', zs'. rewrite <-app_assoc in H. split; [exact E|]. rewrite <-Hx, <-Hy. exact H.
  - rewrite (bind_ret _ _ _ _ _ (store_cell_run ad out z zs v w Lt)). rewrite decide_False by lia.
    rewrite <-(len_snoc yd v), <-(len_snoc out v). rewrite (cons_middle v out zs), (app_assoc out [v] zs).
    destruct (IH xd (u :: xr) (yd ++ [v]) yr (out ++ [v]) zs) as (xd' & xr' & yd' & yr' & out' & zs' & E & H);
      try done; [by rewrite <-app_assoc|cbn; lia|cbn; lia|].
    exists xd', xr', yd', yr', out', zs'. rewrite <-app_assoc in H. split; [exact E|]. rewrite <-Hx, <-Hy. exact H.
Qed.

(** Both parts of the merge of two arrays. *)
Lemma merge_two x y ad w n :
  N x = len (cells (arr x)) → N y = len (cells (arr y)) → n = Z.to_nat (N y + N x) →
  addr (arr x) ∈ live w → addr (arr y) ∈ live w → ad ∈ live w →
  let fuel := Z.to_nat (N x + N y + 1) in
  ∀ B (K : block → prog Process B),
  (r ← merge_while fuel x y (mk_block ad (replicate n 0)) 0 0 0;
   let '(tmp, a, b, m) := r in
   tmp ← (if a =? N x then copy_while fuel y tmp b m
          else if b =? N y then copy_while fuel x tmp a m
          else mret tmp); K tmp) w
  = K (mk_block ad (list_merge Z.le (cells (arr x)) (cells (arr y)))) w.
Proof.
  intros Nx Ny Hn Lx Ly Lt fuel B K.
  destruct (merge_while_run fuel x y ad w [] (cells (arr x)) [] (cells (arr y)) [] (replicate n 0))
    as (xd & xr & yd & yr & out & zs & E & Hx & Hy & Hnil & Hz & Hout);
    [done..|rewrite length_replicate; lia|unfold fuel; lia|done|done|done|].
  cbn [app length] in E, Hout. rewrite (bind_ret _ _ _ _ _ E). cbn beta iota. rewrite Hout.
  assert (length xr ≤ length (cells (arr x)) ∧ length yr ≤ length (cells (arr y)))%nat as [Hxr Hyr].
  { rewrite Hx, Hy, !length_app. lia. }
  assert (len xd = N x - len xr) as Ex by (rewrite Nx, Hx, length_app; lia).
  assert (len yd = N y - len yr) as Ey by (rewrite Ny, Hy, length_app; lia).
  rewrite Ex, Ey. destruct xr as [|u xr].
  - rewrite (proj2 (Z.eqb_eq _ _)) by (cbn; lia). rewrite <-Ey. cbn [app].
    rewrite (bind_ret _ _ _ _ _ (copy_while_run fuel y ad w yd yr out zs Hy Ny Hz ltac:(unfold fuel; lia) Ly Lt)).
    done.
  - destruct Hnil as [|Hyn]; [done|]. subst yr. rewrite (proj2 (Z.eqb_neq _ _)) by (cbn; lia).
    rewrite (proj2 (Z.eqb_eq (N y - _) _)) by (cbn; lia). rewrite <-Ex, app_nil_r.
    rewrite (bind_ret _ _ _ _ _ (copy_while_run fuel x ad w xd (u :: xr) out zs Hx Nx
      ltac:(rewrite Hz; cbn; lia) ltac:(unfold fuel; lia) Lx Lt)).
    done.
Qed.

(** *** Ownership of the blocks *)

Definition addrs (ts : list task) : list nat := mjoin ((λ s, [addr (arr s); addr (stack s)]) <$> ts).

Lemma addrs_app ts1 ts2 : addrs (ts1 ++ ts2) = addrs ts1 ++ addrs ts2.
Proof. unfold addrs. by rewrite fmap_app, join_app. Qed.

Lemma addrs_cons s ts : addrs (s :: ts) = addr (arr s) :: addr (stack s) :: addrs ts.
Proof. done. Qed.

(** The live blocks are those of the list, each once, and older than the next one. *)
Record owned (A : list nat) (L : gset nat) (n : nat) : Prop := {
  ow_nodup : NoDup A;
  ow_live b : b ∈ L ↔ b ∈ A;
  ow_next b : b ∈ A → (b < n)%nat;
}.

Lemma owned_perm A B L n : A ≡ₚ B → owned A L n → owned B L n.
Proof. intros HP [H1 H2 H3]. split; [by rewrite <-HP|intros; by rewrite <-HP|intros b; rewrite <-HP; auto]. Qed.

(** A block is allocated and another one released. *)
Lemma owned_replace a A L n : owned (a :: A) L n → owned (n :: A) (({[n]} ∪ L) ∖ {[a]}) (n + 1).
Proof.
  intros [H1 H2 H3]. apply NoDup_cons in H1 as [Ha H1].
  assert (a < n)%nat as Hn by (apply H3; by left). split.
  - apply NoDup_cons. split; [|done]. intros Hin. assert (n < n)%nat by (apply H3; by right). lia.
  - intros b. rewrite elem_of_difference, elem_of_union, !elem_of_singleton, H2, !elem_of_cons. split.
    + tauto.
    + intros [->|Hb]; [split; [by left|lia]|]. split; [auto|]. by intros ->.
  - intros b [->|Hb]%elem_of_cons; [lia|]. assert (b < n)%nat by (apply H3; by right). lia.
Qed.

Lemma owned_free a A L n : owned (a :: A) L n → owned A (L ∖ {[a]}) n.
Proof.
  intros [H1 H2 H3]. apply NoDup_cons in H1 as [Ha H1]. split; [done| |intros; apply H3; by right].
  intros b. rewrite elem_of_difference, elem_of_singleton, H2, elem_of_cons. split; [tauto|].
  intros Hb. split; [auto|]. by intros ->.
Qed.

Lemma owned_alloc A L n : owned A L n → owned (n :: A) ({[n]} ∪ L) (n + 1).
Proof.
  intros [H1 H2 H3]. split.
  - apply NoDup_cons. split; [|done]. intros Hin. specialize (H3 _ Hin). lia.
  - intros b. by rewrite elem_of_union, elem_of_singleton, H2, elem_of_cons.
  - intros b [->|Hb]%elem_of_cons; [lia|]. specialize (H3 _ Hb). lia.
Qed.

Definition owns (w : Process) : Prop := owned (addrs (tasks w)) (live w) (next w).

Lemma owns_live w s : owns w → s ∈ tasks w → addr (arr s) ∈ live w ∧ addr (stack s) ∈ live w.
Proof.
  intros [_ H _] (i & Hi)%list_elem_of_lookup_1. apply take_drop_middle in Hi. rewrite !H, <-Hi, addrs_app, addrs_cons.
  split; apply elem_of_app; right; [left|right; left].
Qed.

Lemma free_block_run b w : b ∈ live w → free b w = Ret tt (mk_process (tasks w) (curT w) (live w ∖ {[b]}) (next w)).
Proof. intros Hb. unfold free. by rewrite decide_True. Qed.

(** At the end everything is released. *)
Lemma free_loop_run ts w : owned (addrs ts) (live w) (next w) →
  ∃ w', free_loop ts w = Ret tt w' ∧ live w' = ∅.
Proof.
  revert w. induction ts as [|s ts IH]; intros w Ho; cbn [free_loop].
  - exists w. split; [done|]. apply set_eq. intros b. rewrite (ow_live _ _ _ Ho). cbn. set_solver.
  - rewrite addrs_cons in Ho.
    assert (addr (arr s) ∈ live w) as H1 by (apply (ow_live _ _ _ Ho); by left).
    rewrite (bind_ret _ _ _ _ _ (free_block_run _ _ H1)). apply owned_free in Ho.
    assert (addr (stack s) ∈ live w ∖ {[addr (arr s)]}) as H2 by (apply (ow_live _ _ _ Ho); by left).
    rewrite (bind_ret _ _ _ _ _ (free_block_run _ (mk_process _ _ _ _) H2)). apply owned_free in Ho. by apply IH.
Qed.

(** ** The calls of [merge] *)

(** An array of the stated length, sorted. *)
Definition good (s : task) : Prop := N s = len (cells (arr s)) ∧ StronglySorted Z.le (cells (arr s)).

Definition all_cells (ts : list task) : list Z := mjoin ((λ s, cells (arr s)) <$> ts).

Lemma all_cells_app ts1 ts2 : all_cells (ts1 ++ ts2) = all_cells ts1 ++ all_cells ts2.
Proof. unfold all_cells. by rewrite fmap_app, join_app. Qed.

Lemma all_cells_cons s ts : all_cells (s :: ts) = cells (arr s) ++ all_cells ts.
Proof. done. Qed.

Lemma int_add_run a b w : i32_range (a + b) → int_add a b w = Ret (a + b) w.
Proof. intros H. unfold int_add. by rewrite bool_decide_eq_true_2. Qed.

Lemma task_at_run k s w : tasks w !! k = Some s → task_at k w = Ret s w.
Proof. intros H. unfold task_at. by rewrite H. Qed.

Lemma assign_run k b n s w :
  tasks w !! k = Some s → assign k b n w = Ret tt (set_tasks (<[k := set_arr b n s]> (tasks w)) (curT w) w).
Proof. intros H. unfold assign. by rewrite H. Qed.

(** One call: [z] is the last task, [z1] the last one after the first assignment. *)
Lemma merge_step k pre x y z z1 rest w :
  tasks w = pre ++ x :: y :: rest → length rest = k → (y :: rest) !! k = Some z →
  (set_arr (arr z) (N z) y :: rest) !! k = Some z1 →
  N x = len (cells (arr x)) → N y = len (cells (arr y)) → N y + N x < 2 ^ 31 → owns w →
  merge (S (S k)) (length pre) w = merge (S k) (length pre + 1)
    (mk_process (pre ++ x :: <[k := set_arr (mk_block (next w) (list_merge Z.le (cells (arr x)) (cells (arr y))))
                                     (N y + N x) z1]> (set_arr (arr z) (N z) y :: rest))
       (curT w) (({[next w]} ∪ live w) ∖ {[addr (arr y)]}) (next w + 1)).
Proof.
  intros Hw Hk Hz Hz1 Nx Ny Hsum Ho.
  assert (i32_range (N y + N x)) as Hr by (unfold i32_range; lia).
  destruct (owns_live w x Ho) as [Lx _]; [rewrite Hw; set_solver|].
  destruct (owns_live w y Ho) as [Ly _]; [rewrite Hw; set_solver|].
  cbn [merge]. assert (task_at (length pre) w = Ret x w) as E1.
  { apply task_at_run. by rewrite Hw, lookup_app_r, Nat.sub_diag. }
  rewrite (bind_ret _ _ _ _ _ E1).
  assert (task_at (length pre + 1) w = Ret y w) as E2.
  { apply task_at_run. rewrite Hw, lookup_app_r by lia. by replace (length pre + 1 - length pre)%nat with 1%nat by lia. }
  rewrite (bind_ret _ _ _ _ _ E2), (bind_ret _ _ _ _ _ (int_add_run _ _ w Hr)).
  set (w1 := mk_process (tasks w) (curT w) ({[next w]} ∪ live w) (next w + 1)).
  assert (calloc (N y + N x) w = Ret (mk_block (next w) (replicate (Z.to_nat (N y + N x)) 0)) w1) as E3 by done.
  rewrite (bind_ret _ _ _ _ _ E3).
  etransitivity; [apply (merge_two x y (next w) w1); [done|done|done|set_solver|set_solver|set_solver]|].
  cbn beta. assert (addr (arr y) ∈ live w1) as Ly1 by set_solver.
  rewrite (bind_ret _ _ _ _ _ (free_block_run _ w1 Ly1)), (bind_ret _ _ _ _ _ (int_add_run _ _ _ Hr)).
  set (w2 := mk_process (tasks w1) (curT w1) (live w1 ∖ {[addr (arr y)]}) (next w1)).
  assert (task_at (length pre + S k) w2 = Ret z w2) as E4.
  { apply task_at_run. change (tasks w2) with (tasks w). rewrite Hw, lookup_app_r by lia.
    by replace (length pre + S k - length pre)%nat with (S k) by lia. }
  rewrite (bind_ret _ _ _ _ _ E4).
  assert (tasks w2 !! (length pre + 1)%nat = Some y) as E5.
  { change (tasks w2) with (tasks w). rewrite Hw, lookup_app_r by lia. by replace (length pre + 1 - length pre)%nat with 1%nat by lia. }
  rewrite (bind_ret _ _ _ _ _ (assign_run _ _ _ _ _ E5)).
  assert (<[(length pre + 1)%nat := set_arr (arr z) (N z) y]> (tasks w2)
    = pre ++ x :: set_arr (arr z) (N z) y :: rest) as E6.
  { change (tasks w2) with (tasks w). rewrite Hw, insert_app_r_alt by lia. by replace (length pre + 1 - length pre)%nat with 1%nat by lia. }
  rewrite E6. set (w3 := set_tasks _ _ w2).
  assert (tasks w3 !! (length pre + S k)%nat = Some z1) as E7.
  { cbn [tasks w3 set_tasks]. rewrite lookup_app_r by lia.
    by replace (length pre + S k - length pre)%nat with (S k) by lia. }
  rewrite (bind_ret _ _ _ _ _ (assign_run _ _ _ _ _ E7)). f_equal.
  unfold w3, w2, w1, set_tasks. cbn [tasks curT live next]. f_equal. rewrite insert_app_r_alt by lia.
  by replace (length pre + S k - length pre)%nat with (S k) by lia.
Qed.

Lemma list_merge_good x y b s :
  good x → good y →
  good (set_arr (mk_block b (list_merge Z.le (cells (arr x)) (cells (arr y)))) (N y + N x) s).
Proof.
  intros [Nx Sx] [Ny Sy]. unfold good. destruct s. cbn.
  rewrite (Permutation_length (merge_Permutation _ _ _)), length_app. split; [lia|].
  apply Sorted_StronglySorted; [intros ???; lia|].
  apply (Sorted_list_merge Z.le); [by apply StronglySorted_Sorted..].
Qed.

(** [merge] leaves everything, in order, with the last task, and takes and releases memory
    in pairs. *)
Lemma merge_run k : ∀ pre seg w,
  tasks w = pre ++ seg → length seg = S k → Forall good seg → owns w → len (all_cells seg) < 2 ^ 31 →
  ∃ w' pre' s, merge (S k) (length pre) w = Ret tt w' ∧ tasks w' = pre' ++ [s] ∧
    length (tasks w') = length (tasks w) ∧ owns w' ∧ good s ∧ cells (arr s) ≡ₚ all_cells seg.
Proof.
  induction k as [|k IH]; intros pre seg w Hw Hk Hg Ho Hsum.
  { destruct seg as [|s [|]]; try done. apply Forall_cons in Hg as [Hg _].
    exists w, pre, s. split_and!; try done. rewrite all_cells_cons. cbn. by rewrite app_nil_r. }
  destruct seg as [|x [|y rest]]; [done..|]. injection Hk as Hk.
  apply Forall_cons in Hg as [Hx Hg]. apply Forall_cons in Hg as [Hy Hg].
  rewrite !all_cells_cons, !length_app in Hsum. unfold owns in Ho. rewrite Hw in Ho.
  assert (∀ seg' w', length seg' = S k → Forall good seg' → all_cells seg' ≡ₚ all_cells (x :: y :: rest) →
    tasks w' = (pre ++ [x]) ++ seg' → owns w' →
    merge (S (S k)) (length pre) w = merge (S k) (length pre + 1) w' →
    ∃ w' pre' s, merge (S (S k)) (length pre) w = Ret tt w' ∧ tasks w' = pre' ++ [s] ∧
      length (tasks w') = length (tasks w) ∧ owns w' ∧ good s ∧ cells (arr s) ≡ₚ all_cells (x :: y :: rest)) as Hnext.
  { intros seg' w' Hl Hg' Hp Hw' Ho' ->.
    destruct (IH (pre ++ [x]) seg' w' Hw' Hl Hg' Ho') as (w'' & pre' & s & E & H1 & H2 & H3 & H4 & H5).
    { rewrite (Permutation_length Hp), !all_cells_cons, !length_app. lia. }
    exists w'', pre', s. rewrite length_app in E. split_and!; try done; [|by rewrite H5].
    rewrite H2, Hw', Hw, !length_app, Hl. cbn. lia. }
  destruct Hx as [Nx Sx] eqn:Ex, Hy as [Ny Sy] eqn:Ey. clear Ex Ey.
  set (tmp := mk_block (next w) (list_merge Z.le (cells (arr x)) (cells (arr y)))).
  assert (∀ s, good (set_arr tmp (N y + N x) s)) as Htmp by (intros; by apply list_merge_good).
  assert (∀ s, cells (arr (set_arr tmp (N y + N x) s)) ≡ₚ cells (arr x) ++ cells (arr y)) as Hpt.
  { intros []. cbn. apply merge_Permutation. }
  destruct rest as [|z mid _] using rev_ind.
  - cbn in Hk. subst k.
    pose proof (merge_step 0 pre x y y _ [] w Hw eq_refl eq_refl eq_refl Nx Ny ltac:(lia)) as E.
    unfold owns in E. rewrite Hw in E. specialize (E Ho).
    refine (Hnext [set_arr tmp (N y + N x) (set_arr (arr y) (N y) y)] _ _ _ _ _ _ E); [done|by apply Forall_singleton| | |].
    + rewrite !all_cells_cons. rewrite Hpt. unfold all_cells. cbn. by rewrite !app_nil_r.
    + cbn [tasks]. by rewrite <-app_assoc.
    + unfold owns. cbn [tasks live next]. refine (owned_perm (next w :: addrs pre ++ [addr (arr x); addr (stack x); addr (stack y)]) _ _ _ _ _).
      * rewrite addrs_app. destruct y. cbn. solve_Permutation.
      * apply owned_replace. eapply owned_perm; [|exact Ho]. rewrite addrs_app. cbn. solve_Permutation.
  - rewrite length_app in Hk. cbn in Hk. assert (k = S (length mid)) as -> by lia.
    apply Forall_app in Hg as [Hmid Hz]. apply Forall_cons in Hz as [Hz _].
    assert (∀ s, (s :: mid ++ [z]) !! S (length mid) = Some z) as Hlk.
    { intros s. rewrite lookup_cons. by rewrite lookup_app_r, Nat.sub_diag. }
    pose proof (merge_step (S (length mid)) pre x y z z (mid ++ [z]) w Hw ltac:(rewrite length_app; cbn; lia)
      (Hlk _) (Hlk _) Nx Ny ltac:(lia)) as E.
    unfold owns in E. rewrite Hw in E. specialize (E Ho).
    change (<[S (length mid) := ?v]> (?a :: ?b)) with (a :: <[length mid := v]> b) in E.
    rewrite insert_app_r_alt, Nat.sub_diag in E by done. cbn [insert list_insert] in E.
    refine (Hnext (set_arr (arr z) (N z) y :: mid ++ [set_arr tmp (N y + N x) z]) _ _ _ _ _ _ E).
    + rewrite length_cons, length_app. cbn. lia.
    + constructor; [|apply Forall_app; split; [done|by apply Forall_singleton]].
      destruct Hz as [Nz Sz]. by destruct y.
    + rewrite !all_cells_cons, !all_cells_app, !all_cells_cons. rewrite (Hpt z). destruct y. cbn.
      rewrite !app_nil_r. solve_Permutation.
    + by rewrite <-app_assoc.
    + unfold owns. cbn [tasks live next].
      refine (owned_perm (next w :: addrs pre ++ [addr (arr x); addr (stack x); addr (stack y)] ++
        addrs mid ++ [addr (arr z); addr (stack z)]) _ _ _ _ _).
      * rewrite addrs_app, !addrs_cons, addrs_app, addrs_cons. destruct y, z. cbn. solve_Permutation.
      * apply owned_replace. eapply owned_perm; [|exact Ho].
        rewrite addrs_app, !addrs_cons, addrs_app, addrs_cons. cbn. solve_Permutation.
Qed.

(** ** Loading *)

Lemma store_in b k v w : addr b ∈ live w → 0 ≤ k < len (cells b) →
  store b k v w = Ret (mk_block (addr b) (upd (cells b) k v)) w.
Proof. intros Hl Hk. unfold store. rewrite decide_True by done. by rewrite set_at_in. Qed.

Lemma store_out b k v w : addr b ∈ live w → ¬ 0 ≤ k < len (cells b) → store b k v w = Undef OutOfBounds.
Proof. intros Hl Hk. unfold store, set_at. rewrite decide_True by done. by rewrite bool_decide_eq_false_2. Qed.

Lemma upd_zero m k : upd (replicate m 0) k 0 = replicate m 0.
Proof. unfold upd. apply insert_replicate. Qed.

Lemma read_loop_run aa sa m w n : ∀ d num ns,
  aa ∈ live w → sa ∈ live w → (n ≤ length ns)%nat → (length d + n ≤ m)%nat →
  read_loop n (len d) num ns (mk_block aa (d ++ replicate n 0)) (mk_block sa (replicate m 0)) w
  = Ret (mk_block aa (d ++ take n ns), mk_block sa (replicate m 0)) w.
Proof.
  induction n as [|n IH]; intros d num ns La Ls Hn Hm; cbn [read_loop]; [done|].
  destruct ns as [|v ns]; [cbn in Hn; lia|]. cbn [the tail replicate].
  change ((mret v : prog Process Z) ≫= ?K) with (K v). cbn beta.
  rewrite (bind_ret _ _ _ _ _ (store_cell_run aa d 0 (replicate n 0) v w La)).
  rewrite (bind_ret _ _ _ _ _ (store_in (mk_block sa (replicate m 0)) (len d) 0 w Ls
    ltac:(cbn; rewrite length_replicate; lia))). cbn [addr cells]. rewrite upd_zero.
  rewrite <-(len_snoc d v), (cons_middle v d (replicate n 0)), (app_assoc d [v]).
  rewrite IH; [by rewrite <-app_assoc|done|done|cbn in Hn; lia|rewrite length_app; cbn; lia].
Qed.

(** A coroutine that has not run yet. *)
Definition fresh (s : task) : Prop :=
  env s = begin ∧ is_finished s = false ∧ N s = len (cells (arr s)) ∧
  outer s [(0, len (cells (arr s)) - 1)].

Definition file_ok (f : option numbers) : Prop := ∃ n ns, f = Some (n :: ns) ∧ 2 ≤ n ≤ len ns.

Definition file_numbers (f : option numbers) : list Z :=
  match f with Some (n :: ns) => take (Z.to_nat n) ns | _ => [] end.

(** After the two allocations. *)
Definition allocated (w : Process) : Process :=
  mk_process (tasks w) (curT w) ({[(next w + 1)%nat]} ∪ ({[next w]} ∪ live w)) (next w + 1 + 1).

Lemma load_file_arrays n ns N_all w :
  0 ≤ n ≤ len ns → i32_range (N_all + n) →
  load_file (n :: ns) N_all w =
    (st ← store (mk_block (next w + 1) (replicate (Z.to_nat n) 0)) 0 0;
     st ← store st 1 (n - 1);
     mret (N_all + n, mk_task begin false (mk_block (next w) (take (Z.to_nat n) ns)) st
             1 0 (n - 1) 0 0 0 0 0 n)) (allocated w).
Proof.
  intros Hn Hr. unfold load_file. cbn [head the tail].
  change ((mret n : prog Process Z) ≫= ?K) with (K n). cbn beta.
  rewrite (bind_ret _ _ _ _ _ (int_add_run _ _ w Hr)). rewrite bool_decide_eq_false_2 by lia.
  set (w1 := mk_process (tasks w) (curT w) ({[next w]} ∪ live w) (next w + 1)).
  set (m := Z.to_nat n). set (w2 := allocated w).
  assert (calloc n w = Ret (mk_block (next w) (replicate m 0)) w1) as E1 by done.
  assert (calloc n w1 = Ret (mk_block (next w + 1) (replicate m 0)) w2) as E2 by done.
  rewrite (bind_ret _ _ _ _ _ E1), (bind_ret _ _ _ _ _ E2).
  assert (next w ∈ live w2 ∧ (next w + 1)%nat ∈ live w2) as [La Ls] by (cbn; set_solver).
  pose proof (read_loop_run (next w) (next w + 1) m w2 m [] None ns La Ls ltac:(lia) ltac:(cbn; lia)) as E3.
  cbn [app length] in E3. change (Z.of_nat 0) with 0 in E3.
  by rewrite (bind_ret _ _ _ _ _ E3).
Qed.

Lemma load_file_run n ns N_all w :
  2 ≤ n ≤ len ns → i32_range (N_all + n) →
  ∃ s w', load_file (n :: ns) N_all w = Ret (N_all + n, s) w' ∧ fresh s ∧
    cells (arr s) = take (Z.to_nat n) ns ∧ tasks w' = tasks w ∧ curT w' = curT w ∧
    (∀ A, owned A (live w) (next w) → owned (addr (arr s) :: addr (stack s) :: A) (live w') (next w')).
Proof.
  intros Hn Hr. rewrite load_file_arrays by (done || lia).
  set (w2 := allocated w). set (m := Z.to_nat n).
  assert ((next w + 1)%nat ∈ live w2) as Ls by (cbn; set_solver).
  rewrite (bind_ret _ _ _ _ _ (store_in (mk_block (next w + 1) (replicate m 0)) 0 0 w2 Ls
    ltac:(cbn; rewrite length_replicate; lia))). cbn [addr cells]. rewrite upd_zero.
  rewrite (bind_ret _ _ _ _ _ (store_in (mk_block (next w + 1) (replicate m 0)) 1 (n - 1) w2 Ls
    ltac:(cbn; rewrite length_replicate; lia))). cbn [addr cells].
  assert (len (take m ns) = n) as Hlen by (rewrite length_take; lia).
  eexists _, w2. split_and!; [done| |done|done|done|].
  - split_and!; [done|done|cbn; lia|]. cbn [arr cells]. rewrite Hlen.
    split; cbn [top stack arr cells ranges_ok stack_is length].
    + done.
    + assert (0 ≤ 1 < len (replicate m 0)) as H1 by (rewrite length_replicate; lia). split_and!; [|by apply at_upd_eq|done].
      rewrite at_upd_ne by done. unfold at_. rewrite bool_decide_eq_true_2 by done. apply lookup_replicate. lia.
    + rewrite length_upd, length_replicate. lia.
    + lia.
    + intros u v x y Huv Hu%at_range Hv%at_range. right. exists 0, (n - 1). split; [by left|lia].
  - intros A Ho. cbn [addr arr stack].
    eapply owned_perm; [apply Permutation_swap|]. by apply owned_alloc, owned_alloc.
Qed.

Lemma load_files_run files : ∀ N_all w,
  Forall file_ok files → 0 ≤ N_all → N_all + len (mjoin (file_numbers <$> files)) < 2 ^ 31 → owns w →
  ∃ ts w', load_files files N_all w = Ret (N_all + len (all_cells ts)) w' ∧ tasks w' = tasks w ++ ts ∧
    curT w' = curT w ∧ owns w' ∧ Forall fresh ts ∧ all_cells ts = mjoin (file_numbers <$> files) ∧
    length ts = length files.
Proof.
  induction files as [|f files IH]; intros N_all w Hf Hn Hsum Ho; cbn [load_files].
  - exists [], w. rewrite app_nil_r, Z.add_0_r. by split_and!.
  - apply Forall_cons in Hf as [(n & ns & -> & Hns) Hf].
    change (mjoin (file_numbers <$> Some (n :: ns) :: files))
      with (take (Z.to_nat n) ns ++ mjoin (file_numbers <$> files)) in *.
    rewrite length_app, length_take in Hsum.
    destruct (load_file_run n ns N_all w Hns) as (s & w1 & E & Hs & Hcs & Ht & Hc & Ho1).
    { unfold i32_range. lia. }
    rewrite (bind_ret _ _ _ _ _ E). cbn beta iota.
    set (w2 := set_tasks (tasks w1 ++ [s]) (curT w1) w1).
    assert (modify (λ w, set_tasks (tasks w ++ [s]) (curT w) w) w1 = Ret tt w2) as E2 by done.
    rewrite (bind_ret _ _ _ _ _ E2).
    destruct (IH (N_all + n) w2 Hf) as (ts & w' & E3 & H1 & H2 & H3 & H4 & H5 & H6); [lia|lia| |].
    { unfold owns, w2. cbn [tasks live next set_tasks]. rewrite Ht, addrs_app.
      eapply owned_perm; [|exact (Ho1 _ Ho)]. rewrite addrs_cons. cbn. solve_Permutation. }
    assert (len (cells (arr s)) = n) as Hlen by (rewrite Hcs, length_take; lia).
    exists (s :: ts), w'. rewrite all_cells_cons, length_app. split_and!.
    + rewrite E3. f_equal. lia.
    + rewrite H1. unfold w2. cbn [tasks set_tasks]. by rewrite Ht, <-app_assoc.
    + by rewrite H2.
    + done.
    + by constructor.
    + by rewrite Hcs, H5.
    + cbn. by rewrite H6.
Qed.

(** ** The program *)

Lemma fresh_heads s : fresh s →
  ∃ n f, heading n s f ∧ addr (arr f) = addr (arr s) ∧ addr (stack f) = addr (stack s) ∧ good f ∧
    cells (arr f) ≡ₚ cells (arr s).
Proof.
  destruct s as [c fin a st tp l h x i j p t n]. intros (Hb & Hf & Hn & Ho). cbn in Hb, Hf, Hn. subst c fin n.
  set (s1 := mk_task outer_test false a st tp l h x i j p t (len (cells a))).
  destruct (outer_sorts s1 [(0, len (cells a) - 1)]) as (n & f & He & E1 & E2 & E3 & E4 & E5 & E6 & E7).
  { by destruct Ho. }
  exists (S n), f. split_and!; try done.
  - split; [exact (ends_yield n s1 f He)|]. split_and!; [done| |done]. destruct f. cbn in E5. by subst.
  - split; [|done]. rewrite E3. cbn. by rewrite (Permutation_length E6).
Qed.

Lemma fresh_plan ts : Forall fresh ts →
  ∃ L, plan_ok L ∧ now_of <$> L = ts ∧ addrs (end_of <$> L) = addrs ts ∧ Forall good (end_of <$> L) ∧
    all_cells (end_of <$> L) ≡ₚ all_cells ts.
Proof.
  induction 1 as [|s ts Hs _ (L & H1 & H2 & H3 & H4 & H5)].
  - exists []. split_and!; try done; by constructor.
  - destruct (fresh_heads s Hs) as (n & f & Hh & E1 & E2 & E3 & E4). exists ((s, f, n) :: L). split_and!.
    + by constructor.
    + cbn. by rewrite H2.
    + rewrite fmap_cons, !addrs_cons, H3. cbn. by rewrite E1, E2.
    + by constructor.
    + rewrite fmap_cons, !all_cells_cons, H5. cbn. by rewrite E4.
Qed.

Lemma print_loop_run b w r : ∀ d, cells b = d ++ r → addr b ∈ live w → print_loop (length r) (len d) b w = Ret r w.
Proof.
  induction r as [|u r IH]; intros d Hb Hl; cbn [print_loop length]; [done|].
  rewrite (bind_ret _ _ _ _ _ (load_run b d u r w Hl Hb)), <-(len_snoc d u).
  by rewrite (bind_ret _ _ _ _ _ (IH (d ++ [u]) ltac:(by rewrite <-app_assoc) Hl)).
Qed.

(** C20: Files of at least two numbers each are sorted into out.txt: every coroutine comes to
    its end, no access is out of bounds, and all memory is released exactly once. *)
Theorem hw_sort_sorts files :
  files ≠ [] → Forall file_ok files → len (mjoin (file_numbers <$> files)) < 2 ^ 31 →
  ∃ m, ∀ fuel, (m ≤ fuel)%nat → ∃ out w, main fuel files start = Ret out w ∧
    out ≡ₚ mjoin (file_numbers <$> files) ∧ StronglySorted Z.le out ∧ live w = ∅.
Proof.
  intros Hne Hf Hsum.
  destruct (load_files_run files 0 start Hf) as (ts & w1 & E1 & Ht & Hc & Ho & Hfr & Hcells & Hlen); [done|done| |].
  { split; [constructor|cbn; set_solver|]. by intros b ?%not_elem_of_nil. }
  cbn [app tasks start] in Ht. destruct (fresh_plan ts Hfr) as (L & HL & Hnow & Hadd & Hgood & Hall).
  assert (length L = length files) as HlenL by (rewrite <-Hlen, <-Hnow; by rewrite length_fmap).
  assert (∃ f0 files0, files = f0 :: files0) as (f0 & files0 & Ef) by (destruct files; [done|eauto]).
  destruct (q_sort_returns L 0 HL) as (m & c' & Hq); [rewrite HlenL, Ef; cbn; lia|].
  assert (length files + 1 = S (S (length files0)))%nat as Hargc by (rewrite Ef; cbn; lia).
  exists m. intros fuel Hfuel. unfold main. rewrite Hargc. cbn [Nat.ltb Nat.leb].
  rewrite (bind_ret _ _ _ _ _ E1).
  rewrite (bind_ret _ _ _ _ _ (Hq fuel w1 Hfuel ltac:(by rewrite Ht, Hnow) Hc)).
  set (w2 := set_tasks (end_of <$> L) c' w1).
  destruct (merge_run (length files0) [] (end_of <$> L) w2) as (w3 & pre & s & E3 & Hw3 & Hl3 & Ho3 & Hg3 & Hc3).
  { done. }
  { by rewrite length_fmap, HlenL, Ef. }
  { done. }
  { unfold owns, w2. cbn [tasks live next set_tasks]. rewrite Hadd, <-Ht. exact Ho. }
  { by rewrite (Permutation_length Hall), Hcells. }
  rewrite (bind_ret _ _ _ _ _ E3).
  assert (length (pre ++ [s]) = S (length files0)) as Hlp.
  { rewrite <-Hw3, Hl3. unfold w2. cbn [tasks set_tasks]. by rewrite length_fmap, HlenL, Ef. }
  assert (task_at (S (S (length files0)) - 2) w3 = Ret s w3) as E4.
  { apply task_at_run. rewrite Hw3. rewrite length_app in Hlp. cbn in Hlp.
    replace (S (S (length files0)) - 2)%nat with (length pre) by lia. by rewrite lookup_app_r, Nat.sub_diag. }
  rewrite (bind_ret _ _ _ _ _ E4).
  assert (Z.to_nat (0 + len (all_cells ts)) = length (cells (arr s))) as ->.
  { rewrite (Permutation_length Hc3), (Permutation_length Hall). lia. }
  destruct (owns_live w3 s Ho3) as [Hl _]; [rewrite Hw3; set_solver|].
  rewrite (bind_ret _ _ _ _ _ (print_loop_run (arr s) w3 (cells (arr s)) [] eq_refl Hl)).
  destruct (free_loop_run (tasks w3) w3 Ho3) as (w4 & E5 & Hfree).
  exists (cells (arr s)), w4. split_and!; [|by rewrite Hc3, Hall, Hcells|by apply Hg3|done].
  unfold get. unfold mbind at 1, prog_bind at 1. by rewrite (bind_ret _ _ _ _ _ E5).
Qed.

(** A file of fewer than two numbers is written behind the end of its stack. *)
Theorem hw_sort_small n ns files N_all w :
  0 ≤ n < 2 → n ≤ len ns → i32_range (N_all + n) →
  load_files (Some (n :: ns) :: files) N_all w = Undef OutOfBounds.
Proof.
  intros Hn Hns Hr. cbn [load_files]. apply bind_undef. rewrite load_file_arrays by (done || lia).
  set (w2 := allocated w). set (b := mk_block (next w + 1) (replicate (Z.to_nat n) 0)).
  assert (addr b ∈ live w2) as Ls by (cbn; set_solver).
  assert (len (cells b) = n) as Hb by (cbn; rewrite length_replicate; lia).
  destruct (decide (n = 0)) as [->|Hn0].
  - apply bind_undef, store_out; [done|lia].
  - rewrite (bind_ret _ _ _ _ _ (store_in b 0 0 w2 Ls ltac:(lia))). apply bind_undef, store_out; [done|].
    cbn [cells]. rewrite length_upd. lia.
Qed.

Lemma hw_sort_sorts_witness : ∃ fuel out w,
  main fuel [Some [3; 5; 1; 4]; Some [2; 9; 0]] start = Ret out w ∧ StronglySorted Z.le out.
Proof.
  destruct (hw_sort_sorts [Some [3; 5; 1; 4]; Some [2; 9; 0]]) as (m & Hm).
  - discriminate.
  - repeat constructor; do 2 eexists; (split; [reflexivity|cbn; lia]).
  - vm_compute. reflexivity.
  - destruct (Hm m (Nat.le_refl m)) as (out & w & E & _ & H & _). exists m, out, w. split; [exact E|exact H].
Defined.

Lemma hw_sort_small_witness : load_files [Some [1; 7]; Some [2; 9; 0]] 0 start = Undef OutOfBounds.
Proof.
  apply (hw_sort_small 1 [7]); [lia|cbn; lia|]. split; [discriminate|reflexivity].
Defined.
