(* ===== verification/JumpExample.v ===== *)
(** * Coroutines that jump

    Model of src/sysprog/1/example_jmp.c, the example that hw_sort.cpp starts from: tasks
    that share one stack frame and pass the processor on with setjmp and longjmp.  C leaves
    a jump into a frame undefined that another jump has left; as in [HwSort] the model takes
    the frames of [my_coroutine] to be at the same place, and [i] of [main] to keep its
    value, so that a task is where it stopped and its [struct task]. *)

From S2P Require Import Prelude.

(** ** The tasks *)

(** Where a task goes on: in [main] behind the first setjmp, behind the first or the second
    [check_resched], or behind that of the loop that waits. *)
Inductive env : Type := Entry | First | Second | Waiting.

(** [struct task]; [id] is the index. *)
Record task : Type := mk_task { jump : env; is_finished : bool; local_data : bytes }.

(** [tasks], [current_task_i], and what is printed. *)
Record world : Type := mk_world { tasks : list task; current_task_i : nat; out : list bytes }.

Definition number (i : nat) : bytes := dec (Z.of_nat i).

(** The first task that is not finished, from the [i]th. *)
Fixpoint active (i : nat) (ts : list task) : option nat :=
  match ts with
  | [] => None
  | t :: ts => if is_finished t then active (i + 1) ts else Some i
  end.

Section program.
(** [task_count] *)
Context (task_count : nat).

(** [check_resched]: the task goes on at [e], behind the ones after it. *)
Definition check_resched (e : env) (t : task) (o : list bytes) (w : world) : world :=
  mk_world (<[current_task_i w := mk_task e (is_finished t) (local_data t)]> (tasks w))
    ((current_task_i w + 1) mod task_count) (out w ++ o).

(** A turn of the loop that waits; it returns when all are finished, and [main] with it. *)
Definition waits (t : task) (o : list bytes) (w : world) : world + list bytes :=
  match active 0 (<[current_task_i w := t]> (tasks w)) with
  | Some i => inl (check_resched Waiting t (o ++ [lit "Task_id=" ++ number i ++ lit " still active, re-scheduling"]) w)
  | None => inr (out w ++ o ++ [lit "No more active tasks to schedule."; lit "Finished"])
  end.

(** What the current task does until it passes the processor on. *)
Definition my_coroutine (w : world) : world + list bytes :=
  let i := current_task_i w in
  match tasks w !! i with
  | None => inl w
  | Some t =>
      match jump t with
      | Entry =>
          inl (check_resched First (mk_task Entry (is_finished t) (lit "Local data for task_id" ++ number i))
                 [lit "Before re-schedule: task_id = " ++ number i] w)
      | First => inl (check_resched Second t [lit "After first re-schedule, task_id = " ++ number i] w)
      | Second =>
          let t := mk_task (jump t) true (local_data t) in
          waits t [lit "After second re-schedule, task_id = " ++ number i; lit "This is local data: " ++ local_data t] w
      | Waiting => waits t [] w
      end
  end.

(** [main] *)
Definition start : world := mk_world (replicate task_count (mk_task Entry false [])) 0 [].

Fixpoint run (fuel : nat) (w : world) : world + list bytes :=
  match fuel with
  | 0 => inl w
  | S fuel => match my_coroutine w with inl w => run fuel w | r => r end
  end.

(** ** What is printed *)

Definition data (i : nat) : bytes := lit "Local data for task_id" ++ number i.
Definition before (i : nat) : list bytes := [lit "Before re-schedule: task_id = " ++ number i].
Definition after_first (i : nat) : list bytes := [lit "After first re-schedule, task_id = " ++ number i].
Definition after_second (i : nat) : list bytes :=
  [lit "After second re-schedule, task_id = " ++ number i; lit "This is local data: " ++ data i].
Definition still_active (i : nat) : list bytes :=
  [lit "Task_id=" ++ number i ++ lit " still active, re-scheduling"].

(** The tasks when the first [c] have made their turn of a round. *)
Definition mixed (f g : nat → task) (c : nat) : list task :=
  (λ i, if decide (i < c) then f i else g i) <$> seq 0 task_count.

Lemma mixed_lookup f g c i : i < task_count → mixed f g c !! i = Some (if decide (i < c) then f i else g i).
Proof. intros Hi. unfold mixed. by rewrite list_lookup_fmap, lookup_seq_lt by done. Qed.

Lemma mixed_insert f g c : c < task_count → <[c := f c]> (mixed f g c) = mixed f g (c + 1).
Proof.
  intros Hc. apply list_eq. intros i. destruct (decide (i < task_count)) as [Hi|Hi].
  - destruct (decide (i = c)) as [->|Hne].
    + rewrite list_lookup_insert_eq by (unfold mixed; by rewrite length_fmap, length_seq).
      by rewrite mixed_lookup, decide_True by lia.
    + rewrite list_lookup_insert_ne, !mixed_lookup by done. f_equal. repeat case_decide; lia || done.
  - rewrite !lookup_ge_None_2; [done|..]; rewrite ?length_insert; unfold mixed; rewrite length_fmap, length_seq; lia.
Qed.

Lemma mixed_end f g h : mixed f g task_count = mixed h f 0.
Proof.
  unfold mixed. apply list_fmap_ext. intros i x Hx. apply lookup_seq in Hx as [-> Hi].
  rewrite decide_True, decide_False by lia. done.
Qed.

Definition fresh (i : nat) : task := mk_task Entry false [].
Definition first (i : nat) : task := mk_task First false (data i).
Definition second (i : nat) : task := mk_task Second false (data i).
Definition waiting (i : nat) : task := mk_task Waiting true (data i).

Lemma next_index c : c < task_count → (c + 1) mod task_count = if decide (c + 1 = task_count) then 0 else c + 1.
Proof. intros Hc. case_decide as E; [rewrite E; apply Nat.Div0.mod_same|apply Nat.mod_small; lia]. Qed.

(** A round in which every task does the same. *)
Lemma jump_round f g (says : nat → list bytes) :
  (∀ w i, tasks w !! i = Some (g i) → current_task_i w = i →
     my_coroutine w = inl (mk_world (<[i := f i]> (tasks w)) ((i + 1) mod task_count) (out w ++ says i))) →
  ∀ k c fuel o, k = task_count - c → c < task_count →
  run (k + fuel) (mk_world (mixed f g c) c o) =
  run fuel (mk_world (mixed f g task_count) 0 (o ++ (seq c k ≫= says))).
Proof.
  intros Hturn k. induction k as [|k IH]; intros c fuel o Hk Hc; [lia|]. cbn [Nat.add run].
  rewrite (Hturn _ c); [|by cbn; rewrite mixed_lookup, decide_False by lia|done]. cbn [tasks out].
  rewrite mixed_insert, next_index by done. case_decide as E.
  - assert (k = 0) as -> by lia. rewrite E. cbn. by rewrite app_nil_r.
  - rewrite IH by lia. cbn [seq mbind list_bind]. rewrite Nat.add_1_r. by rewrite <-app_assoc.
Qed.

Lemma active_none j ts : Forall (λ t, is_finished t = true) ts → active j ts = None.
Proof. intros H. revert j. induction H as [|t ts Ht _ IH]; intros j; cbn; [done|]. by rewrite Ht. Qed.

Lemma active_some j ts i t : Forall (λ t, is_finished t = true) (take i ts) → ts !! i = Some t → is_finished t = false →
  active j ts = Some (j + i).
Proof.
  revert j ts. induction i as [|i IH]; intros j [|x ts] Hf Hi Ht; try done; cbn in *.
  - injection Hi as ->. rewrite Ht. by rewrite Nat.add_0_r.
  - apply Forall_cons in Hf as [-> Hf]. rewrite (IH (j + 1) ts) by done. f_equal. lia.
Qed.

(** The third time a task looks for one that is not finished: the next one, or none. *)
Lemma active_next c : c < task_count →
  active 0 (<[c := mk_task Second true (data c)]> (mixed waiting second c)) =
  if decide (c + 1 = task_count) then None else Some (c + 1).
Proof.
  intros Hc. set (ts := <[c := _]> _).
  assert (Hlt : ∀ i, i ≤ c → ∃ t, ts !! i = Some t ∧ is_finished t = true).
  { intros i Hi. unfold ts. destruct (decide (i = c)) as [->|Hne].
    - eexists. by rewrite list_lookup_insert_eq by (unfold mixed; by rewrite length_fmap, length_seq).
    - eexists. by rewrite list_lookup_insert_ne, mixed_lookup, decide_True by lia. }
  assert (Hlen : length ts = task_count) by (unfold ts, mixed; by rewrite length_insert, length_fmap, length_seq).
  case_decide as E.
  - apply active_none, Forall_lookup. intros i t Hi.
    assert (i < task_count) by (rewrite <-Hlen; by eapply lookup_lt_Some).
    destruct (Hlt i) as (t' & Hi' & Hf); [lia|]. by simplify_eq.
  - apply (active_some 0 ts (c + 1) (second (c + 1))); [|unfold ts; by rewrite list_lookup_insert_ne, mixed_lookup, decide_False by lia|done].
    apply Forall_lookup. intros i t [Hi Hic]%lookup_take_Some. destruct (Hlt i) as (t' & Hi' & Hf); [lia|]. by simplify_eq.
Qed.

(** The last round. *)
Lemma last_round k : ∀ c fuel o, k + 1 = task_count - c → c < task_count →
  run (k + 1 + fuel) (mk_world (mixed waiting second c) c o) =
  inr (o ++ (seq c k ≫= λ i, after_second i ++ still_active (i + 1)) ++ after_second (task_count - 1) ++
       [lit "No more active tasks to schedule."; lit "Finished"]).
Proof.
  induction k as [|k IH]; intros c fuel o Hk Hc; cbn [Nat.add run].
  all: unfold my_coroutine; cbn [current_task_i tasks]; rewrite mixed_lookup, decide_False by lia; cbn [jump second local_data is_finished];
    unfold waits; cbn [tasks current_task_i out]; rewrite active_next by done.
  - rewrite decide_True by lia. replace (task_count - 1) with c by lia. done.
  - rewrite decide_False by lia. unfold check_resched. cbn [current_task_i tasks out is_finished local_data].
    change (mk_task Waiting true (data c)) with (waiting c). rewrite mixed_insert, next_index, decide_False by lia.
    rewrite IH by lia. cbn [seq mbind list_bind]. rewrite Nat.add_1_r. by rewrite <-!app_assoc.
Qed.

(** Three turns of every task: all write their data and pass the processor on, all pass it on
    again, and all finish; each but the last then waits for the next one, and the last one,
    that finds all finished, returns and with it [main].  The others never return. *)
Theorem jump_transcript fuel : 0 < task_count → 3 * task_count ≤ fuel →
  run fuel start = inr
    ((seq 0 task_count ≫= before) ++ (seq 0 task_count ≫= after_first) ++
     (seq 0 (task_count - 1) ≫= λ i, after_second i ++ still_active (i + 1)) ++ after_second (task_count - 1) ++
     [lit "No more active tasks to schedule."; lit "Finished"]).
Proof.
  intros Hn Hf. replace fuel with (task_count + (task_count + (task_count - 1 + 1 + (fuel - 3 * task_count)))) by lia.
  assert (start = mk_world (mixed first fresh 0) 0 []) as ->.
  { unfold start, mixed. f_equal. apply list_eq. intros i. rewrite list_lookup_fmap. destruct (decide (i < task_count)).
    - by rewrite lookup_replicate_2, lookup_seq_lt by done.
    - rewrite !lookup_ge_None_2; [done|rewrite length_seq; lia|rewrite length_replicate; lia]. }
  rewrite (jump_round first fresh before) by (lia || (intros w i Hi <-; unfold my_coroutine; by rewrite Hi)).
  rewrite (mixed_end first fresh second).
  rewrite (jump_round second first after_first) by (lia || (intros w i Hi <-; unfold my_coroutine; by rewrite Hi)).
  rewrite (mixed_end second first waiting). rewrite last_round by lia. by rewrite <-!app_assoc.
Qed.
End program.

(** The program has three tasks. *)
Example jump_three : run 3 9 (start 3) = inr
  (map lit ["Before re-schedule: task_id = 0"; "Before re-schedule: task_id = 1"; "Before re-schedule: task_id = 2";
    "After first re-schedule, task_id = 0"; "After first re-schedule, task_id = 1"; "After first re-schedule, task_id = 2";
    "After second re-schedule, task_id = 0"; "This is local data: Local data for task_id0"; "Task_id=1 still active, re-scheduling";
    "After second re-schedule, task_id = 1"; "This is local data: Local data for task_id1"; "Task_id=2 still active, re-scheduling";
    "After second re-schedule, task_id = 2"; "This is local data: Local data for task_id2";
    "No more active tasks to schedule."; "Finished"]%string).
Proof. vm_compute. reflexivity. Qed.
