(* ===== verification/Shell.v ===== *)
(** * The shell: its parser

    Model of [parse_line] of src/sysprog/2/parser.cpp: a line is read character by
    character into tokens, which are then distributed over the commands of a pipeline.
    Strings are represented by what is in front of their terminating zero. *)

From S2P Require Import Prelude CStrings.

(** ** Data: structs.h *)

(** [struct cmd]; [name] is [argv\[0\]], a null pointer when there is no argument. *)
Record cmd : Type := mk_cmd { name : option bytes; argv : list bytes; argc : Z }.

(** [struct cmd_line]; a command that was never written is [None]. *)
Record cmd_line : Type := mk_cmd_line { count : Z; commands : list (option cmd) }.

(** ** The state of [parse_line] *)

Record state : Type := mk_state {
  stdin : bytes;         (* what [getchar] has still to read *)
  stdout : bytes;        (* what has been printed *)
  tokens : list bytes;   (* with [tokens_count] elements *)
  tokens_size : Z;       (* bytes asked for by the last malloc or realloc of [tokens] *)
  token : bytes;         (* the first [j] characters of the token *)
  max_len : Z;           (* bytes of the token *)
  prev : ascii;
  cmd_count : Z;
}.

Definition BACKSLASH : ascii := "\"%char.
Definition DQUOTE : ascii := "034"%char.
Definition SQUOTE : ascii := "'"%char.
Definition BAR : ascii := "|"%char.
Definition GREATER : ascii := ">"%char.

Section parser.
(** [usable n]: the bytes the allocator really provides when it is asked for [n]. *)
Context (usable : Z → Z).

(** [getchar()]; [None] is [EOF]. *)
Definition getchar : prog state (option ascii) := λ s,
  match stdin s with
  | [] => Ret None s
  | c :: r => Ret (Some c) (mk_state r (stdout s) (tokens s) (tokens_size s) (token s) (max_len s) (prev s) (cmd_count s))
  end.

Definition putchar (c : ascii) : prog state unit := modify (λ s,
  mk_state (stdin s) (stdout s ++ [c]) (tokens s) (tokens_size s) (token s) (max_len s) (prev s) (cmd_count s)).

Definition set_prev (c : ascii) : prog state unit := modify (λ s,
  mk_state (stdin s) (stdout s) (tokens s) (tokens_size s) (token s) (max_len s) c (cmd_count s)).

Definition next_cmd : prog state unit := modify (λ s,
  mk_state (stdin s) (stdout s) (tokens s) (tokens_size s) (token s) (max_len s) (prev s) (cmd_count s + 1)).

(** [alloc1(token, max_len, j)] *)
Definition alloc1 : prog state unit := λ s,
  if bool_decide (bsize (token s) = max_len s) then
    if bool_decide (i32_range (max_len s * 2)) then
      Ret tt (mk_state (stdin s) (stdout s) (tokens s) (tokens_size s) (token s) (max_len s * 2) (prev s) (cmd_count s))
    else Undef SignedOverflow
  else Ret tt s.

(** [token\[j\] = c; j++; alloc1(token, max_len, j)] *)
Definition put (c : ascii) : prog state unit := λ s,
  if bool_decide (bsize (token s) < max_len s)%Z then
    alloc1 (mk_state (stdin s) (stdout s) (tokens s) (tokens_size s) (token s ++ [c]) (max_len s) (prev s) (cmd_count s))
  else Undef OutOfBounds.

(** [token\[j\] = 0; tokens\[tokens_count\] = token; tokens_count++] *)
Definition push_token : prog state unit := λ s,
  if bool_decide (bsize (token s) < max_len s ∧ 8 * (Z.of_nat (length (tokens s)) + 1) ≤ usable (tokens_size s))%Z
  then Ret tt (mk_state (stdin s) (stdout s) (tokens s ++ [c_string (token s)]) (tokens_size s) (token s) (max_len s) (prev s) (cmd_count s))
  else Undef OutOfBounds.

(** A token is complete and the next one is allocated. *)
Definition end_token : prog state unit :=
  _ ← push_token;
  modify (λ s, mk_state (stdin s) (stdout s) (tokens s) (8 * (Z.of_nat (length (tokens s)) + 1)) [] 5 (prev s) (cmd_count s)).

(** The loop of a double quoted string. *)
Fixpoint double_quoted (fuel : nat) : prog state unit :=
  match fuel with
  | 0 => out_of_fuel
  | S fuel =>
      c ← getchar;
      match c with
      | None => mret tt
      | Some c =>
          _ ← (if bool_decide (c = LF) then putchar GREATER else mret tt);
          p ← gets prev;
          if negb (bool_decide (c = DQUOTE)) || bool_decide (p = BACKSLASH)
          then _ ← put c; _ ← set_prev c; double_quoted fuel
          else end_token
      end
  end.

(** The loop of a single quoted string; the result is the last [c]. *)
Fixpoint single_quoted (fuel : nat) : prog state (option ascii) :=
  match fuel with
  | 0 => out_of_fuel
  | S fuel =>
      c ← getchar;
      match c with
      | None => mret None
      | Some c =>
          if bool_decide (c = LF) then _ ← putchar GREATER; single_quoted fuel
          else
            p ← gets prev;
            if negb (bool_decide (c = SQUOTE)) || bool_decide (p = BACKSLASH)
            then _ ← put c; _ ← set_prev c; single_quoted fuel
            else _ ← end_token; mret (Some c)
      end
  end.

(** [(char)c] *)
Definition as_char (c : option ascii) : ascii := default "255"%char c.

(** One character outside of quotes. *)
Definition switch (fuel : nat) (c : ascii) : prog state unit :=
  if bool_decide (c = SP) then _ ← end_token; set_prev c
  else if bool_decide (c = DQUOTE) then _ ← set_prev NUL; double_quoted fuel
  else if bool_decide (c = GREATER) then mret tt
  else if bool_decide (c = SQUOTE) then e ← single_quoted fuel; set_prev (as_char e)
  else if bool_decide (c = BAR) then _ ← next_cmd; _ ← put c; set_prev c
  else if bool_decide (c = BACKSLASH) then
    d ← getchar;
    if bool_decide (as_char d = LF) then mret tt
    else _ ← put c; set_prev (as_char d)
  else _ ← put c; set_prev c.

(** The loop over the line. *)
Fixpoint read_line (fuel : nat) : prog state unit :=
  match fuel with
  | 0 => out_of_fuel
  | S fuel =>
      c ← getchar;
      match c with
      | None => mret tt
      | Some c => if bool_decide (c = LF) then mret tt else _ ← switch fuel c; read_line fuel
      end
  end.

(** ** The commands *)

(** [cmds\[cmd_num\] = {argv\[0\], argv, j}]; [argv\[j\]] is the null pointer. *)
Definition write_cmd (cmds : list (option cmd)) (cmd_num : nat) (args : list bytes) :
    prog state (list (option cmd)) :=
  if bool_decide (cmd_num < length cmds)
  then mret (<[cmd_num := Some (mk_cmd (head args) args (Z.of_nat (length args)))]> cmds)
  else undef OutOfBounds.

(** [printf("t%d - %s\n", i, tokens\[i\])] *)
Definition print_token (i : nat) (t : bytes) : prog state unit := modify (λ s,
  mk_state (stdin s) (stdout s ++ lit "t" ++ dec (Z.of_nat i) ++ lit " - " ++ t ++ [LF])
    (tokens s) (tokens_size s) (token s) (max_len s) (prev s) (cmd_count s)).

(** The loop over the tokens; [args] are the first [j] elements of [argv], which has room
    for [room] pointers; [total] is [tokens_count]. *)
Fixpoint split_loop (total i : nat) (ts : list bytes) (cmds : list (option cmd)) (cmd_num room : nat)
    (args : list bytes) : prog state (list (option cmd)) :=
  if bool_decide (length args < room) then
    match ts with
    | [] => write_cmd cmds cmd_num args
    | t :: ts =>
        _ ← print_token i t;
        if bool_decide (t = [BAR]) then
          cmds ← write_cmd cmds cmd_num args;
          split_loop total (i + 1) ts cmds (cmd_num + 1) (total + 1 - i) []
        else split_loop total (i + 1) ts cmds cmd_num room (args ++ [t])
    end
  else undef OutOfBounds.

(** [parse_line] after its variables have been set. *)
Definition parse_line (fuel : nat) : prog state cmd_line :=
  _ ← read_line fuel;
  s ← get;
  _ ← (if bool_decide (token s = []) then mret tt else push_token);
  s ← get;
  let n := cmd_count s in
  let total := length (tokens s) in
  cmds ← split_loop total 0 (tokens s) (replicate (Z.to_nat n) None) 0 (total + 1) [];
  mret (mk_cmd_line n cmds).
End parser.

(** The variables at the start of [parse_line]. *)
Definition fresh_state (input : bytes) : state := mk_state input [] [] 0 [] 3 NUL 1.

(** ** Distributing the tokens *)

(** The arguments of the commands: the tokens between those that are "|". *)
Fixpoint groups (args : list bytes) (ts : list bytes) : list (list bytes) :=
  match ts with
  | [] => [args]
  | t :: ts => if bool_decide (t = [BAR]) then args :: groups [] ts else groups (args ++ [t]) ts
  end.

Definition cmd_of (g : list bytes) : cmd := mk_cmd (head g) g (Z.of_nat (length g)).

(** [n] commands, of which the groups fill the first. *)
Definition filled (n : nat) (gs : list (list bytes)) : list (option cmd) :=
  ((λ g, Some (cmd_of g)) <$> gs) ++ replicate (n - length gs) None.

Lemma groups_nonempty args ts : groups args ts ≠ [].
Proof. revert args. induction ts as [|t ts IH]; intros args; cbn; [done|]. by case_bool_decide. Qed.

(** The loop writes one command per group, and leaves the others unwritten. *)
Lemma split_loop_run ts : ∀ total i d k room args s,
  total = i + length ts → length args + length ts < room →
  if bool_decide (length (groups args ts) ≤ k)
  then ∃ s', split_loop total i ts (d ++ replicate k None) (length d) room args s
         = Ret (d ++ filled k (groups args ts)) s' ∧ stdin s' = stdin s
  else split_loop total i ts (d ++ replicate k None) (length d) room args s = Undef OutOfBounds.
Proof.
  assert (∀ d k g s, write_cmd (d ++ replicate k None) (length d) g s =
    match k with 0 => Undef OutOfBounds | S k => Ret (d ++ Some (cmd_of g) :: replicate k None) s end) as Hwrite.
  { intros d k g s. unfold write_cmd. rewrite length_app, length_replicate. destruct k as [|k].
    - by rewrite bool_decide_eq_false_2 by lia.
    - rewrite bool_decide_eq_true_2 by lia. rewrite insert_app_r_alt, Nat.sub_diag by lia. done. }
  induction ts as [|t ts IH]; intros total i d k room args s Ht Hr; cbn [split_loop groups length] in *;
    rewrite (bool_decide_eq_true_2 (length args < room)) by lia.
  - rewrite Hwrite. destruct k as [|k]; cbn.
    + done.
    + exists s. unfold filled. cbn. by rewrite Nat.sub_0_r.
  - assert (∃ s1, print_token i t s = Ret tt s1 ∧ stdin s1 = stdin s) as (s1 & E1 & <-) by (by eexists).
    rewrite (bind_ret _ _ _ _ _ E1). clear E1. destruct (decide (t = [BAR])) as [Hbar|Hbar];
      [rewrite !(bool_decide_eq_true_2 (t = [BAR])) by done|rewrite !(bool_decide_eq_false_2 (t = [BAR])) by done].
    + pose proof (Hwrite d k args s1) as E. destruct k as [|k].
      * cbn [length]. rewrite bool_decide_eq_false_2 by lia. by rewrite (bind_undef _ _ _ _ E).
      * rewrite (bind_ret _ _ _ _ _ E).
        specialize (IH total (i + 1) (d ++ [Some (cmd_of args)]) k (total + 1 - i) [] s1 ltac:(lia) ltac:(cbn [length]; lia)).
        rewrite length_app, <-app_assoc in IH. cbn [length app] in IH.
        unfold filled in *. cbn [length fmap list_fmap].
        destruct (decide (length (groups [] ts) ≤ k)) as [Hk|Hk].
        -- rewrite bool_decide_eq_true_2 in * by lia. destruct IH as (s2 & E2 & I2). exists s2.
           rewrite E2. by rewrite <-app_assoc.
        -- rewrite bool_decide_eq_false_2 in * by lia. exact IH.
    + apply IH; [lia|]. rewrite length_app. cbn. lia.
Qed.

(** ** Reading never leaves its buffers *)

Section reading.
Context (usable : Z → Z).
(** The allocator gives what it is asked for, and a pointer's worth for nothing. *)
Context (usable_enough : ∀ n, (0 ≤ n)%Z → (n ≤ usable n)%Z) (usable_zero : (8 ≤ usable 0)%Z).

(** The token fits, the array of tokens has room for one more, and [k] characters more
    could be read. *)
Record wf (k : nat) (s : state) : Prop := {
  wf_token : (bsize (token s) < max_len s)%Z;
  wf_max : (max_len s ≤ 5 ∨ max_len s ≤ 2 * bsize (token s))%Z;
  wf_tokens : (8 * (Z.of_nat (length (tokens s)) + 1) ≤ usable (tokens_size s))%Z;
  wf_small : (bsize (token s) + bsize (stdin s) + Z.of_nat k < 2 ^ 29)%Z;
  wf_count : (1 ≤ cmd_count s)%Z;
}.

Lemma fresh_wf input : (bsize input < 2 ^ 29)%Z → wf 0 (fresh_state input).
Proof. intros H. split; unfold bsize in *; cbn; lia. Qed.

(** What the next characters do. *)
Lemma getchar_run k c r s : wf k s → stdin s = c :: r →
  ∃ s', getchar s = Ret (Some c) s' ∧ stdin s' = r ∧ tokens s' = tokens s ∧ cmd_count s' = cmd_count s ∧
    token s' = token s ∧ prev s' = prev s ∧ wf (S k) s'.
Proof.
  intros [H1 H2 H3 H4 H5] E. unfold getchar. rewrite E in *. eexists. split; [done|]. split_and!; try done.
  split; cbn; [done|done|done| |done]. unfold bsize in *. cbn in H4. lia.
Qed.

Lemma set_prev_run k c s : wf k s →
  ∃ s', set_prev c s = Ret tt s' ∧ stdin s' = stdin s ∧ tokens s' = tokens s ∧ cmd_count s' = cmd_count s ∧
    token s' = token s ∧ prev s' = c ∧ wf k s'.
Proof. intros [H1 H2 H3 H4 H5]. eexists. split; [done|]. split_and!; done. Qed.

Lemma putchar_run k c s : wf k s →
  ∃ s', putchar c s = Ret tt s' ∧ stdin s' = stdin s ∧ tokens s' = tokens s ∧ cmd_count s' = cmd_count s ∧
    token s' = token s ∧ prev s' = prev s ∧ wf k s'.
Proof. intros [H1 H2 H3 H4 H5]. eexists. split; [done|]. split_and!; done. Qed.

Lemma next_cmd_run k s : wf k s →
  ∃ s', next_cmd s = Ret tt s' ∧ stdin s' = stdin s ∧ tokens s' = tokens s ∧ cmd_count s' = (cmd_count s + 1)%Z ∧
    token s' = token s ∧ prev s' = prev s ∧ wf k s'.
Proof. intros [H1 H2 H3 H4 H5]. eexists. split; [done|]. split_and!; try done. split; [done|done|done|done|cbn; lia]. Qed.

Lemma put_run k c s : wf (S k) s →
  ∃ s', put c s = Ret tt s' ∧ stdin s' = stdin s ∧ tokens s' = tokens s ∧ cmd_count s' = cmd_count s ∧
    token s' = token s ++ [c] ∧ prev s' = prev s ∧ wf k s'.
Proof.
  intros [H1 H2 H3 H4 H5]. unfold put. rewrite bool_decide_eq_true_2 by done.
  unfold alloc1. cbn [token max_len]. unfold bsize in *. rewrite length_app. cbn [length] in *.
  assert (∀ m, (Z.of_nat (length (token s) + 1) < m)%Z → (m ≤ 5 ∨ m ≤ 2 * Z.of_nat (length (token s) + 1))%Z →
    wf k (mk_state (stdin s) (stdout s) (tokens s) (tokens_size s) (token s ++ [c]) m (prev s) (cmd_count s))) as Hwf.
  { intros m Hm Hm'. split; unfold bsize; cbn [token max_len tokens tokens_size stdin];
      rewrite ?length_app; cbn [length]; [done|done|done|lia|done]. }
  case_bool_decide.
  - rewrite bool_decide_eq_true_2 by (unfold i32_range; lia). eexists. split; [done|].
    split_and!; try done. apply Hwf; lia.
  - eexists. split; [done|]. split_and!; try done. apply Hwf; lia.
Qed.

Lemma end_token_run k s : wf k s →
  ∃ s', end_token usable s = Ret tt s' ∧ stdin s' = stdin s ∧ tokens s' = tokens s ++ [c_string (token s)] ∧
    cmd_count s' = cmd_count s ∧ token s' = [] ∧ prev s' = prev s ∧ wf k s'.
Proof.
  intros [H1 H2 H3 H4 H5]. unfold end_token, push_token, mbind, prog_bind. rewrite bool_decide_eq_true_2 by done.
  eexists. split; [done|]. split_and!; try done. split; unfold bsize in *; cbn; [lia|lia| |lia|done].
  apply usable_enough. lia.
Qed.

(** ** Reading always ends, inside of all buffers *)

Definition safe {A} (k n : nat) (r : res state A) : Prop :=
  ∃ a s', r = Ret a s' ∧ wf k s' ∧ length (stdin s') ≤ n.

Lemma safe_bind {A B} (m : prog state A) (f : A → prog state B) s a s1 k n :
  m s = Ret a s1 → safe k n (f a s1) → safe k n ((m ≫= f) s).
Proof. intros E H. by rewrite (bind_ret _ _ _ _ _ E). Qed.

Lemma wf_less k s : wf (S k) s → wf k s.
Proof. intros []. split; [done|done|done|lia|done]. Qed.

Lemma safe_less {A} k n n' (r : res state A) : safe k n r → n ≤ n' → safe k n' r.
Proof. intros (a & s' & E & W & L) Hn. exists a, s'. split_and!; [done|done|lia]. Qed.

Lemma double_quoted_safe fuel : ∀ s, wf 0 s → length (stdin s) < fuel →
  safe 0 (length (stdin s)) (double_quoted usable fuel s).
Proof.
  induction fuel as [|fuel IH]; intros s Hw Hf; [lia|]. cbn [double_quoted].
  destruct (stdin s) as [|c r] eqn:Er.
  { unfold getchar. unfold mbind, prog_bind. rewrite Er. exists tt, s. rewrite Er. done. }
  cbn in Hf. destruct (getchar_run 0 c r s Hw Er) as (s1 & E1 & I1 & _ & _ & _ & _ & W1).
  eapply safe_bind; [exact E1|].
  assert (∃ s2, (if bool_decide (c = LF) then putchar GREATER else mret tt) s1 = Ret tt s2 ∧ stdin s2 = r ∧ wf 1 s2)
    as (s2 & E2 & I2 & W2).
  { case_bool_decide; [|by exists s1]. destruct (putchar_run 1 GREATER s1 W1) as (s2 & E & I & _ & _ & _ & _ & W).
    exists s2. by rewrite <-I1. }
  eapply safe_bind; [exact E2|]. eapply (safe_bind _ _ _ (prev s2)); [done|].
  destruct (negb _ || _).
  - destruct (put_run 0 c s2 W2) as (s3 & E3 & I3 & _ & _ & _ & _ & W3). eapply safe_bind; [exact E3|].
    destruct (set_prev_run 0 c s3 W3) as (s4 & E4 & I4 & _ & _ & _ & _ & W4). eapply safe_bind; [exact E4|].
    eapply safe_less; [apply IH; [done|rewrite I4, I3, I2; lia]|]. rewrite I4, I3, I2. cbn. lia.
  - destruct (end_token_run 1 s2 W2) as (s3 & E3 & I3 & _ & _ & _ & _ & W3).
    exists tt, s3. split; [done|]. split; [by apply wf_less|rewrite I3, I2; cbn; lia].
Qed.

Lemma single_quoted_safe fuel : ∀ s, wf 0 s → length (stdin s) < fuel →
  safe 0 (length (stdin s)) (single_quoted usable fuel s).
Proof.
  induction fuel as [|fuel IH]; intros s Hw Hf; [lia|]. cbn [single_quoted].
  destruct (stdin s) as [|c r] eqn:Er.
  { unfold getchar. unfold mbind, prog_bind. rewrite Er. exists None, s. rewrite Er. done. }
  cbn in Hf. destruct (getchar_run 0 c r s Hw Er) as (s1 & E1 & I1 & _ & _ & _ & _ & W1).
  eapply safe_bind; [exact E1|]. cbn beta iota. case_bool_decide.
  { destruct (putchar_run 1 GREATER s1 W1) as (s2 & E2 & I2 & _ & _ & _ & _ & W2).
    eapply safe_bind; [exact E2|]. eapply safe_less; [apply IH; [by apply wf_less|rewrite I2, I1; lia]|].
    rewrite I2, I1. cbn. lia. }
  eapply (safe_bind _ _ _ (prev s1)); [done|]. destruct (negb _ || _).
  - destruct (put_run 0 c s1 W1) as (s3 & E3 & I3 & _ & _ & _ & _ & W3). eapply safe_bind; [exact E3|].
    destruct (set_prev_run 0 c s3 W3) as (s4 & E4 & I4 & _ & _ & _ & _ & W4). eapply safe_bind; [exact E4|].
    eapply safe_less; [apply IH; [done|rewrite I4, I3, I1; lia]|]. rewrite I4, I3, I1. cbn. lia.
  - destruct (end_token_run 1 s1 W1) as (s3 & E3 & I3 & _ & _ & _ & _ & W3). eapply safe_bind; [exact E3|].
    exists (Some c), s3. split; [done|]. split; [by apply wf_less|rewrite I3, I1; cbn; lia].
Qed.

(** [put] and [set_prev] after a character has been read. *)
Lemma put_prev_safe c p s n : wf 1 s → length (stdin s) ≤ n → safe 0 n ((_ ← put c; set_prev p) s).
Proof.
  intros Hw Hn. destruct (put_run 0 c s Hw) as (s3 & E3 & I3 & _ & _ & _ & _ & W3). eapply safe_bind; [exact E3|].
  destruct (set_prev_run 0 p s3 W3) as (s4 & E4 & I4 & _ & _ & _ & _ & W4).
  exists tt, s4. split_and!; [done|done|]. by rewrite I4, I3.
Qed.

Lemma switch_safe fuel c s : wf 1 s → length (stdin s) < fuel →
  safe 0 (length (stdin s)) (switch usable fuel c s).
Proof.
  intros Hw Hf. unfold switch. repeat case_bool_decide.
  - destruct (end_token_run 1 s Hw) as (s3 & E3 & I3 & _ & _ & _ & _ & W3). eapply safe_bind; [exact E3|].
    destruct (set_prev_run 1 c s3 W3) as (s4 & E4 & I4 & _ & _ & _ & _ & W4).
    exists tt, s4. split_and!; [done|by apply wf_less|]. by rewrite I4, I3.
  - destruct (set_prev_run 1 NUL s Hw) as (s1 & E1 & I1 & _ & _ & _ & _ & W1). eapply safe_bind; [exact E1|].
    rewrite <-I1. apply double_quoted_safe; [by apply wf_less|by rewrite I1].
  - exists tt, s. split_and!; [done|by apply wf_less|done].
  - destruct (single_quoted_safe fuel s) as (e & s1 & E1 & W1 & L1); [by apply wf_less|done|].
    eapply safe_bind; [exact E1|].
    destruct (set_prev_run 0 (as_char e) s1 W1) as (s2 & E2 & I2 & _ & _ & _ & _ & W2).
    exists tt, s2. split_and!; [done|done|]. by rewrite I2.
  - destruct (next_cmd_run 1 s Hw) as (s1 & E1 & I1 & _ & _ & _ & _ & W1). eapply safe_bind; [exact E1|].
    apply put_prev_safe; [done|]. by rewrite I1.
  - destruct (stdin s) as [|d r] eqn:Er.
    + eapply (safe_bind _ _ _ None s); [unfold getchar; by rewrite Er|].
      rewrite bool_decide_eq_false_2 by done. apply put_prev_safe; [done|]. by rewrite Er.
    + destruct (getchar_run 1 d r s Hw Er) as (s1 & E1 & I1 & _ & _ & _ & _ & W1). eapply safe_bind; [exact E1|].
      case_bool_decide.
      * exists tt, s1. split_and!; [done|by do 2 apply wf_less|rewrite I1; cbn; lia].
      * apply put_prev_safe; [by apply wf_less|rewrite I1; cbn; lia].
  - by apply put_prev_safe.
Qed.

Lemma read_line_safe fuel : ∀ s, wf 0 s → length (stdin s) < fuel →
  safe 0 (length (stdin s)) (read_line usable fuel s).
Proof.
  induction fuel as [|fuel IH]; intros s Hw Hf; [lia|]. cbn [read_line].
  destruct (stdin s) as [|c r] eqn:Er.
  { unfold getchar. unfold mbind, prog_bind. rewrite Er. exists tt, s. rewrite Er. done. }
  cbn in Hf. destruct (getchar_run 0 c r s Hw Er) as (s1 & E1 & I1 & _ & _ & _ & _ & W1).
  eapply safe_bind; [exact E1|]. cbn beta iota. case_bool_decide.
  { exists tt, s1. split_and!; [done|by apply wf_less|rewrite I1; cbn; lia]. }
  destruct (switch_safe fuel c s1 W1) as (a & s2 & E2 & W2 & L2); [rewrite I1; lia|].
  eapply safe_bind; [exact E2|]. rewrite I1 in L2.
  eapply safe_less; [apply IH; [done|lia]|]. cbn. lia.
Qed.
End reading.

(** ** The words of a line *)

(** What a line consists of between its spaces. *)
Inductive word : Type :=
| Plain (w : bytes)
| Glued (a b : bytes)  (* with a bar inside of the word *)
| Pipe
| Quoted (w : bytes).

Definition render (w : word) : bytes :=
  match w with
  | Plain w => w
  | Glued a b => a ++ BAR :: b
  | Pipe => [BAR]
  | Quoted w => DQUOTE :: w ++ [DQUOTE]
  end.

Definition plain_char (c : ascii) : Prop := c ∉ [SP; DQUOTE; GREATER; SQUOTE; BAR; BACKSLASH; LF; NUL].
Definition quoted_char (c : ascii) : Prop := c ∉ [DQUOTE; BACKSLASH; NUL].

Definition good_word (w : word) : Prop :=
  match w with
  | Plain w => w ≠ [] ∧ Forall plain_char w
  | Glued a b => a ++ b ≠ [] ∧ Forall plain_char a ∧ Forall plain_char b
  | Pipe => True
  | Quoted w => Forall quoted_char w
  end.

Fixpoint line (ws : list word) : bytes :=
  match ws with
  | [] => []
  | [w] => render w
  | w :: ws => render w ++ SP :: line ws
  end.

Definition text (w : word) : bytes := match w with Quoted w => w | w => render w end.

(** The tokens of a line: a quoted string is complete at its quote, and the space behind it
    completes an empty token. *)
Fixpoint tokens_of (ws : list word) : list bytes :=
  match ws with
  | [] => []
  | [w] => [text w]
  | w :: ws => match w with Quoted w => [w; []] | w => [text w] end ++ tokens_of ws
  end.

Definition bars_in (w : word) : Z := match w with Glued _ _ | Pipe => 1 | _ => 0 end.
Definition bars (ws : list word) : Z := foldr (λ w n, bars_in w + n)%Z 0%Z ws.

Section words.
Context (usable : Z → Z).
Context (usable_enough : ∀ n, (0 ≤ n)%Z → (n ≤ usable n)%Z) (usable_zero : (8 ≤ usable 0)%Z).

(** The loop gets from [s] to [s'] in turns that use up input. *)
Definition reads (u : Z → Z) (s s' : state) : Prop :=
  ∃ n, n + length (stdin s') ≤ length (stdin s) ∧
    ∀ f, length (stdin s) ≤ f → read_line u (n + f) s = read_line u f s'.

Lemma reads_refl u s : reads u s s.
Proof. by exists 0. Qed.

Lemma reads_trans u s1 s2 s3 : reads u s1 s2 → reads u s2 s3 → reads u s1 s3.
Proof.
  intros (n1 & L1 & H1) (n2 & L2 & H2). exists (n1 + n2). split; [lia|]. intros f Hf.
  rewrite <-Nat.add_assoc, H1 by lia. apply H2. lia.
Qed.

(** One character. *)
Lemma reads_switch u c r s s1 s' :
  stdin s = c :: r → c ≠ LF → getchar s = Ret (Some c) s1 → length (stdin s') ≤ length r →
  (∀ f, length r < f → switch u f c s1 = Ret tt s') → reads u s s'.
Proof.
  intros Er Hc Eg Hl Hs. exists 1. rewrite Er. cbn [length]. split; [lia|]. intros f Hf.
  change (1 + f) with (S f). cbn [read_line]. rewrite (bind_ret _ _ _ _ _ Eg). cbn beta iota.
  rewrite bool_decide_eq_false_2 by done. by rewrite (bind_ret _ _ _ _ _ (Hs f ltac:(lia))).
Qed.

Lemma reads_plain c r s : wf usable 0 s → stdin s = c :: r → plain_char c →
  ∃ s', (∀ u, reads u s s') ∧ stdin s' = r ∧ tokens s' = tokens s ∧ cmd_count s' = cmd_count s ∧
    token s' = token s ++ [c] ∧ wf usable 0 s'.
Proof.
  intros Hw Er Hc. destruct (getchar_run usable 0 c r s Hw Er) as (s1 & E1 & I1 & T1 & C1 & K1 & _ & W1).
  destruct (put_run usable 0 c s1 W1) as (s2 & E2 & I2 & T2 & C2 & K2 & _ & W2).
  destruct (set_prev_run usable 0 c s2 W2) as (s3 & E3 & I3 & T3 & C3 & K3 & _ & W3).
  unfold plain_char in Hc. rewrite !not_elem_of_cons in Hc. destruct Hc as (? & ? & ? & ? & ? & ? & ? & _).
  exists s3. split_and!; try congruence. intros u. eapply reads_switch; [done|done|done|by rewrite I3, I2, I1|].
  intros f _. unfold switch. rewrite !bool_decide_eq_false_2 by done.
  by rewrite (bind_ret _ _ _ _ _ E2).
Qed.

Lemma reads_bar r s : wf usable 0 s → stdin s = BAR :: r →
  ∃ s', reads usable s s' ∧ stdin s' = r ∧ tokens s' = tokens s ∧ cmd_count s' = (cmd_count s + 1)%Z ∧
    token s' = token s ++ [BAR] ∧ wf usable 0 s'.
Proof.
  intros Hw Er. destruct (getchar_run usable 0 _ r s Hw Er) as (s1 & E1 & I1 & T1 & C1 & K1 & _ & W1).
  destruct (next_cmd_run usable 1 s1 W1) as (s4 & E4 & I4 & T4 & C4 & K4 & _ & W4).
  destruct (put_run usable 0 BAR s4 W4) as (s2 & E2 & I2 & T2 & C2 & K2 & _ & W2).
  destruct (set_prev_run usable 0 BAR s2 W2) as (s3 & E3 & I3 & T3 & C3 & K3 & _ & W3).
  exists s3. split_and!; try congruence. eapply reads_switch; [done|done|done|by rewrite I3, I2, I4, I1|].
  intros f _. unfold switch. cbn [bool_decide]. do 4 rewrite bool_decide_eq_false_2 by done.
  rewrite bool_decide_eq_true_2 by done. rewrite (bind_ret _ _ _ _ _ E4). by rewrite (bind_ret _ _ _ _ _ E2).
Qed.

Lemma reads_space r s : wf usable 0 s → stdin s = SP :: r →
  ∃ s', reads usable s s' ∧ stdin s' = r ∧ tokens s' = tokens s ++ [c_string (token s)] ∧ cmd_count s' = cmd_count s ∧
    token s' = [] ∧ wf usable 0 s'.
Proof.
  intros Hw Er. destruct (getchar_run usable 0 _ r s Hw Er) as (s1 & E1 & I1 & T1 & C1 & K1 & _ & W1).
  destruct (end_token_run usable usable_enough 1 s1 W1) as (s2 & E2 & I2 & T2 & C2 & K2 & _ & W2).
  destruct (set_prev_run usable 1 SP s2 W2) as (s3 & E3 & I3 & T3 & C3 & K3 & _ & W3).
  exists s3. split_and!; try congruence; [|by apply wf_less]. eapply reads_switch; [done|done|done|by rewrite I3, I2, I1|].
  intros f _. unfold switch. rewrite bool_decide_eq_true_2 by done. by rewrite (bind_ret _ _ _ _ _ E2).
Qed.

Lemma double_quoted_run w r : ∀ s,
  Forall quoted_char w → stdin s = w ++ DQUOTE :: r → prev s ≠ BACKSLASH → wf usable 0 s →
  ∃ s', (∀ fuel, length w < fuel → double_quoted usable fuel s = Ret tt s') ∧ stdin s' = r ∧
    tokens s' = tokens s ++ [c_string (token s ++ w)] ∧
    cmd_count s' = cmd_count s ∧ token s' = [] ∧ wf usable 0 s'.
Proof.
  induction w as [|c w IH]; intros s Hq Er Hp Hw.
  - destruct (getchar_run usable 0 _ r s Hw Er) as (s1 & E1 & I1 & T1 & C1 & K1 & P1 & W1).
    destruct (end_token_run usable usable_enough 1 s1 W1) as (s2 & E2 & I2 & T2 & C2 & K2 & _ & W2).
    exists s2. rewrite app_nil_r. split_and!; try congruence; [|by apply wf_less].
    intros [|fuel] Hf; [lia|]. cbn [double_quoted].
    rewrite (bind_ret _ _ _ _ _ E1). cbn beta iota. rewrite (bool_decide_eq_false_2 (DQUOTE = LF)) by done.
    rewrite (bind_ret (mret tt) _ s1 tt s1) by done. rewrite (bind_ret (gets prev) _ s1 (prev s1) s1) by done.
    rewrite (bool_decide_eq_true_2 (DQUOTE = DQUOTE)), (bool_decide_eq_false_2 (prev s1 = BACKSLASH)) by congruence.
    done.
  - apply Forall_cons in Hq as [Hc Hq].
    unfold quoted_char in Hc. rewrite !not_elem_of_cons in Hc. destruct Hc as (? & ? & ? & _).
    destruct (getchar_run usable 0 c (w ++ DQUOTE :: r) s Hw Er) as (s1 & E1 & I1 & T1 & C1 & K1 & P1 & W1).
    assert (∃ s2, (if bool_decide (c = LF) then putchar GREATER else mret tt) s1 = Ret tt s2 ∧ stdin s2 = stdin s1 ∧
      tokens s2 = tokens s1 ∧ cmd_count s2 = cmd_count s1 ∧ token s2 = token s1 ∧ prev s2 = prev s1 ∧ wf usable 1 s2)
      as (s2 & E2 & I2 & T2 & C2 & K2 & P2 & W2).
    { case_bool_decide; [by apply putchar_run|by exists s1]. }
    destruct (put_run usable 0 c s2 W2) as (s3 & E3 & I3 & T3 & C3 & K3 & _ & W3).
    destruct (set_prev_run usable 0 c s3 W3) as (s4 & E4 & I4 & T4 & C4 & K4 & P4 & W4).
    destruct (IH s4) as (s' & E & I & T & C & K & W); [done|congruence|congruence|done|].
    exists s'. split_and!; try congruence.
    + intros [|fuel] Hf; cbn in Hf; [lia|]. cbn [double_quoted].
      rewrite (bind_ret _ _ _ _ _ E1). cbn beta iota.
      rewrite (bind_ret _ _ _ _ _ E2). rewrite (bind_ret (gets prev) _ s2 (prev s2) s2) by done.
      rewrite (bool_decide_eq_false_2 (c = DQUOTE)) by done. cbn [negb orb].
      rewrite (bind_ret _ _ _ _ _ E3), (bind_ret _ _ _ _ _ E4). apply E. lia.
    + rewrite T, T4, T3, T2, T1, K4, K3, K2, K1. by rewrite <-app_assoc.
Qed.

Lemma reads_quoted w r s : wf usable 0 s → stdin s = DQUOTE :: w ++ DQUOTE :: r → Forall quoted_char w →
  ∃ s', reads usable s s' ∧ stdin s' = r ∧ tokens s' = tokens s ++ [c_string (token s ++ w)] ∧
    cmd_count s' = cmd_count s ∧ token s' = [] ∧ wf usable 0 s'.
Proof.
  intros Hw Er Hq. destruct (getchar_run usable 0 _ _ s Hw Er) as (s1 & E1 & I1 & T1 & C1 & K1 & _ & W1).
  destruct (set_prev_run usable 1 NUL s1 W1) as (s2 & E2 & I2 & T2 & C2 & K2 & P2 & W2).
  destruct (double_quoted_run w r s2) as (s' & E & I & T & C & K & W);
    [done|congruence|by rewrite P2|by apply wf_less|].
  exists s'. split_and!; try congruence. eapply reads_switch; [done|done|done| |].
  - rewrite I, length_app. cbn. lia.
  - intros f Hf. unfold switch. rewrite (bool_decide_eq_false_2 (DQUOTE = SP)), (bool_decide_eq_true_2 (DQUOTE = DQUOTE)) by done.
    rewrite (bind_ret _ _ _ _ _ E2). apply E. rewrite length_app in Hf. cbn in Hf. lia.
Qed.

Lemma reads_plains w r : ∀ s, wf usable 0 s → stdin s = w ++ r → Forall plain_char w →
  ∃ s', (∀ u, reads u s s') ∧ stdin s' = r ∧ tokens s' = tokens s ∧ cmd_count s' = cmd_count s ∧
    token s' = token s ++ w ∧ wf usable 0 s'.
Proof.
  induction w as [|c w IH]; intros s Hw Er Hc.
  - exists s. rewrite app_nil_r. split_and!; try done. intros u. apply reads_refl.
  - apply Forall_cons in Hc as [Hc Hcs].
    destruct (reads_plain c (w ++ r) s Hw Er Hc) as (s1 & R1 & I1 & T1 & C1 & K1 & W1).
    destruct (IH s1 W1 I1 Hcs) as (s' & R & I & T & C & K & W).
    exists s'. split_and!; try congruence; [intros u; by eapply reads_trans|]. rewrite K, K1. by rewrite <-app_assoc.
Qed.

(** A word leaves its text in [token], or, when quoted, as a token. *)
Lemma reads_word w r s : wf usable 0 s → stdin s = render w ++ r → token s = [] → good_word w →
  ∃ s', reads usable s s' ∧ stdin s' = r ∧ cmd_count s' = (cmd_count s + bars_in w)%Z ∧ wf usable 0 s' ∧
    match w with
    | Quoted q => tokens s' = tokens s ++ [q] ∧ token s' = []
    | w => tokens s' = tokens s ∧ token s' = render w ∧ render w ≠ [] ∧ NUL ∉ render w
    end.
Proof.
  intros Hw Er Hk Hg. assert (∀ x, Forall plain_char x → NUL ∉ x) as Hnul.
  { intros x Hx Hin. rewrite Forall_forall in Hx. apply (Hx NUL Hin). set_solver. }
  destruct w as [w|a b| |q]; cbn [good_word render bars_in] in *.
  - destruct Hg as [Hne Hg]. destruct (reads_plains w r s Hw Er Hg) as (s' & R & I & T & C & K & W).
    exists s'. split_and!; try done; [lia|by rewrite K, Hk|by apply Hnul].
  - destruct Hg as (Hne & Ha & Hb). rewrite <-app_assoc in Er.
    destruct (reads_plains a _ s Hw Er Ha) as (s1 & R1 & I1 & T1 & C1 & K1 & W1).
    destruct (reads_bar _ s1 W1 I1) as (s2 & R2 & I2 & T2 & C2 & K2 & W2).
    destruct (reads_plains b r s2 W2 I2 Hb) as (s3 & R3 & I3 & T3 & C3 & K3 & W3).
    exists s3. split_and!; try done.
    + eapply reads_trans; [apply R1|]. by eapply reads_trans; [|apply R3].
    + lia.
    + congruence.
    + rewrite K3, K2, K1, Hk. by rewrite <-app_assoc.
    + by destruct a.
    + rewrite elem_of_app, elem_of_cons. intros [?|[?|?]]; [by apply (Hnul a)|done|by apply (Hnul b)].
  - destruct (reads_bar r s Hw Er) as (s' & R & I & T & C & K & W).
    exists s'. split_and!; try done; [by rewrite K, Hk|by apply not_elem_of_cons; split; [|apply not_elem_of_nil]].
  - assert (stdin s = DQUOTE :: q ++ DQUOTE :: r) as Er' by (rewrite Er; cbn; by rewrite <-app_assoc).
    destruct (reads_quoted q r s Hw Er' Hg) as (s' & R & I & T & C & K & W).
    exists s'. split_and!; try done; [lia|]. rewrite T, Hk. cbn [app]. rewrite c_string_plain; [done|].
    intros Hin. rewrite Forall_forall in Hg. apply (Hg NUL Hin). set_solver.
Qed.

(** The tokens at the end of the line, the last one from [token]. *)
Definition flushed (s : state) : list bytes :=
  tokens s ++ (if bool_decide (token s = []) then [] else [c_string (token s)]).

Lemma reads_words ws r : ∀ s, wf usable 0 s → stdin s = line ws ++ r → token s = [] →
  Forall good_word ws → ws ≠ [] →
  ∃ s', reads usable s s' ∧ stdin s' = r ∧ cmd_count s' = (cmd_count s + bars ws)%Z ∧ wf usable 0 s' ∧
    flushed s' = tokens s ++ tokens_of ws.
Proof.
  induction ws as [|w ws IH]; intros s Hw Er Hk Hg Hne; [done|]. apply Forall_cons in Hg as [Hgw Hg].
  destruct ws as [|w' ws].
  - destruct (reads_word w r s Hw Er Hk Hgw) as (s' & R & I & C & W & H).
    exists s'. split_and!; try done; [cbn; lia|]. unfold flushed.
    destruct w; destruct H as [-> H]; try (destruct H as (-> & Hn & H0); rewrite bool_decide_eq_false_2 by done;
      by rewrite c_string_plain). rewrite H. cbn. by rewrite app_nil_r.
  - change (line (w :: w' :: ws)) with (render w ++ SP :: line (w' :: ws)) in Er.
    rewrite <-app_assoc in Er.
    destruct (reads_word w _ s Hw Er Hk Hgw) as (s1 & R1 & I1 & C1 & W1 & H1).
    destruct (reads_space _ s1 W1 I1) as (s2 & R2 & I2 & T2 & C2 & K2 & W2).
    destruct (IH s2 W2 I2 K2 Hg) as (s3 & R3 & I3 & C3 & W3 & F3); [done|].
    exists s3. split_and!; try done.
    + eapply reads_trans; [exact R1|]. by eapply reads_trans.
    + rewrite C3, C2, C1. cbn. lia.
    + rewrite F3, T2. destruct w; destruct H1 as [-> H1];
        try (destruct H1 as (-> & Hn & H0); rewrite c_string_plain by done; by rewrite <-app_assoc).
      rewrite H1. by rewrite <-!app_assoc.
Qed.
End words.

Section parse.
Context (usable : Z → Z).

(** What [parse_line] does behind the loop that reads. *)
Lemma parse_line_run fuel s s1 :
  read_line usable fuel s = Ret tt s1 → wf usable 0 s1 →
  let gs := groups [] (flushed s1) in
  let n := Z.to_nat (cmd_count s1) in
  if bool_decide (length gs ≤ n)
  then ∃ s', parse_line usable fuel s = Ret (mk_cmd_line (cmd_count s1) (filled n gs)) s' ∧ stdin s' = stdin s1
  else parse_line usable fuel s = Undef OutOfBounds.
Proof.
  intros E Hw gs n. unfold parse_line. rewrite (bind_ret _ _ _ _ _ E).
  rewrite (bind_ret get _ s1 s1 s1) by done.
  assert (∃ s2, (if bool_decide (token s1 = []) then mret tt else push_token usable) s1 = Ret tt s2 ∧
    tokens s2 = flushed s1 ∧ stdin s2 = stdin s1 ∧ cmd_count s2 = cmd_count s1) as (s2 & E2 & T2 & I2 & C2).
  { unfold flushed. case_bool_decide; [exists s1; by rewrite app_nil_r|].
    unfold push_token. destruct Hw. rewrite bool_decide_eq_true_2 by done. by eexists. }
  rewrite (bind_ret _ _ _ _ _ E2). rewrite (bind_ret get _ s2 s2 s2) by done. cbn zeta. rewrite T2, C2.
  pose proof (split_loop_run (flushed s1) (length (flushed s1)) 0 [] n (length (flushed s1) + 1) [] s2
    ltac:(lia) ltac:(cbn; lia)) as H. cbn [app length] in H. fold gs in H.
  case_bool_decide.
  - destruct H as (s' & H & I). exists s'. rewrite (bind_ret _ _ _ _ _ H). split; [done|congruence].
  - by rewrite (bind_undef _ _ _ _ H).
Qed.

(** On every input [parse_line] comes to an end; it stays inside of its buffers, but for
    the array of the commands. *)
Theorem parse_line_ends input fuel :
  (∀ n, (0 ≤ n)%Z → (n ≤ usable n)%Z) → (8 ≤ usable 0)%Z →
  (bsize input < 2 ^ 29)%Z → length input < fuel →
  (∃ cl c s', parse_line usable fuel (fresh_state input) = Ret cl s' ∧
     count cl = Z.of_nat (length (commands cl)) ∧ commands cl !! 0 = Some (Some c)) ∨
  parse_line usable fuel (fresh_state input) = Undef OutOfBounds.
Proof.
  intros Hu H0 Hs Hf.
  destruct (read_line_safe usable Hu fuel (fresh_state input)) as ([] & s1 & E & W & _); [by apply fresh_wf|done|].
  pose proof (parse_line_run fuel _ s1 E W) as H. cbn zeta in H.
  case_bool_decide as Hl; [left|by right]. destruct H as (s' & H & _).
  pose proof (groups_nonempty [] (flushed s1)) as Hg. destruct (groups [] (flushed s1)) as [|g gs]; [done|].
  destruct W. eexists _, _, s'. split; [exact H|]. split; [|done]. cbn [count commands filled].
  unfold filled. rewrite length_app, length_fmap, length_replicate. cbn [length] in *. lia.
Qed.

(** A line of words becomes a command for every token "|" and one more; the words that
    hold a bar only leave commands unwritten, and a quoted bar writes behind the array. *)
Theorem parse_line_words ws r fuel :
  (∀ n, (0 ≤ n)%Z → (n ≤ usable n)%Z) → (8 ≤ usable 0)%Z →
  Forall good_word ws → ws ≠ [] →
  let input := line ws ++ LF :: r in
  (bsize input < 2 ^ 29)%Z → 2 * length input < fuel →
  let gs := groups [] (tokens_of ws) in
  let n := (1 + bars ws)%Z in
  if bool_decide (length gs ≤ Z.to_nat n)
  then ∃ s', parse_line usable fuel (fresh_state input) = Ret (mk_cmd_line n (filled (Z.to_nat n) gs)) s' ∧ stdin s' = r
  else parse_line usable fuel (fresh_state input) = Undef OutOfBounds.
Proof.
  intros Hu H0 Hg Hne input Hs Hf gs n.
  destruct (reads_words usable Hu H0 ws (LF :: r) (fresh_state input)) as (s1 & (m & Hm & R) & I & C & W & F);
    [by apply fresh_wf|done|done|done|done|].
  destruct (getchar_run usable 0 LF r s1 W I) as (s2 & E2 & I2 & T2 & C2 & K2 & _ & W2).
  assert (read_line usable fuel (fresh_state input) = Ret tt s2) as E.
  { cbn [stdin fresh_state] in *. replace fuel with (m + S (fuel - m - 1)) by lia. rewrite R by lia.
    cbn [read_line]. by rewrite (bind_ret _ _ _ _ _ E2). }
  pose proof (parse_line_run fuel _ s2 E (wf_less _ _ _ W2)) as H. cbn zeta in H.
  assert (flushed s2 = tokens_of ws) as F2 by (unfold flushed in *; rewrite T2, K2; exact F).
  rewrite F2, C2, C in H. cbn [cmd_count fresh_state] in H. fold gs n in H.
  case_bool_decide; [|done]. destruct H as (s' & H & I'). exists s'. by rewrite I', I2.
Qed.

(** The words of a pipeline. *)
Fixpoint words_of (gs : list (list bytes)) : list word :=
  match gs with
  | [] => []
  | [g] => Plain <$> g
  | g :: gs => (Plain <$> g) ++ Pipe :: words_of gs
  end.

Definition plain_group (g : list bytes) : Prop := g ≠ [] ∧ Forall (λ w, w ≠ [] ∧ Forall plain_char w) g.

Lemma tokens_of_app ws1 ws2 : Forall (λ w, match w with Quoted _ => False | _ => True end) ws1 → ws2 ≠ [] →
  tokens_of (ws1 ++ ws2) = (text <$> ws1) ++ tokens_of ws2.
Proof.
  intros H Hne. induction H as [|w ws1 Hw _ IH]; [done|].
  change ((w :: ws1) ++ ws2) with (w :: (ws1 ++ ws2)). destruct (ws1 ++ ws2) as [|w' l] eqn:El.
  - by destruct ws1, ws2.
  - change (tokens_of (w :: w' :: l)) with
      (match w with Quoted w => [w; []] | w => [text w] end ++ tokens_of (w' :: l)).
    rewrite IH. by destruct w.
Qed.

Lemma groups_plain args ws ts :
  Forall (λ w, w ≠ [BAR]) ws → groups args (ws ++ ts) = groups (args ++ ws) ts.
Proof.
  intros H. revert args. induction H as [|w ws Hw _ IH]; intros args; cbn [app groups].
  - by rewrite app_nil_r.
  - rewrite bool_decide_eq_false_2 by done. by rewrite IH, <-app_assoc.
Qed.

Lemma plain_not_bar g : plain_group g → Forall (λ w, w ≠ [BAR]) g.
Proof.
  intros [_ H]. eapply Forall_impl; [exact H|]. intros w [_ Hw] ->.
  apply Forall_cons in Hw as [Hw _]. apply Hw. set_solver.
Qed.

Lemma words_of_spec gs : gs ≠ [] → Forall plain_group gs →
  Forall good_word (words_of gs) ∧ words_of gs ≠ [] ∧ groups [] (tokens_of (words_of gs)) = gs ∧
  bars (words_of gs) = (Z.of_nat (length gs) - 1)%Z.
Proof.
  intros Hne H.
  assert (∀ g : list bytes, text <$> (Plain <$> g) = g) as Htext 
    by (intros g; induction g as [|w g IHg]; [reflexivity|by rewrite !fmap_cons, IHg]).
  assert (∀ g : list bytes, Forall (λ w, match w with Quoted _ => False | _ => True end) (Plain <$> g)) as Hnq
    by (intros g; by induction g; constructor).
  assert (∀ g, plain_group g → Forall good_word (Plain <$> g)) as Hgood.
  { intros g [_ Hg]. apply Forall_fmap. exact Hg. }
  assert (∀ (g : list bytes) ws, bars ((Plain <$> g) ++ ws) = bars ws) as Hbars.
  { intros g ws. induction g as [|w g IHg]; [done|].
    change (bars ((Plain <$> w :: g) ++ ws)) with (0 + bars ((Plain <$> g) ++ ws))%Z. by rewrite IHg. }
  induction H as [|g gs Hg _ IH]; [done|]. destruct gs as [|g' gs].
  - cbn [words_of]. destruct g as [|w g _] using rev_ind; [by destruct Hg|]. split_and!.
    + by apply Hgood.
    + rewrite fmap_app. by destruct g.
    + rewrite fmap_app. rewrite tokens_of_app by done. cbn [tokens_of text render fmap list_fmap].
      rewrite Htext. rewrite <-(app_nil_r (g ++ [w])) at 1. rewrite groups_plain by (by apply plain_not_bar).
      done.
    + specialize (Hbars (g ++ [w]) []). rewrite app_nil_r in Hbars. by rewrite Hbars.
  - destruct (IH ltac:(done)) as (H1 & H2 & H3 & H4).
    change (words_of (g :: g' :: gs)) with ((Plain <$> g) ++ Pipe :: words_of (g' :: gs)). split_and!.
    + apply Forall_app. split; [by apply Hgood|by constructor].
    + by destruct g.
    + rewrite tokens_of_app by done. rewrite Htext, groups_plain by (by apply plain_not_bar).
      change (Pipe :: words_of (g' :: gs)) with ([Pipe] ++ words_of (g' :: gs)).
      rewrite tokens_of_app by (try done; by repeat constructor).
      cbn [fmap list_fmap text render app groups]. rewrite bool_decide_eq_true_2 by done. by rewrite H3.
    + rewrite Hbars. cbn [bars foldr bars_in]. fold (bars (words_of (g' :: gs))). rewrite H4.
      cbn [length]. lia.
Qed.

(** Where malloc(0) leaves room for a pointer: a pipeline of plain words is parsed into its
    commands, and what follows the line is left to be read. *)
Lemma parse_line_pipeline gs r fuel :
  (∀ n, (0 ≤ n)%Z → (n ≤ usable n)%Z) → (8 ≤ usable 0)%Z →
  gs ≠ [] → Forall plain_group gs →
  let input := line (words_of gs) ++ LF :: r in
  (bsize input < 2 ^ 29)%Z → 2 * length input < fuel →
  ∃ s', parse_line usable fuel (fresh_state input)
    = Ret (mk_cmd_line (Z.of_nat (length gs)) ((λ g, Some (cmd_of g)) <$> gs)) s' ∧ stdin s' = r.
Proof.
  intros Hu H0 Hne Hg input Hs Hf. destruct (words_of_spec gs Hne Hg) as (H1 & H2 & H3 & H4).
  pose proof (parse_line_words (words_of gs) r fuel Hu H0 H1 H2 Hs Hf) as H. cbn zeta in H.
  rewrite H3, H4 in H. replace (1 + (Z.of_nat (length gs) - 1))%Z with (Z.of_nat (length gs)) in H by lia.
  rewrite Nat2Z.id, bool_decide_eq_true_2 in H by done. destruct H as (s' & H & I). exists s'. split; [|done].
  unfold input. rewrite H. unfold filled. by rewrite Nat.sub_diag, app_nil_r.
Qed.

(** Where malloc(0) gives nothing, the first token is written behind its array. *)
Lemma parse_line_first_token w c r fuel :
  (usable 0 < 8)%Z → w ≠ [] → Forall plain_char w → c = SP ∨ c = LF →
  let input := w ++ c :: r in
  (bsize input < 2 ^ 29)%Z → 2 * length input < fuel →
  parse_line usable fuel (fresh_state input) = Undef OutOfBounds.
Proof.
  intros Hu Hne Hw Hc input Hs Hf. set (big := λ n : Z, if bool_decide (n = 0%Z) then 8%Z else 0%Z).
  destruct (reads_plains big w (c :: r) (fresh_state input)) as (s1 & R & I & T & _ & K & W);
    [by apply fresh_wf|done|done|]. destruct (R usable) as (m & Hm & E).
  destruct (getchar_run big 0 c r s1 W I) as (s2 & E2 & I2 & T2 & _ & K2 & _ & W2).
  cbn [tokens token fresh_state app stdin] in *.
  assert (push_token usable s2 = Undef OutOfBounds) as Hpush.
  { destruct W2 as [_ _ H3 _ _]. rewrite T2, T in H3. unfold big in H3. cbn [length] in H3.
    case_bool_decide as Hz; [|lia]. unfold push_token. rewrite bool_decide_eq_false_2; [done|].
    rewrite T2, T, Hz. cbn [length]. lia. }
  assert (∀ f, length input < f → read_line usable (m + f) (fresh_state input) = read_line usable f s1) as E'.
  { intros f Hlt. apply E. lia. }
  unfold parse_line. replace fuel with (m + S (fuel - m - 1)) by lia.
  destruct Hc as [-> | ->].
  - apply bind_undef. rewrite E' by lia. cbn [read_line]. rewrite (bind_ret _ _ _ _ _ E2). cbn beta iota.
    rewrite bool_decide_eq_false_2 by done. apply bind_undef. unfold switch. rewrite bool_decide_eq_true_2 by done.
    apply bind_undef. unfold end_token. by apply bind_undef.
  - assert (read_line usable (m + S (fuel - m - 1)) (fresh_state input) = Ret tt s2) as E3.
    { rewrite E' by lia. cbn [read_line]. by rewrite (bind_ret _ _ _ _ _ E2). }
    rewrite (bind_ret _ _ _ _ _ E3). rewrite (bind_ret get _ s2 s2 s2) by done.
    apply bind_undef. rewrite bool_decide_eq_false_2; [done|]. by rewrite K2, K.
Qed.

(** A line of plain words starts with one of them. *)
Lemma line_starts gs r :
  gs ≠ [] → Forall plain_group gs →
  ∃ w c t, line (words_of gs) ++ LF :: r = w ++ c :: t ∧ w ≠ [] ∧ Forall plain_char w ∧ (c = SP ∨ c = LF).
Proof.
  intros Hne Hg. destruct gs as [|g gs]; [done|]. apply Forall_cons in Hg as [[Hgne Hg] _].
  destruct g as [|w g]; [done|]. apply Forall_cons in Hg as [[Hw Hp] _].
  assert (∃ ws, words_of ((w :: g) :: gs) = Plain w :: ws) as [ws ->].
  { destruct gs; cbn; eauto. }
  destruct ws as [|w' ws].
  - exists w, LF, r. cbn [line render]. split_and!; [done|done|done|by right].
  - exists w, SP, (line (w' :: ws) ++ LF :: r). cbn [line render].
    rewrite <-app_assoc. split_and!; [done|done|done|by left].
Qed.

Lemma parse_line_pipeline_undef gs r fuel :
  (usable 0 < 8)%Z → gs ≠ [] → Forall plain_group gs →
  let input := line (words_of gs) ++ LF :: r in
  (bsize input < 2 ^ 29)%Z → 2 * length input < fuel →
  parse_line usable fuel (fresh_state input) = Undef OutOfBounds.
Proof.
  intros H0 Hne Hg input Hs Hf.
  destruct (line_starts gs r Hne Hg) as (w & c & t & E & Hw & Hp & Hc).
  unfold input in *. rewrite E in *. apply parse_line_first_token; done || lia.
Qed.

(** C30: A pipeline of plain words is parsed into its commands, and what follows the line is
    left to be read, where malloc(0) leaves room for a pointer; where it does not, the first
    token of the line is already written out of bounds.  The line and what follows it are
    shorter than 2^29 bytes.  Every character is plain but blanks,
    quotes, bars, backslashes and ">": also "#", "<" and "&", which the program does not treat. *)
Theorem parse_line_commands gs r fuel :
  (∀ n, (0 ≤ n)%Z → (n ≤ usable n)%Z) →
  gs ≠ [] → Forall plain_group gs →
  let input := line (words_of gs) ++ LF :: r in
  (bsize input < 2 ^ 29)%Z → 2 * length input < fuel →
  if bool_decide (8 ≤ usable 0)%Z
  then ∃ s', parse_line usable fuel (fresh_state input)
    = Ret (mk_cmd_line (Z.of_nat (length gs)) ((λ g, Some (cmd_of g)) <$> gs)) s' ∧ stdin s' = r
  else parse_line usable fuel (fresh_state input) = Undef OutOfBounds.
Proof.
  intros Hu Hne Hg input Hs Hf. case_bool_decide as H0; [by apply parse_line_pipeline|].
  apply parse_line_pipeline_undef; done || lia.
Qed.
End parse.

(** ** Witnesses *)

(** The sizes glibc gives: multiples of 16, less 8, and 24 at least. *)
Definition glibc_usable (n : Z) : Z := Z.max 24 ((n + 8 + 15) / 16 * 16 - 8).

Lemma glibc_enough n : (0 ≤ n)%Z → (n ≤ glibc_usable n)%Z.
Proof. intros Hn. unfold glibc_usable. pose proof (Z.div_mod (n + 8 + 15) 16 ltac:(lia)). pose proof (Z.mod_pos_bound (n + 8 + 15) 16 ltac:(lia)). lia. Qed.

Definition ex_pipeline : list (list bytes) := [[lit "ps"; lit "aux"]; [lit "grep"; lit "init"]].

Lemma ex_pipeline_plain : Forall plain_group ex_pipeline.
Proof. apply (bool_decide_unpack _). vm_compute. reflexivity. Qed.

Lemma parse_line_commands_witness :
  (∃ s', parse_line glibc_usable 100 (fresh_state (lit "ps aux | grep init" ++ [LF]))
    = Ret (mk_cmd_line 2 ((λ g, Some (cmd_of g)) <$> ex_pipeline)) s') ∧
  parse_line (λ n, n) 100 (fresh_state (lit "ps aux | grep init" ++ [LF])) = Undef OutOfBounds.
Proof.
  split; [edestruct (parse_line_commands glibc_usable ex_pipeline [] 100) as (s' & E & _);
    [exact glibc_enough| | | | |by exists s']|refine (parse_line_commands (λ n, n) ex_pipeline [] 100 _ _ _ _ _); [done|..]].
  all: try exact ex_pipeline_plain; try done.
  all: try (vm_compute; reflexivity).
  all: apply Nat.ltb_lt; vm_compute; reflexivity.
Defined.

(** A bar inside of a word leaves a command unwritten; a quoted bar is one too many. *)
Lemma parse_line_words_witness :
  (∃ s', parse_line glibc_usable 100 (fresh_state (lit "a|b" ++ [LF]))
    = Ret (mk_cmd_line 2 [Some (cmd_of [lit "a|b"]); None]) s') ∧
  parse_line glibc_usable 100 (fresh_state (lit "echo" ++ SP :: DQUOTE :: BAR :: DQUOTE :: [LF])) = Undef OutOfBounds.
Proof.
  split.
  - destruct (parse_line_words glibc_usable [Glued (lit "a") (lit "b")] [] 100) as (s' & E & _).
    + exact glibc_enough.
    + done.
    + constructor; [|constructor]. split; [discriminate|]. split; apply (bool_decide_unpack _); vm_compute; reflexivity.
    + done.
    + vm_compute. reflexivity.
    + apply Nat.ltb_lt. vm_compute. reflexivity.
    + exists s'. exact E.
  - refine (parse_line_words glibc_usable [Plain (lit "echo"); Quoted [BAR]] [] 100 _ _ _ _ _ _).
    + exact glibc_enough.
    + done.
    + apply Forall_cons. split; [split; [discriminate|apply (bool_decide_unpack _); vm_compute; reflexivity]|].
      apply Forall_singleton. apply (bool_decide_unpack _). vm_compute. reflexivity.
    + done.
    + vm_compute. reflexivity.
    + apply Nat.ltb_lt. vm_compute. reflexivity.
Defined.

Lemma parse_line_ends_witness :
  parse_line glibc_usable 100 (fresh_state (lit "a b")) ≠ NoFuel.
Proof.
  destruct (parse_line_ends glibc_usable (lit "a b") 100) as [(cl & c & s' & E & _)|E].
  - exact glibc_enough.
  - done.
  - vm_compute. reflexivity.
  - apply Nat.ltb_lt. vm_compute. reflexivity.
  - intros E'. rewrite E in E'. discriminate E'.
  - intros E'. rewrite E in E'. discriminate E'.
Defined.

Lemma parse_line_first_token_witness :
  parse_line (λ n, n) 100 (fresh_state (lit "ls" ++ [LF])) = Undef OutOfBounds.
Proof.
  apply (parse_line_first_token (λ n, n) (lit "ls") LF [] 100).
  - done.
  - done.
  - apply (bool_decide_unpack _). vm_compute. reflexivity.
  - by right.
  - vm_compute. reflexivity.
  - apply Nat.ltb_lt. vm_compute. reflexivity.
Defined.
