(* ===== verification/ShellMain.v ===== *)
(** * The shell: running the commands

    Model of the loop of [main] of src/sysprog/2/main.cpp: after a line has been parsed its
    commands are executed in child processes, connected by pipes, and waited for.  A process
    is its table of file descriptors; whether a fork succeeds, whether a child comes to its
    end, and what the library prints for a null string are arguments. *)

From S2P Require Import Prelude CStrings Shell.

(** ** File descriptors *)

Inductive file : Type :=
| terminal_in | terminal_out | terminal_err
| pipe_read (n : nat) | pipe_write (n : nat).

(** The table of the shell, and the number of pipes created so far. *)
Record process : Type := mk_process { fds : gmap nat file; pipes : nat }.

(** A child: the program and arguments it executes, and its table. *)
Record child : Type := mk_child { exec_name : bytes; exec_argv : list bytes; table : gmap nat file }.

(** The lowest free descriptor from [k] on; there are [k + n]. *)
Fixpoint lowest_free (n k : nat) (t : gmap nat file) : option nat :=
  match n with
  | 0 => None
  | S n => if decide (t !! k = None) then Some k else lowest_free n (k + 1) t
  end.

(** [dup2(old, new)]; nothing happens when [old] is not open. *)
Definition dup2 (old new : nat) (t : gmap nat file) : gmap nat file :=
  match t !! old with Some f => <[new := f]> t | None => t end.

(** [close(fd)] *)
Definition close (fd : nat) (t : gmap nat file) : gmap nat file := delete fd t.

Section shell.
(** The number of descriptors a process may have. *)
Context (NOFILE : nat).
(** Does the program of a child, with the descriptors it has, come to its end? *)
Context (ends : child → bool).
(** What printf puts for "%s" and a null pointer: undefined in C ([None]), "(null)" in glibc. *)
Context (null_string : option bytes).

(** [pipe(pipefd)]; on failure the elements of [pipefd] are not written. *)
Definition pipe (p : process) : option (nat * nat * process) :=
  r ← lowest_free NOFILE 0 (fds p);
  let t := <[r := pipe_read (pipes p)]> (fds p) in
  w ← lowest_free NOFILE 0 t;
  Some (r, w, mk_process (<[w := pipe_write (pipes p)]> t) (pipes p + 1)).

(** [execvp] or [execlp] *)
Definition exec {S} (c : cmd) (t : gmap nat file) : prog S child :=
  n ← the NullDeref (name c);
  if (argc c >? 0)%Z then mret (mk_child n (argv c) t) else mret (mk_child n [n] t).

(** What the child does before it executes the command. *)
Definition child_fds (r w : nat) (t : gmap nat file) : gmap nat file :=
  close w (dup2 w 1 (close r (dup2 r 0 t))).

(** The loop over the commands of a pipeline, from the [i]th; where fork fails, the shell
    goes on as the parent. *)
Fixpoint pipeline_loop {S} (forks : nat → bool) (i : nat) (cmds : list (option cmd)) (in_fd : option nat) (p : process) :
    prog S (list child * process) :=
  match cmds with
  | [] => mret ([], p)
  | c :: cmds =>
      q ← the Uninitialised (pipe p);
      let '(r, w, p) := q in
      let t := match in_fd with Some i => dup2 i r (fds p) | None => fds p end in
      ch ← (if forks i then c ← the Uninitialised c; ch ← exec c (child_fds r w t); mret [ch] else mret []);
      res ← pipeline_loop forks (i + 1) cmds (Some w) (mk_process (close w t) (pipes p));
      let '(chs, p) := res in
      mret (ch ++ chs, p)
  end.

(** What a turn of [main] ends in: in the end of the program, after its children, or waiting
    for one of them for ever. *)
Inductive action : Type := Bye | Ran (children : list child) | Waits (children : list child).

(** [wait(NULL)], once for each child at least: it fails at once without a child, and
    otherwise returns when one ends. *)
Definition wait_all (chs : list child) : bool := forallb ends chs.

Definition ext : bytes := lit "exit" ++ [LF].

(** "%s" of a string or of a null pointer. *)
Definition shown (s : option bytes) : option bytes := match s with Some t => Some t | None => null_string end.
Definition print (s : bytes) : prog state unit :=
  modify (λ st, mk_state (stdin st) (stdout st ++ s) (tokens st) (tokens_size st) (token st) (max_len st) (prev st) (cmd_count st)).

(** What is printed of a single command, and of the commands of a pipeline. *)
Definition announce (c : cmd) : option bytes :=
  n ← shown (name c); a ← shown (argv c !! 1);
  Some (lit "name - " ++ n ++ [LF] ++ lit "arg - " ++ a ++ [LF]).
Definition describe (c : cmd) : option bytes :=
  n ← shown (name c);
  Some (lit "your cmd name is: " ++ n ++ lit " " ++ [LF] ++
    concat (imap (λ j a, ["009"%char] ++ lit " param" ++ dec (Z.of_nat j) ++ lit " is: " ++ a ++ [LF]) (argv c))).
Fixpoint describe_all (cmds : list (option cmd)) : prog state unit :=
  match cmds with
  | [] => mret tt
  | c :: cmds => c ← the Uninitialised c; d ← the NullDeref (describe c); _ ← print d; describe_all cmds
  end.

(** One turn of the loop of [main], after the prompt. *)
Definition main_turn (usable : Z → Z) (fuel : nat) (forks : nat → bool) (p : process) : prog state (action * process) :=
  cmds ← parse_line usable fuel;
  c0 ← the OutOfBounds (head (commands cmds));
  c0 ← the Uninitialised c0;
  n ← the NullDeref (name c0);
  if bool_decide (n = ext) then mret (Bye, p)
  else if bool_decide (count cmds = 1%Z) then
    a ← the NullDeref (announce c0);
    _ ← print a;
    if forks 0 then
      ch ← exec c0 (fds p);
      if wait_all [ch] then mret (Ran [ch], p) else mret (Waits [ch], p)
    else _ ← print (LF :: lit " bad fork"); mret (Ran [], p)
  else
    r ← pipeline_loop forks 0 (commands cmds) None p;
    let '(chs, p) := r in
    if wait_all chs then
      _ ← describe_all (commands cmds);
      mret (Ran chs, p)
    else mret (Waits chs, p).

(** How [main] ends, or that it did not within its turns. *)
Inductive ending : Type := Said_bye | Crashed (u : ub) | Hangs | More.

(** The loop of [main], a turn for each answer of fork: the children of every turn and what
    it printed. *)
Fixpoint main_loop (usable : Z → Z) (fuel : nat) (turns : list (nat → bool)) (p : process) (input : bytes) :
    list (list child * bytes) * ending :=
  match turns with
  | [] => ([], More)
  | forks :: turns =>
      match main_turn usable fuel forks p (fresh_state input) with
      | Ret (Bye, _) _ => ([], Said_bye)
      | Ret (Ran chs, p) s =>
          let '(l, e) := main_loop usable fuel turns p (stdin s) in ((chs, lit "$>" ++ stdout s) :: l, e)
      | Ret (Waits chs, p) s => ([(chs, lit "$>" ++ stdout s)], Hangs)
      | Undef u => ([], Crashed u)
      | _ => ([], More)
      end
  end.
End shell.

(** ** Descriptors *)

(** The open descriptors are those below [n]. *)
Definition open_below (n : nat) (t : gmap nat file) : Prop := ∀ k, is_Some (t !! k) ↔ k < n.

Lemma lowest_free_run n t m k : open_below n t → k ≤ n < k + m → lowest_free m k t = Some n.
Proof.
  intros Ht. revert k. induction m as [|m IH]; intros k Hk; [lia|]. cbn [lowest_free].
  destruct (decide (k = n)) as [->|Hne].
  - rewrite decide_True; [done|]. apply eq_None_not_Some. rewrite (Ht n). lia.
  - rewrite decide_False; [apply IH; lia|]. rewrite eq_None_not_Some, (Ht k). lia.
Qed.

Lemma open_insert n t f : open_below n t → open_below (n + 1) (<[n := f]> t).
Proof.
  intros Ht k. destruct (decide (k = n)) as [->|Hne].
  - rewrite lookup_insert_eq. split; [lia|eauto].
  - rewrite lookup_insert_ne by done. rewrite (Ht k). lia.
Qed.

Lemma open_delete n t : open_below (n + 1) t → open_below n (delete n t).
Proof.
  intros Ht k. destruct (decide (k = n)) as [->|Hne].
  - rewrite lookup_delete_eq. split; [by intros []|lia].
  - rewrite lookup_delete_ne by done. rewrite (Ht k). lia.
Qed.

Section running.
Context (NOFILE : nat).

Lemma pipe_run n p : open_below n (fds p) → n + 1 < NOFILE →
  pipe NOFILE p = Some (n, n + 1, mk_process
    (<[n + 1 := pipe_write (pipes p)]> (<[n := pipe_read (pipes p)]> (fds p))) (pipes p + 1)).
Proof.
  intros Hp Hn. unfold pipe, mbind, option_bind. rewrite (lowest_free_run n) by (done || lia).
  by rewrite (lowest_free_run (n + 1)) by (by apply open_insert || lia).
Qed.

(** A child of a pipeline: it reads from and writes to the same pipe. *)
Definition talks_to_itself (k : nat) (g : list bytes) (ch : child) : Prop :=
  Some (exec_name ch) = head g ∧ exec_argv ch = g ∧
  table ch !! 0 = Some (pipe_read k) ∧ table ch !! 1 = Some (pipe_write k).

Lemma child_fds_run n t f g : 2 ≤ n →
  let t' := child_fds n (n + 1) (<[n + 1 := g]> (<[n := f]> t)) in
  t' !! 0 = Some f ∧ t' !! 1 = Some g.
Proof.
  intros Hn. unfold child_fds, dup2, close.
  rewrite (lookup_insert_ne _ (n + 1) n) by lia. rewrite lookup_insert_eq.
  rewrite (lookup_delete_ne _ n (n + 1)), (lookup_insert_ne _ 0 (n + 1)), lookup_insert_eq by lia.
  split.
  - rewrite lookup_delete_ne, lookup_insert_ne, lookup_delete_ne by lia. apply lookup_insert_eq.
  - rewrite lookup_delete_ne by lia. apply lookup_insert_eq.
Qed.

Lemma exec_run {S} g t (s : S) : g ≠ [] →
  ∃ ch, exec (cmd_of g) t s = Ret ch s ∧ Some (exec_name ch) = head g ∧ exec_argv ch = g ∧ table ch = t.
Proof.
  intros Hg. destruct g as [|w g]; [done|]. unfold exec. cbn [cmd_of name head the].
  exists (mk_child w (w :: g) t). unfold mbind, prog_bind, mret, prog_ret. cbn [argc length].
  done.
Qed.

Lemma pipeline_loop_run {St} gs : ∀ forks i n in_fd p (s : St), (∀ k, forks k = true) →
  open_below n (fds p) → 2 ≤ n → n + length gs < NOFILE → Forall (λ g, g ≠ []) gs →
  (∀ i, in_fd = Some i → i = n) →
  ∃ chs p', pipeline_loop NOFILE forks i ((λ g, Some (cmd_of g)) <$> gs) in_fd p s = Ret (chs, p') s ∧
    open_below (n + length gs) (fds p') ∧
    Forall2 (λ k '(g, ch), talks_to_itself k g ch) (seq (pipes p) (length gs)) (zip gs chs) ∧
    length chs = length gs.
Proof.
  induction gs as [|g gs IH]; intros forks k n in_fd p s Hforks Hp Hn Hmax Hg Hin; cbn [pipeline_loop fmap list_fmap].
  { exists [], p. cbn. rewrite Nat.add_0_r. split_and!; try done. }
  apply Forall_cons in Hg as [Hg Hgs]. cbn [length] in Hmax.
  rewrite (pipe_run n) by (done || lia).
  rewrite (bind_ret (the Uninitialised (Some ?[q])) _ s ?q s) by done. cbn beta iota.
  set (t := <[n + 1 := pipe_write (pipes p)]> (<[n := pipe_read (pipes p)]> (fds p))).
  cbn [fds pipes].
  assert (match in_fd with Some i => dup2 i n t | None => t end = t) as ->.
  { destruct in_fd as [i|]; [|done]. rewrite (Hin i eq_refl). unfold dup2.
    assert (t !! n = Some (pipe_read (pipes p))) as E
      by (unfold t; rewrite lookup_insert_ne by lia; apply lookup_insert_eq).
    rewrite E. by apply insert_id. }
  rewrite Hforks. destruct (exec_run g (child_fds n (n + 1) t) s Hg) as (ch & E1 & Hname & Hargs & Htab).
  rewrite (bind_ret (c ← the Uninitialised (Some (cmd_of g)); ch ← exec c (child_fds n (n + 1) t); mret [ch]) _ s [ch] s)
    by (cbn [the]; rewrite (bind_ret (mret (cmd_of g)) _ s (cmd_of g) s) by done; by rewrite (bind_ret _ _ _ _ _ E1)).
  destruct (IH forks (k + 1) (n + 1) (Some (n + 1)) (mk_process (close (n + 1) t) (pipes p + 1)) s) as (chs & p' & E & Ho & Hf & Hl).
  - done.
  - cbn [fds]. apply open_delete. unfold t. by do 2 apply open_insert.
  - lia.
  - lia.
  - done.
  - by intros i [= <-].
  - rewrite (bind_ret _ _ _ _ _ E). exists (ch :: chs), p'. split_and!; [done| | |cbn; by rewrite Hl].
    + cbn [length]. by replace (n + S (length gs)) with (n + 1 + length gs) by lia.
    + cbn [length seq zip_with]. constructor.
      * destruct (child_fds_run n (fds p) (pipe_read (pipes p)) (pipe_write (pipes p)) Hn) as [T0 T1].
        split_and!; [done|done|by rewrite Htab|by rewrite Htab].
      * cbn [pipes] in Hf. by rewrite Nat.add_1_r in Hf.
Qed.
End running.

(** ** A turn of the loop *)

Section turns.
Context (NOFILE : nat) (ends : child → bool) (null_string : option bytes) (usable : Z → Z).
Context (usable_enough : ∀ n, (0 ≤ n)%Z → (n ≤ usable n)%Z).

Notation main_turn := (main_turn NOFILE ends null_string usable).
Notation main_loop := (main_loop NOFILE ends null_string usable).

(** What a turn on plain commands prints at its end. *)
Definition turn_says (gs : list (list bytes)) : option bytes :=
  match gs with
  | [g] => announce null_string (cmd_of g)
  | _ => (λ t, concat t) <$> mapM (λ g, describe null_string (cmd_of g)) gs
  end.

(** A single command without arguments has a null pointer printed. *)
Definition printable (gs : list (list bytes)) : Prop :=
  match gs with [g] => is_Some null_string ∨ 2 ≤ length g | _ => True end.

Lemma announce_run g : g ≠ [] → printable [g] → is_Some (announce null_string (cmd_of g)).
Proof.
  intros Hg [[t ->]|Hl]; destruct g as [|w [|w' g]]; try done; cbn in *; try lia; by eexists.
Qed.

Lemma describe_all_run gs : Forall (λ g, g ≠ []) gs → ∀ s, ∃ t s',
  describe_all null_string ((λ g, Some (cmd_of g)) <$> gs) s = Ret tt s' ∧
  stdin s' = stdin s ∧ mapM (λ g, describe null_string (cmd_of g)) gs = Some t ∧ stdout s' = stdout s ++ concat t.
Proof.
  induction 1 as [|g gs Hg _ IH]; intros s; [exists [], s; by rewrite app_nil_r|].
  assert (∃ d, describe null_string (cmd_of g) = Some d) as [d Hd] by (destruct g as [|w g]; [done|by eexists]).
  set (s1 := mk_state (stdin s) (stdout s ++ d) (tokens s) (tokens_size s) (token s) (max_len s) (prev s) (cmd_count s)).
  destruct (IH s1) as (t & s' & E & H1 & H2 & H3). exists (d :: t), s'. split_and!; [|done| |].
  - cbn [fmap list_fmap describe_all the]. rewrite (bind_ret (mret (cmd_of g)) _ s (cmd_of g) s) by done.
    rewrite Hd. rewrite (bind_ret (the NullDeref (Some d)) _ s d s) by done.
    by rewrite (bind_ret (print d) _ s tt s1).
  - cbn [mapM]. by rewrite Hd, H2.
  - rewrite H3. cbn [concat]. by rewrite app_assoc.
Qed.

(** The children of a line: a single command has the descriptors of the shell, and each
    command of a pipeline the two ends of one pipe. *)
Definition children_of (p : process) (gs : list (list bytes)) (chs : list child) : Prop :=
  match gs with
  | [g] => ∃ n, head g = Some n ∧ chs = [mk_child n g (fds p)]
  | _ => length chs = length gs ∧
         Forall2 (λ k '(g, ch), talks_to_itself k g ch) (seq (pipes p) (length gs)) (zip gs chs)
  end.

(** The descriptors that a line costs the shell. *)
Definition cost (gs : list (list bytes)) : nat := if length gs =? 1 then 0 else length gs.

(** On a line of plain commands the shell never ends, "exit" included.  A single command
    runs on the terminal.  The commands of a pipeline are not connected: each reads from
    the pipe it writes to itself, and every one of them costs the shell a descriptor.  The
    turn comes to an end exactly when all the commands do. *)
Theorem shell_turn gs r fuel m p forks :
  (∀ k, forks k = true) → (8 ≤ usable 0)%Z →
  gs ≠ [] → Forall plain_group gs → printable gs →
  let input := line (words_of gs) ++ LF :: r in
  (bsize input < 2 ^ 29)%Z → 2 * length input < fuel →
  open_below m (fds p) → 2 ≤ m → m + length gs < NOFILE →
  ∃ s' chs p',
    main_turn fuel forks p (fresh_state input) = Ret (if forallb ends chs then Ran chs else Waits chs, p') s' ∧
    stdin s' = r ∧ children_of p gs chs ∧ open_below (m + cost gs) (fds p') ∧
    (forallb ends chs = true → ∃ o t, turn_says gs = Some t ∧ stdout s' = o ++ t).
Proof.
  intros Hforks H0 Hne Hg Hpr input Hs Hf Ho Hm Hmax.
  destruct (parse_line_pipeline usable gs r fuel usable_enough H0 Hne Hg Hs Hf) as (s1 & E1 & I1).
  unfold main_turn. rewrite (bind_ret _ _ _ _ _ E1). cbn [commands count].
  destruct gs as [|g gs]; [done|]. cbn [fmap list_fmap head the].
  rewrite (bind_ret (mret (Some (cmd_of g))) _ s1 (Some (cmd_of g)) s1) by done. cbn [the].
  rewrite (bind_ret (mret (cmd_of g)) _ s1 (cmd_of g) s1) by done.
  assert (Forall (λ g, g ≠ []) (g :: gs)) as Hnil by (eapply Forall_impl; [exact Hg|]; by intros ? []).
  assert (∃ w ws, g = w :: ws ∧ w ≠ ext) as (w & ws & -> & Hw).
  { apply Forall_cons in Hg as [[Hgne Hg] _]. destruct g as [|w ws]; [done|]. exists w, ws. split; [done|].
    intros ->. apply Forall_cons in Hg as [[_ Hg] _]. rewrite Forall_forall in Hg.
    apply (Hg LF); [unfold ext; set_solver|set_solver]. }
  cbn [cmd_of name head the]. rewrite (bind_ret (mret w) _ s1 w s1) by done.
  rewrite (bool_decide_eq_false_2 (w = ext)) by done. unfold wait_all.
  destruct gs as [|g' gs].
  - rewrite bool_decide_eq_true_2 by done.
    destruct (announce_run (w :: ws) ltac:(done) Hpr) as [a Ea]. rewrite Ea.
    rewrite (bind_ret (the NullDeref (Some a)) _ s1 a s1) by done.
    set (s2 := mk_state (stdin s1) (stdout s1 ++ a) (tokens s1) (tokens_size s1) (token s1) (max_len s1) (prev s1) (cmd_count s1)).
    rewrite (bind_ret (print _) _ s1 tt s2) by done. rewrite Hforks.
    destruct (exec_run (w :: ws) (fds p) s2 ltac:(done)) as (ch & E & Hn & Ha & Ht).
    rewrite (bind_ret _ _ _ _ _ E). exists s2, [ch], p. split_and!.
    + by destruct (forallb ends [ch]).
    + done.
    + exists w. split; [done|]. destruct ch. cbn in *. by simplify_eq.
    + by rewrite Nat.add_0_r.
    + intros _. by exists (stdout s1), a.
  - rewrite bool_decide_eq_false_2 by (cbn [length]; lia).
    destruct (pipeline_loop_run NOFILE ((w :: ws) :: g' :: gs) forks 0 m None p s1) as (chs & p' & E & Ho' & Hf' & Hl);
      [done|done|done|done|done|done|].
    assert (pipeline_loop NOFILE forks 0 (Some (cmd_of (w :: ws)) :: ((λ g, Some (cmd_of g)) <$> g' :: gs)) None p s1
      = Ret (chs, p') s1) as E' by exact E.
    rewrite (bind_ret _ _ _ _ _ E'). destruct (forallb ends chs) eqn:Ee.
    + destruct (describe_all_run ((w :: ws) :: g' :: gs) Hnil s1) as (t & s2 & E2 & H2 & H3 & H4).
      rewrite (bind_ret _ _ _ _ _ E2). exists s2, chs, p'. rewrite Ee. split_and!; [done|by rewrite H2|done|done|].
      intros _. exists (stdout s1), (concat t). split; [|done]. unfold turn_says. by rewrite H3.
    + exists s1, chs, p'. rewrite Ee. split_and!; done.
Qed.

(** An empty line, and the end of the input, dereference a null pointer. *)
Theorem empty_line_crashes input fuel p forks :
  head input = Some LF ∨ input = [] → 0 < fuel →
  main_turn fuel forks p (fresh_state input) = Undef NullDeref.
Proof.
  intros Hi Hf. destruct fuel as [|fuel]; [lia|]. destruct Hi as [Hi|Hi]; destruct input as [|c input]; try done.
  by injection Hi as ->.
Qed.

(** Lines of plain commands, and the descriptors that they cost the shell. *)
Definition text (gss : list (list (list bytes))) : bytes := gss ≫= λ gs, line (words_of gs) ++ [LF].
Definition used (gss : list (list (list bytes))) : nat := sum_list (cost <$> gss).

Lemma talks_argv gs : ∀ k chs, length chs = length gs →
  Forall2 (λ k '(g, ch), talks_to_itself k g ch) (seq k (length gs)) (zip gs chs) → exec_argv <$> chs = gs.
Proof.
  induction gs as [|g gs IH]; intros k [|ch chs] Hl H; try done. cbn in H. apply Forall2_cons in H as [(_ & Ha & _) H].
  cbn. f_equal; [done|]. eapply IH; [by injection Hl|exact H].
Qed.

Lemma children_argv p gs chs : gs ≠ [] → children_of p gs chs → exec_argv <$> chs = gs.
Proof.
  intros Hne. destruct gs as [|g [|g' gs]]; [done| |].
  - by intros (n & _ & ->).
  - intros [Hl H]. by eapply talks_argv.
Qed.

(** Programs that read their input to its end do not come to their own when the input is a
    pipe that they have open for writing. *)
Context (reads_all : bytes → bool).
Definition waits_for_itself : Prop := ∀ ch k,
  reads_all (exec_name ch) = true → table ch !! 0 = Some (pipe_read k) → table ch !! 1 = Some (pipe_write k) →
  ends ch = false.

(** A pipeline with such a program. *)
Definition filters (gs : list (list bytes)) : Prop :=
  2 ≤ length gs ∧ ∃ g n, g ∈ gs ∧ head g = Some n ∧ reads_all n = true.

Lemma filter_waits gs p chs :
  waits_for_itself → filters gs → children_of p gs chs → forallb ends chs = false.
Proof.
  intros Hw (Hl & g & n & Hg & Hn & Hr) Hch. destruct gs as [|g1 [|g2 gs]]; cbn in Hl; try lia.
  destruct Hch as [Hlen Hf]. apply list_elem_of_lookup in Hg as [i Hi].
  destruct (lookup_lt_is_Some_2 chs i) as [ch Hc]; [rewrite Hlen; by eapply lookup_lt_Some|].
  assert (zip (g1 :: g2 :: gs) chs !! i = Some (g, ch)) as Hz by (by rewrite lookup_zip_with, Hi; cbn; rewrite Hc).
  destruct (Forall2_lookup_r _ _ _ _ _ Hf Hz) as (k & _ & Hname & _ & T0 & T1).
  apply not_true_iff_false. rewrite forallb_forall. intros H. rewrite Hn in Hname. injection Hname as Hname.
  assert (ends ch = false) as E by (eapply Hw; [by rewrite Hname|exact T0|exact T1]).
  rewrite H in E; [done|]. apply list_elem_of_In. by eapply list_elem_of_lookup_2.
Qed.

(** What becomes of a session: the shell executes the lines in order until one of them does
    not come to its end, and hangs there; or else it crashes at the end of its input. *)
Definition session (gss : list (list (list bytes))) (l : list (list child * bytes)) (e : ending) : Prop :=
  Forall2 (λ gs t, exec_argv <$> t.1 = gs) (take (length l) gss) l ∧
  ((e = Crashed NullDeref ∧ length l = length gss ∧ Forall (λ t, forallb ends t.1 = true) l) ∨
   (e = Hangs ∧ ∃ l' t, l = l' ++ [t] ∧ Forall (λ t, forallb ends t.1 = true) l' ∧ forallb ends t.1 = false)) ∧
  (waits_for_itself → Exists filters gss → e = Hangs).

Lemma session_runs gss fuel : ∀ m p,
  (8 ≤ usable 0)%Z →
  Forall (λ gs, gs ≠ [] ∧ Forall plain_group gs ∧ printable gs) gss →
  (bsize (text gss) < 2 ^ 29)%Z → 2 * length (text gss) + 1 < fuel →
  open_below m (fds p) → 2 ≤ m → m + used gss + 1 < NOFILE →
  ∃ l e, main_loop fuel (replicate (S (length gss)) (λ _, true)) p (text gss) = (l, e) ∧ session gss l e.
Proof.
  induction gss as [|gs gss IH]; intros m p H0 Hg Hb Hf Ho Hm Hmax.
  - exists [], (Crashed NullDeref). cbn [length replicate ShellMain.main_loop text mbind list_bind].
    rewrite empty_line_crashes by (lia || by right). split; [done|]. split_and!; [constructor|by left|].
    intros _ H. inversion H.
  - apply Forall_cons in Hg as [(Hne & Hg & Hp) Hgs].
    assert (text (gs :: gss) = line (words_of gs) ++ LF :: text gss) as Et by (cbn; by rewrite <-app_assoc).
    rewrite Et in *. rewrite length_app in Hf. cbn [length] in Hf.
    assert (used (gs :: gss) = cost gs + used gss) as Eu by done. rewrite Eu in Hmax.
    destruct (shell_turn gs (text gss) fuel m p (λ _, true)) as (s' & chs & p' & E & Hs & Hch & Ho' & _); try done.
    { rewrite length_app. cbn. lia. }
    { unfold cost in Hmax. destruct (Nat.eqb_spec (length gs) 1); lia. }
    pose proof (children_argv p gs chs Hne Hch) as Ha.
    cbn [length]. rewrite replicate_S. cbn [ShellMain.main_loop]. rewrite E.
    destruct (forallb ends chs) eqn:Ee.
    + destruct (IH (m + cost gs) p') as (l & e & El & Hl & Hcase & Hfil); try done; [|lia|lia|lia|].
      { unfold bsize in *. rewrite length_app in Hb. cbn [length] in Hb. lia. }
      rewrite Hs, El. eexists _, e. split; [done|]. split_and!.
      * cbn [length take]. by constructor.
      * destruct Hcase as [(-> & Hlen & Hall)|(-> & l' & t & -> & Hall & Ht)].
        -- left. split_and!; [done|cbn; by rewrite Hlen|by constructor].
        -- right. split; [done|]. eexists (_ :: l'), t. split_and!; [done|by constructor|done].
      * intros Hw Hex. apply Exists_cons in Hex as [Hx|Hex]; [|by apply Hfil].
        by rewrite (filter_waits gs p chs Hw Hx Hch) in Ee.
    + eexists _, Hangs. split; [done|]. split_and!; [cbn [length take]; by repeat constructor| |done].
      right. split; [done|]. eexists [], _. split_and!; [done|constructor|done].
Qed.

(** C40: Whatever lines of plain commands the shell is given, as long as fork succeeds and
    there are descriptors left it executes the commands of the lines in order, up to the first
    line one of whose children does not end, where it waits for ever; when all end it
    dereferences a null pointer at the end of the input.  A pipeline with a program that reads
    its input to the end is such a line, as every command of a pipeline keeps the pipe it
    reads from open.  Where malloc(0) leaves no room for a pointer the first line is written
    out of bounds. *)
Theorem shell_session gss fuel m p :
  Forall (λ gs, gs ≠ [] ∧ Forall plain_group gs ∧ printable gs) gss →
  (bsize (text gss) < 2 ^ 29)%Z → 2 * length (text gss) + 1 < fuel →
  open_below m (fds p) → 2 ≤ m → m + used gss + 1 < NOFILE →
  ∃ l e, main_loop fuel (replicate (S (length gss)) (λ _, true)) p (text gss) = (l, e) ∧
    (if bool_decide (usable 0 < 8)%Z && negb (bool_decide (gss = [])) then l = [] ∧ e = Crashed OutOfBounds
     else session gss l e).
Proof.
  intros Hg Hb Hf Ho Hm Hmax. destruct gss as [|gs gss].
  { rewrite andb_false_r. exists [], (Crashed NullDeref).
    cbn [length replicate ShellMain.main_loop text mbind list_bind].
    rewrite empty_line_crashes by (lia || by right). split; [done|]. split_and!; [constructor|by left|].
    intros _ H. inversion H. }
  rewrite andb_true_r. case_bool_decide as H0; [|apply (session_runs _ _ m); done || lia].
  exists [], (Crashed OutOfBounds). split; [|done].
  apply Forall_cons in Hg as [(Hne & Hg & _) _].
  assert (text (gs :: gss) = line (words_of gs) ++ LF :: text gss) as Et by (cbn; by rewrite <-app_assoc).
  rewrite Et in *. cbn [length]. rewrite replicate_S. cbn [ShellMain.main_loop].
  unfold ShellMain.main_turn.
  by rewrite (bind_undef _ _ _ _ (parse_line_pipeline_undef usable gs (text gss) fuel H0 Hne Hg Hb ltac:(lia))).
Qed.
End turns.

(** ** Witnesses *)

Definition shell_fds : process := mk_process {[0 := terminal_in; 1 := terminal_out; 2 := terminal_err]} 0.

Lemma shell_fds_open : open_below 3 (fds shell_fds).
Proof.
  intros k. destruct k as [|[|[|k]]]; cbn.
  1-3: split; [lia|by eexists].
  split; [|lia]. intros [f Hf]. revert Hf. unfold shell_fds. cbn [fds].
  rewrite !lookup_insert_ne by lia. rewrite lookup_singleton_ne by lia. done.
Qed.

(** Programs some of which read their input to the end. *)
Definition ex_reads (n : bytes) : bool := bool_decide (n ∈ [lit "grep"; lit "cat"; lit "sort"]).
Definition ex_ends (ch : child) : bool :=
  match table ch !! 0, table ch !! 1 with
  | Some (pipe_read k), Some (pipe_write k') => negb (ex_reads (exec_name ch) && (k =? k'))
  | _, _ => true
  end.

Lemma ex_waits : waits_for_itself ex_ends ex_reads.
Proof. intros ch k Hr H0 H1. unfold ex_ends. by rewrite H0, H1, Hr, Nat.eqb_refl. Qed.

Definition null_text : option bytes := Some (lit "(null)").

Lemma shell_turn_witness : ∃ s' chs p',
  main_turn 1024 ex_ends null_text glibc_usable 100 (λ _, true) shell_fds (fresh_state (lit "ps aux | grep init" ++ [LF]))
    = Ret (Waits chs, p') s' ∧ length chs = 2 ∧ open_below 5 (fds p').
Proof.
  destruct (shell_turn 1024 ex_ends null_text glibc_usable glibc_enough ex_pipeline [] 100 3 shell_fds (λ _, true))
    as (s' & chs & p' & E & _ & Hch & Ho & _).
  - done.
  - done.
  - done.
  - exact ex_pipeline_plain.
  - done.
  - vm_compute. reflexivity.
  - apply Nat.ltb_lt. vm_compute. reflexivity.
  - exact shell_fds_open.
  - lia.
  - apply Nat.ltb_lt. vm_compute. reflexivity.
  - rewrite (filter_waits ex_ends ex_reads ex_pipeline shell_fds chs ex_waits) in E.
    + exists s', chs, p'. split; [exact E|]. split; [exact (proj1 Hch)|exact Ho].
    + split; [cbn; lia|]. exists [lit "grep"; lit "init"], (lit "grep"). 
      split_and!; [apply (bool_decide_unpack _)|..]; vm_compute; reflexivity.
    + exact Hch.
Defined.

(** "ls -l" and then a pipeline with a filter: the shell hangs on it. *)
Lemma shell_session_witness : ∃ l,
  main_loop 1024 ex_ends null_text glibc_usable 200 (replicate 3 (λ _, true)) shell_fds
    (lit "ls -l" ++ LF :: lit "ps aux | grep init" ++ [LF]) = (l, Hangs).
Proof.
  destruct (shell_session 1024 ex_ends null_text glibc_usable glibc_enough ex_reads [[[lit "ls"; lit "-l"]]; ex_pipeline] 200 3 shell_fds)
    as (l & e & E & _ & _ & H).
  - repeat apply Forall_cons_2; [| |constructor].
    + split_and!; [done|apply (bool_decide_unpack _); vm_compute; reflexivity|right; cbn; lia].
    + split_and!; [done|exact ex_pipeline_plain|done].
  - vm_compute. reflexivity.
  - apply Nat.ltb_lt. vm_compute. reflexivity.
  - exact shell_fds_open.
  - lia.
  - apply Nat.ltb_lt. vm_compute. reflexivity.
  - rewrite (H ex_waits) in E; [by exists l|]. right. left. split; [cbn; lia|].
    exists [lit "grep"; lit "init"], (lit "grep"). 
      split_and!; [apply (bool_decide_unpack _)|..]; vm_compute; reflexivity.
Defined.

(** What a command line prints in the end, and what a single command prints whose fork fails. *)
Example what_is_printed :
  turn_says null_text [[lit "a"; lit "b"]; [lit "c"]] = Some $ lit "your cmd name is: a " ++ [LF] ++
    ["009"%char] ++ lit " param0 is: a" ++ [LF] ++ ["009"%char] ++ lit " param1 is: b" ++ [LF] ++
    lit "your cmd name is: c " ++ [LF] ++ ["009"%char] ++ lit " param0 is: c" ++ [LF] ∧
  match main_turn 1024 ex_ends null_text glibc_usable 100 (λ _, false) shell_fds (fresh_state (lit "ls" ++ [LF])) with
  | Ret (Ran chs, _) s => chs = [] ∧ drop 8 (stdout s) = lit "name - ls" ++ [LF] ++ lit "arg - (null)" ++ [LF] ++ [LF] ++ lit " bad fork"
  | _ => False
  end.
Proof. split; vm_compute; [reflexivity|]. by split. Qed.

Lemma empty_line_crashes_witness :
  main_turn 1024 ex_ends null_text glibc_usable 1 (λ _, true) shell_fds (fresh_state []) = Undef NullDeref.
Proof. apply empty_line_crashes; [by right|lia]. Defined.
