(* ===== verification/ShellUnused.v ===== *)
(** * The shell: functions it does not call

    Models of [get_cmd] of src/sysprog/2/main.cpp, that reads a line into a buffer it
    grows, and of [parse_command] and [add_char] of parser.cpp, which the shell had before
    [parse_line]. *)

From S2P Require Import Prelude CStrings Shell.

(** ** [get_cmd] *)

(** The input; the characters in front of [line], the bytes from [linep], [lenmax], [len]. *)
Record reader : Type := mk_reader { input : bytes; written : bytes; capacity : Z; lenmax : Z; len : Z }.

Section get_cmd.
(** Whether [realloc] gives a buffer of a size. *)
Context (gives : Z → bool).

(** [*line++ = c] *)
Definition store_char (c : ascii) : prog reader unit := λ s,
  if bool_decide (bsize (written s) < capacity s)%Z
  then Ret tt (mk_reader (input s) (written s ++ [c]) (capacity s) (lenmax s) (len s))
  else Undef OutOfBounds.

(** The loop; whether it was left by [break]. *)
Fixpoint get_cmd_loop (fuel : nat) : prog reader bool := λ s,
  match fuel with
  | 0 => NoFuel
  | S fuel =>
      match input s with
      | [] => Ret true s
      | c :: rest =>
          let s := mk_reader rest (written s) (capacity s) (lenmax s) (wrap64 (len s - 1)) in
          let next := store_char c ≫= λ _, if decide (c = LF) then mret true else get_cmd_loop fuel in
          if bool_decide (len s = 0)%Z then
            let len' := lenmax s in
            let lenmax' := wrap64 (lenmax s * 2) in
            if gives lenmax' then next (mk_reader rest (written s) lenmax' lenmax' len')
            else Ret false s
          else next s
      end
  end.

(** [get_cmd]: the string, or a null pointer, and what is left of the input. *)
Definition get_cmd (fuel : nat) (stdin : bytes) : res bytes (option bytes) :=
  if negb (gives 100) then Ret None stdin
  else
    match get_cmd_loop fuel (mk_reader stdin [] 100 100 100) with
    | Ret true s =>
        if bool_decide (bsize (written s) < capacity s)%Z      (* *line = '\0' *)
        then Ret (Some (c_string (written s))) (input s) else Undef OutOfBounds
    | Ret false s => Ret None (input s)
    | Undef u => Undef u
    | _ => NoFuel
    end.
End get_cmd.

(** ** [parse_command] and [add_char] *)

(** The parameters in front of [count], the pointers [argv] has room for, the first [j]
    characters of [param], its bytes, [prev]. *)
Record params : Type := mk_params {
  args : list bytes; room : Z; param : bytes; param_size : Z; before : ascii;
}.

Section parse_command.
Context (line : bytes).

(** [line\[i\]] *)
Definition at_line (i : Z) : prog params ascii :=
  if (0 <=? i)%Z then the OutOfBounds (line !! Z.to_nat i) else undef OutOfBounds.

Fixpoint skip_start (fuel : nat) (start : Z) : prog params Z :=
  match fuel with
  | 0 => out_of_fuel
  | S fuel =>
      c ← at_line start;
      if decide (c = SP) then skip_start fuel (start + 1) else mret start
  end.
Fixpoint skip_end (fuel : nat) (end_ : Z) : prog params Z :=
  match fuel with
  | 0 => out_of_fuel
  | S fuel =>
      c ← at_line end_;
      if decide (c = SP ∨ c = LF) then skip_end fuel (end_ - 1) else mret end_
  end.

(** [param\[j\] = c; j++] *)
Definition put_param (c : ascii) : prog params unit := λ s,
  if bool_decide (bsize (param s) < param_size s)%Z
  then Ret tt (mk_params (args s) (room s) (param s ++ [c]) (param_size s) (before s))
  else Undef OutOfBounds.

(** [param] becomes the next parameter, and [argv] and [param] are allocated again. *)
Definition end_param (end_ i : Z) : prog params unit := λ s,
  if bool_decide (bsize (param s) < param_size s ∧ Z.of_nat (length (args s)) < room s)%Z
  then Ret tt (mk_params (args s ++ [c_string (param s)]) (Z.of_nat (length (args s)) + 2)
                 [] (end_ - i + 1) NUL)
  else Undef OutOfBounds.

(** The loop of a double quoted parameter; the index where it is left. *)
Fixpoint quoted_param (fuel : nat) (end_ i : Z) : prog params Z :=
  match fuel with
  | 0 => out_of_fuel
  | S fuel =>
      if (i <=? end_)%Z then
        c ← at_line i;
        p ← gets before;
        let set_before x := modify (λ s, mk_params (args s) (room s) (param s) (param_size s) x) in
        if decide (c = BACKSLASH) then _ ← set_before BACKSLASH; quoted_param fuel end_ (i + 1)
        else if decide (c ≠ DQUOTE ∨ p = BACKSLASH) then
          _ ← put_param c; _ ← set_before c; quoted_param fuel end_ (i + 1)
        else _ ← end_param end_ i; mret i
      else mret i
  end.

Fixpoint params_loop (fuel : nat) (end_ i : Z) : prog params unit :=
  match fuel with
  | 0 => out_of_fuel
  | S fuel =>
      if (i <=? end_)%Z then
        c ← at_line i;
        if decide (c = SP) then _ ← end_param end_ i; params_loop fuel end_ (i + 1)
        else if decide (c = DQUOTE) then
          i ← quoted_param (S (length line)) end_ (i + 1); params_loop fuel end_ (i + 1)
        else if decide (c = SQUOTE) then params_loop fuel end_ (i + 1)
        else _ ← put_param c; params_loop fuel end_ (i + 1)
      else mret tt
  end.

(** After the loop a null pointer is stored at [count + 1], and [argv\[0\]] is read. *)
Definition parse_command_body (start end_ : Z) : prog params cmd :=
  start ← skip_start (S (length line)) start;
  end_ ← skip_end (S (length line)) end_;
  _ ← params_loop (S (length line)) end_ start;
  s ← get;
  if bool_decide (Z.of_nat (length (args s)) + 1 < room s)%Z then
    n ← the Uninitialised (head (args s));
    mret (mk_cmd (Some n) (args s) (Z.of_nat (length (args s))))
  else undef OutOfBounds.
End parse_command.

Definition parse_command (line : bytes) (start end_ : Z) : res params cmd :=
  parse_command_body line start end_ (mk_params [] 2 [] (end_ - start + 1) NUL).

(** [add_char]: the buffer is doubled when [len + 1] is its size, and the character is
    stored behind that of [len]; the bytes of the buffer that were never written are
    [None]. *)
Definition add_char (str : list (option ascii)) (max_len : Z) (len : Z) (c : ascii) :
    option (list (option ascii) * Z) :=
  let '(str, max_len) :=
    if bool_decide (len + 1 = max_len)%Z
    then (str ++ replicate (Z.to_nat (max_len * 2) - length str) None, (max_len * 2)%Z) else (str, max_len) in
  if bool_decide (0 ≤ len + 1 < Z.of_nat (length str))%Z
  then Some (<[Z.to_nat (len + 1) := Some c]> str, max_len) else None.

(** The first line, with its line feed. *)
Fixpoint first_line (s : bytes) : bytes * bytes :=
  match s with
  | [] => ([], [])
  | c :: s => if decide (c = LF) then ([c], s) else let '(l, r) := first_line s in (c :: l, r)
  end.

(** The counter counts what is free, and the buffer is at most twice what is written. *)
Record roomy (s : reader) : Prop := {
  roomy_len : (1 ≤ len s)%Z;
  roomy_capacity : (bsize (written s) + len s = capacity s)%Z;
  roomy_lenmax : lenmax s = capacity s;
  roomy_twice : (capacity s ≤ 2 * bsize (written s) + 100)%Z;
}.

(** A character is stored and the rest of the line is read. *)
Lemma store_char_run s c rest l :
  (1 ≤ l)%Z → (bsize (written s) + 1 + l = capacity s)%Z → lenmax s = capacity s →
  (capacity s ≤ 2 * (bsize (written s) + 1) + 100)%Z →
  input s = rest → len s = l →
  let s' := mk_reader rest (written s ++ [c]) (capacity s) (lenmax s) l in
  store_char c s = Ret tt s' ∧ roomy s'.
Proof.
  intros Hl Hc Hm Ht <- <-. unfold store_char. rewrite bool_decide_eq_true_2 by lia.
  split; [done|]. split; cbn; rewrite ?bsize_app, ?bsize_cons, ?bsize_nil; lia.
Qed.

Lemma get_cmd_loop_run gives fuel : ∀ s,
  (∀ n, 0 ≤ n → gives n = true)%Z → length (input s) < fuel → roomy s →
  (bsize (written s) + bsize (input s) < 2 ^ 61)%Z →
  ∃ s', get_cmd_loop gives fuel s = Ret true s' ∧
    written s' = written s ++ (first_line (input s)).1 ∧ input s' = (first_line (input s)).2 ∧
    (bsize (written s') < capacity s')%Z.
Proof.
  induction fuel as [|fuel IH]; intros s Hg Hf [Hl Hc Hm Ht] Hb; [lia|]. cbn [get_cmd_loop].
  pose proof (bsize_nonneg (written s)) as Hn.
  destruct (input s) as [|c rest] eqn:Ei.
  { exists s. cbn. rewrite app_nil_r. split_and!; try done. lia. }
  pose proof (bsize_nonneg rest) as Hn'. rewrite bsize_cons in Hb. cbn [length] in Hf.
  assert (∀ cap l, (1 ≤ l)%Z → (bsize (written s) + 1 + l = cap)%Z → (cap ≤ 2 * (bsize (written s) + 1) + 100)%Z →
    ∃ s', (store_char c ≫= λ _, if decide (c = LF) then mret true else get_cmd_loop gives fuel)
            (mk_reader rest (written s) cap cap l) = Ret true s' ∧
      written s' = written s ++ (first_line (c :: rest)).1 ∧ input s' = (first_line (c :: rest)).2 ∧
      (bsize (written s') < capacity s')%Z) as Hnext.
  { intros cap l H1 H2 H3.
    destruct (store_char_run (mk_reader rest (written s) cap cap l) c rest l) as [E Hr]; try done.
    rewrite (bind_ret _ _ _ _ _ E). cbn [written capacity lenmax] in *. cbn [first_line].
    destruct (decide (c = LF)) as [->|Hc'].
    - eexists. split; [done|]. cbn. split_and!; try done. rewrite bsize_app, bsize_cons, bsize_nil. lia.
    - destruct (IH (mk_reader rest (written s ++ [c]) cap cap l) Hg ltac:(cbn; lia) Hr) as (s' & E' & Hw & Hi & Hcap).
      { cbn. rewrite bsize_app, bsize_cons, bsize_nil. lia. }
      exists s'. cbn [written input] in *. rewrite E', Hw, Hi. destruct (first_line rest).
      split_and!; [done| |done|by rewrite <-Hw]. cbn. by rewrite <-app_assoc. }
  cbn zeta. cbn [len lenmax written capacity]. rewrite Hm.
  destruct (decide (len s = 1%Z)) as [H1|H1].
  - rewrite H1. rewrite bool_decide_eq_true_2 by done. rewrite Hg by (apply wrap_range; lia).
    rewrite wrap_small by lia. apply Hnext; lia.
  - rewrite wrap_small by lia. rewrite bool_decide_eq_false_2 by lia. apply Hnext; lia.
Qed.

(** C37: [get_cmd] reads one line with its line feed, or what is left of the input, without
    ever writing behind its buffer, when [realloc] succeeds; neither the counter of what is
    free nor the size, doubled each time, leaves its range. *)
Theorem get_cmd_reads gives stdin :
  (∀ n, 0 ≤ n → gives n = true)%Z → (bsize stdin < 2 ^ 61)%Z →
  get_cmd gives (S (length stdin)) stdin =
  Ret (Some (c_string (first_line stdin).1)) (first_line stdin).2.
Proof.
  intros Hg Hb. unfold get_cmd. rewrite Hg by lia. cbn [negb].
  destruct (get_cmd_loop_run gives (S (length stdin)) (mk_reader stdin [] 100 100 100) Hg)
    as (s' & -> & Hw & Hi & Hc); [cbn; lia|by split; cbn; rewrite ?bsize_nil|cbn; rewrite bsize_nil; lia|].
  rewrite bool_decide_eq_true_2 by done. cbn [written input] in *. by rewrite Hw, Hi.
Qed.

Lemma get_cmd_reads_witness :
  get_cmd (λ _, true) 452 (replicate 450 "x"%char ++ [LF]) =
  Ret (Some (replicate 450 "x"%char ++ [LF])) [].
Proof.
  refine (eq_trans (get_cmd_reads (λ _, true) (replicate 450 "x"%char ++ [LF]) _ _) _); [done|vm_compute; reflexivity..].
Defined.

(** ** [parse_command] *)

(** There is never room behind the parameters. *)
Definition crowded (s : params) : Prop :=
  args s = [] ∧ room s = 2%Z ∨ args s ≠ [] ∧ room s = (Z.of_nat (length (args s)) + 1)%Z.

(** A computation that ends, keeps it so, and returns what satisfies [Q]. *)
Definition tame {A} (m : prog params A) (Q : A → Prop) : Prop :=
  ∀ s, crowded s →
    match m s with Ret a s' => crowded s' ∧ Q a | Undef _ => True | _ => False end.
Abbreviation any := (λ _, True).

Lemma tame_bind {A B} (m : prog params A) (k : A → prog params B) P Q :
  tame m P → (∀ a, P a → tame (k a) Q) → tame (m ≫= k) Q.
Proof.
  intros Hm Hk s Hs. specialize (Hm s Hs). unfold mbind, prog_bind.
  destruct (m s) as [a s'| | |]; try done. destruct Hm. by apply Hk.
Qed.

Lemma tame_ret {A} (a : A) (Q : A → Prop) : Q a → tame (mret a) Q.
Proof. by intros H s. Qed.

(** Reading the line: behind it nothing follows. *)
Lemma tame_at_line line i : tame (at_line line i) (λ _, 0 ≤ i < bsize line)%Z.
Proof.
  intros s Hs. unfold at_line. destruct (Z.leb_spec 0 i); [|done].
  destruct (line !! Z.to_nat i) as [c|] eqn:E; [|done]. cbn.
  apply lookup_lt_Some in E. unfold bsize. split; [done|lia].
Qed.

Lemma tame_gets {A} (f : params → A) : tame (gets f) any.
Proof. by intros s. Qed.

Lemma tame_before x :
  tame (modify (λ s, mk_params (args s) (room s) (param s) (param_size s) x)) any.
Proof. by intros s. Qed.

Lemma tame_put_param c : tame (put_param c) any.
Proof. intros s Hs. unfold put_param. case_bool_decide; [by split|done]. Qed.

Lemma tame_end_param end_ i : tame (end_param end_ i) any.
Proof.
  intros s Hs. unfold end_param. case_bool_decide; [|done]. split; [|done]. right. cbn.
  split; [by destruct (args s)|]. rewrite length_app. cbn. lia.
Qed.

(** Fuel for an index that moves up. *)
Definition enough (line : bytes) (fuel : nat) (i : Z) : Prop :=
  (0 < Z.of_nat fuel ∧ bsize line < Z.max 0 i + Z.of_nat fuel)%Z.

Lemma enough_next line fuel i j :
  enough line (S fuel) i → (0 ≤ i < bsize line)%Z → (i + 1 ≤ j)%Z → enough line fuel j.
Proof. unfold enough. lia. Qed.

Lemma tame_skip_start line fuel : ∀ i, enough line fuel i → tame (skip_start line fuel i) any.
Proof.
  induction fuel as [|fuel IH]; intros i Hf; [by destruct Hf|]. cbn [skip_start].
  eapply tame_bind; [apply tame_at_line|]. intros c Hi. cbn in Hi.
  case_decide; [|by apply tame_ret]. apply IH. eapply enough_next; [done..|lia].
Qed.

Lemma tame_skip_end line fuel : ∀ i,
  (0 < Z.of_nat fuel ∧ Z.min (bsize line) (i + 1) < Z.of_nat fuel)%Z →
  tame (skip_end line fuel i) any.
Proof.
  induction fuel as [|fuel IH]; intros i [H0 Hf]; [lia|]. cbn [skip_end].
  eapply tame_bind; [apply tame_at_line|]. intros c Hi. cbn in Hi.
  case_decide; [|by apply tame_ret]. apply IH. lia.
Qed.

(** The loop of a quoted parameter ends at an index that is not lower. *)
Lemma tame_quoted_param line end_ fuel : ∀ i,
  enough line fuel i → tame (quoted_param line fuel end_ i) (λ j, i ≤ j)%Z.
Proof.
  induction fuel as [|fuel IH]; intros i Hf; [by destruct Hf|]. cbn [quoted_param].
  destruct (Z.leb_spec i end_); [|apply tame_ret; lia].
  eapply tame_bind; [apply tame_at_line|]. intros c Hi. cbn in Hi.
  assert (tame (quoted_param line fuel end_ (i + 1)) (λ j, i ≤ j)%Z) as Hnext.
  { intros s Hs. specialize (IH (i + 1)%Z ltac:(eapply enough_next; [done..|lia]) s Hs).
    destruct (quoted_param _ _ _ _ s); try done. destruct IH. split; [done|lia]. }
  eapply tame_bind; [apply tame_gets|]. intros p _. repeat case_decide.
  - eapply tame_bind; [apply tame_before|done].
  - eapply tame_bind; [apply tame_put_param|]. intros _ _.
    eapply tame_bind; [apply tame_before|done].
  - eapply tame_bind; [apply tame_end_param|]. intros _ _. apply tame_ret. lia.
Qed.

Lemma tame_params_loop line end_ fuel : ∀ i,
  enough line fuel i → tame (params_loop line fuel end_ i) any.
Proof.
  induction fuel as [|fuel IH]; intros i Hf; [by destruct Hf|]. cbn [params_loop].
  destruct (Z.leb_spec i end_); [|by apply tame_ret].
  eapply tame_bind; [apply tame_at_line|]. intros c Hi. cbn in Hi.
  assert (∀ j, (i + 1 ≤ j)%Z → tame (params_loop line fuel end_ j) any) as Hnext
    by (intros j Hj; apply IH; by eapply enough_next).
  repeat case_decide.
  - eapply tame_bind; [apply tame_end_param|]. intros _ _. apply Hnext. lia.
  - eapply tame_bind; [apply tame_quoted_param; unfold enough, bsize; lia|].
    intros j Hj. apply Hnext. cbn in Hj. lia.
  - apply Hnext. lia.
  - eapply tame_bind; [apply tame_put_param|]. intros _ _. apply Hnext. lia.
Qed.

(** [parse_command] has no defined result on any line: when it does not leave its buffers
    before, it stores a null pointer behind [argv], or reads [argv\[0\]] that was never
    written. *)
Theorem parse_command_undefined line start end_ : ∃ u, parse_command line start end_ = Undef u.
Proof.
  unfold parse_command. set (s0 := mk_params _ _ _ _ _).
  assert (tame (parse_command_body line start end_) (λ _, False)) as H.
  { unfold parse_command_body.
    eapply tame_bind; [apply tame_skip_start; unfold enough, bsize; lia|]. intros st _.
    eapply tame_bind; [apply tame_skip_end; unfold bsize; lia|]. intros e _.
    eapply tame_bind; [apply tame_params_loop; unfold enough, bsize; lia|]. intros _ _.
    intros s [[Ha Hr]|[Ha Hr]]; unfold get, mbind, prog_bind; rewrite Hr.
    - rewrite Ha. done.
    - by rewrite bool_decide_eq_false_2 by lia. }
  specialize (H s0 (or_introl (conj eq_refl eq_refl))).
  destruct (parse_command_body line start end_ s0) as [c s'| |u|]; [by destruct H|done|by eexists|done].
Qed.

(** [add_char] leaves the byte at [len] as it was. *)
Lemma add_char_gap str max_len len c str' max_len' :
  add_char str max_len len c = Some (str', max_len') →
  (0 ≤ len < Z.of_nat (length str))%Z →
  str' !! Z.to_nat (len + 1) = Some (Some c) ∧ str' !! Z.to_nat len = str !! Z.to_nat len.
Proof.
  unfold add_char. intros H Hlen. case_bool_decide; case_bool_decide; simplify_eq;
    (split; [by rewrite list_lookup_insert_eq by lia|]);
    rewrite list_lookup_insert_ne by lia; [|done]. by rewrite lookup_app_l by lia.
Qed.
