(* ===== verification/EventLoops.v ===== *)
(** * Servers with event loops

    Models of src/sysprog/lecture_examples/9_aio/4_server_select.c, 5_server_poll.c,
    6_server_kqueue.c and 7_server_epoll.c: servers that answer every number with its
    successor.  The kernel is a list of answers for every system call; the calls are
    recorded.  The programs around the loops are in [EventServers]. *)

From S2P Require Import Prelude IpcSort.

(** ** The kernel *)

(** The answer to select, poll, epoll_wait or kevent: the result, the ready descriptors,
    and the flag [EV_EOF]. *)
Record event : Type := mk_event { rc_wait : Z; ready : list nat; eof : bool }.

Inductive call : Type :=
| do_wait (watched : list nat)
| do_accept
| do_read (fd : nat)
| do_write (fd : nat) (data : bytes)
| do_close (fd : nat)
| do_add (fd : nat)      (* EPOLL_CTL_ADD or EV_ADD *)
| do_del (fd : nat).     (* EPOLL_CTL_DEL *)

Record kernel : Type := mk_kernel {
  waits : list event;
  accepts : list (option nat);      (* None for -1 *)
  reads_ : list (option bytes);     (* None for -1 *)
  writes : list Z;
  adds : list bool;                 (* false for -1 *)
  calls : list call;
}.

Definition log (c : call) (k : kernel) : kernel :=
  mk_kernel (waits k) (accepts k) (reads_ k) (writes k) (adds k) (calls k ++ [c]).

(** A call that is never answered blocks for ever. *)
Definition blocked {A} : prog kernel A := throw "blocked".

Definition sys_wait (watched : list nat) : prog kernel event := λ k,
  match waits k with
  | [] => blocked k
  | e :: r => Ret e (log (do_wait watched) (mk_kernel r (accepts k) (reads_ k) (writes k) (adds k) (calls k)))
  end.
Definition accept : prog kernel (option nat) := λ k,
  match accepts k with
  | [] => blocked k
  | e :: r => Ret e (log do_accept (mk_kernel (waits k) r (reads_ k) (writes k) (adds k) (calls k)))
  end.
Definition sys_read (fd : nat) : prog kernel (option bytes) := λ k,
  match reads_ k with
  | [] => blocked k
  | e :: r => Ret e (log (do_read fd) (mk_kernel (waits k) (accepts k) r (writes k) (adds k) (calls k)))
  end.
Definition sys_write (fd : nat) (data : bytes) : prog kernel Z := λ k,
  match writes k with
  | [] => blocked k
  | e :: r => Ret e (log (do_write fd data) (mk_kernel (waits k) (accepts k) (reads_ k) r (adds k) (calls k)))
  end.
Definition sys_add (fd : nat) : prog kernel bool := λ k,
  match adds k with
  | [] => blocked k
  | e :: r => Ret e (log (do_add fd) (mk_kernel (waits k) (accepts k) (reads_ k) (writes k) r (calls k)))
  end.
Definition sys_close (fd : nat) : prog kernel unit := modify (log (do_close fd)).
Definition sys_del (fd : nat) : prog kernel unit := modify (log (do_del fd)).

(** ** [interact] *)

(** The [int] after [read] has written the first bytes of it, which was 0. *)
Definition fill_buffer (data : bytes) : Z :=
  bytes_int (take 4 data ++ drop (length data) (int_bytes 0)).

Definition interact (client_sock : nat) : prog kernel Z :=
  data ← sys_read client_sock;
  match data with
  | None => mret (-1)%Z
  | Some [] => mret 0%Z
  | Some data =>
      let buffer := (fill_buffer data + 1)%Z in
      if bool_decide (i32_range buffer) then sys_write client_sock (int_bytes buffer)
      else undef SignedOverflow
  end.

(** ** The arrays of clients *)

(** [remove_client]: the elements around [i] are copied. *)
Definition remove_client {A} (arr : list A) (i : nat) : list A :=
  let count := length arr - 1 in
  take i arr ++ take (count - i) (drop (i + 1) arr).

Section serving.
(** What the elements are, and whether an element is ready. *)
Context {A : Type} (fd_of : A → nat) (isset : A → prog kernel bool).

(** [for (int i = 0; i < client_count && nfds > 0; ++i)] *)
Fixpoint serve_loop (fuel : nat) (arr : list A) (i : nat) (nfds : Z) : prog kernel (list A) :=
  match fuel with
  | 0 => out_of_fuel
  | S fuel =>
      if (i <? length arr) && (0 <? nfds)%Z then
        a ← the OutOfBounds (arr !! i);
        b ← isset a;
        if negb (b : bool) then serve_loop fuel arr (i + 1) nfds
        else
          rc ← interact (fd_of a);
          if bool_decide (rc = -1)%Z then mret arr
          else if bool_decide (rc = 0)%Z then serve_loop fuel (remove_client arr i) (i + 1) (nfds - 1)
          else serve_loop fuel arr (i + 1) (nfds - 1)
      else mret arr
  end.
End serving.

(** ** 4_server_select.c *)

Definition FD_SETSIZE : nat := 1024.

(** [fill_fdset]; the result is the set and the largest descriptor. *)
Fixpoint fd_set_clients (clients : list nat) (set : list nat) (max_fd : nat) : prog kernel (list nat * nat) :=
  match clients with
  | [] => mret (set, max_fd)
  | c :: clients =>
      if c <? FD_SETSIZE then fd_set_clients clients (set ++ [c]) (if max_fd <? c then c else max_fd)
      else undef OutOfBounds
  end.
Definition fill_fdset (clients : list nat) (server : nat) : prog kernel (list nat * nat) :=
  if server <? FD_SETSIZE then fd_set_clients clients [server] server else undef OutOfBounds.

(** The body of the loop of [main]; [None] is [break]. *)
Definition select_turn (server : nat) (clients : list nat) : prog kernel (option (list nat)) :=
  s ← fill_fdset clients server;
  let '(set, max_fd) := s in
  e ← sys_wait (filter (λ fd, fd < max_fd + 1) set);
  if bool_decide (rc_wait e = 0)%Z then mret (Some clients)
  else if bool_decide (rc_wait e = -1)%Z then mret None
  else
    let isset : nat → prog kernel bool := λ c, mret (bool_decide (c ∈ ready e)) in
    if bool_decide (server ∈ ready e) then
      c ← accept;
      match c with
      | None => mret None
      | Some c =>
          let clients := clients ++ [c] in
          Some <$> serve_loop id isset (length clients + 1) clients 0 (rc_wait e - 1)
      end
    else Some <$> serve_loop id isset (length clients + 1) clients 0 (rc_wait e).

Fixpoint select_main (fuel : nat) (server : nat) (clients : list nat) : prog kernel unit :=
  match fuel with
  | 0 => out_of_fuel
  | S fuel =>
      r ← select_turn server clients;
      match r with
      | Some clients => select_main fuel server clients
      | None =>
          _ ← sys_close server;
          foldr (λ c (m : prog kernel unit), sys_close c ≫= λ _, m) (mret tt) clients
      end
  end.

(** ** 5_server_poll.c *)

(** A [struct pollfd]; [revents] holds [POLLIN] or not, or was never written. *)
Record pollfd : Type := mk_pollfd { fd : nat; revents : option bool }.

Definition pollin (f : pollfd) : prog kernel bool := the Uninitialised (revents f).

(** [poll] writes every [revents]. *)
Definition sys_poll (fds : list pollfd) : prog kernel (Z * list pollfd) :=
  e ← sys_wait (fd <$> fds);
  mret (rc_wait e,
    if bool_decide (rc_wait e = -1)%Z then fds
    else (λ f, mk_pollfd (fd f) (Some (bool_decide (fd f ∈ ready e)))) <$> fds).

Definition poll_turn (server : nat) (fds : list pollfd) : prog kernel (option (list pollfd)) :=
  r ← sys_poll fds;
  let '(nfds, fds) := r in
  if bool_decide (nfds = 0)%Z then mret (Some fds)
  else if bool_decide (nfds = -1)%Z then mret None
  else
    f0 ← the OutOfBounds (head fds);
    b ← pollin f0;
    if (b : bool) then
      c ← accept;
      match c with
      | None => mret None
      | Some c =>
          let fds := fds ++ [mk_pollfd c None] in
          Some <$> serve_loop fd pollin (length fds + 1) fds 0 (nfds - 1)
      end
    else Some <$> serve_loop fd pollin (length fds + 1) fds 0 nfds.

Fixpoint poll_main (fuel : nat) (server : nat) (fds : list pollfd) : prog kernel unit :=
  match fuel with
  | 0 => out_of_fuel
  | S fuel =>
      r ← poll_turn server fds;
      match r with
      | Some fds => poll_main fuel server fds
      | None =>
          _ ← foldr (λ f (m : prog kernel unit), sys_close (fd f) ≫= λ _, m) (mret tt) fds;
          sys_close server
      end
  end.

(** The array at the start of the loop. *)
Definition poll_start (server : nat) : list pollfd := [mk_pollfd server None].

(** ** 6_server_kqueue.c and 7_server_epoll.c *)

(** One turn; the result is whether the loop goes on. *)
Definition event_turn (kqueue : bool) (server : nat) : prog kernel bool :=
  e ← sys_wait [];
  if bool_decide (rc_wait e = 0)%Z then mret true
  else if bool_decide (rc_wait e = -1)%Z then mret false
  else
    ident ← the Uninitialised (head (ready e));
    if bool_decide (ident = server) then
      c ← accept;
      match c with
      | None => mret false
      | Some c => sys_add c
      end
    else
      rc ← interact ident;
      if bool_decide (rc = -1)%Z then mret false
      else if kqueue then
        _ ← (if eof e then sys_close ident else mret tt);
        mret true
      else if bool_decide (rc = 0)%Z then
        _ ← sys_close ident; _ ← sys_del ident; mret true
      else mret true.

Fixpoint event_loop (fuel : nat) (kqueue : bool) (ep server : nat) : prog kernel unit :=
  match fuel with
  | 0 => out_of_fuel
  | S fuel =>
      go ← event_turn kqueue server;
      if (go : bool) then event_loop fuel kqueue ep server
      else _ ← sys_close ep; sys_close server
  end.

(** The listening socket is added before the loop. *)
Definition event_main (fuel : nat) (kqueue : bool) (ep server : nat) : prog kernel Z :=
  ok ← sys_add server;
  if (ok : bool) then _ ← event_loop fuel kqueue ep server; mret 0%Z
  else _ ← sys_close server; mret (-1)%Z.

(** ** [interact] *)

(** A number is answered by its successor; the largest one has none. *)
Lemma interact_number c z k ns w ws :
  i32_range z → reads_ k = Some (int_bytes z) :: ns → writes k = w :: ws →
  interact c k = if bool_decide (z = 2 ^ 31 - 1)%Z then Undef SignedOverflow
    else Ret w (mk_kernel (waits k) (accepts k) ns ws (adds k)
                  (calls k ++ [do_read c; do_write c (int_bytes (z + 1))])).
Proof.
  intros Hz Hr Hw. unfold interact.
  assert (∃ k1, sys_read c k = Ret (Some (int_bytes z)) k1 ∧
    k1 = mk_kernel (waits k) (accepts k) ns (writes k) (adds k) (calls k ++ [do_read c])) as (k1 & E & Hk1).
  { unfold sys_read. rewrite Hr. by eexists. }
  rewrite (bind_ret _ _ _ _ _ E). pose proof (length_int_bytes z) as Hl.
  destruct (int_bytes z) as [|b0 bs] eqn:Eb; [done|]. rewrite <-Eb.
  assert (fill_buffer (int_bytes z) = z) as ->.
  { unfold fill_buffer. rewrite Eb, Hl. rewrite drop_ge by (by rewrite length_int_bytes).
    rewrite app_nil_r, take_ge by lia. rewrite <-Eb. by apply int_roundtrip. }
  unfold i32_range in *. case_bool_decide; case_bool_decide; try lia; [|done].
  unfold sys_write. subst k1. cbn [writes]. rewrite Hw. unfold log. cbn. by rewrite <-app_assoc.
Qed.

(** Errors and the end of the stream are passed on without an answer. *)
Lemma interact_nothing c r k k' :
  sys_read c k = Ret r k' → r = None ∨ r = Some [] →
  interact c k = Ret (match r with None => -1 | _ => 0 end)%Z k'.
Proof. intros E Hr. unfold interact. rewrite (bind_ret _ _ _ _ _ E). by destruct Hr as [-> | ->]. Qed.

(** ** The loop over the clients *)

(** Removing the element at [i] is what it should be. *)
Lemma remove_client_delete {A} (arr : list A) i : i < length arr → remove_client arr i = delete i arr.
Proof.
  intros Hi. unfold remove_client. rewrite delete_take_drop, Nat.add_1_r. f_equal.
  apply take_ge. rewrite length_drop. lia.
Qed.

Section serving_facts.
Context {A : Type} (fd_of : A → nat) (isset : A → prog kernel bool) (up : A → bool).
Context (isset_up : ∀ a k, isset a k = Ret (up a) k).

(** The clients in order: an error ends the round, and a client that disconnects takes its
    successor's turn with it. *)
Fixpoint serve (arr : list A) : prog kernel (list A) :=
  match arr with
  | [] => mret []
  | a :: rest =>
      if up a then
        rc ← interact (fd_of a);
        if bool_decide (rc = -1)%Z then mret (a :: rest)
        else if bool_decide (rc = 0)%Z then
          match rest with
          | [] => mret []
          | d :: rest => cons d <$> serve rest
          end
        else cons a <$> serve rest
      else cons a <$> serve rest
  end.

Definition ups (arr : list A) : nat := length (filter (λ a, up a = true) arr).

Lemma serve_none arr k : ups arr = 0 → serve arr k = Ret arr k.
Proof.
  induction arr as [|a arr IH]; [done|]. unfold ups in *. rewrite filter_cons. cbn [serve].
  destruct (up a) eqn:E; [by rewrite decide_True by done|]. rewrite decide_False by done. intros H.
  unfold fmap, prog_fmap. by rewrite (bind_ret _ _ _ _ _ (IH H)).
Qed.

Lemma prog_fmap_fmap {B C D} (g : C → D) (f : B → C) (m : prog kernel B) k :
  (g <$> (f <$> m)) k = ((λ x, g (f x)) <$> m) k.
Proof. unfold fmap, prog_fmap, mbind, prog_bind. by destruct (m k). Qed.

Lemma prog_fmap_ext {B C} (f g : B → C) (m : prog kernel B) k : (∀ x, f x = g x) → (f <$> m) k = (g <$> m) k.
Proof. intros H. unfold fmap, prog_fmap, mbind, prog_bind. destruct (m k); [|done..]. by rewrite H. Qed.

Lemma ups_cons a arr : ups (a :: arr) = (if up a then 1 else 0) + ups arr.
Proof.
  unfold ups. rewrite filter_cons. destruct (up a); [by rewrite decide_True by done|].
  by rewrite decide_False by done.
Qed.

(** The loop with its index and its counter of ready descriptors does just that. *)
Lemma serve_loop_spec fuel : ∀ done_ todo nfds k,
  length todo < fuel → (Z.of_nat (ups todo) ≤ nfds)%Z →
  serve_loop fd_of isset fuel (done_ ++ todo) (length done_) nfds k = (app done_ <$> serve todo) k.
Proof.
  induction fuel as [|fuel IH]; intros d todo nfds k Hf Hn; [lia|]. cbn [serve_loop].
  assert (app d <$> serve todo = (λ k, (app d <$> serve todo) k)) as Heta by done.
  destruct (Z.ltb_spec 0 nfds) as [Hpos|Hzero].
  2: { rewrite andb_false_r. assert (ups todo = 0) as H0 by lia.
       unfold fmap, prog_fmap. by rewrite (bind_ret _ _ _ _ _ (serve_none _ _ H0)). }
  rewrite length_app. destruct todo as [|a todo].
  { rewrite (proj2 (Nat.ltb_ge _ _)) by (cbn; lia). done. }
  rewrite (proj2 (Nat.ltb_lt _ _)) by (cbn; lia). cbn [andb].
  rewrite lookup_app_r, Nat.sub_diag by done. cbn [lookup list_lookup the].
  rewrite (bind_ret (mret a) _ k a k) by done. rewrite (bind_ret _ _ _ _ _ (isset_up a k)).
  rewrite ups_cons in Hn. cbn in Hf. cbn [serve].
  assert (∀ nfds k, (Z.of_nat (ups todo) ≤ nfds)%Z →
    serve_loop fd_of isset fuel (d ++ a :: todo) (length d + 1) nfds k = (app d <$> (cons a <$> serve todo)) k) as Hkeep.
  { intros nfds' k' Hn'. specialize (IH (d ++ [a]) todo nfds' k' ltac:(lia) Hn').
    rewrite length_app, <-app_assoc in IH. cbn [length app] in IH. rewrite IH, prog_fmap_fmap.
    apply prog_fmap_ext. intros x. by rewrite <-app_assoc. }
  destruct (up a); cbn [negb]; [|apply Hkeep; lia].
  unfold fmap at 1, prog_fmap at 1. rewrite prog_assoc. unfold mbind, prog_bind.
  destruct (interact (fd_of a) k) as [rc k1|e k1| |]; [|done..].
  case_bool_decide; [done|]. case_bool_decide.
  - rewrite remove_client_delete by (rewrite length_app; cbn; lia). rewrite delete_middle.
    destruct todo as [|d' todo].
    + destruct fuel as [|fuel]; [cbn in Hf; lia|]. cbn [serve_loop]. rewrite app_nil_r.
      rewrite (proj2 (Nat.ltb_ge _ _)) by lia. unfold mret, prog_ret. cbn. by rewrite ?app_nil_r.
    + specialize (IH (d ++ [d']) todo (nfds - 1)%Z k1). rewrite ups_cons in Hn. cbn in Hf.
      rewrite length_app, <-app_assoc in IH. cbn [length app] in IH. rewrite IH by lia.
      transitivity ((app d <$> (cons d' <$> serve todo)) k1); [|done].
      rewrite prog_fmap_fmap. apply prog_fmap_ext. intros x. by rewrite <-app_assoc.
  - rewrite Hkeep by lia. done.
Qed.
End serving_facts.

(** ** The servers *)

Lemma fd_set_clients_run clients : ∀ set max_fd k,
  Forall (λ c, c < FD_SETSIZE) clients →
  ∃ m, fd_set_clients clients set max_fd k = Ret (set ++ clients, m) k ∧ max_fd ≤ m ∧ Forall (λ c, c ≤ m) clients.
Proof.
  induction clients as [|c clients IH]; intros set mx k H; cbn [fd_set_clients].
  - exists mx. rewrite app_nil_r. by split_and!.
  - apply Forall_cons in H as [Hc H]. rewrite (proj2 (Nat.ltb_lt _ _)) by done.
    destruct (IH (set ++ [c]) (if mx <? c then c else mx) k H) as (m & E & Hm & Hf).
    exists m. rewrite E, <-app_assoc. split_and!; [done| |].
    + destruct (Nat.ltb_spec mx c); lia.
    + constructor; [destruct (Nat.ltb_spec mx c); lia|done].
Qed.

(** The set is all descriptors, and all are below the bound. *)
Lemma fill_fdset_run clients server k :
  Forall (λ c, c < FD_SETSIZE) (server :: clients) →
  ∃ m, fill_fdset clients server k = Ret (server :: clients, m) k ∧
    filter (λ fd, fd < m + 1) (server :: clients) = server :: clients.
Proof.
  intros [Hs Hc]%Forall_cons. unfold fill_fdset. rewrite (proj2 (Nat.ltb_lt _ _)) by done.
  destruct (fd_set_clients_run clients [server] server k Hc) as (m & E & Hm & Hf). exists m. split; [exact E|].
  assert (Forall (λ fd, fd < m + 1) (server :: clients)) as Hall.
  { constructor; [lia|]. eapply Forall_impl; [exact Hf|]. cbn. lia. }
  clear -Hall. induction Hall as [|fd l Hfd _ IH]; [done|]. rewrite filter_cons, decide_True by done. by rewrite IH.
Qed.

(** One turn of the select server: the new client is accepted, then the ready clients are
    served in order. *)
Theorem select_turn_serves server clients rd n b ws k :
  Forall (λ c, c < FD_SETSIZE) (server :: clients) →
  waits k = mk_event n rd b :: ws →
  n = Z.of_nat (length (filter (λ c, c ∈ rd) (server :: clients))) → n ≠ 0%Z →
  match accepts k with Some c :: _ => c ∉ rd | _ => True end →
  let up := λ c, bool_decide (c ∈ rd) in
  select_turn server clients k =
    (if bool_decide (server ∈ rd) then
       c ← accept;
       match c with None => mret None | Some c => Some <$> serve id up (clients ++ [c]) end
     else Some <$> serve id up clients)
    (log (do_wait (server :: clients)) (mk_kernel ws (accepts k) (reads_ k) (writes k) (adds k) (calls k))).
Proof.
  intros Hfd Hw Hn Hn0 Hacc up. unfold select_turn.
  destruct (fill_fdset_run clients server k Hfd) as (m & E & Hfil). rewrite (bind_ret _ _ _ _ _ E). cbn beta iota.
  rewrite Hfil. set (k1 := log _ _).
  assert (sys_wait (server :: clients) k = Ret (mk_event n rd b) k1) as E1 by (unfold sys_wait; by rewrite Hw).
  rewrite (bind_ret _ _ _ _ _ E1). cbn [rc_wait ready].
  rewrite (bool_decide_eq_false_2 (n = 0%Z)), (bool_decide_eq_false_2 (n = (-1)%Z)) by lia.
  assert (∀ l, ups up l = length (filter (λ c, c ∈ rd) l)) as Hups.
  { intros l. unfold ups. f_equal. apply list_filter_iff. intros c. apply bool_decide_eq_true. }
  assert (∀ l nf k, (Z.of_nat (ups up l) ≤ nf)%Z →
    serve_loop id (λ c, mret (bool_decide (c ∈ rd))) (length l + 1) l 0 nf k = serve id up l k) as Hloop.
  { intros l nf k' Hl. pose proof (serve_loop_spec id (λ c, mret (bool_decide (c ∈ rd))) up ltac:(done)
      (length l + 1) [] l nf k' ltac:(lia) Hl) as H. cbn [app length] in H. etransitivity; [exact H|].
    unfold fmap, prog_fmap, mbind, prog_bind. by destruct (serve id up l k'). }
  rewrite filter_cons in Hn. destruct (decide (server ∈ rd)) as [Hs|Hs].
  - rewrite bool_decide_eq_true_2 by done. unfold accept at 1 2. unfold mbind, prog_bind.
    assert (accepts k1 = accepts k) as -> by done. destruct (accepts k) as [|[c|] acs]; [done| |done].
    unfold fmap, prog_fmap, mbind, prog_bind. rewrite Hloop; [done|].
    rewrite Hups, filter_app, length_app, filter_cons, decide_False by done. cbn in *. lia.
  - rewrite bool_decide_eq_false_2 by done. unfold fmap, prog_fmap, mbind, prog_bind.
    rewrite Hloop; [done|]. rewrite Hups. lia.
Qed.

(** The poll server starts with the listening socket itself: when a client and a new
    connection come together it reads from that socket, fails, and serves nobody. *)
Theorem poll_turn_listener server r0 cl n rd b ws c acs rs k :
  waits k = mk_event n rd b :: ws → accepts k = Some c :: acs → reads_ k = None :: rs →
  server ∈ rd → (2 ≤ n)%Z →
  poll_turn server (mk_pollfd server r0 :: cl) k =
    Ret (Some (((λ f, mk_pollfd (fd f) (Some (bool_decide (fd f ∈ rd)))) <$> mk_pollfd server r0 :: cl) ++ [mk_pollfd c None]))
      (mk_kernel ws acs rs (writes k) (adds k)
         (calls k ++ [do_wait (server :: (fd <$> cl)); do_accept; do_read server])).
Proof.
  intros Hw Ha Hr Hs Hn. unfold poll_turn, sys_poll. rewrite prog_assoc.
  set (k1 := log (do_wait (server :: (fd <$> cl))) (mk_kernel ws (accepts k) (reads_ k) (writes k) (adds k) (calls k))).
  assert (sys_wait (fd <$> mk_pollfd server r0 :: cl) k = Ret (mk_event n rd b) k1) as E1 by (unfold sys_wait; by rewrite Hw).
  rewrite (bind_ret _ _ _ _ _ E1). cbn [rc_wait ready]. rewrite (bool_decide_eq_false_2 (n = (-1)%Z)) by lia.
  set (fds := (λ f, mk_pollfd (fd f) (Some (bool_decide (fd f ∈ rd)))) <$> mk_pollfd server r0 :: cl).
  rewrite (bind_ret (mret (n, fds)) _ k1 (n, fds) k1) by done. cbn beta iota.
  rewrite (bool_decide_eq_false_2 (n = 0%Z)), (bool_decide_eq_false_2 (n = (-1)%Z)) by lia.
  assert (head fds = Some (mk_pollfd server (Some true))) as Hh
    by (unfold fds; cbn; by rewrite bool_decide_eq_true_2).
  rewrite Hh. cbn [the].
  rewrite (bind_ret (mret (mk_pollfd server (Some true))) _ k1 (mk_pollfd server (Some true)) k1) by done.
  rewrite (bind_ret (pollin (mk_pollfd server (Some true))) _ k1 true k1) by done.
  assert (accept k1 = Ret (Some c) (log do_accept (mk_kernel ws acs (reads_ k) (writes k) (adds k) (calls k1)))) as E2
    by (unfold accept; cbn [k1 log accepts]; by rewrite Ha).
  rewrite (bind_ret _ _ _ _ _ E2). set (k2 := log do_accept _).
  assert (∃ f, fds ++ [mk_pollfd c None] = mk_pollfd server (Some true) :: f) as [f Hf].
  { destruct fds as [|x l]; [done|]. injection Hh as ->. by eexists. }
  rewrite Hf. rewrite Nat.add_1_r. cbn [serve_loop length]. rewrite (proj2 (Z.ltb_lt 0 (n - 1))) by lia.
  cbn [Nat.ltb Nat.leb andb lookup list_lookup the].
  unfold fmap, prog_fmap. rewrite prog_assoc.
  rewrite (bind_ret (mret (mk_pollfd server (Some true))) _ k2 (mk_pollfd server (Some true)) k2) by done.
  rewrite prog_assoc. rewrite (bind_ret (pollin (mk_pollfd server (Some true))) _ k2 true k2) by done. cbn [negb].
  rewrite prog_assoc. set (k3 := log (do_read server) (mk_kernel ws acs rs (writes k) (adds k) (calls k2))).
  assert (interact server k2 = Ret (-1)%Z k3) as E3.
  { apply (interact_nothing server None); [|by left]. unfold sys_read. cbn [k2 log reads_]. by rewrite Hr. }
  cbn [fd]. rewrite (bind_ret _ _ _ _ _ E3). rewrite bool_decide_eq_true_2 by done.
  unfold mbind, prog_bind, mret, prog_ret, k3, k2, k1, log. cbn. by rewrite <-!app_assoc.
Qed.

(** The epoll and kqueue servers end with the first error of one of their clients, without
    closing the others; the select server goes on ([select_turn_serves]). *)
Theorem event_client_error kqueue fuel ep server c n l b ws rs k :
  waits k = mk_event n (c :: l) b :: ws → reads_ k = None :: rs → c ≠ server → n ≠ 0%Z → n ≠ (-1)%Z →
  event_loop (S fuel) kqueue ep server k =
    Ret tt (mk_kernel ws (accepts k) rs (writes k) (adds k)
              (calls k ++ [do_wait []; do_read c; do_close ep; do_close server])).
Proof.
  intros Hw Hr Hc Hn0 Hn1. cbn [event_loop].
  set (k1 := log (do_wait []) (mk_kernel ws (accepts k) (reads_ k) (writes k) (adds k) (calls k))).
  set (k2 := log (do_read c) (mk_kernel ws (accepts k) rs (writes k) (adds k) (calls k1))).
  assert (event_turn kqueue server k = Ret false k2) as E.
  { unfold event_turn. assert (sys_wait [] k = Ret (mk_event n (c :: l) b) k1) as E1 by (unfold sys_wait; by rewrite Hw).
    rewrite (bind_ret _ _ _ _ _ E1). cbn [rc_wait ready head the].
    rewrite !bool_decide_eq_false_2 by done. rewrite (bind_ret (mret c) _ k1 c k1) by done.
    rewrite (bool_decide_eq_false_2 (c = server)) by done.
    assert (interact c k1 = Ret (-1)%Z k2) as E2.
    { apply (interact_nothing c None); [|by left]. unfold sys_read. cbn [k1 log reads_]. by rewrite Hr. }
    rewrite (bind_ret _ _ _ _ _ E2). by rewrite bool_decide_eq_true_2. }
  rewrite (bind_ret _ _ _ _ _ E). unfold sys_close, modify, mbind, prog_bind, k2, k1, log. cbn. by rewrite <-!app_assoc.
Qed.

(** A descriptor that does not fit into an [fd_set] is written behind it. *)
Theorem select_overflow server clients c k :
  server < FD_SETSIZE → FD_SETSIZE ≤ c → c ∈ clients → select_turn server clients k = Undef OutOfBounds.
Proof.
  intros Hs Hc Hin. unfold select_turn. apply bind_undef. unfold fill_fdset. rewrite (proj2 (Nat.ltb_lt _ _)) by done.
  enough (∀ set mx, fd_set_clients clients set mx k = Undef OutOfBounds) as H by apply H. clear Hs.
  induction clients as [|d clients IH]; [by apply not_elem_of_nil in Hin|].
  intros set mx. cbn [fd_set_clients]. destruct (Nat.ltb_spec d FD_SETSIZE); [|done].
  apply elem_of_cons in Hin as [->|Hin]; [lia|]. by apply IH.
Qed.

(** ** Witnesses *)

(** A client that asks for the successor of 41, another one, and one that is gone. *)
Definition ex_kernel : kernel :=
  mk_kernel [mk_event 3 [4; 5; 6] false] [] [Some (int_bytes 41); Some []; Some (int_bytes 7)] [4; 4]%Z [] [].

Lemma select_turn_serves_witness :
  select_turn 3 [4; 5; 6] ex_kernel =
    Ret (Some [4; 6]) (mk_kernel [] [] [Some (int_bytes 7)] [4]%Z []
      [do_wait [3; 4; 5; 6]; do_read 4; do_write 4 (int_bytes 42); do_read 5]).
Proof.
  rewrite (select_turn_serves 3 [4; 5; 6] [4; 5; 6] 3 false [] ex_kernel).
  - vm_compute. reflexivity.
  - unfold FD_SETSIZE. repeat constructor; apply Nat.ltb_lt; vm_compute; reflexivity.
  - reflexivity.
  - vm_compute. reflexivity.
  - discriminate.
  - exact I.
Defined.

Lemma poll_turn_listener_witness : ∃ fds k',
  poll_turn 3 [mk_pollfd 3 None; mk_pollfd 4 None]
    (mk_kernel [mk_event 2 [3; 4] false] [Some 5] [None] [] [] []) = Ret (Some fds) k' ∧
  calls k' = [do_wait [3; 4]; do_accept; do_read 3].
Proof.
  do 2 eexists. split.
  - apply (poll_turn_listener 3 None [mk_pollfd 4 None] 2 [3; 4] false [] 5 [] []).
    + reflexivity.
    + reflexivity.
    + reflexivity.
    + by left.
    + lia.
  - reflexivity.
Defined.

Lemma event_client_error_witness :
  event_loop 1 false 9 3 (mk_kernel [mk_event 1 [4] false] [] [None] [] [] [])
  = Ret tt (mk_kernel [] [] [] [] [] [do_wait []; do_read 4; do_close 9; do_close 3]).
Proof.
  refine (event_client_error false 0 9 3 4 1 [] false [] [] _ _ _ _ _ _); try reflexivity; discriminate.
Defined.
