(* ===== verification/EventServers.v ===== *)
(** * The programs around the event loops

    The [main]s of src/sysprog/lecture_examples/9_aio/4_server_select.c, 5_server_poll.c,
    6_server_kqueue.c and 7_server_epoll.c, that set up the listening socket and run the
    loops of [EventLoops], and of 10_users/9_daemon.c, that runs the loop of the poll
    server as a daemon; with the table of descriptors the daemon gives itself; and the
    threads of 8_net/3_server.c, that serve the same numbers with a thread per client. *)

From S2P Require Import Prelude IpcSort EventLoops.

(** ** The listening socket *)

(** The answers to socket, bind, listen, and epoll_create or kqueue. *)
Record setup : Type := mk_setup {
  made : option nat;       (* None for -1 *)
  bound : bool;
  listens : bool;
  poller : option nat;     (* None for -1 *)
}.

(** The beginning of every [main]; the process leaves what is open to its exit. *)
Definition listening (a : setup) (serve : nat → prog kernel Z) : prog kernel Z :=
  match made a with
  | None => mret (-1)%Z
  | Some server =>
      if negb (bound a) then mret (-1)%Z
      else if negb (listens a) then mret (-1)%Z
      else serve server
  end.

(** ** The mains *)

Definition select_server (fuel : nat) (a : setup) : prog kernel Z :=
  listening a (λ server, _ ← select_main fuel server []; mret 0%Z).

Definition poll_server (fuel : nat) (a : setup) : prog kernel Z :=
  listening a (λ server, _ ← poll_main fuel server (poll_start server); mret 0%Z).

Definition epoll_server (fuel : nat) (a : setup) : prog kernel Z :=
  listening a (λ server,
    match poller a with
    | None => _ ← sys_close server; mret (-1)%Z
    | Some ep => event_main fuel false ep server
    end).

Definition kqueue_server (fuel : nat) (a : setup) : prog kernel Z :=
  listening a (λ server,
    match poller a with
    | None => _ ← sys_close server; mret (-1)%Z
    | Some kq => event_main fuel true kq server
    end).

(** ** A thread per client *)

(** [worker_f]: an error of [read] or [write] does not end it. *)
Fixpoint worker_f (fuel : nat) (client_sock : nat) : prog kernel unit :=
  match fuel with
  | 0 => out_of_fuel
  | S fuel =>
      size ← sys_read client_sock;
      match size with
      | None => worker_f fuel client_sock
      | Some [] => sys_close client_sock
      | Some data =>
          let buffer := (fill_buffer data + 1)%Z in
          if bool_decide (i32_range buffer) then
            _ ← sys_write client_sock (int_bytes buffer); worker_f fuel client_sock
          else undef SignedOverflow
      end
  end.

(** What [accept] and [pthread_create] answer the loop of [main]: the clients that get a
    thread, and the ones that are closed. *)
Fixpoint threads_for (answers : list (option nat * bool)) : list nat * list nat :=
  match answers with
  | [] => ([], [])
  | (None, _) :: answers => threads_for answers
  | (Some client_sock, created) :: answers =>
      let '(workers, closed) := threads_for answers in
      if created : bool then (client_sock :: workers, closed) else (workers, client_sock :: closed)
  end.

(** [main] of 3_server.c: the result when it cannot listen, else the loop, that never ends. *)
Definition thread_server (a : setup) (answers : list (option nat * bool)) : Z + (list nat * list nat) :=
  match made a with
  | None => inl (-1)%Z
  | Some sock =>
      if negb (bound a) then inl (-1)%Z
      else if negb (listens a) then inl (-1)%Z
      else inr (threads_for answers)
  end.

(** ** The daemon *)

(** What a descriptor is open on. *)
Inductive file : Type := Inherited (n : nat) | Log | Listener | Client.

(** The descriptors of a process; a new one is the lowest that is not open. *)
Notation table := (gmap nat file).
Definition lowest (t : table) : nat :=
  default 0 (head (filter (λ n, t !! n = None) (seq 0 (S (base.size t))))).

(** The answers to fork, open, dup2 and setsid. *)
Record start_up : Type := mk_start_up { forks : Z; opens : bool; dups : bool; sets_sid : Z }.

(** [daemonize]: nothing when the process exits, else its result and the descriptors. *)
Definition daemonize (a : start_up) (t : table) : option (Z * table) :=
  if (0 <? forks a)%Z then None
  else if negb (opens a) then Some ((-1)%Z, t)
  else
    let fd := lowest t in
    let t := <[fd := Log]> t in
    let t := if dups a then <[1 := Log]> t else t in
    let t := delete fd t in
    if negb (dups a) then Some ((-1)%Z, t)
    else Some (sets_sid a, delete 2 (delete 0 t)).

(** The result of the process, and its descriptors when the loop starts: the socket, when
    there is one, is the lowest. *)
Definition daemon_main (fuel : nat) (d : start_up) (a : setup) (t : table) : prog kernel (Z * table) :=
  match daemonize d t with
  | None => mret (0%Z, t)
  | Some (rc, t) =>
      if bool_decide (rc = -1)%Z then mret ((-1)%Z, t)
      else
        let server := lowest t in
        let sock := match made a with None => None | Some _ => Some server end in
        rc ← poll_server fuel (mk_setup sock (bound a) (listens a) None);
        mret (rc, match sock with Some fd => <[fd := Listener]> t | None => t end)
  end.

(** ** Facts *)

(** The four bytes of a number are the number. *)
Lemma fill_number z : i32_range z → fill_buffer (int_bytes z) = z.
Proof.
  intros Hz. unfold fill_buffer.
  rewrite drop_ge, take_ge, app_nil_r by (rewrite length_int_bytes; cbn; lia).
  by apply int_roundtrip.
Qed.

(** What a client sends its thread: numbers, and errors between them. *)
Definition sends (zs : list (option Z)) : list (option bytes) := map (option_map int_bytes) zs.

(** The calls of the thread that answers them. *)
Definition answers_to (c : nat) (zs : list (option Z)) : list call :=
  flat_map (λ z, do_read c :: from_option (λ z, [do_write c (int_bytes (z + 1))]) [] z) zs.

(** A thread answers every number with its successor until its client closes, whatever
    errors come between, then closes the socket. *)
Theorem worker_serves c zs ws rest k fuel :
  Forall (λ z, from_option (λ z, i32_range z ∧ z ≠ 2 ^ 31 - 1)%Z True z) zs →
  reads_ k = sends zs ++ Some [] :: rest → writes k = ws → length zs ≤ length ws →
  length zs < fuel →
  ∃ ws', worker_f fuel c k =
    Ret tt (mk_kernel (waits k) (accepts k) rest ws' (adds k)
              (calls k ++ answers_to c zs ++ [do_read c; do_close c])).
Proof.
  intros Hz. revert ws k fuel. induction Hz as [|z zs Hz _ IH]; intros ws k fuel Hr Hw Hl Hf;
    (destruct fuel as [|fuel]; [lia|]); cbn [worker_f]; unfold mbind, prog_bind, sys_read.
  - cbn in Hr. rewrite Hr. cbn. eexists. unfold sys_close, modify, log. cbn. by rewrite <-app_assoc.
  - change (sends (z :: zs)) with (option_map int_bytes z :: sends zs) in Hr. rewrite Hr. cbn [app].
    destruct z as [z|]; cbn [option_map].
    + destruct Hz as [Hz Hmax]. destruct ws as [|w ws]; [cbn in Hl; lia|].
      rewrite (fill_number z Hz). pose proof (length_int_bytes z) as Hlen.
      destruct (int_bytes z) as [|b0 bs]; [done|]. clear Hlen.
      rewrite bool_decide_eq_true_2 by (unfold i32_range in *; lia).
      unfold mbind, prog_bind, sys_write. cbn [log writes]. rewrite Hw.
      destruct (IH ws (log (do_write c (int_bytes (z + 1)))
        (mk_kernel (waits k) (accepts k) (sends zs ++ Some [] :: rest) ws (adds k) (calls k ++ [do_read c])))
        fuel) as [ws' E]; [done|done|cbn in Hl; lia|cbn in Hf; lia|].
      exists ws'. etransitivity; [exact E|]. unfold log. cbn. by rewrite <-!app_assoc.
    + destruct (IH ws (log (do_read c)
        (mk_kernel (waits k) (accepts k) (sends zs ++ Some [] :: rest) (writes k) (adds k) (calls k)))
        fuel) as [ws' E]; [done|done|cbn in Hl; lia|cbn in Hf; lia|].
      exists ws'. etransitivity; [exact E|]. unfold log. cbn. by rewrite <-!app_assoc.
Qed.

(** Every client that was accepted has a thread of its own or is closed, and no other. *)
Theorem threads_for_clients a answers : match thread_server a answers with
  | inl rc => rc = (-1)%Z ∧ (made a = None ∨ bound a = false ∨ listens a = false)
  | inr (workers, closed) => workers ++ closed ≡ₚ omap fst answers ∧
      (Forall (λ x, snd x = true) answers → closed = [] ∧ workers = omap fst answers)
  end.
Proof.
  unfold thread_server. destruct (made a); [|by auto]. destruct (bound a); [|cbn; by auto].
  destruct (listens a); [|cbn; by auto]. cbn [negb].
  induction answers as [|[[c|] []] answers IH]; cbn; [done|..].
  - destruct (threads_for answers) as [ws cs]. destruct IH as [IH1 IH2]. split; [cbn; by rewrite IH1|].
    intros [_ H]%Forall_cons. by destruct (IH2 H) as [-> ->].
  - destruct (threads_for answers) as [ws cs]. destruct IH as [IH1 IH2]. split; [by rewrite <-Permutation_middle, IH1|].
    by intros [? _]%Forall_cons.
  - destruct (threads_for answers) as [ws cs]. destruct IH as [IH1 IH2]. split; [done|]. intros [_ H]%Forall_cons. auto.
  - destruct (threads_for answers) as [ws cs]. destruct IH as [IH1 IH2]. split; [done|]. by intros [? _]%Forall_cons.
Qed.

Lemma head_filter_seq (P : nat → Prop) `{!∀ n, Decision (P n)} a n :
  match head (filter P (seq a n)) with
  | Some m => P m ∧ ∀ k, a ≤ k < m → ¬ P k
  | None => ∀ k, a ≤ k < a + n → ¬ P k
  end.
Proof.
  revert a. induction n as [|n IH]; intros a; [simpl; lia|]. cbn [seq]. rewrite filter_cons.
  destruct (decide (P a)) as [Ha|Ha]; [cbn; split; [done|lia]|].
  specialize (IH (S a)). destruct (head _) as [m|].
  - destruct IH as [Hm Hk]. split; [done|]. intros k Hk'.
    destruct (decide (k = a)) as [->|]; [done|]. apply Hk. lia.
  - intros k Hk'. destruct (decide (k = a)) as [->|]; [done|]. apply IH. lia.
Qed.

(** The lowest descriptor that is free is free, and all below are open. *)
Lemma lowest_spec t : t !! lowest t = None ∧ ∀ n, n < lowest t → is_Some (t !! n).
Proof.
  unfold lowest. pose proof (head_filter_seq (λ n, t !! n = None) 0 (S (base.size t))) as H.
  destruct (head _) as [m|]; cbn [default from_option id].
  - destruct H as [Hm Hk]. split; [done|]. intros n Hn. apply not_eq_None_Some, Hk. lia.
  - exfalso. assert ((list_to_set (seq 0 (S (base.size t))) : gset nat) ⊆ dom t) as Hsub.
    { intros k Hk%elem_of_list_to_set%elem_of_seq. apply elem_of_dom, not_eq_None_Some, H. lia. }
    apply subseteq_size in Hsub. rewrite size_list_to_set, length_seq, size_dom in Hsub by apply NoDup_seq.
    lia.
Qed.

(** The daemon writes its messages to the log and holds neither the input nor the error
    output of its starter, if the starter left it an output. *)
Theorem daemonize_table d t rc t' :
  is_Some (t !! 1) → daemonize d t = Some (rc, t') → opens d = true → dups d = true →
  t' = delete 2 (delete 0 (<[1 := Log]> t)) ∧ lowest t' = 0 ∧
  ∀ f, lowest (<[0 := f]> t') = 2.
Proof.
  intros H1 H Ho Hd. unfold daemonize in H. rewrite Ho, Hd in H.
  destruct (0 <? forks d)%Z; [done|]. cbn in H. injection H as <- <-.
  destruct (lowest_spec t) as [Hfree Hbelow]. set (fd := lowest t) in *.
  assert (fd ≠ 1) as Hne by (intros E; rewrite E in Hfree; rewrite Hfree in H1; by destruct H1).
  assert (delete fd (<[1 := Log]> (<[fd := Log]> t)) = <[1 := Log]> t) as ->.
  { apply map_eq. intros i. destruct (decide (i = fd)) as [->|Hi].
    - by rewrite lookup_delete_eq, lookup_insert_ne, Hfree by done.
    - rewrite lookup_delete_ne by done. destruct (decide (i = 1)) as [->|].
      + by rewrite !lookup_insert_eq.
      + by rewrite !lookup_insert_ne by done. }
  split; [done|]. set (t1 := delete 2 (delete 0 (<[1 := Log]> t))).
  split.
  - destruct (lowest_spec t1) as [_ Hb]. destruct (lowest t1) as [|n] eqn:E; [done|].
    destruct (Hb 0 ltac:(lia)) as [x Hx]. unfold t1 in Hx.
    by rewrite lookup_delete_ne, lookup_delete_eq in Hx.
  - intros f. destruct (lowest_spec (<[0 := f]> t1)) as [Hf Hb].
    assert (¬ 2 < lowest (<[0:=f]> t1)).
    { intros Hlt. destruct (Hb 2 Hlt) as [x Hx]. unfold t1 in Hx.
      by rewrite lookup_insert_ne, lookup_delete_eq in Hx. }
    destruct (lowest (<[0:=f]> t1)) as [|[|[|n]]]; [| |done|lia].
    + by rewrite lookup_insert_eq in Hf.
    + unfold t1 in Hf. by rewrite lookup_insert_ne, !lookup_delete_ne, lookup_insert_eq in Hf.
Qed.

(** Without an output at the start, the log gets its descriptor itself, which is closed:
    the first client gets descriptor 1, and with it the messages. *)
Example daemon_without_output :
  let d := mk_start_up 0 true true 7 in
  let t : table := {[ 0 := Inherited 0 ]} in
  daemonize d t = Some (7%Z, ∅) ∧ lowest (<[lowest ∅ := Listener]> ∅) = 1.
Proof. vm_compute. done. Qed.

(** A fork that fails is taken for the child's: the process goes on in its own session. *)
Example daemon_fork_fails :
  daemonize (mk_start_up (-1) true true (-1)) {[ 0 := Inherited 0; 1 := Inherited 1; 2 := Inherited 2 ]} =
  Some ((-1)%Z, {[ 1 := Log ]}).
Proof. vm_compute. done. Qed.
