(* ===== verification/NumberClients.v ===== *)
(** * Clients of the servers of numbers

    Models of the clients src/sysprog/lecture_examples/7_ipc/15_sock_client.c,
    8_net/3_client.c, 9_aio/4_client.c and 10_users/9_client.c, each with a thread of its
    server, as in 7_ipc/15_sock_server.c, at the other end of a stream of bytes: what the
    client sends and what it prints in every interleaving.  How many bytes a call moves,
    and whether it fails, is chosen by the kernel. *)

From S2P Require Import Prelude CStrings IpcSort Concur EventLoops EventServers.

(** ** The connection *)

(** The answers to socket, getaddrinfo (3_client.c only: an error, no address, or one) and
    connect. *)
Record dialling : Type := mk_dialling { has_socket : bool; address : option bool; connects : bool }.

(** The beginning of [main]: whether it is connected, and whether the socket it has is closed
    again.  Only 3_client.c [resolves] its arguments, only 15_sock_client.c does not [close]
    a socket that is refused. *)
Definition dial (resolves closes : bool) (a : dialling) : bool * bool :=
  if negb (has_socket a) then (false, false)
  else if resolves && negb (default false (address a)) then (false, true)
  else if connects a then (true, false) else (false, closes).

(** What the client prints. *)
Inductive out : Type := Sent (n : Z) | Received (n : Z) | Failed | Closed_connection.

(** Where the client is, and the thread of the server. *)
Inductive client : Type := Scans | Writes (n : Z) | Reads | Done.
Inductive thread : Type := Takes | Gives (n : Z) | Closed | Killed.

(** The input of the client, the bytes on their way in both directions. *)
Record session : Type := mk_session {
  input : bytes; at_client : client; at_thread : thread; up : bytes; down : bytes; printed : list out }.

Definition start (stdin : bytes) : session := mk_session stdin Scans Takes [] [] [].

(** A call fails or moves at most so many bytes; [Sigpipe] is what a write gets when the
    other end is closed. *)
Inductive event : Type :=
| Scan | Client_write (k : option nat) | Client_read (k : option nat)
| Thread_read (k : option nat) | Thread_write (k : option nat) | Sigpipe.

(** [read(fd, &number, 4)] of the bytes on the way: what it gets, none at the end, and what
    is left; it blocks when there is nothing and the other end is open. *)
Definition read_int (k : nat) (way : bytes) (open : bool) : option (bytes * bytes) :=
  match way with
  | [] => if open then None else Some ([], [])
  | _ => if k =? 0 then None else Some (take (Nat.min k 4) way, drop (Nat.min k 4) way)
  end.

(** [write(fd, &number, 4)] *)
Definition write_int (k : nat) (n : Z) : option bytes :=
  if k =? 0 then None else Some (take k (int_bytes n)).

(** The loop of the client's [main]. *)
Definition client_step (e : event) (s : session) : attempt session :=
  let goes c u d o := Next (mk_session (input s) c (at_thread s) u d (printed s ++ o)) in
  let open := match at_thread s with Closed | Killed => false | _ => true end in
  match at_client s, e with
  | Scans, Scan =>
      match scan_int (input s) with
      | None => goes Done (up s) (down s) []
      | Some (n, rest) =>
          if bool_decide (i32_range n)
          then Next (mk_session rest (Writes n) (at_thread s) (up s) (down s) (printed s))
          else Undefined SignedOverflow
      end
  | Writes n, Client_write None => goes Scans (up s) (down s) [Failed]
  | Writes n, Client_write (Some k) =>
      match write_int k n with
      | None => Blocked
      | Some d => goes Reads (up s ++ d) (down s) [Sent n]
      end
  | Reads, Client_read None => goes Scans (up s) (down s) [Failed]
  | Reads, Client_read (Some k) =>
      match read_int k (down s) open with
      | None => Blocked
      | Some ([], _) => goes Done (up s) (down s) [Closed_connection]
      | Some (data, rest) => goes Scans (up s) rest [Received (fill_buffer data)]
      end
  | _, _ => Blocked
  end.

(** The loop of [worker_f]. *)
Definition thread_step (e : event) (s : session) : attempt session :=
  let goes t u d := Next (mk_session (input s) (at_client s) t u d (printed s)) in
  let open := match at_client s with Done => false | _ => true end in
  match at_thread s, e with
  | Takes, Thread_read None => Next s
  | Takes, Thread_read (Some k) =>
      match read_int k (up s) open with
      | None => Blocked
      | Some ([], _) => goes Closed (up s) (down s)
      | Some (data, rest) =>
          let buffer := (fill_buffer data + 1)%Z in
          if bool_decide (i32_range buffer) then goes (Gives buffer) rest (down s)
          else Undefined SignedOverflow
      end
  | Gives n, Thread_write None => goes Takes (up s) (down s)
  | Gives n, Thread_write (Some k) =>
      match write_int k n with
      | None => Blocked
      | Some d => goes Takes (up s) (down s ++ d)
      end
  | Gives n, Sigpipe => if open then Blocked else goes Killed (up s) (down s)
  | _, _ => Blocked
  end.

Definition step (e : event) (s : session) : attempt session :=
  match e with
  | Scan | Client_write _ | Client_read _ => client_step e s
  | _ => thread_step e s
  end.

Definition run : list event → session → attempt session := run_labels step.

(** [main] of 15_sock_server.c is that of 3_server.c, [thread_server]: each client it accepts
    has a session of its own, with the input [inputs] gives it. *)
Definition sock_server (inputs : nat → bytes) (a : setup) (answers : list (option nat * bool)) : Z + list (nat * session) :=
  match thread_server a answers with
  | inl rc => inl rc
  | inr (workers, _) => inr ((λ c, (c, start (inputs c))) <$> workers)
  end.

(** ** What is printed *)

(** Every number whose write did not fail is answered by its successor. *)
Definition talk (zs : list (Z * bool)) : list out :=
  zs ≫= λ x, if (snd x : bool) then [Sent (fst x); Received (fst x + 1)] else [Failed].

(** Calls that move whole numbers; the reads of the client do not fail, and the writes of
    the thread only if answers may be lost. *)
Definition whole (lossy : bool) (e : event) : Prop :=
  match e with
  | Client_read None | Sigpipe => False
  | Thread_write None => lossy = true
  | Client_write (Some k) | Client_read (Some k) | Thread_read (Some k) | Thread_write (Some k) => 4 ≤ k
  | _ => True
  end.

(** The state between the steps, when the client has scanned [ns] and sent [zs]: nothing is
    on its way but the last number or its successor, unless an error of the thread lost it. *)
Definition quiet (s : session) : Prop := up s = [] ∧ down s = [].

Definition in_order (lossy : bool) (stdin : bytes) (s : session) : Prop :=
  ∃ zs,
  match at_client s with
  | Scans => scans stdin zs.*1 (input s) ∧ printed s = talk zs ∧ quiet s ∧ at_thread s = Takes
  | Writes n => scans stdin (zs.*1 ++ [n]) (input s) ∧ printed s = talk zs ∧ quiet s ∧ at_thread s = Takes ∧ i32_range n
  | Done => scans stdin zs.*1 (input s) ∧ printed s = talk zs ∧ quiet s ∧ scan_int (input s) = None ∧
      (at_thread s = Takes ∨ at_thread s = Closed)
  | Reads => ∃ z, scans stdin (zs.*1 ++ [z]) (input s) ∧ printed s = talk zs ++ [Sent z] ∧ i32_range z ∧
      (up s = int_bytes z ∧ down s = [] ∧ at_thread s = Takes ∨
       quiet s ∧ i32_range (z + 1) ∧ (lossy = true ∧ at_thread s = Takes ∨ at_thread s = Gives (z + 1)) ∨
       up s = [] ∧ down s = int_bytes (z + 1) ∧ i32_range (z + 1) ∧ at_thread s = Takes)
  end.

Lemma read_int_whole k z open : 4 ≤ k → read_int k (int_bytes z) open = Some (int_bytes z, []).
Proof.
  intros Hk. unfold read_int. pose proof (length_int_bytes z) as Hl. destruct (int_bytes z) as [|b bs] eqn:E; [done|].
  rewrite (proj2 (Nat.eqb_neq k 0)) by lia. rewrite Nat.min_r by lia. rewrite <-E in *.
  by rewrite take_ge, drop_ge by lia.
Qed.

Lemma write_int_whole k z : 4 ≤ k → write_int k z = Some (int_bytes z).
Proof.
  intros Hk. unfold write_int. rewrite (proj2 (Nat.eqb_neq k 0)) by lia.
  by rewrite take_ge by (rewrite length_int_bytes; lia).
Qed.

Lemma talk_app zs x : talk (zs ++ [x]) = talk zs ++ talk [x].
Proof. unfold talk. by rewrite bind_app. Qed.

(** The four bytes of a number, where a read tells the end of the stream from data. *)
Lemma read_int_match {A} k z open (end_ : A) (f : bytes → bytes → A) blocked : 4 ≤ k →
  match read_int k (int_bytes z) open with
  | None => blocked | Some ([], _) => end_ | Some (d, r) => f d r
  end = f (int_bytes z) [].
Proof.
  intros Hk. rewrite read_int_whole by done. pose proof (length_int_bytes z). by destruct (int_bytes z).
Qed.

Lemma in_order_client lossy stdin e s s' :
  whole lossy e → in_order lossy stdin s → client_step e s = Next s' → in_order lossy stdin s'.
Proof.
  destruct s as [inp c t u d o]. intros He (zs & H). unfold in_order, client_step, quiet in *. cbn [input at_client at_thread up down printed] in *.
  destruct c as [|n| |], e as [|[k|]|[k|]| | |]; try done.
  - destruct H as (Hs & -> & [-> ->] & ->). destruct (scan_int inp) as [[n r]|] eqn:E.
    + case_bool_decide as Hn; [|done]. intros [= <-]. exists zs. cbn. split_and!; try done. by eapply scans_one.
    + intros [= <-]. exists zs. cbn. rewrite app_nil_r. split_and!; try done. by left.
  - destruct H as (Hs & -> & [-> ->] & -> & Hn). rewrite write_int_whole by done.
    intros [= <-]. exists zs. cbn. exists n. split_and!; try done. by left.
  - destruct H as (Hs & -> & [-> ->] & -> & Hn). intros [= <-]. exists (zs ++ [(n, false)]). cbn.
    rewrite fmap_app, talk_app. by split_and!.
  - destruct H as (z & Hs & -> & Hz & H).
    destruct H as [(-> & -> & ->)|[([-> ->] & Hr & [[Hlossy ->] | ->])|(-> & -> & Hr & ->)]]; try done.
    rewrite (read_int_match k (z + 1)) by done. intros [= <-]. exists (zs ++ [(z, true)]). cbn.
    rewrite fmap_app, talk_app, fill_number by done. cbn. by rewrite <-app_assoc; split_and!.
Qed.

Lemma in_order_thread lossy stdin e s s' :
  whole lossy e → in_order lossy stdin s → thread_step e s = Next s' → in_order lossy stdin s'.
Proof.
  destruct s as [inp c t u d o]. intros He (zs & H). unfold in_order, thread_step, quiet in *. cbn [input at_client at_thread up down printed] in *.
  destruct c as [|n| |].
  - destruct H as (Hs & -> & [-> ->] & ->). destruct e as [| | |[k|]| |]; try done. intros [= <-]. exists zs. by split_and!.
  - destruct H as (Hs & -> & [-> ->] & -> & Hn). destruct e as [| | |[k|]| |]; try done. intros [= <-]. exists zs. by split_and!.
  - destruct H as (z & Hs & -> & Hz & H).
    destruct H as [(-> & -> & ->)|[([-> ->] & Hr & [[Hlossy ->] | ->])|(-> & -> & Hr & ->)]];
      destruct e as [| | |[k|]|[k|]|]; try done.
    + rewrite (read_int_match k z) by done. rewrite fill_number by done. case_bool_decide; [|done].
      intros [= <-]. exists zs, z. cbn. split_and!; try done. right. left. split_and!; try done. by right.
    + intros [= <-]. exists zs, z. cbn. split_and!; try done. by left.
    + intros [= <-]. exists zs, z. cbn. split_and!; try done. right. left. split_and!; try done. by left.
    + rewrite write_int_whole by done. intros [= <-]. exists zs, z. cbn. split_and!; try done. right. by right.
    + intros [= <-]. exists zs, z. cbn. split_and!; try done. right. left. split_and!; try done. by left.
    + intros [= <-]. exists zs, z. cbn. split_and!; try done. right. by right.
  - destruct H as (Hs & -> & [-> ->] & Hn & [-> | ->]); destruct e as [| | |[k|]|[k|]|]; try done.
    + intros [= <-]. exists zs. cbn. split_and!; try done. by right.
    + intros [= <-]. exists zs. cbn. split_and!; try done. by left.
Qed.

Lemma in_order_step lossy stdin e s s' : whole lossy e → in_order lossy stdin s → step e s = Next s' → in_order lossy stdin s'.
Proof. destruct e; cbn [step]; eauto using in_order_client, in_order_thread. Qed.

Lemma in_order_start lossy stdin : in_order lossy stdin (start stdin).
Proof. exists []. cbn. split_and!; try done. constructor. Qed.

(** C38: When the calls move whole numbers and the reads of the client do not fail, in every
    interleaving the client prints every number it sent, then its successor, and an error
    for those it could not send, in the order of its input.  Unless an answer was lost, the
    two ends never wait for each other: all of the input is answered and both are closed, or
    one of them makes a step (which may be the overflow of the number it has). *)
Theorem numbers_answered lossy stdin es s :
  Forall (whole lossy) es → run es (start stdin) = Next s →
  ∃ zs pending, scans stdin (zs.*1 ++ pending) (input s) ∧ length pending ≤ 1 ∧
    printed s = talk zs ++ (if at_client s is Reads then Sent <$> pending else []) ∧
    (lossy = false →
      pending = [] ∧ at_client s = Done ∧ at_thread s = Closed ∧ scan_int (input s) = None ∨
      ∃ e, whole false e ∧ step e s ≠ Blocked ∧ step e s ≠ Next s).
Proof.
  intros He E. assert (Hi : in_order lossy stdin s).
  { eapply (run_labels_on step (whole lossy)); [|exact He|apply in_order_start|exact E]. intros. by eapply in_order_step. }
  destruct s as [inp c t u d o], Hi as (zs & H). unfold quiet in *. cbn [input at_client at_thread up down printed] in *.
  destruct c as [|n| |].
  - destruct H as (Hs & -> & [-> ->] & ->). exists zs, []. rewrite !app_nil_r. split_and!; try done; [cbn; lia|].
    intros _. right. exists Scan. unfold step, client_step. cbn. split; [done|].
    destruct (scan_int inp) as [[n r]|]; [case_bool_decide|]; by split.
  - destruct H as (Hs & -> & [-> ->] & -> & Hn). exists zs, [n]. rewrite !app_nil_r. split_and!; try done.
    intros _. right. exists (Client_write (Some 4)). split; [cbn; lia|]. by split.
  - destruct H as (z & Hs & -> & Hz & H). exists zs, [z]. split_and!; try done. intros ->. right.
    destruct H as [(-> & -> & ->)|[([-> ->] & Hr & [[Hlossy ->] | ->])|(-> & -> & Hr & ->)]]; try done.
    + exists (Thread_read (Some 4)). unfold step, thread_step. cbn [at_thread at_client up].
      rewrite (read_int_match 4 z) by done. split; [cbn; lia|]. case_bool_decide; by split.
    + exists (Thread_write (Some 4)). split; [cbn; lia|]. by split.
    + exists (Client_read (Some 4)). unfold step, client_step. cbn [at_thread at_client down].
      rewrite (read_int_match 4 (z + 1)) by done. split; [cbn; lia|]. by split.
  - destruct H as (Hs & -> & [-> ->] & Hn & Ht). exists zs, []. rewrite !app_nil_r. split_and!; try done; [cbn; lia|].
    intros _. destruct Ht as [-> | ->]; [right|by left]. exists (Thread_read (Some 4)). split; [cbn; lia|]. by split.
Qed.

(** One number, and the end of the input. *)
Definition round_trip : list event :=
  [Scan; Client_write (Some 4); Thread_read (Some 4); Thread_write (Some 4); Client_read (Some 4)].

Lemma numbers_answered_witness : ∃ s (zs : list (Z * bool)) pending,
  run (round_trip ++ [Scan; Client_write None] ++ round_trip ++ [Scan]) (start (lit "7 8 -1 x")) = Next s ∧
  scans (lit "7 8 -1 x") (zs.*1 ++ pending) (input s) ∧
  printed s = [Sent 7; Received 8; Failed; Sent (-1); Received 0].
Proof.
  destruct (run (round_trip ++ [Scan; Client_write None] ++ round_trip ++ [Scan]) (start (lit "7 8 -1 x"))) as [| |s] eqn:E;
    [by vm_compute in E..|].
  destruct (numbers_answered false (lit "7 8 -1 x")
    (round_trip ++ [Scan; Client_write None] ++ round_trip ++ [Scan]) s) as (zs & pending & H & _).
  - repeat constructor; cbn; lia.
  - exact E.
  - exists s, zs, pending. split; [done|]. split; [exact H|]. vm_compute in E. by injection E as <-.
Defined.

(** A write of which the other end reads a part first: the number is taken for two. *)
Example split_number : ∃ s,
  run [Scan; Client_write (Some 4); Thread_read (Some 1); Thread_write (Some 4); Client_read (Some 4)]
    (start (lit "256")) = Next s ∧
  printed s = [Sent 256; Received 1] ∧ up s = drop 1 (int_bytes 256).
Proof. eexists. split; [vm_compute; reflexivity|]. by split. Qed.

(** After a read that failed every number is answered by the successor of the one before. *)
Example late_answers : ∃ s,
  run ([Scan; Client_write (Some 4); Client_read None; Thread_read (Some 4); Thread_write (Some 4)] ++ round_trip)
    (start (lit "10 20")) = Next s ∧
  printed s = [Sent 10; Failed; Sent 20; Received 11].
Proof. eexists. split; [vm_compute; reflexivity|]. done. Qed.

(** An answer that could not be written: both ends wait. *)
Example answer_lost : ∃ s,
  run [Scan; Client_write (Some 4); Thread_read (Some 4); Thread_write None] (start (lit "10")) = Next s ∧
  ∀ k, step (Client_read (Some k)) s = Blocked ∧ step (Thread_read (Some k)) s = Blocked.
Proof. eexists. split; [vm_compute; reflexivity|]. done. Qed.

(** The largest number overflows in the server; a client that leaves before its answer ends
    the server with a signal. *)
Example server_ends : 
  run [Scan; Client_write (Some 4); Thread_read (Some 4)] (start (lit "2147483647")) = Undefined SignedOverflow ∧
  ∃ s, run [Scan; Client_write (Some 4); Client_read None; Scan; Thread_read (Some 4); Sigpipe] (start (lit "1")) = Next s ∧
    at_thread s = Killed.
Proof. split; [vm_compute; reflexivity|]. eexists. split; [vm_compute; reflexivity|]. done. Qed.

(** With the [close] no failure leaves a socket behind. *)
Lemma dial_closes resolves a : has_socket a = true →
  let '(connected, closed) := dial resolves true a in closed = negb connected.
Proof. by destruct a as [[] [[]|] []], resolves. Qed.
