(* ===== verification/Coroutine.v ===== *)
(** * The coroutine engine

    Model of src/sysprog/afina/include/afina/coroutine/Engine.h and
    src/coroutine/Engine.cpp.  A coroutine is the list of what it still does; [setjmp] and
    the copy of its stack save that list, [longjmp] and the copy back resume it.  The
    position on the stack is its depth below [StackBottom]. *)

From S2P Require Import Prelude.

(** ** Coroutines *)

(** What a coroutine does.  [d] is the depth of the stack at the call; a routine is named
    by the pointer [run] returned for it. *)
Inductive instr : Type :=
| Out (z : Z)
| Yield (d : nat)
| Sched (d : nat) (routine : option nat)
| Run (d : nat) (func : list instr).

(** Where a context resumes: in the routine that [run] created at depth [c], with [rest] to
    be done, or in [start]. *)
Inductive cont : Type :=
| Routine (pc : nat) (c : nat) (rest : list instr)
| Start (d0 : nat).

(** [struct context]: [Hight - Low] bytes of stack are saved, from [StackBottom] on. *)
Record context : Type := mk_context {
  Low : nat;
  Stack : option cont;
  prev : option nat;
  next : option nat;
}.

Definition new_context : context := mk_context 0 None None None.

(** The engine, the contexts by address, and what the coroutines put out. *)
Record Engine : Type := mk_Engine {
  heap : gmap nat context;
  fresh : nat;
  cur_routine : option nat;
  alive : option nat;
  idle_ctx : option nat;
  out : list Z;
}.

Definition set_heap (h : gmap nat context) (e : Engine) : Engine :=
  mk_Engine h (fresh e) (cur_routine e) (alive e) (idle_ctx e) (out e).
Definition set_cur (c : option nat) (e : Engine) : Engine :=
  mk_Engine (heap e) (fresh e) c (alive e) (idle_ctx e) (out e).
Definition set_alive (a : option nat) (e : Engine) : Engine :=
  mk_Engine (heap e) (fresh e) (cur_routine e) a (idle_ctx e) (out e).
Definition set_idle (i : option nat) (e : Engine) : Engine :=
  mk_Engine (heap e) (fresh e) (cur_routine e) (alive e) i (out e).
Definition put_out (z : Z) (e : Engine) : Engine :=
  mk_Engine (heap e) (fresh e) (cur_routine e) (alive e) (idle_ctx e) (out e ++ [z]).

(** [*p] *)
Definition deref (p : option nat) : prog Engine context := λ e,
  match p with
  | None => Undef NullDeref
  | Some p => match heap e !! p with Some c => Ret c e | None => Undef UseAfterFree end
  end.

(** An assignment to members of [*p]. *)
Definition update (p : option nat) (f : context → context) : prog Engine unit :=
  c ← deref p;
  modify (λ e, set_heap (match p with Some p => <[p := f c]> (heap e) | None => heap e end) e).

(** [new context()] *)
Definition alloc : prog Engine nat := λ e,
  Ret (fresh e) (mk_Engine (<[fresh e := new_context]> (heap e)) (fresh e + 1) (cur_routine e) (alive e) (idle_ctx e) (out e)).

(** [delete p] *)
Definition delete_ (p : option nat) : prog Engine unit :=
  _ ← deref p; modify (λ e, set_heap (match p with Some p => delete p (heap e) | None => heap e end) e).

(** ** Engine.cpp *)

(** [Store] at depth [d], with the point of the [setjmp] next to it. *)
Definition Store (ctx : option nat) (d : nat) (k : cont) : prog Engine unit :=
  update ctx (λ c, mk_context d (Some k) (prev c) (next c)).

(** [Restore]: the stack above depth [Low] is overwritten.  The test for the own frame
    compares it with [Hight] and never succeeds, so the frames of a caller at a smaller
    depth are overwritten while they run. *)
Definition Restore (ctx : option nat) (d : nat) : prog Engine cont :=
  c ← deref ctx;
  _ ← modify (λ e, set_cur (if bool_decide (ctx = idle_ctx e) then None else ctx) e);
  if d <? Low c then undef OutOfBounds else the Uninitialised (Stack c).

(** [yield]; [k] is where it returns to, and the result what runs next. *)
Definition yield (d : nat) (k : cont) : prog Engine cont :=
  e ← get;
  next_routine ← (if bool_decide (alive e ≠ None ∧ alive e = cur_routine e)
                  then next <$> deref (alive e) else mret (alive e));
  match next_routine with
  | None => mret k
  | Some n =>
      _ ← (if bool_decide (cur_routine e ≠ idle_ctx e) then Store (cur_routine e) d k else mret tt);
      Restore (Some n) d
  end.

(** [sched] *)
Definition sched (routine : option nat) (d : nat) (k : cont) : prog Engine cont :=
  match routine with
  | None => yield d k
  | Some _ =>
      e ← get;
      if bool_decide (routine ≠ cur_routine e) then
        _ ← (if bool_decide (cur_routine e ≠ None) then Store (cur_routine e) d k else mret tt);
        Restore routine d
      else mret k
  end.

(** ** Engine.h *)

(** [run], when it registers a routine. *)
Definition run (d : nat) (func : list instr) : prog Engine nat :=
  pc ← alloc;
  _ ← Store (Some pc) d (Routine pc d func);
  e ← get;
  _ ← update (Some pc) (λ c, mk_context (Low c) (Stack c) (prev c) (alive e));
  _ ← modify (set_alive (Some pc));
  _ ← (match alive e with
       | Some _ => update (alive e) (λ c, mk_context (Low c) (Stack c) (Some pc) (next c))
       | None => mret tt
       end);
  mret pc.

(** [run], when the routine has completed. *)
Definition finish (pc : nat) (d : nat) : prog Engine cont :=
  c ← deref (Some pc);
  _ ← (match prev c with
       | Some _ => update (prev c) (λ p, mk_context (Low p) (Stack p) (prev p) (next c))
       | None => mret tt
       end);
  c ← deref (Some pc);
  _ ← (match next c with
       | Some _ => update (next c) (λ n, mk_context (Low n) (Stack n) (prev c) (next n))
       | None => mret tt
       end);
  e ← get;
  _ ← (if bool_decide (alive e = cur_routine e)
       then c ← deref (alive e); modify (set_alive (next c)) else mret tt);
  _ ← modify (set_cur None);
  _ ← delete_ (Some pc);
  e ← get;
  Restore (idle_ctx e) d.

(** One turn of the running coroutine, or the end of [start]. *)
Definition turn (k : cont) : prog Engine (option cont) :=
  match k with
  | Routine pc c [] => Some <$> finish pc c
  | Routine pc c (Out z :: rest) => _ ← modify (put_out z); mret (Some (Routine pc c rest))
  | Routine pc c (Yield d :: rest) => Some <$> yield d (Routine pc c rest)
  | Routine pc c (Sched d r :: rest) => Some <$> sched r d (Routine pc c rest)
  | Routine pc c (Run d func :: rest) => _ ← run d func; mret (Some (Routine pc c rest))
  | Start d0 =>
      (* the second return of setjmp: yield, then shutdown; the control is in the same
         place when yield has returned *)
      e ← get;
      r ← yield d0 k;
      e' ← get;
      match alive e with
      | Some _ => mret (Some r)
      | None => _ ← delete_ (idle_ctx e'); mret None
      end
  end.

Fixpoint exec (fuel : nat) (k : cont) : prog Engine unit :=
  match fuel with
  | O => out_of_fuel
  | S fuel => r ← turn k; match r with Some k => exec fuel k | None => mret tt end
  end.

(** [start], called at depth [d0]. *)
Definition start (fuel : nat) (d0 : nat) (main : list instr) : prog Engine unit :=
  pc ← run d0 main;
  idle ← alloc;
  _ ← modify (set_idle (Some idle));
  _ ← Store (Some idle) d0 (Start d0);
  k ← sched (Some pc) d0 (Start d0);
  exec fuel k.

(** The engine before [start]. *)
Definition Engine_new : Engine := mk_Engine ∅ 0 None None None [].

(** ** What the engine does, without pointers *)

(** The unfinished routines, the newest first, and where each of them but the running one
    resumes, with the depth of its stack. *)
Record pool : Type := mk_pool {
  order : list nat;
  susp : gmap nat (cont * nat);
  created : nat;
  output : list Z;
}.

Inductive verdict : Type :=
| Going (cur : nat) (k : cont) (p : pool)
| Finished (o : list Z)
| Crash (u : ub).

Definition suspend (cur : nat) (k : cont) (d : nat) (p : pool) : pool :=
  mk_pool (order p) (<[cur := (k, d)]> (susp p)) (created p) (output p).

(** A routine is resumed from depth [d]. *)
Definition resume (n d : nat) (p : pool) : verdict :=
  match susp p !! n with
  | Some (k, low) =>
      if d <? low then Crash OutOfBounds
      else Going n k (mk_pool (order p) (delete n (susp p)) (created p) (output p))
  | None => Crash UseAfterFree
  end.

(** The newest other routine gets the control. *)
Definition spec_yield (cur : nat) (k : cont) (d : nat) (p : pool) : verdict :=
  match filter (λ n, n ≠ cur) (take 2 (order p)) with
  | [] => Going cur k p
  | n :: _ => resume n d (suspend cur k d p)
  end.

(** One turn of routine [cur]; the idle context has address 1, and depth [d0]. *)
Definition spec_turn (d0 cur : nat) (k : cont) (p : pool) : verdict :=
  match k with
  | Start _ => Crash NullDeref
  | Routine pc c [] =>
      if c <? d0 then Crash OutOfBounds
      else if decide (order p = [cur]) then Finished (output p) else Crash NullDeref
  | Routine pc c (Out z :: rest) => Going cur (Routine pc c rest) (mk_pool (order p) (susp p) (created p) (output p ++ [z]))
  | Routine pc c (Yield d :: rest) => spec_yield cur (Routine pc c rest) d p
  | Routine pc c (Sched d None :: rest) => spec_yield cur (Routine pc c rest) d p
  | Routine pc c (Sched d (Some r) :: rest) =>
      if decide (r = cur) then Going cur (Routine pc c rest) p
      else if decide (r = 1) then if d <? d0 then Crash OutOfBounds else Crash NullDeref
      else resume r d (suspend cur (Routine pc c rest) d p)
  | Routine pc c (Run d func :: rest) =>
      Going cur (Routine pc c rest)
        (mk_pool (created p :: order p) (<[created p := (Routine (created p) d func, d)]> (susp p))
           (created p + 1) (output p))
  end.

Fixpoint spec_exec (fuel d0 cur : nat) (k : cont) (p : pool) : option verdict :=
  match fuel with
  | O => None
  | S fuel =>
      match spec_turn d0 cur k p with
      | Going cur k p => spec_exec fuel d0 cur k p
      | v => Some v
      end
  end.

(** ** The list of the contexts *)

(** The contexts in [h] are linked in the order of the list. *)
Definition linked (h : gmap nat context) (l : list nat) : Prop :=
  ∀ l1 x l2, l = l1 ++ x :: l2 → ∃ c, h !! x = Some c ∧ prev c = last l1 ∧ next c = head l2.

Lemma linked_lookup h l x : linked h l → x ∈ l → is_Some (h !! x).
Proof. intros H (l1 & l2 & E)%list_elem_of_split. destruct (H l1 x l2 E) as (c & -> & _). eauto. Qed.

(** Changes that keep the links. *)
Lemma linked_update h l x c c' :
  linked h l → h !! x = Some c → prev c' = prev c → next c' = next c → linked (<[x := c']> h) l.
Proof.
  intros H Hx Hp Hn l1 y l2 E. destruct (H l1 y l2 E) as (cy & Hy & Py & Ny).
  destruct (decide (y = x)) as [->|Hne].
  - exists c'. rewrite lookup_insert_eq. simplify_eq. split_and!; [done|congruence|congruence].
  - exists cy. by rewrite lookup_insert_ne.
Qed.

Lemma linked_other h l x c : linked h l → x ∉ l → linked (<[x := c]> h) l.
Proof.
  intros H Hx l1 y l2 E. destruct (H l1 y l2 E) as (cy & Hy & Py & Ny). exists cy.
  rewrite lookup_insert_ne; [done|]. intros ->. apply Hx. rewrite E. set_solver.
Qed.

Lemma linked_delete h l x : linked h l → x ∉ l → linked (delete x h) l.
Proof.
  intros H Hx l1 y l2 E. destruct (H l1 y l2 E) as (cy & Hy & Py & Ny). exists cy.
  rewrite lookup_delete_ne; [done|]. intros ->. apply Hx. rewrite E. set_solver.
Qed.

(** A new head. *)
Lemma linked_cons h l x c :
  linked h l → x ∉ l → prev c = None → next c = head l → NoDup l →
  ∀ h', h' !! x = Some c →
  (∀ y, y ≠ x → h' !! y = if bool_decide (Some y = head l) then (λ c, mk_context (Low c) (Stack c) (Some x) (next c)) <$> h !! y else h !! y) →
  linked h' (x :: l).
Proof.
  intros H Hx Hp Hn Hnd h' Hx' Hy' l1 y l2 E. destruct l1 as [|x' l1]; injection E as <- E.
  - subst l2. exists c. by rewrite Hx'.
  - destruct (H l1 y l2 E) as (cy & Hy & Py & Ny).
    assert (y ≠ x) as Hne by (intros ->; apply Hx; rewrite E; set_solver).
    rewrite Hy', Hy by done. destruct l1 as [|z l1].
    + rewrite bool_decide_eq_true_2 by (by rewrite E). eexists. split; [done|]. by cbn.
    + rewrite bool_decide_eq_false_2.
      * exists cy. split_and!; [done| |done]. exact Py.
      * rewrite E. cbn. intros [= ->]. rewrite E in Hnd. cbn in Hnd. apply NoDup_cons in Hnd as [Hnd _].
        apply Hnd. set_solver.
Qed.

(** ** The engine and the pool *)

Record rel (d0 : nat) (e : Engine) (cur : nat) (p : pool) : Prop := {
  r_cur : cur_routine e = Some cur;
  r_idle : idle_ctx e = Some 1;
  r_idle_ctx : ∃ c, heap e !! 1 = Some c ∧ Low c = d0 ∧ Stack c = Some (Start d0);
  r_alive : alive e = head (order p);
  r_linked : linked (heap e) (order p);
  r_nodup : NoDup (order p);
  r_in : cur ∈ order p;
  r_no_idle : 1 ∉ order p;
  r_heap : ∀ x, is_Some (heap e !! x) → x = 1 ∨ x ∈ order p;
  r_fresh : fresh e = created p;
  r_old : ∀ x, x ∈ order p → x < created p;
  r_two : 2 ≤ created p;
  r_susp : ∀ x, x ≠ cur → x ∈ order p →
    ∃ c k, heap e !! x = Some c ∧ Stack c = Some k ∧ susp p !! x = Some (k, Low c);
  r_susp_dom : ∀ x, is_Some (susp p !! x) → x ∈ order p ∧ x ≠ cur;
  r_routine : ∀ x k l, susp p !! x = Some (k, l) → ∃ c rest, k = Routine x c rest;
  r_out : out e = output p;
  r_count : created p = S (length (order p));
}.

Lemma deref_run p c e : heap e !! p = Some c → deref (Some p) e = Ret c e.
Proof. intros H. cbn. by rewrite H. Qed.

Lemma update_run p c f e : heap e !! p = Some c → update (Some p) f e = Ret tt (set_heap (<[p := f c]> (heap e)) e).
Proof. intros H. unfold update. by rewrite (bind_ret _ _ _ _ _ (deref_run p c e H)). Qed.

(** [Store] into the running routine. *)
Lemma Store_run d0 e cur p k d c rest :
  rel d0 e cur p → k = Routine cur c rest →
  ∃ e', Store (Some cur) d k e = Ret tt e' ∧ heap e' !! cur = heap e' !! cur ∧
    cur_routine e' = Some cur ∧ idle_ctx e' = Some 1 ∧ alive e' = alive e ∧
    (∃ cx, heap e !! cur = Some cx ∧ e' = set_heap (<[cur := mk_context d (Some k) (prev cx) (next cx)]> (heap e)) e).
Proof.
  intros H ->. destruct (linked_lookup _ _ _ (r_linked _ _ _ _ H) (r_in _ _ _ _ H)) as [cx Hcx].
  eexists. split; [unfold Store; by apply update_run|]. destruct H. split_and!; try done. by exists cx.
Qed.

(** Another routine takes over, from depth [d]. *)
Lemma switch_run d0 e cur p k d n c rest :
  rel d0 e cur p → k = Routine cur c rest → n ≠ cur → n ≠ 1 →
  (_ ← Store (Some cur) d k; Restore (Some n) d) e =
    match resume n d (suspend cur k d p) with
    | Going _ k' _ => Ret k' (set_cur (Some n) (match heap e !! cur with
        | Some cx => set_heap (<[cur := mk_context d (Some k) (prev cx) (next cx)]> (heap e)) e | None => e end))
    | Crash u => Undef u
    | Finished _ => NoFuel
    end.
Proof.
  intros H -> Hn H1. destruct (linked_lookup _ _ _ (r_linked _ _ _ _ H) (r_in _ _ _ _ H)) as [cx Hcx].
  unfold Store. rewrite (bind_ret _ _ _ _ _ (update_run _ _ _ _ Hcx)). rewrite Hcx.
  set (e1 := set_heap _ e). unfold Restore, resume. cbn [susp suspend]. rewrite lookup_insert_ne by done.
  destruct (decide (n ∈ order p)) as [Hin|Hin].
  - destruct (r_susp _ _ _ _ H n Hn Hin) as (cn & kn & Hcn & Hst & Hsu). rewrite Hsu.
    assert (heap e1 !! n = Some cn) as Hcn1 by (unfold e1; cbn; by rewrite lookup_insert_ne).
    rewrite (bind_ret _ _ _ _ _ (deref_run n cn e1 Hcn1)). unfold modify. unfold mbind, prog_bind.
    assert (idle_ctx e1 = Some 1) as Hi by apply (r_idle _ _ _ _ H).
    rewrite Hi, bool_decide_eq_false_2 by congruence.
    destruct (d <? Low cn); [done|]. by rewrite Hst.
  - assert (heap e1 !! n = None) as Hno.
    { unfold e1. cbn. rewrite lookup_insert_ne by done. apply eq_None_not_Some.
      intros [?|?]%(r_heap _ _ _ _ H); done. }
    assert (susp p !! n = None) as ->.
    { apply eq_None_not_Some. intros [? _]%(r_susp_dom _ _ _ _ H). done. }
    apply bind_undef. unfold deref. by rewrite Hno.
Qed.

Lemma switch_rel d0 e cur p k d n c rest k' p' n' :
  rel d0 e cur p → k = Routine cur c rest → n ≠ cur → n ≠ 1 →
  resume n d (suspend cur k d p) = Going n' k' p' →
  n' = n ∧ (∃ c rest, k' = Routine n c rest) ∧ rel d0 (set_cur (Some n) (match heap e !! cur with
        | Some cx => set_heap (<[cur := mk_context d (Some k) (prev cx) (next cx)]> (heap e)) e | None => e end)) n p'.
Proof.
  intros H Hk Hn H1 Hr. unfold resume in Hr. cbn [susp suspend] in Hr. rewrite lookup_insert_ne in Hr by done.
  destruct (susp p !! n) as [[kn low]|] eqn:Hsu; [|done]. destruct (d <? low); [done|]. injection Hr as <- <- <-.
  split; [done|]. split; [by eapply r_routine|].
  destruct (linked_lookup _ _ _ (r_linked _ _ _ _ H) (r_in _ _ _ _ H)) as [cx Hcx]. rewrite Hcx.
  destruct (r_susp_dom _ _ _ _ H n ltac:(by rewrite Hsu)) as [Hin _].
  destruct H. split; cbn [cur_routine idle_ctx alive heap fresh out set_cur set_heap order susp created output suspend]; try done.
  - destruct r_idle_ctx0 as (c1 & Hc1 & HL & HS). exists c1. rewrite lookup_insert_ne by (intros ->; done). done.
  - by eapply linked_update.
  - intros x. destruct (decide (x = cur)) as [->|Hx]; [by right|]. rewrite lookup_insert_ne by done. apply r_heap0.
  - intros x Hxn Hx. rewrite lookup_delete_ne by done. destruct (decide (x = cur)) as [->|Hxc].
    + rewrite !lookup_insert_eq. by do 2 eexists.
    + rewrite !lookup_insert_ne by done. by apply r_susp0.
  - intros x. destruct (decide (x = n)) as [->|Hxn]; [rewrite lookup_delete_eq; by intros []|].
    rewrite lookup_delete_ne by done. destruct (decide (x = cur)) as [->|Hxc]; [done|].
    rewrite lookup_insert_ne by done. intros [? _]%r_susp_dom0. done.
  - intros x k0 l. destruct (decide (x = n)) as [->|Hxn]; [by rewrite lookup_delete_eq|].
    rewrite lookup_delete_ne by done. destruct (decide (x = cur)) as [->|Hxc].
    + rewrite lookup_insert_eq. intros [= <- <-]. rewrite Hk. eauto.
    + rewrite lookup_insert_ne by done. apply r_routine0.
Qed.

(** ** The operations *)

Lemma cur_not_idle d0 e cur p : rel d0 e cur p → cur ≠ 1.
Proof. intros H ->. by apply (r_no_idle _ _ _ _ H), (r_in _ _ _ _ H). Qed.

(** The verdict of the pool is what the engine does. *)
Definition simulates (d0 : nat) (r : res Engine cont) (v : verdict) : Prop :=
  match v with
  | Going n k p => ∃ e, r = Ret k e ∧ rel d0 e n p ∧ ∃ c rest, k = Routine n c rest
  | Crash u => r = Undef u
  | Finished _ => False
  end.

Lemma switch_simulates d0 e cur p k d n c rest :
  rel d0 e cur p → k = Routine cur c rest → n ≠ cur → n ≠ 1 →
  simulates d0 ((_ ← Store (Some cur) d k; Restore (Some n) d) e) (resume n d (suspend cur k d p)).
Proof.
  intros H Hk Hn H1. rewrite (switch_run d0 e cur p k d n c rest H Hk Hn H1).
  destruct (resume n d (suspend cur k d p)) as [n' k' p'|o|u] eqn:Er; cbn.
  - destruct (switch_rel _ _ _ _ _ _ _ _ _ _ _ _ H Hk Hn H1 Er) as (-> & Hf & Hrel). by eexists.
  - unfold resume in Er. by repeat case_match.
  - done.
Qed.

Lemma yield_simulates d0 e cur p k d c rest :
  rel d0 e cur p → k = Routine cur c rest → simulates d0 (yield d k e) (spec_yield cur k d p).
Proof.
  intros H Hk. pose proof (cur_not_idle _ _ _ _ H) as Hidle. unfold yield, spec_yield.
  rewrite (bind_ret get _ e e e) by done.
  assert ((if bool_decide (alive e ≠ None ∧ alive e = cur_routine e) then next <$> deref (alive e) else mret (alive e)) e
    = Ret (head (filter (λ n, n ≠ cur) (take 2 (order p)))) e) as En.
  { rewrite (r_alive _ _ _ _ H), (r_cur _ _ _ _ H). pose proof (r_nodup _ _ _ _ H) as Hnd.
    pose proof (r_in _ _ _ _ H) as Hin. pose proof (r_linked _ _ _ _ H) as Hl.
    destruct (order p) as [|a l] eqn:Eo; [by apply not_elem_of_nil in Hin|]. cbn [head take].
    apply NoDup_cons in Hnd as [Ha _]. rewrite filter_cons. destruct (decide (a = cur)) as [->|Hne].
    - rewrite bool_decide_eq_true_2 by done. rewrite decide_False by naive_solver.
      destruct (Hl [] cur l eq_refl) as (cc & Hcc & _ & Hn). unfold fmap, prog_fmap.
      rewrite (bind_ret _ _ _ _ _ (deref_run _ _ _ Hcc)). rewrite Hn. destruct l as [|b l]; [done|].
      cbn [take]. rewrite filter_cons. rewrite decide_True by (intros ->; apply Ha; by left). done.
    - rewrite bool_decide_eq_false_2 by (intros [_ [=]]; done). by rewrite decide_True. }
  rewrite (bind_ret _ _ _ _ _ En).
  destruct (filter (λ n, n ≠ cur) (take 2 (order p))) as [|n l] eqn:Ef.
  - cbn. exists e. split; [done|]. split; [done|]. by exists c, rest.
  - assert (n ≠ cur ∧ n ∈ order p) as [Hn Hin].
    { assert (n ∈ filter (λ n, n ≠ cur) (take 2 (order p))) as Hf by (rewrite Ef; by left).
      apply list_elem_of_filter in Hf as [Hn Hf]. split; [done|]. rewrite <-(take_drop 2 (order p)).
      apply elem_of_app. by left. }
    cbn [head]. rewrite (r_cur _ _ _ _ H), (r_idle _ _ _ _ H).
    rewrite (bool_decide_eq_true_2 (Some cur ≠ Some 1)) by congruence.
    eapply switch_simulates; [done|done|done|]. intros ->. by apply (r_no_idle _ _ _ _ H).
Qed.

Lemma run_simulates d0 e cur p d func :
  rel d0 e cur p →
  ∃ e', run d func e = Ret (created p) e' ∧
    rel d0 e' cur (mk_pool (created p :: order p) (<[created p := (Routine (created p) d func, d)]> (susp p))
      (created p + 1) (output p)).
Proof.
  intros H. pose proof (r_fresh _ _ _ _ H) as Hf. set (n := created p) in *.
  assert (n ∉ order p) as Hn by (intros Hin; pose proof (r_old _ _ _ _ H n Hin); unfold n in *; lia).
  assert (n ≠ 1) as Hn1 by (pose proof (r_two _ _ _ _ H); unfold n; lia).
  assert (n ≠ cur) as Hnc by (intros ->; by apply Hn, (r_in _ _ _ _ H)).
  unfold run. set (e1 := mk_Engine (<[n := new_context]> (heap e)) (n + 1) (cur_routine e) (alive e) (idle_ctx e) (out e)).
  assert (alloc e = Ret n e1) as E1 by (unfold alloc; by rewrite Hf).
  rewrite (bind_ret _ _ _ _ _ E1).
  assert (heap e1 !! n = Some new_context) as L1 by apply lookup_insert_eq.
  unfold Store. rewrite (bind_ret _ _ _ _ _ (update_run _ _ _ _ L1)). cbn [prev next new_context].
  set (c2 := mk_context d (Some (Routine n d func)) None None). set (e2 := set_heap (<[n:=c2]> (heap e1)) e1).
  rewrite (bind_ret get _ e2 e2 e2) by done.
  assert (heap e2 !! n = Some c2) as L2 by apply lookup_insert_eq.
  rewrite (bind_ret _ _ _ _ _ (update_run _ _ _ _ L2)). cbn [Low Stack prev c2].
  set (c3 := mk_context d (Some (Routine n d func)) None (alive e2)).
  set (e3 := set_alive (Some n) (set_heap (<[n:=c3]> (heap e2)) e2)).
  rewrite (bind_ret (modify (set_alive (Some n))) _ _ tt e3) by done.
  assert (alive e2 = head (order p)) as Ha by apply (r_alive _ _ _ _ H). rewrite Ha.
  assert (∀ x, x ≠ n → heap e3 !! x = heap e !! x) as Hold.
  { intros x Hx. unfold e3, e2, e1. cbn. by rewrite !lookup_insert_ne. }
  assert (heap e3 !! n = Some c3) as L3 by (unfold e3; cbn; apply lookup_insert_eq).
  assert (∃ e4, (match head (order p) with
     | Some _ => update (head (order p)) (λ c, mk_context (Low c) (Stack c) (Some n) (next c))
     | None => mret tt end) e3 = Ret tt e4 ∧
     (cur_routine e4, alive e4, idle_ctx e4, fresh e4, out e4) = (cur_routine e, Some n, idle_ctx e, n + 1, out e) ∧
     heap e4 !! n = Some c3 ∧
     ∀ y, y ≠ n → heap e4 !! y = if bool_decide (Some y = head (order p))
       then (λ c, mk_context (Low c) (Stack c) (Some n) (next c)) <$> heap e !! y else heap e !! y)
    as (e4 & E4 & Hfields & L4 & Hy).
  { pose proof (r_linked _ _ _ _ H) as Hl. destruct (order p) as [|a l] eqn:Eo.
    - exists e3. split_and!; [done|done|done|]. intros y Hy. rewrite bool_decide_eq_false_2 by done. by apply Hold.
    - cbn [head]. destruct (Hl [] a l eq_refl) as (ca & Hca & _).
      assert (a ≠ n) as Han by (intros ->; apply Hn; by left).
      assert (heap e3 !! a = Some ca) as La by (by rewrite Hold).
      rewrite (update_run _ _ _ _ La). eexists. split; [done|]. split; [done|]. cbn [heap set_heap]. split.
      + by rewrite lookup_insert_ne.
      + intros y Hyn. destruct (decide (y = a)) as [->|Hya].
        * rewrite lookup_insert_eq, bool_decide_eq_true_2 by done. by rewrite Hca.
        * rewrite lookup_insert_ne, bool_decide_eq_false_2 by congruence. by apply Hold. }
  rewrite (bind_ret _ _ _ _ _ E4). exists e4. split; [done|]. injection Hfields as F1 F2 F3 F4 F5.
  assert (∀ y cy, heap e !! y = Some cy → y ≠ n → ∃ cy', heap e4 !! y = Some cy' ∧ Low cy' = Low cy ∧ Stack cy' = Stack cy) as Hkeep.
  { intros y cy Hcy Hyn. rewrite Hy, Hcy by done. case_bool_decide; eexists; split; done. }
  assert (linked (heap e4) (n :: order p)) as Hl4.
  { eapply (linked_cons (heap e)); [apply H|done|..]; [| |apply H|exact L4|exact Hy]; [done|exact Ha]. }
  destruct H. split; cbn [order susp created output]; rewrite ?F1, ?F2, ?F3, ?F4, ?F5; try done.
  - destruct r_idle_ctx0 as (c1 & Hc1 & HL & HS). destruct (Hkeep 1 c1 Hc1 ltac:(done)) as (c1' & H1 & H2 & H3).
    exists c1'. split_and!; [done|congruence|congruence].
  - by constructor.
  - by right.
  - apply not_elem_of_cons. by split.
  - intros x [cx Hx]. destruct (decide (x = n)) as [->|Hxn]; [right; by left|].
    rewrite Hy in Hx by done. destruct (r_heap0 x) as [|]; [|by left|right; by right].
    case_bool_decide; [|by eexists]. destruct (heap e !! x); [by eexists|done].
  - intros x [->|Hx]%elem_of_cons; [lia|]. pose proof (r_old0 x Hx). unfold n. lia.
  - lia.
  - intros x Hxc [->|Hx]%elem_of_cons.
    + exists c3, (Routine n d func). by rewrite lookup_insert_eq.
    + destruct (r_susp0 x Hxc Hx) as (cx & k & H1 & H2 & H3).
      assert (x ≠ n) as Hxn by (intros ->; done).
      destruct (Hkeep x cx H1 Hxn) as (cx' & G1 & G2 & G3). exists cx', k.
      rewrite lookup_insert_ne by done. split_and!; [done|congruence|by rewrite G2].
  - intros x. destruct (decide (x = n)) as [->|Hxn]; [intros _; split; [by left|done]|].
    rewrite lookup_insert_ne by done. intros [? ?]%r_susp_dom0. split; [by right|done].
  - intros x k l. destruct (decide (x = n)) as [->|Hxn].
    + rewrite lookup_insert_eq. intros [= <- <-]. eauto.
    + rewrite lookup_insert_ne by done. apply r_routine0.
  - cbn. unfold n. lia.
Qed.

(** Back in [start] with routines left, [yield] stores into the null pointer. *)
Lemma idle_crash d0 e a : cur_routine e = None → idle_ctx e = Some 1 → alive e = Some a →
  turn (Start d0) e = Undef NullDeref.
Proof.
  intros Hc Hi Ha. unfold turn. rewrite (bind_ret get _ e e e) by done. apply bind_undef.
  unfold yield. rewrite (bind_ret get _ e e e) by done.
  rewrite (bind_ret _ _ e (Some a) e).
  - rewrite Hc, Hi. rewrite bool_decide_eq_true_2 by done. by apply bind_undef.
  - rewrite Ha, Hc. by rewrite bool_decide_eq_false_2 by (intros [_ [=]]).
Qed.

Lemma restore_idle d0 e d c : heap e !! 1 = Some c → Low c = d0 → Stack c = Some (Start d0) → idle_ctx e = Some 1 →
  Restore (Some 1) d e = if d <? d0 then Undef OutOfBounds else Ret (Start d0) (set_cur None e).
Proof.
  intros Hc HL HS Hi. unfold Restore. rewrite (bind_ret _ _ _ _ _ (deref_run _ _ _ Hc)).
  unfold modify, mbind, prog_bind. rewrite Hi, bool_decide_eq_true_2 by done. rewrite HL, HS.
  by destruct (d <? d0).
Qed.

(** A routine completes. *)
Lemma finish_run d0 e cur p d : rel d0 e cur p →
  if d <? d0 then finish cur d e = Undef OutOfBounds
  else ∃ e', finish cur d e = Ret (Start d0) e' ∧ cur_routine e' = None ∧ idle_ctx e' = Some 1 ∧ out e' = out e ∧ fresh e' = fresh e ∧
    (order p = [cur] → alive e' = None ∧ heap e' = delete cur (heap e)) ∧
    (order p ≠ [cur] → is_Some (alive e')).
Proof.
  intros H. pose proof (cur_not_idle _ _ _ _ H) as Hidle.
  pose proof (r_in _ _ _ _ H) as Hin. apply list_elem_of_split in Hin as (l1 & l2 & Eo).
  pose proof (r_nodup _ _ _ _ H) as Hnd. rewrite Eo in Hnd.
  apply NoDup_app in Hnd as (Hnd1 & Hdis & Hnd2). apply NoDup_cons in Hnd2 as [Hc2 Hnd2].
  assert (cur ∉ l1) as Hc1 by (intros Hx; apply (Hdis cur Hx); by left).
  destruct (r_linked _ _ _ _ H l1 cur l2 Eo) as (c & Hc & Hp & Hn).
  destruct (r_idle_ctx _ _ _ _ H) as (ci & Hci & HL & HS).
  assert (∀ x, x ∈ l1 ∨ x ∈ l2 → x ≠ cur ∧ x ≠ 1 ∧ ∃ cx, heap e !! x = Some cx) as Hother.
  { intros x Hx. assert (x ∈ order p) as Hx' by (rewrite Eo; destruct Hx; set_solver).
    split; [intros ->; by destruct Hx|]. split; [intros ->; by apply (r_no_idle _ _ _ _ H)|].
    apply (linked_lookup _ _ _ (r_linked _ _ _ _ H) Hx'). }
  unfold finish. rewrite (bind_ret _ _ _ _ _ (deref_run _ _ _ Hc)).
  (* the predecessor *)
  assert (∃ e1, (match prev c with
     | Some _ => update (prev c) (λ p, mk_context (Low p) (Stack p) (prev p) (next c))
     | None => mret tt end) e = Ret tt e1 ∧ e1 = set_heap (heap e1) e ∧
     heap e1 !! cur = Some c ∧ heap e1 !! 1 = Some ci ∧ (∀ x, x ∈ l2 → heap e1 !! x = heap e !! x) ∧
     (l1 = [] → heap e1 = heap e)) as (e1 & E1 & F1 & G1 & G1i & G1o & G1h).
  { rewrite Hp. destruct (last l1) as [q|] eqn:El.
    - apply last_Some in El as [l1' ->]. destruct (Hother q) as (Hqc & Hq1 & cq & Hcq); [left; set_solver|].
      rewrite (update_run _ _ _ _ Hcq). eexists. split; [done|]. cbn [heap set_heap]. split_and!.
      + done.
      + by rewrite lookup_insert_ne.
      + by rewrite lookup_insert_ne.
      + intros x Hx. rewrite lookup_insert_ne; [done|]. intros <-. apply (Hdis q); set_solver.
      + by destruct l1'.
    - exists e. split_and!; try done. by destruct e. }
  rewrite (bind_ret _ _ _ _ _ E1). rewrite (bind_ret _ _ _ _ _ (deref_run _ _ _ G1)).
  assert (∃ e2, (match next c with
     | Some _ => update (next c) (λ n, mk_context (Low n) (Stack n) (prev c) (next n))
     | None => mret tt end) e1 = Ret tt e2 ∧ e2 = set_heap (heap e2) e ∧
     heap e2 !! cur = Some c ∧ heap e2 !! 1 = Some ci ∧ (l1 = [] → l2 = [] → heap e2 = heap e))
    as (e2 & E2 & F2 & G2 & G2i & G2h).
  { rewrite Hn. destruct l2 as [|q l2].
    - exists e1. split_and!; try done. intros Hl1 _. by apply G1h.
    - cbn [head]. destruct (Hother q) as (Hqc & Hq1 & cq & Hcq); [right; by left|].
      assert (heap e1 !! q = Some cq) as Hcq1 by (rewrite G1o; [done|by left]).
      rewrite (update_run _ _ _ _ Hcq1). eexists. split; [done|]. cbn [heap set_heap]. split_and!.
      + by rewrite F1.
      + by rewrite lookup_insert_ne.
      + by rewrite lookup_insert_ne.
      + done. }
  rewrite (bind_ret _ _ _ _ _ E2). rewrite (bind_ret get _ e2 e2 e2) by done.
  assert (alive e2 = head (order p) ∧ cur_routine e2 = Some cur ∧ idle_ctx e2 = Some 1 ∧ out e2 = out e ∧ fresh e2 = fresh e) as (A2 & C2 & I2 & O2 & Fr2).
  { rewrite F2. cbn. destruct H. done. }
  assert (∃ e3, (if bool_decide (alive e2 = cur_routine e2)
      then c ← deref (alive e2); modify (set_alive (next c)) else mret tt) e2 = Ret tt e3 ∧
      heap e3 = heap e2 ∧ idle_ctx e3 = Some 1 ∧ out e3 = out e ∧ fresh e3 = fresh e ∧ alive e3 = head (l1 ++ l2)) as (e3 & E3 & G3 & I3 & O3 & Fr3 & A3).
  { rewrite A2, C2, Eo. destruct l1 as [|a l1]; cbn [head app].
    - rewrite bool_decide_eq_true_2 by done. rewrite (bind_ret _ _ _ _ _ (deref_run _ _ _ G2)).
      eexists. split; [done|]. split_and!; done.
    - rewrite bool_decide_eq_false_2 by (intros [= ->]; apply Hc1; by left). exists e2. split_and!; try done.
      rewrite A2, Eo. done. }
  rewrite (bind_ret _ _ _ _ _ E3). set (e4 := set_cur None e3). rewrite (bind_ret (modify (set_cur None)) _ e3 tt e4) by done.
  set (e5 := set_heap (delete cur (heap e4)) e4).
  assert (delete_ (Some cur) e4 = Ret tt e5) as E5.
  { unfold delete_. assert (heap e4 !! cur = Some c) as G4 by (unfold e4; cbn; by rewrite G3).
    by rewrite (bind_ret _ _ _ _ _ (deref_run _ _ _ G4)). }
  rewrite (bind_ret _ _ _ _ _ E5). rewrite (bind_ret get _ e5 e5 e5) by done.
  assert (idle_ctx e5 = Some 1) as I5 by done. rewrite I5.
  assert (heap e5 !! 1 = Some ci) as G5 by (unfold e5, e4; cbn; by rewrite lookup_delete_ne, G3).
  rewrite (restore_idle d0 e5 d ci G5 HL HS I5). destruct (d <? d0); [done|].
  eexists. split; [done|]. cbn [cur_routine idle_ctx out alive heap fresh set_cur set_heap e5 e4]. split_and!; [done|done|done|done| |].
  - intros E. rewrite E in Eo. destruct l1 as [|? l1]; [|by destruct l1]. injection Eo as <-.
    rewrite A3, G3. split; [done|]. by rewrite G2h.
  - intros E. rewrite A3. destruct l1 as [|a l1]; [|by eexists]. destruct l2 as [|b l2]; [|by eexists]. done.
Qed.

(** ** Refinement *)

Lemma turn_simulates d0 e cur p k c rest : rel d0 e cur p → k = Routine cur c rest →
  match spec_turn d0 cur k p with
  | Going n k' p' => ∃ e', turn k e = Ret (Some k') e' ∧ rel d0 e' n p' ∧ ∃ c rest, k' = Routine n c rest
  | Finished o => ∃ e1 e2, turn k e = Ret (Some (Start d0)) e1 ∧ turn (Start d0) e1 = Ret None e2 ∧
      out e2 = o ∧ heap e2 = ∅ ∧ fresh e2 = 2
  | Crash u => turn k e = Undef u ∨ ∃ e1, turn k e = Ret (Some (Start d0)) e1 ∧ turn (Start d0) e1 = Undef u
  end.
Proof.
  intros H ->. pose proof (cur_not_idle _ _ _ _ H) as Hidle.
  assert (∀ (m : prog Engine cont) v, simulates d0 (m e) v → match v with
    | Going n k' p' => ∃ e', ((Some <$> m) : prog Engine (option cont)) e = Ret (Some k') e' ∧ rel d0 e' n p' ∧ ∃ c rest, k' = Routine n c rest
    | Finished o => False
    | Crash u => ((Some <$> m) : prog Engine (option cont)) e = Undef u end) as Hsim.
  { intros m v Hv. unfold fmap, prog_fmap. destruct v as [n k' p'|o|u]; cbn in Hv; [|done|by apply bind_undef].
    destruct Hv as (e' & E & Hv). exists e'. by rewrite (bind_ret _ _ _ _ _ E). }
  destruct rest as [|[z|d|d [r|]|d func] rest]; cbn [spec_turn turn].
  - pose proof (finish_run d0 e cur p c H) as Hf. destruct (c <? d0).
    { left. by apply bind_undef. }
    destruct Hf as (e1 & E1 & C1 & I1 & O1 & F1 & Hone & Hmore).
    assert (((Some <$> finish cur c) : prog Engine (option cont)) e = Ret (Some (Start d0)) e1) as E1'
      by (unfold fmap, prog_fmap; by rewrite (bind_ret _ _ _ _ _ E1)).
    destruct (decide (order p = [cur])) as [Ho|Ho].
    + destruct (Hone Ho) as [A1 G1]. destruct (r_idle_ctx _ _ _ _ H) as (ci & Hci & _).
      exists e1. eexists. split; [done|].
      assert (yield d0 (Start d0) e1 = Ret (Start d0) e1) as Ey.
      { unfold yield. rewrite (bind_ret get _ e1 e1 e1) by done.
        rewrite (bind_ret _ _ e1 None e1); [done|]. rewrite A1. by rewrite bool_decide_eq_false_2 by naive_solver. }
      assert (heap e1 !! 1 = Some ci) as G1i by (by rewrite G1, lookup_delete_ne).
      cbn [turn]. rewrite (bind_ret get _ e1 e1 e1) by done. rewrite (bind_ret _ _ _ _ _ Ey).
      rewrite (bind_ret get _ e1 e1 e1) by done. rewrite A1, I1. unfold delete_. rewrite prog_assoc.
      rewrite (bind_ret _ _ _ _ _ (deref_run _ _ _ G1i)). split; [reflexivity|].
      cbn [out heap fresh set_heap]. rewrite O1, F1, G1. split; [apply (r_out _ _ _ _ H)|]. split.
      * apply map_empty. intros x. destruct (decide (x = 1)) as [->|H1]; [apply lookup_delete_eq|].
        rewrite lookup_delete_ne by done. destruct (decide (x = cur)) as [->|Hc]; [apply lookup_delete_eq|].
        rewrite lookup_delete_ne by done. apply eq_None_not_Some. intros [?|Hx]%(r_heap _ _ _ _ H); [done|].
        rewrite Ho in Hx. set_solver.
      * rewrite (r_fresh _ _ _ _ H), (r_count _ _ _ _ H), Ho. done.
    + right. exists e1. split; [done|]. destruct (Hmore Ho) as [a A1]. by apply (idle_crash d0 e1 a).
  - exists (put_out z e). split; [done|]. split; [|eauto]. destruct H. split; try done. cbn. by rewrite r_out0.
  - pose proof (Hsim _ _ (yield_simulates d0 e cur p (Routine cur c rest) d c rest H eq_refl)) as Hy.
    destruct (spec_yield _ _ _ _); [done|done|by left].
  - cbn [sched]. destruct (decide (r = cur)) as [->|Hr].
    { exists e. split; [|eauto]. unfold fmap, prog_fmap. rewrite (bind_ret _ _ e (Routine cur c rest) e); [done|].
      rewrite (bind_ret get _ e e e) by done. rewrite (r_cur _ _ _ _ H). by rewrite bool_decide_eq_false_2 by naive_solver. }
    assert (sched (Some r) d (Routine cur c rest) e
      = (_ ← Store (Some cur) d (Routine cur c rest); Restore (Some r) d) e) as Es.
    { cbn [sched]. rewrite (bind_ret get _ e e e) by done. rewrite (r_cur _ _ _ _ H).
      by rewrite !bool_decide_eq_true_2 by congruence. }
    destruct (decide (r = 1)) as [->|H1].
    + destruct (Store_run d0 e cur p _ d c rest H eq_refl) as (e1 & E1 & _ & C1 & I1 & A1 & (cx & Hcx & He1)).
      destruct (r_idle_ctx _ _ _ _ H) as (ci & Hci & HL & HS).
      assert (heap e1 !! 1 = Some ci) as G1 by (rewrite He1; cbn; by rewrite lookup_insert_ne).
      pose proof (restore_idle d0 e1 d ci G1 HL HS I1) as Er.
      assert (alive e ≠ None) as Ha.
      { rewrite (r_alive _ _ _ _ H). pose proof (r_in _ _ _ _ H). destruct (order p); [set_solver|done]. }
      destruct (d <? d0).
      * left. apply bind_undef. etransitivity; [exact Es|]. by rewrite (bind_ret _ _ _ _ _ E1).
      * right. exists (set_cur None e1). split.
        -- unfold fmap, prog_fmap. rewrite (bind_ret _ _ e (Start d0) (set_cur None e1)); [done|].
           etransitivity; [exact Es|]. by rewrite (bind_ret _ _ _ _ _ E1).
        -- destruct (alive e) as [a|] eqn:Ea; [|done]. apply (idle_crash d0 _ a); [done|done|]. cbn. by rewrite A1.
    + pose proof (switch_simulates d0 e cur p (Routine cur c rest) d r c rest H eq_refl Hr H1) as Hs.
      rewrite <-Es in Hs. apply Hsim in Hs. destruct (resume _ _ _); [done|done|by left].
  - pose proof (Hsim _ _ (yield_simulates d0 e cur p (Routine cur c rest) d c rest H eq_refl)) as Hy.
    cbn [sched]. destruct (spec_yield _ _ _ _); [done|done|by left].
  - destruct (run_simulates d0 e cur p d func H) as (e' & E & Hrel). exists e'.
    rewrite (bind_ret _ _ _ _ _ E). split; [done|]. split; [done|]. eauto.
Qed.

(** *** Every program comes to an end *)

Fixpoint isize (i : instr) : nat :=
  match i with Run _ func => 2 + sum_list_with isize func | _ => 1 end.
Definition ksize (k : cont) : nat :=
  match k with Routine _ _ rest => 1 + sum_list_with isize rest | Start _ => 0 end.
Definition psize (p : pool) : nat := map_fold (λ _ v n, ksize v.1 + n) 0 (susp p).

Lemma fold_insert (m : gmap nat (cont * nat)) x v : m !! x = None →
  map_fold (λ _ v n, ksize v.1 + n) 0 (<[x := v]> m) = ksize v.1 + map_fold (λ _ v n, ksize v.1 + n) 0 m.
Proof. intros Hx. rewrite map_fold_insert_L; [done| |done]. intros. lia. Qed.

Lemma fold_delete (m : gmap nat (cont * nat)) x v : m !! x = Some v →
  map_fold (λ _ v n, ksize v.1 + n) 0 m = ksize v.1 + map_fold (λ _ v n, ksize v.1 + n) 0 (delete x m).
Proof.
  intros Hx. rewrite <-(fold_insert (delete x m) x v) by apply lookup_delete_eq. by rewrite insert_delete_id.
Qed.

Lemma resume_size n d cur k p n' k' p' : susp p !! cur = None →
  resume n d (suspend cur k d p) = Going n' k' p' → ksize k' + psize p' = ksize k + psize p.
Proof.
  intros Hc. unfold resume, suspend, psize. cbn [susp]. destruct (_ !! n) as [[kn low]|] eqn:E; [|done].
  destruct (d <? low); [done|]. intros [= <- <- <-]. cbn [susp].
  pose proof (fold_delete _ _ _ E) as H1. pose proof (fold_insert (susp p) cur (k, d) Hc) as H2. cbn in H1, H2. lia.
Qed.

Lemma yield_size cur k d p n' k' p' : susp p !! cur = None →
  spec_yield cur k d p = Going n' k' p' → ksize k' + psize p' = ksize k + psize p.
Proof.
  intros Hc. unfold spec_yield. destruct (filter _ _); [by intros [= <- <- <-]|]. by apply resume_size.
Qed.

Lemma turn_size d0 e cur p c rest n' k' p' : rel d0 e cur p →
  spec_turn d0 cur (Routine cur c rest) p = Going n' k' p' →
  ksize k' + psize p' < ksize (Routine cur c rest) + psize p.
Proof.
  intros H. assert (susp p !! cur = None) as Hc.
  { apply eq_None_not_Some. intros [_ ?]%(r_susp_dom _ _ _ _ H). done. }
  destruct rest as [|[z|d|d [r|]|d func] rest]; cbn [spec_turn].
  - by repeat case_match.
  - intros [= <- <- <-]. cbn. unfold psize. cbn. lia.
  - intros E%yield_size; [|done]. cbn in *. lia.
  - destruct (decide (r = cur)); [intros [= <- <- <-]; cbn; lia|].
    destruct (decide (r = 1)); [by destruct (d <? d0)|].
    intros E%resume_size; [|done]. cbn in *. lia.
  - intros E%yield_size; [|done]. cbn in *. lia.
  - intros [= <- <- <-]. cbn [ksize sum_list_with]. unfold psize. cbn [susp]. rewrite fold_insert.
    + cbn. lia.
    + apply eq_None_not_Some. intros [Hx _]%(r_susp_dom _ _ _ _ H). pose proof (r_old _ _ _ _ H _ Hx). lia.
Qed.

(** The engine does what the pool does, and both come to an end. *)
Lemma engine_exec_refines d0 n : ∀ e cur p c rest,
  rel d0 e cur p → ksize (Routine cur c rest) + psize p ≤ n →
  ∃ v, spec_exec n d0 cur (Routine cur c rest) p = Some v ∧
    match v with
    | Finished o => ∃ e2, (∀ f, n < f → exec f (Routine cur c rest) e = Ret tt e2) ∧
        out e2 = o ∧ heap e2 = ∅ ∧ fresh e2 = 2
    | Crash u => ∀ f, n < f → exec f (Routine cur c rest) e = Undef u
    | Going _ _ _ => False
    end.
Proof.
  induction n as [|n IH]; intros e cur p c rest H Hn; [cbn in Hn; lia|].
  cbn [spec_exec]. pose proof (turn_simulates d0 e cur p _ c rest H eq_refl) as Ht.
  pose proof (turn_size d0 e cur p c rest) as Hsize.
  destruct (spec_turn d0 cur (Routine cur c rest) p) as [n' k' p'|o|u].
  - destruct Ht as (e' & E & Hrel & c' & rest' & ->). specialize (Hsize _ _ _ H eq_refl).
    destruct (IH e' n' p' c' rest' Hrel ltac:(lia)) as (v & Ev & Hv). exists v. split; [done|].
    destruct v as [|o|u]; [done| |].
    + destruct Hv as (e2 & He2 & Hrest). exists e2. split; [|done]. intros [|f] Hf; [lia|]. cbn [exec].
      rewrite (bind_ret _ _ _ _ _ E). apply He2. lia.
    + intros [|f] Hf; [lia|]. cbn [exec]. rewrite (bind_ret _ _ _ _ _ E). apply Hv. lia.
  - eexists. split; [done|]. destruct Ht as (e1 & e2 & E1 & E2 & Hrest). exists e2. split; [|done].
    intros [|[|f]] Hf; [lia|lia|]. cbn [exec]. rewrite (bind_ret _ _ _ _ _ E1). by rewrite (bind_ret _ _ _ _ _ E2).
  - eexists. split; [done|]. intros [|[|f]] Hf; [lia|lia|]. cbn [exec]. destruct Ht as [E|(e1 & E1 & E2)].
    + by apply bind_undef.
    + rewrite (bind_ret _ _ _ _ _ E1). by apply bind_undef.
Qed.

(** C19: [start] does what the pool of its coroutines does, from the main one on: it ends, with
    every context released, or it is undefined.  It ends only when no other routine was
    ever registered: the first one that completes while others are left sends [yield]
    through the null pointer. *)
Theorem engine_refines d0 main :
  let n := 1 + sum_list_with isize main in
  ∃ v, spec_exec n d0 0 (Routine 0 d0 main) (mk_pool [0] ∅ 2 []) = Some v ∧
    match v with
    | Finished o => ∃ e, (∀ fuel, n < fuel → start fuel d0 main Engine_new = Ret tt e) ∧
        out e = o ∧ heap e = ∅ ∧ fresh e = 2
    | Crash u => ∀ fuel, n < fuel → start fuel d0 main Engine_new = Undef u
    | Going _ _ _ => False
    end.
Proof.
  intros n.
  set (c0 := mk_context d0 (Some (Routine 0 d0 main)) None None).
  set (c1 := mk_context d0 (Some (Start d0)) None None).
  set (e0 := mk_Engine (<[1 := c1]> (<[0 := c0]> ∅)) 2 (Some 0) (Some 0) (Some 1) []).
  assert (∀ fuel, start fuel d0 main Engine_new = exec fuel (Routine 0 d0 main) e0) as Hstart.
  { intros fuel. unfold start.
    assert (run d0 main Engine_new = Ret 0 (mk_Engine (<[0 := c0]> ∅) 1 None (Some 0) None [])) as E1.
    { unfold run, alloc, Store, update, deref, mbind, prog_bind, modify, get, set_heap, set_alive. cbn.
      rewrite !lookup_insert_eq. cbn. rewrite !lookup_insert_eq. cbn. by rewrite !insert_insert_eq. }
    rewrite (bind_ret _ _ _ _ _ E1).
    assert (alloc (mk_Engine (<[0 := c0]> ∅) 1 None (Some 0) None []) =
      Ret 1 (mk_Engine (<[1 := new_context]> (<[0 := c0]> ∅)) 2 None (Some 0) None [])) as E2 by done.
    rewrite (bind_ret _ _ _ _ _ E2).
    set (e2 := mk_Engine (<[1 := new_context]> (<[0 := c0]> ∅)) 2 None (Some 0) (Some 1) []).
    rewrite (bind_ret (modify (set_idle (Some 1))) _ _ tt e2) by done.
    assert (heap e2 !! 1 = Some new_context) as G2 by apply lookup_insert_eq.
    unfold Store. rewrite (bind_ret _ _ _ _ _ (update_run _ _ _ _ G2)). cbn [prev next new_context].
    set (e3 := set_heap (<[1 := mk_context d0 (Some (Start d0)) None None]> (heap e2)) e2).
    assert (sched (Some 0) d0 (Start d0) e3 = Ret (Routine 0 d0 main) e0) as E3.
    { unfold sched. rewrite (bind_ret get _ e3 e3 e3) by done. cbn [cur_routine e3 set_heap e2].
      rewrite bool_decide_eq_true_2 by done. rewrite bool_decide_eq_false_2 by naive_solver.
      rewrite (bind_ret (mret tt) _ e3 tt e3) by done.
      assert (heap e3 !! 0 = Some c0) as G3 by done.
      unfold Restore. rewrite (bind_ret _ _ _ _ _ (deref_run _ _ _ G3)). unfold modify, mbind, prog_bind.
      cbn [Low c0 Stack the]. rewrite Nat.ltb_irrefl. unfold mret, prog_ret. f_equal.
    }
    by rewrite (bind_ret _ _ _ _ _ E3). }
  destruct (engine_exec_refines d0 n e0 0 (mk_pool [0] ∅ 2 []) d0 main) as (v & Ev & Hv).
  - split; cbn [order susp created output]; try done.
    + exists c1. split_and!; [apply lookup_insert_eq|done|done].
    + intros l1 x l2 E. destruct l1 as [|? l1]; [|by destruct l1]. injection E as <- <-. exists c0. done.
    + apply NoDup_singleton.
    + by left.
    + set_solver.
    + intros x Hx. destruct (decide (x = 1)) as [|H1]; [by left|]. destruct (decide (x = 0)) as [->|H0]; [right; by left|].
      unfold e0 in Hx. cbn [heap] in Hx. rewrite !lookup_insert_ne, lookup_empty in Hx by done. by destruct Hx.
    + intros x ->%list_elem_of_singleton. lia.
    + intros x Hx ->%list_elem_of_singleton. done.
    + intros x [y Hy]. by rewrite lookup_empty in Hy.
  - unfold psize. cbn [susp]. rewrite map_fold_empty. cbn. unfold n. lia.
  - exists v. split; [exact Ev|]. destruct v as [|o|u]; [done| |].
    + destruct Hv as (e & He & Hrest). exists e. split; [|done]. intros fuel Hf. rewrite Hstart. by apply He.
    + intros fuel Hf. rewrite Hstart. by apply Hv.
Qed.

(** The ping-pong of the test: it ends in the null pointer, before "END". *)
Example printer_crashes :
  let ping := λ a b : Z, [Out a; Sched 7 (Some 3); Out b; Sched 7 (Some 3)] in
  let pong := λ a b : Z, [Out a; Sched 7 (Some 2); Out b] in
  start 40 5 [Run 7 (ping 11 12)%Z; Run 7 (pong 21 22)%Z; Sched 7 (Some 2); Out 99%Z] Engine_new = Undef NullDeref.
Proof. reflexivity. Qed.

(** A routine that suspended itself deeper on the stack than the caller that resumes it. *)
Example deep_crashes :
  start 40 5 [Run 6 [Sched 9 (Some 0)]; Sched 7 (Some 2); Sched 7 (Some 2)] Engine_new = Undef OutOfBounds.
Proof. reflexivity. Qed.
