(* ===== verification/ContextSwap.v ===== *)
(** * Contexts that swap

    Model of src/sysprog/1/example_swap.c: [main] and two coroutines on stacks of their
    own, that pass control with swapcontext and through uc_link, with the three ways to
    allocate a stack. *)

From S2P Require Import Prelude.

(** [uctx_main], [uctx_func1], [uctx_func2] *)
Inductive ctx : Type := uctx_main | uctx_func1 | uctx_func2.

(** The next statement of [main], and of [my_coroutine(id)]. *)
Inductive loc : Type := Main (pc : nat) | Coroutine (id : nat) (pc : nat).

(** A [ucontext_t]: where it goes on, when that is set, and [uc_link]. *)
Record ucontext : Type := mk_ucontext { resume : option loc; uc_link : option ctx }.

(** The three contexts and the output. *)
Record world : Type := mk_world { c_main : ucontext; c_func1 : ucontext; c_func2 : ucontext; out : list bytes }.

Definition get_ctx (c : ctx) (w : world) : ucontext :=
  match c with uctx_main => c_main w | uctx_func1 => c_func1 w | uctx_func2 => c_func2 w end.
Definition set_ctx (c : ctx) (u : ucontext) (w : world) : world :=
  match c with
  | uctx_main => mk_world u (c_func1 w) (c_func2 w) (out w)
  | uctx_func1 => mk_world (c_main w) u (c_func2 w) (out w)
  | uctx_func2 => mk_world (c_main w) (c_func1 w) u (out w)
  end.
Definition print (s : bytes) (w : world) : world :=
  mk_world (c_main w) (c_func1 w) (c_func2 w) (out w ++ [s]).

(** How the process goes on after a statement, or how it ends: [main] returns, the only
    thread exits because a context without [uc_link] has returned, or [handle_error]. *)
Inductive next : Type := At (l : loc) | Returned | ThreadExit | Failed (who : bytes) | Undefined_ (u : ub).

(** [setcontext] to where a context goes on. *)
Definition jump (c : ctx) (w : world) : next :=
  match resume (get_ctx c w) with Some l => At l | None => Undefined_ Uninitialised end.

(** [if (swapcontext(from, to) == -1) handle_error("swapcontext")], that goes on at [l] when
    [from] is resumed. *)
Definition swapcontext (ok : bool) (from to : ctx) (l : loc) (w : world) : next * world :=
  if ok then
    let w := set_ctx from (mk_ucontext (Some l) (uc_link (get_ctx from w))) w in (jump to w, w)
  else (Failed (lit "swapcontext"), w).

(** [makecontext(c, my_coroutine, 1, id)] *)
Definition makecontext (c : ctx) (id : nat) (link : option ctx) (w : world) : world :=
  set_ctx c (mk_ucontext (Some (Coroutine id 0)) link) w.

Definition context_of (id : nat) : ctx := if id =? 1 then uctx_func1 else uctx_func2.
Definition name_of (id : nat) : bytes := lit (if id =? 1 then "1" else "2").

(** [my_coroutine]; [ok] says whether the system call of the statement succeeds. *)
Definition my_coroutine (id pc : nat) (ok : bool) (w : world) : next * world :=
  match pc with
  | 0 => (At (Coroutine id 1), print (lit "func" ++ name_of id ++ lit ": started") w)
  | 1 => (At (Coroutine id 2), print (if id =? 1
            then lit "coroutine1: swapcontext(&uctx_func1, &uctx_func2)"
            else lit "coroutine2: swapcontext(&uctx_func2, &uctx_func1)") w)
  | 2 => if id =? 1 then swapcontext ok uctx_func1 uctx_func2 (Coroutine id 3) w
         else swapcontext ok uctx_func2 uctx_func1 (Coroutine id 3) w
  | 3 => (At (Coroutine id 4), print (lit "func" ++ name_of id ++ lit ": returning") w)
  | _ => (match uc_link (get_ctx (context_of id) w) with Some c => jump c w | None => ThreadExit end, w)
  end.

(** [main] after the stacks were allocated. *)
Definition main (argc : Z) (pc : nat) (ok : bool) (w : world) : next * world :=
  match pc with
  | 0 => if ok then (At (Main 1), w) else (Failed (lit "getcontext"), w)
  | 1 => (At (Main 2), makecontext uctx_func1 1 (Some uctx_main) w)
  | 2 => if ok then (At (Main 3), w) else (Failed (lit "getcontext"), w)
  | 3 => (At (Main 4), makecontext uctx_func2 2 (if (1 <? argc)%Z then None else Some uctx_func1) w)
  | 4 => (At (Main 5), print (lit "main: swapcontext(&uctx_main, &uctx_func2)") w)
  | 5 => swapcontext ok uctx_main uctx_func2 (Main 6) w
  | _ => (Returned, print (lit "main: exiting") w)
  end.

(** Run, with the outcomes of the system calls in order; after them they succeed. *)
Definition calls_system (l : loc) : bool :=
  match l with Main pc => (pc =? 0) || (pc =? 2) || (pc =? 5) | Coroutine _ pc => pc =? 2 end.

Fixpoint run (fuel : nat) (argc : Z) (oks : list bool) (l : loc) (w : world) : next * list bytes :=
  match fuel with
  | 0 => (At l, out w)
  | S fuel =>
      let ok := default true (head oks) in
      let oks := if calls_system l then tail oks else oks in
      match (match l with Main pc => main argc pc ok w | Coroutine id pc => my_coroutine id pc ok w end) with
      | (At l, w) => run fuel argc oks l w
      | (n, w) => (n, out w)
      end
  end.

Definition example_swap (argc : Z) (oks : list bool) : next * list bytes :=
  run 20 argc oks (Main 0) (mk_world (mk_ucontext None None) (mk_ucontext None None) (mk_ucontext None None) []).

(** ** The stacks *)

Inductive stack_type : Type := STACK_MMAP | STACK_SIG | STACK_MPROT.

(** What malloc and mmap return, and whether sigaltstack and mprotect succeed. *)
Record memory : Type := mk_memory { block : option nat; mapping : option nat; altstack_ok : bool; mprotect_ok : bool }.

Inductive pointer : Type := Address (a : nat) | NULL | MAP_FAILED.

(** A stack, whether code may be executed on it, and whether signals are handled on it. *)
Record stack : Type := mk_stack { base : pointer; executable : bool; alternate : bool }.

Definition malloc (a : memory) : pointer := match block a with Some p => Address p | None => NULL end.

Definition allocate_stack_sig (a : memory) : stack := mk_stack (malloc a) false (altstack_ok a).
Definition allocate_stack_mmap (a : memory) : stack :=
  mk_stack (match mapping a with Some p => Address p | None => MAP_FAILED end) true false.
Definition allocate_stack_mprot (a : memory) : stack := mk_stack (malloc a) (mprotect_ok a) false.

Definition allocate_stack (t : stack_type) (a : memory) : stack :=
  match t with
  | STACK_MMAP => allocate_stack_mmap a
  | STACK_SIG => allocate_stack_sig a
  | STACK_MPROT => allocate_stack_mprot a
  end.

Definition usable (s : stack) : bool := match base s with Address _ => true | _ => false end.

(** The program: makecontext writes to a stack that nobody has tested. *)
Definition program (argc : Z) (a1 a2 : memory) (oks : list bool) : next * list bytes :=
  let func1_stack := allocate_stack STACK_SIG a1 in
  let func2_stack := allocate_stack STACK_MPROT a2 in
  if usable func1_stack && usable func2_stack then example_swap argc oks
  else match oks with
       | false :: _ => (Failed (lit "getcontext"), [])
       | _ => if negb (usable func1_stack) then (Undefined_ NullDeref, [])
              else match tail oks with
                   | false :: _ => (Failed (lit "getcontext"), [])
                   | _ => (Undefined_ NullDeref, [])
                   end
       end.

(** ** What the program prints *)

Definition transcript : list bytes :=
  [lit "main: swapcontext(&uctx_main, &uctx_func2)";
   lit "func2: started"; lit "coroutine2: swapcontext(&uctx_func2, &uctx_func1)";
   lit "func1: started"; lit "coroutine1: swapcontext(&uctx_func1, &uctx_func2)";
   lit "func2: returning"; lit "func1: returning"; lit "main: exiting"].

(** The output up to the system call that fails: none before the second one, then one,
    three or five lines. *)
Definition lines_before (k : nat) : nat :=
  match k with 0 | 1 => 0 | 2 => 1 | 3 => 3 | _ => 5 end.

(** The control goes from [main] to the second coroutine, the first, back, and through
    uc_link over the first to [main]; with an argument the process ends when the second
    coroutine returns, and neither the first one nor [main] comes to its end.  No context is
    entered before it was made, and a system call that fails ends the process there. *)
Theorem swap_order argc oks :
  example_swap argc oks =
  match list_find (λ ok, ok = false) (take 5 oks) with
  | Some (k, _) => (Failed (lit (if k <? 2 then "getcontext" else "swapcontext")), take (lines_before k) transcript)
  | None => if (1 <? argc)%Z then (ThreadExit, take 6 transcript) else (Returned, transcript)
  end.
Proof.
  unfold example_swap, main.
  destruct oks as [|[] [|[] [|[] [|[] [|[] oks]]]]]; lazy -[lit Z.ltb app]; destruct (1 <? argc)%Z; reflexivity.
Qed.

(** A stack that could not be allocated is used when the program gets that far; what
    sigaltstack and mprotect answer has no influence. *)
Lemma program_stacks argc a1 a2 oks :
  (block a1 ≠ None → block a2 ≠ None → program argc a1 a2 oks = example_swap argc oks) ∧
  (block a1 = None ∨ block a2 = None → Forall (λ ok, ok = true) oks →
    program argc a1 a2 oks = (Undefined_ NullDeref, [])).
Proof.
  unfold program, usable, allocate_stack, allocate_stack_sig, allocate_stack_mprot, malloc. cbn [base]. split.
  - intros H1 H2. destruct (block a1); [|congruence]. destruct (block a2); [reflexivity|congruence].
  - intros Hn Ho. assert (match oks with false :: _ => False | _ => match tail oks with false :: _ => False | _ => True end end).
    { destruct Ho as [|[] oks ? [|[] ? ? ?]]; try exact I; discriminate. }
    destruct Hn as [-> | ->]; [|destruct (block a1)]; cbn [andb negb];
      destruct oks as [|[] [|[] oks]]; first [reflexivity|contradiction].
Qed.
