(* ===== verification/Lifecycle.v ===== *)
(** * Start, Stop and Join of the four servers

    Model of the member functions of [ServerImpl] in src/sysprog/afina/src/network (one
    module per directory) that acquire and release descriptors and threads: [Start], what
    the threads of the non-blocking servers open in [OnRun] before their loops, [Stop] and
    [Join], and [Worker::Start], [Stop] and [Join].  The answers of the system calls are
    arguments.  The servers have no clients here: what becomes of connections and of the
    threads that serve them is the subject of [Servers], [MtWorkers] and [MtEpoll]. *)

From S2P Require Import Prelude.

(** What the system calls of a start and a stop answer; a failing call that returns a
    descriptor or flags returns -1. *)
Record answers : Type := mk_answers {
  sigmask_ok : bool;
  socket_fd : option nat;
  sockopt_ok : bool;
  bind_ok : bool;
  getfl : option Z;
  setfl_ok : bool;
  listen_ok : bool;
  epoll_fd : option nat;
  eventfd : option nat;
  add_ok : bool;
  strerror : string;
  write_ok : bool;
}.

(** What epoll_create1 and the two calls of epoll_ctl answer in the thread of an acceptor. *)
Record acceptor_answers : Type := mk_acceptor {
  acceptor_epoll : option nat; socket_added : bool; event_added : bool; acceptor_error : string }.

(** [class Worker]: [joinable] of its thread. *)
Record Worker : Type := mk_worker { isRunning : bool; _epoll_fd : Z; joinable : bool }.
(** [Worker::Worker] *)
Definition Worker_new : Worker := mk_worker false (-1) false.

(** The members of the classes [ServerImpl], and the process: the open descriptors, those
    that listen, and the status flags that were set.  [_thread] is [_work_thread] of
    st_nonblocking; threads are represented by [joinable]. *)
Record Server : Type := mk_server {
  opened : gset nat;
  listening : gset nat;
  status : gmap nat Z;
  running : bool;
  _server_socket : Z;
  _event_fd : Z;
  _data_epoll_fd : Z;
  _thread : bool;
  _acceptors : list bool;
  _workers : list Worker;
}.

(** A new server in a process. *)
Definition Server_new (o l : gset nat) (sock ev ep : Z) : Server :=
  mk_server o l ∅ false sock ev ep false [] [].

Definition set_opened o s := mk_server o (listening s) (status s) (running s) (_server_socket s)
  (_event_fd s) (_data_epoll_fd s) (_thread s) (_acceptors s) (_workers s).
Definition set_listening l s := mk_server (opened s) l (status s) (running s) (_server_socket s)
  (_event_fd s) (_data_epoll_fd s) (_thread s) (_acceptors s) (_workers s).
Definition set_status t s := mk_server (opened s) (listening s) t (running s) (_server_socket s)
  (_event_fd s) (_data_epoll_fd s) (_thread s) (_acceptors s) (_workers s).
Definition set_running r s := mk_server (opened s) (listening s) (status s) r (_server_socket s)
  (_event_fd s) (_data_epoll_fd s) (_thread s) (_acceptors s) (_workers s).
Definition set_server_socket fd s := mk_server (opened s) (listening s) (status s) (running s) fd
  (_event_fd s) (_data_epoll_fd s) (_thread s) (_acceptors s) (_workers s).
Definition set_event_fd fd s := mk_server (opened s) (listening s) (status s) (running s)
  (_server_socket s) fd (_data_epoll_fd s) (_thread s) (_acceptors s) (_workers s).
Definition set_data_epoll_fd fd s := mk_server (opened s) (listening s) (status s) (running s)
  (_server_socket s) (_event_fd s) fd (_thread s) (_acceptors s) (_workers s).
Definition set_thread b s := mk_server (opened s) (listening s) (status s) (running s)
  (_server_socket s) (_event_fd s) (_data_epoll_fd s) b (_acceptors s) (_workers s).
Definition set_acceptors l s := mk_server (opened s) (listening s) (status s) (running s)
  (_server_socket s) (_event_fd s) (_data_epoll_fd s) (_thread s) l (_workers s).
Definition set_workers l s := mk_server (opened s) (listening s) (status s) (running s)
  (_server_socket s) (_event_fd s) (_data_epoll_fd s) (_thread s) (_acceptors s) l.

(** ** System calls *)

(** [socket], [epoll_create1] and [eventfd] *)
Definition new_fd (r : option nat) : prog Server Z :=
  match r with
  | Some fd => modify (λ s, set_opened ({[fd]} ∪ opened s) s);; mret (Z.of_nat fd)
  | None => mret (-1)%Z
  end.

(** [close] of an open descriptor *)
Definition close (fd : Z) : prog Server unit :=
  modify (λ s, set_listening (listening s ∖ {[Z.to_nat fd]}) (set_opened (opened s ∖ {[Z.to_nat fd]}) s)).

(** [listen] *)
Definition listen (a : answers) (fd : Z) : prog Server bool :=
  if listen_ok a then modify (λ s, set_listening ({[Z.to_nat fd]} ∪ listening s) s);; mret true
  else mret false.

(** [shutdown(fd, SHUT_RDWR)] *)
Definition shutdown (fd : Z) : prog Server unit :=
  modify (λ s, set_listening (listening s ∖ {[Z.to_nat fd]}) s).

(** [O_NONBLOCK] of Linux *)
Definition O_NONBLOCK : Z := 2048.

(** [make_socket_non_blocking] *)
Definition make_socket_non_blocking (a : answers) (sfd : Z) : prog Server unit :=
  let flags := default (-1)%Z (getfl a) in
  if (flags =? -1)%Z then throw "Failed to call fcntl to get socket flags"
  else
    let flags := Z.lor flags O_NONBLOCK in
    if setfl_ok a then modify (λ s, set_status (<[Z.to_nat sfd := flags]> (status s)) s)
    else throw "Failed to call fcntl to set socket flags".

(** ** STblocking *)

Module StBlocking.

Definition Start (a : answers) : prog Server unit :=
  if negb (sigmask_ok a) then throw "Unable to mask SIGPIPE" else
  fd ← new_fd (socket_fd a);
  modify (set_server_socket fd);;
  if (fd =? -1)%Z then throw "Failed to open socket" else
  if negb (sockopt_ok a) then close fd;; throw "Socket setsockopt() failed" else
  if negb (bind_ok a) then close fd;; throw "Socket bind() failed" else
  l ← listen a fd;
  if negb l then close fd;; throw "Socket listen() failed" else
  modify (set_running true);;
  modify (set_thread true).

Definition Stop : prog Server unit :=
  modify (set_running false);;
  fd ← gets _server_socket; shutdown fd.

(** A failed assertion ends the process. *)
Definition Join : prog Server unit :=
  t ← gets _thread;
  if negb t then throw "Assertion failed" else
  modify (set_thread false);;
  fd ← gets _server_socket; close fd.

End StBlocking.

(** ** MTblocking *)

Module MtBlocking.

Definition Start (a : answers) : prog Server unit :=
  if negb (sigmask_ok a) then throw "Unable to mask SIGPIPE" else
  fd ← new_fd (socket_fd a);
  modify (set_server_socket fd);;
  if (fd =? -1)%Z then throw "Failed to open socket" else
  if negb (sockopt_ok a) then close fd;; throw "Socket setsockopt() failed" else
  if negb (bind_ok a) then close fd;; throw "Socket bind() failed" else
  l ← listen a fd;
  if negb l then close fd;; throw "Socket listen() failed" else
  modify (set_running true);;
  modify (set_thread true).

(** [Stop], without workers. *)
Definition Stop : prog Server unit :=
  modify (set_running false);;
  fd ← gets _server_socket; shutdown fd.

(** [Join], without workers. *)
Definition Join : prog Server unit :=
  t ← gets _thread;
  if negb t then throw "Assertion failed" else
  modify (set_thread false);;
  fd ← gets _server_socket; close fd.

End MtBlocking.

(** ** STnonblock *)

Module StNonblock.

Definition Start (a : answers) : prog Server unit :=
  if negb (sigmask_ok a) then throw "Unable to mask SIGPIPE" else
  fd ← new_fd (socket_fd a);
  modify (set_server_socket fd);;
  if (fd =? -1)%Z then throw ("Failed to open socket: " +:+ strerror a) else
  if negb (sockopt_ok a) then close fd;; throw ("Socket setsockopt() failed: " +:+ strerror a) else
  if negb (bind_ok a) then close fd;; throw ("Socket bind() failed: " +:+ strerror a) else
  make_socket_non_blocking a fd;;
  l ← listen a fd;
  if negb l then close fd;; throw ("Socket listen() failed: " +:+ strerror a) else
  efd ← new_fd (eventfd a);
  modify (set_event_fd efd);;
  if (efd =? -1)%Z then throw ("Failed to create epoll file descriptor: " +:+ strerror a) else
  modify (set_thread true).

(** The beginning of [ServerImpl::OnRun] in [_work_thread], up to the loop; an exception leaves
    the function of the thread and with it ends the process. *)
Definition OnRun_start (a : acceptor_answers) : prog Server Z :=
  ep ← new_fd (acceptor_epoll a);
  if (ep =? -1)%Z then throw ("Failed to create epoll file descriptor: " +:+ acceptor_error a) else
  if negb (socket_added a) then throw "Failed to add file descriptor to epoll" else
  if negb (event_added a) then throw "Failed to add file descriptor to epoll" else mret ep.

(** [Stop], without connections. *)
Definition Stop (a : answers) : prog Server unit :=
  if negb (write_ok a) then throw "Failed to wakeup workers" else mret tt.

(** [join] of a thread that cannot be joined throws. *)
Definition Join : prog Server unit :=
  t ← gets _thread;
  if negb t then throw "Invalid argument" else modify (set_thread false).

End StNonblock.

(** ** MTnonblock *)

Module MtNonblock.

(** [Worker::Start] *)
Definition Worker_Start (epoll_fd : Z) (w : Worker) : option Worker :=
  if isRunning w then Some w
  else if (_epoll_fd w =? -1)%Z then Some (mk_worker true epoll_fd true) else None.

(** [Worker::Stop] *)
Definition Worker_Stop (w : Worker) : Worker := mk_worker false (_epoll_fd w) (joinable w).

(** [Worker::Join] *)
Definition Worker_Join (w : Worker) : option Worker :=
  if joinable w then Some (mk_worker (isRunning w) (_epoll_fd w) false) else None.

(** [Worker::operator=] of a moved worker: the one it is assigned to, which keeps its
    [isRunning], and what is left of the other. *)
Definition Worker_move (w other : Worker) : Worker * Worker :=
  (mk_worker (isRunning w) (_epoll_fd other) (joinable other), mk_worker (isRunning other) (-1) false).

(** The loop that starts the workers. *)
Fixpoint start_workers (n : nat) (epoll_fd : Z) : prog Server unit :=
  match n with
  | O => mret tt
  | S n =>
      match Worker_Start epoll_fd Worker_new with
      | None => throw "Assertion failed"
      | Some w => modify (λ s, set_workers (_workers s ++ [w]) s);; start_workers n epoll_fd
      end
  end.

Definition Start (n_acceptors n_workers : nat) (a : answers) : prog Server unit :=
  if negb (sigmask_ok a) then throw "Unable to mask SIGPIPE" else
  fd ← new_fd (socket_fd a);
  modify (set_server_socket fd);;
  if (fd =? -1)%Z then throw ("Failed to open socket: " +:+ strerror a) else
  if negb (sockopt_ok a) then close fd;; throw ("Socket setsockopt() failed: " +:+ strerror a) else
  if negb (bind_ok a) then close fd;; throw ("Socket bind() failed: " +:+ strerror a) else
  make_socket_non_blocking a fd;;
  l ← listen a fd;
  if negb l then close fd;; throw ("Socket listen() failed: " +:+ strerror a) else
  ep ← new_fd (epoll_fd a);
  modify (set_data_epoll_fd ep);;
  if (ep =? -1)%Z then throw ("Failed to create epoll file descriptor: " +:+ strerror a) else
  efd ← new_fd (eventfd a);
  modify (set_event_fd efd);;
  if (efd =? -1)%Z then throw ("Failed to create epoll file descriptor: " +:+ strerror a) else
  if negb (add_ok a) then throw "Failed to add eventfd descriptor to epoll" else
  start_workers n_workers ep;;
  modify (λ s, set_acceptors (_acceptors s ++ replicate n_acceptors true) s).

(** The beginning of [ServerImpl::OnRun], up to the loop; an exception leaves the thread and
    with it the process. *)
Definition OnRun_start (a : acceptor_answers) : prog Server Z :=
  ep ← new_fd (acceptor_epoll a);
  if (ep =? -1)%Z then throw ("Failed to create epoll file descriptor: " +:+ acceptor_error a) else
  if negb (socket_added a) then throw "Failed to add file descriptor to epoll" else
  if negb (event_added a) then throw "Failed to add file descriptor to epoll" else mret ep.

(** The acceptors one after the other. *)
Fixpoint acceptors_start (l : list acceptor_answers) : prog Server (list Z) :=
  match l with
  | [] => mret []
  | a :: l => ep ← OnRun_start a; eps ← acceptors_start l; mret (ep :: eps)
  end.

(** [Stop], without connections. *)
Definition Stop (a : answers) : prog Server unit :=
  modify (λ s, set_workers (Worker_Stop <$> _workers s) s);;
  if negb (write_ok a) then throw "Failed to wakeup workers" else mret tt.

Fixpoint join_acceptors (l : list bool) : prog Server (list bool) :=
  match l with
  | [] => mret []
  | t :: l => if negb t then throw "Invalid argument" else l ← join_acceptors l; mret (false :: l)
  end.

Definition Join : prog Server unit :=
  l ← gets _acceptors;
  l ← join_acceptors l;
  modify (set_acceptors l);;
  ws ← gets _workers;
  match mapM Worker_Join ws with
  | None => throw "Assertion failed"
  | Some ws => modify (set_workers ws)
  end.

End MtNonblock.
(** ** What a start needs, and what it leaves open *)

(** Does every call of a start succeed? *)
Definition socket_ready (a : answers) : bool :=
  sigmask_ok a && bool_decide (is_Some (socket_fd a)) && sockopt_ok a && bind_ok a && listen_ok a.
Definition fcntl_ready (a : answers) : bool := negb (default (-1) (getfl a) =? -1)%Z && setfl_ok a.
Definition st_ready (a : answers) : bool :=
  socket_ready a && fcntl_ready a && bool_decide (is_Some (eventfd a)).
Definition mt_ready (a : answers) : bool :=
  socket_ready a && fcntl_ready a && bool_decide (is_Some (epoll_fd a)) &&
  bool_decide (is_Some (eventfd a)) && add_ok a.

(** The descriptors that a start of the non-blocking servers leaves open, whether it
    returns or throws: the error paths in front of [listen] but [make_socket_non_blocking]
    close the socket, the others close nothing. *)
Definition st_leak (a : answers) : gset nat :=
  if sigmask_ok a && sockopt_ok a && bind_ok a && (negb (fcntl_ready a) || listen_ok a) then
    match socket_fd a with
    | Some fd => {[fd]} ∪ (if fcntl_ready a then default ∅ (singleton <$> eventfd a) else ∅)
    | None => ∅
    end
  else ∅.
Definition mt_leak (a : answers) : gset nat :=
  if sigmask_ok a && sockopt_ok a && bind_ok a && (negb (fcntl_ready a) || listen_ok a) then
    match socket_fd a with
    | Some fd =>
        {[fd]} ∪ (if fcntl_ready a then
          match epoll_fd a with
          | Some ep => {[ep]} ∪ default ∅ (singleton <$> eventfd a)
          | None => ∅
          end else ∅)
    | None => ∅
    end
  else ∅.

(** The calls that return a descriptor return a new one. *)
Definition fresh_fds (a : answers) (s : Server) : Prop :=
  ∀ fd, socket_fd a = Some fd → fd ∉ opened s.

Lemma of_nat_fd fd : (Z.of_nat fd =? -1)%Z = false.
Proof. apply Z.eqb_neq. lia. Qed.

(** Run a straight line of system calls whose answers are known. *)
Ltac run_calls :=
  unfold new_fd, listen, close, shutdown, make_socket_non_blocking;
  unfold mbind, prog_bind, mret, prog_ret, modify, gets, throw; cbn -[union singleton difference Z.lor];
  rewrite ?of_nat_fd; cbn -[union singleton difference Z.lor]; rewrite ?Nat2Z.id.

(** The acceptors and the workers are the same. *)
Definition same_pool (s s' : Server) : Prop := _acceptors s' = _acceptors s ∧ _workers s' = _workers s.

Lemma mt_blocking_start a s : MtBlocking.Start a s = StBlocking.Start a s.
Proof. done. Qed.

Lemma st_blocking_start a s : fresh_fds a s →
  match StBlocking.Start a s with
  | Ret _ s' => socket_ready a = true ∧ ∃ fd, socket_fd a = Some fd ∧ opened s' = {[fd]} ∪ opened s ∧
      fd ∈ listening s' ∧ running s' = true ∧ _thread s' = true ∧ _server_socket s' = Z.of_nat fd ∧
      same_pool s s'
  | Throw _ s' => socket_ready a = false ∧ opened s' = opened s ∧ running s' = running s ∧
      _thread s' = _thread s ∧ same_pool s s'
  | _ => False
  end.
Proof.
  intros Hf. unfold StBlocking.Start, socket_ready.
  destruct (sigmask_ok a); cbn; [|done]. destruct (socket_fd a) as [fd|] eqn:Es; [|done]. specialize (Hf fd Es).
  destruct (sockopt_ok a); [|run_calls; split_and!; try done; set_solver].
  destruct (bind_ok a); [|run_calls; split_and!; try done; set_solver].
  destruct (listen_ok a) eqn:El; run_calls; rewrite El; cbn -[union singleton difference]; rewrite ?Nat2Z.id.
  - split; [done|]. exists fd. split_and!; try done. set_solver.
  - split_and!; try done. set_solver.
Qed.

(** Adding and removing a new descriptor. *)
Lemma close_fresh (fd : nat) (o : gset nat) : fd ∉ o → ({[fd]} ∪ o) ∖ {[fd]} = o.
Proof. set_solver. Qed.

Lemma make_nonblocking_run a fd s :
  make_socket_non_blocking a fd s =
    if fcntl_ready a
    then Ret tt (set_status (<[Z.to_nat fd := Z.lor (default (-1)%Z (getfl a)) O_NONBLOCK]> (status s)) s)
    else Throw (if (default (-1)%Z (getfl a) =? -1)%Z then "Failed to call fcntl to get socket flags"
                else "Failed to call fcntl to set socket flags") s.
Proof.
  unfold make_socket_non_blocking, fcntl_ready. destruct (_ =? _)%Z; [done|]. by destruct (setfl_ok a).
Qed.

Lemma st_nonblock_start a s : fresh_fds a s →
  match StNonblock.Start a s with
  | Ret _ s' => st_ready a = true ∧ opened s' = st_leak a ∪ opened s ∧ _thread s' = true ∧ same_pool s s' ∧
      ∃ fd fl, socket_fd a = Some fd ∧ fd ∈ listening s' ∧ status s' !! fd = Some fl ∧ Z.testbit fl 11 = true
  | Throw _ s' => st_ready a = false ∧ opened s' = st_leak a ∪ opened s ∧ _thread s' = _thread s ∧ same_pool s s'
  | _ => False
  end.
Proof.
  intros Hf. unfold StNonblock.Start, st_ready, socket_ready, st_leak.
  destruct (sigmask_ok a); cbn [andb negb]; [|split_and!; [done|set_solver|done|done]].
  destruct (socket_fd a) as [fd|] eqn:Es; [|run_calls; split_and!; [done|by case_match; set_solver|done|done]]. specialize (Hf fd Es).
  pose proof (close_fresh fd (opened s) Hf) as Hc.
  destruct (sockopt_ok a); [|run_calls; rewrite Hc; split_and!; try done; set_solver].
  destruct (bind_ok a); [|run_calls; rewrite Hc; split_and!; try done; set_solver].
  unfold new_fd, mbind, prog_bind, modify, mret, prog_ret. cbn -[union singleton difference make_socket_non_blocking listen].
  rewrite of_nat_fd. cbn -[union singleton difference make_socket_non_blocking listen].
  rewrite make_nonblocking_run. destruct (fcntl_ready a); cbn -[union singleton difference listen Z.lor].
  2: { rewrite andb_false_r. split_and!; try done. set_solver. }
  unfold listen. destruct (listen_ok a); cbn -[union singleton difference Z.lor].
  2: { unfold close, mbind, prog_bind, modify. cbn -[union singleton difference Z.lor]. rewrite ?Nat2Z.id, Hc. split_and!; try done. set_solver. }
  unfold mbind, prog_bind, modify, mret, prog_ret. cbn -[union singleton difference Z.lor].
  destruct (eventfd a) as [efd|]; cbn -[union singleton difference Z.lor].
  2: { split_and!; try done. set_solver. }
  rewrite of_nat_fd. cbn -[union singleton difference Z.lor]. split; [done|]. rewrite ?Nat2Z.id. split; [set_solver|]. split; [done|]. split; [done|].
  eexists fd, _. split; [done|]. split; [set_solver|]. split; [apply lookup_insert_eq|].
  change (Z.testbit (Z.lor (default (-1)%Z (getfl a)) O_NONBLOCK) 11 = true).
  rewrite Z.lor_spec. apply orb_true_r.
Qed.

Lemma start_workers_run n ep s :
  MtNonblock.start_workers n ep s = Ret tt (set_workers (_workers s ++ replicate n (mk_worker true ep true)) s).
Proof.
  revert s. induction n as [|n IH]; intros s; cbn.
  - rewrite app_nil_r. by destruct s.
  - unfold mbind, prog_bind, modify. rewrite IH. cbn. by rewrite <-app_assoc.
Qed.

Lemma mt_nonblock_start n m a s : fresh_fds a s → _workers s = [] → _acceptors s = [] →
  match MtNonblock.Start m n a s with
  | Ret _ s' => mt_ready a = true ∧ opened s' = mt_leak a ∪ opened s ∧ _acceptors s' = replicate m true ∧
      _thread s' = _thread s ∧
      ∃ ep, epoll_fd a = Some ep ∧ _workers s' = replicate n (mk_worker true (Z.of_nat ep) true)
  | Throw _ s' => mt_ready a = false ∧ opened s' = mt_leak a ∪ opened s ∧ _acceptors s' = [] ∧ _workers s' = [] ∧
      _thread s' = _thread s
  | _ => False
  end.
Proof.
  intros Hf Hw Ha. unfold MtNonblock.Start, mt_ready, socket_ready, mt_leak.
  destruct (sigmask_ok a); cbn [andb negb]; [|split_and!; [done|set_solver|done..]].
  destruct (socket_fd a) as [fd|] eqn:Es; [|run_calls; split_and!; [done|by case_match; set_solver|done..]]. specialize (Hf fd Es).
  pose proof (close_fresh fd (opened s) Hf) as Hc.
  destruct (sockopt_ok a); [|run_calls; rewrite Hc; split_and!; try done; set_solver].
  destruct (bind_ok a); [|run_calls; rewrite Hc; split_and!; try done; set_solver].
  unfold new_fd, mbind, prog_bind, modify, mret, prog_ret. cbn -[union singleton difference make_socket_non_blocking listen].
  rewrite of_nat_fd. cbn -[union singleton difference make_socket_non_blocking listen].
  rewrite make_nonblocking_run. destruct (fcntl_ready a); cbn -[union singleton difference listen Z.lor].
  2: { rewrite andb_false_r. split_and!; try done. set_solver. }
  unfold listen. destruct (listen_ok a); cbn -[union singleton difference Z.lor].
  2: { unfold close, mbind, prog_bind, modify. cbn -[union singleton difference Z.lor]. rewrite ?Nat2Z.id, Hc. split_and!; try done. set_solver. }
  unfold mbind, prog_bind, modify, mret, prog_ret. cbn -[union singleton difference Z.lor].
  destruct (epoll_fd a) as [ep|]; cbn -[union singleton difference Z.lor].
  2: { split_and!; try done. set_solver. }
  rewrite of_nat_fd. cbn -[union singleton difference Z.lor].
  destruct (eventfd a) as [efd|]; cbn -[union singleton difference Z.lor].
  2: { split_and!; try done. set_solver. }
  rewrite of_nat_fd. cbn -[union singleton difference Z.lor].
  destruct (add_ok a); cbn -[union singleton difference Z.lor].
  2: { split_and!; try done. set_solver. }
  rewrite start_workers_run. cbn -[union singleton difference Z.lor]. rewrite Hw, Ha.
  split_and!; [done|set_solver|done|done|]. by exists ep.
Qed.

Lemma blocking_stop fd s o :
  _server_socket s = Z.of_nat fd → opened s = {[fd]} ∪ o → fd ∉ o → _thread s = true →
  ∃ s', (StBlocking.Stop;; StBlocking.Join) s = Ret tt s' ∧ opened s' = o ∧ fd ∉ listening s' ∧
    running s' = false ∧ _thread s' = false ∧ same_pool s s'.
Proof.
  intros Hs Ho Hf Ht. eexists. split.
  { unfold StBlocking.Stop, StBlocking.Join, mbind, prog_bind, modify, gets. cbn -[union singleton difference].
    rewrite Ht. cbn -[union singleton difference]. reflexivity. }
  cbn -[union singleton difference]. rewrite Hs, Ho, Nat2Z.id. split_and!; try done; set_solver.
Qed.

Lemma join_acceptors_run m s :
  MtNonblock.join_acceptors (replicate m true) s = Ret (replicate m false) s.
Proof. induction m as [|m IH]; [done|]. cbn. by rewrite (bind_ret _ _ _ _ _ IH). Qed.

Lemma join_workers n ep :
  mapM MtNonblock.Worker_Join (MtNonblock.Worker_Stop <$> replicate n (mk_worker true ep true)) =
    Some (replicate n (mk_worker false ep false)).
Proof. induction n as [|n IH]; [done|]. cbn in *. by rewrite IH. Qed.

Lemma st_nonblock_stop a s :
  _thread s = true → write_ok a = true →
  (StNonblock.Stop a;; StNonblock.Join) s = Ret tt (set_thread false s).
Proof. intros Ht Hok. unfold StNonblock.Stop, StNonblock.Join. rewrite Hok. unfold mbind, prog_bind, gets. cbn. by rewrite Ht. Qed.

Lemma mt_nonblock_stop m n ep a s :
  _acceptors s = replicate m true → _workers s = replicate n (mk_worker true ep true) → write_ok a = true →
  ∃ s', (MtNonblock.Stop a;; MtNonblock.Join) s = Ret tt s' ∧ opened s' = opened s ∧ _thread s' = _thread s ∧
    _acceptors s' = replicate m false ∧ _workers s' = replicate n (mk_worker false ep false).
Proof.
  intros Hac Hws Hok. eexists. split.
  - unfold MtNonblock.Stop, MtNonblock.Join. rewrite Hok. unfold mbind at 1, prog_bind at 1, modify at 1. cbn [negb].
    unfold mbind at 1, prog_bind at 1. cbn [mret prog_ret]. unfold mret, prog_ret.
    unfold mbind at 1, prog_bind at 1, gets at 1. cbn [set_workers _acceptors]. rewrite Hac.
    rewrite (bind_ret _ _ _ _ _ (join_acceptors_run m _)).
    unfold mbind, prog_bind, modify, gets. cbn [set_workers set_acceptors _workers]. rewrite Hws, join_workers. reflexivity.
  - done.
Qed.

(** A worker that is moved while it runs is not told so: [Start] would start it again. *)
Lemma moved_worker_stopped ep : 
  let '(w, other) := MtNonblock.Worker_move Worker_new (mk_worker true ep true) in
  isRunning w = false ∧ joinable w = true ∧ isRunning other = true ∧ joinable other = false.
Proof. done. Qed.

Lemma OnRun_start_run a s : MtNonblock.OnRun_start a s =
  match acceptor_epoll a with
  | None => Throw ("Failed to create epoll file descriptor: " +:+ acceptor_error a) s
  | Some fd =>
      if socket_added a && event_added a
      then Ret (Z.of_nat fd) (set_opened ({[fd]} ∪ opened s) s)
      else Throw "Failed to add file descriptor to epoll" (set_opened ({[fd]} ∪ opened s) s)
  end.
Proof.
  unfold MtNonblock.OnRun_start. destruct (acceptor_epoll a) as [fd|]; [|done].
  run_calls. by destruct (socket_added a), (event_added a).
Qed.

(** Do the calls of an acceptor in front of its loop succeed? *)
Definition thread_ready (r : acceptor_answers) : bool :=
  bool_decide (is_Some (acceptor_epoll r)) && socket_added r && event_added r.

(** The acceptors of a server that has started: each opens a descriptor, or ends the process.
    Neither the acceptors nor [Stop] and [Join] close them. *)
Theorem acceptors_leak l : ∀ s,
  match MtNonblock.acceptors_start l s with
  | Ret eps s' => forallb thread_ready l = true ∧
      eps = Z.of_nat <$> omap acceptor_epoll l ∧
      opened s' = list_to_set (omap acceptor_epoll l) ∪ opened s ∧ same_pool s s' ∧ _thread s' = _thread s ∧
      ∀ m n ep a, _acceptors s = replicate m true → _workers s = replicate n (mk_worker true ep true) → write_ok a = true →
        ∃ s'', (MtNonblock.Stop a;; MtNonblock.Join) s' = Ret tt s'' ∧ opened s'' = opened s' ∧ _thread s'' = _thread s' ∧
          _acceptors s'' = replicate m false ∧ _workers s'' = replicate n (mk_worker false ep false)
  | Throw _ _ => forallb thread_ready l = false
  | _ => False
  end.
Proof.
  induction l as [|a l IH]; intros s.
  - cbn -[union]. split_and!; [done|done|set_solver|done|done|]. intros m n ep a Ha Hw Hok.
    by apply mt_nonblock_stop.
  - cbn [MtNonblock.acceptors_start omap list_omap forallb]. pose proof (OnRun_start_run a s) as Er. unfold thread_ready at 1 3.
    destruct (acceptor_epoll a) as [fd|] eqn:Ea; [|unfold mbind, prog_bind; by rewrite Er].
    unfold mbind at 1, prog_bind at 1. rewrite Er. rewrite bool_decide_true by eauto.
    destruct (socket_added a) eqn:E1; [|done].
    destruct (event_added a) eqn:E2; [|done]. cbn [andb].
    set (s1 := set_opened ({[fd]} ∪ opened s) s). specialize (IH s1). unfold mbind at 1, prog_bind at 1.
    destruct (MtNonblock.acceptors_start l s1) as [eps s'|e s'| |]; [|done..].
    destruct IH as (H1 & -> & H3 & H4 & H5 & H6). cbn -[union]. split_and!; try done.
    cbn -[union] in H3. rewrite H3. set_solver.
Qed.

(** The thread of the single-threaded non-blocking server gets to its loop, and the server is
    stopped: its epoll descriptor stays open. *)
Lemma st_thread_leak r s :
  match StNonblock.OnRun_start r s with
  | Ret ep s1 => thread_ready r = true ∧ acceptor_epoll r = Some (Z.to_nat ep) ∧ _thread s1 = _thread s ∧
      ∀ a, _thread s = true → write_ok a = true → ∃ s'', (StNonblock.Stop a;; StNonblock.Join) s1 = Ret tt s'' ∧
        opened s'' = {[Z.to_nat ep]} ∪ opened s ∧ _thread s'' = false ∧ same_pool s s''
  | Throw _ _ => thread_ready r = false
  | _ => False
  end.
Proof.
  pose proof (OnRun_start_run r s) as E. change (MtNonblock.OnRun_start r s) with (StNonblock.OnRun_start r s) in E.
  rewrite E. unfold thread_ready. destruct (acceptor_epoll r) as [fd|]; [|done].
  destruct (socket_added r && event_added r) eqn:Eb; [|done].
  rewrite Nat2Z.id. split_and!; [by rewrite <-andb_assoc, Eb|done|done|]. intros a Ht Hok.
  exists (set_thread false (set_opened ({[fd]} ∪ opened s) s)). by rewrite (st_nonblock_stop a) by done.
Qed.

(** What a start and a stop of a blocking server do: nothing is left behind. *)
Definition blocking_lifecycle (Start Stop Join : prog Server unit) (ready : bool) (s : Server) : Prop :=
  match Start s with
  | Ret _ s' => ready = true ∧ _thread s' = true ∧ running s' = true ∧
      ∃ s'', (Stop;; Join) s' = Ret tt s'' ∧ opened s'' = opened s ∧ running s'' = false ∧ _thread s'' = false
  | Throw _ s' => ready = false ∧ opened s' = opened s ∧ running s' = running s ∧ _thread s' = _thread s
  | _ => False
  end.

(** C18: Without clients a server that has not been started before starts exactly if every
    system call succeeds, and otherwise throws without having started a thread.  The blocking
    servers have released every descriptor when [Start] has thrown and when [Join] has
    returned.  The non-blocking servers never release what they open: the listening socket,
    the descriptor of the events and, in the multithreaded one, the epoll descriptor of the
    workers, in part also when [Start] throws, and the epoll descriptor of every thread that
    runs [OnRun]; such a thread ends the process by an exception exactly if one of the calls
    in front of its loop fails.  Their listening socket is non-blocking, the workers share one
    epoll descriptor, and [Stop] and [Join] end and join every thread. *)
Theorem servers_lifecycle a r rs n m s :
  fresh_fds a s → _workers s = [] → _acceptors s = [] →
  blocking_lifecycle (StBlocking.Start a) StBlocking.Stop StBlocking.Join (socket_ready a) s ∧
  blocking_lifecycle (MtBlocking.Start a) MtBlocking.Stop MtBlocking.Join (socket_ready a) s ∧
  match StNonblock.Start a s with
  | Ret _ s' => st_ready a = true ∧ opened s' = st_leak a ∪ opened s ∧
      (∃ fd fl, socket_fd a = Some fd ∧ fd ∈ listening s' ∧ status s' !! fd = Some fl ∧ Z.testbit fl 11 = true) ∧
      match StNonblock.OnRun_start r s' with
      | Ret ep s1 => thread_ready r = true ∧ acceptor_epoll r = Some (Z.to_nat ep) ∧
          (write_ok a = true → ∃ s'', (StNonblock.Stop a;; StNonblock.Join) s1 = Ret tt s'' ∧
            opened s'' = {[Z.to_nat ep]} ∪ (st_leak a ∪ opened s) ∧ _thread s'' = false)
      | Throw _ _ => thread_ready r = false
      | _ => False
      end
  | Throw _ s' => st_ready a = false ∧ opened s' = st_leak a ∪ opened s ∧ _thread s' = _thread s
  | _ => False
  end ∧
  match MtNonblock.Start m n a s with
  | Ret _ s' => mt_ready a = true ∧ opened s' = mt_leak a ∪ opened s ∧
      ∃ ep, epoll_fd a = Some ep ∧ _acceptors s' = replicate m true ∧
        _workers s' = replicate n (mk_worker true (Z.of_nat ep) true) ∧
        match MtNonblock.acceptors_start rs s' with
        | Ret _ s1 => forallb thread_ready rs = true ∧
            (write_ok a = true → ∃ s'', (MtNonblock.Stop a;; MtNonblock.Join) s1 = Ret tt s'' ∧
              opened s'' = list_to_set (omap acceptor_epoll rs) ∪ (mt_leak a ∪ opened s) ∧
              _acceptors s'' = replicate m false ∧
              _workers s'' = replicate n (mk_worker false (Z.of_nat ep) false))
        | Throw _ _ => forallb thread_ready rs = false
        | _ => False
        end
  | Throw _ s' => mt_ready a = false ∧ opened s' = mt_leak a ∪ opened s ∧ _acceptors s' = [] ∧ _workers s' = []
  | _ => False
  end.
Proof.
  intros Hf Hw Ha.
  assert (blocking_lifecycle (StBlocking.Start a) StBlocking.Stop StBlocking.Join (socket_ready a) s) as Hb.
  { pose proof (st_blocking_start a s Hf) as H. unfold blocking_lifecycle. destruct (StBlocking.Start a s) as [[] s'| | |]; try done.
    - destruct H as (Hr & fd & Es & Ho & _ & Hru & Ht & Hs & _). split_and!; [done..|].
      destruct (blocking_stop fd s' (opened s) Hs Ho (Hf fd Es) Ht) as (s'' & E & Ho' & _ & Hr' & Ht' & _). by exists s''.
    - naive_solver. }
  split; [done|]. split; [exact Hb|]. split.
  - pose proof (st_nonblock_start a s Hf) as H. destruct (StNonblock.Start a s) as [[] s'| | |]; [|naive_solver|done..].
    destruct H as (Hr & Ho & Ht & _ & Hfl). split_and!; [done..|]. rewrite <-Ho.
    pose proof (st_thread_leak r s') as Hl. destruct (StNonblock.OnRun_start r s'); [|done..].
    destruct Hl as (? & ? & _ & Hl). split_and!; [done..|]. intros Hok.
    destruct (Hl a Ht Hok) as (s'' & ? & ? & ? & _). by exists s''.
  - pose proof (mt_nonblock_start n m a s Hf Hw Ha) as H. destruct (MtNonblock.Start m n a s) as [[] s'| | |]; [|naive_solver|done..].
    destruct H as (Hr & Ho & Hac & _ & ep & Ee & Hws). split_and!; [done..|]. exists ep. split_and!; [done..|]. rewrite <-Ho.
    pose proof (acceptors_leak rs s') as Hl. destruct (MtNonblock.acceptors_start rs s') as [eps s1|e s1| |]; [|done..].
    destruct Hl as (? & _ & Ho1 & _ & _ & Hl). split; [done|]. intros Hok.
    destruct (Hl m n _ a Hac Hws Hok) as (s'' & E & Ho' & _ & Ha' & Hw'). exists s''. by rewrite Ho', Ho1.
Qed.

(** Every call succeeds; the descriptors are 3, 4 and 5. *)
Definition good_answers : answers :=
  mk_answers true (Some 3) true true (Some 2%Z) true true (Some 4) (Some 5) true "" true.

Definition good_acceptor (fd : nat) : acceptor_answers := mk_acceptor (Some fd) true true "".

Lemma servers_lifecycle_witness :
  let s := Server_new {[0; 1; 2]} ∅ 0 0 0 in
  fresh_fds good_answers s ∧
  ∃ s' eps s1 s'', MtNonblock.Start 4 4 good_answers s = Ret tt s' ∧
    MtNonblock.acceptors_start (good_acceptor <$> [6; 7; 8; 9]) s' = Ret eps s1 ∧
    (MtNonblock.Stop good_answers;; MtNonblock.Join) s1 = Ret tt s'' ∧ 4 ∈ opened s'' ∧ 9 ∈ opened s''.
Proof.
  intros s. assert (fresh_fds good_answers s) as Hf by (intros fd [= <-]; cbn; set_solver).
  split; [done|]. pose proof (servers_lifecycle good_answers (good_acceptor 6) (good_acceptor <$> [6; 7; 8; 9]) 4 4 s Hf eq_refl eq_refl) as (_ & _ & _ & H).
  destruct (MtNonblock.Start 4 4 good_answers s) as [[] s'|e s'| |]; [|by destruct H as [H _]|done..].
  destruct H as (_ & _ & ep & _ & _ & _ & H).
  destruct (MtNonblock.acceptors_start (good_acceptor <$> [6; 7; 8; 9]) s') as [eps s1|e s1| |] eqn:El; [|discriminate H|destruct H|destruct H].
  destruct H as [_ H]. destruct (H eq_refl) as (s'' & E & Ho & _).
  exists s', eps, s1, s''. split; [done|]. split; [exact El|]. split; [exact E|]. rewrite Ho. cbn. set_solver.
Defined.
