(* ===== verification/Application.v ===== *)
(** * The application: main.cpp

    Model of [main] of src/sysprog/afina/src/main.cpp and of [Application::Start] and [Stop]:
    the options, the configuration and the logging service of [Logging], the start and the
    stop of one of the servers of [Lifecycle], and between them the wait for a signal,
    whose handler runs at any moment and in any thread.  What cxxopts makes of the command
    line is an argument, like the answers of the system calls.  The process has no clients
    here: connections, their destruction by [Stop] and the wait for the threads that serve
    them are the subject of [Servers], [MtWorkers] and [MtEpoll]. *)

From S2P Require Import Prelude Logging Lifecycle.

(** ** Waiting for a signal *)

(** Where [main] is in [while (stop_reason == 0 && ((sem_wait(...) == -1) && (errno == EINTR)))]. *)
Inductive wait_pc : Type := w_test | w_sem | w_done.
#[export] Instance wait_pc_eq_dec : EqDecision wait_pc.
Proof. solve_decision. Defined.

(** [stop_reason], the value of [stop_semaphore], and the handlers between their two
    statements. *)
Record Signals : Type := mk_signals {
  stop_reason : Z;
  stop_semaphore : nat;
  in_handler : nat;
  waiter : wait_pc;
}.

(** The signals with a handler. *)
Inductive signal : Type := SIGINT | SIGTERM.
Definition signal_number (g : signal) : Z := match g with SIGINT => 2 | SIGTERM => 15 end.

(** What happens next: a signal is delivered and [stop_reason = signum] done, [sem_post] of a
    handler, a step of [main]; [sem_wait] gets the semaphore or is interrupted. *)
Inductive wait_event : Type := Sig (g : signal) | Post | Main | Interrupted.

(** The semaphore does not grow over SEM_VALUE_MAX. *)
Definition SEM_VALUE_MAX : nat := Z.to_nat (2 ^ 31 - 1).

Definition on_term (signum : Z) (s : Signals) : Signals :=
  mk_signals signum (stop_semaphore s) (S (in_handler s)) (waiter s).

Definition wait_step (e : wait_event) (s : Signals) : option Signals :=
  match e with
  | Sig g => Some (on_term (signal_number g) s)
  | Post =>
    match in_handler s with
    | 0 => None
    | S h =>
      Some (mk_signals (stop_reason s)
              (if decide (stop_semaphore s < SEM_VALUE_MAX) then S (stop_semaphore s) else stop_semaphore s) h (waiter s))
    end
  | Main =>
    match waiter s with
    | w_test =>
      Some (mk_signals (stop_reason s) (stop_semaphore s) (in_handler s) (if (stop_reason s =? 0)%Z then w_sem else w_done))
    | w_sem =>
      match stop_semaphore s with
      | 0 => None
      | S n => Some (mk_signals (stop_reason s) n (in_handler s) w_done)
      end
    | w_done => None
    end
  | Interrupted =>
    match waiter s with
    | w_sem => Some (mk_signals (stop_reason s) (stop_semaphore s) (in_handler s) w_test)
    | _ => None
    end
  end.

Fixpoint wait_run (es : list wait_event) (s : Signals) : option Signals :=
  match es with [] => Some s | e :: es => wait_step e s ≫= wait_run es end.

(** After [sem_init(&stop_semaphore, 0, 0)], with the handlers installed. *)
Definition wait_start : Signals := mk_signals 0 0 0 w_test.

(** ** The application *)

(** The logging service, and the server with the descriptors and threads of the process. *)
Record Process : Type := mk_process { log : Logging.Process; net : Lifecycle.Server }.
Definition set_log l p := mk_process l (net p).
Definition set_net n p := mk_process (log p) n.

Definition server_Start (k : network_kind) (a : answers) : prog Lifecycle.Server unit :=
  match k with
  | st_block => StBlocking.Start a
  | mt_block => MtBlocking.Start a
  | st_nonblock => StNonblock.Start a
  | mt_nonblock => MtNonblock.Start 4 4 a
  end.
(** What the threads of the server do before they wait for connections: [OnRun] of the
    blocking servers makes no call that can fail. *)
Definition server_OnRun (k : network_kind) (r : nat → acceptor_answers) : prog Lifecycle.Server unit :=
  match k with
  | st_block | mt_block => mret tt
  | st_nonblock => _ ← StNonblock.OnRun_start (r 0); mret tt
  | mt_nonblock => _ ← MtNonblock.acceptors_start (r <$> seq 0 4); mret tt
  end.
Definition server_Stop (k : network_kind) (a : answers) : prog Lifecycle.Server unit :=
  match k with
  | st_block => StBlocking.Stop
  | mt_block => MtBlocking.Stop
  | st_nonblock => StNonblock.Stop a
  | mt_nonblock => MtNonblock.Stop a
  end.
Definition server_Join (k : network_kind) : prog Lifecycle.Server unit :=
  match k with
  | st_block => StBlocking.Join
  | mt_block => MtBlocking.Join
  | st_nonblock => StNonblock.Join
  | mt_nonblock => MtNonblock.Join
  end.

(** [logService->select("root")], and a call through what it returns. *)
Definition root_log : prog Process Logging.logger :=
  l ← zoom log set_log (Logging.select (lit "root")); the NullDeref l.

(** [Application::Start]; [Start] and [Stop] of the storages do nothing. *)
Definition Start (app : Application) (a : answers) : prog Process unit :=
  zoom log set_log (Logging.Start (logConfig app));;
  _ ← root_log;
  zoom net set_net (server_Start (server app) a).

(** [Application::Stop] *)
Definition Stop (app : Application) (a : answers) : prog Process unit :=
  _ ← root_log;
  zoom net set_net (server_Stop (server app) a);;
  zoom net set_net (server_Join (server app)).

(** ** [main] *)

(** What cxxopts makes of the command line. *)
Inductive parsed : Type := ParseError | Help | Parsed (o : Options).

(** What the kernel does: [sem_init], the calls of the start, those of the threads of the
    server, those of the stop, and the events while [main] waits. *)
Record kernel : Type := mk_kernel {
  sem_init_ok : bool;
  start_answers : answers;
  thread_answers : nat → acceptor_answers;
  stop_answers : answers;
  signals : list wait_event;
}.

(** The process ends with a code or by std::terminate, still waits, or is undefined; the
    loops of the logging service may also need more fuel. *)
Inductive outcome : Type :=
| Exit (code : Z) (p : Process)
| Terminated (p : Process)
| Waiting (p : Process) (s : Signals)
| Undefined (u : ub)
| OutOfFuel.

(** The end of the scope of [app]: destroying a thread that can be joined terminates. *)
Definition destroy (p : Process) : outcome :=
  if _thread (net p) || existsb id (_acceptors (net p)) || existsb joinable (_workers (net p))
  then Terminated p else Exit 0 p.

(** [app.Stop()] and the end of [main]; what is thrown is caught. *)
Definition finish (app : Application) (a : answers) (p : Process) : outcome :=
  match Stop app a p with
  | Ret _ p | Throw _ p => destroy p
  | Undef u => Undefined u
  | NoFuel => OutOfFuel
  end.

(** [None]: the events are not a run of the wait.  What a thread throws ends the process,
    whatever [main] does; [main] cannot end before, since it joins the threads. *)
Definition main (c : parsed) (k : kernel) (p : Process) : option outcome :=
  match c with
  | ParseError => Some (Exit 1 p)
  | Help => Some (Exit 0 p)
  | Parsed o =>
    match Configure o (log p) with
    | Throw _ l => Some (Terminated (set_log l p))
    | Undef u => Some (Undefined u)
    | NoFuel => Some OutOfFuel
    | Ret app l =>
      if negb (sem_init_ok k) then Some (Terminated (set_log l p)) else
      match Start app (start_answers k) (set_log l p) with
      | Throw _ p => Some (destroy p)
      | Undef u => Some (Undefined u)
      | NoFuel => Some OutOfFuel
      | Ret _ p =>
        match zoom net set_net (server_OnRun (server app) (thread_answers k)) p with
        | Throw _ p => Some (Terminated p)
        | Undef u => Some (Undefined u)
        | NoFuel => Some OutOfFuel
        | Ret _ p =>
          s ← wait_run (signals k) wait_start;
          Some (match waiter s with
                | w_done => finish app (stop_answers k) p
                | _ => Waiting p s
                end)
        end
      end
    end
  end.

(** ** The wait *)

(** Before a signal nothing has been posted; after one there is a post to come, or one that
    [main] can take, or [main] has left the loop. *)
Record wait_inv (s : Signals) : Prop := {
  inv_silent : stop_reason s = 0%Z → stop_semaphore s = 0 ∧ in_handler s = 0 ∧ waiter s ≠ w_done;
  inv_posted : stop_reason s ≠ 0%Z → waiter s ≠ w_done → 0 < stop_semaphore s + in_handler s;
}.

Lemma signal_number_nonzero g : signal_number g ≠ 0%Z.
Proof. by destruct g. Qed.

Lemma SEM_VALUE_MAX_pos : 0 < SEM_VALUE_MAX.
Proof. unfold SEM_VALUE_MAX. lia. Qed.

(** One step keeps the invariant, and only a signal changes [stop_reason]. *)
Lemma wait_step_inv e s s' :
  wait_inv s → wait_step e s = Some s' →
  wait_inv s' ∧ (stop_reason s' ≠ 0%Z ↔ stop_reason s ≠ 0%Z ∨ ∃ g, e = Sig g).
Proof.
  pose proof SEM_VALUE_MAX_pos as Hmax.
  intros [H0 H1] H. destruct s as [r n h pc], e as [g| | |]; cbn in *.
  - injection H as <-. pose proof (signal_number_nonzero g). split; [split; cbn; [done|lia]|cbn]. naive_solver.
  - destruct h as [|h]; [done|]. injection H as <-. split; [split; cbn; intros Hr|naive_solver].
    + destruct (H0 Hr) as (? & ? & ?). lia.
    + intros Hpc. case_decide; lia.
  - destruct pc; [|destruct n as [|n]|]; [|done| |done]; injection H as <-; (split; [split; cbn|naive_solver]).
    + intros ->. cbn. by destruct (H0 eq_refl) as (? & ? & _).
    + intros Hr _. by apply H1.
    + intros Hr. by destruct (H0 Hr) as (? & _).
    + done.
  - destruct pc; [done| |done]. injection H as <-. split; [split; cbn|naive_solver].
    + intros Hr. by destruct (H0 Hr) as (? & ? & _).
    + intros Hr _. by apply H1.
Qed.

Lemma wait_run_inv es s s' :
  wait_inv s → wait_run es s = Some s' →
  wait_inv s' ∧ (stop_reason s' ≠ 0%Z ↔ stop_reason s ≠ 0%Z ∨ ∃ g, Sig g ∈ es).
Proof.
  revert s. induction es as [|e es IH]; intros s Hi H; cbn in H.
  - injection H as <-. split; [done|]. set_solver.
  - destruct (wait_step e s) as [s1|] eqn:E; [|done]. cbn in H.
    destruct (wait_step_inv e s s1 Hi E) as [Hi1 Hr1]. destruct (IH s1 Hi1 H) as [Hi' Hr'].
    split; [done|]. rewrite Hr', Hr1. set_solver.
Qed.

Lemma wait_start_inv : wait_inv wait_start.
Proof. by split. Qed.

(** When the handlers have posted, the semaphore has a value. *)
Lemma posts_run h s :
  in_handler s = h → 0 < stop_semaphore s + h →
  ∃ n, wait_run (replicate h Post) s = Some (mk_signals (stop_reason s) (S n) 0 (waiter s)).
Proof.
  pose proof SEM_VALUE_MAX_pos as Hmax. revert s. induction h as [|h IH]; intros [r n k pc] Hh Hp; cbn in *; subst k.
  - destruct n as [|n]; [lia|]. by exists n.
  - apply (IH (mk_signals r _ h pc)); [done|]. cbn. case_decide; lia.
Qed.

Lemma wait_run_app es fs s : wait_run (es ++ fs) s = wait_run es s ≫= wait_run fs.
Proof. revert s. induction es as [|e es IH]; intros s; [done|]. cbn. destruct (wait_step e s); [apply IH|done]. Qed.

(** No signal is lost, and nothing else ends the wait, whatever the moment at which
    signals are delivered, the thread that handles them and the interruptions of
    [sem_wait]: [stop_reason] is set exactly if a signal was delivered, [main] leaves the loop only after one, and
    when one was delivered [main] leaves the loop as soon as the handlers have
    posted and it runs once, whatever it was doing. *)
Theorem signal_ends_wait es s :
  wait_run es wait_start = Some s →
  (stop_reason s ≠ 0%Z ↔ ∃ g, Sig g ∈ es) ∧
  (waiter s = w_done → ∃ g, Sig g ∈ es) ∧
  ((∃ g, Sig g ∈ es) → waiter s ≠ w_done →
    ∃ s', wait_run (es ++ replicate (in_handler s) Post ++ [Main]) wait_start = Some s' ∧ waiter s' = w_done).
Proof.
  intros H. destruct (wait_run_inv es _ s wait_start_inv H) as [[H0 H1] Hr].
  assert (stop_reason s ≠ 0%Z ↔ ∃ g, Sig g ∈ es) as Hs by (rewrite Hr; cbn; naive_solver).
  split; [done|]. rewrite <-Hs. split.
  - intros Hd Hz. by destruct (H0 Hz) as (_ & _ & ?).
  - intros Hz Hd. destruct (posts_run (in_handler s) s eq_refl (H1 Hz Hd)) as [n E].
    rewrite !wait_run_app, H. cbn [mbind option_bind]. rewrite wait_run_app, E. cbn.
    destruct (waiter s); [|by eexists|done]. apply Z.eqb_neq in Hz. rewrite Hz. by eexists.
Qed.

(** The signal is handled by a thread that is still about to post when [main] tests, waits,
    is interrupted by a second one, and tests again. *)
Lemma signal_ends_wait_witness :
  ∃ s', wait_run ([Main; Sig SIGINT; Interrupted; Sig SIGTERM] ++ [Post; Post] ++ [Main]) wait_start = Some s' ∧
    waiter s' = w_done.
Proof.
  destruct (signal_ends_wait [Main; Sig SIGINT; Interrupted; Sig SIGTERM] (mk_signals 15 0 2 w_test) eq_refl) as (_ & _ & H).
  apply H; [|done]. exists SIGINT. right. left.
Defined.

(** ** The process *)

(** What [Configure] makes of the options. *)
Definition storage_of (t : bytes) : option storage_kind :=
  if bool_decide (t = lit "st_lru") then Some st_lru
  else if bool_decide (t = lit "mt_lru") then Some mt_lru else None.
Definition network_of (t : bytes) : option network_kind :=
  if bool_decide (t = lit "st_block") then Some st_block
  else if bool_decide (t = lit "mt_block") then Some mt_block
  else if bool_decide (t = lit "st_nonblock") then Some st_nonblock
  else if bool_decide (t = lit "mt_nonblock") then Some mt_nonblock else None.
Definition chosen (o : Options) : option (Level * storage_kind * network_kind) :=
  lv ← logger_level (default (lit "warn") (opt_logger o));
  st ← storage_of (default (lit "st_lru") (opt_storage o));
  n ← network_of (default (lit "st_block") (opt_network o));
  Some (lv, st, n).

(** What a server needs to start, what is left open of it, and what it needs to stop. *)
Definition net_ready (n : network_kind) (a : answers) : bool :=
  match n with st_block | mt_block => socket_ready a | st_nonblock => st_ready a | mt_nonblock => mt_ready a end.
Definition net_leak (n : network_kind) (a : answers) : gset nat :=
  match n with st_block | mt_block => ∅ | st_nonblock => st_leak a | mt_nonblock => mt_leak a end.
Definition threads_ready (n : network_kind) (r : nat → acceptor_answers) : bool :=
  match n with
  | st_block | mt_block => true
  | st_nonblock => thread_ready (r 0)
  | mt_nonblock => forallb thread_ready (r <$> seq 0 4)
  end.
(** The epoll descriptors of the threads. *)
Definition threads_leak (n : network_kind) (r : nat → acceptor_answers) : gset nat :=
  match n with
  | st_block | mt_block => ∅
  | st_nonblock => list_to_set (omap acceptor_epoll [r 0])
  | mt_nonblock => list_to_set (omap acceptor_epoll (r <$> seq 0 4))
  end.
Definition net_stops (n : network_kind) (a : answers) : bool :=
  match n with st_block | mt_block => true | _ => write_ok a end.

(** No thread can be joined. *)
Definition no_threads (s : Server) : bool :=
  negb (_thread s || existsb id (_acceptors s) || existsb joinable (_workers s)).

Lemma Configure_run o w :
  match chosen o with
  | Some (lv, st, n) => Configure o w = Ret (mk_Application (main_config lv) st n) w
  | None => ∃ e, Configure o w = Throw e w
  end.
Proof.
  unfold chosen, Configure, storage_of, network_of. destruct (logger_level _) as [lv|]; cbn [mbind option_bind]; [|by eexists].
  repeat (case_match; simplify_eq; cbn [mbind option_bind] in *; try by eexists; try done).
Qed.

(** What [Stop] and [Join] make of the server whose threads run, from the state [s1]; the
    descriptors [o] are open then. *)
Definition stops (n : network_kind) (s1 : Server) (o : gset nat) : Prop :=
  no_threads s1 = false ∧
  ∀ a, if net_stops n a
    then ∃ s'', (server_Stop n a;; server_Join n) s1 = Ret tt s'' ∧ opened s'' = o ∧ no_threads s'' = true
    else ∃ e s'', (server_Stop n a;; server_Join n) s1 = Throw e s'' ∧ no_threads s'' = false.

Lemma st_block_outcome a s :
  fresh_fds a s → _thread s = false → _acceptors s = [] → _workers s = [] →
  match StBlocking.Start a s with
  | Ret _ s' => socket_ready a = true ∧ stops st_block s' (opened s)
  | Throw _ s' => socket_ready a = false ∧ opened s' = opened s ∧ no_threads s' = true
  | _ => False
  end.
Proof.
  intros Hf Ht Ha Hw. pose proof (st_blocking_start a s Hf) as H. unfold no_threads, stops.
  destruct (StBlocking.Start a s) as [[] s'|e s'| |]; [| |done..].
  - destruct H as (Hr & fd & Es & Ho & _ & _ & Ht' & Hs & Ha' & Hw').
    destruct (blocking_stop fd s' _ Hs Ho (Hf fd Es) Ht') as (s'' & E & Ho' & _ & _ & Ht'' & Ha'' & Hw'').
    unfold no_threads. rewrite Ht'. split_and!; [done..|]. intros a'. cbn [net_stops]. exists s''.
    by rewrite Ht'', Ha'', Ha', Ha, Hw'', Hw', Hw.
  - destruct H as (Hr & Ho & _ & Ht' & Ha' & Hw'). by rewrite Ht', Ha', Hw', Ht, Ha, Hw.
Qed.

Lemma st_nonblock_outcome a r s :
  fresh_fds a s → _thread s = false → _acceptors s = [] → _workers s = [] →
  match StNonblock.Start a s with
  | Ret _ s' => st_ready a = true ∧
      match StNonblock.OnRun_start r s' with
      | Ret _ s1 => thread_ready r = true ∧
          stops st_nonblock s1 (list_to_set (omap acceptor_epoll [r]) ∪ (st_leak a ∪ opened s))
      | Throw _ _ => thread_ready r = false
      | _ => False
      end
  | Throw _ s' => st_ready a = false ∧ opened s' = st_leak a ∪ opened s ∧ no_threads s' = true
  | _ => False
  end.
Proof.
  intros Hf Ht Ha Hw. pose proof (st_nonblock_start a s Hf) as H. unfold no_threads, stops.
  destruct (StNonblock.Start a s) as [[] s'|e s'| |]; [| |done..].
  - destruct H as (Hr & Ho & Ht' & [Ha' Hw'] & _). split; [done|]. pose proof (st_thread_leak r s') as Hl.
    destruct (StNonblock.OnRun_start r s') as [ep s1| | |]; [|done..]. destruct Hl as (Hr1 & He & Ht1 & Hl).
    split; [done|]. unfold no_threads. rewrite Ht1, Ht'. split; [done|]. intros a'. cbn [net_stops server_Stop server_Join].
    destruct (write_ok a') eqn:Hok.
    + destruct (Hl a' Ht' Hok) as (s'' & E & Ho' & Ht'' & Ha'' & Hw''). exists s''. cbn [omap list_omap]. rewrite He.
      split; [done|]. split; [rewrite Ho', Ho; cbn; by rewrite union_empty_r_L|].
      by rewrite Ht'', Ha'', Hw'', Ha', Hw', Ha, Hw.
    + eexists _, s1. unfold StNonblock.Stop. rewrite Hok. by rewrite Ht1, Ht'.
  - destruct H as (Hr & Ho & Ht' & Ha' & Hw'). by rewrite Ht', Ha', Hw', Ht, Ha, Hw.
Qed.

Lemma mt_nonblock_outcome a rs s :
  fresh_fds a s → _thread s = false → _acceptors s = [] → _workers s = [] →
  match MtNonblock.Start 4 4 a s with
  | Ret _ s' => mt_ready a = true ∧
      match MtNonblock.acceptors_start rs s' with
      | Ret _ s1 => forallb thread_ready rs = true ∧
          stops mt_nonblock s1 (list_to_set (omap acceptor_epoll rs) ∪ (mt_leak a ∪ opened s))
      | Throw _ _ => forallb thread_ready rs = false
      | _ => False
      end
  | Throw _ s' => mt_ready a = false ∧ opened s' = mt_leak a ∪ opened s ∧ no_threads s' = true
  | _ => False
  end.
Proof.
  intros Hf Ht Ha Hw. pose proof (mt_nonblock_start 4 4 a s Hf Hw Ha) as H. unfold no_threads, stops.
  destruct (MtNonblock.Start 4 4 a s) as [[] s'|e s'| |]; [| |done..].
  - destruct H as (Hr & Ho & Ha' & Ht' & ep & _ & Hw'). split; [done|]. pose proof (acceptors_leak rs s') as Hl.
    destruct (MtNonblock.acceptors_start rs s') as [eps s1| | |]; [|done..].
    destruct Hl as (Hr1 & _ & Ho1 & [Ha1 Hw1] & Ht1 & Hl).
    split; [done|]. unfold no_threads. rewrite Ht1, Ht', Ha1, Ha', Ht. split; [done|]. intros a'.
    cbn [net_stops server_Stop server_Join]. destruct (write_ok a') eqn:Hok.
    + destruct (Hl 4 4 _ a' Ha' Hw' Hok) as (s'' & E & Ho' & Ht'' & Ha'' & Hw''). exists s''.
      by rewrite Ho', Ho1, Ho, Ht'', Ha'', Hw'', Ht1, Ht', Ht.
    + eexists _, _. unfold MtNonblock.Stop. rewrite Hok. unfold mbind, prog_bind, modify, throw. cbn [negb]. split; [reflexivity|].
      cbn. by rewrite Ha1, Ha', Ht1, Ht', Ht.
  - destruct H as (Hr & Ho & Ha' & Hw' & Ht'). by rewrite Ht', Ha', Hw', Ht.
Qed.

(** The server of the application starts, its threads get to their loops, and it is stopped. *)
Lemma server_outcome n a r s :
  fresh_fds a s → _thread s = false → _acceptors s = [] → _workers s = [] →
  match server_Start n a s with
  | Ret _ s' => net_ready n a = true ∧
      match server_OnRun n r s' with
      | Ret _ s1 => threads_ready n r = true ∧ stops n s1 (threads_leak n r ∪ (net_leak n a ∪ opened s))
      | Throw _ _ => threads_ready n r = false
      | _ => False
      end
  | Throw _ s' => net_ready n a = false ∧ opened s' = net_leak n a ∪ opened s ∧ no_threads s' = true
  | _ => False
  end.
Proof.
  intros Hf Ht Ha Hw. pose proof (st_block_outcome a s Hf Ht Ha Hw) as Hb.
  destruct n; cbn [server_Start server_OnRun net_ready net_leak threads_ready threads_leak].
  - rewrite !union_empty_l_L. destruct (StBlocking.Start a s); naive_solver.
  - rewrite !union_empty_l_L, mt_blocking_start. destruct (StBlocking.Start a s); naive_solver.
  - pose proof (st_nonblock_outcome a (r 0) s Hf Ht Ha Hw) as H. destruct (StNonblock.Start a s) as [[] s'|e s'| |]; [|done..].
    destruct H as [Hr H]. split; [done|]. unfold mbind, prog_bind. by destruct (StNonblock.OnRun_start (r 0) s').
  - pose proof (mt_nonblock_outcome a (r <$> seq 0 4) s Hf Ht Ha Hw) as H. destruct (MtNonblock.Start 4 4 a s) as [[] s'|e s'| |]; [|done..].
    destruct H as [Hr H]. split; [done|]. unfold mbind, prog_bind. by destruct (MtNonblock.acceptors_start (r <$> seq 0 4) s').
Qed.

(** [Start] and [Stop] log to the root and leave the rest to the server. *)
Lemma root_log_run lv s :
  root_log (mk_process (main_process lv) s) = Ret (main_logger lv) (mk_process (main_process lv) s).
Proof.
  unfold root_log. assert (zoom log set_log (Logging.select (lit "root")) (mk_process (main_process lv) s) =
    Ret (Some (main_logger lv)) (mk_process (main_process lv) s)) as E.
  { unfold zoom. cbn [log]. by rewrite main_process_select. }
  by rewrite (bind_ret _ _ _ _ _ E).
Qed.

Lemma app_start_run lv st n a p :
  log p = new_process →
  Start (mk_Application (main_config lv) st n) a p =
    zoom net set_net (server_Start n a) (mk_process (main_process lv) (net p)).
Proof.
  intros Hl. unfold Start.
  rewrite (bind_ret _ _ _ tt (mk_process (main_process lv) (net p))).
  2: { unfold zoom. cbn [logConfig]. by rewrite Hl, main_config_start. }
  by rewrite (bind_ret _ _ _ _ _ (root_log_run lv (net p))).
Qed.

Lemma app_stop_run lv st n a s :
  Stop (mk_Application (main_config lv) st n) a (mk_process (main_process lv) s) =
    zoom net set_net (server_Stop n a;; server_Join n) (mk_process (main_process lv) s).
Proof.
  unfold Stop. rewrite (bind_ret _ _ _ _ _ (root_log_run lv s)). unfold zoom, mbind, prog_bind. cbn [net server].
  by destruct (server_Stop n a s).
Qed.


(** [afina -n st_nonblock], where the write of the stop fails. *)
Definition bad_stop : answers :=
  mk_answers true None true true None true true None None true "" false.

