(* ===== verification/MtWorkers.v ===== *)
(** * The threads of the multithreaded blocking server

    Model of src/sysprog/afina/src/network/mt_blocking/ServerImpl.cpp: the acceptor
    [OnRun], [_connection_processing] in every worker, and [Stop] and [Join] in the
    thread of the application, over the table [_workers], [_main_mutex] and the
    condition variable [_join_threads].  What the loop of a worker computes from the bytes
    is the subject of [Network]; here it is where the loop waits (in [read] until the
    client sends, closes or was silent for too long, or the socket was shut down; in
    [send] until the client takes the reply) and when it tests [running]. *)

From S2P Require Import Prelude.

(** ** State *)

(** Who holds [_main_mutex]. *)
Inductive owner : Type := Acceptor | Application | Worker (k : nat).

(** [OnRun] *)
Inductive apc : Type :=
| run_test                   (* while (running.load()) *)
| accept_call
| accept_lock (fd : nat)
| accept_check (fd : nat)    (* holds the mutex: if (_workers.size() >= _max_connections) *)
| accept_unlock
| ended.

(** [_connection_processing] *)
Inductive wpc : Type :=
| loop_test                  (* while (running.load() && *)
| reading                    (* in read *)
| inner_test (n : nat)       (* while (running.load() && readed_bytes > 0) *)
| inner (n : nat)            (* the body of the inner loop, with n bytes left *)
| sending (n : nat)          (* in send *)
| closing                    (* before close(client_socket) *)
| erase_lock
| erase                      (* holds the mutex: find, detach, erase *)
| notify                     (* holds the mutex: if (_workers.size() == 0) *)
| erase_unlock
| finished.

(** What the connection makes of a step of its worker: what [read] returns; how an iteration
    of the inner loop ends (bytes left, an input that is not parsed further, an exception,
    or a reply to be sent and bytes left); whether [send] sends. *)
Inductive answer : Type :=
| Data (n : nat) | End | Error
| Left_ (n : nat) | Break | Throws | Replies (n : nat)
| Sent | NotSent.

(** [Stop] and then [Join], as [Application::Stop] calls them. *)
Inductive mpc : Type :=
| serving
| stop_running               (* before running.store(false) *)
| stop_listener              (* before shutdown(_server_socket) *)
| stop_lock
| stop_shutdown              (* holds the mutex: shutdown of the sockets of the workers *)
| stop_unlock
| join_lock
| join_test                  (* holds the mutex: while ( !_workers.empty()) *)
| join_wait                  (* asleep in _join_threads.wait *)
| join_unlock
| join_thread                (* before _thread.join() *)
| joined.

(** [workers]: the sockets of the threads that were started, in their order, and where they
    are; [_workers] maps a socket to the thread it owns.  [open] are the open sockets of
    clients, [shut] those that were shut down for reading.  [terminated]: std::terminate has been called;
    [undefined]: an iterator at the end was used. *)
Record Server : Type := mk_server {
  running : bool;
  listening : bool;
  _max_connections : Z;
  _main_mutex : option owner;
  open : gset nat;
  shut : gset nat;
  _workers : gmap nat nat;
  workers : list (nat * wpc);
  acceptor : apc;
  main : mpc;
  terminated : bool;
  undefined : bool;
}.

(** After [Start]. *)
Definition Server_started (max : Z) : Server :=
  mk_server true true max None ∅ ∅ ∅ [] run_test serving false false.

Definition set_mutex m s := mk_server (running s) (listening s) (_max_connections s) m (open s) (shut s)
  (_workers s) (workers s) (acceptor s) (main s) (terminated s) (undefined s).
Definition set_acceptor a s := mk_server (running s) (listening s) (_max_connections s) (_main_mutex s) (open s) (shut s)
  (_workers s) (workers s) a (main s) (terminated s) (undefined s).
Definition set_main m s := mk_server (running s) (listening s) (_max_connections s) (_main_mutex s) (open s) (shut s)
  (_workers s) (workers s) (acceptor s) m (terminated s) (undefined s).
Definition set_worker k fd p s := mk_server (running s) (listening s) (_max_connections s) (_main_mutex s) (open s) (shut s)
  (_workers s) (<[k := (fd, p)]> (workers s)) (acceptor s) (main s) (terminated s) (undefined s).
Definition set_open o s := mk_server (running s) (listening s) (_max_connections s) (_main_mutex s) o (shut s)
  (_workers s) (workers s) (acceptor s) (main s) (terminated s) (undefined s).
Definition set_shut o s := mk_server (running s) (listening s) (_max_connections s) (_main_mutex s) (open s) o
  (_workers s) (workers s) (acceptor s) (main s) (terminated s) (undefined s).
Definition set_table t s := mk_server (running s) (listening s) (_max_connections s) (_main_mutex s) (open s) (shut s)
  t (workers s) (acceptor s) (main s) (terminated s) (undefined s).
Definition set_flags r l s := mk_server r l (_max_connections s) (_main_mutex s) (open s) (shut s)
  (_workers s) (workers s) (acceptor s) (main s) (terminated s) (undefined s).
Definition set_undefined s := mk_server (running s) (listening s) (_max_connections s) (_main_mutex s) (open s) (shut s)
  (_workers s) (workers s) (acceptor s) (main s) (terminated s) true.

(** ** Steps *)

Definition acquire (o : owner) (s : Server) : option Server :=
  match _main_mutex s with None => Some (set_mutex (Some o) s) | Some _ => None end.

(** [_workers.emplace(client_socket, std::thread(...))]: the thread is started first; when
    the key is taken, its std::thread is destroyed while it can be joined. *)
Definition emplace (fd : nat) (s : Server) : Server :=
  let ws := workers s ++ [(fd, loop_test)] in
  match _workers s !! fd with
  | None => mk_server (running s) (listening s) (_max_connections s) (_main_mutex s) (open s) (shut s)
      (<[fd := length (workers s)]> (_workers s)) ws (acceptor s) (main s) (terminated s) (undefined s)
  | Some _ => mk_server (running s) (listening s) (_max_connections s) (_main_mutex s) (open s) (shut s)
      (_workers s) ws (acceptor s) (main s) true (undefined s)
  end.

(** [close] of the socket of a client. *)
Definition close_socket (fd : nat) (s : Server) : Server :=
  set_open (open s ∖ {[fd]}) (set_shut (shut s ∖ {[fd]}) s).

(** A step of [OnRun]; [r] is what [accept] returns: a new descriptor, or -1. *)
Definition acceptor_step (r : option nat) (s : Server) : option Server :=
  match acceptor s with
  | run_test => Some (set_acceptor (if running s then accept_call else ended) s)
  | accept_call =>
      match r with
      | None => Some (set_acceptor run_test s)
      | Some fd =>
          if listening s && bool_decide (fd ∉ open s)
          then Some (set_acceptor (accept_lock fd) (set_open ({[fd]} ∪ open s) s)) else None
      end
  | accept_lock fd => set_acceptor (accept_check fd) <$> acquire Acceptor s
  | accept_check fd =>
      Some (set_acceptor accept_unlock
        (if (wrap64 (_max_connections s) <=? Z.of_nat (size (_workers s)))%Z
         then close_socket fd s else emplace fd s))
  | accept_unlock => Some (set_acceptor run_test (set_mutex None s))
  | ended => None
  end.

(** [_join_threads.notify_one()]: only [Join] waits. *)
Definition notify_one (s : Server) : Server :=
  match main s with join_wait => set_main join_lock s | _ => s end.

(** Where the loop of a worker goes from [p] with [running] and what the connection
    answers; nothing when it cannot go on with this answer.  The outer loop ends when
    [running] is false, at the end of the input and at an error of [read]; the inner one
    consumes bytes in every iteration. *)
Definition processing_step (run : bool) (p : wpc) (a : answer) : option wpc :=
  match p with
  | loop_test => Some (if run then reading else closing)
  | reading =>
      match a with
      | Data n => if bool_decide (0 < n ≤ 4096) then Some (inner_test n) else None
      | End | Error => Some closing
      | _ => None
      end
  | inner_test n => Some (if run && bool_decide (0 < n) then inner n else loop_test)
  | inner n =>
      match a with
      | Left_ m => if bool_decide (m < n) then Some (inner_test m) else None
      | Replies m => if bool_decide (m < n) then Some (sending m) else None
      | Break => Some loop_test
      | Throws => Some closing
      | _ => None
      end
  | sending m =>
      match a with Sent => Some (inner_test m) | NotSent => Some closing | _ => None end
  | _ => None
  end.

(** A step of worker [k]. *)
Definition worker_step (k : nat) (a : answer) (s : Server) : option Server :=
  '(fd, p) ← workers s !! k;
  match p with
  | closing => Some (set_worker k fd erase_lock (close_socket fd s))
  | erase_lock => set_worker k fd erase <$> acquire (Worker k) s
  | erase =>
      match _workers s !! fd with
      | None => Some (set_undefined s)
      | Some _ => Some (set_worker k fd notify (set_table (delete fd (_workers s)) s))
      end
  | notify =>
      Some (set_worker k fd erase_unlock (if decide (size (_workers s) = 0) then notify_one s else s))
  | erase_unlock => Some (set_worker k fd finished (set_mutex None s))
  | finished => None
  | _ => p' ← processing_step (running s) p a; Some (set_worker k fd p' s)
  end.

(** A step of the application. *)
Definition main_step (s : Server) : option Server :=
  match main s with
  | serving => Some (set_main stop_running s)
  | stop_running => Some (set_main stop_listener (set_flags false (listening s) s))
  | stop_listener => Some (set_main stop_lock (set_flags (running s) false s))
  | stop_lock => set_main stop_shutdown <$> acquire Application s
  | stop_shutdown => Some (set_main stop_unlock (set_shut (shut s ∪ (dom (_workers s) ∩ open s)) s))
  | stop_unlock => Some (set_main join_lock (set_mutex None s))
  | join_lock => set_main join_test <$> acquire Application s
  | join_test =>
      if decide (size (_workers s) = 0) then Some (set_main join_unlock s)
      else Some (set_main join_wait (set_mutex None s))
  | join_wait => None
  | join_unlock => Some (set_main join_thread (set_mutex None s))
  | join_thread => match acceptor s with ended => Some (set_main joined s) | _ => None end
  | joined => None
  end.

(** Which thread makes a step; [Spurious]: the wait of [Join] returns without a
    notification. *)
Inductive label : Type := ByAcceptor (r : option nat) | ByWorker (k : nat) (a : answer) | ByMain | Spurious.

Definition step (l : label) (s : Server) : option Server :=
  if terminated s || undefined s then None else
  match l with
  | ByAcceptor r => acceptor_step r s
  | ByWorker k a => worker_step k a s
  | ByMain => main_step s
  | Spurious => match main s with join_wait => Some (set_main join_lock s) | _ => None end
  end.

(** A sequence of steps. *)
Fixpoint run (ls : list label) (s : Server) : option Server :=
  match ls with [] => Some s | l :: ls => step l s ≫= run ls end.
#[export] Instance owner_eq_dec : EqDecision owner.
Proof. solve_decision. Defined.

(** ** Invariant *)

(** Before [erase]: the table owns the thread. *)
Definition registered (p : wpc) : bool :=
  match p with notify | erase_unlock | finished => false | _ => true end.
(** The socket is open. *)
Definition connected (p : wpc) : bool :=
  match p with erase_lock | erase | notify | erase_unlock | finished => false | _ => true end.
Definition worker_inside (p : wpc) : bool :=
  match p with erase | notify | erase_unlock => true | _ => false end.
Definition acceptor_inside (a : apc) : bool :=
  match a with accept_check _ | accept_unlock => true | _ => false end.
Definition main_inside (m : mpc) : bool :=
  match m with stop_shutdown | stop_unlock | join_test | join_unlock => true | _ => false end.
(** The descriptor that the acceptor has got and not handed over. *)
Definition accepted (a : apc) : option nat :=
  match a with accept_lock fd | accept_check fd => Some fd | _ => None end.
(** Behind [running.store(false)]. *)
Definition stop_called (m : mpc) : bool :=
  match m with serving | stop_running => false | _ => true end.
(** Behind the shutdown of the listening socket. *)
Definition stopping (m : mpc) : bool :=
  match m with serving | stop_running | stop_listener => false | _ => true end.

(** Behind the shutdown of the sockets of the workers. *)
Definition sockets_shut (m : mpc) : bool :=
  match m with
  | serving | stop_running | stop_listener | stop_lock | stop_shutdown => false
  | _ => true
  end.

(** The thread that holds [_main_mutex] is at a place where it does. *)
Definition holds (s : Server) (o : owner) : Prop :=
  match o with
  | Acceptor => acceptor_inside (acceptor s) = true
  | Application => main_inside (main s) = true
  | Worker k => ∃ fd p, workers s !! k = Some (fd, p) ∧ worker_inside p = true
  end.

#[local] Arguments holds : simpl never.
#[local] Arguments processing_step : simpl never.

Record ok (s : Server) : Prop := mk_ok {
  ok_mutex : ∀ o, holds s o ↔ _main_mutex s = Some o;
  ok_table : ∀ fd k, _workers s !! fd = Some k ↔ ∃ p, workers s !! k = Some (fd, p) ∧ registered p = true;
  ok_open : ∀ k fd p, workers s !! k = Some (fd, p) → connected p = true → fd ∈ open s ∧ accepted (acceptor s) ≠ Some fd;
  ok_accepted : ∀ fd, accepted (acceptor s) = Some fd → fd ∈ open s;
  ok_size : (0 ≤ _max_connections s < 2 ^ 31 → Z.of_nat (size (_workers s)) ≤ _max_connections s)%Z;
  ok_sleep : main s = join_wait → size (_workers s) ≠ 0 ∨ ∃ k fd, workers s !! k = Some (fd, notify);
  ok_running : stop_called (main s) = true → running s = false;
  ok_listening : stopping (main s) = true → listening s = false;
  ok_shut : ∀ k fd, workers s !! k = Some (fd, reading) → sockets_shut (main s) = true → fd ∈ shut s;
}.

Definition stopped (s : Server) : bool := terminated s || undefined s.

Lemma acquire_run o s s' : acquire o s = Some s' → _main_mutex s = None ∧ s' = set_mutex (Some o) s.
Proof. unfold acquire. destruct (_main_mutex s); [done|]. by intros [= <-]. Qed.

(** A worker moves to a place where the table owns it as before. *)
Lemma table_keep (ws : list (nat * wpc)) (t : gmap nat nat) k fd p p' :
  (∀ fd k, t !! fd = Some k ↔ ∃ p, ws !! k = Some (fd, p) ∧ registered p = true) →
  ws !! k = Some (fd, p) → registered p' = registered p →
  ∀ fd0 k0, t !! fd0 = Some k0 ↔ ∃ p, <[k := (fd, p')]> ws !! k0 = Some (fd0, p) ∧ registered p = true.
Proof.
  intros Ht Hk Hr fd0 k0. rewrite Ht. destruct (decide (k0 = k)) as [->|Hne].
  - rewrite list_lookup_insert_eq by (by eapply lookup_lt_Some). rewrite Hk. naive_solver congruence.
  - by rewrite list_lookup_insert_ne.
Qed.

(** And when it erases itself. *)
Lemma table_erase (ws : list (nat * wpc)) (t : gmap nat nat) k fd p p' :
  (∀ fd k, t !! fd = Some k ↔ ∃ p, ws !! k = Some (fd, p) ∧ registered p = true) →
  ws !! k = Some (fd, p) → registered p = true → registered p' = false →
  ∀ fd0 k0, delete fd t !! fd0 = Some k0 ↔ ∃ p, <[k := (fd, p')]> ws !! k0 = Some (fd0, p) ∧ registered p = true.
Proof.
  intros Ht Hk Hr Hr' fd0 k0. assert (t !! fd = Some k) as Hfd by (apply Ht; eauto).
  destruct (decide (fd0 = fd)) as [->|Hf].
  - rewrite lookup_delete_eq. split; [done|]. intros (p0 & H & Hp0). destruct (decide (k0 = k)) as [->|Hne].
    + rewrite list_lookup_insert_eq in H by (by eapply lookup_lt_Some). simplify_eq. congruence.
    + rewrite list_lookup_insert_ne in H by done. assert (t !! fd = Some k0) by (apply Ht; eauto). congruence.
  - rewrite lookup_delete_ne by done. rewrite Ht. destruct (decide (k0 = k)) as [->|Hne].
    + rewrite list_lookup_insert_eq by (by eapply lookup_lt_Some). rewrite Hk. naive_solver.
    + by rewrite list_lookup_insert_ne.
Qed.

(** And when it is started. *)
Lemma table_emplace (ws : list (nat * wpc)) (t : gmap nat nat) fd :
  (∀ fd k, t !! fd = Some k ↔ ∃ p, ws !! k = Some (fd, p) ∧ registered p = true) →
  t !! fd = None →
  ∀ fd0 k0, <[fd := length ws]> t !! fd0 = Some k0 ↔
    ∃ p, (ws ++ [(fd, loop_test)]) !! k0 = Some (fd0, p) ∧ registered p = true.
Proof.
  intros Ht Hfd fd0 k0. destruct (decide (k0 < length ws)) as [Hl|Hl].
  - rewrite lookup_app_l by done. rewrite <-Ht. destruct (decide (fd0 = fd)) as [->|Hf].
    + rewrite lookup_insert_eq, Hfd. split; [intros [= <-]; lia|done].
    + by rewrite lookup_insert_ne.
  - rewrite lookup_app_r by lia. destruct (decide (k0 = length ws)) as [->|Hne].
    + rewrite Nat.sub_diag. cbn. destruct (decide (fd0 = fd)) as [->|Hf].
      * rewrite lookup_insert_eq. split; [|done]. intros _. by exists loop_test.
      * rewrite lookup_insert_ne by done. rewrite Ht. split; [|naive_solver].
        intros (p & H%lookup_lt_Some & _). lia.
    + destruct (k0 - length ws) as [|j] eqn:E; [lia|]. cbn. split; [|by intros (p & H & _)].
      intros H. destruct (decide (fd0 = fd)) as [->|Hf].
      * rewrite lookup_insert_eq in H. by simplify_eq.
      * rewrite lookup_insert_ne in H by done. apply Ht in H as (p & H%lookup_lt_Some & _). lia.
Qed.

(** Updating one worker. *)
Lemma worker_holds (ws : list (nat * wpc)) k fd p p' k0 : ws !! k = Some (fd, p) →
  (∃ fd0 p0, <[k := (fd, p')]> ws !! k0 = Some (fd0, p0) ∧ worker_inside p0 = true) ↔
  if decide (k0 = k) then worker_inside p' = true
  else ∃ fd0 p0, ws !! k0 = Some (fd0, p0) ∧ worker_inside p0 = true.
Proof.
  intros Hk. destruct (decide (k0 = k)) as [->|Hne].
  - rewrite list_lookup_insert_eq by (by eapply lookup_lt_Some). naive_solver.
  - by rewrite list_lookup_insert_ne.
Qed.

(** Who holds the mutex after a step of [o], that holds it iff [b]. *)
Lemma mutex_step s s' o :
  (∀ o, holds s o ↔ _main_mutex s = Some o) →
  (∀ o', o' ≠ o → holds s' o' ↔ holds s o') →
  (_main_mutex s' = _main_mutex s ∧ (holds s' o ↔ holds s o) ∨
   _main_mutex s = None ∧ _main_mutex s' = Some o ∧ holds s' o ∨
   holds s o ∧ _main_mutex s' = None ∧ ¬ holds s' o) →
  ∀ o, holds s' o ↔ _main_mutex s' = Some o.
Proof.
  intros H Hothers Hcase o'. pose proof (decide (o' = o)) as owner_eq.
  destruct Hcase as [[E Ho]|[(E & E' & Ho)|(Ho & E & Hn)]].
  - rewrite E, <-H. destruct owner_eq as [->|Hne]; [done|by apply Hothers].
  - rewrite E'. destruct owner_eq as [->|Hne]; [naive_solver|]. rewrite (Hothers _ Hne), H, E. naive_solver congruence.
  - rewrite E. apply H in Ho. destruct owner_eq as [->|Hne]; [naive_solver|]. rewrite (Hothers _ Hne), H, Ho. naive_solver congruence.
Qed.

Lemma acceptor_ok r s s' : ok s → acceptor_step r s = Some s' → stopped s' = false → ok s'.
Proof.
  intros [H1 H2 H3 H4 H5 H6 H7 H8 H9] E Hs. unfold acceptor_step in E.
  assert (∀ s', workers s' = workers s → main s' = main s → ∀ o, o ≠ Acceptor → holds s' o ↔ holds s o) as Hoth.
  { intros s1 E1 E2 [| |k] ?; unfold holds; rewrite ?E1, ?E2; done. }
  destruct (acceptor s) as [| |fd|fd| |] eqn:Ea; [..|done].
  - injection E as <-. split; [apply (mutex_step s _ Acceptor); [done|by apply Hoth|]|cbn; try done..].
    + left. unfold holds; cbn. rewrite Ea. by destruct (running s).
    + intros k fd p Hk Hc. destruct (H3 k fd p Hk Hc). by destruct (running s).
    + by destruct (running s).
  - destruct r as [fd|].
    + destruct (listening s); [|done]. cbn in E. case_bool_decide as Hf; [|done]. injection E as <-.
      split; [apply (mutex_step s _ Acceptor); [done|by apply Hoth|]|cbn; try done..].
      * left. unfold holds; cbn. by rewrite Ea.
      * intros k fd' p Hk Hc. destruct (H3 k fd' p Hk Hc) as [Ho _]. split; [set_solver|]. intros [= ->]. done.
      * intros fd' [= <-]. set_solver.
      * intros Hst. by specialize (H8 Hst).
    + injection E as <-. split; [apply (mutex_step s _ Acceptor); [done|by apply Hoth|]|cbn; try done..].
      * left. unfold holds; cbn. by rewrite Ea.
  - destruct (acquire Acceptor s) as [s1|] eqn:E1; [|done]. apply acquire_run in E1 as [Hm ->]. injection E as <-.
    split; [apply (mutex_step s _ Acceptor); [done|by apply Hoth|]|cbn; try done..]. right. left. by unfold holds; cbn.
  - injection E as <-. pose proof (H4 fd eq_refl) as Hfd. case_match eqn:Hmax.
    + split; [apply (mutex_step s _ Acceptor); [done|by apply Hoth|]|cbn; try done..].
      * left. unfold holds; cbn. by rewrite Ea.
      * intros k fd' p Hk Hc. destruct (H3 k fd' p Hk Hc) as [Ho Hne]. split; [|done]. cbn in Hne. set_solver.
      * intros k fd' Hk Hst. destruct (H3 k fd' _ Hk eq_refl) as [_ Hne]. pose proof (H9 _ _ Hk Hst).
        cbn in Hne. set_solver.
    + unfold emplace in *. destruct (_workers s !! fd) as [k'|] eqn:Et; [by cbn in Hs; unfold stopped in Hs; cbn in Hs|].
      split; [apply (mutex_step s _ Acceptor); [done| |]|cbn..].
      * intros [| |k] ?; [done..|]. unfold holds; cbn. split.
        -- intros (fd0 & p & [Hk|[_ Hk]]%lookup_app_Some & Hp); [eauto|].
           destruct (k - length (workers s)); [by injection Hk as <- <-|done].
        -- intros (fd0 & p & Hk & Hp). exists fd0, p. split; [|done]. by apply lookup_app_l_Some.
      * left. unfold holds; cbn. by rewrite Ea.
      * by apply table_emplace.
      * intros k fd' p [Hk|[_ Hk]]%lookup_app_Some Hc.
        -- by destruct (H3 k fd' p Hk Hc).
        -- destruct (k - length (workers s)); [|done]. by injection Hk as <- <-.
      * done.
      * intros Hr. rewrite map_size_insert_None by done. apply Z.leb_gt in Hmax. rewrite wrap_small in Hmax by lia. lia.
      * intros Hmn. left. by rewrite map_size_insert_None.
      * done.
      * done.
      * intros k fd' [Hk|[_ Hk]]%lookup_app_Some Hst; [by eapply H9|].
        by destruct (k - length (workers s)).
  - injection E as <-. split; [apply (mutex_step s _ Acceptor); [done|by apply Hoth|]|cbn; try done..].
    right. right. unfold holds; cbn. by rewrite Ea.
Qed.

(** Sockets that no worker reads from are shut or opened again. *)
Lemma ok_set_shut sh s :
  ok s → (∀ k fd, workers s !! k = Some (fd, reading) → sockets_shut (main s) = true → fd ∈ sh) →
  ok (set_shut sh s).
Proof. intros [H1 H2 H3 H4 H5 H6 H7 H8 H9] H. split; try done. Qed.

(** Two workers that the table knows have different sockets. *)
Lemma sockets_differ s k k' fd fd' p p' :
  ok s → workers s !! k = Some (fd, p) → workers s !! k' = Some (fd', p') →
  registered p = true → registered p' = true → k ≠ k' → fd ≠ fd'.
Proof.
  intros Hok Hk Hk' Hp Hp' Hne ->.
  assert (_workers s !! fd' = Some k) by (apply (ok_table s Hok); eauto).
  assert (_workers s !! fd' = Some k') by (apply (ok_table s Hok); eauto). congruence.
Qed.

(** A worker that moves without the table. *)
Lemma worker_moves s k fd p p' m o :
  ok s → workers s !! k = Some (fd, p) → registered p' = registered p → (p' = reading → running s = true) →
  (connected p' = true → connected p = true ∧ o = open s) → (connected p = true → connected p' = false → o = open s ∖ {[fd]}) →
  (connected p = false → o = open s) → p ≠ notify →
  (m = _main_mutex s ∧ worker_inside p' = worker_inside p ∨
   _main_mutex s = None ∧ m = Some (Worker k) ∧ worker_inside p' = true ∨
   worker_inside p = true ∧ m = None ∧ worker_inside p' = false) →
  ok (set_worker k fd p' (set_open o (set_mutex m s))).
Proof.
  intros [H1 H2 H3 H4 H5 H6 H7 H8 H9] Hk Hr Hrun Hc1 Hc2 Hc3 Hn Hm.
  split; [apply (mutex_step s _ (Worker k)); [done| |]|cbn; try done..].
  - intros [| |k0] Hne; [done..|]. unfold holds. cbn. rewrite (worker_holds _ _ _ _ _ _ Hk).
    by rewrite decide_False by congruence.
  - assert (holds s (Worker k) ↔ worker_inside p = true) as E1.
    { unfold holds. rewrite Hk. naive_solver. }
    assert (holds (set_worker k fd p' (set_open o (set_mutex m s))) (Worker k) ↔ worker_inside p' = true) as E2.
    { unfold holds. cbn. rewrite (worker_holds _ _ _ _ _ _ Hk). by rewrite decide_True. }
    cbn. rewrite E1, E2. destruct Hm as [[-> ->]|[(? & -> & ?)|(? & -> & ->)]]; [by left|by right; left|].
    right. right. by split_and!.
  - by apply (table_keep _ _ _ _ p).
  - intros k0 fd0 p0 Hk0 Hc0. destruct (decide (k0 = k)) as [->|Hne].
    + rewrite list_lookup_insert_eq in Hk0 by (by eapply lookup_lt_Some). simplify_eq.
      destruct (Hc1 Hc0) as [Hc ->]. by eapply H3.
    + rewrite list_lookup_insert_ne in Hk0 by done. destruct (H3 _ _ _ Hk0 Hc0) as [Ho Ha]. split; [|done].
      destruct (connected p) eqn:Ec; [|by rewrite Hc3].
      destruct (connected p') eqn:Ec'; [by destruct Hc1 as [_ ->]|]. rewrite Hc2 by done.
      assert (fd0 ≠ fd); [|set_solver]. intros ->.
      assert (_workers s !! fd = Some k) by (apply H2; exists p; split; [done|by destruct p]).
      assert (_workers s !! fd = Some k0) by (apply H2; exists p0; split; [done|by destruct p0]). congruence.
  - intros fd0 Ha. pose proof (H4 _ Ha) as Ho. destruct (connected p) eqn:Ec; [|by rewrite Hc3].
    destruct (connected p') eqn:Ec'; [by destruct Hc1 as [_ ->]|]. rewrite Hc2 by done.
    destruct (H3 _ _ _ Hk Ec) as [_ Hne]. assert (fd0 ≠ fd) by congruence. set_solver.
  - intros Hmn. destruct (H6 Hmn) as [?|(k0 & fd0 & Hk0)]; [by left|right]. exists k0, fd0.
    rewrite list_lookup_insert_ne; [done|]. intros ->. congruence.
  - intros k0 fd0 Hk0 Hs. destruct (decide (k0 = k)) as [->|Hne].
    + rewrite list_lookup_insert_eq in Hk0 by (by eapply lookup_lt_Some). simplify_eq.
      assert (stop_called (main s) = true) by (by destruct (main s)). rewrite Hrun in H7 by done. naive_solver.
    + rewrite list_lookup_insert_ne in Hk0 by done. by eapply H9.
Qed.

Lemma reading_insert (ws : list (nat * wpc)) k fd p' k0 fd0 :
  <[k := (fd, p')]> ws !! k0 = Some (fd0, reading) → p' ≠ reading → ws !! k0 = Some (fd0, reading).
Proof. intros [(-> & E & _)|[_ E]]%list_lookup_insert_Some Hp; [by simplify_eq|done]. Qed.

(** The loop of a worker. *)
Lemma processing_step_facts r p a p' : processing_step r p a = Some p' →
  registered p = true ∧ registered p' = true ∧ connected p = true ∧ connected p' = true ∧
  worker_inside p = false ∧ worker_inside p' = false ∧ p ≠ notify ∧ (p' = reading → r = true).
Proof. unfold processing_step. intros. by repeat (case_match; simplify_eq/=). Qed.

Lemma processing_ok s k fd p p' a : ok s → workers s !! k = Some (fd, p) →
  processing_step (running s) p a = Some p' → ok (set_worker k fd p' s).
Proof.
  intros Hok Hk E. destruct (processing_step_facts _ _ _ _ E) as (R & R' & C & C' & I & I' & Hn & Hr).
  assert (ok (set_worker k fd p' (set_open (open s) (set_mutex (_main_mutex s) s)))) as H; [|by destruct s].
  apply (worker_moves s k fd p p'); try done; try congruence. left. by rewrite I, I'.
Qed.

Lemma worker_ok k a s s' : ok s → worker_step k a s = Some s' → stopped s' = false → ok s'.
Proof.
  intros Hok E Hs. pose proof Hok as [H1 H2 H3 H4 H5 H6 H7 H8 H9]. unfold worker_step in E.
  destruct (workers s !! k) as [[fd p]|] eqn:Hk; [|done]. cbn in E.
  assert (∀ p' m o, set_worker k fd p' (set_open o (set_mutex m s)) = set_worker k fd p' (set_mutex m (set_open o s))) as Hcomm by done.
  destruct p; try done.
  1-5: by destruct (processing_step (running s) _ a) as [p'|] eqn:Ep; [injection E as <-; eapply processing_ok|].
  - injection E as <-. apply (ok_set_shut (shut s ∖ {[fd]})) in Hok as Hok1.
    + eapply (worker_moves _ k fd closing erase_lock (_main_mutex s) (open s ∖ {[fd]})) in Hok1; try done; by left.
    + intros k0 fd0 Hk0 Hs0. pose proof (H9 _ _ Hk0 Hs0). assert (k ≠ k0) by congruence.
      pose proof (sockets_differ s k k0 fd fd0 _ _ Hok Hk Hk0 eq_refl eq_refl). set_solver.
  - destruct (acquire (Worker k) s) as [s1|] eqn:E1; [|done]. apply acquire_run in E1 as [Hm ->]. injection E as <-.
    eapply (worker_moves s k fd erase_lock erase (Some (Worker k)) (open s)) in Hok; try done; by right; left.
  - destruct (_workers s !! fd) as [k'|] eqn:Et; injection E as <-; [|by unfold stopped in Hs; cbn in Hs; rewrite orb_true_r in Hs].
    split; [apply (mutex_step s _ (Worker k)); [done| |]|cbn; try done..].
    + intros [| |k0] Hne; [done..|]. unfold holds. cbn. rewrite (worker_holds _ _ _ _ _ _ Hk). by rewrite decide_False by congruence.
    + left. split; [done|]. unfold holds. cbn. rewrite (worker_holds _ _ _ _ _ _ Hk), decide_True, Hk by done. naive_solver.
    + by apply (table_erase _ _ _ _ erase).
    + intros k0 fd0 p0 Hk0 Hc0. destruct (decide (k0 = k)) as [->|Hne].
      * rewrite list_lookup_insert_eq in Hk0 by (by eapply lookup_lt_Some). by simplify_eq.
      * rewrite list_lookup_insert_ne in Hk0 by done. by eapply H3.
    + intros Hr. specialize (H5 Hr). rewrite map_size_delete_Some by (by eexists). lia.
    + intros Hmn. right. exists k, fd. by rewrite list_lookup_insert_eq by (by eapply lookup_lt_Some).
    + intros k0 fd0 Hk0%reading_insert Hs0; [|done]. by eapply H9.
  - injection E as <-.
    assert (∃ m, (if decide (size (_workers s) = 0) then notify_one s else s) = set_main m s ∧
      main_inside m = main_inside (main s) ∧ stop_called m = stop_called (main s) ∧ stopping m = stopping (main s) ∧ sockets_shut m = sockets_shut (main s) ∧ (m = join_wait → size (_workers s) ≠ 0))
      as (m & -> & Hin & Hst' & Hst & Hsh & Hw).
    { destruct (decide _); [|exists (main s); split_and!; [by destruct s|done..]].
      exists (match main s with join_wait => join_lock | m => m end). split; [|by destruct (main s)].
      destruct s as [????????? m ??]. by destruct m. }
    split; [apply (mutex_step s _ (Worker k)); [done| |]|cbn; try done..].
    + intros [| |k0] Hne; unfold holds; cbn; [done|by rewrite Hin|].
      rewrite (worker_holds _ _ _ _ _ _ Hk). by rewrite decide_False by congruence.
    + left. split; [done|]. unfold holds. cbn. rewrite (worker_holds _ _ _ _ _ _ Hk), decide_True, Hk by done. naive_solver.
    + by apply (table_keep _ _ _ _ notify).
    + intros k0 fd0 p0 Hk0 Hc0. destruct (decide (k0 = k)) as [->|Hne].
      * rewrite list_lookup_insert_eq in Hk0 by (by eapply lookup_lt_Some). by simplify_eq.
      * rewrite list_lookup_insert_ne in Hk0 by done. by eapply H3.
    + intros Hmn. left. by apply Hw.
    + by rewrite Hst'.
    + by rewrite Hst.
    + intros k0 fd0 Hk0%reading_insert Hs0; [|done]. apply (H9 _ _ Hk0). by rewrite <-Hsh.
  - injection E as <-.
    eapply (worker_moves s k fd erase_unlock finished None (open s)) in Hok; try done. by right; right.
Qed.

Lemma main_ok s s' : ok s → main_step s = Some s' → ok s'.
Proof.
  intros [H1 H2 H3 H4 H5 H6 H7 H8 H9] E. unfold main_step in E.
  assert (∀ s', workers s' = workers s → acceptor s' = acceptor s → ∀ o, o ≠ Application → holds s' o ↔ holds s o) as Hoth.
  { intros s1 E1 E2 [| |k] ?; unfold holds; rewrite ?E1, ?E2; done. }
  destruct (main s) eqn:Em; try done.
  all: try (destruct (acquire Application s) as [s1|] eqn:E1; [|done]; apply acquire_run in E1 as [Hm ->]).
  all: try (destruct (decide _) as [Hsize|Hsize]).
  all: try (destruct (acceptor s) eqn:Ea; try discriminate E; [idtac]).
  all: try injection E as <-; split; [apply (mutex_step s _ Application); [done|by apply Hoth|]|cbn; try done..].
  all: try (left; unfold holds; cbn; by rewrite Em).
  all: try (right; left; by unfold holds; cbn).
  all: try (right; right; unfold holds; cbn; by rewrite Em).
  all: try (intros _; by destruct (H7 eq_refl)).
  - intros k fd Hk _. assert (_workers s !! fd = Some k) as Hfd by (apply H2; eauto).
    destruct (H3 _ _ _ Hk eq_refl) as [Ho _]. apply elem_of_union_r, elem_of_intersection. split; [|done].
    apply elem_of_dom. eauto.
  - by left.
  - by rewrite Ea.
  - by rewrite Ea.
Qed.

Lemma started_ok max : ok (Server_started max).
Proof.
  split; cbn; try done.
  - by intros [| |k]; unfold holds; cbn; naive_solver.
  - intros fd k. rewrite lookup_empty. naive_solver.
  - rewrite map_size_empty. lia.
Qed.

Lemma step_ok l s s' : ok s → step l s = Some s' → stopped s' = false → ok s'.
Proof.
  intros Hok E Hs. unfold step in E. destruct (terminated s || undefined s); [done|]. destruct l as [r|k a| |].
  - by eapply acceptor_ok.
  - by eapply worker_ok.
  - by eapply main_ok.
  - destruct Hok as [H1 H2 H3 H4 H5 H6 H7 H8 H9]. destruct (main s) eqn:Em; try done. injection E as <-.
    split; [apply (mutex_step s _ Application); [done|by intros []|]|cbn; try done..].
    left. unfold holds; cbn. by rewrite Em.
Qed.

(** No step uses an iterator at the end. *)
Lemma step_defined l s s' : ok s → step l s = Some s' → undefined s' = false.
Proof.
  intros [H1 H2 H3 H4 H5 H6 H7 H8 H9] E. unfold step in E. destruct (terminated s); [done|]. destruct (undefined s) eqn:Eu; [done|].
  destruct l as [r|k a| |].
  - unfold acceptor_step, acquire, emplace in E. repeat case_match; simplify_eq/=; done.
  - unfold worker_step, acquire, notify_one in E. destruct (workers s !! k) as [[fd p]|] eqn:Hk; [|done]. cbn in E.
    destruct p; repeat case_match; try (apply bind_Some in E as (p' & _ & E)); simplify_eq/=; try done.
    assert (_workers s !! fd = Some k) by (apply H2; eauto). congruence.
  - unfold main_step, acquire in E. repeat case_match; simplify_eq/=; done.
  - repeat case_match; simplify_eq/=; done.
Qed.

(** A run that has not ended in std::terminate. *)
Lemma run_ok ls : ∀ s s', ok s → undefined s = false → run ls s = Some s' →
  undefined s' = false ∧ (terminated s' = false → ok s').
Proof.
  induction ls as [|l ls IH]; intros s s' Hok Hu E; cbn in E.
  - injection E as <-. done.
  - destruct (step l s) as [s1|] eqn:E1; [|done]. cbn in E. pose proof (step_defined l s s1 Hok E1) as Hu1.
    destruct (terminated s1) eqn:Et1.
    + destruct ls as [|l' ls]; [injection E as <-; by rewrite Et1|]. cbn in E. unfold step in E. by rewrite Et1 in E.
    + apply (IH s1); [|done..]. apply (step_ok l s); [done..|]. unfold stopped. by rewrite Et1, Hu1.
Qed.

Lemma step_max l s s' : step l s = Some s' → _max_connections s' = _max_connections s.
Proof.
  unfold step, acceptor_step, worker_step, main_step, acquire, emplace, notify_one. intros E.
  destruct (terminated s || undefined s); [done|]. destruct l as [r|k a| |]; [|destruct (workers s !! k) as [[fd p]|]; [cbn in E|done]|..].
  all: repeat case_match; try (apply bind_Some in E as (p' & _ & E)); simplify_eq/=; done.
Qed.

Lemma run_max ls : ∀ s s', run ls s = Some s' → _max_connections s' = _max_connections s.
Proof.
  induction ls as [|l ls IH]; intros s s' E; cbn in E; [by injection E as <-|].
  destruct (step l s) as [s1|] eqn:E1; [|done]. rewrite (IH _ _ E). by eapply step_max.
Qed.

Lemma run_app ls ls' s : run (ls ++ ls') s = run ls s ≫= run ls'.
Proof. revert s. induction ls as [|l ls IH]; intros s; cbn; [done|]. destruct (step l s); cbn; [apply IH|done]. Qed.

(** ** Termination *)

Definition acceptor_weight (a : apc) : nat :=
  match a with
  | ended => 0 | run_test => 1 | accept_call => 2 | accept_unlock => 2
  | accept_check _ => 12 | accept_lock _ => 13
  end.
Definition worker_weight (p : wpc) : nat :=
  match p with
  | inner _ => 12 | sending _ => 11 | reading => 11 | inner_test _ => 10 | loop_test => 9 | closing => 8 | erase_lock => 7 | erase => 6 | notify => 5 | erase_unlock => 1 | finished => 0
  end.
Definition main_weight (m : mpc) : nat :=
  match m with
  | serving => 11 | stop_running => 10 | stop_listener => 9 | stop_lock => 8 | stop_shutdown => 7 | stop_unlock => 6
  | join_lock => 5 | join_test => 4 | join_wait => 3 | join_unlock => 3 | join_thread => 2 | joined => 0
  end.
Definition weight (s : Server) : nat :=
  acceptor_weight (acceptor s) + sum_list_with (λ w, worker_weight w.2) (workers s) + main_weight (main s).

Lemma weight_insert (ws : list (nat * wpc)) k fd p p' : ws !! k = Some (fd, p) →
  sum_list_with (λ w, worker_weight w.2) (<[k := (fd, p')]> ws) + worker_weight p =
  sum_list_with (λ w, worker_weight w.2) ws + worker_weight p'.
Proof.
  revert k. induction ws as [|w ws IH]; intros [|k] H; simplify_eq/=; [lia|]. specialize (IH _ H). lia.
Qed.

(** Once [running] is false the loop of a worker goes on towards its end. *)
Lemma processing_weight p a p' : processing_step false p a = Some p' → worker_weight p' < worker_weight p.
Proof. unfold processing_step. cbn. intros. repeat (case_match; simplify_eq/=; try lia). Qed.

(** Once the application stops the server every step but a spurious wake-up takes it
    closer to the end. *)
Lemma step_weight l s s' : ok s → running s = false → listening s = false → l ≠ Spurious →
  step l s = Some s' → weight s' < weight s.
Proof.
  intros Hok Hr Hl Hn E. unfold step in E. destruct (terminated s || undefined s) eqn:Et; [done|]. destruct l as [r|k a| |]; [..|done].
  - unfold acceptor_step, acquire, emplace in E. rewrite Hr, Hl in E. unfold weight.
    destruct (acceptor s) eqn:Ea; repeat case_match; simplify_eq/=; try lia.
    all: rewrite sum_list_with_app; cbn; lia.
  - unfold worker_step, acquire in E. destruct (workers s !! k) as [[fd p]|] eqn:Hk; [|done]. cbn in E. unfold weight.
    pose proof (λ p', weight_insert _ k fd _ p' Hk) as Hw.
    destruct p.
    1-5: apply bind_Some in E as (p' & Ep & [= <-]); rewrite Hr in Ep; pose proof (Hw p') as Hw';
      pose proof (processing_weight _ _ _ Ep); cbn in *; lia.
    + injection E as <-. pose proof (Hw erase_lock). cbn in *. lia.
    + destruct (_main_mutex s); [done|]. injection E as <-. pose proof (Hw erase). cbn in *. lia.
    + assert (_workers s !! fd = Some k) as Hfd by (apply (ok_table s Hok); eauto). rewrite Hfd in E. injection E as <-.
      pose proof (Hw notify). cbn in *. lia.
    + injection E as <-. pose proof (Hw erase_unlock).
      destruct (decide _); [unfold notify_one; destruct (main s) eqn:Em|]; cbn in *; rewrite ?Em; cbn; lia.
    + injection E as <-. pose proof (Hw finished). cbn in *. lia.
    + done.
  - unfold main_step, acquire in E. unfold weight.
    destruct (main s) eqn:Em; repeat case_match; simplify_eq/=; try lia.
    match goal with H : acceptor s = ended |- _ => rewrite H end. cbn. lia.
Qed.

Lemma stopping_called m : stopping m = true → stop_called m = true.
Proof. by destruct m. Qed.

Lemma step_stopping l s s' : step l s = Some s' → stopping (main s) = true → stopping (main s') = true.
Proof.
  unfold step, acceptor_step, worker_step, main_step, acquire, emplace, notify_one. intros E Hs.
  destruct (terminated s || undefined s); [done|]. destruct l as [r|k a| |]; [|destruct (workers s !! k) as [[fd p]|]; [cbn in E|done]|..].
  all: repeat case_match; try (apply bind_Some in E as (p' & _ & E)); simplify_eq/=; try done.
  all: by match goal with H : main _ = _ |- _ => rewrite H end.
Qed.

Lemma run_weight ls : ∀ s s', ok s → undefined s = false → stopping (main s) = true → Spurious ∉ ls →
  run ls s = Some s' → length ls + weight s' ≤ weight s ∧ stopping (main s') = true.
Proof.
  induction ls as [|l ls IH]; intros s s' Hok Hu Hst Hsp E; cbn in E; [injection E as <-; cbn; auto|].
  destruct (step l s) as [s1|] eqn:E1; [|done]. cbn in E. apply not_elem_of_cons in Hsp as [Hl Hsp].
  pose proof (step_weight l s s1 Hok (ok_running s Hok (stopping_called _ Hst)) (ok_listening s Hok Hst) (not_eq_sym Hl) E1) as Hw.
  pose proof (step_stopping _ _ _ E1 Hst) as Hst1. pose proof (step_defined l s s1 Hok E1) as Hu1.
  destruct (terminated s1) eqn:Et1.
  - destruct ls as [|l' ls]; [injection E as <-; cbn; split; [lia|done]|]. cbn in E. unfold step in E. by rewrite Et1 in E.
  - assert (ok s1) as Hok1 by (apply (step_ok l s); [done..|]; unfold stopped; by rewrite Et1, Hu1).
    destruct (IH s1 s' Hok1 Hu1 Hst1 Hsp E). cbn. split; [lia|done].
Qed.

(** Steps that need neither a client nor the time-out of [read]: a read from a socket that
    was shut down returns 0, the others may wait for ever, and so may [send]; [accept]
    returns by itself only when the listening socket was shut down. *)
Definition prompt (s : Server) (l : label) : Prop :=
  match l with
  | ByAcceptor None => acceptor s = accept_call → listening s = false
  | ByAcceptor (Some _) => acceptor s ≠ accept_call
  | ByWorker k a =>
      match workers s !! k with
      | Some (fd, reading) => fd ∈ shut s ∧ a = End
      | Some (_, sending _) => False
      | _ => True
      end
  | ByMain => True
  | Spurious => False
  end.

(** A worker that waits for its client to take a reply. *)
Definition waits_to_send (w : nat * wpc) : Prop := match w.2 with sending _ => True | _ => False end.
#[export] Instance waits_to_send_dec w : Decision (waits_to_send w).
Proof. unfold waits_to_send. destruct (w.2); apply _. Defined.

(** A worker that cannot go on by itself has finished or sends, once the sockets are shut. *)
Lemma worker_stuck s k fd p : ok s → _main_mutex s = None → sockets_shut (main s) = true →
  workers s !! k = Some (fd, p) → (∀ a, prompt s (ByWorker k a) → worker_step k a s = None) →
  p = finished ∨ waits_to_send (fd, p).
Proof.
  intros Hok Hfree Hsh Hk Hw. unfold worker_step, acquire, prompt in Hw. rewrite Hk, Hfree in Hw. cbn in Hw.
  destruct p as [| |n|n|n| | | | | |]; try (by right); try (by left); try by specialize (Hw Break I).
  - pose proof (ok_shut s Hok k fd Hk Hsh). by specialize (Hw End ltac:(done)).
  - specialize (Hw Break I). by case_match.
Qed.

(** Nothing happens any more by itself: [Join] has returned, unless a worker waits for its
    client to take a reply. *)
Lemma stuck_joined s : ok s → stopped s = false → stopping (main s) = true →
  (∀ l, prompt s l → step l s = None) → main s = joined ∨ Exists waits_to_send (workers s).
Proof.
  intros Hok Hs Hst Hstuck. pose proof Hok as [H1 H2 H3 H4 H5 H6 H7 H8 H9].
  assert (∀ l, prompt s l → match l with
    | ByAcceptor r => acceptor_step r s | ByWorker k a => worker_step k a s | ByMain => main_step s | Spurious => None end = None) as Hall.
  { intros l Hl. specialize (Hstuck l Hl). unfold step in Hstuck. unfold stopped in Hs. rewrite Hs in Hstuck. by destruct l. }
  pose proof (Hall (ByAcceptor None) (λ _, H8 Hst)) as Ha. pose proof (Hall ByMain I) as Hm. cbn in Ha, Hm.
  assert (_main_mutex s = None) as Hfree.
  { destruct (_main_mutex s) as [o|] eqn:E; [|done]. pose proof (proj2 (H1 o) eq_refl) as Eo. destruct o as [| |k]; unfold holds in Eo.
    - unfold acceptor_step in Ha. by destruct (acceptor s).
    - unfold main_step in Hm. destruct (main s); try done. by case_decide.
    - destruct Eo as (fd & p & Hk & Hp). pose proof (Hall (ByWorker k Break)) as Hw. unfold prompt, worker_step in Hw. rewrite Hk in Hw.
      cbn in Hw. destruct p; try done; specialize (Hw I); by try case_match. }
  assert (acceptor s = ended) as Hae.
  { unfold acceptor_step, acquire in Ha. rewrite Hfree in Ha. by destruct (acceptor s). }
  unfold main_step, acquire in Hm. rewrite Hfree, Hae in Hm.
  assert (main s = joined ∨ main s = join_wait) as [?|Em]; [|by left|].
  { destruct (main s) eqn:Em; try done; [by case_decide|by right|by left]. }
  destruct (decide (Exists waits_to_send (workers s))) as [?|Hno]; [by right|]. exfalso.
  assert (∀ k fd p, workers s !! k = Some (fd, p) → p = finished) as Hfin.
  { intros k fd p Hk. destruct (worker_stuck s k fd p Hok Hfree) as [?|Hw]; [by rewrite Em|done| |done|].
    - intros a. apply (Hall (ByWorker k a)).
    - destruct Hno. apply Exists_exists. exists (fd, p). split; [by eapply list_elem_of_lookup_2|done]. }
  destruct (H6 Em) as [Hne|(k & fd & Hk)]; [|by apply Hfin in Hk]. apply Hne.
  apply map_size_empty_iff, map_empty. intros fd. apply eq_None_not_Some. intros [k Hk].
  apply H2 in Hk as (p & Hk & Hp). apply Hfin in Hk. by subst p.
Qed.

(** ** Properties *)

(** C17: Whatever the threads of the server do: the table holds exactly the workers that have
    not erased themselves, each under its socket, so that no worker misses its entry; the
    mutex excludes; and there are never more workers than [_max_connections].  The
    process is terminated only when the acceptor gets the descriptor of a worker
    that has closed it and not erased itself. *)
Theorem mt_workers_table max ls s :
  run ls (Server_started max) = Some s →
  undefined s = false ∧
  (terminated s = false →
    (∀ fd k, _workers s !! fd = Some k ↔ ∃ p, workers s !! k = Some (fd, p) ∧ registered p = true) ∧
    (∀ o o', holds s o → holds s o' → o = o') ∧
    (0 ≤ max < 2 ^ 31 → Z.of_nat (size (_workers s)) ≤ max)%Z ∧
    (∀ l s', step l s = Some s' → terminated s' = true →
      ∃ fd k p, acceptor s = accept_check fd ∧ workers s !! k = Some (fd, p) ∧ (p = erase_lock ∨ p = erase))).
Proof.
  intros Hr. destruct (run_ok ls _ _ (started_ok max) eq_refl Hr) as [Hu Hok]. split; [done|]. intros Ht.
  pose proof (Hok Ht) as [H1 H2 H3 H4 H5 H6 H7 H8 H9]. split_and!; [done| | |].
  - intros o o' Ho%H1 Ho'%H1. congruence.
  - intros Hm. rewrite (run_max _ _ _ Hr) in H5. by apply H5.
  - intros l s' E Ht'. unfold step in E. rewrite Ht, Hu in E. cbn in E. destruct l as [r|k a| |].
    + unfold acceptor_step, acquire, emplace in E. destruct (acceptor s) as [| |fd|fd| |] eqn:Ea.
      4: { destruct (wrap64 _ <=? _)%Z; [injection E as <-; cbn in Ht'; congruence|].
           destruct (_workers s !! fd) as [k|] eqn:Ek; [|injection E as <-; cbn in Ht'; congruence].
           apply H2 in Ek as (p & Hk & Hp). exists fd, k, p. split_and!; [done..|].
           destruct p; try done; [by destruct (H3 k fd _ Hk eq_refl)..|by left|by right]. }
      all: repeat case_match; simplify_eq/=; congruence.
    + unfold worker_step, acquire, notify_one in E. destruct (workers s !! k) as [[fd p]|]; [|done]. cbn in E.
      repeat case_match; try (apply bind_Some in E as (p' & _ & E)); simplify_eq/=; congruence.
    + unfold main_step, acquire in E. repeat case_match; simplify_eq/=; congruence.
    + repeat case_match; simplify_eq/=; congruence.
Qed.

(** Two connections, the second on the descriptor that the first worker has just closed. *)
Definition reuse_schedule : list label :=
  [ByAcceptor None; ByAcceptor (Some 5)] ++ replicate 3 (ByAcceptor None) ++
  [ByWorker 0 Break; ByWorker 0 End; ByWorker 0 Break] ++
  [ByAcceptor None; ByAcceptor (Some 5)] ++ replicate 2 (ByAcceptor None).

(** A connection that is accepted before [Stop] and handed over after it. *)
Definition late_schedule : list label :=
  [ByAcceptor None; ByAcceptor (Some 5)] ++ replicate 9 ByMain ++ replicate 4 (ByAcceptor None) ++ [ByMain].

(** The server can be terminated while it serves, by a client that connects while another
    leaves; and [Join] can return while a worker serves a connection. *)
Lemma mt_blocking_errors :
  (∃ s, run reuse_schedule (Server_started 7) = Some s ∧ terminated s = true ∧ main s = serving) ∧
  (∃ s, run late_schedule (Server_started 7) = Some s ∧ terminated s = false ∧ main s = joined ∧
    workers s = [(5, loop_test)]).
Proof.
  split.
  - destruct (run reuse_schedule (Server_started 7)) as [s|] eqn:E; [|by vm_compute in E].
    exists s. split; [done|]. vm_compute in E. by simplify_eq.
  - destruct (run late_schedule (Server_started 7)) as [s|] eqn:E; [|by vm_compute in E].
    exists s. split; [done|]. vm_compute in E. by simplify_eq.
Qed.

Lemma mt_workers_table_witness :
  ∃ s, run (take 5 reuse_schedule) (Server_started 7) = Some s ∧ workers s = [(5, loop_test)] ∧ _workers s !! 5 = Some 0.
Proof.
  destruct (run (take 5 reuse_schedule) (Server_started 7)) as [s|] eqn:E; [|by vm_compute in E].
  exists s. split; [done|]. assert (workers s = [(5, loop_test)] ∧ terminated s = false) as [Ew Et].
  { vm_compute in E. by simplify_eq. }
  split; [done|]. destruct (mt_workers_table 7 _ s E) as [_ H]. apply (proj1 (H Et)). exists loop_test. by rewrite Ew.
Defined.

(** C10: After [Stop] the server comes to an end: without spurious wake-ups the number of
    steps is bounded, and when no step is left but those of a client or of a time-out,
    [Join] has returned, or the process was terminated, or a worker waits in [send] for a
    client that does not take its reply: the workers that wait in [read] for clients that
    send nothing get the end of the input from the shutdown of their sockets, no
    notification is lost, and the acceptor leaves [accept]. *)
Theorem join_returns max ls s :
  run ls (Server_started max) = Some s → terminated s = false → stopping (main s) = true →
  ∃ n, ∀ ls' s', Spurious ∉ ls' → run ls' s = Some s' →
    length ls' ≤ n ∧
    ((∀ l, prompt s' l → step l s' = None) →
     main s' = joined ∨ terminated s' = true ∨ Exists waits_to_send (workers s')).
Proof.
  intros Hr Ht Hst. destruct (run_ok ls _ _ (started_ok max) eq_refl Hr) as [Hu Hok]. specialize (Hok Ht).
  exists (weight s). intros ls' s' Hsp Hr'. destruct (run_weight ls' s s' Hok Hu Hst Hsp Hr') as [Hlen Hst'].
  split; [lia|]. intros Hstuck. destruct (terminated s') eqn:Et; [by right; left|].
  destruct (run_ok ls' s s' Hok Hu Hr') as [Hu' Hok']. destruct (stuck_joined s'); auto.
  unfold stopped. by rewrite Et, Hu'.
Qed.

(** [Stop] with one worker, that reads from a client that is silent, and the steps that remain. *)
Definition stop_schedule : list label := take 6 reuse_schedule ++ replicate 8 ByMain.
Definition end_schedule : list label := replicate 6 (ByWorker 0 End) ++ replicate 3 ByMain ++ [ByAcceptor None; ByMain].

(** A worker that has a request when the server stops, and whose client takes no reply. *)
Definition send_schedule : list label :=
  take 6 reuse_schedule ++ [ByWorker 0 (Data 7); ByWorker 0 Break; ByWorker 0 (Replies 0)] ++ replicate 8 ByMain ++ [ByAcceptor None].

Lemma join_returns_witness :
  ∃ s s', run stop_schedule (Server_started 7) = Some s ∧ main s = join_wait ∧
    run end_schedule s = Some s' ∧ main s' = joined ∧ ∃ n, ∀ ls' s', Spurious ∉ ls' → run ls' s = Some s' → length ls' ≤ n.
Proof.
  destruct (run stop_schedule (Server_started 7)) as [s|] eqn:E; [|by vm_compute in E].
  assert (main s = join_wait ∧ terminated s = false ∧ ∃ s', run end_schedule s = Some s' ∧ main s' = joined) as (Em & Et & s' & E' & Ej).
  { vm_compute in E. simplify_eq. split_and!; [done..|]. eexists. by split; [vm_compute|]. }
  exists s, s'. split_and!; [done..|].
  assert (stopping (main s) = true) as Hst by (by rewrite Em).
  destruct (join_returns 7 _ s E Et Hst) as [n Hn]. exists n. intros ls' s'' H1 H2. by apply (Hn ls' s'').
Defined.

(** [Join] waits as long as a client does not take its reply. *)
Example send_holds_join :
  ∃ s, run send_schedule (Server_started 7) = Some s ∧ main s = join_wait ∧ acceptor s = ended ∧ workers s = [(5, sending 0)].
Proof.
  destruct (run send_schedule (Server_started 7)) as [s|] eqn:E; [|by vm_compute in E].
  exists s. split; [done|]. vm_compute in E. by simplify_eq.
Qed.
