(* ===== verification/MtEpoll.v ===== *)
(** * The threads of the multithreaded non-blocking server

    Model of src/sysprog/afina/src/network/mt_nonblocking: the acceptors
    ([ServerImpl::OnRun]), the workers ([Worker::OnRun]) and [ServerImpl::Stop], interleaved
    over the connections, the table that owns them and the epoll descriptor that hands them
    to the workers once (EPOLLONESHOT).  What a worker does with the bytes of a connection
    is the subject of [Network] and [Servers]; here the handler may leave the connection
    alive or not. *)

From S2P Require Import Prelude Concur.

(** ** State *)

(** Address of a connection. *)
Abbreviation loc := positive.

(** [Worker::OnRun]; [es] is the rest of [mod_list], in which the null pointer is that of
    the event descriptor. *)
Inductive wpc : Type :=
| w_test                                        (* while (isRunning) *)
| w_wait                                        (* epoll_wait *)
| w_batch (es : list (option loc))              (* the head of the loop over the events *)
| w_handle (l : loc) (es : list (option loc))   (* OnError, OnClose, DoRead, DoWrite *)
| w_rearm (l : loc) (alive : bool) (es : list (option loc))  (* before epoll_ctl *)
| w_error (l : loc) (es : list (option loc))    (* after a failing EPOLL_CTL_MOD *)
| w_delete (l : loc) (es : list (option loc))   (* before delete pconn *)
| w_gone.

(** What an acceptor's epoll reports. *)
Inductive listen_event : Type := StopSignal | Listening.

(** [ServerImpl::OnRun] *)
Inductive apc : Type :=
| a_wait                                                         (* epoll_wait *)
| a_batch (es : list listen_event) (run : bool)
| a_accept (es : list listen_event) (run : bool)                 (* accept4 *)
| a_add (l : loc) (fd : nat) (es : list listen_event) (run : bool)     (* before EPOLL_CTL_ADD *)
| a_insert (l : loc) (fd : nat) (es : list listen_event) (run : bool)  (* before the insertion *)
| a_drop (l : loc) (es : list listen_event) (run : bool)         (* OnError, delete *)
| a_gone.

#[export] Instance listen_event_eq_dec : EqDecision listen_event.
Proof. solve_decision. Defined.
#[export] Instance wpc_eq_dec : EqDecision wpc.
Proof. solve_decision. Defined.
#[export] Instance apc_eq_dec : EqDecision apc.
Proof. solve_decision. Defined.

(** [Stop] *)
Inductive spc : Type :=
| serving
| stop_workers (k : nat)        (* before w.Stop() of worker k *)
| stop_write                    (* before eventfd_write *)
| stop_failed
| stop_free (ls : list loc)     (* the loop over _connections *)
| stopped.

(** [heap] maps a connection to its socket; [interest] is the list of [_data_epoll_fd], by
    socket: the pointer and whether it is armed. *)
Record Server : Type := mk_server {
  heap : gmap loc nat;
  fresh_loc : loc;
  interest : gmap nat (loc * bool);
  signalled : bool;
  _connections : gmap nat loc;
  isRunning : list bool;
  workers : list wpc;
  acceptors : list apc;
  app : spc;
}.

(** After [Start]. *)
Definition Server_started (n_acceptors n_workers : nat) : Server :=
  mk_server ∅ 1 ∅ false ∅ (replicate n_workers true) (replicate n_workers w_test)
    (replicate n_acceptors a_wait) serving.

Definition set_objects h r s := mk_server h (fresh_loc s) r (signalled s) (_connections s) (isRunning s) (workers s) (acceptors s) (app s).
Definition set_table t s := mk_server (heap s) (fresh_loc s) (interest s) (signalled s) t (isRunning s) (workers s) (acceptors s) (app s).
Definition set_worker i w s := mk_server (heap s) (fresh_loc s) (interest s) (signalled s) (_connections s) (isRunning s) (<[i := w]> (workers s)) (acceptors s) (app s).
Definition set_acceptor j a s := mk_server (heap s) (fresh_loc s) (interest s) (signalled s) (_connections s) (isRunning s) (workers s) (<[j := a]> (acceptors s)) (app s).
Definition set_app a s := mk_server (heap s) (fresh_loc s) (interest s) (signalled s) (_connections s) (isRunning s) (workers s) (acceptors s) a.
Definition set_stop r b s := mk_server (heap s) (fresh_loc s) (interest s) b (_connections s) r (workers s) (acceptors s) (app s).

(** ** Steps *)

(** What a system call or a handler answers in a step. *)
Inductive answer : Type :=
| Go
| Reported (es : list (option loc))
| ListenReported (es : list listen_event)
| Accepted (r : option nat)
| Handled (alive : bool)
| Ctl (ok : bool).

Abbreviation next := (attempt Server).

(** The size of [mod_list]. *)
Definition mod_size : nat := 64.

(** The connections that are armed. *)
Definition armed (r : gmap nat (loc * bool)) : list loc :=
  omap (λ x : nat * (loc * bool), if x.2.2 then Some x.2.1 else None) (map_to_list r).

(** [epoll_wait] on [_data_epoll_fd] reports armed connections and, after the write to it, the event
    descriptor, each at most once and at least one; it disarms those it reports. *)
Definition reportable (s : Server) (es : list (option loc)) : bool :=
  negb (bool_decide (es = [])) && (length es <=? mod_size) && bool_decide (NoDup es) &&
  forallb (λ x, match x with None => signalled s | Some l => bool_decide (l ∈ armed (interest s)) end) es.
Definition disarm (es : list (option loc)) (r : gmap nat (loc * bool)) : gmap nat (loc * bool) :=
  (λ x : loc * bool, (x.1, x.2 && negb (bool_decide (Some x.1 ∈ es)))) <$> r.

(** An acceptor's own epoll reports all of the two descriptors that are ready: after the write the
    stop signal is. *)
Definition listen_reportable (s : Server) (es : list listen_event) : bool :=
  negb (bool_decide (es = [])) && bool_decide (NoDup es) && eqb (bool_decide (StopSignal ∈ es)) (signalled s).

(** [delete pc]: the destructor closes the socket, and with it its registration. *)
Definition delete_conn (l : loc) (s : Server) (k : Server → Server) : next :=
  match heap s !! l with
  | None => Undefined DoubleFree
  | Some fd => Next (k (set_objects (delete l (heap s)) (delete fd (interest s)) s))
  end.

(** A use of a connection. *)
Definition use_conn (l : loc) (s : Server) (k : nat → next) : next :=
  match heap s !! l with None => Undefined UseAfterFree | Some fd => k fd end.

(** A step of worker [i]. *)
Definition worker_step (i : nat) (a : answer) (s : Server) : next :=
  match workers s !! i, a with
  | Some w_test, Go =>
      Next (set_worker i (if default false (isRunning s !! i) then w_wait else w_gone) s)
  | Some w_wait, Reported es =>
      if reportable s es then Next (set_worker i (w_batch es) (set_objects (heap s) (disarm es (interest s)) s)) else Blocked
  | Some (w_batch []), Go => Next (set_worker i w_test s)
  | Some (w_batch (None :: es)), Go => Next (set_worker i (w_batch es) s)
  | Some (w_batch (Some l :: es)), Go => Next (set_worker i (w_handle l es) s)
  | Some (w_handle l es), Handled alive => use_conn l s (λ _, Next (set_worker i (w_rearm l alive es) s))
  | Some (w_rearm l true es), Ctl ok =>
      use_conn l s (λ fd,
        if ok && bool_decide (is_Some (interest s !! fd))
        then Next (set_worker i (w_batch es) (set_objects (heap s) (<[fd := (l, true)]> (interest s)) s))
        else Next (set_worker i (w_error l es) s))
  | Some (w_rearm l false es), Ctl ok =>
      use_conn l s (λ fd,
        Next (set_worker i (w_delete l es) (if ok : bool then set_objects (heap s) (delete fd (interest s)) s else s)))
  | Some (w_error l es), Go => use_conn l s (λ _, Next (set_worker i (w_delete l es) s))
  | Some (w_delete l es), Go => delete_conn l s (set_worker i (w_batch es))
  | _, _ => Blocked
  end.

(** A step of acceptor [j]. *)
Definition acceptor_step (j : nat) (a : answer) (s : Server) : next :=
  match acceptors s !! j, a with
  | Some a_wait, ListenReported es => if listen_reportable s es then Next (set_acceptor j (a_batch es true) s) else Blocked
  | Some (a_batch [] run), Go => Next (set_acceptor j (if run then a_wait else a_gone) s)
  | Some (a_batch (StopSignal :: es) _), Go => Next (set_acceptor j (a_batch es false) s)
  | Some (a_batch (Listening :: es) run), Go => Next (set_acceptor j (a_accept es run) s)
  | Some (a_accept es run), Accepted None => Next (set_acceptor j (a_batch es run) s)
  | Some (a_accept es run), Accepted (Some fd) =>
      (* the kernel returns a descriptor that is not open *)
      if bool_decide (fd ∈ (map_to_list (heap s)).*2) then Blocked
      else
        let l := fresh_loc s in
        Next (set_acceptor j (a_add l fd es run)
          (mk_server (<[l := fd]> (heap s)) (Pos.succ l) (interest s) (signalled s) (_connections s)
             (isRunning s) (workers s) (acceptors s) (app s)))
  | Some (a_add l fd es run), Ctl ok =>
      use_conn l s (λ _socket,
        if ok : bool
        then Next (set_acceptor j (a_insert l fd es run) (set_objects (heap s) (<[_socket := (l, true)]> (interest s)) s))
        else Next (set_acceptor j (a_drop l es run) s))
  | Some (a_insert l fd es run), Go =>
      (* under _acceptor_mutex; when the key is there, the pair is destroyed *)
      match _connections s !! fd with
      | None => Next (set_acceptor j (a_accept es run) (set_table (<[fd := l]> (_connections s)) s))
      | Some _ => delete_conn l s (set_acceptor j (a_accept es run))
      end
  | Some (a_drop l es run), Go => delete_conn l s (set_acceptor j (a_accept es run))
  | _, _ => Blocked
  end.

(** A step of [Stop]. *)
Definition app_step (a : answer) (s : Server) : next :=
  match app s, a with
  | serving, Go => Next (set_app (stop_workers 0) s)
  | stop_workers k, Go =>
      if k <? length (isRunning s)
      then Next (set_app (stop_workers (S k)) (set_stop (<[k := false]> (isRunning s)) (signalled s) s))
      else Next (set_app stop_write s)
  | stop_write, Ctl ok =>
      if ok : bool then Next (set_app (stop_free (map_to_list (_connections s)).*2) (set_stop (isRunning s) true s))
      else Next (set_app stop_failed s)
  | stop_free (l :: ls), Go => delete_conn l s (set_app (stop_free ls))
  | stop_free [], Go => Next (set_app stopped (set_table ∅ s))
  | _, _ => Blocked
  end.

Inductive label : Type := Worker (i : nat) (a : answer) | Acceptor (j : nat) (a : answer) | App (a : answer).

Definition step (e : label) (s : Server) : next :=
  match e with
  | Worker i a => worker_step i a s
  | Acceptor j a => acceptor_step j a s
  | App a => app_step a s
  end.

Definition run : list label → Server → next := run_labels step.

(** ** Who holds a connection *)

(** The connections in the hands of a worker, and those an acceptor is registering. *)
Definition held (w : wpc) : list loc :=
  match w with
  | w_batch es => omap id es
  | w_handle l es | w_rearm l _ es | w_error l es | w_delete l es => l :: omap id es
  | _ => []
  end.
Definition adding (a : apc) : list loc :=
  match a with a_add l _ _ _ | a_drop l _ _ => [l] | _ => [] end.
Definition holding (s : Server) : list loc := (acceptors s ≫= adding) ++ (workers s ≫= held).

(** The sockets an acceptor is about to enter into the table, and those that were accepted. *)
Definition pending (a : apc) : list nat :=
  match a with a_add _ fd _ _ | a_insert _ fd _ _ => [fd] | _ => [] end.
Definition accepted (es : list label) : list nat :=
  omap (λ e, match e with Acceptor _ (Accepted r) => r | _ => None end) es.

(** Has [Stop] not begun to destroy connections? *)
Definition before_free (s : Server) : Prop :=
  match app s with stop_free _ | stopped => False | _ => True end.

(** The connections and their registrations: [L] are those that somebody holds; every other
    is armed. *)
Record objects (h : gmap loc nat) (r : gmap nat (loc * bool)) (f : loc) (L : list loc) : Prop := mk_objects {
  o_nodup : NoDup L;
  o_live : ∀ l, l ∈ L → is_Some (h !! l);
  o_registered : ∀ fd l b, r !! fd = Some (l, b) → h !! l = Some fd ∧ (b = true → l ∉ L);
  o_all : ∀ l fd, h !! l = Some fd → l ∈ L ∨ r !! fd = Some (l, true);
  o_sockets : ∀ l l' fd, h !! l = Some fd → h !! l' = Some fd → l = l';
  o_fresh : ∀ l, is_Some (h !! l) → (l < f)%positive;
}.

#[export] Instance objects_proper h r f : Proper ((≡ₚ) ==> iff) (objects h r f).
Proof.
  assert (∀ L L', L ≡ₚ L' → objects h r f L → objects h r f L') as H.
  { intros L L' HL [H1 H2 H3 H4 H5 H6]. split; [by rewrite <-HL| | | |done..].
    - intros l. rewrite <-HL. apply H2.
    - intros fd l b. rewrite <-HL. apply H3.
    - intros l fd. rewrite <-HL. apply H4. }
  intros L L' HL. split; apply H; [done|by symmetry].
Qed.

Lemma objects_none f : objects ∅ ∅ f [].
Proof.
  split; [constructor|by intros l ?%not_elem_of_nil|..]; repeat intro; simplify_map_eq.
  match goal with H : is_Some _ |- _ => by destruct H end.
Qed.

Lemma armed_spec r l : l ∈ armed r ↔ ∃ fd, r !! fd = Some (l, true).
Proof.
  unfold armed. rewrite list_elem_of_omap. split.
  - intros ([fd [l' b]] & Hin & Hl). apply elem_of_map_to_list in Hin. cbn in Hl. destruct b; [|done]. simplify_eq. eauto.
  - intros [fd Hfd]. exists (fd, (l, true)). split; [by apply elem_of_map_to_list|done].
Qed.

(** Connections that epoll hands out. *)
Lemma objects_take h r f L es :
  NoDup es → (∀ l, Some l ∈ es → l ∈ armed r) → objects h r f L → objects h (disarm es r) f (omap id es ++ L).
Proof.
  intros Hnd Ha [H1 H2 H3 H4 H5 H6].
  assert (∀ l, l ∈ omap id es ↔ Some l ∈ es) as Hin.
  { intros l. rewrite list_elem_of_omap. split; [by intros (x & Hx & [= <-])|]. by exists (Some l). }
  assert (∀ l, Some l ∈ es → ∃ fd, r !! fd = Some (l, true)) as Hr by (intros l ?; by apply armed_spec, Ha).
  split; [| | | |done..].
  - apply NoDup_app. split_and!; [| |done].
    + clear -Hnd. induction Hnd as [|x es Hx _ IH]; [constructor|]. destruct x as [l|]; [|done]. cbn.
      constructor; [|done]. rewrite list_elem_of_omap. intros (y & Hy & [= ->]). done.
    + intros l Hl%Hin. destruct (Hr l Hl) as [fd Hfd]. by apply (H3 fd l true).
  - intros l [Hl%Hin|Hl]%elem_of_app; [|by apply H2]. destruct (Hr l Hl) as [fd Hfd]. destruct (H3 _ _ _ Hfd). eauto.
  - intros fd l b Hl. unfold disarm in Hl. rewrite lookup_fmap in Hl. destruct (r !! fd) as [[l' b']|] eqn:E; [|done].
    cbn in Hl. simplify_eq. destruct (H3 _ _ _ E) as [Hh Hb]. split; [done|]. intros [Hb' Hne]%andb_true_iff.
    rewrite elem_of_app, Hin. intros [?|?]; [|by apply Hb]. rewrite bool_decide_true in Hne by done. done.
  - intros l fd Hl. rewrite elem_of_app, Hin. destruct (H4 l fd Hl) as [?|Hr']; [by left; right|].
    destruct (decide (Some l ∈ es)); [by left; left|]. right. unfold disarm. rewrite lookup_fmap, Hr'. cbn.
    by rewrite bool_decide_false by done.
Qed.

(** A registration that arms the connection and lets it go. *)
Lemma objects_arm h r f L l fd :
  h !! l = Some fd → objects h r f (l :: L) → objects h (<[fd := (l, true)]> r) f L.
Proof.
  intros Hl [H1 H2 H3 H4 H5 H6]. apply NoDup_cons in H1 as [Hn H1]. split; [done| | | |done..].
  - intros l' Hl'. apply H2. by right.
  - intros fd' l' b Hr. destruct (decide (fd' = fd)) as [->|Hne].
    + rewrite lookup_insert_eq in Hr. by simplify_eq.
    + rewrite lookup_insert_ne in Hr by done. destruct (H3 _ _ _ Hr) as [Hh Hb]. split; [done|].
      intros Hb' ?. apply Hb; [done|by right].
  - intros l' fd' Hl'. destruct (decide (l' = l)) as [->|Hne].
    + simplify_eq. right. apply lookup_insert_eq.
    + destruct (H4 l' fd' Hl') as [[->|?]%elem_of_cons|Hr]; [done|by left|]. right.
      rewrite lookup_insert_ne; [done|]. intros <-. by apply Hne, (H5 l' l fd).
Qed.

(** A registration that is removed, and then the connection. *)
Lemma objects_unregister h r f L l fd :
  h !! l = Some fd → objects h r f (l :: L) → objects h (delete fd r) f (l :: L).
Proof.
  intros Hl [H1 H2 H3 H4 H5 H6]. split; [done..| | |done|done].
  - intros fd' l' b [_ Hr]%lookup_delete_Some. by apply H3.
  - intros l' fd' Hl'. destruct (H4 l' fd' Hl') as [?|Hr]; [by left|].
    destruct (decide (fd' = fd)) as [->|Hne]; [|right; by rewrite lookup_delete_ne].
    left. rewrite (H5 _ _ _ Hl' Hl). by left.
Qed.

Lemma objects_delete h r f L l fd :
  h !! l = Some fd → objects h r f (l :: L) → objects (delete l h) (delete fd r) f L.
Proof.
  intros Hl [H1 H2 H3 H4 H5 H6]. apply NoDup_cons in H1 as [Hn H1]. split; [done|..].
  - intros l' Hl'. rewrite lookup_delete_ne; [by apply H2; right|]. by intros <-.
  - intros fd' l' b [Hne Hr]%lookup_delete_Some. destruct (H3 _ _ _ Hr) as [Hh Hb]. split.
    + rewrite lookup_delete_ne; [done|]. intros <-. congruence.
    + intros Hb' ?. apply Hb; [done|by right].
  - intros l' fd' [Hne Hl']%lookup_delete_Some. destruct (H4 l' fd' Hl') as [[->|?]%elem_of_cons|Hr]; [done|by left|].
    right. rewrite lookup_delete_ne; [done|]. intros <-. by apply Hne, (H5 l l' fd).
  - intros l' l'' fd' [_ ?]%lookup_delete_Some [_ ?]%lookup_delete_Some. by eapply H5.
  - intros l' [fd' [_ Hl']%lookup_delete_Some]. eauto.
Qed.

(** A new connection. *)
Lemma objects_new h r f L fd :
  fd ∉ (map_to_list h).*2 → objects h r f L → objects (<[f := fd]> h) r (Pos.succ f) (f :: L).
Proof.
  intros Hfd [H1 H2 H3 H4 H5 H6].
  assert (h !! f = None) as Hf. { apply eq_None_not_Some. intros ?%H6. lia. }
  assert (∀ l, h !! l ≠ Some fd) as Hfd'.
  { intros l Hl. apply Hfd, list_elem_of_fmap. exists (l, fd). split; [done|]. by apply elem_of_map_to_list. }
  split.
  - constructor; [|done]. intros [? Hl]%H2. congruence.
  - intros l [->|Hl]%elem_of_cons; [rewrite lookup_insert_eq; eauto|].
    rewrite lookup_insert_ne; [by apply H2|]. intros <-. apply H2 in Hl as [? Hl]. congruence.
  - intros fd' l b Hr. destruct (H3 _ _ _ Hr) as [Hh Hb]. split.
    + rewrite lookup_insert_ne; [done|]. intros <-. congruence.
    + intros Hb' [->|?]%elem_of_cons; [congruence|by apply Hb].
  - intros l fd' Hl. destruct (decide (l = f)) as [->|Hne]; [left; by left|].
    rewrite lookup_insert_ne in Hl by done. destruct (H4 l fd' Hl); [left; by right|by right].
  - intros l l' fd' Hl Hl'. destruct (decide (l = f)) as [->|Hne], (decide (l' = f)) as [->|Hne']; [done|..];
      rewrite ?lookup_insert_eq, ?lookup_insert_ne in Hl by done; rewrite ?lookup_insert_eq, ?lookup_insert_ne in Hl' by done; simplify_eq; [naive_solver..|by eapply H5].
  - intros l. destruct (decide (l = f)) as [->|Hne]; [lia|]. rewrite lookup_insert_ne by done. intros ?%H6. lia.
Qed.

(** A thread among others: what it holds, and what all hold after its step. *)
Lemma bind_delete {A B} (f : A → list B) ls i x : ls !! i = Some x → ls ≫= f ≡ₚ f x ++ (delete i ls ≫= f).
Proof. intros H. rewrite (delete_Permutation ls i x H) at 1. by rewrite bind_cons. Qed.

Lemma bind_insert {A B} (f : A → list B) ls i x y :
  ls !! i = Some x → <[i := y]> ls ≫= f ≡ₚ f y ++ (delete i ls ≫= f).
Proof.
  intros H. assert (delete i (<[i:=y]> ls) = delete i ls) as <-.
  { clear H. revert i. induction ls as [|z ls IH]; intros [|i]; cbn; [done..|]. f_equal. apply IH. }
  apply bind_delete, list_lookup_insert_eq. by eapply lookup_lt_Some.
Qed.

(** The table and the sockets that are about to enter it, when no socket was accepted twice. *)
Record table_ok (t : gmap nat loc) (P used : list nat) : Prop := mk_table_ok {
  t_nodup : NoDup P;
  t_pending : ∀ fd, fd ∈ P → t !! fd = None ∧ fd ∈ used;
  t_used : ∀ fd, is_Some (t !! fd) → fd ∈ used;
}.

#[export] Instance table_ok_proper t : Proper ((≡ₚ) ==> (≡ₚ) ==> iff) (table_ok t).
Proof.
  assert (∀ P P' u u', P ≡ₚ P' → u ≡ₚ u' → table_ok t P u → table_ok t P' u') as H.
  { intros P P' u u' HP Hu [H1 H2 H3]. split; [by rewrite <-HP|..].
    - intros fd. rewrite <-HP, <-Hu. apply H2.
    - intros fd. rewrite <-Hu. apply H3. }
  intros P P' HP u u' Hu. split; apply H; done || by symmetry.
Qed.

Lemma table_new t P used fd : fd ∉ used → table_ok t P used → table_ok t (fd :: P) (fd :: used).
Proof.
  intros Hfd [H1 H2 H3]. split.
  - constructor; [|done]. by intros [_ ?]%H2.
  - intros fd' [->|[? ?]%H2]%elem_of_cons; [|split; [done|by right]]. split; [|by left].
    apply eq_None_not_Some. by intros ?%H3.
  - intros fd' ?%H3. by right.
Qed.

Lemma table_insert t P used fd l : table_ok t (fd :: P) used → table_ok (<[fd := l]> t) P used.
Proof.
  intros [H1 H2 H3]. apply NoDup_cons in H1 as [Hn H1]. split; [done|..].
  - intros fd' Hfd'. destruct (H2 fd') as [Ht Hu]; [by right|]. split; [|done].
    rewrite lookup_insert_ne; [done|]. by intros <-.
  - intros fd'. destruct (decide (fd' = fd)) as [->|Hne]; [intros _; apply H2; by left|].
    rewrite lookup_insert_ne by done. apply H3.
Qed.

Lemma table_forget t P used fd : table_ok t (fd :: P) used → table_ok t P used.
Proof.
  intros [H1 H2 H3]. apply NoDup_cons in H1 as [_ H1]. split; [done| |done]. intros fd' ?. apply H2. by right.
Qed.

(** The invariant, for the sockets accepted so far. *)
Record inv (used : list nat) (s : Server) : Prop := mk_inv {
  i_objects : objects (heap s) (interest s) (fresh_loc s) (holding s);
  i_table : table_ok (_connections s) (acceptors s ≫= pending) used;
}.

Lemma inv_started n m : inv [] (Server_started n m).
Proof.
  assert (∀ A B (f : A → list B) n x, f x = [] → replicate n x ≫= f = []) as H.
  { intros A B f k x Hx. induction k as [|k IH]; [done|]. cbn. by rewrite Hx, IH. }
  split; unfold holding; cbn; rewrite !H by done; [apply objects_none|].
  split; [constructor|by intros ? ?%not_elem_of_nil|]. intros fd. rewrite lookup_empty. by intros [].
Qed.

(** A worker's step that changes what it holds. *)
Lemma inv_worker used s i w w' h r :
  inv used s → workers s !! i = Some w →
  (∀ L, objects (heap s) (interest s) (fresh_loc s) (held w ++ L) → objects h r (fresh_loc s) (held w' ++ L)) →
  inv used (set_worker i w' (set_objects h r s)).
Proof.
  intros [Ho Ht] Hw Hstep. split; [|done]. unfold holding in *. cbn.
  rewrite (bind_insert held _ _ _ w' Hw), Permutation_app_comm, <-app_assoc. apply Hstep.
  by rewrite app_assoc, <-(bind_delete held _ _ _ Hw), Permutation_app_comm.
Qed.

(** An acceptor's step. *)
Lemma inv_acceptor used used' s j a a' h f r t :
  inv used s → acceptors s !! j = Some a →
  (∀ L, objects (heap s) (interest s) (fresh_loc s) (adding a ++ L) → objects h r f (adding a' ++ L)) →
  (∀ P, table_ok (_connections s) (pending a ++ P) used → table_ok t (pending a' ++ P) used') →
  inv used' (set_acceptor j a' (mk_server h f r (signalled s) t (isRunning s) (workers s) (acceptors s) (app s))).
Proof.
  intros [Ho Ht] Ha Hstep Htab. split; unfold holding in *; cbn.
  - rewrite (bind_insert adding _ _ _ a' Ha), <-app_assoc. apply Hstep.
    by rewrite app_assoc, <-(bind_delete adding _ _ _ Ha).
  - rewrite (bind_insert pending _ _ _ a' Ha). apply Htab. by rewrite <-(bind_delete pending _ _ _ Ha).
Qed.

(** A thread uses or deletes a connection it holds. *)
Lemma objects_held h r f l L : objects h r f (l :: L) → ∃ fd, h !! l = Some fd.
Proof. intros [_ H _ _ _ _]. apply H. by left. Qed.

Lemma worker_holds_live used s i w l : inv used s → workers s !! i = Some w → l ∈ held w → ∃ fd, heap s !! l = Some fd.
Proof.
  intros [Ho _] Hw Hl. apply (o_live _ _ _ _ Ho). unfold holding. apply elem_of_app. right.
  apply list_elem_of_bind. exists w. split; [done|]. by apply list_elem_of_lookup_2 in Hw.
Qed.

Lemma acceptor_holds used s j a l : inv used s → acceptors s !! j = Some a → l ∈ adding a → ∃ fd, heap s !! l = Some fd.
Proof.
  intros [Ho _] Ha Hl. apply (o_live _ _ _ _ Ho). unfold holding. apply elem_of_app. left.
  apply list_elem_of_bind. exists a. split; [done|]. by apply list_elem_of_lookup_2 in Ha.
Qed.

(** ** Steps keep the invariant *)

Definition step_ok (used : list nat) (r : next) : Prop :=
  match r with Blocked => True | Undefined _ => False | Next s' => before_free s' → inv used s' end.

Lemma use_ok used l s k fd : heap s !! l = Some fd → step_ok used (k fd) → step_ok used (use_conn l s k).
Proof. intros Hl. unfold use_conn. by rewrite Hl. Qed.

Lemma reportable_spec s es :
  reportable s es = true → es ≠ [] ∧ length es ≤ mod_size ∧ NoDup es ∧
  (∀ l, Some l ∈ es → l ∈ armed (interest s)) ∧ (None ∈ es → signalled s = true).
Proof.
  unfold reportable. rewrite !andb_true_iff, negb_true_iff, bool_decide_eq_false, bool_decide_eq_true, Nat.leb_le, forallb_forall.
  intros [[[Hne Hl] Hnd] Hall]. split_and!; [done..|intros l Hin|intros Hin]; apply list_elem_of_In, Hall in Hin; [|done].
  by apply bool_decide_eq_true in Hin.
Qed.

Lemma worker_step_ok used s i a : inv used s → step_ok used (worker_step i a s).
Proof.
  intros Hi. unfold worker_step. destruct (workers s !! i) as [w|] eqn:Hw; [|done].
  pose proof (λ w' h r, inv_worker used s i w w' h r Hi Hw) as Hstep.
  pose proof (λ l, worker_holds_live used s i w l Hi Hw) as Hheld.
  destruct w as [| |[|[l|] es]|l es|l [] es|l es|l es|], a as [|es'|es'|r|alive|ok]; try done.
  - intros _. apply Hstep. intros L. by destruct (default _ _).
  - destruct (reportable s es') eqn:Er; [|done]. apply reportable_spec in Er as (_ & _ & Hnd & Ha & _).
    intros _. apply Hstep. intros L Ho. by apply objects_take.
  - intros _. by apply Hstep.
  - intros _. by apply Hstep.
  - intros _. by apply Hstep.
  - destruct (Hheld l) as [fd Hl]; [by left|]. eapply use_ok; [done|]. intros _. by apply Hstep.
  - destruct (Hheld l) as [fd Hl]; [by left|]. eapply use_ok; [done|]. destruct (ok && _); intros _; apply Hstep; [|done].
    intros L Ho. by apply objects_arm.
  - destruct (Hheld l) as [fd Hl]; [by left|]. eapply use_ok; [done|]. intros _. destruct ok; apply Hstep; [|done].
    intros L Ho. by apply objects_unregister.
  - destruct (Hheld l) as [fd Hl]; [by left|]. eapply use_ok; [done|]. intros _. by apply Hstep.
  - destruct (Hheld l) as [fd Hl]; [by left|]. unfold delete_conn. rewrite Hl. intros _. apply Hstep.
    intros L Ho. by apply objects_delete.
Qed.

Lemma acceptor_step_ok used s j a :
  inv used s → (∀ fd, a = Accepted (Some fd) → fd ∉ used) →
  step_ok (accepted [Acceptor j a] ++ used) (acceptor_step j a s).
Proof.
  intros Hi Hnew. unfold acceptor_step. destruct (acceptors s !! j) as [x|] eqn:Ha; [|done].
  pose proof (λ x' h f r t used', inv_acceptor used used' s j x x' h f r t Hi Ha) as Hstep.
  pose proof (λ l, acceptor_holds used s j x l Hi Ha) as Hadd.
  destruct x as [|[|[] es] run|es run|l fd es run|l fd es run|l es run|], a as [|es'|es'|[fd'|]|alive|ok]; try done; cbn [accepted omap list_omap app].
  - destruct (listen_reportable s es'); [|done]. intros _. by apply Hstep.
  - intros _. apply Hstep; intros L; by destruct run.
  - intros _. by apply Hstep.
  - intros _. by apply Hstep.
  - case_bool_decide; [done|]. intros _. apply Hstep.
    + intros L Ho. by apply objects_new.
    + intros P Ht. apply table_new; [by apply Hnew|done].
  - intros _. by apply Hstep.
  - destruct (Hadd l) as [s0 Hl]; [by left|]. eapply use_ok; [done|]. destruct ok; intros _; apply Hstep; try done.
    + intros L Ho. by apply objects_arm.
    + intros P Ht. exact (table_forget _ _ _ _ Ht).
  - assert (_connections s !! fd = None) as ->.
    { apply (t_pending _ _ _ (i_table _ _ Hi)), list_elem_of_bind. eexists. split; [|by apply list_elem_of_lookup_2 in Ha]. by left. }
    intros _. apply Hstep; [done|]. intros P Ht. by apply table_insert.
  - destruct (Hadd l) as [s0 Hl]; [by left|]. unfold delete_conn. rewrite Hl. intros _. apply Hstep; [|done].
    intros L Ho. by apply objects_delete.
Qed.

Lemma app_step_ok used s a : inv used s → before_free s → step_ok used (app_step a s).
Proof.
  intros [Ho Ht] Hb. unfold app_step, before_free in *.
  destruct (app s) as [|k| | |ls|], a as [| | | | |[]]; try done. by case_match.
Qed.

Lemma epoll_step_inv used s e :
  inv used s → before_free s → (∀ fd, accepted [e] = [fd] → fd ∉ used) → step_ok (accepted [e] ++ used) (step e s).
Proof.
  intros Hi Hb Hnew. destruct e as [i a|j a|a]; cbn [step].
  - by apply worker_step_ok.
  - apply acceptor_step_ok; [done|]. intros fd ->. by apply Hnew.
  - by apply app_step_ok.
Qed.

(** What the steps of the threads leave unchanged. *)
Definition same_app (s s' : Server) : Prop :=
  app s' = app s ∧ signalled s' = signalled s ∧ isRunning s' = isRunning s.

Lemma delete_conn_app l s k s' :
  delete_conn l s k = Next s' → (∀ s2, same_app s2 (k s2)) → same_app s s'.
Proof.
  unfold delete_conn. destruct (heap s !! l); [|done]. intros [= <-] Hk. destruct (Hk (set_objects (delete l (heap s)) (delete n (interest s)) s)) as (? & ? & ?). done.
Qed.

Lemma use_conn_app l s k s' :
  use_conn l s k = Next s' → (∀ fd s2, k fd = Next s2 → same_app s s2) → same_app s s'.
Proof. unfold use_conn. destruct (heap s !! l); [|done]. intros E Hk. by eapply Hk. Qed.

Lemma thread_step_app e s s' :
  step e s = Next s' → match e with App _ => True | _ => same_app s s' end.
Proof.
  destruct e as [i a|j a|a]; cbn [step]; [| |done]; intros E; [unfold worker_step in E|unfold acceptor_step in E].
  all: repeat case_match; simplify_eq; try done; try (by eapply delete_conn_app).
  all: eapply use_conn_app; [exact E|]; cbn; intros; repeat case_match; by simplify_eq.
Qed.

(** [Stop] goes forward. *)
Lemma before_free_step e s s' : step e s = Next s' → before_free s' → before_free s.
Proof.
  intros E. pose proof (thread_step_app e s s' E) as Ha. destruct e as [i a|j a|a];
    [destruct Ha as [Ha _]; unfold before_free; by rewrite Ha..|]. clear Ha. cbn [step] in E.
  unfold app_step, before_free in *. destruct (app s) as [| | | |[|l ls]|]; try done; destruct a; try done.
  - by simplify_eq.
  - unfold delete_conn in E. destruct (heap s !! l); [|done]. by simplify_eq.
Qed.

Lemma run_before_free es s s' : run es s = Next s' → before_free s' → before_free s.
Proof. apply run_labels_backwards. intros. by eapply before_free_step. Qed.

Lemma epoll_run_inv used es s s' :
  inv used s → run es s = Next s' → before_free s' → NoDup (accepted es) → (∀ fd, fd ∈ accepted es → fd ∉ used) →
  ∃ used', inv used' s'.
Proof.
  revert used s. induction es as [|e es IH]; intros used s Hi E Hb Hnd Hnew; pose proof (run_before_free _ _ _ E Hb) as Hbs; cbn [run run_labels] in E.
  - injection E as <-. eauto.
  - destruct (step e s) as [| |s1] eqn:Es; [done..|].
    assert (accepted (e :: es) = accepted [e] ++ accepted es) as Hacc by by destruct e as [|j [| | |[]| |]|].
    rewrite Hacc in Hnd, Hnew. apply NoDup_app in Hnd as (_ & Hdis & Hnd).
    pose proof (epoll_step_inv used s e Hi Hbs) as Hs. rewrite Es in Hs.
    apply (IH (accepted [e] ++ used) s1); [|done..|].
    + apply Hs; [|by eapply run_before_free]. intros fd Hfd. apply Hnew. rewrite Hfd. by left.
    + intros fd Hfd [?|?]%elem_of_app; [by eapply Hdis|]. eapply Hnew; [|done]. apply elem_of_app. by right.
Qed.

(** ** Exclusive handling *)

Lemma bind_nodup {A B} (f : A → list B) ls i j x y b :
  NoDup (ls ≫= f) → ls !! i = Some x → ls !! j = Some y → b ∈ f x → b ∈ f y → i = j.
Proof.
  revert i j. induction ls as [|z ls IH]; [done|]. rewrite bind_cons. intros [|i] [|j] Hnd Hi Hj Hx Hy; [done|..];
    apply NoDup_app in Hnd as (_ & Hdis & Hnd); cbn in Hi, Hj; simplify_eq.
  - destruct (Hdis b Hx). apply list_elem_of_bind. exists y. split; [done|]. by eapply list_elem_of_lookup_2.
  - destruct (Hdis b Hy). apply list_elem_of_bind. exists x. split; [done|]. by eapply list_elem_of_lookup_2.
  - f_equal. by eapply IH.
Qed.

(** C11: In every interleaving of the acceptors, the workers and [Stop], and as long as
    [Stop] has not begun to destroy connections and no descriptor number has been
    accepted twice: no connection is in the hands of two workers, in the batches
    reported to them included; none is forgotten, every connection that nobody has in
    his hands is registered and armed, so that its next event is reported; and
    no step uses a deleted connection or deletes one twice. *)
Theorem connections_exclusive n m es s :
  run es (Server_started n m) = Next s → NoDup (accepted es) → before_free s →
  (∀ i j w w' l, workers s !! i = Some w → workers s !! j = Some w' → l ∈ held w → l ∈ held w' → i = j) ∧
  (∀ l fd, heap s !! l = Some fd →
    (∃ i w, workers s !! i = Some w ∧ l ∈ held w) ∨ (∃ j a, acceptors s !! j = Some a ∧ l ∈ adding a) ∨
    interest s !! fd = Some (l, true)) ∧
  (∀ i a u, worker_step i a s ≠ Undefined u) ∧ (∀ j a u, acceptor_step j a s ≠ Undefined u).
Proof.
  intros E Hnd Hb. destruct (epoll_run_inv [] es _ s (inv_started n m) E Hb Hnd) as (used & Hi); [by intros ? ? ?%not_elem_of_nil|].
  pose proof Hi as [[Hl _ _ Ha _ _] _]. split_and!.
  - intros i j w w' l Hw Hw' Hin Hin'. apply NoDup_app in Hl as (_ & _ & Hl). by eapply bind_nodup.
  - intros l fd Hh. destruct (Ha l fd Hh) as [[Hin|Hin]%elem_of_app|Hr]; [right; left|left|by right; right];
      apply list_elem_of_bind in Hin as (x & Hx & [k Hk]%list_elem_of_lookup_1); eauto.
  - intros i a u Eu. pose proof (worker_step_ok used s i a Hi) as H. by rewrite Eu in H.
  - intros j a u Eu. assert (step_ok (accepted [Acceptor j a] ++ used) (acceptor_step j a s) ∨ ∃ fd, a = Accepted (Some fd)) as [H|[fd ->]].
    + destruct a as [| | |[fd|]| |]; [..|right; by eexists| | |]; left; by apply acceptor_step_ok.
    + by rewrite Eu in H.
    + unfold acceptor_step in Eu. by repeat case_match.
Qed.

(** Two clients; a worker is handed the first while the second is registered, and both
    workers are busy. *)
Definition two_busy : list label :=
  [Acceptor 0 (ListenReported [Listening]); Acceptor 0 Go; Acceptor 0 (Accepted (Some 7)); Acceptor 0 (Ctl true);
   Worker 0 Go; Worker 0 (Reported [Some 1%positive]); Worker 0 Go;
   Acceptor 0 Go; Acceptor 0 (Accepted (Some 8)); Acceptor 0 (Ctl true);
   Worker 1 Go; Worker 1 (Reported [Some 2%positive]); Worker 1 Go; App Go; App Go].

Lemma connections_exclusive_witness :
  ∃ s, run two_busy (Server_started 1 2) = Next s ∧
    workers s = [w_handle 1 []; w_handle 2 []] ∧
    (∀ i j w w' l, workers s !! i = Some w → workers s !! j = Some w' → l ∈ held w → l ∈ held w' → i = j).
Proof.
  destruct (run two_busy (Server_started 1 2)) as [|u|s] eqn:E; [by vm_compute in E..|].
  exists s. assert (workers s = [w_handle 1 []; w_handle 2 []]) as Hw by (vm_compute in E; by injection E as <-).
  split_and!; [done|done|].
  destruct (connections_exclusive 1 2 two_busy s E) as (H & _); [apply (bool_decide_unpack _); by vm_compute| |exact H].
  vm_compute in E. by injection E as <-.
Defined.

(** A worker deletes a dead connection and closes its descriptor, but leaves its entry in
    the table: the next client on this descriptor is accepted and closed at once. *)
Example reused_socket_dropped :
  let serve := [Acceptor 0 (Accepted (Some 7)); Acceptor 0 (Ctl true); Acceptor 0 Go] in
  match run ([Acceptor 0 (ListenReported [Listening]); Acceptor 0 Go] ++ serve ++
             [Worker 0 Go; Worker 0 (Reported [Some 1%positive]); Worker 0 Go; Worker 0 (Handled false); Worker 0 (Ctl true); Worker 0 Go] ++
             serve) (Server_started 1 1) with
  | Next s => heap s = ∅ ∧ _connections s = {[7 := 1%positive]} ∧ fresh_loc s = 3%positive
  | _ => False
  end.
Proof. vm_compute. split_and!; reflexivity. Qed.

(** In the same situation a worker that already has the connection uses it after it was deleted. *)
Example reused_socket_use_after_free :
  let serve := [Acceptor 0 (Accepted (Some 7)); Acceptor 0 (Ctl true)] in
  run ([Acceptor 0 (ListenReported [Listening]); Acceptor 0 Go] ++ serve ++ [Acceptor 0 Go] ++
       [Worker 0 Go; Worker 0 (Reported [Some 1%positive]); Worker 0 Go; Worker 0 (Handled false); Worker 0 (Ctl true); Worker 0 Go] ++
       serve ++ [Worker 0 Go; Worker 0 Go; Worker 0 (Reported [Some 2%positive]); Worker 0 Go; Acceptor 0 Go; Worker 0 (Handled true)])
    (Server_started 1 1) = Undefined UseAfterFree.
Proof. vm_compute. reflexivity. Qed.

(** [Stop] destroys a connection that a worker is handling. *)
Example stop_use_after_free :
  run ([Acceptor 0 (ListenReported [Listening]); Acceptor 0 Go; Acceptor 0 (Accepted (Some 7)); Acceptor 0 (Ctl true); Acceptor 0 Go;
        Worker 0 Go; Worker 0 (Reported [Some 1%positive]); Worker 0 Go;
        App Go; App Go; App Go; App (Ctl true); App Go; Worker 0 (Handled true)])
    (Server_started 1 1) = Undefined UseAfterFree.
Proof. vm_compute. reflexivity. Qed.

(** ** The end of the threads *)

(** After the write of [Stop] no worker is told to run. *)
Record stopping (s : Server) : Prop := mk_stopping {
  st_app : signalled s = true → match app s with stop_free _ | stopped => True | _ => False end;
  st_workers : match app s with
               | serving => True
               | stop_workers k => ∀ i b, i < k → isRunning s !! i = Some b → b = false
               | _ => ∀ i b, isRunning s !! i = Some b → b = false
               end;
}.

(** How many steps a worker, an acceptor and [Stop] have left at most after the write, new connections apart. *)
Definition worker_left (w : wpc) : nat :=
  match w with
  | w_gone => 0
  | w_test => 1
  | w_batch es => 2 + 5 * length es
  | w_delete _ es => 3 + 5 * length es
  | w_error _ es => 4 + 5 * length es
  | w_rearm _ _ es => 5 + 5 * length es
  | w_handle _ es => 6 + 5 * length es
  | w_wait => 3 + 5 * mod_size
  end.
Definition batch_left (es : list listen_event) (run : bool) : nat :=
  1 + 2 * length es + (if run && negb (bool_decide (StopSignal ∈ es)) then 6 else 0).
Definition acceptor_left (a : apc) : nat :=
  match a with
  | a_gone => 0
  | a_wait => 6
  | a_batch es run => batch_left es run
  | a_accept es run => 1 + batch_left es run
  | a_insert _ _ es run | a_drop _ es run => 2 + batch_left es run
  | a_add _ _ es run => 3 + batch_left es run
  end.
Definition app_left (a : spc) : nat := match a with stop_free ls => 1 + length ls | _ => 0 end.
Definition steps_left (s : Server) : nat :=
  sum_list_with worker_left (workers s) + sum_list_with acceptor_left (acceptors s) + app_left (app s).

Lemma left_insert {A} (f : A → nat) ls i x y :
  ls !! i = Some x → sum_list_with f (<[i := y]> ls) + f x = sum_list_with f ls + f y.
Proof.
  revert i. induction ls as [|z ls IH]; intros [|i] H; simplify_eq/=; [lia|]. specialize (IH i H). lia.
Qed.

Lemma stopping_started n m : stopping (Server_started n m).
Proof. by split. Qed.

(** Only [Stop] changes what is tested. *)
Lemma stopping_frame s s' :
  app s' = app s → signalled s' = signalled s → isRunning s' = isRunning s → stopping s → stopping s'.
Proof. intros Ha Hs Hr [H1 H2]. split; by rewrite Ha, ?Hs, ?Hr. Qed.


Lemma stopping_step e s s' : stopping s → step e s = Next s' → stopping s'.
Proof.
  intros Hs E. pose proof (thread_step_app e s s' E) as Ha.
  destruct e as [i a|j a|a]; [destruct Ha as (? & ? & ?); by eapply stopping_frame..|]. clear Ha. cbn [step] in E.
  destruct Hs as [H1 H2]. unfold app_step in E.
  destruct (app s) as [|k| | |[|l ls]|] eqn:Ea; try done; destruct a as [| | | | |[]]; try done.
  - injection E as <-. split; cbn; [by intros ?%H1|]. intros i b Hi. lia.
  - case_match; injection E as <-; (split; cbn; [by intros ?%H1|]).
    + intros i b Hi Hb. destruct (decide (i = k)) as [->|Hne].
      * apply list_lookup_insert_Some in Hb as [(_ & -> & _)|[? _]]; done.
      * rewrite list_lookup_insert_ne in Hb by done. apply (H2 i b); [lia|done].
    + intros i b Hb. apply (H2 i b); [|done]. apply lookup_lt_Some in Hb. apply Nat.ltb_ge in H. lia.
  - injection E as <-. split; [done|exact H2].
  - injection E as <-. split; [by intros ?%H1|exact H2].
  - injection E as <-. split; [done|exact H2].
  - unfold delete_conn in E. destruct (heap s !! l); [|done]. injection E as <-. split; [done|exact H2].
Qed.

Lemma stopping_run es s s' : stopping s → run es s = Next s' → stopping s'.
Proof. apply run_labels_invariant. intros. by eapply stopping_step. Qed.

Lemma signalled_step e s s' : step e s = Next s' → signalled s = true → signalled s' = true.
Proof.
  intros E Hs. pose proof (thread_step_app e s s' E) as Ha.
  destruct e as [i a|j a|a]; [by destruct Ha as (_ & -> & _)..|]. clear Ha. cbn [step] in E. unfold app_step, delete_conn in E.
  repeat case_match; by simplify_eq.
Qed.

Lemma not_running s i : stopping s → signalled s = true → default false (isRunning s !! i) = false.
Proof.
  intros [H1 H2] Hs. specialize (H1 Hs). destruct (isRunning s !! i) as [b|] eqn:Eb; [|done].
  cbn. by destruct (app s); try done; eapply H2.
Qed.

(** A step of a worker, an acceptor, or [Stop] in terms of the sums. *)
Lemma worker_left_step s i w w' h r :
  workers s !! i = Some w → worker_left w' < worker_left w →
  steps_left (set_worker i w' (set_objects h r s)) < steps_left s.
Proof. intros Hw Hlt. unfold steps_left. cbn. pose proof (left_insert worker_left _ _ _ w' Hw). lia. Qed.

Lemma acceptor_left_step s j a a' h f r t k :
  acceptors s !! j = Some a → acceptor_left a' < acceptor_left a + k →
  steps_left (set_acceptor j a' (mk_server h f r (signalled s) t (isRunning s) (workers s) (acceptors s) (app s))) < steps_left s + k.
Proof. intros Ha Hlt. unfold steps_left. cbn. pose proof (left_insert acceptor_left _ _ _ a' Ha). lia. Qed.

Lemma worker_step_left s i a s' :
  stopping s → signalled s = true → worker_step i a s = Next s' → steps_left s' < steps_left s.
Proof.
  intros Hs Hsig. unfold worker_step. destruct (workers s !! i) as [w|] eqn:Hw; [|done].
  pose proof (λ w' h r, worker_left_step s i w w' h r Hw) as Hstep.
  unfold use_conn, delete_conn.
  destruct w as [| |[|[l|] es]|l es|l [] es|l es|l es|], a as [|es'|es'|r|alive|ok]; try done.
  - rewrite not_running by done. intros [= <-]. apply Hstep. cbn. lia.
  - destruct (reportable s es') eqn:Er; [|done]. apply reportable_spec in Er as (_ & Hl & _). intros [= <-].
    apply Hstep. cbn [worker_left]. lia.
  - intros [= <-]. apply Hstep. cbn. lia.
  - intros [= <-]. apply Hstep. cbn. lia.
  - intros [= <-]. apply Hstep. cbn. lia.
  - destruct (heap s !! l); [|done]. intros [= <-]. apply Hstep. cbn. lia.
  - destruct (heap s !! l) as [fd|]; [|done]. destruct (ok && _); intros [= <-]; apply Hstep; cbn; lia.
  - destruct (heap s !! l) as [fd|]; [|done]. intros [= <-]. destruct ok; apply Hstep; cbn; lia.
  - destruct (heap s !! l); [|done]. intros [= <-]. apply Hstep. cbn. lia.
  - destruct (heap s !! l); [|done]. intros [= <-]. apply Hstep. cbn. lia.
Qed.

Lemma listen_reportable_spec s es :
  listen_reportable s es = true → signalled s = true → StopSignal ∈ es ∧ length es ≤ 2.
Proof.
  unfold listen_reportable. rewrite !andb_true_iff, bool_decide_eq_true, eqb_true_iff. intros [[_ Hnd] Hs] Hsig.
  rewrite Hsig in Hs. apply bool_decide_eq_true in Hs. split; [done|].
  destruct es as [|x [|y [|z es]]]; cbn; [lia..|]. exfalso.
  apply NoDup_cons in Hnd as [Hx Hnd]. apply NoDup_cons in Hnd as [Hy _].
  destruct x, y, z; set_solver.
Qed.

Lemma batch_left_stop es run : batch_left es false < batch_left (StopSignal :: es) run.
Proof. unfold batch_left. cbn [length andb]. lia. Qed.

Lemma batch_left_listening es run : batch_left (Listening :: es) run = 2 + batch_left es run.
Proof.
  unfold batch_left. cbn [length].
  assert (bool_decide (StopSignal ∈ Listening :: es) = bool_decide (StopSignal ∈ es)) as -> by (apply bool_decide_ext; set_solver).
  lia.
Qed.

Lemma acceptor_step_left s j a s' :
  signalled s = true → acceptor_step j a s = Next s' →
  steps_left s' < steps_left s + 3 * length (accepted [Acceptor j a]).
Proof.
  intros Hsig. unfold acceptor_step. destruct (acceptors s !! j) as [x|] eqn:Ha; [|done].
  pose proof (λ x' h f r t k, acceptor_left_step s j x x' h f r t k Ha) as Hstep.
  unfold use_conn, delete_conn.
  destruct x as [|[|[] es] run|es run|l fd es run|l fd es run|l es run|], a as [|es'|es'|[fd'|]|alive|ok]; try done;
    cbn [accepted omap list_omap length].
  - destruct (listen_reportable s es') eqn:Er; [|done]. destruct (listen_reportable_spec _ _ Er Hsig) as [Hin Hl].
    intros [= <-]. apply Hstep. cbn [acceptor_left]. unfold batch_left. rewrite bool_decide_true by done. cbn [andb negb]. lia.
  - intros [= <-]. apply Hstep. unfold acceptor_left, batch_left. rewrite bool_decide_false by (by intros ?%not_elem_of_nil). destruct run; cbn [andb negb length]; lia.
  - intros [= <-]. apply Hstep. cbn [acceptor_left]. pose proof (batch_left_stop es run). lia.
  - intros [= <-]. apply Hstep. cbn [acceptor_left]. rewrite batch_left_listening. lia.
  - case_bool_decide; [done|]. intros [= <-]. apply Hstep. cbn [acceptor_left]. lia.
  - intros [= <-]. apply Hstep. cbn [acceptor_left]. lia.
  - destruct (heap s !! l) as [s0|]; [|done]. destruct ok; intros [= <-]; apply Hstep; cbn [acceptor_left]; lia.
  - destruct (_connections s !! fd); [destruct (heap s !! l); [|done]|]; intros [= <-]; apply Hstep; cbn [acceptor_left]; lia.
  - destruct (heap s !! l); [|done]. intros [= <-]. apply Hstep. cbn [acceptor_left]. lia.
Qed.

Lemma app_step_left s a s' :
  stopping s → signalled s = true → app_step a s = Next s' → steps_left s' < steps_left s.
Proof.
  intros [H1 _] Hsig. specialize (H1 Hsig). unfold app_step, delete_conn, steps_left.
  destruct (app s) as [| | | |[|l ls]|]; try done; destruct a; try done.
  - intros [= <-]. cbn. lia.
  - destruct (heap s !! l); [|done]. intros [= <-]. cbn. lia.
Qed.

Lemma run_left es s s' :
  stopping s → signalled s = true → run es s = Next s' →
  length es + steps_left s' ≤ steps_left s + 3 * length (accepted es).
Proof.
  revert s. induction es as [|e es IH]; intros s Hs Hsig E; cbn [run run_labels] in E; [injection E as ->; cbn; lia|].
  destruct (step e s) as [| |s1] eqn:Es; [done..|].
  specialize (IH s1 (stopping_step _ _ _ Hs Es) (signalled_step _ _ _ Es Hsig) E).
  assert (length (accepted (e :: es)) = length (accepted [e]) + length (accepted es)) as ->.
  { by destruct e as [|j [| | |[]| |]|]. }
  assert (steps_left s1 < steps_left s + 3 * length (accepted [e])); [|cbn [length]; lia].
  destruct e as [i a|j a|a]; cbn [step] in Es.
  - apply worker_step_left in Es; [|done..]. lia.
  - by apply acceptor_step_left in Es.
  - apply app_step_left in Es; [|done..]. lia.
Qed.

Lemma delete_conn_goes l s k : delete_conn l s k ≠ Blocked.
Proof. unfold delete_conn. by destruct (heap s !! l). Qed.
Lemma use_conn_goes l s k : (∀ fd, k fd ≠ Blocked) → use_conn l s k ≠ Blocked.
Proof. intros Hk. unfold use_conn. by destruct (heap s !! l). Qed.

(** After the write no thread waits for ever. *)
Lemma worker_goes s i w :
  signalled s = true → workers s !! i = Some w → w ≠ w_gone → ∃ a, worker_step i a s ≠ Blocked.
Proof.
  intros Hsig Hw Hne. unfold worker_step. rewrite Hw.
  destruct w as [| |[|[l|] es]|l es|l [] es|l es|l es|]; try by exists Go.
  - exists (Reported [None]). assert (reportable s [None] = true) as ->; [|done].
    unfold reportable. cbn. by rewrite Hsig.
  - exists (Handled true). by apply use_conn_goes.
  - exists (Ctl true). apply use_conn_goes. intros fd. by destruct (_ && _).
  - exists (Ctl true). by apply use_conn_goes.
  - exists Go. by apply use_conn_goes.
  - exists Go. apply delete_conn_goes.
Qed.

Lemma acceptor_goes s j x :
  signalled s = true → acceptors s !! j = Some x → x ≠ a_gone →
  ∃ a, acceptor_step j a s ≠ Blocked ∧ accepted [Acceptor j a] = [].
Proof.
  intros Hsig Hx Hne. unfold acceptor_step. rewrite Hx.
  destruct x as [|[|[] es] run|es run|l fd es run|l fd es run|l es run|]; try by exists Go.
  - exists (ListenReported [StopSignal]). assert (listen_reportable s [StopSignal] = true) as ->; [|done].
    unfold listen_reportable. rewrite Hsig. by vm_compute.
  - by exists (Accepted None).
  - exists (Ctl true). split; [|done]. by apply use_conn_goes.
  - exists Go. split; [|done]. destruct (_connections s !! fd); [apply delete_conn_goes|done].
  - exists Go. split; [|done]. apply delete_conn_goes.
Qed.

Lemma signalled_run es s s' : signalled s = true → run es s = Next s' → signalled s' = true.
Proof. apply (run_labels_invariant step (λ s, signalled s = true)). intros. by eapply signalled_step. Qed.


(** The workers are busy when [Stop] writes. *)
Definition stopped_busy : list label := two_busy ++ [App Go; App Go; App (Ctl true)].

