(* ===== verification/Echo.v ===== *)
(** * The echo server of the materials

    Model of src/sysprog/afina/materials/05-non-blocking-network/code/echo.c and echo.h: a
    server on epoll that removes a connection from the interest list while it handles
    its event and adds it again with the next one.  The answers of the system calls come
    with the events; [exit(1)] is an exception. *)

From S2P Require Import Prelude CStrings.

(** ** State *)

Definition MAXLEN : nat := 255.
Definition EPOLLIN : Z := 1.
Definition EPOLLOUT : Z := 4.
Definition EPOLLERR : Z := 8.
Definition EPOLLHUP : Z := 16.

(** [struct EchoEvent] *)
Record EchoEvent : Type := mk_event { fd : nat; event : Z; data : bytes; length_ : Z; offset : Z }.

(** The process: the events by address, the interest list of epoll (what is waited for, and
    [data.ptr]), the open descriptors, and what was written. *)
Record Process : Type := mk_process {
  heap : gmap nat EchoEvent;
  fresh : nat;
  interest : gmap nat (Z * nat);
  opened : gset nat;
  sent : list (nat * bytes);
}.

Definition set_heap h w := mk_process h (fresh w) (interest w) (opened w) (sent w).
Definition set_interest i w := mk_process (heap w) (fresh w) i (opened w) (sent w).
Definition set_opened o w := mk_process (heap w) (fresh w) (interest w) o (sent w).
Definition add_sent x w := mk_process (heap w) (fresh w) (interest w) (opened w) (sent w ++ [x]).

Definition deref (p : nat) : prog Process EchoEvent := λ w,
  match heap w !! p with Some e => Ret e w | None => Undef UseAfterFree end.
(** Assignments to members of [*p]. *)
Definition update (p : nat) (f : EchoEvent → EchoEvent) : prog Process unit :=
  e ← deref p; modify (λ w, set_heap (<[p := f e]> (heap w)) w).
Definition free (p : nat) : prog Process unit := λ w,
  match heap w !! p with Some _ => Ret tt (set_heap (delete p (heap w)) w) | None => Undef DoubleFree end.
(** [calloc(1, sizeof(struct EchoEvent))], and the assignment of [fd] *)
Definition calloc (connfd : nat) : prog Process nat := λ w,
  Ret (fresh w) (mk_process (<[fresh w := mk_event connfd 0 (replicate MAXLEN NUL) 0 0]> (heap w))
                   (S (fresh w)) (interest w) (opened w) (sent w)).
(** [close]; the kernel removes the descriptor from the interest list. *)
Definition close (f : nat) : prog Process unit :=
  modify (λ w, set_interest (delete f (interest w)) (set_opened (opened w ∖ {[f]}) w)).

(** ** System calls *)

Inductive operation : Type := EPOLL_CTL_ADD | EPOLL_CTL_DEL.

(** [modifyEpollContext]: adding fails for a descriptor that is in the list, deleting for
    one that is not. *)
Definition modifyEpollContext (op : operation) (f : nat) (events : Z) (ptr : nat) : prog Process unit :=
  i ← gets interest;
  match op, i !! f with
  | EPOLL_CTL_ADD, None => modify (set_interest (<[f := (events, ptr)]> i))
  | EPOLL_CTL_DEL, Some _ => modify (set_interest (delete f i))
  | _, _ => throw "exit(1)"
  end.

(** What [read] or [write] answers. *)
Inductive answer : Type :=
| Failed (eintr : bool)
| Read (b : bytes)
| Took (k : nat).

(** [printf("%s", data)] *)
Definition print_data (d : bytes) : prog Process unit :=
  if bool_decide (NUL ∈ d) then mret tt else undef OutOfBounds.

(** ** [handle] *)

Definition handle_read (p : nat) (r : answer) : prog Process unit :=
  e ← deref p;
  match r with
  | Read [] | Failed _ => close (fd e);; free p
  | Read b =>
      update p (λ e, mk_event (fd e) (event e) (b ++ drop (length b) (data e)) (Z.of_nat (length b)) (offset e));;
      print_data (b ++ drop (length b) (data e));;
      modifyEpollContext EPOLL_CTL_ADD (fd e) EPOLLOUT p
  | Took _ => out_of_fuel
  end.

Definition handle_write (p : nat) (r : answer) : prog Process unit :=
  e ← deref p;
  if (Z.of_nat MAXLEN <? offset e + length_ e)%Z then undef OutOfBounds else
  let buf := take (Z.to_nat (length_ e)) (drop (Z.to_nat (offset e)) (data e)) in
  '(ret, eintr) ← (match r with
    | Failed eintr => mret (-1, eintr)%Z
    | Took k => modify (add_sent (fd e, take k buf));; mret (Z.of_nat k, false)
    | Read _ => out_of_fuel
    end : prog Process (Z * bool));
  if ((ret =? -1) && eintr || (ret <? length_ e))%Z then
    modifyEpollContext EPOLL_CTL_ADD (fd e) EPOLLOUT p;;
    if negb (ret =? -1)%Z then
      update p (λ e, mk_event (fd e) (event e) (data e) (length_ e - ret) (offset e + ret))
    else mret tt
  else if (ret =? -1)%Z then close (fd e);; free p
  else modifyEpollContext EPOLL_CTL_ADD (fd e) EPOLLIN p.

Definition handle (p : nat) (r : answer) : prog Process unit :=
  e ← deref p;
  if (EPOLLIN =? event e)%Z then handle_read p r
  else if (EPOLLOUT =? event e)%Z then handle_write p r
  else mret tt.

(** ** The loop of [main] *)

(** An event of epoll with what is answered while it is handled: on the listening socket,
    what [accept] returns and whether the socket can be made non-blocking. *)
Inductive epoll_event : Type :=
| ServerEvent (flags : Z) (connfd : option nat) (fcntl_ok : bool)
| ConnEvent (ptr : nat) (flags : Z) (r : answer).

(** [makeSocketNonBlocking]: F_GETFL or F_SETFL may fail. *)
Definition makeSocketNonBlocking (fcntl_ok : bool) : prog Process unit :=
  if negb fcntl_ok then throw "exit(1)" else mret tt.

Definition hup_or_err (flags : Z) : bool :=
  negb (Z.land flags EPOLLHUP =? 0)%Z || negb (Z.land flags EPOLLERR =? 0)%Z.

(** A connection leaves the interest list and is handled. *)
Definition dispatch (p : nat) (flag : Z) (r : answer) : prog Process unit :=
  update p (λ e, mk_event (fd e) flag (data e) (length_ e) (offset e));;
  e ← deref p;
  modifyEpollContext EPOLL_CTL_DEL (fd e) 0 0;;
  handle p r.

Definition on_event (ev : epoll_event) : prog Process unit :=
  match ev with
  | ServerEvent flags connfd fcntl_ok =>
      if hup_or_err flags then throw "exit(1)" else
      match connfd with
      | None => throw "exit(1)"
      | Some f =>
          modify (λ w, set_opened ({[f]} ∪ opened w) w);;
          makeSocketNonBlocking fcntl_ok;;
          p ← calloc f;
          modifyEpollContext EPOLL_CTL_ADD f EPOLLIN p
      end
  | ConnEvent p flags r =>
      if hup_or_err flags then e ← deref p; close (fd e);; free p
      else if (EPOLLIN =? flags)%Z then dispatch p EPOLLIN r
      else if (EPOLLOUT =? flags)%Z then dispatch p EPOLLOUT r
      else mret tt
  end.

Fixpoint on_events (evs : list epoll_event) : prog Process unit :=
  match evs with
  | [] => mret tt
  | ev :: evs => on_event ev;; on_events evs
  end.

(** ** [main] *)

(** The answers to socket, bind, listen, epoll_create and epoll_ctl. *)
Record set_up : Type := mk_set_up {
  serverfd : option nat; binds : bool; listens : bool; epollfd : option nat; registers : bool }.

(** The listening socket, or the exit of the process at the first call that fails.  The
    events of the socket are told from the others by their pointer, so that its entry in the
    list is not part of [interest]. *)
Definition listening_socket (a : set_up) : prog Process nat :=
  match serverfd a with
  | None => throw "exit(1)"
  | Some f =>
      modify (λ w, set_opened ({[f]} ∪ opened w) w);;
      if negb (binds a) then throw "exit(1)"
      else if negb (listens a) then throw "exit(1)"
      else match epollfd a with
           | None => throw "exit(1)"
           | Some e =>
               modify (λ w, set_opened ({[e]} ∪ opened w) w);;
               if negb (registers a) then throw "exit(1)" else mret f
           end
  end.

(** The loop, over what [epoll_wait] returns; without an answer it waits for ever. *)
Fixpoint main_loop (batches : list (option (list epoll_event))) : prog Process unit :=
  match batches with
  | [] => throw "waits"
  | None :: _ => throw "exit(1)"
  | Some evs :: batches => on_events evs;; main_loop batches
  end.

Definition main (a : set_up) (batches : list (option (list epoll_event))) : prog Process unit :=
  _ ← listening_socket a; main_loop batches.

Definition new_process : Process := mk_process ∅ 0 ∅ ∅ [].

(** ** The interest list and the events *)

(** Every event is waited for under its descriptor, and the list leads to events that
    exist. *)
Record ok (w : Process) : Prop := mk_ok {
  ok_interest : ∀ f ev p, interest w !! f = Some (ev, p) → f ∈ opened w ∧ ∃ e, heap w !! p = Some e ∧ fd e = f;
  ok_heap : ∀ p e, heap w !! p = Some e → ∃ ev, interest w !! fd e = Some (ev, p);
  ok_fresh : ∀ p, is_Some (heap w !! p) → p < fresh w;
  ok_data : ∀ p e, heap w !! p = Some e → length (data e) = MAXLEN ∧ (0 ≤ length_ e)%Z ∧ (0 ≤ offset e)%Z;
}.

(** While an event is handled: the same without its entry in the list. *)
Definition with_event (p : nat) (e : EchoEvent) (w : Process) : Process :=
  set_interest (delete (fd e) (interest w)) (set_heap (<[p := e]> (heap w)) w).

Lemma event_deref_run p e w : heap w !! p = Some e → deref p w = Ret e w.
Proof. intros H. unfold deref. by rewrite H. Qed.

Lemma event_update_run p e f w : heap w !! p = Some e → update p f w = Ret tt (set_heap (<[p := f e]> (heap w)) w).
Proof. intros H. unfold update. by rewrite (bind_ret _ _ _ _ _ (event_deref_run _ _ _ H)). Qed.

Lemma add_run f ev p w : interest w !! f = None →
  modifyEpollContext EPOLL_CTL_ADD f ev p w = Ret tt (set_interest (<[f := (ev, p)]> (interest w)) w).
Proof. intros H. unfold modifyEpollContext. rewrite (bind_ret (gets interest) _ w (interest w) w) by done. by rewrite H. Qed.

Lemma del_run f x w : interest w !! f = Some x →
  modifyEpollContext EPOLL_CTL_DEL f 0 0 w = Ret tt (set_interest (delete f (interest w)) w).
Proof. intros H. unfold modifyEpollContext. rewrite (bind_ret (gets interest) _ w (interest w) w) by done. by rewrite H. Qed.

(** The entry of an event is put back. *)
Lemma ok_back w p e e' ev : ok w → heap w !! p = Some e → fd e' = fd e →
  length (data e') = MAXLEN → (0 ≤ length_ e')%Z → (0 ≤ offset e')%Z →
  ok (set_interest (<[fd e := (ev, p)]> (interest w)) (set_heap (<[p := e']> (heap w)) w)).
Proof.
  intros [H1 H2 H3 H4] Hp Hf Hl1 Hl2 Hl3. destruct (H2 p e Hp) as [ev0 Hev0]. split; cbn.
  - intros f ev1 q H. destruct (decide (f = fd e)) as [->|Hne].
    + rewrite lookup_insert_eq in H. injection H as <- <-. destruct (H1 _ _ _ Hev0) as [Ho _].
      split; [done|]. exists e'. by rewrite lookup_insert_eq.
    + rewrite lookup_insert_ne in H by done. destruct (H1 _ _ _ H) as (Ho & e1 & Hq & He1). split; [done|].
      exists e1. rewrite lookup_insert_ne; [done|]. intros ->. congruence.
  - intros q e1 H. destruct (decide (q = p)) as [->|Hne].
    + rewrite lookup_insert_eq in H. injection H as <-. rewrite Hf. exists ev. by rewrite lookup_insert_eq.
    + rewrite lookup_insert_ne in H by done. destruct (H2 q e1 H) as [ev1 Hev1]. exists ev1.
      rewrite lookup_insert_ne; [done|]. intros E. rewrite <-E in Hev1. congruence.
  - intros q H. destruct (decide (q = p)) as [->|Hne]; [by apply H3; rewrite Hp|]. rewrite lookup_insert_ne in H by done. by apply H3.
  - intros q e1 H. destruct (decide (q = p)) as [->|Hne].
    + rewrite lookup_insert_eq in H. by injection H as <-.
    + rewrite lookup_insert_ne in H by done. by eapply H4.
Qed.

(** A connection is closed and its event freed. *)
Lemma ok_closed w p e : ok w → heap w !! p = Some e →
  ok (set_heap (delete p (heap w)) (set_interest (delete (fd e) (interest w)) (set_opened (opened w ∖ {[fd e]}) w))).
Proof.
  intros [H1 H2 H3 H4] Hp. destruct (H2 p e Hp) as [ev0 Hev0]. split; cbn.
  - intros f ev q (Hne & H)%lookup_delete_Some. destruct (H1 _ _ _ H) as (Ho & e1 & Hq & He1). split; [set_solver|].
    exists e1. rewrite lookup_delete_ne; [done|]. intros ->. congruence.
  - intros q e1 (Hne & H)%lookup_delete_Some. destruct (H2 q e1 H) as [ev1 Hev1]. exists ev1.
    rewrite lookup_delete_ne; [done|]. intros E. rewrite <-E in Hev1. congruence.
  - intros q [e1 (_ & H)%lookup_delete_Some]. eauto.
  - intros q e1 (_ & H)%lookup_delete_Some. eauto.
Qed.

Lemma insert_entry {A} (i : gmap nat A) f x y : <[f := y]> (delete f (<[f := x]> i)) = <[f := y]> i.
Proof. by rewrite insert_delete_eq, insert_insert_eq. Qed.

Lemma dispatch_run w p e flag r : ok w → heap w !! p = Some e →
  dispatch p flag r w = handle p r (with_event p (mk_event (fd e) flag (data e) (length_ e) (offset e)) w).
Proof.
  intros Hok Hp. unfold dispatch. rewrite (bind_ret _ _ _ _ _ (event_update_run _ _ _ _ Hp)).
  set (w1 := set_heap _ w). set (e1 := mk_event (fd e) flag (data e) (length_ e) (offset e)).
  assert (heap w1 !! p = Some e1) as Hp1 by apply lookup_insert_eq.
  rewrite (bind_ret _ _ _ _ _ (event_deref_run _ _ _ Hp1)). destruct (ok_heap _ Hok p e Hp) as [ev Hev].
  by rewrite (bind_ret _ _ _ _ _ (del_run (fd e1) (ev, p) w1 Hev)).
Qed.

(** The outcomes of an event: the connection waits again, or is gone. *)
Definition back (p : nat) (e : EchoEvent) (ev : Z) (w : Process) : Process :=
  set_interest (<[fd e := (ev, p)]> (interest w)) (set_heap (<[p := e]> (heap w)) w).
Definition closed (p : nat) (e : EchoEvent) (w : Process) : Process :=
  set_heap (delete p (heap w)) (set_interest (delete (fd e) (interest w)) (set_opened (opened w ∖ {[fd e]}) w)).

Lemma close_free_run p e w : heap w !! p = Some e →
  (close (fd e);; free p) w = Ret tt (closed p e w).
Proof. intros H. unfold close, free, mbind, prog_bind, modify. cbn. by rewrite H. Qed.

Lemma closed_with p e e1 w : fd e1 = fd e → closed p e1 (with_event p e1 w) = closed p e w.
Proof.
  intros Hf. unfold closed, with_event. rewrite Hf. destruct w as [h f i o s]. cbn. rewrite delete_insert_eq.
  by rewrite delete_delete_eq.
Qed.

Lemma back_with p e e1 ev w : fd e1 = fd e → back p e ev (with_event p e1 w) = back p e ev w.
Proof.
  intros Hf. unfold back, with_event. rewrite Hf. destruct w as [h f i o s].
  unfold set_interest, set_heap. cbn [heap fresh interest opened sent].
  rewrite insert_insert_eq. by rewrite insert_delete_eq.
Qed.

Lemma read_step w p e r : ok w → heap w !! p = Some e →
  on_event (ConnEvent p EPOLLIN r) w =
    match r with
    | Read [] | Failed _ => Ret tt (closed p e w)
    | Read b =>
        let d := b ++ drop (length b) (data e) in
        if bool_decide (NUL ∈ d)
        then Ret tt (back p (mk_event (fd e) EPOLLIN d (Z.of_nat (length b)) (offset e)) EPOLLOUT w)
        else Undef OutOfBounds
    | Took _ => NoFuel
    end.
Proof.
  intros Hok Hp. change (on_event (ConnEvent p EPOLLIN r) w) with (dispatch p EPOLLIN r w).
  rewrite (dispatch_run w p e EPOLLIN r Hok Hp). set (e1 := mk_event _ _ _ _ _). set (w1 := with_event p e1 w).
  assert (heap w1 !! p = Some e1) as Hp1 by apply lookup_insert_eq.
  unfold handle. rewrite (bind_ret _ _ _ _ _ (event_deref_run _ _ _ Hp1)). cbn [event e1]. cbn [Z.eqb EPOLLIN Pos.eqb].
  unfold handle_read. rewrite (bind_ret _ _ _ _ _ (event_deref_run _ _ _ Hp1)).
  destruct r as [eintr|[|c b]|k]; [| | |done].
  - rewrite (close_free_run _ _ _ Hp1). f_equal. by apply closed_with.
  - rewrite (close_free_run _ _ _ Hp1). f_equal. by apply closed_with.
  - set (b' := c :: b). rewrite (bind_ret _ _ _ _ _ (event_update_run _ _ _ _ Hp1)). unfold print_data.
    cbn [data e1 fd event offset]. set (d := b' ++ drop (length b') (data e)). cbn zeta.
    case_bool_decide; [|done]. rewrite (bind_ret (mret tt) _ _ tt _ eq_refl).
    rewrite add_run by apply lookup_delete_eq. f_equal. rewrite <-(back_with p _ e1) by done.
    unfold back. cbn. done.
Qed.

Lemma write_step w p e r : ok w → heap w !! p = Some e →
  let e1 := mk_event (fd e) EPOLLOUT (data e) (length_ e) (offset e) in
  let buf := take (Z.to_nat (length_ e)) (drop (Z.to_nat (offset e)) (data e)) in
  on_event (ConnEvent p EPOLLOUT r) w =
    if (Z.of_nat MAXLEN <? offset e + length_ e)%Z then Undef OutOfBounds else
    match r with
    | Took k =>
        if (Z.of_nat k <? length_ e)%Z
        then Ret tt (back p (mk_event (fd e) EPOLLOUT (data e) (length_ e - Z.of_nat k) (offset e + Z.of_nat k)) EPOLLOUT
                       (add_sent (fd e, take k buf) w))
        else Ret tt (back p e1 EPOLLIN (add_sent (fd e, take k buf) w))
    | Failed eintr => Ret tt (back p e1 EPOLLOUT w)
    | Read _ => NoFuel
    end.
Proof.
  intros Hok Hp e1 buf. change (on_event (ConnEvent p EPOLLOUT r) w) with (dispatch p EPOLLOUT r w).
  rewrite (dispatch_run w p e EPOLLOUT r Hok Hp). fold e1. set (w1 := with_event p e1 w).
  assert (heap w1 !! p = Some e1) as Hp1 by apply lookup_insert_eq.
  destruct (ok_data _ Hok _ _ Hp) as (_ & Hl & _).
  unfold handle. rewrite (bind_ret _ _ _ _ _ (event_deref_run _ _ _ Hp1)).
  change (EPOLLIN =? event e1)%Z with false. change (EPOLLOUT =? event e1)%Z with true. cbv iota.
  unfold handle_write. rewrite (bind_ret _ _ _ _ _ (event_deref_run _ _ _ Hp1)).
  change (offset e1) with (offset e). change (length_ e1) with (length_ e). change (data e1) with (data e).
  change (fd e1) with (fd e). fold buf. destruct (_ <? _)%Z; [done|].
  destruct r as [eintr|b|k]; [|done|].
  - rewrite (bind_ret _ _ w1 (-1, eintr)%Z w1) by done. cbv beta iota zeta.
    rewrite (proj2 (Z.ltb_lt (-1) (length_ e))) by lia. rewrite orb_true_r. cbv iota.
    rewrite (bind_ret _ _ _ _ _ (add_run (fd e) EPOLLOUT p w1 (lookup_delete_eq _ _))). cbn [Z.eqb Pos.eqb negb].
    unfold mret, prog_ret. f_equal. rewrite <-(back_with p e1 e1) by done. unfold back. fold w1. cbn.
    by rewrite insert_insert_eq.
  - set (w2 := add_sent (fd e, take k buf) w1).
    rewrite (bind_ret _ _ w1 (Z.of_nat k, false) w2) by done. cbv beta iota zeta.
    assert (Z.of_nat k =? -1 = false)%Z as -> by (apply Z.eqb_neq; lia). cbn [andb orb negb].
    assert (interest w2 !! fd e = None) as Hi by apply lookup_delete_eq.
    destruct (Z.ltb_spec (Z.of_nat k) (length_ e)).
    + rewrite (bind_ret _ _ _ _ _ (add_run (fd e) EPOLLOUT p w2 Hi)).
      assert (heap (set_interest (<[fd e:=(EPOLLOUT, p)]> (interest w2)) w2) !! p = Some e1) as Hp2 by done.
      rewrite (event_update_run _ _ _ _ Hp2). f_equal. rewrite <-(back_with p _ e1) by done. done.
    + rewrite (add_run _ _ _ _ Hi). f_equal. rewrite <-(back_with p e1 e1) by done. unfold back. cbn. by rewrite insert_insert_eq.
Qed.

(** ** A batch of events *)

Definition ptr_of (ev : epoll_event) : option nat := match ev with ConnEvent p _ _ => Some p | _ => None end.
Definition accepted (ev : epoll_event) : option nat := match ev with ServerEvent _ f _ => f | _ => None end.
(** The system calls answer as documented: [read] returns at most [MAXLEN] bytes. *)
Definition answered (ev : epoll_event) : bool :=
  match ev with
  | ConnEvent _ flags r =>
      match r with
      | Read b => bool_decide (flags ≠ EPOLLOUT ∧ length b ≤ MAXLEN)
      | Took _ => bool_decide (flags ≠ EPOLLIN)
      | Failed _ => true
      end
  | _ => true
  end.

(** What the event of one connection leaves of the others. *)
Definition others_kept (p : option nat) (w w' : Process) : Prop :=
  ∀ q, Some q ≠ p → is_Some (heap w !! q) → is_Some (heap w' !! q).

Lemma conn_event_ok w p flags r : ok w → is_Some (heap w !! p) → answered (ConnEvent p flags r) = true →
  match on_event (ConnEvent p flags r) w with
  | Ret _ w' => ok w' ∧ others_kept (Some p) w w' ∧ opened w' ⊆ opened w
  | Undef u => u = OutOfBounds
  | _ => False
  end.
Proof.
  intros Hok [e Hp] Ha. pose proof (ok_data _ Hok _ _ Hp) as (Hd & Hl & Ho).
  assert (Hclosed : ok (closed p e w) ∧ others_kept (Some p) w (closed p e w) ∧ opened (closed p e w) ⊆ opened w).
  { split_and!; [by apply ok_closed| |cbn; set_solver]. intros q Hq Hs. cbn. rewrite lookup_delete_ne; [done|congruence]. }
  assert (Hback : ∀ e' ev w', ok w' → heap w' = heap w → opened w' = opened w → fd e' = fd e → length (data e') = MAXLEN →
    (0 ≤ length_ e')%Z → (0 ≤ offset e')%Z →
    ok (back p e' ev w') ∧ others_kept (Some p) w (back p e' ev w') ∧ opened (back p e' ev w') ⊆ opened w).
  { intros e' ev w' Hok' Eh Eo Hf Hd' Hl' Ho'. split_and!.
    - unfold back. rewrite Hf. apply (ok_back w' p e); [done|by rewrite Eh|done..].
    - intros q Hq Hs. cbn. rewrite Eh. rewrite lookup_insert_ne; [done|congruence].
    - cbn. by rewrite Eo. }
  destruct (hup_or_err flags) eqn:Ehup.
  { cbn [on_event]. rewrite Ehup. rewrite (bind_ret _ _ _ _ _ (event_deref_run _ _ _ Hp)). by rewrite close_free_run. }
  destruct (decide (flags = EPOLLIN)) as [->|Hin].
  { rewrite (read_step w p e r Hok Hp). destruct r as [eintr|[|c b]|k]; [done|done| |by cbn in Ha].
    cbn [answered] in Ha. apply bool_decide_eq_true_1 in Ha as [_ Ha]. cbn zeta. case_bool_decide; [|done].
    apply Hback; try done. cbn [data]. rewrite length_app, length_drop, Hd. lia. }
  destruct (decide (flags = EPOLLOUT)) as [->|Hout].
  { rewrite (write_step w p e r Hok Hp). destruct (_ <? _)%Z; [done|].
    destruct r as [eintr|b|k]; [by apply Hback|by cbn in Ha|].
    assert (ok (add_sent (fd e, take k (take (Z.to_nat (length_ e)) (drop (Z.to_nat (offset e)) (data e)))) w)) as Hok'
      by (destruct Hok; by split).
    destruct (Z.ltb_spec (Z.of_nat k) (length_ e)); apply Hback; try done; cbn; lia. }
  cbn [on_event]. rewrite Ehup.
  rewrite (proj2 (Z.eqb_neq EPOLLIN flags)), (proj2 (Z.eqb_neq EPOLLOUT flags)) by congruence.
  split_and!; [done|by intros q _|done].
Qed.

Lemma server_event_ok w flags f nb : ok w → (∀ x, f = Some x → x ∉ opened w) →
  match on_event (ServerEvent flags f nb) w with
  | Ret _ w' => ok w' ∧ others_kept None w w' ∧ opened w' ⊆ opened w ∪ default ∅ (singleton <$> f)
  | Throw e _ => e = "exit(1)"
  | _ => False
  end.
Proof.
  intros Hok Hf. cbn [on_event]. destruct (hup_or_err flags); [done|]. destruct f as [f|]; [|done]. specialize (Hf f eq_refl).
  unfold mbind at 1, prog_bind at 1, modify at 1. destruct nb; [|done].
  unfold makeSocketNonBlocking, mbind at 1, prog_bind at 1. cbn [negb]. unfold mret at 1, prog_ret at 1.
  unfold calloc. unfold mbind at 1, prog_bind at 1. set (w1 := mk_process _ _ _ _ _).
  assert (interest w !! f = None) as Hi.
  { apply eq_None_not_Some. intros [[ev q] H]. by destruct (ok_interest _ Hok _ _ _ H). }
  assert (heap w !! fresh w = None) as Hfr.
  { apply eq_None_not_Some. intros H. apply (ok_fresh _ Hok) in H. lia. }
  rewrite add_run by exact Hi. destruct Hok as [H1 H2 H3 H4]. split_and!; [split; cbn|..].
  - intros f' ev q H. destruct (decide (f' = f)) as [->|Hne].
    + rewrite lookup_insert_eq in H. injection H as <- <-. split; [set_solver|]. eexists. by rewrite lookup_insert_eq.
    + rewrite lookup_insert_ne in H by done. destruct (H1 _ _ _ H) as (Ho & e1 & Hq & He1). split; [set_solver|].
      exists e1. rewrite lookup_insert_ne; [done|]. intros E. congruence.
  - intros q e1 H. destruct (decide (q = fresh w)) as [->|Hne].
    + rewrite lookup_insert_eq in H. injection H as <-. exists EPOLLIN. by rewrite lookup_insert_eq.
    + rewrite lookup_insert_ne in H by done. destruct (H2 q e1 H) as [ev1 Hev1]. exists ev1.
      rewrite lookup_insert_ne; [done|]. intros E. congruence.
  - intros q H. destruct (decide (q = fresh w)) as [->|Hne]; [lia|]. rewrite lookup_insert_ne in H by done. apply H3 in H. lia.
  - intros q e1 H. destruct (decide (q = fresh w)) as [->|Hne].
    + rewrite lookup_insert_eq in H. injection H as <-. done.
    + rewrite lookup_insert_ne in H by done. by eapply H4.
  - intros q _ Hs. cbn. destruct (decide (q = fresh w)) as [->|Hne]; [rewrite lookup_insert_eq; eauto|by rewrite lookup_insert_ne].
  - cbn. set_solver.
Qed.

(** Whatever a batch of events reports and the system calls answer, as long as the batch
    names every connection once: no event is used or freed after it was freed, every
    connection stays in the interest list until it is closed, and the only way out of
    the loop is the exit for a failing call; what remains is an access behind the end of a
    buffer. *)
Theorem echo_batch_safe evs : ∀ w, ok w → NoDup (omap ptr_of evs) →
  (∀ p, p ∈ omap ptr_of evs → is_Some (heap w !! p)) → NoDup (omap accepted evs) →
  (∀ f, f ∈ omap accepted evs → f ∉ opened w) → Forall answered evs →
  match on_events evs w with
  | Ret _ w' => ok w'
  | Throw e _ => e = "exit(1)"
  | Undef u => u = OutOfBounds
  | NoFuel => False
  end.
Proof.
  induction evs as [|ev evs IH]; intros w Hok Hnd Hp Hna Hf Hans; [done|].
  apply Forall_cons in Hans as [Hev Hans]. cbn [on_events]. destruct ev as [flags f nb|p flags r].
  - assert (∀ x, f = Some x → x ∉ opened w) as Hf0.
    { intros x ->. apply Hf. cbn. by left. }
    pose proof (server_event_ok w flags f nb Hok Hf0) as H. unfold mbind, prog_bind.
    destruct (on_event _ w) as [[] w1|e w1| |]; [|done..]. destruct H as (Hok1 & Hk & Ho). apply IH; [done|done| | | |done].
    + intros p Hin. apply Hk; [done|]. by apply Hp.
    + cbn in Hna. destruct f; [|done]. by apply NoDup_cons in Hna as [_ ?].
    + intros x Hin. cbn in Hf, Hna. intros Hx. apply Ho, elem_of_union in Hx as [Hx|Hx].
      * revert Hx. apply Hf. destruct f; [by right|done].
      * destruct f as [y|]; [|set_solver]. cbn in Hx. apply elem_of_singleton in Hx as ->. by apply NoDup_cons in Hna as [? _].
  - cbn in Hnd, Hp, Hna, Hf. apply NoDup_cons in Hnd as [Hnotin Hnd].
    pose proof (conn_event_ok w p flags r Hok (Hp p ltac:(by left)) (Is_true_true_1 _ Hev)) as H. unfold mbind, prog_bind.
    destruct (on_event _ w) as [[] w1|e w1| |]; [|done..]. destruct H as (Hok1 & Hk & Ho). apply IH; [done|done| |done| |done].
    + intros q Hin. apply Hk; [congruence|]. apply Hp. by right.
    + intros x Hin Hx. apply (Hf x Hin). by apply Ho.
Qed.

(** What epoll and accept promise for a batch: every connection once, only those that are
    waited for, descriptors that were not open. *)
Record delivered (w : Process) (evs : list epoll_event) : Prop := mk_delivered {
  once : NoDup (omap ptr_of evs);
  waited : ∀ p, p ∈ omap ptr_of evs → ∃ f ev, interest w !! f = Some (ev, p);
  accepts_once : NoDup (omap accepted evs);
  accepts_new : ∀ f, f ∈ omap accepted evs → f ∉ opened w;
  all_answered : Forall answered evs;
}.

Fixpoint all_delivered (w : Process) (batches : list (option (list epoll_event))) : Prop :=
  match batches with
  | Some evs :: batches => delivered w evs ∧ ∀ w', on_events evs w = Ret tt w' → all_delivered w' batches
  | _ => True
  end.

Lemma main_loop_safe batches : ∀ w, ok w → all_delivered w batches →
  match main_loop batches w with
  | Ret _ _ | NoFuel => False
  | Throw e _ => e = "exit(1)" ∨ e = "waits"
  | Undef u => u = OutOfBounds
  end.
Proof.
  induction batches as [|[evs|] batches IH]; intros w Hok Hd; [by right| |by left].
  destruct Hd as [[H1 H2 H3 H4 H5] Hd]. cbn [main_loop].
  assert (Hp : ∀ p, p ∈ omap ptr_of evs → is_Some (heap w !! p)).
  { intros p (f & ev & Hf)%H2. destruct (ok_interest _ Hok _ _ _ Hf) as (_ & e & -> & _). by exists e. }
  pose proof (echo_batch_safe evs w Hok H1 Hp H3 H4 H5) as H. unfold mbind, prog_bind.
  destruct (on_events evs w) as [[] w1|e w1| |] eqn:E; [|by left|done..]. apply IH; [done|by apply Hd].
Qed.

Lemma new_process_ok f : ok (set_opened f new_process).
Proof. split; cbn; intros *; rewrite ?lookup_empty; [done..| |done]. by intros []. Qed.

(** [main] never returns: it exits when a call fails, or waits for the next events; as long
    as epoll and accept keep their promises the only undefined behaviour is an access behind
    a buffer. *)
Theorem echo_main_safe a batches :
  (∀ f e, serverfd a = Some f → epollfd a = Some e →
    all_delivered (set_opened ({[e]} ∪ ({[f]} ∪ ∅)) new_process) batches) →
  match main a batches new_process with
  | Ret _ _ | NoFuel => False
  | Throw e _ => e = "exit(1)" ∨ e = "waits"
  | Undef u => u = OutOfBounds
  end.
Proof.
  intros Hd. unfold main, listening_socket. destruct (serverfd a) as [f|]; [|by left].
  specialize (Hd f). destruct (binds a), (listens a), (epollfd a) as [e|], (registers a); try by left.
  exact (main_loop_safe _ _ (new_process_ok _) (Hd e eq_refl eq_refl)).
Qed.

(** ** The session of a connection *)

(** What was written to a descriptor. *)
Definition stream (f : nat) (w : Process) : bytes := concat ((filter (λ x, x.1 = f) (sent w)).*2).

(** The messages of a client, each with the pieces in which the kernel takes the answer,
    and the events they cause. *)
Definition message : Type := bytes * list nat.
Definition events_of (p : nat) (m : message) : list epoll_event :=
  ConnEvent p EPOLLIN (Read m.1) :: ((λ k, ConnEvent p EPOLLOUT (Took k)) <$> m.2).
Definition session (p : nat) (ms : list message) : list epoll_event := ms ≫= events_of p.
(** As much as [read] returns, and pieces that make up the answer. *)
Definition in_pieces (m : message) : Prop := m.1 ≠ [] ∧ length m.1 ≤ MAXLEN ∧ Forall (λ k, 0 < k) m.2 ∧ sum_list m.2 = length m.1.
Definition in_one_piece (m : message) : Prop := m.2 = [length m.1].

(** The answers without the machinery: [d] is the buffer, which is never cleared, and [o]
    the offset, which is never set back. *)
Fixpoint echoes (d : bytes) (o : nat) (ms : list message) : option bytes :=
  match ms with
  | [] => Some []
  | m :: ms =>
      let n := length m.1 in
      let d := m.1 ++ drop n d in
      if bool_decide (NUL ∈ d) && (o + n <=? MAXLEN) then
        app (take n (drop o d)) <$> echoes d (o + (n - default 0 (last m.2))) ms
      else None
  end.

Lemma on_events_app evs evs' w : on_events (evs ++ evs') w = (on_events evs;; on_events evs') w.
Proof.
  revert w. induction evs as [|ev evs IH]; intros w; [done|]. cbn [on_events app]. rewrite prog_assoc.
  unfold mbind, prog_bind. destruct (on_event ev w); [|done..]. apply IH.
Qed.

Lemma stream_sent f b w p e ev : stream f (back p e ev (add_sent (f, b) w)) = stream f w ++ b.
Proof.
  unfold stream. cbn [sent back set_interest set_heap add_sent]. rewrite filter_app, fmap_app, concat_app. f_equal.
  rewrite filter_cons_True by done. cbn. by rewrite app_nil_r.
Qed.

Lemma back_ok w p e e' ev : ok w → heap w !! p = Some e → fd e' = fd e → length (data e') = MAXLEN →
  (0 ≤ length_ e')%Z → (0 ≤ offset e')%Z → ok (back p e' ev w).
Proof. intros. unfold back. rewrite H1. by apply (ok_back w p e). Qed.

Lemma add_sent_ok x w : ok w → ok (add_sent x w).
Proof. intros []. by split. Qed.

Lemma take_pieces {A} (k n o : nat) (d : list A) : k ≤ n →
  take k (take n (drop o d)) ++ take (n - k) (drop (o + k) d) = take n (drop o d).
Proof.
  intros H. rewrite take_take, Nat.min_l by done. rewrite <-drop_drop.
  rewrite <-(take_drop k (take n (drop o d))) at 1. rewrite take_take, Nat.min_l by done. f_equal.
  rewrite skipn_firstn_comm. done.
Qed.

Lemma last_le_sum (ks : list nat) : default 0 (last ks) ≤ sum_list ks.
Proof. induction ks as [|k [|k' ks] IH]; cbn in *; lia. Qed.

(** The pieces of one answer. *)
Lemma write_session p ks : ∀ n o w e,
  ok w → heap w !! p = Some e → length_ e = Z.of_nat n → offset e = Z.of_nat o → o + n ≤ MAXLEN →
  ks ≠ [] → Forall (λ k, 0 < k) ks → sum_list ks = n →
  ∃ w' e', on_events ((λ k, ConnEvent p EPOLLOUT (Took k)) <$> ks) w = Ret tt w' ∧ ok w' ∧
    heap w' !! p = Some e' ∧ fd e' = fd e ∧ data e' = data e ∧ offset e' = Z.of_nat (o + (n - default 0 (last ks))) ∧
    stream (fd e) w' = stream (fd e) w ++ take n (drop o (data e)).
Proof.
  induction ks as [|k ks IH]; intros n o w e Hok Hp Hl Ho Hmax Hne Hpos Hsum; [done|].
  apply Forall_cons in Hpos as [Hk Hpos]. cbn in Hsum. cbn [fmap list_fmap on_events].
  pose proof (write_step w p e (Took k) Hok Hp) as Hw. cbn zeta in Hw. rewrite Hl, Ho, !Nat2Z.id in Hw.
  destruct (ok_data _ Hok _ _ Hp) as (Hd & _ & _).
  rewrite (proj2 (Z.ltb_ge _ _)) in Hw by (unfold MAXLEN in *; lia). destruct ks as [|k' ks].
  - cbn in Hsum. assert (k = n) as -> by lia. rewrite Z.ltb_irrefl in Hw. rewrite (bind_ret _ _ _ _ _ Hw). cbn [on_events fmap list_fmap].
    eexists _, _. split; [done|]. split_and!.
    + apply back_ok with e; try done; [by apply add_sent_ok| |]; cbn; lia.
    + apply lookup_insert_eq.
    + done.
    + done.
    + cbn. lia.
    + rewrite stream_sent. f_equal. by rewrite take_take, Nat.min_id.
  - assert (0 < k') as Hk' by (by apply Forall_cons in Hpos as [? _]). cbn in Hsum.
    rewrite (proj2 (Z.ltb_lt _ _)) in Hw by lia. rewrite (bind_ret _ _ _ _ _ Hw).
    match type of Hw with _ = Ret tt ?w1 => set (w1' := w1) end.
    destruct (IH (n - k) (o + k) w1' (mk_event (fd e) EPOLLOUT (data e) (Z.of_nat n - Z.of_nat k) (Z.of_nat o + Z.of_nat k)))
      as (w' & e' & E & Hok' & Hp' & Hf' & Hd' & Ho' & Hs').
    + apply back_ok with e; try done; [by apply add_sent_ok|cbn; lia|cbn; lia].
    + apply lookup_insert_eq.
    + cbn. lia.
    + cbn. lia.
    + lia.
    + done.
    + done.
    + cbn. lia.
    + exists w', e'. split; [exact E|]. split_and!; try done.
      * rewrite Ho'. f_equal. change (last (k :: k' :: ks)) with (last (k' :: ks)).
        pose proof (last_le_sum (k' :: ks)) as Hlast.
        change (sum_list (k' :: ks)) with (k' + sum_list ks) in Hlast. lia.
      * assert (stream (fd e) w1' = stream (fd e) w ++ take k (take n (drop o (data e)))) as Hs1 by apply stream_sent.
        cbn [fd data] in Hs'. rewrite Hs', Hs1, <-app_assoc. f_equal.
        apply take_pieces. lia.
Qed.

Lemma message_run p m w e : ok w → heap w !! p = Some e → in_pieces m → (0 ≤ offset e)%Z →
  let o := Z.to_nat (offset e) in let n := length m.1 in let d := m.1 ++ drop n (data e) in
  if bool_decide (NUL ∈ d) && (o + n <=? MAXLEN) then
    ∃ w' e', on_events (events_of p m) w = Ret tt w' ∧ ok w' ∧ heap w' !! p = Some e' ∧ fd e' = fd e ∧ data e' = d ∧
      offset e' = Z.of_nat (o + (n - default 0 (last m.2))) ∧ stream (fd e) w' = stream (fd e) w ++ take n (drop o d)
  else on_events (events_of p m) w = Undef OutOfBounds.
Proof.
  intros Hok Hp (Hne & Hn & Hpos & Hsum) Hoff o n d. destruct m as [b ks]. cbn [fst snd] in *.
  pose proof (read_step w p e (Read b) Hok Hp) as Hr. destruct b as [|c b]; [done|]. cbv zeta in Hr. fold n d in Hr.
  destruct (ok_data _ Hok _ _ Hp) as (Hd & _ & _).
  cbn [events_of on_events fst snd]. destruct (bool_decide (NUL ∈ d)); cbn [andb]; [|by apply bind_undef].
  rewrite (bind_ret _ _ _ _ _ Hr). match type of Hr with _ = Ret tt ?x => set (w1 := x) end.
  set (e1 := mk_event (fd e) EPOLLIN d (Z.of_nat n) (offset e)).
  assert (ok w1) as Hok1.
  { apply back_ok with e; try done; cbn [data]. unfold d. rewrite length_app, length_drop, Hd. fold n. lia. }
  assert (heap w1 !! p = Some e1) as Hp1 by apply lookup_insert_eq.
  assert (ks ≠ []) as Hks by (intros ->; by cbn in Hsum).
  assert (offset e = Z.of_nat o) as Ho by (unfold o; lia).
  destruct (Nat.leb_spec (o + n) MAXLEN) as [Hle|Hgt].
  - destruct (write_session p ks n o w1 e1 Hok1 Hp1 eq_refl Ho Hle Hks Hpos Hsum)
      as (w' & e' & E & Hok' & Hp' & Hf' & Hd' & Ho' & Hs'). exists w', e'. split_and!; try done.
  - destruct ks as [|k ks]; [done|]. cbn [fmap list_fmap on_events]. apply bind_undef.
    pose proof (write_step w1 p e1 (Took k) Hok1 Hp1) as Hw. cbv zeta in Hw.
    rewrite (proj2 (Z.ltb_lt _ _)) in Hw; [done|]. cbn [offset length_ e1]. lia.
Qed.

Lemma session_run p ms : ∀ w e, ok w → heap w !! p = Some e → Forall in_pieces ms →
  match echoes (data e) (Z.to_nat (offset e)) ms with
  | Some out => ∃ w', on_events (session p ms) w = Ret tt w' ∧ ok w' ∧ stream (fd e) w' = stream (fd e) w ++ out
  | None => on_events (session p ms) w = Undef OutOfBounds
  end.
Proof.
  induction ms as [|m ms IH]; intros w e Hok Hp Hms.
  - exists w. cbn. by rewrite app_nil_r.
  - apply Forall_cons in Hms as [Hm Hms]. cbn [session]. destruct (ok_data _ Hok _ _ Hp) as (_ & _ & Ho).
    pose proof (message_run p m w e Hok Hp Hm Ho) as H. cbv zeta in H. unfold session. cbn [mbind list_bind]. rewrite on_events_app. cbn [echoes].
    cbv zeta. destruct (bool_decide _ && _); [|by apply bind_undef].
    destruct H as (w1 & e1 & E1 & Hok1 & Hp1 & Hf1 & Hd1 & Ho1 & Hs1). rewrite (bind_ret _ _ _ _ _ E1).
    specialize (IH w1 e1 Hok1 Hp1 Hms). rewrite Hd1, Ho1, Nat2Z.id, Hf1 in IH. change (ms ≫= events_of p) with (session p ms).
    destruct (echoes _ _ ms) as [out|]; cbn [fmap option_fmap option_map]; [|done].
    destruct IH as (w2 & E2 & Hok2 & Hs2). exists w2. split_and!; [done..|]. by rewrite Hs2, Hs1, app_assoc.
Qed.

(** Without pieces the answers are the messages. *)
Lemma echoes_whole ms : ∀ d, length d = MAXLEN → d !! 254 = Some NUL →
  Forall in_pieces ms → Forall (λ m : message, length m.1 < MAXLEN) ms →
  (∀ ms' m, ms = ms' ++ [m] → Forall in_one_piece ms') →
  echoes d 0 ms = Some (concat ms.*1).
Proof.
  induction ms as [|[b ks] ms IH]; intros d Hd Hz Hp Hs Hone; [done|].
  apply Forall_cons in Hp as [Hp Hps], Hs as [Hs Hss]. cbn [echoes fst snd] in *. cbv zeta.
  set (d' := b ++ drop (length b) d).
  assert (length d' = MAXLEN) as Hd' by (unfold d'; rewrite length_app, length_drop, Hd; lia).
  assert (d' !! 254 = Some NUL) as Hz'.
  { unfold d'. unfold MAXLEN in *. rewrite lookup_app_r by lia. rewrite lookup_drop. rewrite <-Hz. f_equal. lia. }
  rewrite bool_decide_eq_true_2 by (by eapply list_elem_of_lookup_2). rewrite (proj2 (Nat.leb_le _ _)) by (unfold MAXLEN in *; lia).
  cbn [andb]. assert (take (length b) (drop 0 d') = b) as -> by (rewrite drop_0; unfold d'; by rewrite take_app_length).
  destruct ms as [|m ms].
  - cbn. by rewrite app_nil_r.
  - assert (in_one_piece (b, ks)) as Hks.
    { destruct (exists_last (l := m :: ms) ltac:(done)) as (ms' & m' & Em). rewrite Em in Hone.
      specialize (Hone ((b, ks) :: ms') m' eq_refl). by apply Forall_cons in Hone as [? _]. }
    unfold in_one_piece in Hks. cbn [fst snd] in Hks. rewrite Hks. cbn [last default]. rewrite Nat.sub_diag.
    change (0 + 0) with 0. rewrite IH; try done.
    intros ms' m' Em. specialize (Hone ((b, ks) :: ms') m' ltac:(by rewrite Em)). by apply Forall_cons in Hone as [_ ?].
Qed.

(** C31: A connection answers its messages as [echoes] says: with what it was sent as long as the kernel takes
    every answer but the last in one piece (and no message fills the buffer); after an
    answer in pieces with bytes of the buffer behind the message, until it reads over
    the end. *)
Theorem echo_session w p e ms : ok w → heap w !! p = Some e → Forall in_pieces ms →
  match echoes (data e) (Z.to_nat (offset e)) ms with
  | Some out => ∃ w', on_events (session p ms) w = Ret tt w' ∧ ok w' ∧ stream (fd e) w' = stream (fd e) w ++ out
  | None => on_events (session p ms) w = Undef OutOfBounds
  end ∧
  (data e = replicate MAXLEN NUL → offset e = 0%Z → Forall (λ m : message, length m.1 < MAXLEN) ms →
   (∀ ms' m, ms = ms' ++ [m] → Forall in_one_piece ms') →
   ∃ w', on_events (session p ms) w = Ret tt w' ∧ stream (fd e) w' = stream (fd e) w ++ concat ms.*1).
Proof.
  intros Hok Hp Hms. pose proof (session_run p ms w e Hok Hp Hms) as H. split; [done|].
  intros Hd Ho Hs Hone. rewrite Ho in H. change (Z.to_nat 0) with 0 in H. rewrite (echoes_whole ms (data e)) in H; try done.
  - destruct H as (w' & E & _ & Hw'). by exists w'.
  - by rewrite Hd.
  - by rewrite Hd.
Qed.

(** A server that has accepted one connection. *)
Definition client_state : Process :=
  match on_event (ServerEvent EPOLLIN (Some 7) true) (mk_process ∅ 0 ∅ ∅ []) with Ret _ w => w | _ => mk_process ∅ 0 ∅ ∅ [] end.

Lemma client_ok : ok client_state.
Proof.
  assert (ok (mk_process ∅ 0 ∅ ∅ [])) as H0.
  { exact (new_process_ok ∅). }
  pose proof (server_event_ok _ EPOLLIN (Some 7) true H0 ltac:(done)) as H. by destruct H.
Qed.

(** The second message after an answer in two pieces: its first byte is lost, and a byte of the
    buffer is sent behind it. *)
Lemma echo_session_witness :
  ∃ w', on_events (session 0 [(lit "ab", [1; 1]); (lit "cd", [2])]) client_state = Ret tt w' ∧
    stream 7 w' = lit "abd" ++ [NUL].
Proof.
  assert (heap client_state !! 0 = Some (mk_event 7 0 (replicate MAXLEN NUL) 0 0)) as Hp by (by vm_compute).
  assert (Forall in_pieces [(lit "ab", [1; 1]); (lit "cd", [2])]) as Hms.
  { repeat constructor; cbn; try done; unfold MAXLEN; lia. }
  destruct (echo_session client_state 0 _ _ client_ok Hp Hms) as [H _].
  assert (echoes (replicate MAXLEN NUL) 0 [(lit "ab", [1; 1]); (lit "cd", [2])] = Some (lit "abd" ++ [NUL])) as E by (by vm_compute).
  cbn [data offset] in H. change (Z.to_nat 0) with 0 in H. rewrite E in H. destruct H as (w' & Ew & _ & Hs). exists w'. split; [exact Ew|].
  exact Hs.
Defined.
