(* ===== verification/EpollExample.v ===== *)
(** * A server on edge-triggered events

    Model of src/sysprog/afina/materials/05-non-blocking-network/code/epoll-example.c: it
    prints what its clients send.  The clients and the kernel act between any two
    system calls of the server. *)

From S2P Require Import Prelude Concur.

(** ** State *)

(** A connection: who it is, the bytes and the end that wait to be read, and whether epoll
    has an event to report; [arrived] are all bytes that came. *)
Record conn : Type := mk_conn { who : nat; unread : bytes; eof : bool; edge : bool; arrived : bytes }.

(** What an event is about. *)
Inductive source : Type := Listener | Client (fd : nat).

#[export] Instance source_eq_dec : EqDecision source.
Proof. solve_decision. Defined.

(** An event, and whether it has an error flag or no [EPOLLIN]. *)
Definition event : Type := source * bool.

(** The loops of [main]; [evs] is the rest of [events]. *)
Inductive pc : Type :=
| e_wait                                             (* epoll_wait *)
| e_batch (evs : list event)                         (* for (i = 0; i < n; i++) *)
| e_accept (evs : list event)                        (* accept *)
| e_add (fd : nat) (evs : list event)                (* make_socket_non_blocking, EPOLL_CTL_ADD *)
| e_read (fd : nat) (evs : list event)               (* read *)
| e_write (fd : nat) (b : bytes) (evs : list event)  (* write(1, buf, count) *)
| e_abort.

(** [backlog]: the connections that wait to be accepted; [printed]: what was written, and for whom;
    [finished]: the connections whose end was read, with all that had come; [dropped]: those
    that the server closed for another reason. *)
Record Server : Type := mk_server {
  clients : gmap nat conn;
  backlog : nat;
  listening : bool;
  listener_edge : bool;
  accepted : nat;
  printed : list (nat * bytes);
  finished : list (nat * bytes);
  at_ : pc;
  dropped : list (nat * bytes);
}.

(** When the listening socket has been added. *)
Definition start : Server := mk_server ∅ 0 true false 0 [] [] e_wait [].

Definition set_pc p s := mk_server (clients s) (backlog s) (listening s) (listener_edge s) (accepted s) (printed s) (finished s) p (dropped s).
Definition set_client fd c s := mk_server (<[fd := c]> (clients s)) (backlog s) (listening s) (listener_edge s) (accepted s) (printed s) (finished s) (at_ s) (dropped s).
Definition set_clients m s := mk_server m (backlog s) (listening s) (listener_edge s) (accepted s) (printed s) (finished s) (at_ s) (dropped s).
Definition set_listener l e s := mk_server (clients s) (backlog s) l e (accepted s) (printed s) (finished s) (at_ s) (dropped s).
Definition set_finished o s := mk_server (clients s) (backlog s) (listening s) (listener_edge s) (accepted s) (printed s) o (at_ s) (dropped s).
Definition set_dropped o s := mk_server (clients s) (backlog s) (listening s) (listener_edge s) (accepted s) (printed s) (finished s) (at_ s) o.
Definition set_printed o s := mk_server (clients s) (backlog s) (listening s) (listener_edge s) (accepted s) o (finished s) (at_ s) (dropped s).

(** ** Steps *)

Definition MAXEVENTS : nat := 64.
Definition BUF : nat := 512.

(** Clients connect, send and close; the server makes a system call, with its answer. *)
Inductive label : Type :=
| Connect
| Send (fd : nat) (b : bytes)
| Close (fd : nat)
| Reported (evs : list event)
| Turn
| Accepted (fd : nat)
| AcceptAgain
| AcceptError
| Added (ok : bool)
| Read (n : nat)
| ReadError
| Wrote (rest : option nat).   (* -1, or how many bytes were not taken *)

(** New data, or the end, makes an event. *)
Definition receive (b : bytes) (c : conn) : conn := mk_conn (who c) (unread c ++ b) (eof c) true (arrived c ++ b).
Definition end_of_file (c : conn) : conn := mk_conn (who c) (unread c) true true (arrived c).

(** Has epoll an event to report? *)
Definition has_edge (s : Server) (x : source) : bool :=
  match x with
  | Listener => listening s && listener_edge s
  | Client fd => match clients s !! fd with Some c => edge c | None => false end
  end.
Definition reportable (s : Server) (evs : list event) : bool :=
  negb (bool_decide (evs = [])) && (length evs <=? MAXEVENTS) && bool_decide (NoDup evs.*1) &&
  forallb (λ e, has_edge s e.1) evs.
(** An event that was reported is not reported again. *)
Definition clear_edge (b : bool) (c : conn) : conn := mk_conn (who c) (unread c) (eof c) (edge c && negb b) (arrived c).
Definition clear (evs : list event) (s : Server) : Server :=
  mk_server (map_imap (λ fd c, Some (clear_edge (bool_decide (Client fd ∈ evs.*1)) c)) (clients s)) (backlog s) (listening s)
    (listener_edge s && negb (bool_decide (Listener ∈ evs.*1))) (accepted s) (printed s) (finished s) (at_ s) (dropped s).

(** [close(events[i].data.fd)] *)
Definition close (x : source) (s : Server) : Server :=
  match x with
  | Listener => set_listener false false s
  | Client fd => set_clients (delete fd (clients s)) s
  end.

(** A connection that is closed without its end having been read. *)
Definition lose (x : source) (s : Server) : Server :=
  match x with
  | Listener => s
  | Client fd =>
      match clients s !! fd with Some c => set_dropped (dropped s ++ [(who c, arrived c)]) s | None => s end
  end.

Definition step (l : label) (s : Server) : attempt Server :=
  match l, at_ s with
  (* the clients *)
  | Connect, _ => if listening s then Next (mk_server (clients s) (S (backlog s)) true true (accepted s) (printed s) (finished s) (at_ s) (dropped s)) else Blocked
  | Send fd b, _ =>
      match clients s !! fd with
      | Some c => if eof c || bool_decide (b = []) then Blocked else Next (set_client fd (receive b c) s)
      | None => Blocked
      end
  | Close fd, _ => match clients s !! fd with Some c => Next (set_client fd (end_of_file c) s) | None => Blocked end
  (* the server *)
  | Reported evs, e_wait => if reportable s evs then Next (set_pc (e_batch evs) (clear evs s)) else Blocked
  | Turn, e_batch [] => Next (set_pc e_wait s)
  | Turn, e_batch ((x, bad) :: evs) =>
      if bad : bool then Next (set_pc (e_batch evs) (close x (lose x s)))
      else Next (set_pc (match x with Listener => e_accept evs | Client fd => e_read fd evs end) s)
  | Accepted fd, e_accept evs =>
      match backlog s, clients s !! fd with
      | S n, None =>
          Next (mk_server (<[fd := mk_conn (accepted s) [] false false []]> (clients s)) n (listening s) (listener_edge s)
                  (S (accepted s)) (printed s) (finished s) (e_add fd evs) (dropped s))
      | _, _ => Blocked
      end
  | AcceptAgain, e_accept evs => if backlog s =? 0 then Next (set_pc (e_batch evs) s) else Blocked
  | AcceptError, e_accept evs => Next (set_pc (e_batch evs) s)
  | Added ok, e_add fd evs =>
      if ok : bool then
        (* epoll looks at the descriptor when it is added *)
        match clients s !! fd with
        | Some c =>
            Next (set_pc (e_accept evs)
              (set_client fd (mk_conn (who c) (unread c) (eof c) (eof c || negb (bool_decide (unread c = []))) (arrived c)) s))
        | None => Blocked
        end
      else Next (set_pc e_abort s)
  | Read n, e_read fd evs =>
      match clients s !! fd with
      | None => Blocked
      | Some c =>
          match unread c with
          | [] =>
              if eof c then Next (set_pc (e_batch evs) (close (Client fd) (set_finished (finished s ++ [(who c, arrived c)]) s)))   (* 0: done *)
              else Next (set_pc (e_batch evs) s)                                (* EAGAIN *)
          | b =>
              if (0 <? n) && (n <=? length b) && (n <=? BUF)
              then Next (set_pc (e_write fd (take n b) evs) (set_client fd (mk_conn (who c) (drop n b) (eof c) (edge c) (arrived c)) s))
              else Blocked
          end
      end
  | ReadError, e_read fd evs => Next (set_pc (e_batch evs) (close (Client fd) (lose (Client fd) s)))
  | Wrote rest, e_write fd b evs =>
      match rest, clients s !! fd with
      | None, _ => Next (set_pc e_abort s)
      | Some k, Some c =>
          Next (set_pc (e_read fd evs) (set_printed (printed s ++ [(who c, take (length b - k) b)]) s))
      | _, None => Blocked
      end
  | _, _ => Blocked
  end.

Definition run : list label → Server → attempt Server := run_labels step.

(** ** The listening socket *)

(** [create_and_bind]: the success of [getaddrinfo], and for every address what [socket] and [bind]
    answer; the result is the bound socket, and the descriptors that are open. *)
Fixpoint bind_loop (rps : list (option nat * bool)) : option nat * list nat :=
  match rps with
  | [] => (None, [])
  | (None, _) :: rps => bind_loop rps
  | (Some sfd, true) :: _ => (Some sfd, [sfd])
  | (Some _, false) :: rps => bind_loop rps   (* after close(sfd) *)
  end.
Definition create_and_bind (getaddrinfo_ok : bool) (rps : list (option nat * bool)) : option nat * list nat :=
  if getaddrinfo_ok then bind_loop rps else (None, []).

(** [make_socket_non_blocking]: what the two calls of [fcntl] answer. *)
Definition make_socket_non_blocking (getfl : option Z) (setfl_ok : bool) : bool :=
  match getfl with None => false | Some _ => setfl_ok end.

(** [main]: the loop, or [None] for [abort]. *)
Definition main (bound : option nat) (non_blocking listen_ok epoll_ok added : bool) (es : list label) : option (attempt Server) :=
  match bound with
  | None => None
  | Some _ => if non_blocking && listen_ok && epoll_ok && added then Some (run es start) else None
  end.

(** The socket that is returned is the only one that stays open. *)
Lemma create_and_bind_opened ok rps :
  let '(sfd, opened) := create_and_bind ok rps in opened = option_list sfd.
Proof.
  unfold create_and_bind. destruct ok; [|done]. induction rps as [|[[sfd|] []] rps IH]; done.
Qed.

(** ** Nothing is left unread *)

(** What the server has been told about and has not finished with. *)
Definition current (p : pc) : list source :=
  match p with
  | e_accept _ => [Listener]
  | e_add fd _ => [Client fd; Listener]
  | e_read fd _ | e_write fd _ _ => [Client fd]
  | _ => []
  end.
Definition rest (p : pc) : list event :=
  match p with e_batch evs | e_accept evs | e_add _ evs | e_read _ evs | e_write _ _ evs => evs | _ => [] end.
Definition hands (p : pc) : list source := current p ++ (rest p).*1.

(** The bytes that were printed for a connection, and those between [read] and [write]. *)
Definition printed_for (i : nat) (l : list (nat * bytes)) : bytes := mjoin (filter (λ x, x.1 = i) l).*2.
#[global] Arguments printed_for : simpl never.
Definition in_flight (fd : nat) (p : pc) : bytes :=
  match p with e_write fd' b _ => if decide (fd' = fd) then b else [] | _ => [] end.

(** Is there something to read? *)
Definition ready (c : conn) : bool := negb (bool_decide (unread c = [])) || eof c.

(** No error of [accept], and of the listening socket; every [write] takes all. *)
Definition label_ok (l : label) : Prop :=
  match l with
  | AcceptError => False
  | Wrote (Some k) => k = 0
  | Reported evs => (Listener, true) ∉ evs
  | _ => True
  end.

(** Whatever is ready has an event to come, or the server is about to look at it. *)
Record told (s : Server) : Prop := mk_told {
  t_hands : NoDup (hands (at_ s));
  t_open : ∀ fd, Client fd ∈ hands (at_ s) → is_Some (clients s !! fd);
  t_listening : listening s = true;
  t_good : (Listener, true) ∉ rest (at_ s);
  t_ready : ∀ fd c, at_ s ≠ e_abort → clients s !! fd = Some c → ready c = true → edge c = true ∨ Client fd ∈ hands (at_ s);
  t_backlog : at_ s ≠ e_abort → 0 < backlog s → listener_edge s = true ∨ Listener ∈ hands (at_ s);
}.

(** What was printed for a connection and what was not read yet are what arrived. *)
Record data_ok (s : Server) : Prop := mk_data_ok {
  d_who : ∀ fd c, clients s !! fd = Some c → who c < accepted s;
  d_unique : ∀ fd fd' c c', clients s !! fd = Some c → clients s !! fd' = Some c' → who c = who c' → fd = fd';
  d_printed : ∀ x, x ∈ printed s → x.1 < accepted s;
  d_data : ∀ fd c, at_ s ≠ e_abort → clients s !! fd = Some c →
    printed_for (who c) (printed s) ++ in_flight fd (at_ s) ++ unread c = arrived c;
  d_finished : ∀ x, x ∈ finished s →
    printed_for x.1 (printed s) = x.2 ∧ x.1 < accepted s ∧ ∀ fd c, clients s !! fd = Some c → who c ≠ x.1;
}.

Lemma told_start : told start.
Proof. split; cbn; try done; try (by intros; simplify_map_eq); [constructor|by intros ? ?%not_elem_of_nil|by intros ?%not_elem_of_nil|lia]. Qed.

Lemma data_start : data_ok start.
Proof. split; cbn; try (by intros; simplify_map_eq); by intros ? ?%not_elem_of_nil. Qed.

Lemma printed_for_app i l k : printed_for i (l ++ k) = printed_for i l ++ printed_for i k.
Proof. unfold printed_for. by rewrite filter_app, fmap_app, join_app. Qed.

Lemma printed_for_own i b : printed_for i [(i, b)] = b.
Proof. unfold printed_for. rewrite filter_cons_True by done. cbn. apply app_nil_r. Qed.

Lemma printed_for_other i j b : i ≠ j → printed_for i [(j, b)] = [].
Proof. intros H. unfold printed_for. by rewrite filter_cons_False. Qed.

(** A connection that was not printed for yet. *)
Lemma printed_for_new l n : (∀ x, x ∈ l → x.1 < n) → printed_for n l = [].
Proof.
  intros H. unfold printed_for. assert (filter (λ x : nat * bytes, x.1 = n) l = []) as ->; [|done].
  induction l as [|x l IH]; [done|]. rewrite filter_cons_False by (pose proof (H x ltac:(by left)); lia).
  apply IH. intros y Hy. apply H. by right.
Qed.

(** A change of one client that keeps who it is. *)
Lemma client_change (m : gmap nat conn) fd c c' fd' x :
  m !! fd = Some c → <[fd := c']> m !! fd' = Some x →
  (fd' = fd ∧ x = c') ∨ (fd' ≠ fd ∧ m !! fd' = Some x).
Proof.
  intros Hc Hx. destruct (decide (fd' = fd)) as [->|Hne].
  - rewrite lookup_insert_eq in Hx. simplify_eq. by left.
  - rewrite lookup_insert_ne in Hx by done. by right.
Qed.

(** A client that has an event to come, or that is in hands. *)
Lemma told_client s fd c c' :
  told s → clients s !! fd = Some c → (edge c' = true ∨ Client fd ∈ hands (at_ s)) → told (set_client fd c' s).
Proof.
  intros [H1 H2 H3 H4 H5 H6] Hc He. split; cbn; try done.
  - intros fd' Hin. destruct (decide (fd' = fd)) as [->|Hne]; [rewrite lookup_insert_eq; eauto|].
    rewrite lookup_insert_ne by done. by apply H2.
  - intros fd' x Ha Hx Hr. destruct (client_change _ _ _ _ _ _ Hc Hx) as [[-> ->]|[_ Hx']]; [done|by eapply H5].
Qed.

(** Going on with the same things in hands. *)
Lemma told_pc s p : told s → at_ s ≠ e_abort → hands p = hands (at_ s) → (Listener, true) ∉ rest p → told (set_pc p s).
Proof. intros [H1 H2 H3 H4 H5 H6] Ha Hp Hg. split; cbn; rewrite ?Hp; auto. Qed.

(** A thing that is done with. *)
Lemma told_done s p x (evs : list event) :
  told s → at_ s ≠ e_abort → hands (at_ s) = x :: evs.*1 → hands p = evs.*1 → (Listener, true) ∉ rest p →
  match x with
  | Listener => backlog s = 0
  | Client fd => ∀ c, clients s !! fd = Some c → ready c = false
  end → told (set_pc p s).
Proof.
  intros [H1 H2 H3 H4 H5 H6] Ha Hh Hp Hg Hx. rewrite Hh in *. apply NoDup_cons in H1 as [Hn H1].
  split; cbn; rewrite ?Hp; try done.
  - intros fd Hin. apply H2. by right.
  - intros fd c _ Hc Hr. destruct (H5 fd c Ha Hc Hr) as [?|[<-|?]%elem_of_cons]; [by left| |by right].
    by rewrite (Hx c Hc) in Hr.
  - intros _ Hb. destruct (H6 Ha Hb) as [?|[<-|?]%elem_of_cons]; [by left|lia|by right].
Qed.

(** A descriptor that is closed. *)
Lemma told_close s p fd (evs : list event) :
  told s → at_ s ≠ e_abort → hands (at_ s) = Client fd :: evs.*1 → hands p = evs.*1 → (Listener, true) ∉ rest p →
  told (set_pc p (close (Client fd) s)).
Proof.
  intros [H1 H2 H3 H4 H5 H6] Ha Hh Hp Hg. rewrite Hh in *. apply NoDup_cons in H1 as [Hn H1].
  split; cbn; rewrite ?Hp; try done.
  - intros fd' Hin. rewrite lookup_delete_ne; [apply H2; by right|]. by intros <-.
  - intros fd' c _ [Hne Hc]%lookup_delete_Some Hr. destruct (H5 fd' c Ha Hc Hr) as [?|[?|?]%elem_of_cons]; [by left|congruence|by right].
  - intros _ Hb. destruct (H6 Ha Hb) as [?|[?|?]%elem_of_cons]; [by left|done|by right].
Qed.

Lemma edge_reportable_spec s evs : reportable s evs = true →
  evs ≠ [] ∧ NoDup evs.*1 ∧ ∀ x, x ∈ evs.*1 → has_edge s x = true.
Proof.
  unfold reportable. rewrite !andb_true_iff, negb_true_iff, bool_decide_eq_false, bool_decide_eq_true, forallb_forall.
  intros [[[Hne _] Hnd] Hall]. split_and!; [done..|]. intros x (e & -> & He)%list_elem_of_fmap.
  by apply Hall, list_elem_of_In.
Qed.

Lemma clear_lookup evs s fd :
  clients (clear evs s) !! fd = clear_edge (bool_decide (Client fd ∈ evs.*1)) <$> clients s !! fd.
Proof. cbn. rewrite map_lookup_imap. by destruct (clients s !! fd). Qed.

Lemma told_reported s evs :
  told s → at_ s = e_wait → reportable s evs = true → (Listener, true) ∉ evs → told (set_pc (e_batch evs) (clear evs s)).
Proof.
  intros [H1 H2 H3 H4 H5 H6] Ha Hr Hg. destruct (edge_reportable_spec s evs Hr) as (_ & Hnd & Hedge). rewrite Ha in *.
  split; try done; change (at_ (set_pc (e_batch evs) (clear evs s))) with (e_batch evs); unfold hands; cbn [current rest app].
  - intros fd Hin. change (is_Some (clients (clear evs s) !! fd)). rewrite clear_lookup, fmap_is_Some.
    specialize (Hedge _ Hin). cbn in Hedge. by destruct (clients s !! fd).
  - intros fd c _ Hc Hre. change (clients (clear evs s) !! fd = Some c) in Hc. rewrite clear_lookup in Hc.
    destruct (clients s !! fd) as [c0|] eqn:E; [|done]. cbn in Hc. injection Hc as <-. cbn.
    destruct (decide (Client fd ∈ evs.*1)) as [|Hn]; [by right|]. rewrite bool_decide_false by done. left.
    destruct (H5 fd c0 ltac:(done) E Hre) as [->|?%not_elem_of_nil]; done.
  - intros _ Hb. cbn in *. destruct (decide (Listener ∈ evs.*1)) as [|Hn]; [by right|]. rewrite bool_decide_false by done. left.
    destruct (H6 ltac:(done) Hb) as [->|?%not_elem_of_nil]; done.
Qed.

Lemma told_accepted s fd evs n :
  told s → at_ s = e_accept evs → clients s !! fd = None →
  told (mk_server (<[fd := mk_conn (accepted s) [] false false []]> (clients s)) n (listening s) (listener_edge s)
          (S (accepted s)) (printed s) (finished s) (e_add fd evs) (dropped s)).
Proof.
  intros [H1 H2 H3 H4 H5 H6] Ha Hn. rewrite Ha in *. unfold hands in *. cbn [current rest app] in *.
  assert (Client fd ∉ Listener :: evs.*1) as Hnin. { intros Hin%H2. rewrite Hn in Hin. by destruct Hin. }
  split; unfold hands; cbn [at_ clients listening listener_edge backlog current rest app]; try done.
  - by constructor.
  - intros fd' [[= ->]|Hin]%elem_of_cons; [rewrite lookup_insert_eq; eauto|].
    rewrite lookup_insert_ne; [by apply H2|]. by intros ->.
  - intros fd' c _ Hc Hr. destruct (decide (fd' = fd)) as [->|Hne].
    + rewrite lookup_insert_eq in Hc. injection Hc as <-. done.
    + rewrite lookup_insert_ne in Hc by done. destruct (H5 fd' c ltac:(done) Hc Hr); [by left|]. right. by right.
  - intros _ _. right. right. by left.
Qed.

Lemma told_added s fd evs c :
  told s → at_ s = e_add fd evs → clients s !! fd = Some c →
  told (set_pc (e_accept evs) (set_client fd (mk_conn (who c) (unread c) (eof c) (eof c || negb (bool_decide (unread c = []))) (arrived c)) s)).
Proof.
  intros [H1 H2 H3 H4 H5 H6] Ha Hc. rewrite Ha in *. unfold hands in *. cbn [current rest app] in *.
  apply NoDup_cons in H1 as [Hn H1].
  split; unfold hands; cbn [at_ set_pc set_client clients listening listener_edge backlog current rest app]; try done.
  - intros fd' Hin. rewrite lookup_insert_ne; [apply H2; by right|]. by intros ->.
  - intros fd' x _ Hx Hr. destruct (client_change _ _ _ _ _ _ Hc Hx) as [[-> ->]|[Hne Hx']].
    + left. unfold ready in Hr. cbn in *. by rewrite orb_comm.
    + destruct (H5 fd' x ltac:(done) Hx' Hr) as [?|[?|?]%elem_of_cons]; [by left|congruence|by right].
  - intros _ _. right. by left.
Qed.

Lemma told_abort s : told s → told (set_pc e_abort s).
Proof. intros [H1 H2 H3 H4 H5 H6]. split; cbn; try done; [constructor|by intros ? ?%not_elem_of_nil|by intros ?%not_elem_of_nil]. Qed.

Lemma lose_same x s :
  clients (lose x s) = clients s ∧ backlog (lose x s) = backlog s ∧ listening (lose x s) = listening s ∧
  listener_edge (lose x s) = listener_edge s ∧ accepted (lose x s) = accepted s ∧
  printed (lose x s) = printed s ∧ finished (lose x s) = finished s ∧ at_ (lose x s) = at_ s.
Proof. destruct x as [|fd]; [done|]. unfold lose. by destruct (clients s !! fd). Qed.

Lemma told_lose x s : told s → told (lose x s).
Proof.
  intros [H1 H2 H3 H4 H5 H6]. destruct (lose_same x s) as (E1 & E2 & E3 & E4 & E5 & E6 & E7 & E8).
  split; rewrite ?E1, ?E2, ?E3, ?E4, ?E8; done.
Qed.

Lemma told_step l s s' : label_ok l → told s → step l s = Next s' → told s'.
Proof.
  intros Hl Ht E. pose proof Ht as [H1 H2 H3 H4 H5 H6].
  destruct l as [|fd b|fd|evs| |fd| | |ok|n| |k]; cbn [step] in E; cbn [label_ok] in Hl; try done.
  - rewrite H3 in E. injection E as <-. split; cbn; auto.
  - destruct (clients s !! fd) as [c|] eqn:Hc; [|done]. destruct (_ || _); [done|]. injection E as <-.
    apply (told_client s fd c); [done..|by left].
  - destruct (clients s !! fd) as [c|] eqn:Hc; [|done]. injection E as <-. apply (told_client s fd c); [done..|by left].
  - destruct (at_ s) eqn:Ha; try done. destruct (reportable s evs) eqn:Hr; [|done]. injection E as <-. by apply told_reported.
  - destruct (at_ s) as [|[|[x bad] evs]| | | | |] eqn:Ha; try done.
    + injection E as <-. apply told_pc; rewrite ?Ha; done.
    + destruct bad; injection E as <-.
      * destruct x as [|fd]; [exfalso; apply H4; by left|].
        pose proof (lose_same (Client fd) s) as (_ & _ & _ & _ & _ & _ & _ & El).
        apply (told_close (lose (Client fd) s) _ fd evs); rewrite ?El, ?Ha; try done; [by apply told_lose|]. intros Hin. apply H4. by right.
      * apply told_pc; rewrite ?Ha; try done; [by destruct x|].
        intros Hin. apply H4. destruct x; by right.
  - destruct (at_ s) eqn:Ha; try done. destruct (backlog s) eqn:Hb; [done|]. destruct (clients s !! fd) eqn:Hc; [done|].
    injection E as <-. by apply told_accepted.
  - destruct (at_ s) eqn:Ha; try done. destruct (Nat.eqb_spec (backlog s) 0); [|done]. injection E as <-.
    apply (told_done s _ Listener evs); rewrite ?Ha; done.
  - destruct (at_ s) eqn:Ha; try done. destruct ok; [|injection E as <-; by apply told_abort].
    destruct (clients s !! fd) as [c|] eqn:Hc; [|done]. injection E as <-. by apply told_added.
  - destruct (at_ s) eqn:Ha; try done. destruct (clients s !! fd) as [c|] eqn:Hc; [|done].
    destruct (unread c) as [|b0 b] eqn:Hu.
    + destruct (eof c) eqn:He; injection E as <-.
      * apply (told_close (set_finished _ s) _ fd evs); cbn; rewrite ?Ha; try done. by split; cbn; rewrite ?Ha.
      * apply (told_done s _ (Client fd) evs); rewrite ?Ha; try done.
        intros c' Hc'. simplify_eq. unfold ready. by rewrite Hu, He.
    + destruct (_ && _); [|done]. injection E as <-.
      apply (told_pc (set_client fd _ s)); cbn; rewrite ?Ha; try done.
      apply (told_client s fd c); [done..|]. right. rewrite Ha. by left.
  - destruct (at_ s) eqn:Ha; try done. injection E as <-.
    pose proof (lose_same (Client fd) s) as (_ & _ & _ & _ & _ & _ & _ & El).
    apply (told_close (lose (Client fd) s) _ fd evs); rewrite ?El, ?Ha; try done. by apply told_lose.
  - destruct (at_ s) eqn:Ha; try done. destruct k as [k|]; [|injection E as <-; by apply told_abort].
    destruct (clients s !! fd) as [c|] eqn:Hc; [|done]. injection E as <-.
    apply (told_pc (set_printed _ s)); cbn; rewrite ?Ha; try done. by split; cbn; rewrite ?Ha.
Qed.

(** ** The data *)

(** Steps that leave the connections alone. *)
Lemma data_pc s s' :
  data_ok s → clients s' = clients s → accepted s' = accepted s → printed s' = printed s → finished s' = finished s →
  (at_ s' ≠ e_abort → at_ s ≠ e_abort ∧ ∀ fd, is_Some (clients s !! fd) → in_flight fd (at_ s') = in_flight fd (at_ s)) → data_ok s'.
Proof.
  intros [H1 H2 H3 H4 H5] Hc Ha Hp Hf Hat. split; rewrite ?Hc, ?Ha, ?Hp, ?Hf; try done.
  intros fd c Hn Hl. destruct (Hat Hn) as [Hn' Hfl]. rewrite Hfl by eauto. by apply H4.
Qed.

(** A client that changes without being another. *)
Lemma data_client s p fd c c' :
  data_ok s → clients s !! fd = Some c → who c' = who c →
  (∀ fd', fd' ≠ fd → in_flight fd' p = in_flight fd' (at_ s)) →
  (p ≠ e_abort → at_ s ≠ e_abort ∧
    (printed_for (who c) (printed s) ++ in_flight fd (at_ s) ++ unread c = arrived c →
     printed_for (who c) (printed s) ++ in_flight fd p ++ unread c' = arrived c')) →
  data_ok (set_pc p (set_client fd c' s)).
Proof.
  intros [H1 H2 H3 H4 H5] Hc Hw Hfl Hd. split; cbn; try done.
  - intros fd' x Hx. destruct (client_change _ _ _ _ _ _ Hc Hx) as [[-> ->]|[_ Hx']]; [rewrite Hw|]; by eapply H1.
  - intros fd1 fd2 x y Hx Hy.
    destruct (client_change _ _ _ _ _ _ Hc Hx) as [[-> ->]|[_ Hx']], (client_change _ _ _ _ _ _ Hc Hy) as [[-> ->]|[_ Hy']];
      rewrite ?Hw; [done|by eapply H2..].
  - intros fd' x Hn Hx. destruct (Hd Hn) as [Hn' Hd']. destruct (client_change _ _ _ _ _ _ Hc Hx) as [[-> ->]|[Hne Hx']].
    + rewrite Hw. apply Hd'. by apply H4.
    + rewrite Hfl by done. by apply H4.
  - intros x Hx. destruct (H5 x Hx) as (Hp & Hlt & Hno). split_and!; [done..|]. intros fd' y Hy.
    destruct (client_change _ _ _ _ _ _ Hc Hy) as [[-> ->]|[_ Hy']]; [rewrite Hw|]; by eapply Hno.
Qed.

Lemma data_close s p x :
  data_ok s → (p ≠ e_abort → at_ s ≠ e_abort ∧ ∀ fd', x ≠ Client fd' → in_flight fd' p = in_flight fd' (at_ s)) →
  data_ok (set_pc p (close x s)).
Proof.
  intros Hd Hp. destruct x as [|fd].
  { apply (data_pc s); [done..|]. intros Hn. destruct (Hp Hn) as [? Hfl]. split; [done|]. intros fd' _. by apply Hfl. }
  destruct Hd as [H1 H2 H3 H4 H5]. split; cbn; try done.
  - intros fd' c [_ Hc]%lookup_delete_Some. by eapply H1.
  - intros fd1 fd2 c c' [_ Hc]%lookup_delete_Some [_ Hc']%lookup_delete_Some. by eapply H2.
  - intros fd' c Hn [Hne Hc]%lookup_delete_Some. destruct (Hp Hn) as [Hn' Hfl]. rewrite Hfl by congruence. by apply H4.
  - intros y Hy. destruct (H5 y Hy) as (? & ? & Hno). split_and!; [done..|]. intros fd' c [_ Hc]%lookup_delete_Some. by eapply Hno.
Qed.

Lemma data_accepted s fd evs n :
  data_ok s → clients s !! fd = None → at_ s = e_accept evs →
  data_ok (mk_server (<[fd := mk_conn (accepted s) [] false false []]> (clients s)) n (listening s) (listener_edge s)
          (S (accepted s)) (printed s) (finished s) (e_add fd evs) (dropped s)).
Proof.
  intros [H1 H2 H3 H4 H5] Hn Ha.
  assert (∀ fd' c, <[fd := mk_conn (accepted s) [] false false []]> (clients s) !! fd' = Some c →
    (fd' = fd ∧ c = mk_conn (accepted s) [] false false []) ∨ clients s !! fd' = Some c) as Hc.
  { intros fd' c Hc. destruct (decide (fd' = fd)) as [->|Hne]; [rewrite lookup_insert_eq in Hc|rewrite lookup_insert_ne in Hc by done];
      simplify_eq; auto. }
  split; cbn.
  - intros fd' c [[-> ->]|?%H1]%Hc; cbn; lia.
  - intros fd1 fd2 c c' [[-> ->]|Hx]%Hc [[-> ->]|Hy]%Hc; cbn; [done| | |by eapply H2].
    + intros Hw. pose proof (H1 _ _ Hy). lia.
    + intros Hw. pose proof (H1 _ _ Hx). lia.
  - intros x ?%H3. lia.
  - intros fd' c _ [[-> ->]|Hx]%Hc; [cbn [who unread arrived in_flight]; by rewrite (printed_for_new _ _ H3)|].
    specialize (H4 fd' c). rewrite Ha in H4. by apply H4.
  - intros x Hx. destruct (H5 x Hx) as (? & ? & Hno). split_and!; [done|lia|].
    intros fd' c [[-> ->]|Hc']%Hc; cbn; [lia|by eapply Hno].
Qed.

(** A whole [write]. *)
Lemma data_wrote s fd c b evs :
  data_ok s → clients s !! fd = Some c → at_ s = e_write fd b evs →
  data_ok (set_pc (e_read fd evs) (set_printed (printed s ++ [(who c, b)]) s)).
Proof.
  intros [H1 H2 H3 H4 H5] Hc Ha. split; cbn; try done.
  - intros x [?|Hx%list_elem_of_singleton]%elem_of_app; [by apply H3|]. subst x. by eapply H1.
  - intros fd' c' _ Hc'. rewrite printed_for_app. specialize (H4 fd' c'). rewrite Ha in H4. cbn in H4.
    destruct (decide (fd' = fd)) as [->|Hne].
    + simplify_eq. rewrite printed_for_own, <-app_assoc. rewrite decide_True in H4 by done. by apply H4.
    + rewrite printed_for_other, app_nil_r by (intros Hw; apply Hne; by eapply H2).
      rewrite decide_False in H4 by done. by apply H4.
  - intros x Hx. destruct (H5 x Hx) as (Hp & ? & Hno). split_and!; [|done..].
    rewrite printed_for_app, printed_for_other, app_nil_r; [done|]. intros Hw. by apply (Hno fd c Hc).
Qed.

(** A connection whose end was read. *)
Lemma data_finished s fd c evs :
  data_ok s → clients s !! fd = Some c → at_ s = e_read fd evs → unread c = [] →
  data_ok (set_pc (e_batch evs) (close (Client fd) (set_finished (finished s ++ [(who c, arrived c)]) s))).
Proof.
  intros [H1 H2 H3 H4 H5] Hc Ha Hu. split; cbn; try done.
  - intros fd' x [_ Hx]%lookup_delete_Some. by eapply H1.
  - intros fd1 fd2 x y [_ Hx]%lookup_delete_Some [_ Hy]%lookup_delete_Some. by eapply H2.
  - intros fd' x _ [_ Hx]%lookup_delete_Some. specialize (H4 fd' x). rewrite Ha in H4. by apply H4.
  - intros x [Hx|Hx%list_elem_of_singleton]%elem_of_app.
    + destruct (H5 x Hx) as (? & ? & Hno). split_and!; [done..|]. intros fd' y [_ Hy]%lookup_delete_Some. by eapply Hno.
    + subst x. cbn. split_and!; [|by eapply H1|].
      * specialize (H4 fd c). rewrite Ha, Hu in H4. cbn in H4. rewrite app_nil_r in H4. by apply H4.
      * intros fd' y [Hne Hy]%lookup_delete_Some Hw. apply Hne. symmetry. by eapply H2.
Qed.

Lemma data_reported s evs : data_ok s → at_ s = e_wait → data_ok (set_pc (e_batch evs) (clear evs s)).
Proof.
  intros [H1 H2 H3 H4 H5] Ha.
  assert (∀ fd c, clients (clear evs s) !! fd = Some c →
    ∃ c0, clients s !! fd = Some c0 ∧ who c = who c0 ∧ unread c = unread c0 ∧ arrived c = arrived c0) as Hc.
  { intros fd c Hc. rewrite clear_lookup in Hc. destruct (clients s !! fd) as [c0|]; [|done]. injection Hc as <-. by exists c0. }
  split; try done.
  - intros fd c (c0 & Hc0 & -> & _)%Hc. by eapply H1.
  - intros fd1 fd2 c c' (c0 & Hc0 & -> & _)%Hc (c1 & Hc1 & -> & _)%Hc. by eapply H2.
  - intros fd c _ (c0 & Hc0 & -> & -> & ->)%Hc. specialize (H4 fd c0). rewrite Ha in H4. by apply H4.
  - intros x Hx. destruct (H5 x Hx) as (? & ? & Hno). split_and!; [done..|]. intros fd c (c0 & Hc0 & -> & _)%Hc. by eapply Hno.
Qed.

Lemma data_lose x s : data_ok s → data_ok (lose x s).
Proof.
  intros [H1 H2 H3 H4 H5]. destruct (lose_same x s) as (E1 & E2 & E3 & E4 & E5 & E6 & E7 & E8).
  split; rewrite ?E1, ?E5, ?E6, ?E7, ?E8; done.
Qed.

Lemma data_step l s s' : label_ok l → data_ok s → step l s = Next s' → data_ok s'.
Proof.
  intros Hl Hd E.
  destruct l as [|fd b|fd|evs| |fd| | |ok|n| |k]; cbn [step] in E; cbn [label_ok] in Hl; try done.
  - destruct (listening s); [|done]. injection E as <-. by apply (data_pc s).
  - destruct (clients s !! fd) as [c|] eqn:Hc; [|done]. destruct (_ || _); [done|]. injection E as <-.
    apply (data_client s (at_ s) fd c); [done..|]. intros Hn. split; [done|]. cbn. intros <-. by rewrite !app_assoc.
  - destruct (clients s !! fd) as [c|] eqn:Hc; [|done]. injection E as <-. by apply (data_client s (at_ s) fd c).
  - destruct (at_ s) eqn:Ha; try done. destruct (reportable s evs) eqn:Hr; [|done]. injection E as <-. by apply data_reported.
  - destruct (at_ s) as [|[|[x bad] evs]| | | | |] eqn:Ha; try done.
    + injection E as <-. apply (data_pc s); rewrite ?Ha; done.
    + destruct bad; injection E as <-.
      * pose proof (lose_same x s) as (_ & _ & _ & _ & _ & _ & _ & El).
        apply data_close; [by apply data_lose|rewrite El, Ha; done].
      * apply (data_pc s); rewrite ?Ha; try done. by destruct x.
  - destruct (at_ s) eqn:Ha; try done. destruct (backlog s) eqn:Hb; [done|]. destruct (clients s !! fd) eqn:Hc; [done|].
    injection E as <-. by apply data_accepted.
  - destruct (at_ s) eqn:Ha; try done. destruct (_ =? _); [|done]. injection E as <-. apply (data_pc s); rewrite ?Ha; done.
  - destruct (at_ s) eqn:Ha; try done. destruct ok; [|injection E as <-; by apply (data_pc s)].
    destruct (clients s !! fd) as [c|] eqn:Hc; [|done]. injection E as <-.
    apply (data_client s _ fd c); rewrite ?Ha; done.
  - destruct (at_ s) eqn:Ha; try done. destruct (clients s !! fd) as [c|] eqn:Hc; [|done].
    destruct (unread c) as [|b0 b] eqn:Hu.
    + destruct (eof c) eqn:He; injection E as <-; [by apply (data_finished s fd c evs)|].
      apply (data_pc s); rewrite ?Ha; done.
    + destruct (_ && _); [|done]. injection E as <-. apply (data_client s _ fd c); rewrite ?Ha; try done.
      * intros fd' Hne. cbn. by rewrite decide_False.
      * intros _. split; [done|]. cbn [in_flight unread]. rewrite decide_True, take_drop, Hu by done. done.
  - destruct (at_ s) eqn:Ha; try done. injection E as <-.
    pose proof (lose_same (Client fd) s) as (_ & _ & _ & _ & _ & _ & _ & El).
    apply (data_close (lose (Client fd) s) _ (Client fd)); [by apply data_lose|rewrite El, Ha; done].
  - destruct (at_ s) eqn:Ha; try done. destruct k as [k|]; [|injection E as <-; by apply (data_pc s)]. subst k.
    destruct (clients s !! fd) as [c|] eqn:Hc; [|done]. injection E as <-.
    rewrite Nat.sub_0_r, firstn_all. by apply (data_wrote s fd c).
Qed.

(** ** No connection is forgotten *)

Definition open_as (s : Server) (i : nat) : Prop := ∃ fd c, clients s !! fd = Some c ∧ who c = i.

(** Every connection that was accepted is open, or its end was read, or it was dropped; and
    of those that were dropped the beginning was printed. *)
Record accounted (s : Server) : Prop := mk_accounted {
  a_all : ∀ i, i < accepted s → open_as s i ∨ i ∈ (finished s).*1 ∨ i ∈ (dropped s).*1;
  a_dropped : ∀ x, x ∈ dropped s → x.1 < accepted s ∧ ¬ open_as s x.1 ∧ printed_for x.1 (printed s) `prefix_of` x.2;
}.

Lemma accounted_start : accounted start.
Proof. split; cbn; [lia|by intros ? ?%not_elem_of_nil]. Qed.

Lemma accounted_keep s s' :
  accounted s → accepted s' = accepted s → finished s' = finished s → dropped s' = dropped s →
  (∀ i, open_as s' i ↔ open_as s i) →
  (∀ i, ¬ open_as s i → printed_for i (printed s') = printed_for i (printed s)) → accounted s'.
Proof.
  intros [H1 H2] Ha Hf Hd Ho Hp. split; rewrite ?Ha, ?Hf, ?Hd.
  - intros i Hi. rewrite Ho. by apply H1.
  - intros x Hx. destruct (H2 x Hx) as (? & Hn & ?). rewrite Ho, Hp; done.
Qed.

Lemma open_as_change s s' fd c c' :
  clients s !! fd = Some c → clients s' = <[fd := c']> (clients s) → who c' = who c → ∀ i, open_as s' i ↔ open_as s i.
Proof.
  intros Hc E Hw i. unfold open_as. rewrite E. split.
  - intros (fd' & x & Hx & Hi). destruct (client_change _ _ _ _ _ _ Hc Hx) as [[-> ->]|[_ Hx']]; [|by exists fd', x].
    exists fd, c. by rewrite <-Hw.
  - intros (fd' & x & Hx & Hi). destruct (decide (fd' = fd)) as [->|Hne].
    + exists fd, c'. rewrite lookup_insert_eq. simplify_eq. by rewrite Hw.
    + exists fd', x. by rewrite lookup_insert_ne.
Qed.

(** A descriptor that is closed. *)
Lemma open_as_delete s s' fd c :
  data_ok s → clients s !! fd = Some c → clients s' = delete fd (clients s) →
  ∀ i, open_as s' i ↔ open_as s i ∧ i ≠ who c.
Proof.
  intros Hd Hc E i. unfold open_as. rewrite E. split.
  - intros (fd' & x & [Hne Hx]%lookup_delete_Some & <-). split; [by exists fd', x|].
    intros Hw. apply Hne. symmetry. by eapply (d_unique s Hd).
  - intros [(fd' & x & Hx & <-) Hw]. exists fd', x. rewrite lookup_delete_ne; [done|]. intros ->. by simplify_eq.
Qed.

(** What was printed for an open connection is the beginning of what arrived. *)
Lemma printed_prefix s fd c :
  data_ok s → at_ s ≠ e_abort → clients s !! fd = Some c → printed_for (who c) (printed s) `prefix_of` arrived c.
Proof. intros Hd Ha Hc. eexists. symmetry. by eapply (d_data s Hd). Qed.

Lemma accounted_close s s' fd c :
  data_ok s → accounted s → clients s !! fd = Some c → clients s' = delete fd (clients s) →
  accepted s' = accepted s → printed s' = printed s →
  (finished s' = finished s ++ [(who c, arrived c)] ∧ dropped s' = dropped s ∨
   finished s' = finished s ∧ dropped s' = dropped s ++ [(who c, arrived c)] ∧ at_ s ≠ e_abort) →
  accounted s'.
Proof.
  intros Hd [H1 H2] Hc E Ha Hp Hcase. pose proof (open_as_delete s s' fd c Hd Hc E) as Ho.
  split; rewrite ?Ha, ?Hp.
  - intros i Hi. rewrite Ho. destruct (decide (i = who c)) as [->|Hne].
    + right. destruct Hcase as [[-> _]|(_ & -> & _)]; [left|right]; rewrite fmap_app, elem_of_app; right; by left.
    + destruct (H1 i Hi) as [?|[Hf|Hf]]; [by left| |]; right; destruct Hcase as [[-> ->]|(-> & -> & _)];
        rewrite ?fmap_app, ?elem_of_app; auto.
  - assert (∀ x, x ∈ dropped s → x.1 < accepted s ∧ ¬ open_as s' x.1 ∧ printed_for x.1 (printed s) `prefix_of` x.2) as Hold.
    { intros x Hx. destruct (H2 x Hx) as (? & Hn & ?). split_and!; [done| |done]. rewrite Ho. tauto. }
    intros x Hx. destruct Hcase as [[_ Edr]|(_ & Edr & Hab)]; rewrite Edr in Hx; [by apply Hold|].
    apply elem_of_app in Hx as [Hx|Hx%list_elem_of_singleton]; [by apply Hold|]. subst x. cbn. split_and!.
    + by eapply (d_who s Hd).
    + rewrite Ho. tauto.
    + by eapply printed_prefix.
Qed.

Lemma accounted_lost s s' x :
  data_ok s → accounted s → at_ s ≠ e_abort → (∀ fd, x = Client fd → is_Some (clients s !! fd)) →
  s' = close x (lose x s) → accounted s'.
Proof.
  intros Hd Hac Ha Hx ->. destruct x as [|fd]; [by apply (accounted_keep s)|].
  destruct (Hx fd eq_refl) as [c Hc]. unfold lose. rewrite Hc. apply (accounted_close s _ fd c); try done. by right.
Qed.

Lemma accounted_step l s s' :
  label_ok l → told s → data_ok s → accounted s → step l s = Next s' → accounted s'.
Proof.
  intros Hl Ht Hd Hac E.
  destruct l as [|fd b|fd|evs| |fd| | |ok|n| |k]; cbn [step] in E; cbn [label_ok] in Hl; try done.
  - destruct (listening s); [|done]. injection E as <-. by apply (accounted_keep s).
  - destruct (clients s !! fd) as [c|] eqn:Hc; [|done]. destruct (_ || _); [done|]. injection E as <-.
    apply (accounted_keep s); try done. by eapply (open_as_change s _ fd c).
  - destruct (clients s !! fd) as [c|] eqn:Hc; [|done]. injection E as <-.
    apply (accounted_keep s); try done. by eapply (open_as_change s _ fd c).
  - destruct (at_ s) eqn:Ha; try done. destruct (reportable s evs); [|done]. injection E as <-.
    apply (accounted_keep s); try done. intros i. unfold open_as.
    change (clients (set_pc (e_batch evs) (clear evs s))) with (clients (clear evs s)). setoid_rewrite clear_lookup. split.
    + intros (fd & c & Hc & <-). destruct (clients s !! fd) as [c0|] eqn:Hc0; [|done]. injection Hc as <-. by exists fd, c0.
    + intros (fd & c & Hc & <-). eexists fd, _. by rewrite Hc.
  - pose proof (t_open s Ht) as Ho. destruct (at_ s) as [|[|[x bad] evs]| | | | |] eqn:Ha; try done.
    + injection E as <-. by apply (accounted_keep s).
    + destruct bad; injection E as <-.
      * apply (accounted_keep (close x (lose x s))); try done. apply (accounted_lost s _ x); rewrite ?Ha; try done.
        intros fd ->. apply Ho. by left.
      * by apply (accounted_keep s).
  - destruct (at_ s) eqn:Ha; try done. destruct (backlog s); [done|]. destruct (clients s !! fd) eqn:Hc; [done|].
    injection E as <-. destruct Hac as [H1 H2].
    assert (∀ i, i ≠ accepted s →
      open_as (mk_server (<[fd := mk_conn (accepted s) [] false false []]> (clients s)) n (listening s) (listener_edge s)
        (S (accepted s)) (printed s) (finished s) (e_add fd evs) (dropped s)) i ↔ open_as s i) as Hop.
    { intros i Hi. unfold open_as. cbn. split.
      - intros (fd' & c & Hx & <-). destruct (decide (fd' = fd)) as [->|Hne].
        + rewrite lookup_insert_eq in Hx. injection Hx as <-. done.
        + rewrite lookup_insert_ne in Hx by done. by exists fd', c.
      - intros (fd' & c & Hx & <-). exists fd', c. rewrite lookup_insert_ne; [done|]. by intros ->; rewrite Hc in Hx. }
    split.
    + intros i Hi. cbn [accepted finished dropped] in *. destruct (decide (i = accepted s)) as [->|Hne].
      * left. eexists fd, _. cbn. by rewrite lookup_insert_eq.
      * rewrite Hop by done. apply H1. lia.
    + intros x Hx. cbn [accepted printed dropped] in *. destruct (H2 x Hx) as (? & Hno & ?).
      split_and!; [lia| |done]. rewrite Hop by lia. done.
  - destruct (at_ s) eqn:Ha; try done. destruct (_ =? _); [|done]. injection E as <-. by apply (accounted_keep s).
  - destruct (at_ s) eqn:Ha; try done. destruct ok; [|injection E as <-; by apply (accounted_keep s)].
    destruct (clients s !! fd) as [c|] eqn:Hc; [|done]. injection E as <-.
    apply (accounted_keep s); try done. by eapply (open_as_change s _ fd c).
  - destruct (at_ s) eqn:Ha; try done. destruct (clients s !! fd) as [c|] eqn:Hc; [|done].
    destruct (unread c) as [|b0 b] eqn:Hu.
    + destruct (eof c); injection E as <-; [|by apply (accounted_keep s)].
      apply (accounted_close s _ fd c); try done. by left.
    + destruct (_ && _); [|done]. injection E as <-. apply (accounted_keep s); try done. by eapply (open_as_change s _ fd c).
  - pose proof (t_open s Ht) as Ho. destruct (at_ s) eqn:Ha; try done. injection E as <-.
    apply (accounted_keep (close (Client fd) (lose (Client fd) s))); try done.
    apply (accounted_lost s _ (Client fd)); rewrite ?Ha; try done. intros fd' [= <-]. apply Ho. by left.
  - destruct (at_ s) eqn:Ha; try done. destruct k as [k|]; [|injection E as <-; by apply (accounted_keep s)].
    destruct (clients s !! fd) as [c|] eqn:Hc; [|done]. injection E as <-. apply (accounted_keep s); try done.
    intros i Hi. cbn. rewrite printed_for_app, printed_for_other, app_nil_r; [done|]. intros ->. apply Hi. by exists fd, c.
Qed.

(** No event of a client has an error flag, and no [read] fails. *)
Definition no_error (l : label) : Prop :=
  match l with Reported evs => Forall (λ e, e.2 = false) evs | ReadError => False | _ => True end.

Lemma nothing_dropped_step l s s' :
  no_error l → dropped s = [] ∧ Forall (λ e, e.2 = false) (rest (at_ s)) → step l s = Next s' →
  dropped s' = [] ∧ Forall (λ e, e.2 = false) (rest (at_ s')).
Proof.
  intros Hl [Hd Hr] E.
  destruct l as [|fd b|fd|evs| |fd| | |ok|n| |k]; cbn [step] in E; cbn [no_error] in Hl; try done.
  5: { destruct (at_ s) as [|[|[x bad] evs]| | | | |] eqn:Ha; try done; [by injection E as <-|].
       cbn [rest] in Hr. apply Forall_cons in Hr as [Hb Hr]. cbn in Hb. subst bad. injection E as <-.
       split; [done|]. by destruct x. }
  all: repeat case_match; simplify_eq/=; done.
Qed.

(** When epoll has nothing to report: every connection that came was accepted; of those that
    are open all that arrived was printed, and none has ended; of those whose end was read all
    that arrived was printed too; the others were dropped. *)
Definition idle (s : Server) : Prop :=
  backlog s = 0 ∧
  (∀ fd c, clients s !! fd = Some c → eof c = false ∧ printed_for (who c) (printed s) = arrived c) ∧
  (∀ i, i < accepted s → open_as s i ∨ (i, printed_for i (printed s)) ∈ finished s ∨
     ∃ b, (i, b) ∈ dropped s ∧ printed_for i (printed s) `prefix_of` b).

Lemma reportable_one s x : has_edge s x = true → reportable s [(x, false)] = true.
Proof.
  intros Hx. unfold reportable. cbn. rewrite Hx. rewrite bool_decide_true by apply NoDup_singleton. done.
Qed.

Lemma waiting_idle s : told s → data_ok s → accounted s → at_ s = e_wait → idle s ∨ ∃ x, reportable s [(x, false)] = true.
Proof.
  intros [H1 H2 H3 H4 H5 H6] Hd [Hall Hdrop] Ha. rewrite Ha in *.
  destruct (decide (listener_edge s = true)) as [He|He].
  { right. exists Listener. apply reportable_one. cbn. by rewrite H3, He. }
  destruct (decide (map_Forall (λ _ c, edge c = false) (clients s))) as [Hnone|Hex].
  - left. assert (∀ fd c, clients s !! fd = Some c → ready c = false) as Hr.
    { intros fd c Hc. destruct (ready c) eqn:Er; [|done]. specialize (Hnone fd c Hc). cbn in Hnone.
      destruct (H5 fd c ltac:(done) Hc Er) as [?|?%not_elem_of_nil]; [congruence|done]. }
    split_and!.
    + destruct (backlog s) eqn:Hb; [done|]. destruct H6 as [?|?%not_elem_of_nil]; [done|lia|done|done].
    + intros fd c Hc. specialize (Hr fd c Hc). apply orb_false_iff in Hr as [Hu He'].
      apply negb_false_iff, bool_decide_eq_true in Hu. split; [done|]. pose proof (d_data s Hd fd c) as Hdat.
      rewrite Ha, Hu in Hdat. cbn in Hdat. rewrite app_nil_r in Hdat. by apply Hdat.
    + intros i Hi. destruct (Hall i Hi) as [?|[Hf|Hf]]; [by left| |]; right;
        apply list_elem_of_fmap in Hf as ([i' b] & -> & Hf); cbn [fst].
      * left. destruct (d_finished s Hd _ Hf) as [Ef _]. cbn in Ef. by rewrite Ef.
      * right. exists b. by destruct (Hdrop _ Hf) as (_ & _ & ?).
  - right. apply map_not_Forall in Hex as (fd & c & Hc & He'); [|intros; apply _].
    exists (Client fd). apply reportable_one. cbn. rewrite Hc. by destruct (edge c).
Qed.

Lemma server_goes s : told s → at_ s ≠ e_wait → at_ s ≠ e_abort → ∃ l, label_ok l ∧ step l s ≠ Blocked.
Proof.
  intros [H1 H2 H3 H4 H5 H6] Hw Ha. destruct (at_ s) as [|[|[x []] evs]|evs|fd evs|fd evs|fd b evs|] eqn:Ep; try done;
    try (exists Turn; by cbn; rewrite Ep).
  - destruct (backlog s) as [|n] eqn:Hb; [exists AcceptAgain; by cbn; rewrite Ep, Hb|].
    exists (Accepted (fresh (dom (clients s)))). split; [done|]. cbn. rewrite Ep, Hb.
    assert (clients s !! fresh (dom (clients s)) = None) as ->; [|done]. apply not_elem_of_dom, is_fresh.
  - exists (Added true). split; [done|]. cbn. rewrite Ep. destruct (H2 fd) as [c ->]; [by left|done].
  - exists (Read 1). split; [done|]. cbn. rewrite Ep. destruct (H2 fd) as [c ->]; [by left|].
    destruct (unread c); [by destruct (eof c)|done].
  - exists (Wrote (Some 0)). split; [done|]. cbn. rewrite Ep. by destruct (H2 fd) as [c ->]; [by left|].
Qed.

(** C34: Edge-triggered events lose nothing.  Whatever the order in which clients connect,
    send and close while the server runs, unless [accept] fails, the listening socket has an
    error or a [write] is short: when the server waits, either epoll has an event to report, or
    the server is idle: no connection waits to be accepted; of every connection that is open,
    or whose end was read, all that arrived was printed, in order; and of every other one, which
    the server closed when an event had an error flag or a [read] failed, a beginning of it.
    Where there is no such error there are no such connections.  Between two waits the server
    never reads a closed descriptor and can always go on. *)
Theorem edge_triggered_complete es s :
  Forall label_ok es → run es start = Next s →
  (at_ s = e_wait → idle s ∨ ∃ x, reportable s [(x, false)] = true) ∧
  (at_ s ≠ e_wait → at_ s ≠ e_abort → ∃ l, label_ok l ∧ step l s ≠ Blocked) ∧
  (∀ i b, (i, b) ∈ finished s → printed_for i (printed s) = b) ∧
  (Forall no_error es → dropped s = []).
Proof.
  intros Hes E.
  assert (told s ∧ data_ok s ∧ accounted s) as (Ht & Hd & Hac).
  { revert E. apply (run_labels_on step label_ok (λ s, told s ∧ data_ok s ∧ accounted s)); [|done|].
    - intros l s1 s2 Hl (H1 & H2 & H3) E. split_and!; [by eapply told_step|by eapply data_step|by eapply accounted_step].
    - split_and!; [apply told_start|apply data_start|apply accounted_start]. }
  split_and!; [by apply waiting_idle|by apply server_goes| |].
  - intros i b Hin. by apply (d_finished s Hd) in Hin as [H _].
  - intros Hno. set (P := λ s, dropped s = [] ∧ Forall (λ e : event, e.2 = false) (rest (at_ s))).
    assert (P start) as H0 by (split; constructor).
    exact (proj1 (run_labels_on step no_error P es _ _ (λ l s s', nothing_dropped_step l s s') Hno H0 E)).
Qed.

(** A client that sends and closes while another waits to be accepted. *)
Definition two_clients : list label :=
  [Connect; Reported [(Listener, false)]; Turn; Accepted 5; Send 5 (lit "ab"); Added true; Connect; Accepted 6; Added true; AcceptAgain; Turn;
   Reported [(Client 5, false)]; Turn; Read 1; Send 5 (lit "c"); Wrote (Some 0); Read 2; Close 5; Wrote (Some 0); Read 0; Turn].

Lemma edge_triggered_complete_witness :
  ∃ s, run two_clients start = Next s ∧ (idle s ∨ ∃ x, reportable s [(x, false)] = true) ∧
    printed_for 0 (printed s) = lit "abc".
Proof.
  destruct (run two_clients start) as [|u|s] eqn:E; [by vm_compute in E..|].
  assert (at_ s = e_wait ∧ (0, lit "abc") ∈ finished s) as [Ha Hf].
  { vm_compute in E. injection E as <-. split; [done|by left]. }
  destruct (edge_triggered_complete two_clients s) as (H1 & _ & H3 & _); [|done|].
  - repeat (apply Forall_cons; split; [first [exact I|exact (eq_refl 0)|cbn; apply (bool_decide_unpack _); exact I]|]). constructor.
  - exists s. split_and!; [done|by apply H1|by apply H3].
Defined.

(** A client sends and resets its connection: the server closes the descriptor on the error
    flag, and what had arrived is never read. *)
Example error_flag_drops :
  match run [Connect; Reported [(Listener, false)]; Turn; Accepted 5; Added true; AcceptAgain; Turn;
             Send 5 (lit "ab"); Reported [(Client 5, true)]; Turn; Turn] start with
  | Next s => at_ s = e_wait ∧ printed s = [] ∧ dropped s = [(0, lit "ab")] ∧ clients s = ∅
  | _ => False
  end.
Proof. vm_compute. split_and!; done. Qed.

(** When [accept] fails while connections wait, nothing ever reports them: the server waits
    for ever. *)
Example accept_error_forgets :
  match run [Connect; Reported [(Listener, false)]; Turn; AcceptError; Turn] start with
  | Next s => at_ s = e_wait ∧ backlog s = 1 ∧ ∀ x, has_edge s x = false
  | _ => False
  end.
Proof. vm_compute. split_and!; [done|done|by intros []]. Qed.

(** What [write] does not take is lost. *)
Example short_write_loses :
  match run [Connect; Reported [(Listener, false)]; Turn; Accepted 5; Send 5 (lit "ab"); Added true; AcceptAgain; Turn;
             Reported [(Client 5, false)]; Turn; Read 2; Wrote (Some 1); Read 0; Turn] start with
  | Next s => at_ s = e_wait ∧ printed_for 0 (printed s) = lit "a" ∧ has_edge s Listener = false ∧ has_edge s (Client 5) = false
  | _ => False
  end.
Proof. vm_compute. split_and!; done. Qed.
