(* ===== verification/Cthread.v ===== *)
(** * Threads that can be detached

    Model of src/sysprog/lecture_examples/6_threads/12_cthread_detach.c: threads made with
    clone, whose stacks are released by [cthread_destroy] when both the thread has
    finished and it was detached; the stacks wait in a list until the kernel has cleared
    the identifier of their thread (Module Detach).  Of 11_cthread_bad_detach.c, the version
    without the list and the locks (Module BadDetach), and of 10_cthreads_1.c and
    10_cthreads_2.c, where threads are joined (Module Join). *)

From stdpp Require Import functions.
From S2P Require Import Prelude.

(** ** 12_cthread_detach.c *)

Module Detach.

(** [struct cthread]; [func] and [arg] are the same for all. *)
Record cthread : Type := mk_cthread { lock : bool; is_finished : bool; is_detached : bool }.

(** [struct cthread_stack], that of thread [i] under the number [i]; the identifier is
    written by the kernel when the thread starts, and cleared when it has ended.  [live]:
    allocated, with its stack. *)
Record cthread_stack : Type := mk_stack { tid : option Z; next : option nat; live : bool }.

(** [cthread_destroy] *)
Inductive dpc : Type :=
| d_lock                                 (* spin_lock(&last_stack_lock) *)
| d_iter (iter : option nat)             (* while (iter != NULL): before the read of tid *)
| d_free (iter : nat) (next : option nat)
| d_link (iter : option nat)             (* before thread->stack->next = iter *)
| d_unlock.

(** [cthread_runner], from clone to the end of the thread. *)
Inductive rpc : Type :=
| Unborn | r_func | r_lock | r_test | r_destroy (d : dpc) | r_finish | r_unlock | r_exit | Gone.

(** [main] and [cthread_detach] *)
Inductive mpc : Type :=
| m_create (i : nat)                     (* head of the first loop *)
| m_lock (i : nat)
| m_test (i : nat)
| m_destroy (i : nat) (d : dpc)
| m_detach (i : nat)                     (* before is_detached = true *)
| m_unlock (i : nat)
| m_wait (i : nat)                       (* head of the second loop *)
| m_end.

Record State : Type := mk_state {
  cts : nat → cthread;
  stacks : nat → cthread_stack;
  stack_list : option nat;
  last_stack_lock : bool;
  runners : nat → rpc;
  main : mpc;
  undefined : option ub;
}.

Definition set_ct (i : nat) (c : cthread) (s : State) : State :=
  mk_state (<[i := c]> (cts s)) (stacks s) (stack_list s) (last_stack_lock s) (runners s) (main s) (undefined s).
Definition set_stack (i : nat) (k : cthread_stack) (s : State) : State :=
  mk_state (cts s) (<[i := k]> (stacks s)) (stack_list s) (last_stack_lock s) (runners s) (main s) (undefined s).
Definition set_list (h : option nat) (b : bool) (s : State) : State :=
  mk_state (cts s) (stacks s) h b (runners s) (main s) (undefined s).
Definition set_runner (i : nat) (r : rpc) (s : State) : State :=
  mk_state (cts s) (stacks s) (stack_list s) (last_stack_lock s) (<[i := r]> (runners s)) (main s) (undefined s).
Definition set_main (m : mpc) (s : State) : State :=
  mk_state (cts s) (stacks s) (stack_list s) (last_stack_lock s) (runners s) m (undefined s).
Definition set_undefined (u : ub) (s : State) : State :=
  mk_state (cts s) (stacks s) (stack_list s) (last_stack_lock s) (runners s) (main s) (Some u).

(** A step of [cthread_destroy(&thread[i])]: where it is next ([None] when it returns). *)
Definition destroy_step (i : nat) (d : dpc) (s : State) : option dpc * State :=
  match d with
  | d_lock => if last_stack_lock s then (Some d_lock, s) else (Some (d_iter (stack_list s)), set_list (stack_list s) true s)
  | d_iter None => (Some (d_link None), s)
  | d_iter (Some k) =>
      if live (stacks s k) then
        match tid (stacks s k) with
        | None => (Some d, set_undefined Uninitialised s)
        | Some t => if (t =? 0)%Z then (Some (d_free k (next (stacks s k))), s) else (Some (d_link (Some k)), s)
        end
      else (Some d, set_undefined UseAfterFree s)
  | d_free k nx =>
      if live (stacks s k) then (Some (d_iter nx), set_stack k (mk_stack (tid (stacks s k)) (next (stacks s k)) false) s)
      else (Some d, set_undefined DoubleFree s)
  | d_link it =>
      if live (stacks s i)
      then (Some d_unlock, set_list (Some i) (last_stack_lock s) (set_stack i (mk_stack (tid (stacks s i)) it true) s))
      else (Some d, set_undefined UseAfterFree s)
  | d_unlock => (None, set_list (stack_list s) false s)
  end.

Definition set_lock b c := mk_cthread b (is_finished c) (is_detached c).
Definition set_finished c := mk_cthread (lock c) true (is_detached c).
Definition set_detached c := mk_cthread (lock c) (is_finished c) true.

(** Has [main] called clone for thread [i]? *)
Definition created (m : mpc) (n i : nat) : bool :=
  match m with
  | m_create j => i <? j
  | m_lock j | m_test j | m_destroy j _ | m_detach j | m_unlock j => i <=? j
  | m_wait _ | m_end => i <? n
  end.

Section program.
(** The number of threads. *)
Variable n : nat.

Definition runner_step (i : nat) (s : State) : option State :=
  let c := cts s i in let k := stacks s i in
  match runners s i with
  | Unborn =>
      if created (main s) n i
      then Some (set_runner i r_func (set_stack i (mk_stack (Some (Z.of_nat (i + 1))) (next k) (live k)) s)) else None
  | r_func => Some (set_runner i r_lock s)
  | r_lock => if lock c then Some s else Some (set_runner i r_test (set_ct i (set_lock true c) s))
  | r_test => Some (set_runner i (if is_detached c then r_destroy d_lock else r_finish) s)
  | r_destroy d =>
      let '(d', s') := destroy_step i d s in
      Some (set_runner i (match d' with Some d' => r_destroy d' | None => r_finish end) s')
  | r_finish => Some (set_runner i r_unlock (set_ct i (set_finished c) s))
  | r_unlock => Some (set_runner i r_exit (set_ct i (set_lock false c) s))
  | r_exit => Some (set_runner i Gone (set_stack i (mk_stack (Some 0%Z) (next k) (live k)) s))
  | Gone => None
  end.

Definition main_step (s : State) : option State :=
  match main s with
  | m_create i =>
      if i <? n
      then Some (set_main (m_lock i) (set_ct i (mk_cthread false false false) (set_stack i (mk_stack None None true) s)))
      else Some (set_main (m_wait 0) s)
  | m_lock i => if lock (cts s i) then Some s else Some (set_main (m_test i) (set_ct i (set_lock true (cts s i)) s))
  | m_test i => Some (set_main (if is_finished (cts s i) then m_destroy i d_lock else m_detach i) s)
  | m_destroy i d =>
      let '(d', s') := destroy_step i d s in
      Some (set_main (match d' with Some d' => m_destroy i d' | None => m_detach i end) s')
  | m_detach i => Some (set_main (m_unlock i) (set_ct i (set_detached (cts s i)) s))
  | m_unlock i => Some (set_main (m_create (i + 1)) (set_ct i (set_lock false (cts s i)) s))
  | m_wait i =>
      if i <? n then Some (set_main (m_wait (if is_finished (cts s i) then i + 1 else 1)) s) (* i = 0; then ++i *)
      else Some (set_main m_end s)
  | m_end => None
  end.

(** Which thread makes a step: [None] for [main]. *)
Definition step (l : option nat) (s : State) : option State :=
  match undefined s with
  | Some _ => None
  | None => match l with None => main_step s | Some i => runner_step i s end
  end.

Fixpoint run (ls : list (option nat)) (s : State) : option State :=
  match ls with [] => Some s | l :: ls => step l s ≫= run ls end.

End program.

Definition start : State :=
  mk_state (λ _, mk_cthread false false false) (λ _, mk_stack None None false) None false (λ _, Unborn) (m_create 0) None.

(** *** Phases *)

(** Where [main] is with thread [i]. *)
Inductive phase : Type :=
| Before | Locking | Testing | Destroying (d : dpc) | Detaching | Unlocking | After.

#[export] Instance dpc_eq_dec : EqDecision dpc.
Proof. solve_decision. Defined.
#[export] Instance phase_eq_dec : EqDecision phase.
Proof. solve_decision. Defined.

Definition at_thread (i j : nat) (p : phase) : phase :=
  if decide (i < j) then After else if decide (i = j) then p else Before.

Definition main_phase (m : mpc) (n i : nat) : phase :=
  match m with
  | m_create j => at_thread i j Before
  | m_lock j => at_thread i j Locking
  | m_test j => at_thread i j Testing
  | m_destroy j d => at_thread i j (Destroying d)
  | m_detach j => at_thread i j Detaching
  | m_unlock j => at_thread i j Unlocking
  | m_wait _ | m_end => if decide (i < n) then After else Before
  end.

Definition main_holds (p : phase) : bool :=
  match p with Testing | Destroying _ | Detaching | Unlocking => true | _ => false end.
Definition run_holds (r : rpc) : bool :=
  match r with r_test | r_destroy _ | r_finish | r_unlock => true | _ => false end.
Definition finished (r : rpc) : bool := match r with r_unlock | r_exit | Gone => true | _ => false end.
Definition detached (p : phase) : bool := match p with Unlocking | After => true | _ => false end.

(** The flags of a thread follow from where it is and where [main] is with it. *)
Definition flags (r : rpc) (p : phase) : cthread :=
  mk_cthread (main_holds p || run_holds r) (finished r) (detached p).
Definition tid_of (i : nat) (r : rpc) : option Z :=
  match r with Unborn => None | Gone => Some 0%Z | _ => Some (Z.of_nat (i + 1)) end.

(** Which pairs are possible. *)
Definition compat (r : rpc) (p : phase) : bool :=
  match p with Before => match r with Unborn => true | _ => false end | _ => true end &&
  negb (main_holds p && run_holds r) &&
  match p with Destroying _ => finished r | _ => true end &&
  match r with r_destroy _ => detached p | _ => true end.

(** Where thread [i] is being destroyed, and who has put it into the list. *)
Definition destroying (r : rpc) (p : phase) : option dpc :=
  match r, p with r_destroy d, _ => Some d | _, Destroying d => Some d | _, _ => None end.
Definition pushed (r : rpc) (p : phase) : bool :=
  match destroying r p with
  | Some d => match d with d_unlock => true | _ => false end
  | None =>
      finished r && detached p ||
      match r with r_finish => detached p | _ => false end ||
      match p with Detaching => finished r | _ => false end
  end.
Definition critical (d : option dpc) : bool :=
  match d with None | Some d_lock => false | _ => true end.

(** *** The list *)

Fixpoint chain (st : nat → cthread_stack) (h : option nat) (L : list nat) : Prop :=
  match L with [] => h = None | x :: L => h = Some x ∧ chain st (next (st x)) L end.

Lemma chain_ext st st' h L : (∀ x, x ∈ L → next (st' x) = next (st x)) → chain st h L → chain st' h L.
Proof.
  revert h. induction L as [|x L IH]; intros h H; [done|]. intros [-> Hc]. split; [done|].
  rewrite H by (by left). apply IH; [|done]. intros y Hy. apply H. by right.
Qed.

(** What remains of the list for a destroyer at [d]: the part that it has walked over is
    freed. *)
Definition rest_of (s : State) (d : dpc) : option nat :=
  match d with d_iter it | d_link it => it | d_free k _ => Some k | d_lock | d_unlock => stack_list s end.

Section invariant.
Variable n : nat.
Implicit Types s : State.

Definition ph s i : phase := main_phase (main s) n i.
Definition dst s i : option dpc := destroying (runners s i) (ph s i).
Definition in_list s i : bool := pushed (runners s i) (ph s i).

(** The list: the threads that were put in and not freed; one destroyer at most walks over it. *)
Record list_ok s (L : list nat) : Prop := {
  l_nodup : NoDup L;
  l_elem : ∀ i, i ∈ L ↔ in_list s i = true ∧ live (stacks s i) = true;
  l_one : ∀ i j, critical (dst s i) = true → critical (dst s j) = true → i = j;
  l_lock : last_stack_lock s = true ↔ ∃ i, critical (dst s i) = true;
  l_chain : ∀ i d, dst s i = Some d → critical (Some d) = true → chain (stacks s) (rest_of s d) L;
  l_free_chain : last_stack_lock s = false → chain (stacks s) (stack_list s) L;
  l_free : ∀ i k nx, dst s i = Some (d_free k nx) → tid (stacks s k) = Some 0%Z ∧ nx = next (stacks s k);
}.

Record inv s : Prop := {
  i_flags : ∀ i, cts s i = flags (runners s i) (ph s i);
  i_compat : ∀ i, compat (runners s i) (ph s i) = true;
  i_tid : ∀ i, tid (stacks s i) = tid_of i (runners s i);
  i_live : ∀ i, ph s i ≠ Before → live (stacks s i) = false → runners s i = Gone ∧ in_list s i = true;
  i_main : match main s with
    | m_create j => j ≤ n
    | m_lock j | m_test j | m_destroy j _ | m_detach j | m_unlock j => j < n
    | m_wait _ | m_end => True end;
  i_list : ∃ L, list_ok s L;
  i_defined : undefined s = None;
}.

(** Thread [i] moves, alone or with [main]. *)
Definition moves (i : nat) s s' : Prop :=
  ∀ j, j ≠ i → runners s' j = runners s j ∧ ph s' j = ph s j ∧ cts s' j = cts s j ∧ tid (stacks s' j) = tid (stacks s j).

Lemma moves_dst i s s' j : moves i s s' → j ≠ i → dst s' j = dst s j ∧ in_list s' j = in_list s j.
Proof. intros H Hj. destruct (H j Hj) as (E1 & E2 & _). unfold dst, in_list. by rewrite E1, E2. Qed.

(** What does not touch the list. *)
Lemma simple_inv i s s' :
  inv s → moves i s s' →
  cts s' i = flags (runners s' i) (ph s' i) → tid (stacks s' i) = tid_of i (runners s' i) →
  compat (runners s' i) (ph s' i) = true →
  (runners s i = Gone → runners s' i = Gone) →
  in_list s' i = in_list s i → dst s' i = dst s i ∨ critical (dst s i) = false ∧ critical (dst s' i) = false →
  (ph s i = Before → ph s' i = Before ∨ in_list s i = false ∧ live (stacks s' i) = true) →
  (∀ j, j ≠ i ∨ ph s i ≠ Before → live (stacks s' j) = live (stacks s j) ∧ next (stacks s' j) = next (stacks s j)) →
  (ph s i = Before → in_list s i = false) →
  stack_list s' = stack_list s → last_stack_lock s' = last_stack_lock s → undefined s' = undefined s →
  match main s' with
    | m_create j => j ≤ n
    | m_lock j | m_test j | m_destroy j _ | m_detach j | m_unlock j => j < n
    | m_wait _ | m_end => True end →
  inv s'.
Proof.
  intros [F C T V M [L HL] U] Hm Hf Ht Hc Hgone Hin Hcr Hb Hlive Hbin Hsl Hll Hu Hmain.
  assert (∀ j, in_list s' j = in_list s j) as Hin'.
  { intros j. destruct (decide (j = i)) as [->|Hj]; [done|by apply (moves_dst i)]. }
  assert (∀ j, critical (dst s' j) = critical (dst s j)) as Hcrit.
  { intros j. destruct (decide (j = i)) as [->|Hj]; [destruct Hcr as [|[]]; congruence|]. by destruct (moves_dst i s s' j Hm Hj) as [-> _]. }
  assert (∀ j d, dst s' j = Some d → critical (Some d) = true → dst s j = Some d) as Hdcrit.
  { intros j d Hj Hd. destruct (decide (j = i)) as [->|Hne]; [|by destruct (moves_dst i s s' j Hm Hne) as [<- _]].
    destruct Hcr as [|[_ Hcr]]; congruence. }
  assert (∀ j, j ∈ L → live (stacks s' j) = live (stacks s j) ∧ next (stacks s' j) = next (stacks s j)) as HLs.
  { intros j Hj. apply Hlive. destruct (decide (j = i)) as [->|]; [right|by left]. intros Hbef.
    apply (l_elem _ _ HL) in Hj as [Hj _]. by rewrite Hbin in Hj. }
  split.
  - intros j. destruct (decide (j = i)) as [->|Hj]; [done|]. destruct (Hm j Hj) as (-> & -> & -> & _). apply F.
  - intros j. destruct (decide (j = i)) as [->|Hj]; [done|]. destruct (Hm j Hj) as (-> & -> & _). apply C.
  - intros j. destruct (decide (j = i)) as [->|Hj]; [done|]. destruct (Hm j Hj) as (-> & _ & _ & ->). apply T.
  - intros j Hj Hl. rewrite Hin'. destruct (decide (j = i)) as [->|Hne].
    + destruct (ph s i) eqn:Ep.
      all: try (destruct (Hlive i ltac:(by right)) as [El _]; rewrite El in Hl;
        destruct (V i ltac:(by rewrite Ep) Hl) as [? ?]; split; [by apply Hgone|done]).
      destruct (Hb eq_refl) as [?|[_ ?]]; congruence.
    + destruct (Hm j Hne) as (-> & Ep & _). rewrite Ep in Hj. destruct (Hlive j ltac:(by left)) as [El _].
      rewrite El in Hl. by apply V.
  - done.
  - exists L. destruct HL as [L1 L2 L3 L4 L5 L6 L7]. split.
    + done.
    + intros j. rewrite Hin'. destruct (decide (j ∈ L)) as [Hj|Hj].
      * destruct (HLs j Hj) as [-> _]. apply L2.
      * split; [done|]. intros [H1 H2]. apply L2. split; [done|].
        destruct (decide (j = i)) as [->|Hne].
        -- destruct (decide (ph s i = Before)) as [Hbe|Hbe]; [by rewrite Hbin in H1|].
           by destruct (Hlive i ltac:(by right)) as [<- _].
        -- by destruct (Hlive j ltac:(by left)) as [<- _].
    + intros j k. rewrite !Hcrit. apply L3.
    + rewrite Hll, L4. split; intros [j Hj]; exists j; by rewrite ?Hcrit in *.
    + intros j d Hd Hcd. pose proof (Hdcrit j d Hd Hcd) as Hd0.
      apply (chain_ext (stacks s)); [intros x Hx; by apply HLs|].
      specialize (L5 j d Hd0 Hcd). destruct d; cbn in *; by rewrite ?Hsl.
    + rewrite Hll, Hsl. intros Hf0. apply (chain_ext (stacks s)); [intros x Hx; by apply HLs|auto].
    + intros j k nx Hd. pose proof (Hdcrit j _ Hd eq_refl) as Hd0.
      destruct (L7 j k nx Hd0) as [Htk Hnx]. specialize (L5 j _ Hd0 eq_refl). destruct L as [|x L]; [done|]. destruct L5 as [[= ->] _].
      destruct (HLs x ltac:(by left)) as [_ En]. split; [|by rewrite En].
      destruct (decide (x = i)) as [->|Hne]; [|destruct (Hm x Hne) as (_ & _ & _ & ->); done].
      rewrite Ht. rewrite T in Htk. destruct (runners s i) eqn:Er; cbn in Htk; try done; try (injection Htk; lia). by rewrite Hgone.
  - congruence.
Qed.

(** The thread that destroys [i] goes on to [d']. *)
Record goes_on (i : nat) s s' (d' : option dpc) : Prop := {
  g_moves : ∀ j, j ≠ i → runners s' j = runners s j ∧ ph s' j = ph s j;
  g_cts : cts s' = cts s;
  g_dst : dst s' i = d';
  g_pushed : d' = None → in_list s' i = true;
  g_flags : flags (runners s' i) (ph s' i) = flags (runners s i) (ph s i);
  g_compat : compat (runners s' i) (ph s' i) = true;
  g_tid : tid_of i (runners s' i) = tid_of i (runners s i);
  g_gone : runners s i = Gone → runners s' i = Gone;
  g_phase : ph s' i ≠ Before;
  g_main : match main s' with
    | m_create j => j ≤ n
    | m_lock j | m_test j | m_destroy j _ | m_detach j | m_unlock j => j < n
    | m_wait _ | m_end => True end;
}.

Lemma dst_phase s i d : inv s → dst s i = Some d → ph s i ≠ Before.
Proof.
  intros Hi Hd Hb. pose proof (i_compat _ Hi i) as Hc. unfold dst in Hd. rewrite Hb in *. by destruct (runners s i).
Qed.

Lemma dst_in_list s i d : dst s i = Some d → in_list s i = match d with d_unlock => true | _ => false end.
Proof. unfold dst, in_list, pushed. by intros ->. Qed.

Lemma goes_on_inv i s s' d d' L :
  inv s → dst s i = Some d → goes_on i s s' d' → undefined s' = None →
  (∀ j, tid (stacks s' j) = tid (stacks s j)) →
  (∀ j, ph s j ≠ Before → live (stacks s' j) = false → runners s j = Gone ∧ in_list s' j = true) →
  list_ok s' L → inv s'.
Proof.
  intros Hi Hd. pose proof (dst_phase s i d Hi Hd) as Hphase. revert Hi Hd. intros [F C T V M _ U] Hd [G1 G2 G3 G4 G5 G6 G7 G8 G9 G10] Hu Ht Hl HL. split; try done.
  - intros j. rewrite G2, F. destruct (decide (j = i)) as [->|Hj]; [done|]. by destruct (G1 j Hj) as [-> ->].
  - intros j. destruct (decide (j = i)) as [->|Hj]; [done|]. by destruct (G1 j Hj) as [-> ->].
  - intros j. rewrite Ht, T. destruct (decide (j = i)) as [->|Hj]; [done|]. by destruct (G1 j Hj) as [-> _].
  - intros j Hj Hlj. destruct (decide (j = i)) as [->|Hne].
    + destruct (Hl i) as [? ?]; [|done|auto]. exact Hphase.
    + destruct (G1 j Hne) as [-> Ep]. rewrite Ep in Hj. by apply Hl.
  - by exists L.
Qed.

Lemma goes_on_others i s s' d' j : goes_on i s s' d' → j ≠ i → dst s' j = dst s j ∧ in_list s' j = in_list s j.
Proof. intros G Hj. destruct (g_moves _ _ _ _ G j Hj) as [E1 E2]. unfold dst, in_list. by rewrite E1, E2. Qed.

(** The destroyer walks on without touching the list. *)
Lemma walk_inv i s s' d d' :
  inv s → dst s i = Some d → goes_on i s s' (Some d') → undefined s' = None →
  stacks s' = stacks s → stack_list s' = stack_list s → last_stack_lock s' = last_stack_lock s →
  critical (Some d) = true → critical (Some d') = true → rest_of s d' = rest_of s d →
  match d with d_unlock => true | _ => false end = match d' with d_unlock => true | _ => false end →
  (∀ k nx, d' = d_free k nx → tid (stacks s k) = Some 0%Z ∧ nx = next (stacks s k)) → inv s'.
Proof.
  intros Hi Hd G Hu Es El Ek Hc Hc' Hr Hp Hfree. pose proof Hi as [F C T V M [L [L1 L2 L3 L4 L5 L6 L7]] U].
  pose proof (g_dst _ _ _ _ G) as Hd'.
  assert (∀ j, in_list s' j = in_list s j) as Hin.
  { intros j. destruct (decide (j = i)) as [->|Hj]; [|by eapply goes_on_others].
    by rewrite (dst_in_list s i d Hd), (dst_in_list s' i d' Hd'). }
  assert (∀ j, critical (dst s' j) = critical (dst s j)) as Hcrit.
  { intros j. destruct (decide (j = i)) as [->|Hj]; [by rewrite Hd', Hd, Hc, Hc'|].
    by destruct (goes_on_others _ _ _ _ j G Hj) as [-> _]. }
  apply (goes_on_inv i s s' d (Some d') L); try done.
  - intros j. by rewrite Es.
  - intros j. rewrite Es, Hin. apply V.
  - split; [done| | | | | |].
    + intros j. by rewrite Hin, Es.
    + intros j k. rewrite !Hcrit. apply L3.
    + rewrite Ek, L4. split; intros [j Hj]; exists j; by rewrite ?Hcrit in *.
    + intros j e Hj He. rewrite Es. destruct (decide (j = i)) as [->|Hne].
      * rewrite Hd' in Hj. injection Hj as <-. assert (rest_of s' d' = rest_of s d) as ->; [|by apply (L5 i)].
        rewrite <-Hr. destruct d'; cbn; by rewrite ?El.
      * destruct (goes_on_others _ _ _ _ j G Hne) as [E _]. rewrite E in Hj. specialize (L5 j e Hj He). destruct e; cbn in *; by rewrite ?El.
    + rewrite Ek, Es, El. done.
    + intros j k nx Hj. rewrite Es. destruct (decide (j = i)) as [->|Hne].
      * rewrite Hd' in Hj. injection Hj as ->. by apply Hfree.
      * destruct (goes_on_others _ _ _ _ j G Hne) as [E _]. rewrite E in Hj. by apply (L7 j).
Qed.

(** Only one destroyer walks over the list. *)
Lemma not_critical s L i j : list_ok s L → critical (dst s i) = true → j ≠ i → critical (dst s j) = false.
Proof.
  intros HL Hi Hj. destruct (critical (dst s j)) eqn:E; [|done]. by destruct Hj; apply (l_one _ _ HL).
Qed.

Lemma gone_tid s k : inv s → tid (stacks s k) = Some 0%Z → runners s k = Gone.
Proof.
  intros Hi Ht. rewrite (i_tid _ Hi) in Ht. destruct (runners s k); cbn in Ht; try done; injection Ht; lia.
Qed.

(** Waiting for the lock of the list, and getting it. *)
Lemma lock_inv i s s' d' :
  inv s → dst s i = Some d_lock → goes_on i s s' (Some d') → undefined s' = None →
  stacks s' = stacks s → stack_list s' = stack_list s →
  (d' = d_lock ∧ last_stack_lock s' = last_stack_lock s ∨
   d' = d_iter (stack_list s) ∧ last_stack_lock s = false ∧ last_stack_lock s' = true) → inv s'.
Proof.
  intros Hi Hd G Hu Es El Hcase. pose proof Hi as [F C T V M [L HL] U]. pose proof HL as [L1 L2 L3 L4 L5 L6 L7].
  pose proof (g_dst _ _ _ _ G) as Hd'. pose proof (λ j, goes_on_others i s s' _ j G) as Hoth.
  assert (∀ j, in_list s' j = in_list s j) as Hin.
  { intros j. destruct (decide (j = i)) as [->|Hj]; [|by apply Hoth].
    rewrite (dst_in_list s i _ Hd), (dst_in_list s' i _ Hd'). by destruct Hcase as [[-> _]|[-> _]]. }
  assert (∀ j, j ≠ i → dst s' j = dst s j) as Hds by (intros j Hj; by apply Hoth).
  apply (goes_on_inv i s s' d_lock (Some d') L); try done.
  - intros j. by rewrite Es.
  - intros j. rewrite Es, Hin. apply V.
  - destruct Hcase as [[-> Ek]|(-> & Ek & Ek')].
    + assert (∀ j, dst s' j = dst s j) as Hall.
      { intros j. destruct (decide (j = i)) as [->|Hj]; [congruence|auto]. }
      split; [done|intros j; by rewrite Hin, Es|intros j k; rewrite !Hall; apply L3| | |by rewrite Ek, Es, El|].
      * rewrite Ek, L4. split; intros [j Hj]; exists j; by rewrite ?Hall in *.
      * intros j e. rewrite Hall, Es. intros Hj He. specialize (L5 j e Hj He). destruct e; cbn in *; by rewrite ?El.
      * intros j k nx. rewrite Hall, Es. apply L7.
    + assert (∀ j, critical (dst s j) = false) as Hnone.
      { intros j. destruct (critical (dst s j)) eqn:Ej; [|done]. assert (last_stack_lock s = true) by (apply L4; eauto). congruence. }
      assert (∀ j, critical (dst s' j) = true → j = i) as Hone.
      { intros j Hj. destruct (decide (j = i)) as [|Hne]; [done|]. rewrite Hds in Hj by done. by rewrite Hnone in Hj. }
      split; [done|intros j; by rewrite Hin, Es| | | |by rewrite Ek'|].
      * intros j k Hj Hk. by rewrite (Hone j Hj), (Hone k Hk).
      * rewrite Ek'. split; [|done]. intros _. exists i. by rewrite Hd'.
      * intros j e Hj He. rewrite Es. assert (j = i) as -> by (apply Hone; by rewrite Hj).
        rewrite Hd' in Hj. injection Hj as <-. by apply L6.
      * intros j k nx Hj. assert (j = i) as -> by (apply Hone; by rewrite Hj). by rewrite Hd' in Hj.
Qed.

(** A stack is freed. *)
Lemma free_inv i s s' k nx :
  inv s → dst s i = Some (d_free k nx) → goes_on i s s' (Some (d_iter nx)) → undefined s' = None →
  stacks s' = <[k := mk_stack (tid (stacks s k)) (next (stacks s k)) false]> (stacks s) →
  last_stack_lock s' = last_stack_lock s → live (stacks s k) = true ∧ inv s'.
Proof.
  intros Hi Hd G Hu Es Ek. pose proof Hi as [F C T V M [L HL] U]. pose proof HL as [L1 L2 L3 L4 L5 L6 L7].
  pose proof (g_dst _ _ _ _ G) as Hd'. pose proof (λ j, goes_on_others i s s' _ j G) as Hoth.
  destruct (L7 i k nx Hd) as [Htk Hnx]. pose proof (L5 i _ Hd eq_refl) as Hch. destruct L as [|x L]; [done|]. destruct Hch as [[= <-] Hch].
  assert (in_list s k = true ∧ live (stacks s k) = true) as [Hink Hlk] by (apply L2; by left). split; [done|].
  apply NoDup_cons in L1 as [Hk L1].
  assert (∀ j, in_list s' j = in_list s j) as Hin.
  { intros j. destruct (decide (j = i)) as [->|Hj]; [|by apply Hoth]. by rewrite (dst_in_list s i _ Hd), (dst_in_list s' i _ Hd'). }
  assert (∀ j, critical (dst s' j) = critical (dst s j)) as Hcrit.
  { intros j. destruct (decide (j = i)) as [->|Hj]; [by rewrite Hd', Hd|]. by destruct (Hoth j Hj) as [-> _]. }
  assert (∀ j, j ≠ i → critical (dst s' j) = false) as Hnone.
  { intros j Hj. rewrite Hcrit. apply (not_critical s (k :: L) i); [done|by rewrite Hd|done]. }
  assert (∀ j, next (stacks s' j) = next (stacks s j) ∧ tid (stacks s' j) = tid (stacks s j)) as Hst.
  { intros j. rewrite Es. destruct (decide (j = k)) as [->|Hj]; [by rewrite fn_lookup_insert|by rewrite fn_lookup_insert_ne]. }
  assert (∀ j, live (stacks s' j) = if decide (j = k) then false else live (stacks s j)) as Hlive.
  { intros j. rewrite Es. destruct (decide (j = k)) as [->|Hj]; [by rewrite fn_lookup_insert|by rewrite fn_lookup_insert_ne]. }
  apply (goes_on_inv i s s' (d_free k nx) (Some (d_iter nx)) L); try done.
  - intros j. by destruct (Hst j).
  - intros j Hj. rewrite Hlive, Hin. case_decide; [subst j|by apply V]. intros _. split; [by apply gone_tid|done].
  - split; [done| | | | | |].
    + intros j. rewrite Hin, Hlive. case_decide as Hj.
      * subst j. split; [done|by intros [_ ?]].
      * rewrite <-(L2 j). split; [by right|]. by intros [->|?]%elem_of_cons.
    + intros j j'. rewrite !Hcrit. apply L3.
    + rewrite Ek, L4. split; intros [j Hj]; exists j; by rewrite ?Hcrit in *.
    + intros j e Hj He. destruct (decide (j = i)) as [->|Hne].
      * rewrite Hd' in Hj. injection Hj as <-. cbn [rest_of]. rewrite Hnx. apply (chain_ext (stacks s)); [|done]. intros x _. by destruct (Hst x).
      * by rewrite <-Hj, Hnone in He.
    + rewrite Ek. intros Hf. assert (last_stack_lock s = true) by (apply L4; exists i; by rewrite Hd). congruence.
    + intros j k' nx' Hj. destruct (decide (j = i)) as [->|Hne]; [by rewrite Hd' in Hj|]. specialize (Hnone j Hne). by rewrite Hj in Hnone.
Qed.

(** A thread is put into the list. *)
Lemma link_inv i s s' it :
  inv s → dst s i = Some (d_link it) → goes_on i s s' (Some d_unlock) → undefined s' = None →
  stacks s' = <[i := mk_stack (tid (stacks s i)) it true]> (stacks s) → stack_list s' = Some i →
  last_stack_lock s' = last_stack_lock s → live (stacks s i) = true ∧ inv s'.
Proof.
  intros Hi Hd G Hu Es El Ek. pose proof Hi as [F C T V M [L HL] U]. pose proof HL as [L1 L2 L3 L4 L5 L6 L7].
  pose proof (g_dst _ _ _ _ G) as Hd'. pose proof (λ j, goes_on_others i s s' _ j G) as Hoth.
  pose proof (dst_in_list s i _ Hd) as Hin0. cbn in Hin0. pose proof (dst_in_list s' i _ Hd') as Hin1. cbn in Hin1.
  split. { destruct (live (stacks s i)) eqn:E; [done|]. destruct (V i (dst_phase s i _ Hi Hd) E). congruence. }
  assert (i ∉ L) as Hi'. { intros [? _]%L2. congruence. }
  assert (∀ j, critical (dst s' j) = critical (dst s j)) as Hcrit.
  { intros j. destruct (decide (j = i)) as [->|Hj]; [by rewrite Hd', Hd|]. by destruct (Hoth j Hj) as [-> _]. }
  assert (∀ j, j ≠ i → critical (dst s' j) = false) as Hnone.
  { intros j Hj. rewrite Hcrit. apply (not_critical s L i); [done|by rewrite Hd|done]. }
  assert (stacks s' i = mk_stack (tid (stacks s i)) it true) as Esi by (rewrite Es; by rewrite fn_lookup_insert).
  assert (∀ j, j ≠ i → stacks s' j = stacks s j) as Esj by (intros j Hj; rewrite Es; by rewrite fn_lookup_insert_ne).
  apply (goes_on_inv i s s' (d_link it) (Some d_unlock) (i :: L)); try done.
  - intros j. destruct (decide (j = i)) as [->|Hj]; [by rewrite Esi|by rewrite Esj].
  - intros j Hj. destruct (decide (j = i)) as [->|Hne]; [by rewrite Esi|]. rewrite Esj by done. destruct (Hoth j Hne) as [_ ->]. by apply V.
  - split.
    + by apply NoDup_cons.
    + intros j. rewrite elem_of_cons. destruct (decide (j = i)) as [->|Hne].
      * rewrite Hin1, Esi. cbn. naive_solver.
      * destruct (Hoth j Hne) as [_ ->]. rewrite Esj, L2 by done. naive_solver.
    + intros j j'. rewrite !Hcrit. apply L3.
    + rewrite Ek, L4. split; intros [j Hj]; exists j; by rewrite ?Hcrit in *.
    + intros j e Hj He. destruct (decide (j = i)) as [->|Hne]; [|by rewrite <-Hj, Hnone in He].
      rewrite Hd' in Hj. injection Hj as <-. cbn [rest_of chain]. rewrite El, Esi. split; [done|]. cbn [next].
      apply (chain_ext (stacks s)); [|by apply (L5 i (d_link it))]. intros x Hx. rewrite Esj; [done|]. by intros ->.
    + rewrite Ek. intros Hf. assert (last_stack_lock s = true) by (apply L4; exists i; by rewrite Hd). congruence.
    + intros j k' nx' Hj. destruct (decide (j = i)) as [->|Hne]; [by rewrite Hd' in Hj|]. specialize (Hnone j Hne). by rewrite Hj in Hnone.
Qed.

(** The lock of the list is released. *)
Lemma unlock_inv i s s' :
  inv s → dst s i = Some d_unlock → goes_on i s s' None → undefined s' = None →
  stacks s' = stacks s → stack_list s' = stack_list s → last_stack_lock s' = false → inv s'.
Proof.
  intros Hi Hd G Hu Es El Ek. pose proof Hi as [F C T V M [L HL] U]. pose proof HL as [L1 L2 L3 L4 L5 L6 L7].
  pose proof (g_dst _ _ _ _ G) as Hd'. pose proof (λ j, goes_on_others i s s' _ j G) as Hoth.
  assert (∀ j, in_list s' j = in_list s j) as Hin.
  { intros j. destruct (decide (j = i)) as [->|Hj]; [|by apply Hoth]. rewrite (dst_in_list s i _ Hd). by apply (g_pushed _ _ _ _ G). }
  assert (∀ j, critical (dst s' j) = false) as Hnone.
  { intros j. destruct (decide (j = i)) as [->|Hj]; [by rewrite Hd'|]. destruct (Hoth j Hj) as [-> _].
    apply (not_critical s L i); [done|by rewrite Hd|done]. }
  apply (goes_on_inv i s s' d_unlock None L); try done.
  - intros j. by rewrite Es.
  - intros j. rewrite Es, Hin. apply V.
  - split; [done|intros j; by rewrite Hin, Es|intros j k Hj; by rewrite Hnone in Hj| | | |].
    + rewrite Ek. split; [done|]. intros [j Hj]. by rewrite Hnone in Hj.
    + intros j e Hj He. by rewrite <-Hj, Hnone in He.
    + intros _. rewrite Es, El. by apply (L5 i d_unlock).
    + intros j k nx Hj. specialize (Hnone j). by rewrite Hj in Hnone.
Qed.

Lemma destroy_inv i d s d' s1 s' :
  inv s → dst s i = Some d → destroy_step i d s = (d', s1) → goes_on i s s' d' →
  stacks s' = stacks s1 → stack_list s' = stack_list s1 → last_stack_lock s' = last_stack_lock s1 →
  undefined s' = undefined s1 → inv s'.
Proof.
  intros Hi Hd E G Es El Ek Eu. pose proof Hi as [F C T V M [L HL] U]. pose proof HL as [L1 L2 L3 L4 L5 L6 L7].
  pose proof (g_dst _ _ _ _ G) as Hd'. pose proof (dst_in_list s i d Hd) as Hin. pose proof (dst_phase s i d Hi Hd) as Hph.
  pose proof (λ j, goes_on_others i s s' d' j G) as Hoth.
  destruct d as [|[k|]|k nx|it|]; cbn [destroy_step] in E.
  - destruct (last_stack_lock s) eqn:Elock; injection E as <- <-.
    + pose proof (eq_trans Eu U) as Hu. apply (lock_inv i s s' d_lock); try done. by left.
    + pose proof (eq_trans Eu U) as Hu. apply (lock_inv i s s' (d_iter (stack_list s))); try done. by right.
  - assert (chain (stacks s) (Some k) L) as Hch by (by apply (L5 i (d_iter (Some k)))).
    assert (∃ L', L = k :: L') as [L' EL] by (destruct L; [done|destruct Hch as [[= ->] _]; eauto]).
    assert (in_list s k = true ∧ live (stacks s k) = true) as [Hink Hlk] by (apply L2; rewrite EL; by left).
    rewrite Hlk in E. destruct (tid (stacks s k)) as [t|] eqn:Et.
    2: { exfalso. rewrite T in Et. pose proof (C k) as Ck. unfold in_list, pushed in Hink. destruct (runners s k); try done.
         unfold compat in Ck. destruct (ph s k); cbn in *; done. }
    destruct (t =? 0)%Z eqn:Et0; injection E as <- <-.
    + pose proof (eq_trans Eu U) as Hu. apply Z.eqb_eq in Et0 as ->.
      apply (walk_inv i s s' (d_iter (Some k)) (d_free k (next (stacks s k)))); try done.
      intros k' nx' E'. by injection E' as <- <-.
    + pose proof (eq_trans Eu U) as Hu. by apply (walk_inv i s s' (d_iter (Some k)) (d_link (Some k))).
  - injection E as <- <-. pose proof (eq_trans Eu U) as Hu. by apply (walk_inv i s s' (d_iter None) (d_link None)).
  - assert (live (stacks s k) = true) as Hlk.
    { pose proof (L5 i _ Hd eq_refl) as Hch. destruct L as [|x L]; [done|]. destruct Hch as [[= ->] _]. apply L2. by left. }
    rewrite Hlk in E. injection E as <- <-. pose proof (eq_trans Eu U) as Hu. by apply (free_inv i s s' k nx).
  - assert (live (stacks s i) = true) as Hli.
    { destruct (live (stacks s i)) eqn:El'; [done|]. destruct (V i Hph El'). congruence. }
    rewrite Hli in E. injection E as <- <-. pose proof (eq_trans Eu U) as Hu. by apply (link_inv i s s' it).
  - injection E as <- <-. pose proof (eq_trans Eu U) as Hu. by apply (unlock_inv i s s').
Qed.

(** *** Every step *)

Lemma created_phase m i : created m n i = true → main_phase m n i ≠ Before.
Proof.
  unfold created, main_phase, at_thread.
  destruct m; intros H; first [apply Nat.ltb_lt in H | apply Nat.leb_le in H]; repeat case_decide; try done; lia.
Qed.

(** Decide what follows from the phase and the place of a thread. *)
Ltac by_phase Hc p := destruct p; cbn in Hc |- *; try done; try (by rewrite ?andb_false_r in Hc).

(** Thread [i] goes to [r]. *)
Lemma runner_simple i r s s' :
  inv s → runners s' = <[i := r]> (runners s) → main s' = main s →
  (∀ j, j ≠ i → cts s' j = cts s j ∧ stacks s' j = stacks s j) →
  cts s' i = flags r (ph s i) → stacks s' i = mk_stack (tid_of i r) (next (stacks s i)) (live (stacks s i)) →
  stack_list s' = stack_list s → last_stack_lock s' = last_stack_lock s → undefined s' = undefined s →
  compat r (ph s i) = true → (runners s i = Gone → r = Gone) → ph s i ≠ Before →
  pushed r (ph s i) = pushed (runners s i) (ph s i) →
  destroying r (ph s i) = destroying (runners s i) (ph s i) ∨
    critical (destroying (runners s i) (ph s i)) = false ∧ critical (destroying r (ph s i)) = false → inv s'.
Proof.
  intros Hi Er Em Ho Ec Es El Ek Eu Hco Hg Hb Hp Hd.
  assert (∀ j, ph s' j = ph s j) as Eph by (intros j; unfold ph; by rewrite Em).
  assert (runners s' i = r) as Eri by (rewrite Er; apply fn_lookup_insert).
  apply (simple_inv i s); try done; rewrite ?Eri, ?Eph; try done.
  - intros j Hj. rewrite Er, fn_lookup_insert_ne, Eph by done. destruct (Ho j Hj) as [-> ->]. done.
  - by rewrite Es.
  - unfold in_list. by rewrite Eri, Eph.
  - unfold dst. by rewrite Eri, Eph.
  - intros j _. destruct (decide (j = i)) as [->|Hj]; [by rewrite Es|]. by destruct (Ho j Hj) as [_ ->].
  - rewrite Em. apply (i_main _ Hi).
Qed.

Lemma destroy_frame i d s d' s1 :
  destroy_step i d s = (d', s1) → cts s1 = cts s ∧ runners s1 = runners s ∧ main s1 = main s.
Proof.
  destruct d as [|[k|]|k nx|it|]; cbn; repeat case_match; intros [= <- <-]; done.
Qed.

(** What the flags, and that the phase and the place are possible, leave of the goals. *)
Ltac places s i Er Ci Fi Ti :=
  rewrite ?Er; try done;
  try (destruct (stacks s i); cbn in Ti |- *; by rewrite Ti);
  try (rewrite Fi; cbn [flags set_lock set_finished set_detached lock is_finished is_detached] in *);
  try (cbn; destruct (ph s i); cbn in *; first [done|by left|by right]).

Lemma runner_inv i s s' : inv s → runner_step n i s = Some s' → inv s'.
Proof.
  intros Hi E. pose proof Hi as [F C T V M [L HL] U]. pose proof (F i) as Fi. pose proof (C i) as Ci. pose proof (T i) as Ti.
  unfold runner_step in E. destruct (runners s i) eqn:Er; [| | | |destruct (destroy_step i d s) as [d' s1] eqn:Ed| | | |done].
  3: destruct (lock (cts s i)) eqn:Elock; [by injection E as <-|rewrite Fi in Elock; cbn in Elock].
  1: destruct (created (main s) n i) eqn:Ecr; [|done].
  all: injection E as <-.
  all: assert (ph s i ≠ Before) as Hb by (first [by apply created_phase|intros Hb; rewrite Hb in Ci; by cbn in Ci]).
  4: destruct (is_detached (cts s i)) eqn:Edet; rewrite Fi in Edet; cbn in Edet.
  all: try (eapply (runner_simple i _ s); [done|reflexivity|done|..|done|done|done| | |done| |]).
  all: try (intros j Hj; cbn; by rewrite ?fn_lookup_insert_ne by done).
  all: cbn; rewrite ?fn_lookup_insert.
  all: places s i Er Ci Fi Ti.
  destruct (destroy_frame _ _ _ _ _ Ed) as (E1 & E2 & E3).
  apply (destroy_inv i d s d' s1); try done; [unfold dst; by rewrite Er|].
  assert (∀ m, ph (set_runner i m s1) i = ph s i) as Eph by (intros m; unfold ph; cbn; by rewrite E3).
  assert (∀ m, runners (set_runner i m s1) i = m) as Erun by (intros m; cbn; apply fn_lookup_insert).
  split; unfold dst, in_list; rewrite ?Eph, ?Erun, ?Er; try done.
  - intros j Hj. cbn. rewrite fn_lookup_insert_ne, E2 by done. unfold ph. cbn. by rewrite E3.
  - destruct d'; [done|]. cbn. destruct (ph s i); cbn in *; done.
  - intros ->. cbn. destruct (ph s i); cbn in *; done.
  - by destruct d'.
  - destruct d'; cbn; destruct (ph s i); cbn in *; done.
  - by destruct d'.
  - cbn. by rewrite E3.
Qed.

Lemma at_thread_here i p : at_thread i i p = p.
Proof. unfold at_thread. repeat case_decide; first [done|lia]. Qed.

Lemma at_thread_ne i j p q : i ≠ j → at_thread i j p = at_thread i j q.
Proof. unfold at_thread. intros H. repeat case_decide; done. Qed.

Lemma at_thread_next i j p : i ≠ j → at_thread i (j + 1) Before = at_thread i j p.
Proof. unfold at_thread. intros H. repeat case_decide; first [done|lia]. Qed.

(** [main] goes on with thread [i], whose stack it leaves alone. *)
Lemma main_simple i m s s' :
  inv s → main s' = m → (∀ j, j ≠ i → main_phase m n j = ph s j ∧ cts s' j = cts s j) → ph s i ≠ Before →
  runners s' = runners s → stacks s' = stacks s → stack_list s' = stack_list s →
  last_stack_lock s' = last_stack_lock s → undefined s' = undefined s →
  cts s' i = flags (runners s i) (main_phase m n i) → compat (runners s i) (main_phase m n i) = true →
  pushed (runners s i) (main_phase m n i) = pushed (runners s i) (ph s i) →
  destroying (runners s i) (main_phase m n i) = destroying (runners s i) (ph s i) ∨
    critical (destroying (runners s i) (ph s i)) = false ∧ critical (destroying (runners s i) (main_phase m n i)) = false →
  match m with
    | m_create j => j ≤ n
    | m_lock j | m_test j | m_destroy j _ | m_detach j | m_unlock j => j < n
    | m_wait _ | m_end => True end → inv s'.
Proof.
  intros Hi <- Ho Hb Er Es El Ek Eu Ec Hc Hp Hd Hm.
  apply (simple_inv i s); rewrite ?Er, ?Es; try done; unfold in_list, dst; change (ph s' i) with (main_phase (main s') n i); rewrite ?Er; try done.
  - intros j Hj. destruct (Ho j Hj) as [Hpj ->]. rewrite Er, Es. by repeat split.
  - apply (i_tid _ Hi).
Qed.

(** What the phase of the thread that [main] is with leaves of the goals. *)
Ltac here i Em Hpi Fi :=
  rewrite ?Hpi; cbn; rewrite ?fn_lookup_insert, ?Fi; try done;
  match goal with s : State |- _ => destruct (runners s i) eqn:? end;
  cbn in *; rewrite ?at_thread_here; cbn; first [done|by left|by right].

Lemma main_inv s s' : inv s → main_step n s = Some s' → inv s'.
Proof.
  intros Hi E. pose proof Hi as [F C T V M [L HL] U]. unfold main_step in E.
  assert (∀ m, (∀ j, main_phase m n j = ph s j) → match m with m_wait _ | m_end => True | _ => False end → inv (set_main m s)) as Hskip.
  { intros m Hm Hw. apply (simple_inv n s); try done; try by destruct m.
    - intros j _. repeat split. apply Hm.
    - cbn. rewrite F. f_equal. symmetry. apply Hm.
    - apply T.
    - cbn. unfold ph at 1. cbn. rewrite Hm. apply C.
    - unfold in_list, ph at 1. cbn. by rewrite Hm.
    - left. unfold dst, ph at 1. cbn. by rewrite Hm.
    - intros Hb. left. unfold ph. cbn. by rewrite Hm.
    - intros Hb. pose proof (C n) as Cn. rewrite Hb in Cn. unfold in_list. rewrite Hb. by destruct (runners s n). }
  assert (∀ i p, main_phase (main s) n i = at_thread i i p → ph s i = p) as at_ph by (intros i p Hp; unfold ph; rewrite Hp; apply at_thread_here).
  unfold ph in Hskip. destruct (main s) as [i|i|i|i d|i|i|i|] eqn:Em; [..|done].
  all: match goal with |- ?g => idtac end; cbn in M.
  - destruct (i <? n) eqn:Ei; injection E as <-.
    2:{ apply Nat.ltb_ge in Ei. apply Hskip; [|done]. intros j. cbn. unfold at_thread. repeat case_decide; first [done|lia]. }
    apply Nat.ltb_lt in Ei. assert (ph s i = Before) as Hpi by (unfold ph; rewrite Em; apply at_thread_here).
    pose proof (C i) as Ci. rewrite Hpi in Ci. assert (runners s i = Unborn) as Er by (by destruct (runners s i)).
    apply (simple_inv i s); try done; unfold in_list, dst, ph; cbn; rewrite ?Em, ?Er, ?fn_lookup_insert; cbn; rewrite ?at_thread_here; try done.
    + intros j Hj. cbn. unfold ph. cbn. rewrite Em, !fn_lookup_insert_ne by done. cbn. by repeat split; apply at_thread_ne.
    + by left.
    + intros _. by right.
    + intros j [Hj|Hj]; [by rewrite fn_lookup_insert_ne|done].
  - pose proof (at_ph i Locking) as Hpi. specialize (Hpi eq_refl). pose proof (C i) as Ci. pose proof (F i) as Fi.
    rewrite Hpi in Ci, Fi. destruct (lock (cts s i)) eqn:El; injection E as <-; [done|]. rewrite Fi in El.
    apply (main_simple i (m_test i) s); try done.
    1: intros j Hj; cbn; rewrite fn_lookup_insert_ne by done; unfold ph; rewrite Em; by split; [apply at_thread_ne|].
    all: here i Em Hpi Fi.
  - pose proof (at_ph i Testing) as Hpi. specialize (Hpi eq_refl). pose proof (C i) as Ci. pose proof (F i) as Fi.
    rewrite Hpi in Ci, Fi. injection E as <-. rewrite Fi. cbn [is_finished flags].
    apply (main_simple i (if finished (runners s i) then m_destroy i d_lock else m_detach i) s); try done.
    1: intros j Hj; split; [|done]; unfold ph; rewrite Em; destruct (finished _); by apply at_thread_ne.
    all: here i Em Hpi Fi.
  - destruct (destroy_step i d s) as [d' s1] eqn:Ed. injection E as <-.
    pose proof (at_ph i (Destroying d)) as Hpi. specialize (Hpi eq_refl). pose proof (C i) as Ci.
    destruct (destroy_frame _ _ _ _ _ Ed) as (E1 & E2 & E3). rewrite Hpi in Ci.
    apply (destroy_inv i d s d' s1); try done; [unfold dst; rewrite Hpi; by destruct (runners s i)|].
    assert (∀ m, runners (set_main m s1) i = runners s i) as Erun by (intros m; cbn; by rewrite E2).
    assert (ph (set_main (match d' with Some d' => m_destroy i d' | None => m_detach i end) s1) i =
      match d' with Some d' => Destroying d' | None => Detaching end) as Ep by (unfold ph; destruct d'; cbn; apply at_thread_here).
    split; unfold dst, in_list; rewrite ?Ep, ?Erun, ?Hpi; try done.
    + intros j Hj. cbn. rewrite E2. split; [done|]. unfold ph. rewrite Em. destruct d'; cbn; by apply at_thread_ne.
    + destruct (runners s i), d'; cbn in *; done.
    + intros ->. destruct (runners s i); cbn in *; done.
    + by destruct d'.
    + destruct (runners s i), d'; cbn in *; done.
    + by destruct d'.
    + by destruct d'.
  - pose proof (at_ph i Detaching) as Hpi. specialize (Hpi eq_refl). pose proof (C i) as Ci. pose proof (F i) as Fi.
    rewrite Hpi in Ci, Fi. injection E as <-. apply (main_simple i (m_unlock i) s); try done.
    1: intros j Hj; cbn; rewrite fn_lookup_insert_ne by done; unfold ph; rewrite Em; by split; [apply at_thread_ne|].
    all: here i Em Hpi Fi.
  - pose proof (at_ph i Unlocking) as Hpi. specialize (Hpi eq_refl). pose proof (C i) as Ci. pose proof (F i) as Fi.
    rewrite Hpi in Ci, Fi. injection E as <-.
    assert (main_phase (m_create (i + 1)) n i = After) as Ha by (cbn; unfold at_thread; case_decide; [done|lia]).
    apply (main_simple i (m_create (i + 1)) s); rewrite ?Ha; try done; [..|lia].
    1: intros j Hj; cbn; rewrite fn_lookup_insert_ne by done; unfold ph; rewrite Em; by split; [apply at_thread_next|].
    all: here i Em Hpi Fi.
  - destruct (i <? n); injection E as <-; by apply Hskip.
Qed.

Lemma start_inv : inv start.
Proof.
  assert (∀ i, ph start i = Before) as Hp by (intros i; unfold ph; cbn; unfold at_thread; repeat case_decide; first [done|lia]).
  split; try done; try (intros i; rewrite Hp; done).
  - cbn. lia.
  - exists []. split; unfold dst, in_list.
    all: try (intros i; rewrite Hp; cbn; done).
    + apply NoDup_nil_2.
    + intros i. rewrite Hp. cbn. set_solver.
    + split; [done|]. intros [i Hi]. by rewrite Hp in Hi.
    + done.
Qed.

Lemma step_inv l s s' : inv s → step n l s = Some s' → inv s'.
Proof.
  intros Hi. unfold step. destruct (undefined s); [done|]. destruct l; [by apply runner_inv|by apply main_inv].
Qed.

Lemma run_inv ls s s' : inv s → run n ls s = Some s' → inv s'.
Proof.
  revert s. induction ls as [|l ls IH]; cbn; intros s Hi E; [by injection E as <-|].
  destruct (step n l s) as [s1|] eqn:E1; [|done]. cbn in E. apply (IH s1); [|done]. by apply (step_inv l s).
Qed.

End invariant.

(** *** What follows *)

Section theorems.
Variable n : nat.
Implicit Types s : State.

(** The second loop has passed over thread [j]. *)
Definition waited (m : mpc) (j : nat) : Prop :=
  1 ≤ j < n ∧ match m with m_wait i => j < i | m_end => True | _ => False end.

Lemma finished_mono i s s' j : runner_step n i s = Some s' → is_finished (cts s j) = true → is_finished (cts s' j) = true.
Proof.
  assert (∀ c, is_finished c = true ∨ is_finished c = is_finished (cts s i) →
    is_finished (cts s j) = true → is_finished (<[i := c]> (cts s) j) = true) as Hset.
  { intros c Hc Hj. destruct (decide (j = i)) as [->|Hne]; [rewrite fn_lookup_insert|by rewrite fn_lookup_insert_ne].
    by destruct Hc as [Hc|Hc]; rewrite Hc. }
  unfold runner_step. destruct (runners s i); try (by intros [= <-]).
  - case_match; [|done]. by intros [= <-].
  - case_match; intros [= <-]; [done|]. apply Hset. by right.
  - destruct (destroy_step i d s) as [d' s1] eqn:Ed. intros [= <-]. cbn. by destruct (destroy_frame _ _ _ _ _ Ed) as (-> & _).
  - intros [= <-]. apply Hset. by left.
  - intros [= <-]. apply Hset. by right.
Qed.

Lemma runner_main i s s' : runner_step n i s = Some s' → main s' = main s.
Proof.
  unfold runner_step. destruct (runners s i); try (by intros [= <-]).
  1,2: case_match; by intros [= <-].
  destruct (destroy_step i d s) as [d' s1] eqn:Ed. intros [= <-]. by destruct (destroy_frame _ _ _ _ _ Ed) as (_ & _ & E).
Qed.

Definition waited_finished s : Prop := ∀ j, waited (main s) j → is_finished (cts s j) = true.

Lemma step_waited l s s' : waited_finished s → step n l s = Some s' → waited_finished s'.
Proof.
  intros Hw. unfold step. destruct (undefined s); [done|]. destruct l as [i|].
  { intros E j. rewrite (runner_main i s s' E). intros Hj. by apply (finished_mono i s s'), Hw. }
  unfold main_step. unfold waited_finished, waited in *. destruct (main s) as [i|i|i|i d|i|i|i|] eqn:Em; [..|done].
  - destruct (i <? n); intros [= <-] j [? Hj]; cbn in Hj; [done|lia].
  - destruct (lock (cts s i)); intros [= <-] j [? Hj]; [by rewrite Em in Hj|done].
  - intros [= <-] j [? Hj]. cbn in Hj. by destruct (is_finished (cts s i)).
  - destruct (destroy_step i d s) as [d' s1]. intros [= <-] j [? Hj]. cbn in Hj. by destruct d'.
  - intros [= <-] j [? Hj]. done.
  - intros [= <-] j [? Hj]. done.
  - destruct (i <? n) eqn:Ei; intros [= <-] j [Hj1 Hj]; cbn in *.
    + destruct (is_finished (cts s i)) eqn:Ef; [|lia]. destruct (decide (j = i)) as [->|]; [done|]. apply Hw. lia.
    + apply Nat.ltb_ge in Ei. apply Hw. lia.
Qed.

Lemma run_waited ls s s' : waited_finished s → run n ls s = Some s' → waited_finished s'.
Proof.
  revert s. induction ls as [|l ls IH]; cbn; intros s Hi E; [by injection E as <-|].
  destruct (step n l s) as [s1|] eqn:E1; [|done]. cbn in E. apply (IH s1); [|done]. by apply (step_waited l s).
Qed.

End theorems.

(** C32: In every interleaving of [main] with its detached threads no stack is used after it was
    freed, freed twice or before its thread has written its identifier, and no stack is freed
    under a thread that runs; once all threads are gone each stack either was freed or is in
    the list, exactly once; and [main] ends only after all threads but the first have finished. *)
Theorem detach_safe n ls s : run n ls start = Some s →
  undefined s = None ∧
  (∀ i, runners s i ≠ Unborn → runners s i ≠ Gone → live (stacks s i) = true) ∧
  (main s = m_end → (∀ i, 1 ≤ i < n → is_finished (cts s i) = true) ∧
    ((∀ i, i < n → runners s i = Gone) →
      ∃ L, chain (stacks s) (stack_list s) L ∧ NoDup L ∧ ∀ i, i ∈ L ↔ i < n ∧ live (stacks s i) = true)).
Proof.
  intros E. pose proof (run_inv n ls start s (start_inv n) E) as [F C T V M [L HL] U]. split; [done|]. split.
  { intros i Hu Hg. destruct (live (stacks s i)) eqn:El; [done|]. destruct (V i) as [? _]; [|done..].
    intros Hb. pose proof (C i) as Ci. rewrite Hb in Ci. by destruct (runners s i). }
  intros Em. split.
  { intros i Hi. apply (run_waited n ls start s); [intros j [_ []]|done|]. by rewrite Em. }
  intros Hg. assert (∀ i, ph n s i = if decide (i < n) then After else Before) as Hp by (intros i; unfold ph; by rewrite Em).
  assert (∀ i, in_list n s i = true ↔ i < n) as Hin.
  { intros i. pose proof (C i) as Ci. unfold in_list. rewrite Hp in *. case_decide as Hi; [by rewrite Hg|].
    by destruct (runners s i). }
  exists L. split; [|split; [apply (l_nodup _ _ _ HL)|]].
  - apply (l_free_chain _ _ _ HL). destruct (last_stack_lock s) eqn:Ek; [|done]. apply (l_lock _ _ _ HL) in Ek as [i Hi].
    pose proof (C i) as Ci. unfold dst in Hi. rewrite Hp in *. case_decide as Hin'; [by rewrite Hg in Hi|]. by destruct (runners s i).
  - intros i. rewrite (l_elem _ _ _ HL), Hin. done.
Qed.

(** [k] steps of one thread. *)
Definition steps (k : nat) (l : option nat) : list (option nat) := repeat l k.

(** Two threads one after the other, each finished before it is detached. *)
Definition one_by_one : list (option nat) :=
  steps 1 None ++ steps 7 (Some 0) ++ steps 8 None ++ steps 1 None ++ steps 7 (Some 1) ++ steps 10 None ++ steps 4 None.

(** Where a schedule ends. *)
Definition final (n : nat) (ls : list (option nat)) : State := default start (run n ls start).

Lemma run_final n ls : match run n ls start with Some _ => true | None => false end = true → run n ls start = Some (final n ls).
Proof. unfold final. by destruct (run n ls start). Qed.

Lemma detach_safe_witness : let s := final 2 one_by_one in
  main s = m_end ∧ live (stacks s 0) = false ∧ undefined s = None ∧
  (∀ i, runners s i ≠ Unborn → runners s i ≠ Gone → live (stacks s i) = true) ∧
  (main s = m_end → (∀ i, 1 ≤ i < 2 → is_finished (cts s i) = true) ∧
    ((∀ i, i < 2 → runners s i = Gone) →
      ∃ L, chain (stacks s) (stack_list s) L ∧ NoDup L ∧ ∀ i, i ∈ L ↔ i < 2 ∧ live (stacks s i) = true)).
Proof.
  intros s. split; [vm_compute; reflexivity|]. split; [vm_compute; reflexivity|].
  refine (detach_safe 2 one_by_one s _). apply run_final. vm_compute. reflexivity.
Defined.

(** The first stack is freed when the second is put into the list, the last one stays allocated. *)
Example last_stack_stays : let s := final 2 one_by_one in
  runners s 0 = Gone ∧ runners s 1 = Gone ∧
  live (stacks s 0) = false ∧ live (stacks s 1) = true ∧ stack_list s = Some 1.
Proof. vm_compute. by repeat split. Qed.

(** The second loop starts again at the second thread (line 143 sets [i] to 0, then [++i]), so
    that the first is not waited for: [main] ends while it runs its function. *)
Definition early : list (option nat) :=
  steps 51 None ++ steps 1 (Some 0) ++ steps 11 (Some 1) ++
  flat_map (λ i, steps 13 (Some i)) (seq 2 8) ++ steps 11 None.

Lemma first_not_waited_for : ∃ s, run 10 early start = Some s ∧
  main s = m_end ∧ runners s 0 = r_func ∧ is_finished (cts s 0) = false.
Proof.
  exists (final 10 early). split; [apply run_final; vm_compute; reflexivity|]. by vm_compute.
Qed.

(** *** [cthread_join], which [main] does not call *)

(** Before the test of [is_finished], in [cthread_destroy], or returned. *)
Inductive jpc : Type := j_wait | j_destroy (d : dpc) | j_return.

Definition join_step (i : nat) (js : jpc * State) : jpc * State :=
  let '(j, s) := js in
  match j with
  | j_wait => (if is_finished (cts s i) then j_destroy d_lock else j_wait, s)
  | j_destroy d =>
      let '(d', s') := destroy_step i d s in
      (match d' with Some d' => j_destroy d' | None => j_return end, s')
  | j_return => (j_return, s)
  end.

(** The part of the list behind the threads that have ended at its head. *)
Fixpoint in_use (st : nat → cthread_stack) (L : list nat) : list nat :=
  match L with
  | [] => []
  | x :: L' => if decide (tid (st x) = Some 0%Z) then in_use st L' else L
  end.

Lemma in_use_ext st st' L : (∀ x, x ∈ L → tid (st' x) = tid (st x)) → in_use st' L = in_use st L.
Proof.
  induction L as [|x L IH]; cbn; [done|]. intros H. rewrite (H x) by (by left). case_decide; [|done].
  apply IH. intros y Hy. apply H. by right.
Qed.

Lemma in_use_subset st L x : x ∈ in_use st L → x ∈ L.
Proof. induction L as [|y L IH]; cbn; [done|]. case_decide; [|done]. intros Hin. right. by apply IH. Qed.

Record walked (i : nat) (L : list nat) (s s' : State) : Prop := mk_walked {
  w_chain : chain (stacks s') (head (in_use (stacks s) L)) (in_use (stacks s) L);
  w_own : stacks s' i = stacks s i;
  w_rest : stack_list s' = stack_list s ∧ last_stack_lock s' = last_stack_lock s ∧ undefined s' = undefined s;
}.

(** The walk over the list frees what has ended and stops at the first stack in use. *)
Lemma join_walk i L : ∀ s it, chain (stacks s) it L → NoDup L → i ∉ L →
  Forall (λ x, live (stacks s x) = true ∧ is_Some (tid (stacks s x))) L →
  ∃ k s', Nat.iter k (join_step i) (j_destroy (d_iter it), s) = (j_destroy (d_link (head (in_use (stacks s) L))), s') ∧
    walked i L s s'.
Proof.
  induction L as [|x L IH]; intros s it Hc Hn Hi Hl; cbn [chain] in Hc.
  - subst it. exists 1, s. by split; [|split].
  - destruct Hc as [-> Hc]. apply Forall_cons in Hl as [[Hlive [t Ht]] Hl]. apply NoDup_cons in Hn as [Hx Hn].
    apply not_elem_of_cons in Hi as [Hix Hi]. cbn [in_use]. destruct (decide (tid (stacks s x) = Some 0%Z)) as [E|E].
    + assert (t = 0%Z) as -> by congruence.
      set (s1 := set_stack x (mk_stack (tid (stacks s x)) (next (stacks s x)) false) s).
      assert (Hs1 : ∀ y, y ≠ x → stacks s1 y = stacks s y) by (intros y Hy; cbn; by rewrite fn_lookup_insert_ne).
      destruct (IH s1 (next (stacks s x))) as (k & s' & Ek & Hw); [|done|done| |].
      * apply (chain_ext (stacks s)); [|done]. intros y Hy. by rewrite Hs1 by (intros ->; done).
      * rewrite Forall_forall in *. intros y Hy. rewrite Hs1 by (intros ->; done). by apply Hl.
      * assert (in_use (stacks s1) L = in_use (stacks s) L) as EL.
        { apply in_use_ext. intros y Hy. by rewrite Hs1 by (intros ->; done). }
        rewrite EL in Ek. destruct Hw as [W1 W2 W3]. rewrite EL in W1.
        exists (k + 2), s'. split.
        -- rewrite Nat.iter_add. cbn [Nat.iter nat_rect join_step destroy_step].
           rewrite Hlive, Ht. cbn [Z.eqb join_step destroy_step]. rewrite Hlive. exact Ek.
        -- split; [cbn [in_use]; by rewrite decide_True by done|by rewrite W2, Hs1|exact W3].
    + exists 1, s. cbn [Nat.iter nat_rect join_step destroy_step]. rewrite Hlive, Ht.
      rewrite (proj2 (Z.eqb_neq t 0)) by congruence. split; [done|].
      split; [cbn [in_use]; by rewrite decide_False by done|done|done].
Qed.

(** A thread that is joined after it has finished, while nobody else destroys one: its stack
    goes to the head of the list, behind which are the stacks from the first on that is in
    use; its own is the only one that is certain to stay until the next call. *)
Theorem join_reclaims i L s : is_finished (cts s i) = true → last_stack_lock s = false →
  live (stacks s i) = true → chain (stacks s) (stack_list s) L → NoDup L → i ∉ L →
  Forall (λ x, live (stacks s x) = true ∧ is_Some (tid (stacks s x))) L →
  ∃ k s', Nat.iter k (join_step i) (j_wait, s) = (j_return, s') ∧
    last_stack_lock s' = false ∧ undefined s' = undefined s ∧
    chain (stacks s') (stack_list s') (i :: in_use (stacks s) L).
Proof.
  intros Hf Hk Hl Hc Hn Hi HL. set (s0 := set_list (stack_list s) true s).
  destruct (join_walk i L s0 (stack_list s) Hc Hn Hi HL) as (k & s' & Ek & [W1 W2 (W3 & W4 & W5)]).
  exists (2 + (k + 2)), (set_list (Some i) false (set_stack i (mk_stack (tid (stacks s' i)) (head (in_use (stacks s) L)) true) s')).
  split.
  - rewrite !Nat.iter_add. cbn [Nat.iter nat_rect join_step destroy_step]. rewrite Hf. cbn [join_step destroy_step].
    rewrite Hk. cbn [join_step]. fold s0. rewrite Ek. cbn [join_step destroy_step]. rewrite W2. cbn. by rewrite Hl.
  - split_and!; [done|by cbn; rewrite W5|]. cbn. split; [done|]. rewrite fn_lookup_insert. cbn.
    eapply chain_ext; [|exact W1]. intros y Hy. cbn. rewrite fn_lookup_insert_ne; [done|]. intros ->. apply Hi.
    by eapply in_use_subset.
Qed.

End Detach.

(** ** 10_cthreads_1.c and 10_cthreads_2.c *)

Module Join.

(** How the function of the thread ends: with [return], or with [cthread_exit] (10_cthreads_2.c). *)
Inductive outcome : Type := Returns (r : Z) | Exits (r : Z).

(** [cthread_runner], from clone to the end of the thread. *)
Inductive rpc : Type := Unborn | r_func | r_store (r : Z) | r_finish | r_return | Gone.
(** [main], with [cthread_create] and [cthread_join]. *)
Inductive mpc : Type := m_create | m_wait | m_free | m_code | m_end (retcode : Z).

(** [struct cthread]; [live]: its stack is allocated. *)
Record cthread : Type := mk_cthread { returned_code : Z; is_finished : bool; live : bool }.
Record State : Type := mk_state { ct : cthread; runner : rpc; main : mpc; undefined : option ub }.

Definition cthread_create : cthread := mk_cthread 0 false true.

(** A step of the thread; its stack must be there, up to the return from [cthread_runner]. *)
Definition cthread_runner (o : outcome) (s : State) : option State :=
  let c := ct s in
  let go c r := if live (ct s) then Some (mk_state c r (main s) None)
                else Some (mk_state (ct s) (runner s) (main s) (Some UseAfterFree)) in
  match runner s with
  | Unborn => match main s with m_create => None | _ => go c r_func end
  | r_func =>
      match o with
      | Returns r => go c (r_store r)
      | Exits r => go (mk_cthread r (is_finished c) (live c)) r_finish   (* cthread_exit, longjmp *)
      end
  | r_store r => go (mk_cthread r (is_finished c) (live c)) r_finish
  | r_finish => go (mk_cthread (returned_code c) true (live c)) r_return
  | r_return => go c Gone
  | Gone => None
  end.

Definition main_step (s : State) : option State :=
  let c := ct s in
  match main s with
  | m_create => Some (mk_state cthread_create (runner s) m_wait None)
  | m_wait => if is_finished c then Some (mk_state c (runner s) m_free None) else Some s
  | m_free => if live c then Some (mk_state (mk_cthread (returned_code c) (is_finished c) false) (runner s) m_code None)
              else Some (mk_state c (runner s) (main s) (Some DoubleFree))
  | m_code => Some (mk_state c (runner s) (m_end (returned_code c)) None)
  | m_end _ => None
  end.

(** [true]: the thread. *)
Definition step (o : outcome) (l : bool) (s : State) : option State :=
  match undefined s with Some _ => None | None => if l then cthread_runner o s else main_step s end.

Fixpoint run (o : outcome) (ls : list bool) (s : State) : option State :=
  match ls with [] => Some s | l :: ls => step o l s ≫= run o ls end.

Definition start : State := mk_state (mk_cthread 0 false false) Unborn m_create None.

Definition code (o : outcome) : Z := match o with Returns r | Exits r => r end.

Definition freed (m : mpc) : bool := match m with m_code | m_end _ => true | _ => false end.
Definition done_with (r : rpc) : bool := match r with r_return | Gone => true | _ => false end.

Record inv (o : outcome) (s : State) : Prop := {
  i_live : main s ≠ m_create → live (ct s) = negb (freed (main s));
  i_born : main s = m_create → runner s = Unborn;
  i_fin : is_finished (ct s) = done_with (runner s);
  i_past : match main s with m_create | m_wait => True | _ => is_finished (ct s) = true end;
  i_store : ∀ r, runner s = r_store r → r = code o;
  i_code : match runner s with r_finish | r_return | Gone => returned_code (ct s) = code o | _ => True end;
  i_end : ∀ v, main s = m_end v → v = code o;
  i_undef : undefined s = None ∨ undefined s = Some UseAfterFree ∧ runner s = r_return ∧ freed (main s) = true;
}.

Lemma join_step_inv o l s s' : inv o s → step o l s = Some s' → inv o s'.
Proof.
  intros [Il Ib If Ip Is Ic Ie Iu]. destruct s as [[c f a] r m u]. cbn in *. unfold step. cbn.
  destruct u; [done|]. clear Iu. destruct l; cbn.
  - destruct r; [destruct m; [done|..]|destruct o|..|done]; cbn; destruct a; intros [= <-]; cbn in *.
    all: split; cbn in *; try done; try (by left); try (intros; congruence); try (destruct m; done); try (by intros ? [= <-]; auto).
    all: try (destruct m; cbn in *; naive_solver).
    all: by specialize (Il ltac:(done)).
  - destruct m; [|destruct f|destruct a|..|done]; intros [= <-]; cbn in *.
    all: split; cbn in *; try done; try (by left); try (intros; congruence); try (destruct r; done).
    all: try (destruct r; naive_solver).
Qed.

Lemma join_run_inv o ls s s' : inv o s → run o ls s = Some s' → inv o s'.
Proof.
  revert s. induction ls as [|l ls IH]; cbn; intros s Hi E; [by injection E as <-|].
  destruct (step o l s) as [s1|] eqn:E1; [|done]. cbn in E. apply (IH s1); [|done]. by apply (join_step_inv o l s).
Qed.

Lemma join_start_inv o : inv o start.
Proof. split; try done. by left. Qed.

(** [cthread_join] returns what the function returned or exited with, when the thread has
    finished; the only undefined behaviour is that its stack is freed before the thread has
    returned from [cthread_runner]. *)
Theorem join_code o ls s : run o ls start = Some s →
  (∀ v, main s = m_end v → v = code o ∧ done_with (runner s) = true) ∧
  (undefined s = None ∨ undefined s = Some UseAfterFree ∧ runner s = r_return ∧ freed (main s) = true).
Proof.
  intros E. destruct (join_run_inv o ls start s (join_start_inv o) E) as [Il Ib If Ip Is Ic Ie Iu]. split; [|done].
  intros v Hv. rewrite Hv in Ip. split; [by apply Ie|congruence].
Qed.

Example join_300 : option_map main (run (Exits 300) [false; true; true; true; true; false; false; false] start) = Some (m_end 300).
Proof. reflexivity. Qed.

(** The flag is set before the thread leaves its stack. *)
Lemma join_stack_race : option_map undefined
  (run (Returns 200) [false; true; true; true; true; false; false; true] start) = Some (Some UseAfterFree).
Proof. reflexivity. Qed.

End Join.

(** ** 11_cthread_bad_detach.c *)

Module BadDetach.

Inductive rpc : Type := Unborn | r_func | r_test | r_destroy | r_finish | r_return | Gone.
(** [main], with [cthread_create] and [cthread_detach]. *)
Inductive mpc : Type := m_create | m_test | m_destroy | m_detach | m_wait | m_end.

Record cthread : Type := mk_cthread { is_finished : bool; is_detached : bool; live : bool }.
Record State : Type := mk_state { ct : cthread; runner : rpc; main : mpc; undefined : option ub }.

(** [free(thread->stack)] *)
Definition cthread_destroy (c : cthread) : option cthread :=
  if live c then Some (mk_cthread (is_finished c) (is_detached c) false) else None.

Definition cthread_runner (s : State) : option State :=
  let c := ct s in
  let go c r := if live (ct s) then Some (mk_state c r (main s) None)
                else Some (mk_state (ct s) (runner s) (main s) (Some UseAfterFree)) in
  match runner s with
  | Unborn => match main s with m_create => None | _ => go c r_func end
  | r_func => go c r_test
  | r_test => go c (if is_detached c then r_destroy else r_finish)
  | r_destroy =>
      match cthread_destroy c with
      | Some c => Some (mk_state c r_finish (main s) None)
      | None => Some (mk_state c (runner s) (main s) (Some DoubleFree))
      end
  | r_finish => go (mk_cthread true (is_detached c) (live c)) r_return
  | r_return => go c Gone
  | Gone => None
  end.

Definition main_step (s : State) : option State :=
  let c := ct s in
  match main s with
  | m_create => Some (mk_state (mk_cthread false false true) (runner s) m_test None)
  | m_test => Some (mk_state c (runner s) (if is_finished c then m_destroy else m_detach) None)
  | m_destroy =>
      match cthread_destroy c with
      | Some c => Some (mk_state c (runner s) m_detach None)
      | None => Some (mk_state c (runner s) (main s) (Some DoubleFree))
      end
  | m_detach => Some (mk_state (mk_cthread (is_finished c) true (live c)) (runner s) m_wait None)
  | m_wait => if is_finished c then Some (mk_state c (runner s) m_end None) else Some s
  | m_end => None
  end.

Definition step (l : bool) (s : State) : option State :=
  match undefined s with Some _ => None | None => if l then cthread_runner s else main_step s end.

Fixpoint run (ls : list bool) (s : State) : option State :=
  match ls with [] => Some s | l :: ls => step l s ≫= run ls end.

Definition start : State := mk_state (mk_cthread false false false) Unborn m_create None.

Definition past (r : rpc) : bool := match r with r_return | Gone => true | _ => false end.
Definition detached (m : mpc) : bool := match m with m_wait | m_end => true | _ => false end.

(** Which states there are: who freed the stack is seen from where both are. *)
Definition possible (s : State) : bool :=
  let c := ct s in
  match main s with
  | m_create => match runner s with Unborn => negb (is_finished c) && negb (is_detached c) | _ => false end
  | m_test | m_destroy =>
      live c && bool_decide (is_finished c = past (runner s)) && negb (is_detached c) &&
      match runner s with r_destroy => false | _ => true end &&
      match main s with m_destroy => is_finished c | _ => true end
  | m_detach =>
      bool_decide (is_finished c = past (runner s)) && negb (is_detached c) &&
      match runner s with r_destroy => false | _ => true end && (live c || past (runner s))
  | m_wait | m_end =>
      bool_decide (is_finished c = past (runner s)) && is_detached c &&
      match runner s with r_destroy => live c | r_finish | r_return | Gone => true | _ => live c end
  end.

(** No double free, and a use after a free only of the stack the thread is about to leave. *)
Definition harmless (s : State) : bool :=
  match undefined s with
  | None => true
  | Some UseAfterFree => negb (live (ct s)) && match runner s with r_finish | r_return => true | _ => false end
  | Some _ => false
  end.

Lemma step_possible l s s' : possible s = true → step l s = Some s' → possible s' = true ∧ harmless s' = true.
Proof.
  intros Hp E. assert (implb (possible s) (match step l s with Some s' => possible s' && harmless s' | None => true end) = true) as H.
  { clear. destruct s as [[f d a] r m [u|]]; [unfold step; cbn [undefined]; apply implb_true_r|].
    destruct l, m, r, f, d, a; reflexivity. }
  rewrite Hp, E in H. by apply andb_true_iff in H.
Qed.

Lemma run_possible ls s s' : possible s = true → run ls s = Some s' → undefined s = None →
  possible s' = true ∧ harmless s' = true.
Proof.
  revert s. induction ls as [|l ls IH]; cbn; intros s Hp E Hu.
  { injection E as <-. unfold harmless. by rewrite Hu. }
  destruct (step l s) as [s1|] eqn:E1; [|done]. cbn in E.
  destruct (step_possible l s s1 Hp E1) as [Hp1 Hs]. destruct (undefined s1) eqn:Eu; [|by apply IH with s1].
  destruct ls as [|l' ls]; cbn in E; [by injection E as <-|]. unfold step in E. by rewrite Eu in E.
Qed.

(** In every interleaving the stack is never freed twice, and what is undefined is that the thread
    still runs on the freed stack when it sets its flag or returns. *)
Theorem bad_detach_never_twice ls s : run ls start = Some s → harmless s = true.
Proof. intros E. by apply (run_possible ls start s). Qed.

(** [cthread_join], which [main] does not call: nothing while the thread runs. *)
Definition cthread_join (c : cthread) : option (option cthread) :=
  if is_finished c then Some (cthread_destroy c) else None.

(** Joining a detached thread that has released its stack frees it again; joining one that
    was not detached frees it once. *)
Lemma join_after_detach c : is_finished c = true → cthread_join c =
  Some (if live c then Some (mk_cthread true (is_detached c) false) else None).
Proof. intros H. unfold cthread_join, cthread_destroy. rewrite H. by destruct (live c). Qed.

Definition steps (k : nat) (l : bool) : list bool := repeat l k.

(** A thread that finds itself detached frees the stack that it runs on. *)
Lemma frees_its_own : option_map undefined (run (steps 3 false ++ steps 5 true) start) = Some (Some UseAfterFree).
Proof. reflexivity. Qed.

(** A thread that ends between the test and the assignment of [cthread_detach] is never released. *)
Lemma never_released : ∃ s, run (steps 2 false ++ steps 5 true ++ steps 2 false) start = Some s ∧
  main s = m_end ∧ runner s = Gone ∧ live (ct s) = true.
Proof. eexists. by repeat split. Qed.

End BadDetach.
